(* ===== verification/_CoqProject ===== *)
-Q . S2P
Prelude.v
Types.v
ValidatorSet.v
Codec.v
PeerBook.v
Encoding.v
Wal.v
Aggregate.v
Light.v
VoteCollector.v
State.v
Liveness.v
BlockStore.v
VsdbStore.v
EvidenceStore.v
World.v
Staking.v
Persist.v
Pacemaker.v
Commit.v
Mempool.v
ViewProtocol.v
VoteSafety.v
Voting.v
NodeSafety.v
Engine.v
Sync.v
SyncSafety.v
Samples.v
Utxo.v
UtxoSafety.v
Abci.v
AbciSamples.v
AbciSafety.v
Rpc.v
RpcSafety.v
TimeoutCert.v
Relay.v
Network.v
NetworkSafety.v
Startup.v
Node.v
Cluster.v
GoSdk.v
MessageGuard.v
EngineSafety.v
EngineVoting.v
System.v
Restart.v
Boundaries.v
