(* ===== verification/Prelude.v ===== *)
(** * Hotmint: a verification development for the HotStuff-2 consensus framework

    Hotmint ([src/]) is a Byzantine fault tolerant consensus framework in Rust:
    validators run the two-phase HotStuff-2 protocol over a peer-to-peer network,
    execute the committed blocks with an application, in the same process or in
    another one behind a socket, and serve clients over RPC.  This development
    models its components as executable definitions, named as in the source, and
    proves what makes them correct.  The paths below are under [src/crates/].

    ** Conventions

    - A [u64], [u32], [u16] or [usize] is an [N]; plain [+] wraps as it does in
      the release profile ([+w], [wrapping_add64]), [checked_add64] and
      [saturating_add64] are the checked and saturating operators.  Bytes are
      [list byte], text is [string], floating point is binary64 ([SpecFloat]).
    - [res E A] is [Ok], [Err] or [Panic]: a panic is an outcome of its own.
    - Code that mutates state runs in a state monad [SM W E A] whose world keeps
      what was written before a failure; calls on the network, the signer, the
      disk and the application are recorded in a trace, the most recent first.
      [wp m Q w] states what a computation does on all its outcomes.
    - A trait is a class; an interface between components has its laws in a
      second class ([BlockStoreLaws], [TxIndexLaws]), which the implementations
      prove and the clients use.
    - Code that is not under [src/] is a class with the laws that its
      documentation gives: [Blake3], [Verifier] and [Signer] (ed25519),
      [Ed25519Strict], [Postcard], [Zstd], [WalCodec], [Mapx], [VerMap] and
      [SlotDex] (the database), [Litep2p] and [L2pKeys], [Prost] and [GoProto]
      (protobuf), [SerdeJson], [HexCrate].  Each theorem that uses one has a
      witness at a concrete instance.

    ** Files

    This file holds the integer operations, the byte codes, the result type and
    the list, map and sum lemmas that the components share.

    Data and encodings.
    - [Types]: [hotmint-types/src/] - blocks, votes, certificates, messages.
    - [ValidatorSet]: [validator.rs], [leader.rs] - checked construction, quorum
      arithmetic, the weighted leader, updates.  A quorum intersects another one
      in an honest validator; leaders are fair; updates refine a finite map.
    - [Encoding]: every hashed and signed payload is injective and payloads of
      different kinds never coincide.
    - [Codec], [PeerBook]: network frames and the peer book.
    - [Aggregate], [TimeoutCert]: aggregate signatures, certificates and timeout
      certificates, accepted exactly when a quorum signed.

    The consensus of one node.
    - [State], [VoteCollector], [Pacemaker], [Liveness], [Commit],
      [ViewProtocol], [Engine]: the files of the same names in
      [hotmint-consensus/src/], every handler of the event loop included; [World]
      has the traits, the trace and the monad.
    - [MessageGuard]: a message that does not verify has no effect.

    Agreement.
    - [Voting]: two-phase voting in the abstract, as a step relation.
    - [VoteSafety], [NodeSafety], [EngineSafety], [EngineVoting]: the view
      protocol and the engine keep the voting discipline and refine [Voting].
    - [System]: the engines of the honest validators run side by side under an
      adversary who controls the network and the faulty validators; two blocks
      committed at one height are the same.
    - [Restart]: over any number of crashes a node never signs two blocks in one
      view, and its restored state covers what it has sent.

    Storage.
    - [BlockStore], [VsdbStore]: the interface with its laws, the in-memory store
      and the persistent one, which refines it; over every sequence of operations
      a certified height serves the certified block.
    - [EvidenceStore], [Persist], [Wal]: evidence, the persistent consensus state
      with what a crash may leave of it, and the log of commits, whose files are
      bytes and whose operations are system calls that a crash may tear.

    Around the engine.
    - [Sync], [SyncSafety]: block synchronisation authenticates, replays and
      checkpoints exactly what a live node commits, ends with every peer, and
      catches up with an honest one.
    - [Network], [NetworkSafety], [Relay]: the network service, event by event:
      its invariant, deduplicated relay, the ingress limit, and that exactly the
      messages their authors signed are relayed.
    - [Mempool]: admission, replacement, eviction, recheck and payloads.
    - [Staking]: the staking manager: conservation of stakes, slashing, updates.
    - [Light]: the light client accepts exactly certified extensions.
    - [Rpc], [RpcSafety]: the RPC API: connections end and answer their lines,
      rate limits, the effects of a request, and lookups of committed
      transactions.
    - [Abci], [AbciSamples], [AbciSafety]: the bridge to an application in another
      process: faithful, transparent, and each call on an idle connection served
      at most once, or twice when it may be repeated.
    - [GoSdk]: the server of the Go SDK ([sdk/go/]) is interchangeable with the
      Rust one.
    - [Utxo], [UtxoSafety]: the UTXO chain of [examples/utxo-chain]: the ledger
      refines a finite map, no output is spent twice or without its owner, and
      commits of the engine execute exactly the ledger.
    - [Startup], [Node], [Cluster]: [hotmint/src/bin/node.rs],
      [hotmint/src/config.rs], [hotmint-mgmt/src/cluster.rs]: the identity of a
      node, a new directory, a new cluster, synchronisation before the engine
      starts, and the state written back, which survives a crash.

    [Samples] has the concrete instances of the witnesses.  [Boundaries] has the
    runs in which the code departs from its intent; other such lemmas are next to
    the code they concern.

    ** Fuel and bounds

    - [Engine.try_propose] calls itself through the next view; its fuel bounds
      the number of views that one message can complete, and that of the walk
      over a proposal's ancestors their number.  Running out is the error
      [OutOfFuel] or [AncestorFuel], which the source does not have; the safety
      theorems hold for every fuel, on every outcome.
    - [Sync.sync_loop] runs with the distance to the peer's height, since each
      turn commits a block; [sync_to_tip_live] shows that it never runs out.
    - [Wal.scan], [Abci.handle_connection], [GoSdk.handleConn], [Rpc.serve_connection]
      consume their input; its length is fuel enough, and the theorems show it.
    - Numeric limits (frame sizes, rate limits, batch sizes, timeouts) are those
      of the source.

    ** Assumptions

    - Agreement assumes faulty power within the bound of the validator set, no
      honest validator with a quorum of its own, no forged signature of an honest
      validator, no two blocks of the run with the same hash, an application
      without validator updates, and runs without restarts; [Restart] has what
      is proved of restarts.
    - Locks and mutexes make an operation one step; tasks interleave between
      operations.

    ** Not modelled

    - The wiring of tasks, channels and sockets ([tokio], the accept loops, the
      supervision in [run_node] and its re-synchronisation after a reconnect), the
      command lines, logging and metrics: they have no state of their own beyond
      the parts above.
    - The text of the JSON and TOML files and the metadata files of the database:
      serialisation is the libraries'; a file is the value it denotes.
    - [hotmint-mgmt/src/local.rs] and [remote.rs] (processes, the shell, ssh), the
      demo and benchmark programs, and the protobuf code that is generated: they
      drive or are generated from what is modelled.
    - The state proofs of the light client and the snapshots: the code only
      forwards them to the database and to the application.
    - Liveness of the consensus itself, which depends on timing; the schedule of
      the timeouts and the formation of timeout certificates are proved. *)

From Stdlib Require Export Lia ZArith NArith Permutation.
From coqutil Require Export Byte Word.LittleEndianList.
From stdpp Require Export numbers strings sets gmap base tactics list.

Notation x00 := Corelib.Init.Byte.x00.
Notation x01 := Corelib.Init.Byte.x01.
Notation x02 := Corelib.Init.Byte.x02.

#[global] Open Scope N_scope.

(** ** Machine integers

    A [u64], [u32] or [usize] is an [N] below [2 ^ w].  Rust's plain [+] wraps
    in the release profile (the workspace sets no [overflow-checks]); the
    checked and saturating operators are the standard library's. *)

Declare Scope hotmint_scope.
Delimit Scope hotmint_scope with hot.
#[global] Open Scope hotmint_scope.

Definition u64_max : N := 18446744073709551615.
Definition u32_max : N := 4294967295.

Definition checked_add64 (a b : N) : option N :=
  if a + b <=? u64_max then Some (a + b) else None.

Definition checked_sub (a b : N) : option N :=
  if b <=? a then Some (a - b) else None.

Definition saturating_add64 (a b : N) : N := N.min (a + b) u64_max.

Definition saturating_sub (a b : N) : N := a - b.

Definition wrapping_add64 (a b : N) : N := (a + b) mod (u64_max + 1).

Definition wrapping_add32 (a b : N) : N := (a + b) mod (u32_max + 1).

Notation "a +w b" := (wrapping_add64 a b) (at level 50, left associativity) : hotmint_scope.

(** Linear arithmetic with division and modulo by constants, and with the
    machine-width constants unfolded. *)
Ltac div_lia :=
  unfold checked_add64, checked_sub, saturating_add64, saturating_sub,
    wrapping_add64, wrapping_add32, u64_max, u32_max in *;
  zify; Z.to_euclidean_division_equations; lia.

Lemma checked_add64_Some a b c :
  checked_add64 a b = Some c ↔ c = a + b ∧ a + b ≤ u64_max.
Proof. unfold checked_add64. destruct (N.leb_spec (a + b) u64_max); naive_solver lia. Qed.

Lemma checked_add64_None a b : checked_add64 a b = None ↔ u64_max < a + b.
Proof. unfold checked_add64. destruct (N.leb_spec (a + b) u64_max); naive_solver lia. Qed.

Lemma wrapping_add64_small a b : a + b ≤ u64_max → a +w b = a + b.
Proof. intros H. unfold wrapping_add64. apply N.mod_small. unfold u64_max in *. lia. Qed.

(** [a.wrapping_sub(b)] *)
Definition wrapping_sub64 (a b : N) : N := (a + (u64_max + 1) - b) mod (u64_max + 1).

Lemma wrapping_sub64_small a b : b ≤ a → a ≤ u64_max → wrapping_sub64 a b = a - b.
Proof.
  intros Hb Ha. unfold wrapping_sub64. replace (a + (u64_max + 1) - b) with (a - b + 1 * (u64_max + 1)) by lia.
  rewrite N.Div0.mod_add. apply N.mod_small. lia.
Qed.

(** ** Results

    A call returns a value, an error of the component's own error type, or
    panics ([expect], [unwrap], [panic!], an out-of-range index). *)

Inductive res (E A : Type) : Type :=
| Ok (a : A)
| Err (e : E)
| Panic.
Arguments Ok {E A} a.
Arguments Err {E A} e.
Arguments Panic {E A}.

#[global] Instance res_ret {E} : MRet (res E) := λ A a, Ok a.
#[global] Instance res_bind {E} : MBind (res E) := λ A B f m,
  match m with Ok a => f a | Err e => Err e | Panic => Panic end.
#[global] Instance res_fmap {E} : FMap (res E) := λ A B f m,
  match m with Ok a => Ok (f a) | Err e => Err e | Panic => Panic end.

(** [opt.ok_or(e)?] *)
Definition ok_or {E A} (o : option A) (e : E) : res E A :=
  match o with Some a => Ok a | None => Err e end.

(** [opt.expect(..)] *)
Definition expect {E A} (o : option A) : res E A :=
  match o with Some a => Ok a | None => Panic end.

(** [if b { return Err(e) }] *)
Definition guard_err {E} (b : bool) (e : E) : res E unit :=
  if b then Err e else Ok ().

Definition is_ok {E A} (r : res E A) : bool :=
  match r with Ok _ => true | _ => false end.

Lemma res_bind_Ok {E A B} (m : res E A) (f : A → res E B) b :
  m ≫= f = Ok b ↔ ∃ a, m = Ok a ∧ f a = Ok b.
Proof. destruct m; naive_solver. Qed.

Lemma ok_or_Ok {E A} (o : option A) (e : E) a : ok_or o e = Ok a ↔ o = Some a.
Proof. destruct o; naive_solver. Qed.

Lemma guard_err_Ok {E} b (e : E) u : guard_err b e = Ok u ↔ b = false.
Proof. destruct b, u; naive_solver. Qed.

(** Break a successful monadic computation into its steps. *)
Ltac res_inv :=
  repeat match goal with
  | H : _ ≫= _ = Ok _ |- _ => apply res_bind_Ok in H as (?&?&H)
  | H : mbind _ _ = Ok _ |- _ => apply res_bind_Ok in H as (?&?&H)
  | H : ok_or _ _ = Ok _ |- _ => apply ok_or_Ok in H
  | H : guard_err _ _ = Ok _ |- _ => apply guard_err_Ok in H
  | H : mret _ = Ok _ |- _ => injection H as H
  | H : Ok _ = Ok _ |- _ => injection H as H
  | H : Err _ = Ok _ |- _ => discriminate H
  | H : Panic = Ok _ |- _ => discriminate H
  end; simplify_eq.

(** Turn boolean tests of the code into propositions. *)
Lemma bool_decide_negb_true (P : Prop) `{Decision P} :
  negb (bool_decide P) = true ↔ ¬ P.
Proof. rewrite negb_true_iff, bool_decide_eq_false. done. Qed.

Lemma bool_decide_negb_false (P : Prop) `{Decision P} :
  negb (bool_decide P) = false ↔ P.
Proof. rewrite negb_false_iff, bool_decide_eq_true. done. Qed.

Ltac bool_prop :=
  repeat match goal with
  | H : _ && _ = true |- _ => apply andb_true_iff in H as [? H]
  | H : _ || _ = false |- _ => apply orb_false_iff in H as [? H]
  | H : negb (bool_decide _) = true |- _ => apply bool_decide_negb_true in H
  | H : negb (bool_decide _) = false |- _ => apply bool_decide_negb_false in H
  | H : bool_decide _ = true |- _ => apply bool_decide_eq_true in H
  | H : bool_decide _ = false |- _ => apply bool_decide_eq_false in H
  | H : negb _ = true |- _ => apply negb_true_iff in H
  | H : negb _ = false |- _ => apply negb_false_iff in H
  | H : (_ <=? _) = true |- _ => apply N.leb_le in H
  | H : (_ <=? _) = false |- _ => apply N.leb_gt in H
  | H : (_ <? _) = true |- _ => apply N.ltb_lt in H
  | H : (_ <? _) = false |- _ => apply N.ltb_ge in H
  | H : (_ =? _) = true |- _ => apply N.eqb_eq in H
  | H : (_ =? _) = false |- _ => apply N.eqb_neq in H
  end.

(** ** Bytes *)

#[global] Instance byte_eq_dec : EqDecision byte := Byte.byte_eq_dec.
#[global] Instance byte_countable : Countable byte.
Proof.
  refine (inj_countable Byte.to_N Byte.of_N _). apply Byte.of_to_N.
Defined.

Definition u64_le (n : N) : list byte := le_split 8 (Z.of_N n).
Definition u32_le (n : N) : list byte := le_split 4 (Z.of_N n).
Definition le_u32 (bs : list byte) : N := Z.to_N (le_combine bs).
Definition le_u64 (bs : list byte) : N := Z.to_N (le_combine bs).
Definition zeros (n : nat) : list byte := replicate n x00.

#[global] Arguments u64_le _ : simpl never.
#[global] Arguments u32_le _ : simpl never.
#[global] Arguments zeros _ : simpl never.

Lemma length_u64_le n : length (u64_le n) = 8%nat.
Proof. apply length_le_split. Qed.

Lemma length_u32_le n : length (u32_le n) = 4%nat.
Proof. apply length_le_split. Qed.

Lemma le_u64_u64_le n : n ≤ u64_max → le_u64 (u64_le n) = n.
Proof.
  intros H. unfold le_u64, u64_le. rewrite le_combine_split, Z.mod_small.
  - lia.
  - unfold u64_max in H. change (2 ^ (Z.of_nat 8 * 8))%Z with 18446744073709551616%Z. lia.
Qed.

Lemma le_u32_u32_le n : n ≤ u32_max → le_u32 (u32_le n) = n.
Proof.
  intros H. unfold le_u32, u32_le. rewrite le_combine_split, Z.mod_small.
  - lia.
  - unfold u32_max in H. change (2 ^ (Z.of_nat 4 * 8))%Z with 4294967296%Z. lia.
Qed.

Lemma u64_le_inj a b : a ≤ u64_max → b ≤ u64_max → u64_le a = u64_le b → a = b.
Proof. intros Ha Hb E. rewrite <- (le_u64_u64_le a), <- (le_u64_u64_le b), E; done. Qed.

Lemma le_u32_bound bs : length bs = 4%nat → le_u32 bs ≤ u32_max.
Proof.
  intros H. unfold le_u32. pose proof (le_combine_bound bs) as Hb. rewrite H in Hb.
  change (2 ^ (8 * Z.of_nat 4))%Z with 4294967296%Z in Hb. unfold u32_max. lia.
Qed.

Lemma u32_le_le_u32 bs : length bs = 4%nat → u32_le (le_u32 bs) = bs.
Proof.
  intros H. unfold u32_le, le_u32. pose proof (le_combine_bound bs) as Hb.
  rewrite Z2N.id by lia. rewrite <- H. apply split_le_combine.
Qed.

Lemma u64_le_le_u64 bs : length bs = 8%nat → u64_le (le_u64 bs) = bs.
Proof.
  intros H. unfold u64_le, le_u64. pose proof (le_combine_bound bs) as Hb.
  rewrite Z2N.id by lia. rewrite <- H. apply split_le_combine.
Qed.

(** ** Sums over lists *)

Definition sumN {A} (f : A → N) (l : list A) : N := foldr (λ x acc, f x + acc) 0 l.

Lemma sumN_nil {A} (f : A → N) : sumN f [] = 0.
Proof. done. Qed.

Lemma sumN_cons {A} (f : A → N) x l : sumN f (x :: l) = f x + sumN f l.
Proof. done. Qed.

Lemma sumN_app {A} (f : A → N) l k : sumN f (l ++ k) = sumN f l + sumN f k.
Proof. induction l as [|x l IH]; simpl; [done|]. rewrite IH. lia. Qed.

Lemma sumN_perm {A} (f : A → N) l k : l ≡ₚ k → sumN f l = sumN f k.
Proof. induction 1; simpl; lia. Qed.

Lemma sumN_elem {A} (f : A → N) l x : x ∈ l → f x ≤ sumN f l.
Proof. induction 1; simpl; lia. Qed.

Lemma sumN_ext {A} (f g : A → N) l : (∀ x, x ∈ l → f x = g x) → sumN f l = sumN g l.
Proof.
  induction l as [|x l IH]; intros H; simpl; [done|].
  rewrite H, IH; [done|..]; intros; try apply H; set_solver.
Qed.

Lemma sumN_le {A} (f g : A → N) l : (∀ x, x ∈ l → f x ≤ g x) → sumN f l ≤ sumN g l.
Proof.
  induction l as [|x l IH]; intros H; simpl; [done|].
  apply N.add_le_mono; [apply H; left|apply IH; intros; apply H; by right].
Qed.

Lemma sumN_take_le {A} (f : A → N) n l : sumN f (take n l) ≤ sumN f l.
Proof. rewrite <- (take_drop n l) at 2. rewrite sumN_app. lia. Qed.

(** [u64] summation with an overflow check at each step. *)
Fixpoint checked_sum {A} (f : A → N) (acc : N) (l : list A) : option N :=
  match l with
  | [] => Some acc
  | x :: l => s ← checked_add64 acc (f x); checked_sum f s l
  end.

Lemma checked_sum_Some {A} (f : A → N) l acc :
  acc + sumN f l ≤ u64_max → checked_sum f acc l = Some (acc + sumN f l).
Proof.
  revert acc. induction l as [|x l IH]; intros acc H; simpl in *; [f_equal; lia|].
  rewrite (proj2 (checked_add64_Some acc (f x) (acc + f x))) by lia.
  simpl. rewrite IH; [f_equal|]; lia.
Qed.

Lemma foldl_wrapping_sum {A} (f : A → N) acc l :
  acc + sumN f l ≤ u64_max → foldl (λ p x, p +w f x) acc l = acc + sumN f l.
Proof.
  revert acc. induction l as [|x l IH]; intros acc Hb; simpl in *; [lia|].
  rewrite wrapping_add64_small by lia. rewrite IH; lia.
Qed.

(** ** Lists *)

Lemma foldl_snoc {A B} (f : B → A → B) b l x :
  foldl f b (l ++ [x]) = f (foldl f b l) x.
Proof. by rewrite foldl_app. Qed.

(** [for (i, x) in l.iter().enumerate()], folding [f] over an accumulator. *)
Fixpoint enumerate_foldl {A B} (f : nat → B → A → B) (i : nat) (b : B) (l : list A) : B :=
  match l with
  | [] => b
  | x :: l => enumerate_foldl f (S i) (f i b x) l
  end.

Lemma enumerate_foldl_ind {A B} (P : B → Prop) (f : nat → B → A → B) i b l :
  P b → (∀ j b x, x ∈ l → P b → P (f j b x)) → P (enumerate_foldl f i b l).
Proof.
  revert i b. induction l as [|x l IH]; intros i b Hb Hf; simpl; [done|].
  apply IH; [apply Hf; [left|done]|]. intros. apply Hf; [by right|done].
Qed.

Lemma list_find_elem {A} (P : A → Prop) `{∀ x, Decision (P x)} l x :
  x ∈ l → P x → ∃ i y, list_find P l = Some (i, y).
Proof.
  intros Hx HP. destruct (list_find P l) as [[i y]|] eqn:E; [by eauto|].
  apply list_find_None in E. rewrite Forall_forall in E. by destruct (E x Hx).
Qed.

Section Filter.
Context {A : Type} (P Q : A → Prop) `{∀ x, Decision (P x), ∀ x, Decision (Q x)}.

Implicit Types l : list A.

Lemma filter_none l : (∀ x, x ∈ l → ¬ P x) → filter P l = [].
Proof.
  induction l as [|x l IH]; intros Hl; [done|]. rewrite filter_cons.
  rewrite decide_False by (apply Hl; left). apply IH. intros. apply Hl. by right.
Qed.

Lemma filter_all l : (∀ x, x ∈ l → P x) → filter P l = l.
Proof.
  induction l as [|x l IH]; intros Hl; [done|]. rewrite filter_cons.
  rewrite decide_True by (apply Hl; left). f_equal. apply IH. intros. apply Hl. by right.
Qed.

Lemma filter_iff_elem l : (∀ x, x ∈ l → P x ↔ Q x) → filter P l = filter Q l.
Proof.
  induction l as [|x l IH]; intros Hl; [done|]. rewrite !filter_cons.
  rewrite IH by (intros; apply Hl; by right). specialize (Hl x ltac:(left)).
  repeat case_decide; tauto || done.
Qed.
End Filter.

Lemma filter_fmap {A B} (f : A → B) (P : B → Prop) `{∀ x, Decision (P x)} (l : list A) :
  filter P (f <$> l) = f <$> filter (λ x, P (f x)) l.
Proof.
  induction l as [|x l IH]; [done|]. csimpl. rewrite !filter_cons, IH. by case_decide.
Qed.

(** The integers of [[start, start + len)], in order. *)
Definition seqN (start len : N) : list N :=
  (λ k, start + N.of_nat k) <$> seq 0 (N.to_nat len).

Lemma seqN_app s a b : seqN s (a + b) = seqN s a ++ seqN (s + a) b.
Proof.
  unfold seqN. rewrite N2Nat.inj_add, seq_app, fmap_app. f_equal. simpl.
  rewrite <- (Nat.add_0_r (N.to_nat a)) at 1. rewrite <- fmap_add_seq, <- list_fmap_compose.
  apply list_fmap_ext. intros i k _. simpl. lia.
Qed.

Lemma length_seqN s n : length (seqN s n) = N.to_nat n.
Proof. unfold seqN. by rewrite length_fmap, length_seq. Qed.

Lemma elem_of_seqN s n k : k ∈ seqN s n ↔ s ≤ k < s + n.
Proof.
  unfold seqN. rewrite list_elem_of_fmap. setoid_rewrite elem_of_seq. split.
  - intros (j&->&?). lia.
  - intros ?. exists (N.to_nat (k - s)). lia.
Qed.

(** Peel fixed-width fields off two equal concatenations. *)
Ltac app_peel H :=
  apply app_inj_1 in H as [? H]; [|by rewrite ?length_u64_le, ?length_u32_le; try congruence].

(** ** Automation *)

Create HintDb hot.
#[export] Hint Rewrite @sumN_app @sumN_cons @sumN_nil length_u64_le length_u32_le : hot.
#[export] Hint Resolve wrapping_add64_small length_u64_le length_u32_le sumN_elem : hot.

(** ** Byte strings in lexicographic order *)

Fixpoint bytes_cmp (a b : list byte) : comparison :=
  match a, b with
  | [], [] => Eq
  | [], _ :: _ => Lt
  | _ :: _, [] => Gt
  | x :: a, y :: b =>
      match Z.compare (byte.unsigned x) (byte.unsigned y) with Eq => bytes_cmp a b | c => c end
  end.

Lemma byte_unsigned_inj (x y : byte) : byte.unsigned x = byte.unsigned y → x = y.
Proof. intros E. rewrite <- (byte.of_Z_unsigned x), <- (byte.of_Z_unsigned y). by rewrite E. Qed.

Lemma bytes_cmp_eq a b : bytes_cmp a b = Eq ↔ a = b.
Proof.
  revert b. induction a as [|x a IH]; intros [|y b]; simpl; try done.
  destruct (Z.compare_spec (byte.unsigned x) (byte.unsigned y)) as [E|?|?].
  - apply byte_unsigned_inj in E as ->. rewrite IH. naive_solver.
  - split; [done|]. intros [= -> ->]. lia.
  - split; [done|]. intros [= -> ->]. lia.
Qed.

Lemma bytes_cmp_antisym a b : bytes_cmp b a = CompOpp (bytes_cmp a b).
Proof.
  revert b. induction a as [|x a IH]; intros [|y b]; simpl; try done.
  rewrite (Z.compare_antisym (byte.unsigned x)).
  destruct (Z.compare (byte.unsigned x) (byte.unsigned y)); simpl; auto.
Qed.

Lemma bytes_cmp_trans a b c : bytes_cmp a b = Lt → bytes_cmp b c = Lt → bytes_cmp a c = Lt.
Proof.
  revert b c. induction a as [|x a IH]; intros [|y b] [|z c]; simpl; try done.
  destruct (Z.compare_spec (byte.unsigned x) (byte.unsigned y)) as [Exy|?|?], (Z.compare_spec (byte.unsigned y) (byte.unsigned z)) as [Eyz|?|?];
    try done; intros; destruct (Z.compare_spec (byte.unsigned x) (byte.unsigned z)); try lia; try done.
  by eapply IH.
Qed.
