(* ===== verification/Types.v ===== *)
(** * Data types of [crates/hotmint-types]

    The records and enums that the consensus engine, the stores and the wire
    messages share, with the source's fields and constructors.  Newtypes over
    [u64] ([ViewNumber], [Height], [EpochNumber], [ValidatorId]) are [N]; byte
    arrays ([BlockHash], [Signature], [PublicKey]) are lists of bytes. *)

From S2P Require Import Prelude.

Notation ViewNumber := N (only parsing).
Notation Height := N (only parsing).
Notation EpochNumber := N (only parsing).
Notation ValidatorId := N (only parsing).
Notation BlockHash := (list byte) (only parsing).
Notation Signature := (list byte) (only parsing).
Notation PublicKey := (list byte) (only parsing).
Notation bytes := (list byte) (only parsing).

(** ** Counters: [next] panics on overflow *)

Definition ViewNumber_next {E} (v : ViewNumber) : res E ViewNumber :=
  expect (checked_add64 v 1).

Definition Height_next {E} (h : Height) : res E Height :=
  expect (checked_add64 h 1).

Definition EpochNumber_next {E} (e : EpochNumber) : res E EpochNumber :=
  expect (checked_add64 e 1).

Definition GENESIS_HASH : BlockHash := zeros 32.

Definition is_genesis (h : BlockHash) : bool := bool_decide (h = zeros 32).

(** ** Votes and evidence *)

Inductive VoteType : Type := TVote | TVote2.

Record Vote : Type := mkVote {
  v_epoch : EpochNumber;
  v_block_hash : BlockHash;
  v_view : ViewNumber;
  v_validator : ValidatorId;
  v_signature : Signature;
  v_vote_type : VoteType;
  v_extension : option bytes;
}.

Record EquivocationProof : Type := mkEquivocationProof {
  ep_validator : ValidatorId;
  ep_view : ViewNumber;
  ep_vote_type : VoteType;
  ep_epoch : EpochNumber;
  ep_block_hash_a : BlockHash;
  ep_signature_a : Signature;
  ep_extension_a : option bytes;
  ep_block_hash_b : BlockHash;
  ep_signature_b : Signature;
  ep_extension_b : option bytes;
}.

(** ** Blocks *)

Record Block : Type := mkBlock {
  b_height : Height;
  b_parent_hash : BlockHash;
  b_view : ViewNumber;
  b_proposer : ValidatorId;
  b_timestamp : N;
  b_payload : bytes;
  b_app_hash : BlockHash;
  b_evidence : list EquivocationProof;
  b_hash : BlockHash;
}.

Definition Block_genesis : Block :=
  mkBlock 0 GENESIS_HASH 0 0 0 [] GENESIS_HASH [] GENESIS_HASH.

Definition set_hash (b : Block) (h : BlockHash) : Block :=
  mkBlock (b_height b) (b_parent_hash b) (b_view b) (b_proposer b) (b_timestamp b)
    (b_payload b) (b_app_hash b) (b_evidence b) h.

(** ** Signatures and certificates *)

Record AggregateSignature : Type := mkAgg {
  agg_signers : list bool;
  agg_signatures : list Signature;
}.

Record QuorumCertificate : Type := mkQC {
  qc_block_hash : BlockHash;
  qc_view : ViewNumber;
  qc_aggregate_signature : AggregateSignature;
  qc_epoch : EpochNumber;
}.

(** [QuorumCertificate::rank] *)
Definition qc_rank (qc : QuorumCertificate) : ViewNumber := qc_view qc.

Record DoubleCertificate : Type := mkDC {
  dc_inner_qc : QuorumCertificate;
  dc_outer_qc : QuorumCertificate;
  dc_vote_extensions : list (ValidatorId * bytes);
}.

Record TimeoutCertificate : Type := mkTC {
  tc_view : ViewNumber;
  tc_aggregate_signature : AggregateSignature;
  tc_highest_qcs : list (option QuorumCertificate);
}.

(** ** Validators *)

Record ValidatorInfo : Type := mkValidatorInfo {
  vi_id : ValidatorId;
  vi_public_key : PublicKey;
  vi_power : N;
}.

Record ValidatorUpdate : Type := mkValidatorUpdate {
  vu_id : ValidatorId;
  vu_public_key : PublicKey;
  vu_power : N;
}.

(** [total_power] and [index_map] cache what [validators] determines. *)
Record ValidatorSet : Type := mkValidatorSet {
  vs_validators : list ValidatorInfo;
  vs_total_power : N;
  vs_index_map : gmap N nat;
}.

Record Epoch : Type := mkEpoch {
  e_number : EpochNumber;
  e_start_view : ViewNumber;
  e_validator_set : ValidatorSet;
}.

Definition Epoch_genesis (vs : ValidatorSet) : Epoch := mkEpoch 0 1 vs.

Definition Epoch_contains_view (e : Epoch) (view : ViewNumber) : bool :=
  e_start_view e <=? view.

(** ** Application-facing types *)

Record EventAttribute : Type := mkEventAttribute { ea_key : string; ea_value : string }.

Record Event : Type := mkEvent { ev_type : string; ev_attributes : list EventAttribute }.

Record EndBlockResponse : Type := mkEndBlockResponse {
  ebr_validator_updates : list ValidatorUpdate;
  ebr_events : list Event;
  ebr_app_hash : BlockHash;
}.

Definition EndBlockResponse_default : EndBlockResponse :=
  mkEndBlockResponse [] [] GENESIS_HASH.

Record BlockContext : Type := mkBlockContext {
  bc_height : Height;
  bc_view : ViewNumber;
  bc_proposer : ValidatorId;
  bc_epoch : EpochNumber;
  bc_epoch_start_view : ViewNumber;
  bc_validator_set : ValidatorSet;
  bc_timestamp : N;
  bc_vote_extensions : list (ValidatorId * bytes);
}.

(** ** Wire messages *)

Inductive ConsensusMessage : Type :=
| Propose (block : Block) (justify : QuorumCertificate)
    (double_cert : option DoubleCertificate) (signature : Signature)
    (ancestor_blocks : list Block)
| VoteMsg (vote : Vote)
| Prepare (certificate : QuorumCertificate) (signature : Signature)
| Vote2Msg (vote : Vote)
| Wish (target_view : ViewNumber) (validator : ValidatorId)
    (highest_qc : option QuorumCertificate) (signature : Signature)
| TimeoutCert (tc : TimeoutCertificate)
| StatusCert (locked_qc : option QuorumCertificate) (validator : ValidatorId)
    (signature : Signature)
| Evidence (proof : EquivocationProof).

(** ** Decidable equality *)

#[global] Instance VoteType_eq_dec : EqDecision VoteType.
Proof. solve_decision. Defined.
#[global] Instance VoteType_countable : Countable VoteType.
Proof.
  refine (inj_countable' (λ t, match t with TVote => false | TVote2 => true end)
            (λ b : bool, if b then TVote2 else TVote) _).
  by intros [].
Defined.
#[global] Instance Vote_eq_dec : EqDecision Vote.
Proof. solve_decision. Defined.
#[global] Instance EquivocationProof_eq_dec : EqDecision EquivocationProof.
Proof. solve_decision. Defined.
#[global] Instance Block_eq_dec : EqDecision Block.
Proof. solve_decision. Defined.
#[global] Instance AggregateSignature_eq_dec : EqDecision AggregateSignature.
Proof. solve_decision. Defined.
#[global] Instance QuorumCertificate_eq_dec : EqDecision QuorumCertificate.
Proof. solve_decision. Defined.
#[global] Instance ValidatorInfo_eq_dec : EqDecision ValidatorInfo.
Proof. solve_decision. Defined.

(** [vote_type as u8] *)
Definition vote_type_u8 (t : VoteType) : byte :=
  match t with TVote => x00 | TVote2 => x01 end.

(** ** Hashing

    [blake3] is the hash of a third-party crate; its output is 32 bytes. *)
Class Blake3 : Type := {
  blake3 : bytes → bytes;
  blake3_length : ∀ m, length (blake3 m) = 32%nat;
}.

(** ** Signatures

    The [Signer] and [Verifier] traits: a node signs with its own key, and
    anyone checks a signature against a public key. *)
Class Verifier : Type := { verify : PublicKey → bytes → Signature → bool }.

Class Signer : Type := {
  sign : bytes → Signature;
  signer_public_key : PublicKey;
  signer_validator_id : ValidatorId;
}.
