(* ===== verification/ValidatorSet.v ===== *)
(** * Validator sets ([crates/hotmint-types/src/validator.rs])

    Construction with its checks, the quorum arithmetic, the power-weighted
    leader, the id lookups and the application of validator updates, with the
    well-formedness invariant that every constructor establishes. *)

From S2P Require Import Prelude Types.

(** The error strings of [try_from_parts], as constructors. *)
Inductive vs_error : Type :=
| TotalPowerOverflow (id : ValidatorId)
| TotalPowerMismatch (serialized computed : N)
| ZeroTotalPower
| DuplicateId (id : ValidatorId)
| InvalidKeyLength (id : ValidatorId) (len : nat)
| DuplicatePublicKey (id : ValidatorId).

Fixpoint try_fold_power (acc : N) (validators : list ValidatorInfo) : res vs_error N :=
  match validators with
  | [] => Ok acc
  | v :: rest =>
      s ← ok_or (checked_add64 acc (vi_power v)) (TotalPowerOverflow (vi_id v));
      try_fold_power s rest
  end.

Definition compute_total_power (validators : list ValidatorInfo) : res vs_error N :=
  try_fold_power 0 validators.

(** The loop that fills the [ids] and [public_keys] hash sets. *)
Fixpoint check_validators (ids : gset N) (public_keys : gset bytes)
    (validators : list ValidatorInfo) : res vs_error unit :=
  match validators with
  | [] => Ok ()
  | v :: rest =>
      if bool_decide (vi_id v ∈ ids) then Err (DuplicateId (vi_id v))
      else if negb (bool_decide (length (vi_public_key v) = 32%nat)) then
        Err (InvalidKeyLength (vi_id v) (length (vi_public_key v)))
      else if bool_decide (vi_public_key v ∈ public_keys) then
        Err (DuplicatePublicKey (vi_id v))
      else check_validators ({[vi_id v]} ∪ ids) ({[vi_public_key v]} ∪ public_keys) rest
  end.

(** [validators.iter().enumerate().map(|(i, v)| (v.id, i)).collect()] *)
Fixpoint index_from (i : nat) (m : gmap N nat) (validators : list ValidatorInfo) : gmap N nat :=
  match validators with
  | [] => m
  | v :: rest => index_from (S i) (<[vi_id v := i]> m) rest
  end.

Definition build_index (validators : list ValidatorInfo) : gmap N nat :=
  index_from 0 ∅ validators.

Definition try_from_parts (validators : list ValidatorInfo) (total_power : N)
    : res vs_error ValidatorSet :=
  computed ← compute_total_power validators;
  if negb (total_power =? computed) then Err (TotalPowerMismatch total_power computed)
  else if negb (bool_decide (validators = [])) && (total_power =? 0) then Err ZeroTotalPower
  else
    _ ← check_validators ∅ ∅ validators;
    Ok (mkValidatorSet validators total_power (build_index validators)).

Definition try_new (validators : list ValidatorInfo) : res vs_error ValidatorSet :=
  total_power ← compute_total_power validators;
  try_from_parts validators total_power.

(** [ValidatorSet::new]: [try_new] with [expect]. *)
Definition new (validators : list ValidatorInfo) : res vs_error ValidatorSet :=
  match try_new validators with
  | Ok vs => Ok vs
  | _ => Panic
  end.

Definition rebuild_index (vs : ValidatorSet) : ValidatorSet :=
  mkValidatorSet (vs_validators vs) (vs_total_power vs) (build_index (vs_validators vs)).

Definition quorum_threshold (vs : ValidatorSet) : N :=
  (vs_total_power vs * 2 / 3 + 1) mod (u64_max + 1).

Definition max_faulty_power (vs : ValidatorSet) : N :=
  saturating_sub (vs_total_power vs) (quorum_threshold vs).

(** The scan of [leader_for_view]; [None] when no slot contains [slot]. *)
Fixpoint find_slot (slot cumulative : N) (validators : list ValidatorInfo)
    : option ValidatorInfo :=
  match validators with
  | [] => None
  | v :: rest =>
      let cumulative := cumulative +w vi_power v in
      if slot <? cumulative then Some v else find_slot slot cumulative rest
  end.

Definition leader_for_view (vs : ValidatorSet) (view : ViewNumber) : option ValidatorInfo :=
  if bool_decide (vs_validators vs = []) || (vs_total_power vs =? 0) then None
  else
    let slot := view mod vs_total_power vs in
    match find_slot slot 0 (vs_validators vs) with
    | Some v => Some v
    | None => last (vs_validators vs)
    end.

Definition validator_count (vs : ValidatorSet) : nat := length (vs_validators vs).

Definition index_of (vs : ValidatorSet) (id : ValidatorId) : option nat :=
  vs_index_map vs !! id.

(** [self.validators[idx]] panics out of range; [vs_wf] excludes it, and the
    lookup then returns the entry. *)
Definition get (vs : ValidatorSet) (id : ValidatorId) : option ValidatorInfo :=
  idx ← vs_index_map vs !! id; vs_validators vs !! idx.

Definition power_of (vs : ValidatorSet) (id : ValidatorId) : N :=
  match get vs id with Some v => vi_power v | None => 0 end.

(** [infos.iter_mut().find(|v| v.id == update.id)] with the assignments to
    the found entry; [None] when no entry has the id. *)
Fixpoint update_existing (u : ValidatorUpdate) (infos : list ValidatorInfo)
    : option (list ValidatorInfo) :=
  match infos with
  | [] => None
  | v :: rest =>
      if vi_id v =? vu_id u then
        Some (mkValidatorInfo (vi_id v) (vu_public_key u) (vu_power u) :: rest)
      else cons v <$> update_existing u rest
  end.

Definition apply_update (infos : list ValidatorInfo) (u : ValidatorUpdate)
    : list ValidatorInfo :=
  if vu_power u =? 0 then filter (λ v, vi_id v ≠ vu_id u) infos
  else match update_existing u infos with
       | Some infos' => infos'
       | None => infos ++ [mkValidatorInfo (vu_id u) (vu_public_key u) (vu_power u)]
       end.

Definition try_apply_updates (vs : ValidatorSet) (updates : list ValidatorUpdate)
    : res vs_error ValidatorSet :=
  try_new (foldl apply_update (vs_validators vs) updates).

(** [apply_updates]: [try_apply_updates] with [expect]. *)
Definition apply_updates (vs : ValidatorSet) (updates : list ValidatorUpdate)
    : res vs_error ValidatorSet :=
  match try_apply_updates vs updates with
  | Ok vs' => Ok vs'
  | _ => Panic
  end.

(** [ValidatorId::from_public_key]: the first eight bytes of the key's hash. *)
Definition from_public_key `{Blake3} (public_key : PublicKey) : ValidatorId :=
  le_u64 (take 8 (blake3 public_key)).

(** [from_signers]: one unit of power per signer. *)
Definition from_signers (signers : list Signer) : res vs_error ValidatorSet :=
  new ((λ s : Signer, mkValidatorInfo (@signer_validator_id s) (@signer_public_key s) 1) <$> signers).

(** [leader::is_leader] and [leader::next_leader] *)
Definition is_leader (vs : ValidatorSet) (view : ViewNumber) (id : ValidatorId) : bool :=
  match leader_for_view vs view with
  | Some l => vi_id l =? id
  | None => false
  end.

Definition next_leader {E} (vs : ValidatorSet) (view : ViewNumber) : res E ValidatorId :=
  next ← ViewNumber_next view;
  l ← expect (leader_for_view vs next);
  mret (vi_id l).

(** ** Well-formedness *)

Definition total (validators : list ValidatorInfo) : N := sumN vi_power validators.

Record infos_wf (l : list ValidatorInfo) : Prop := {
  iw_ids : NoDup (vi_id <$> l);
  iw_keys : NoDup (vi_public_key <$> l);
  iw_key_len : Forall (λ v, length (vi_public_key v) = 32%nat) l;
  iw_total : total l ≤ u64_max;
  iw_pos : l ≠ [] → 0 < total l;
}.

Record vs_wf (vs : ValidatorSet) : Prop := {
  vw_infos : infos_wf (vs_validators vs);
  vw_total : vs_total_power vs = total (vs_validators vs);
  vw_index : vs_index_map vs = build_index (vs_validators vs);
}.

(** ** Construction *)

Lemma try_fold_power_spec acc l :
  acc ≤ u64_max →
  (acc + total l ≤ u64_max ∧ try_fold_power acc l = Ok (acc + total l)) ∨
  (u64_max < acc + total l ∧ ∃ id, try_fold_power acc l = Err (TotalPowerOverflow id)).
Proof.
  revert acc. induction l as [|v l IH]; intros acc Hacc; unfold total in *; simpl.
  - left. split; [lia|f_equal; lia].
  - unfold checked_add64. destruct (N.leb_spec (acc + vi_power v) u64_max); simpl.
    + destruct (IH (acc + vi_power v)) as [[? ->]|[? [id ->]]]; [lia|left|right].
      * split; [lia|f_equal; lia].
      * split; [lia|by eauto].
    + right. split; [lia|by eauto].
Qed.

Lemma compute_total_power_Ok l t :
  compute_total_power l = Ok t ↔ t = total l ∧ total l ≤ u64_max.
Proof.
  unfold compute_total_power.
  destruct (try_fold_power_spec 0 l) as [[? ->]|[? [id ->]]]; [unfold u64_max; lia|..];
    split; intros; destruct_and?; simplify_eq; try split; try (f_equal; lia); lia.
Qed.

Lemma check_validators_Ok l ids pks u :
  check_validators ids pks l = Ok u ↔
    NoDup (vi_id <$> l) ∧ NoDup (vi_public_key <$> l) ∧
    Forall (λ v, length (vi_public_key v) = 32%nat) l ∧
    Forall (λ v, vi_id v ∉ ids ∧ vi_public_key v ∉ pks) l.
Proof.
  destruct u. revert ids pks. induction l as [|v l IH]; intros ids pks; csimpl.
  { split; [|done]. intros _. split_and!; constructor. }
  rewrite !NoDup_cons, !Forall_cons.
  case_bool_decide as Hid; simpl; [naive_solver|].
  case_bool_decide as Hlen; simpl; [|naive_solver].
  case_bool_decide as Hpk; simpl; [naive_solver|].
  rewrite IH, !Forall_forall, !list_elem_of_fmap.
  split.
  - intros (?&?&?&Hf). split_and!; try done.
    + intros (w&?&Hw). specialize (Hf w Hw). set_solver.
    + intros (w&?&Hw). specialize (Hf w Hw). set_solver.
    + intros w Hw. specialize (Hf w Hw). set_solver.
  - intros ([Hi ?]&[Hk ?]&[? ?]&[? ?] & Hf). split_and!; try done.
    intros w Hw. specialize (Hf w Hw). rewrite !elem_of_union, !elem_of_singleton. naive_solver.
Qed.

Lemma infos_wf_alt l :
  infos_wf l ↔ total l ≤ u64_max ∧ (l ≠ [] → 0 < total l) ∧
    NoDup (vi_id <$> l) ∧ NoDup (vi_public_key <$> l) ∧
    Forall (λ v, length (vi_public_key v) = 32%nat) l.
Proof. split; [intros []|intros (?&?&?&?&?); constructor]; auto. Qed.

Lemma try_from_parts_Ok l t vs :
  try_from_parts l t = Ok vs ↔
    infos_wf l ∧ t = total l ∧ vs = mkValidatorSet l t (build_index l).
Proof.
  rewrite infos_wf_alt. unfold try_from_parts. split.
  - intros H. apply res_bind_Ok in H as (c&[-> Htot]%compute_total_power_Ok&H).
    destruct (N.eqb_spec t (total l)) as [->|]; simpl in H; [|done].
    case_bool_decide as Hnil; simpl in H; [|destruct (N.eqb_spec (total l) 0); [done|]];
      res_inv; apply check_validators_Ok in H0 as (?&?&?&?);
      split_and!; try done; intros; lia || done.
  - intros ((Htot&Hpos&?&?&?)&->&->).
    rewrite (proj2 (compute_total_power_Ok l (total l))) by done. simpl.
    rewrite N.eqb_refl. simpl.
    assert (negb (bool_decide (l = [])) && (total l =? 0) = false) as ->.
    { case_bool_decide; [done|]. apply N.eqb_neq. specialize (Hpos ltac:(done)). lia. }
    rewrite (proj2 (check_validators_Ok l ∅ ∅ ())); [done|].
    split_and!; try done. apply Forall_forall. set_solver.
Qed.

(** [try_new] succeeds exactly on well-formed lists, and then returns the list
    with its total power and its index. *)
Lemma try_new_Ok l vs :
  try_new l = Ok vs ↔ infos_wf l ∧ vs = mkValidatorSet l (total l) (build_index l).
Proof.
  unfold try_new. rewrite res_bind_Ok. split.
  - intros (t&[-> ?]%compute_total_power_Ok&(?&?&?)%try_from_parts_Ok). done.
  - intros [Hwf ->]. exists (total l). rewrite compute_total_power_Ok, try_from_parts_Ok.
    by destruct Hwf.
Qed.

Lemma try_new_wf l vs : try_new l = Ok vs → vs_wf vs.
Proof. intros [? ->]%try_new_Ok. by constructor. Qed.

Lemma try_apply_updates_wf vs us vs' : try_apply_updates vs us = Ok vs' → vs_wf vs'.
Proof. apply try_new_wf. Qed.

(** No checked constructor ever panics. *)
Lemma check_validators_total ids pks l : check_validators ids pks l ≠ Panic.
Proof.
  revert ids pks. induction l as [|v l IH]; intros; simpl; [done|].
  repeat case_bool_decide; simpl; auto.
Qed.

Lemma compute_total_power_total l : compute_total_power l ≠ Panic.
Proof.
  unfold compute_total_power.
  destruct (try_fold_power_spec 0 l) as [[? E]|[? [id E]]]; [unfold u64_max; lia|..];
    by rewrite E.
Qed.

Lemma try_new_total l : try_new l ≠ Panic.
Proof.
  unfold try_new, try_from_parts.
  destruct (compute_total_power l) eqn:Hc; simpl; try done.
  2: by apply compute_total_power_total in Hc.
  repeat case_match; try done. intros Hp.
  destruct (check_validators ∅ ∅ l) eqn:Hv; simpl in Hp; try done.
  by apply check_validators_total in Hv.
Qed.

(** ** Lookup *)

Lemma index_from_lookup l k m id i :
  NoDup (vi_id <$> l) → (∀ v, v ∈ l → m !! vi_id v = None) →
  index_from k m l !! id = Some i ↔
    m !! id = Some i ∨ ∃ j v, i = (k + j)%nat ∧ l !! j = Some v ∧ vi_id v = id.
Proof.
  revert k m. induction l as [|v l IH]; intros k m; csimpl.
  { intros _ _. split; [by left|]. intros [?|(?&?&?&Hj&?)]; [done|by rewrite lookup_nil in Hj]. }
  rewrite NoDup_cons. intros [Hv Hnd] Hm. rewrite list_elem_of_fmap in Hv.
  rewrite IH; [|done|].
  - split.
    + intros [Hl|(j&w&->&?&?)].
      * apply lookup_insert_Some in Hl as [[<- <-]|[? ?]]; [|by left].
        right. exists 0%nat, v. split_and!; [lia|done|done].
      * right. exists (S j), w. split_and!; [lia|done|done].
    + intros [Hl|([|j]&w&->&Hj&Hw)].
      * left. rewrite lookup_insert_ne; [done|]. intros <-.
        rewrite Hm in Hl by left. done.
      * injection Hj as <-. left. rewrite Hw, lookup_insert_eq. f_equal. lia.
      * right. exists j, w. split_and!; [lia|done|done].
  - intros w Hw. rewrite lookup_insert_ne.
    + apply Hm. by right.
    + intros E. apply Hv. eauto.
Qed.

Lemma build_index_lookup l id i :
  NoDup (vi_id <$> l) →
  build_index l !! id = Some i ↔ ∃ v, l !! i = Some v ∧ vi_id v = id.
Proof.
  intros Hnd. unfold build_index. rewrite index_from_lookup by (try done; intros; apply lookup_empty).
  rewrite lookup_empty. naive_solver.
Qed.

Section WellFormed.
Context (vs : ValidatorSet) (Hwf : vs_wf vs).

Lemma index_of_spec id i :
  index_of vs id = Some i ↔ ∃ v, vs_validators vs !! i = Some v ∧ vi_id v = id.
Proof. unfold index_of. rewrite (vw_index _ Hwf). apply build_index_lookup, Hwf. Qed.

Lemma index_of_lookup i v : vs_validators vs !! i = Some v → index_of vs (vi_id v) = Some i.
Proof. intros H. apply index_of_spec. eauto. Qed.

Lemma index_of_lt id i : index_of vs id = Some i → (i < validator_count vs)%nat.
Proof. intros (v&H&_)%index_of_spec. by eapply lookup_lt_Some. Qed.

(** [get] finds the entry with the id, and only that one. *)
Lemma get_spec id v :
  get vs id = Some v ↔ v ∈ vs_validators vs ∧ vi_id v = id.
Proof.
  unfold get. fold (index_of vs id). rewrite bind_Some. setoid_rewrite index_of_spec.
  rewrite list_elem_of_lookup. naive_solver.
Qed.

Lemma get_index id v :
  get vs id = Some v ↔ ∃ i, index_of vs id = Some i ∧ vs_validators vs !! i = Some v.
Proof. unfold get. rewrite bind_Some. done. Qed.

Lemma get_None id : get vs id = None ↔ ∀ v, v ∈ vs_validators vs → vi_id v ≠ id.
Proof.
  rewrite eq_None_not_Some. unfold is_Some. setoid_rewrite get_spec. naive_solver.
Qed.

Lemma power_of_lookup v : v ∈ vs_validators vs → power_of vs (vi_id v) = vi_power v.
Proof. intros H. unfold power_of. by rewrite (proj2 (get_spec (vi_id v) v)). Qed.

Lemma id_inj i j v w :
  vs_validators vs !! i = Some v → vs_validators vs !! j = Some w → vi_id v = vi_id w → i = j.
Proof.
  intros Hi Hj E. apply index_of_lookup in Hi, Hj. congruence.
Qed.

Lemma total_power_bound : vs_total_power vs ≤ u64_max.
Proof. rewrite (vw_total _ Hwf). apply Hwf. Qed.

(** ** Quorum arithmetic *)

Lemma quorum_threshold_exact : quorum_threshold vs = vs_total_power vs * 2 / 3 + 1.
Proof.
  pose proof total_power_bound. unfold quorum_threshold. apply N.mod_small.
  unfold u64_max in *. div_lia.
Qed.

(** The threshold is the least integer strictly above two thirds. *)
Lemma quorum_threshold_spec :
  2 * vs_total_power vs < 3 * quorum_threshold vs ∧
  3 * quorum_threshold vs ≤ 2 * vs_total_power vs + 3.
Proof. rewrite quorum_threshold_exact. div_lia. Qed.

(** Two quorums overlap in more power than the tolerated faulty power. *)
Lemma quorum_overlap p1 p2 both :
  quorum_threshold vs ≤ p1 → quorum_threshold vs ≤ p2 →
  p1 + p2 ≤ vs_total_power vs + both →
  max_faulty_power vs < both.
Proof.
  intros. unfold max_faulty_power, saturating_sub. pose proof quorum_threshold_spec. lia.
Qed.

End WellFormed.

(** ** Leader election *)

(** Validator [i] owns the half-open slot range [[start i, start i + power)]. *)
Definition slot_start (l : list ValidatorInfo) (i : nat) : N := total (take i l).

Lemma slot_start_S l i v :
  l !! i = Some v → slot_start l (S i) = slot_start l i + vi_power v.
Proof.
  intros H. unfold slot_start, total. rewrite (take_S_r _ _ v) by done.
  autorewrite with hot. lia.
Qed.

Lemma slot_start_mono l i j : (i ≤ j)%nat → slot_start l i ≤ slot_start l j.
Proof.
  intros H. unfold slot_start, total.
  replace (take i l) with (take i (take j l)) by (rewrite take_take; f_equal; lia).
  apply sumN_take_le.
Qed.

Lemma slot_end_le l i v : l !! i = Some v → slot_start l i + vi_power v ≤ total l.
Proof.
  intros H. rewrite <- (slot_start_S _ _ _ H). apply sumN_take_le.
Qed.

Lemma find_slot_spec slot c l :
  c + total l ≤ u64_max → c ≤ slot < c + total l →
  ∃ i v, l !! i = Some v ∧ find_slot slot c l = Some v ∧
    c + slot_start l i ≤ slot < c + slot_start l i + vi_power v.
Proof.
  revert c. induction l as [|v l IH]; unfold total in *; simpl; intros c Hmax Hs; [lia|].
  rewrite wrapping_add64_small by lia. destruct (N.ltb_spec slot (c + vi_power v)).
  - exists 0%nat, v. unfold slot_start, total. simpl. split_and!; [done|done|lia|lia].
  - destruct (IH (c + vi_power v)) as (i&w&Hi&->&?); [lia|lia|].
    exists (S i), w. unfold slot_start, total in *. simpl. split_and!; [done|done|lia|lia].
Qed.

Lemma slot_unique l i j v w slot :
  l !! i = Some v → l !! j = Some w →
  slot_start l i ≤ slot < slot_start l i + vi_power v →
  slot_start l j ≤ slot < slot_start l j + vi_power w → i = j.
Proof.
  intros Hi Hj Hsi Hsj. rewrite <- (slot_start_S l i v) in Hsi by done.
  rewrite <- (slot_start_S l j w) in Hsj by done.
  destruct (lt_eq_lt_dec i j) as [[Hlt|]|Hlt]; [|done|]; exfalso.
  - pose proof (slot_start_mono l (S i) j Hlt). lia.
  - pose proof (slot_start_mono l (S j) i Hlt). lia.
Qed.

Section Leader.
Context (vs : ValidatorSet) (Hwf : vs_wf vs).

Lemma total_power_pos : vs_validators vs ≠ [] → 0 < vs_total_power vs.
Proof. rewrite (vw_total _ Hwf). apply Hwf. Qed.

(** On a non-empty set the scan always finds a slot, so the fallback to the
    last validator is never taken. *)
Lemma leader_for_view_slot view :
  vs_validators vs ≠ [] →
  ∃ i v, leader_for_view vs view = Some v ∧ vs_validators vs !! i = Some v ∧
    slot_start (vs_validators vs) i ≤ view mod vs_total_power vs
      < slot_start (vs_validators vs) i + vi_power v.
Proof.
  intros Hne. pose proof (total_power_pos Hne) as Hpos.
  pose proof (total_power_bound vs Hwf) as Hmax.
  unfold leader_for_view. rewrite bool_decide_false by done.
  destruct (N.eqb_spec (vs_total_power vs) 0); [lia|]. simpl.
  rewrite (vw_total _ Hwf) in Hpos, Hmax |- *.
  destruct (find_slot_spec (view mod total (vs_validators vs)) 0 (vs_validators vs))
    as (i&v&Hi&->&?); [lia| |].
  { split; [apply N.le_0_l|]. rewrite N.add_0_l. apply N.mod_lt. lia. }
  exists i, v. split_and!; [done|done|lia|lia].
Qed.

Lemma is_leader_slot view i v :
  vs_validators vs !! i = Some v →
  is_leader vs view (vi_id v) = true ↔
    slot_start (vs_validators vs) i ≤ view mod vs_total_power vs
      < slot_start (vs_validators vs) i + vi_power v.
Proof.
  intros Hi. destruct (leader_for_view_slot view) as (j&w&Hl&Hj&Hs).
  { intros E. by rewrite E in Hi. }
  unfold is_leader. rewrite Hl, N.eqb_eq. split.
  - intros E. assert (j = i) as -> by eauto using id_inj. by simplify_eq.
  - intros Hs'. assert (i = j) as -> by eauto using slot_unique. by simplify_eq.
Qed.

Lemma leader_elem view v :
  leader_for_view vs view = Some v → v ∈ vs_validators vs ∧ 0 < vi_power v.
Proof.
  intros Hl. destruct (leader_for_view_slot view) as (i&w&Hw&Hi&?).
  { intros E. unfold leader_for_view in Hl. by rewrite bool_decide_true in Hl. }
  rewrite Hl in Hw. injection Hw as <-. split; [|lia]. by eapply list_elem_of_lookup_2.
Qed.

Lemma is_leader_unique view a b :
  is_leader vs view a = true → is_leader vs view b = true → a = b.
Proof.
  unfold is_leader. destruct (leader_for_view vs view); [|done].
  rewrite !N.eqb_eq. congruence.
Qed.

(** The views of one cycle in which [id] leads. *)
Definition led_views (id : ValidatorId) (start : ViewNumber) : list ViewNumber :=
  filter (λ view, is_leader vs view id = true) (seqN start (vs_total_power vs)).

Lemma led_views_shift id s :
  length (led_views id (s + 1)) = length (led_views id s).
Proof.
  unfold led_views. destruct (N.eq_dec (vs_total_power vs) 0) as [->|Hnz]; [done|].
  set (T := vs_total_power vs) in *.
  assert (length (filter (λ v, is_leader vs v id = true) (seqN s (1 + T))) =
          length (filter (λ v, is_leader vs v id = true) (seqN s (T + 1)))) as E
    by (f_equal; f_equal; f_equal; lia).
  rewrite !seqN_app in E. rewrite !filter_app, !length_app in E.
  unfold seqN at 1 4 in E. simpl in E. rewrite !N.add_0_r in E.
  assert (is_leader vs (s + T) id = is_leader vs s id) as Hper.
  { unfold is_leader, leader_for_view. fold T.
    replace ((s + T) mod T) with (s mod T); [done|].
    rewrite <- N.Div0.add_mod_idemp_r, N.Div0.mod_same, N.add_0_r. done. }
  rewrite !filter_cons, Hper in E. case_decide; simpl in E; lia.
Qed.
End Leader.

Lemma count_range a p n :
  a + p ≤ n → length (filter (λ k, a ≤ k < a + p) (seqN 0 n)) = N.to_nat p.
Proof.
  intros H. replace n with (a + (p + (n - a - p))) by lia.
  rewrite !seqN_app, !filter_app, !length_app, N.add_0_l.
  rewrite (filter_none _ (seqN 0 a)), (filter_none _ (seqN (a + p) _)).
  - rewrite filter_all; [rewrite length_seqN; simpl; lia|].
    intros k ?%elem_of_seqN. lia.
  - intros k ?%elem_of_seqN. lia.
  - intros k ?%elem_of_seqN. lia.
Qed.

(** Over any [total_power] consecutive views, each validator leads exactly as
    many views as it has power. *)
Lemma led_views_power vs v s :
  vs_wf vs → v ∈ vs_validators vs →
  length (led_views vs (vi_id v) s) = N.to_nat (vi_power v).
Proof.
  intros Hwf [i Hi]%list_elem_of_lookup_1. induction s as [|s IH] using N.peano_ind.
  - rewrite <- (count_range (slot_start (vs_validators vs) i) (vi_power v) (vs_total_power vs)).
    + f_equal. unfold led_views. apply filter_iff_elem. intros k Hk.
      rewrite is_leader_slot by done. rewrite N.mod_small; [done|].
      apply elem_of_seqN in Hk. lia.
    + rewrite (vw_total _ Hwf). by apply slot_end_le.
  - by rewrite <- N.add_1_r, led_views_shift.
Qed.

(** ** Weighted quorum intersection *)

Definition power_where (f : ValidatorId → bool) (l : list ValidatorInfo) : N :=
  sumN (λ v, if f (vi_id v) then vi_power v else 0) l.

Lemma power_where_le f l : power_where f l ≤ total l.
Proof. apply sumN_le. intros v _. destruct (f (vi_id v)); lia. Qed.

Lemma power_where_mono f g l :
  (∀ v, v ∈ l → f (vi_id v) = true → g (vi_id v) = true) →
  power_where f l ≤ power_where g l.
Proof.
  intros H. apply sumN_le. intros v Hv. specialize (H v Hv).
  destruct (f (vi_id v)); [rewrite H by done|]; lia.
Qed.

Lemma power_where_inter f g l :
  power_where f l + power_where g l ≤
  total l + power_where (λ id, f id && g id) l.
Proof.
  unfold power_where, total. induction l as [|v l IH]; simpl; [lia|].
  destruct (f (vi_id v)), (g (vi_id v)); simpl; lia.
Qed.

Lemma power_where_exists f l :
  0 < power_where f l → ∃ v, v ∈ l ∧ f (vi_id v) = true ∧ 0 < vi_power v.
Proof.
  unfold power_where. induction l as [|v l IH]; simpl; [lia|].
  destruct (f (vi_id v)) eqn:E; intros H.
  - destruct (N.eq_0_gt_0_cases (vi_power v)) as [Hz|Hp].
    + rewrite Hz in H. destruct IH as (w&?&?&?); [lia|]. exists w. set_solver.
    + exists v. set_solver.
  - destruct IH as (w&?&?&?); [lia|]. exists w. set_solver.
Qed.

Lemma power_where_split f g l :
  power_where f l ≤ power_where (λ id, f id && negb (g id)) l + power_where g l.
Proof.
  unfold power_where. induction l as [|v l IH]; simpl; [lia|].
  destruct (f (vi_id v)), (g (vi_id v)); simpl; lia.
Qed.

(** Two quorums share a validator outside any set of at most
    [max_faulty_power]. *)
Lemma quorum_intersection vs f g bad :
  vs_wf vs →
  quorum_threshold vs ≤ power_where f (vs_validators vs) →
  quorum_threshold vs ≤ power_where g (vs_validators vs) →
  power_where bad (vs_validators vs) ≤ max_faulty_power vs →
  ∃ v, v ∈ vs_validators vs ∧ f (vi_id v) = true ∧ g (vi_id v) = true ∧
    bad (vi_id v) = false ∧ 0 < vi_power v.
Proof.
  intros Hwf Hf Hg Hbad.
  pose proof (power_where_inter f g (vs_validators vs)) as Hi. rewrite <- (vw_total _ Hwf) in Hi.
  pose proof (quorum_overlap vs Hwf _ _ _ Hf Hg Hi) as Ho.
  pose proof (power_where_split (λ id, f id && g id) bad (vs_validators vs)) as Hs.
  destruct (power_where_exists (λ id, f id && g id && negb (bad id)) (vs_validators vs))
    as (v&?&Hv&?); [lia|].
  bool_prop. exists v. by bool_prop.
Qed.

(** A quorum is more than the faulty power, and the honest validators alone
    reach a quorum. *)
Lemma quorum_live vs bad :
  vs_wf vs → vs_validators vs ≠ [] →
  power_where bad (vs_validators vs) ≤ max_faulty_power vs →
  quorum_threshold vs ≤ power_where (λ id, negb (bad id)) (vs_validators vs).
Proof.
  intros Hwf Hne Hbad.
  assert (∀ l, power_where bad l + power_where (λ id, negb (bad id)) l = total l) as Hsum.
  { intros l. unfold power_where, total. induction l as [|v l IH]; simpl; [done|].
    destruct (bad (vi_id v)); simpl; lia. }
  specialize (Hsum (vs_validators vs)). rewrite <- (vw_total _ Hwf) in Hsum.
  pose proof (total_power_pos vs Hwf Hne). pose proof (quorum_threshold_spec vs Hwf).
  unfold max_faulty_power, saturating_sub in Hbad. lia.
Qed.

(** ** Updates

    The list refines a finite map from ids to entries: an update deletes the
    id when its power is zero and otherwise sets the entry. *)

Definition info_map (l : list ValidatorInfo) : gmap N ValidatorInfo :=
  list_to_map ((λ v, (vi_id v, v)) <$> l).

Definition update_map (m : gmap N ValidatorInfo) (u : ValidatorUpdate)
    : gmap N ValidatorInfo :=
  if vu_power u =? 0 then delete (vu_id u) m
  else <[vu_id u := mkValidatorInfo (vu_id u) (vu_public_key u) (vu_power u)]> m.

Lemma info_map_lookup l id v :
  NoDup (vi_id <$> l) → info_map l !! id = Some v ↔ v ∈ l ∧ vi_id v = id.
Proof.
  intros Hnd. unfold info_map. rewrite <- elem_of_list_to_map.
  - rewrite list_elem_of_fmap. naive_solver.
  - by rewrite <- list_fmap_compose.
Qed.

Lemma update_existing_Some u l l' :
  NoDup (vi_id <$> l) → update_existing u l = Some l' →
  vi_id <$> l' = vi_id <$> l ∧
  info_map l' = <[vu_id u := mkValidatorInfo (vu_id u) (vu_public_key u) (vu_power u)]> (info_map l).
Proof.
  revert l'. induction l as [|v l IH]; csimpl; intros l' Hnd Hu; [done|].
  apply NoDup_cons in Hnd as [Hv Hnd]. destruct (N.eqb_spec (vi_id v) (vu_id u)) as [E|E].
  - simplify_eq. csimpl. split; [done|]. unfold info_map. csimpl. rewrite E.
    by rewrite insert_insert_eq.
  - apply fmap_Some in Hu as (k&Hk&->). destruct (IH k Hnd Hk) as [Hids Hm].
    csimpl. rewrite Hids. split; [done|]. unfold info_map in *. csimpl.
    rewrite Hm. by rewrite insert_insert_ne.
Qed.

Lemma update_existing_None u l :
  update_existing u l = None ↔ vu_id u ∉ vi_id <$> l.
Proof.
  induction l as [|v l IH]; csimpl; [set_solver|].
  rewrite not_elem_of_cons. destruct (N.eqb_spec (vi_id v) (vu_id u)).
  - naive_solver.
  - rewrite fmap_None, IH. naive_solver.
Qed.

Lemma apply_update_refines l u :
  NoDup (vi_id <$> l) →
  NoDup (vi_id <$> apply_update l u) ∧ info_map (apply_update l u) = update_map (info_map l) u.
Proof.
  intros Hnd. unfold apply_update, update_map. destruct (vu_power u =? 0) eqn:E.
  - assert (NoDup (vi_id <$> filter (λ v, vi_id v ≠ vu_id u) l)) as Hf.
    { eapply sublist_NoDup; [apply Hnd|]. apply fmap_sublist, sublist_filter. }
    split; [done|]. apply map_eq. intros id. apply option_eq. intros v.
    rewrite lookup_delete_Some, !info_map_lookup, list_elem_of_filter by done. naive_solver.
  - destruct (update_existing u l) as [l'|] eqn:Hu.
    + apply update_existing_Some in Hu as [-> ->]; done.
    + apply update_existing_None in Hu. rewrite fmap_app.
      assert (NoDup ((vi_id <$> l) ++ [vu_id u])) as Happ.
      { apply NoDup_app. split_and!; [done|set_solver|apply NoDup_singleton]. }
      split; [done|]. unfold info_map. rewrite fmap_app. csimpl.
      rewrite list_to_map_snoc; [done|]. by rewrite <- list_fmap_compose.
Qed.

Lemma foldl_apply_update l us :
  NoDup (vi_id <$> l) →
  NoDup (vi_id <$> foldl apply_update l us) ∧
  info_map (foldl apply_update l us) = foldl update_map (info_map l) us.
Proof.
  revert l. induction us as [|u us IH]; intros l Hnd; simpl; [done|].
  destruct (apply_update_refines l u Hnd) as [Hnd' <-]. by apply IH.
Qed.

(** ** Properties *)

(** A four-validator set with unequal powers, for the witnesses. *)
Definition sample_infos : list ValidatorInfo :=
  [ mkValidatorInfo 7 (x00 :: zeros 31) 1; mkValidatorInfo 3 (x01 :: zeros 31) 2;
    mkValidatorInfo 5 (x02 :: zeros 31) 3; mkValidatorInfo 9 (x00 :: x01 :: zeros 30) 4 ].

Definition sample_set : ValidatorSet :=
  mkValidatorSet sample_infos 10 (build_index sample_infos).

Lemma sample_set_wf : vs_wf sample_set.
Proof. apply (try_new_wf sample_infos). vm_compute. reflexivity. Qed.

(** [ValidatorSet::try_new] never panics; it accepts exactly the lists with
    pairwise distinct ids, pairwise distinct 32-byte keys, a total power that
    fits in [u64] and is positive unless the list is empty; and the set it
    returns is the list with its total power and an index under which [get]
    finds each entry by its id and nothing else. *)
Lemma try_new_correct l :
  try_new l ≠ Panic ∧
  (∀ vs, try_new l = Ok vs ↔
     infos_wf l ∧ vs = mkValidatorSet l (total l) (build_index l)) ∧
  (∀ vs id v, try_new l = Ok vs → get vs id = Some v ↔ v ∈ l ∧ vi_id v = id).
Proof.
  split_and!; [apply try_new_total|apply try_new_Ok|].
  intros vs id v H. rewrite get_spec by eauto using try_new_wf.
  by apply try_new_Ok in H as [_ ->].
Qed.

(** C8: two sets of validators that each reach [quorum_threshold] share a
    validator with positive power outside any faulty set of at most
    [max_faulty_power]; and when the faulty power is within that bound the
    remaining validators alone reach the threshold. *)
Theorem quorum_safe_and_live vs bad :
  vs_wf vs → vs_validators vs ≠ [] →
  power_where bad (vs_validators vs) ≤ max_faulty_power vs →
  (∀ f g,
     quorum_threshold vs ≤ power_where f (vs_validators vs) →
     quorum_threshold vs ≤ power_where g (vs_validators vs) →
     ∃ v, v ∈ vs_validators vs ∧ f (vi_id v) = true ∧ g (vi_id v) = true ∧
       bad (vi_id v) = false ∧ 0 < vi_power v) ∧
  quorum_threshold vs ≤ power_where (λ id, negb (bad id)) (vs_validators vs).
Proof. intros. split; [intros; by apply quorum_intersection|by apply quorum_live]. Qed.

Lemma quorum_safe_and_live_witness :
  quorum_threshold sample_set = 7 ∧ max_faulty_power sample_set = 3 ∧
  7 ≤ power_where (λ id, negb (id =? 5)) sample_infos.
Proof.
  split; [reflexivity|]. split; [reflexivity|].
  apply (quorum_safe_and_live sample_set (λ id, id =? 5)).
  - apply sample_set_wf.
  - discriminate.
  - vm_compute. discriminate.
Defined.

(** C9: in any window of [total_power] consecutive views, each validator is the
    leader of exactly [power] views, and every view of a non-empty set has
    exactly one leader. *)
Theorem leader_fair vs v start :
  vs_wf vs → v ∈ vs_validators vs →
  length (led_views vs (vi_id v) start) = N.to_nat (vi_power v) ∧
  ∀ view, exists! id, is_leader vs view id = true.
Proof.
  intros Hwf Hv. split; [by apply led_views_power|]. intros view.
  destruct (leader_for_view_slot vs Hwf view) as (i&w&Hl&?&?).
  { intros E. rewrite E in Hv. by apply not_elem_of_nil in Hv. }
  assert (is_leader vs view (vi_id w) = true) as Hw
    by (unfold is_leader; by rewrite Hl, N.eqb_refl).
  exists (vi_id w). split; [done|]. intros. by eapply is_leader_unique.
Qed.

Lemma leader_fair_witness : led_views sample_set 5 14 = [14; 15; 23] ∧
  length (led_views sample_set 5 14) = 3%nat.
Proof.
  split; [vm_compute; reflexivity|].
  apply (leader_fair sample_set (mkValidatorInfo 5 (x02 :: zeros 31) 3) 14).
  - apply sample_set_wf.
  - simpl. right. right. left.
Defined.

(** C10: [try_apply_updates] refines the finite map of the validators: when it
    succeeds the result is well formed, and its entries are those of the old
    map with every update of power zero deleting its id and every other one
    setting its id's key and power, in order. *)
Theorem try_apply_updates_refines vs us vs' :
  vs_wf vs → try_apply_updates vs us = Ok vs' →
  vs_wf vs' ∧
  info_map (vs_validators vs') = foldl update_map (info_map (vs_validators vs)) us.
Proof.
  intros Hwf H. split; [by eapply try_apply_updates_wf|].
  apply try_new_Ok in H as [_ ->]. by apply foldl_apply_update, Hwf.
Qed.

Definition sample_updates : list ValidatorUpdate :=
  [ mkValidatorUpdate 3 (x01 :: zeros 31) 0; mkValidatorUpdate 5 (x02 :: x02 :: zeros 30) 6;
    mkValidatorUpdate 4 (x01 :: x01 :: zeros 30) 2 ].

Lemma try_apply_updates_refines_witness :
  ∃ vs', try_apply_updates sample_set sample_updates = Ok vs' ∧
    vi_id <$> vs_validators vs' = [7; 5; 9; 4] ∧
    info_map (vs_validators vs') = foldl update_map (info_map sample_infos) sample_updates.
Proof.
  eexists. split; [vm_compute; reflexivity|]. split; [reflexivity|].
  apply (try_apply_updates_refines sample_set sample_updates).
  - apply sample_set_wf.
  - vm_compute. reflexivity.
Defined.
