(* ===== verification/Codec.v ===== *)
(** * The wire codec ([hotmint-network/src/codec.rs])

    A frame is a tag byte and a payload: the [postcard] encoding of a value,
    compressed with [zstd] above a threshold.  Both crates are parameters; the
    development uses that decoding inverts encoding and that the bounded reader
    of the decompressor yields what was compressed, up to the bound. *)

From S2P Require Import Prelude Types.

(** [postcard::to_allocvec] and [postcard::from_bytes] at a type. *)
Class Postcard (T : Type) : Type := {
  pc_encode : T → option bytes;
  pc_decode : bytes → option T;
  pc_decode_encode : ∀ v raw, pc_encode v = Some raw → pc_decode raw = Some v;
}.

(** [zstd::encode_all], and [Decoder::new(data)] read through [take(n)] to its
    end. *)
Class Zstd : Type := {
  zstd_encode_all : bytes → option bytes;
  zstd_read_take : N → bytes → option bytes;
  zstd_read_all : ∀ raw c n, zstd_encode_all raw = Some c → N.of_nat (length raw) ≤ n →
    zstd_read_take n c = Some raw;
  zstd_read_more : ∀ raw c n, zstd_encode_all raw = Some c → n < N.of_nat (length raw) →
    ∃ out, zstd_read_take n c = Some out ∧ N.of_nat (length out) = n;
}.

Definition COMPRESS_THRESHOLD : N := 256.
Definition MAX_DECOMPRESSED_SIZE : N := 16 * 1024 * 1024.
Definition TAG_RAW : byte := x00.
Definition TAG_ZSTD : byte := x01.

Inductive EncodeError : Type := EncPostcard | EncZstd.
Inductive DecodeError : Type :=
| EmptyFrame | UnknownTag (tag : byte) | DecPostcard | DecZstd | DecompressedTooLarge.

Section Codec.
Context {Zs : Zstd}.

Definition encode {T} `{!Postcard T} (value : T) : res EncodeError bytes :=
  raw ← ok_or (pc_encode value) EncPostcard;
  if COMPRESS_THRESHOLD <? N.of_nat (length raw) then
    compressed ← ok_or (zstd_encode_all raw) EncZstd;
    Ok (TAG_ZSTD :: compressed)
  else Ok (TAG_RAW :: raw).

Definition decode {T} `{!Postcard T} (data : bytes) : res DecodeError T :=
  match data with
  | [] => Err EmptyFrame
  | tag :: rest =>
      if bool_decide (tag = TAG_RAW) then ok_or (pc_decode rest) DecPostcard
      else if bool_decide (tag = TAG_ZSTD) then
        decompressed ← ok_or (zstd_read_take (MAX_DECOMPRESSED_SIZE + 1) rest) DecZstd;
        if MAX_DECOMPRESSED_SIZE <? N.of_nat (length decompressed) then Err DecompressedTooLarge
        else ok_or (pc_decode decompressed) DecPostcard
      else Err (UnknownTag tag)
  end.

Context {T : Type} {P : Postcard T}.

(** A frame decodes to what was encoded when the encoding is within the limit
    on decompressed payloads, and is refused otherwise. *)
Lemma decode_encode (v : T) raw frame :
  pc_encode v = Some raw → encode v = Ok frame →
  decode (T := T) frame =
    if N.of_nat (length raw) <=? MAX_DECOMPRESSED_SIZE then Ok v else Err DecompressedTooLarge.
Proof.
  intros Hraw. unfold encode. rewrite Hraw. simpl.
  destruct (N.ltb_spec COMPRESS_THRESHOLD (N.of_nat (length raw))) as [Hlt|Hge].
  - destruct (zstd_encode_all raw) as [c|] eqn:Ec; simpl; [|done]. intros [= <-]. simpl.
    destruct (N.leb_spec (N.of_nat (length raw)) MAX_DECOMPRESSED_SIZE) as [Hle|Hgt].
    + rewrite (zstd_read_all _ _ _ Ec) by lia. simpl.
      destruct (N.ltb_spec MAX_DECOMPRESSED_SIZE (N.of_nat (length raw))); [lia|].
      by rewrite (pc_decode_encode _ _ Hraw).
    + destruct (N.eq_dec (N.of_nat (length raw)) (MAX_DECOMPRESSED_SIZE + 1)) as [E|E].
      * rewrite (zstd_read_all _ _ _ Ec) by lia. simpl.
        destruct (N.ltb_spec MAX_DECOMPRESSED_SIZE (N.of_nat (length raw))); [done|lia].
      * destruct (zstd_read_more _ _ (MAX_DECOMPRESSED_SIZE + 1) Ec) as (out & -> & Hout); [lia|].
        simpl. destruct (N.ltb_spec MAX_DECOMPRESSED_SIZE (N.of_nat (length out))); [done|lia].
  - intros [= <-]. simpl. rewrite (pc_decode_encode _ _ Hraw).
    destruct (N.leb_spec (N.of_nat (length raw)) MAX_DECOMPRESSED_SIZE); [done|].
    unfold COMPRESS_THRESHOLD, MAX_DECOMPRESSED_SIZE in *. lia.
Qed.
End Codec.
