(* ===== verification/PeerBook.v ===== *)
(** * Peer book and peer exchange messages ([hotmint-network/src/peer.rs], [pex.rs])

    The address book of known peers with their scores, and the messages and
    configuration of the peer exchange.  Peer ids and addresses are kept as the
    strings the code stores.  The file the book is saved to is not modelled. *)

From S2P Require Import Prelude Types.

Inductive PeerRole : Type := RoleValidator | RoleFullnode.

#[global] Instance PeerRole_eq_dec : EqDecision PeerRole.
Proof. solve_decision. Defined.

(** The score is an [i32]. *)
Record PeerInfo : Type := mkPeerInfo {
  pi_peer_id : string;
  pi_role : PeerRole;
  pi_validator_id : option ValidatorId;
  pi_addresses : list string;
  pi_last_seen : N;
  pi_score : Z;
}.

#[global] Instance PeerInfo_eq_dec : EqDecision PeerInfo.
Proof. solve_decision. Defined.

Definition BAN_THRESHOLD : Z := -100.
Definition i32_min : Z := -2147483648.
Definition i32_max : Z := 2147483647.

(** [a.saturating_add(b)] on [i32] *)
Definition saturating_add_i32 (a b : Z) : Z := Z.max i32_min (Z.min (a + b) i32_max).

Definition PeerInfo_new (peer_id : string) (role : PeerRole) (addresses : list string)
    (now_secs : N) : PeerInfo :=
  mkPeerInfo peer_id role None addresses now_secs 0.

Definition with_validator (p : PeerInfo) (vid : ValidatorId) : PeerInfo :=
  mkPeerInfo (pi_peer_id p) (pi_role p) (Some vid) (pi_addresses p) (pi_last_seen p) (pi_score p).

Definition is_banned (p : PeerInfo) : bool := (pi_score p <=? BAN_THRESHOLD)%Z.

Definition touch (p : PeerInfo) (now_secs : N) : PeerInfo :=
  mkPeerInfo (pi_peer_id p) (pi_role p) (pi_validator_id p) (pi_addresses p) now_secs (pi_score p).

Notation PeerBook := (gmap string PeerInfo).

Definition add_peer (book : PeerBook) (info : PeerInfo) : PeerBook := <[pi_peer_id info := info]> book.

Definition remove_peer (book : PeerBook) (peer_id : string) : PeerBook := delete peer_id book.

(** [self.peers.values()] *)
Definition book_values (book : PeerBook) : list PeerInfo := (map_to_list book).*2.

Definition get_peers_by_role (book : PeerBook) (role : PeerRole) : list PeerInfo :=
  filter (λ p, pi_role p = role ∧ is_banned p = false) (book_values book).

(** [shuffle] is the permutation the generator draws. *)
Definition get_random_peers (shuffle : list PeerInfo → list PeerInfo) (book : PeerBook) (n : N)
    : list PeerInfo :=
  take (N.to_nat n) (shuffle (filter (λ p, is_banned p = false) (book_values book))).

Definition adjust_score (book : PeerBook) (peer_id : string) (delta : Z) : PeerBook :=
  match book !! peer_id with
  | Some p =>
      <[peer_id := mkPeerInfo (pi_peer_id p) (pi_role p) (pi_validator_id p) (pi_addresses p)
                     (pi_last_seen p) (Z.min (saturating_add_i32 (pi_score p) delta) 100)]> book
  | None => book
  end.

Definition prune_stale (book : PeerBook) (now_secs max_age_secs : N) : PeerBook :=
  let cutoff := saturating_sub now_secs max_age_secs in
  filter (λ kp, cutoff ≤ pi_last_seen kp.2 ∨ pi_role kp.2 = RoleValidator) book.

(** ** Peer exchange *)

Inductive PexRequest : Type :=
| GetPeers
| Advertise (role : PeerRole) (validator_id : option N) (addresses : list string).

Inductive PexResponse : Type :=
| PexPeers (peers : list PeerInfo)
| PexAck.

Record PexConfig : Type := mkPexConfig {
  px_enabled : bool;
  px_max_peers : N;
  px_request_interval_secs : N;
  px_max_peers_per_response : N;
  px_private_peer_ids : list string;
}.

Definition PexConfig_default : PexConfig := mkPexConfig true 50 30 32 [].

(** ** Lemmas *)

(** Every entry is stored under its own id. *)
Definition book_ok (book : PeerBook) : Prop := ∀ k p, book !! k = Some p → pi_peer_id p = k.

Lemma add_peer_ok book info : book_ok book → book_ok (add_peer book info).
Proof. intros H k p. unfold add_peer. rewrite lookup_insert_Some. naive_solver. Qed.

Lemma adjust_score_ok book id d : book_ok book → book_ok (adjust_score book id d).
Proof.
  intros H k p. unfold adjust_score. destruct (book !! id) as [q|] eqn:E; [|by apply H].
  rewrite lookup_insert_Some. intros [[<- <-]|[_ Hk]]; [by apply H in E|by apply H].
Qed.

Lemma prune_stale_ok book now age : book_ok book → book_ok (prune_stale book now age).
Proof. intros H k p [Hp _]%map_lookup_filter_Some. by apply H. Qed.

Lemma elem_of_book_values book p : p ∈ book_values book ↔ ∃ k, book !! k = Some p.
Proof.
  unfold book_values. rewrite list_elem_of_fmap. split.
  - intros ([k q] & -> & Hin%elem_of_map_to_list). eauto.
  - intros [k Hk%elem_of_map_to_list]. exists (k, p). eauto.
Qed.

Lemma get_random_peers_elem shuffle book n p :
  (∀ l, shuffle l ≡ₚ l) → p ∈ get_random_peers shuffle book n →
  is_banned p = false ∧ ∃ k, book !! k = Some p.
Proof.
  intros Hs Hin. apply elem_of_take in Hin as (i & Hi & _). apply list_elem_of_lookup_2 in Hi.
  rewrite Hs in Hi. apply list_elem_of_filter in Hi as [Hb Hv]. split; [done|]. by apply elem_of_book_values.
Qed.

Lemma get_random_peers_length shuffle book n :
  N.of_nat (length (get_random_peers shuffle book n)) ≤ n.
Proof. unfold get_random_peers. rewrite length_take. lia. Qed.
