(* ===== verification/Encoding.v ===== *)
(** * Byte encodings: block hashes, certificate digests and signing bytes

    [Block::compute_hash] ([hotmint-types/src/block.rs]),
    [QuorumCertificate::digest] ([hotmint-types/src/certificate.rs]),
    [Vote::signing_bytes] ([hotmint-types/src/vote.rs]), the proposal, prepare
    and status payloads ([hotmint-consensus/src/view_protocol.rs]) and the wish
    payload ([hotmint-consensus/src/pacemaker.rs]).  Every encoder is a
    concatenation of prefix codes, so each is injective on the values its Rust
    types can hold, and payloads of different kinds never coincide. *)

From S2P Require Import Prelude Types.

(** [(bytes.len() as u64).to_le_bytes()] and then the bytes *)
Definition len_prefixed (bs : bytes) : bytes := u64_le (N.of_nat (length bs)) ++ bs.

#[global] Arguments len_prefixed _ : simpl never.

(** The [match ev.extension] of [compute_hash]. *)
Definition encode_extension (e : option bytes) : bytes :=
  match e with
  | Some bs => [x01] ++ len_prefixed bs
  | None => [x00]
  end.

Definition encode_evidence (ev : EquivocationProof) : bytes :=
  u64_le (ep_validator ev) ++ u64_le (ep_view ev) ++ [vote_type_u8 (ep_vote_type ev)] ++
  u64_le (ep_epoch ev) ++
  ep_block_hash_a ev ++ len_prefixed (ep_signature_a ev) ++ encode_extension (ep_extension_a ev) ++
  ep_block_hash_b ev ++ len_prefixed (ep_signature_b ev) ++ encode_extension (ep_extension_b ev).

(** The bytes that [compute_hash] feeds to the hasher. *)
Definition block_preimage (b : Block) : bytes :=
  u64_le (b_height b) ++ b_parent_hash b ++ u64_le (b_view b) ++ u64_le (b_proposer b) ++
  u64_le (b_timestamp b) ++ b_app_hash b ++
  u64_le (N.of_nat (length (b_evidence b))) ++ mjoin (encode_evidence <$> b_evidence b) ++
  len_prefixed (b_payload b).

Definition compute_hash `{Blake3} (b : Block) : BlockHash := blake3 (block_preimage b).

Definition bool_u8 (b : bool) : byte := if b then x01 else x00.

(** The bytes that [QuorumCertificate::digest] feeds to the hasher. *)
Definition qc_preimage (qc : QuorumCertificate) : bytes :=
  let agg := qc_aggregate_signature qc in
  u64_le (qc_epoch qc) ++ u64_le (qc_view qc) ++ qc_block_hash qc ++
  u64_le (N.of_nat (length (agg_signers agg))) ++ (bool_u8 <$> agg_signers agg) ++
  u64_le (N.of_nat (length (agg_signatures agg))) ++ mjoin (len_prefixed <$> agg_signatures agg).

Definition digest `{Blake3} (qc : QuorumCertificate) : bytes := blake3 (qc_preimage qc).

(** ** Domain tags *)

Definition tag_of (s : string) : bytes := (String.list_byte_of_string s ++ [x00])%list.

Definition VOTE_TAG : bytes := tag_of "HOTMINT_VOTE_V3".
Definition STATUS_TAG : bytes := tag_of "HOTMINT_STATUS_V2".
Definition PROPOSAL_TAG : bytes := tag_of "HOTMINT_PROPOSAL_V1".
Definition PREPARE_TAG : bytes := tag_of "HOTMINT_PREPARE_V1".
Definition WISH_TAG : bytes := tag_of "HOTMINT_WISH_V1".

(** ** Signing payloads *)

Definition vote_signing_bytes `{Blake3} (chain_id_hash : bytes) (epoch : EpochNumber)
    (view : ViewNumber) (validator : ValidatorId) (block_hash : BlockHash)
    (vote_type : VoteType) (extension : option bytes) : bytes :=
  VOTE_TAG ++ chain_id_hash ++ u64_le epoch ++ u64_le view ++ u64_le validator ++
  block_hash ++ [vote_type_u8 vote_type] ++
  match extension with
  | Some bs => [x01] ++ u64_le (N.of_nat (length bs)) ++ blake3 bs
  | None => [x00] ++ u64_le 0 ++ zeros 32
  end.

Definition status_signing_bytes (chain_id_hash : bytes) (epoch : EpochNumber)
    (view : ViewNumber) (validator : ValidatorId) (locked_qc : option QuorumCertificate)
    : bytes :=
  STATUS_TAG ++ chain_id_hash ++ u64_le epoch ++ u64_le view ++ u64_le validator ++
  match locked_qc with
  | Some qc => qc_block_hash qc ++ u64_le (qc_view qc)
  | None => []
  end.

Definition proposal_signing_bytes (chain_id_hash : bytes) (epoch : EpochNumber)
    (block : Block) (justify : QuorumCertificate) : bytes :=
  PROPOSAL_TAG ++ chain_id_hash ++ u64_le epoch ++ b_hash block ++
  qc_block_hash justify ++ u64_le (qc_view justify).

Definition prepare_signing_bytes (chain_id_hash : bytes) (epoch : EpochNumber)
    (qc : QuorumCertificate) : bytes :=
  PREPARE_TAG ++ chain_id_hash ++ u64_le epoch ++ qc_block_hash qc ++ u64_le (qc_view qc).

Definition wish_signing_bytes `{Blake3} (chain_id_hash : bytes) (epoch : EpochNumber)
    (target_view : ViewNumber) (highest_qc : option QuorumCertificate) : bytes :=
  WISH_TAG ++ chain_id_hash ++ u64_le epoch ++ u64_le target_view ++
  match highest_qc with
  | None => [x00]
  | Some qc => [x01] ++ digest qc
  end.

(** ** Ranges of the Rust types *)

Definition u64_ok (n : N) : Prop := n ≤ u64_max.
Definition hash_ok (h : bytes) : Prop := length h = 32%nat.
Definition vec_ok {A} (l : list A) : Prop := N.of_nat (length l) ≤ u64_max.
Definition ext_ok (e : option bytes) : Prop := if e is Some bs then vec_ok bs else True.

Record evidence_ok (ev : EquivocationProof) : Prop := {
  evo_validator : u64_ok (ep_validator ev);
  evo_view : u64_ok (ep_view ev);
  evo_epoch : u64_ok (ep_epoch ev);
  evo_hash_a : hash_ok (ep_block_hash_a ev);
  evo_hash_b : hash_ok (ep_block_hash_b ev);
  evo_sig_a : vec_ok (ep_signature_a ev);
  evo_sig_b : vec_ok (ep_signature_b ev);
  evo_ext_a : ext_ok (ep_extension_a ev);
  evo_ext_b : ext_ok (ep_extension_b ev);
}.

Record block_ok (b : Block) : Prop := {
  bo_height : u64_ok (b_height b);
  bo_parent : hash_ok (b_parent_hash b);
  bo_view : u64_ok (b_view b);
  bo_proposer : u64_ok (b_proposer b);
  bo_timestamp : u64_ok (b_timestamp b);
  bo_app_hash : hash_ok (b_app_hash b);
  bo_evidence_len : vec_ok (b_evidence b);
  bo_evidence : Forall evidence_ok (b_evidence b);
  bo_payload : vec_ok (b_payload b);
  bo_hash : hash_ok (b_hash b);
}.

Record qc_ok (qc : QuorumCertificate) : Prop := {
  qo_hash : hash_ok (qc_block_hash qc);
  qo_view : u64_ok (qc_view qc);
  qo_epoch : u64_ok (qc_epoch qc);
  qo_signers : vec_ok (agg_signers (qc_aggregate_signature qc));
  qo_signatures : vec_ok (agg_signatures (qc_aggregate_signature qc));
  qo_each : Forall vec_ok (agg_signatures (qc_aggregate_signature qc));
}.

Definition opt_qc_ok (o : option QuorumCertificate) : Prop := if o is Some qc then qc_ok qc else True.

(** ** Prefix codes

    [enc] is a prefix code on [ok] when the encoding and whatever follows it
    can both be recovered from their concatenation. *)

Class PrefixCode {A} (enc : A → bytes) (ok : A → Prop) : Prop :=
  prefix_code : ∀ a b r s, ok a → ok b → enc a ++ r = enc b ++ s → a = b ∧ r = s.

#[global] Instance u64_code : PrefixCode u64_le u64_ok.
Proof.
  intros a b r s Ha Hb [Hab ->]%app_inj_1; [|by rewrite !length_u64_le].
  by apply u64_le_inj in Hab.
Qed.

#[global] Instance hash_code : PrefixCode id hash_ok.
Proof. intros a b r s Ha Hb H. apply app_inj_1; [by etrans|done]. Qed.

#[global] Instance byte_code : PrefixCode (λ b : byte, [b]) (λ _, True).
Proof. intros a b r s _ _ H. by simplify_eq/=. Qed.

#[global] Instance vote_type_code : PrefixCode (λ t, [vote_type_u8 t]) (λ _, True).
Proof. intros [] [] r s _ _ H; by simplify_eq/=. Qed.

#[global] Instance len_prefixed_code : PrefixCode len_prefixed vec_ok.
Proof.
  intros a b r s Ha Hb H. unfold len_prefixed in H. rewrite <- !app_assoc in H.
  apply u64_code in H as [Hlen H]; [|done|done].
  by apply app_inj_1 in H; [|lia].
Qed.

#[global] Instance extension_code : PrefixCode encode_extension ext_ok.
Proof.
  intros [a|] [b|] r s Ha Hb H; apply (byte_code _ _ _ _ I I) in H as [? H]; try done.
  by apply len_prefixed_code in H as [-> ->].
Qed.

(** Peel the first field of two equal encodings with its code. *)
Ltac peel_code :=
  match goal with
  | H : u64_le _ ++ _ = u64_le _ ++ _ |- _ =>
      apply u64_code in H as [? H]; [|assumption|assumption]
  | H : len_prefixed _ ++ _ = len_prefixed _ ++ _ |- _ =>
      apply len_prefixed_code in H as [? H]; [|assumption|assumption]
  | H : encode_extension _ ++ _ = encode_extension _ ++ _ |- _ =>
      apply extension_code in H as [? H]; [|assumption|assumption]
  | H : [vote_type_u8 _] ++ _ = [vote_type_u8 _] ++ _ |- _ =>
      apply (vote_type_code _ _ _ _ I I) in H as [? H]
  | H : ?a ++ _ = ?b ++ _, Ha : hash_ok ?a, Hb : hash_ok ?b |- _ =>
      apply (hash_code _ _ _ _ Ha Hb) in H as [? H]
  end.

#[global] Instance evidence_code : PrefixCode encode_evidence evidence_ok.
Proof.
  intros a b r s [] [] H. unfold encode_evidence in H.
  repeat (rewrite <- ?app_assoc in H; peel_code). destruct a, b; simpl in *. by subst.
Qed.

(** A counted sequence of prefix codes. *)
Lemma mjoin_code {A} (enc : A → bytes) ok `{!PrefixCode enc ok} l k r s :
  Forall ok l → Forall ok k → length l = length k →
  mjoin (enc <$> l) ++ r = mjoin (enc <$> k) ++ s → l = k ∧ r = s.
Proof.
  intros Hl. revert k. induction Hl as [|a l Ha Hl IH]; intros [|b k] Hk Hlen H;
    simplify_eq/=; [done|].
  apply Forall_cons in Hk as [Hb Hk]. rewrite <- !app_assoc in H.
  apply prefix_code in H as [-> H]; [|done|done]. by destruct (IH k Hk Hlen H) as [-> ->].
Qed.

Lemma bool_u8_inj (l k : list bool) : bool_u8 <$> l = bool_u8 <$> k → l = k.
Proof.
  revert k. induction l as [|[] l IH]; intros [|[] k] H; simplify_eq/=; f_equal; auto.
Qed.

(** The block preimage determines every field but the cached hash. *)
Lemma block_preimage_inj a b :
  block_ok a → block_ok b → block_preimage a = block_preimage b →
  ∀ h, set_hash a h = set_hash b h.
Proof.
  intros [] [] H h. unfold block_preimage in H.
  repeat (rewrite <- ?app_assoc in H; peel_code).
  apply (mjoin_code encode_evidence evidence_ok) in H as [? H]; [|done|done|lia].
  assert (b_payload a = b_payload b).
  { apply (len_prefixed_code _ _ [] []); [done|done|]. by rewrite H. }
  destruct a, b; simpl in *. by subst.
Qed.

Lemma qc_preimage_inj a b : qc_ok a → qc_ok b → qc_preimage a = qc_preimage b → a = b.
Proof.
  intros [] [] H. unfold qc_preimage in H.
  repeat (rewrite <- ?app_assoc in H; peel_code).
  apply app_inj_1 in H as [Hs%bool_u8_inj H]; [|rewrite !length_fmap; lia].
  peel_code.
  destruct (mjoin_code len_prefixed vec_ok (agg_signatures (qc_aggregate_signature a))
    (agg_signatures (qc_aggregate_signature b)) [] []) as [? _]; [done|done|lia| |].
  { by rewrite H. }
  destruct a as [? ? [] ?], b as [? ? [] ?]; simpl in *. by subst.
Qed.

(** ** Signed payloads of all kinds *)

Inductive SignedPayload : Type :=
| PVote (chain : bytes) (epoch : EpochNumber) (view : ViewNumber) (validator : ValidatorId)
    (block_hash : BlockHash) (vote_type : VoteType) (extension : option bytes)
| PStatus (chain : bytes) (epoch : EpochNumber) (view : ViewNumber) (validator : ValidatorId)
    (locked_qc : option QuorumCertificate)
| PProposal (chain : bytes) (epoch : EpochNumber) (block : Block) (justify : QuorumCertificate)
| PPrepare (chain : bytes) (epoch : EpochNumber) (qc : QuorumCertificate)
| PWish (chain : bytes) (epoch : EpochNumber) (target_view : ViewNumber)
    (highest_qc : option QuorumCertificate).

Definition payload_bytes `{Blake3} (p : SignedPayload) : bytes :=
  match p with
  | PVote c e v id h t x => vote_signing_bytes c e v id h t x
  | PStatus c e v id q => status_signing_bytes c e v id q
  | PProposal c e b j => proposal_signing_bytes c e b j
  | PPrepare c e q => prepare_signing_bytes c e q
  | PWish c e t q => wish_signing_bytes c e t q
  end.

(** What a signature on the payload commits to. *)
Inductive Committed : Type :=
| CVote (chain : bytes) (epoch view validator : N) (block_hash : bytes) (vote_type : VoteType)
    (extension : option bytes)
| CStatus (chain : bytes) (epoch view validator : N) (locked : option (bytes * N))
| CProposal (chain : bytes) (epoch : N) (block_hash : bytes) (justify : bytes * N)
| CPrepare (chain : bytes) (epoch : N) (qc : bytes * N)
| CWish (chain : bytes) (epoch target_view : N) (highest_qc : option QuorumCertificate).

Definition qc_key (qc : QuorumCertificate) : bytes * N := (qc_block_hash qc, qc_view qc).

Definition committed (p : SignedPayload) : Committed :=
  match p with
  | PVote c e v id h t x => CVote c e v id h t x
  | PStatus c e v id q => CStatus c e v id (qc_key <$> q)
  | PProposal c e b j => CProposal c e (b_hash b) (qc_key j)
  | PPrepare c e q => CPrepare c e (qc_key q)
  | PWish c e t q => CWish c e t q
  end.

(** The message hashed inside the payload, if any. *)
Definition hashed (p : SignedPayload) : option bytes :=
  match p with
  | PVote _ _ _ _ _ _ x => x
  | PWish _ _ _ q => qc_preimage <$> q
  | _ => None
  end.

Definition payload_ok (p : SignedPayload) : Prop :=
  match p with
  | PVote c e v id h _ x => hash_ok c ∧ u64_ok e ∧ u64_ok v ∧ u64_ok id ∧ hash_ok h ∧ ext_ok x
  | PStatus c e v id q => hash_ok c ∧ u64_ok e ∧ u64_ok v ∧ u64_ok id ∧ opt_qc_ok q
  | PProposal c e b j => hash_ok c ∧ u64_ok e ∧ block_ok b ∧ qc_ok j
  | PPrepare c e q => hash_ok c ∧ u64_ok e ∧ qc_ok q
  | PWish c e t q => hash_ok c ∧ u64_ok e ∧ u64_ok t ∧ opt_qc_ok q
  end.

Definition collision `{Blake3} (o o' : option bytes) : Prop :=
  ∃ m m', o = Some m ∧ o' = Some m' ∧ m ≠ m' ∧ blake3 m = blake3 m'.

Section Unambiguous.
Context `{Blake3}.

Lemma vote_payload_inj c e v id h t x c' e' v' id' h' t' x' :
  payload_ok (PVote c e v id h t x) → payload_ok (PVote c' e' v' id' h' t' x') →
  vote_signing_bytes c e v id h t x = vote_signing_bytes c' e' v' id' h' t' x' →
  CVote c e v id h t x = CVote c' e' v' id' h' t' x' ∨ collision x x'.
Proof.
  intros (?&?&?&?&?&?) (?&?&?&?&?&?) E. unfold vote_signing_bytes in E.
  apply app_inv_head in E. repeat peel_code. subst.
  destruct x as [x|], x' as [x'|]; apply (byte_code _ _ _ _ I I) in E as [? E]; try done.
  - apply app_inj_1 in E as [_ E]; [|done].
    destruct (decide (x = x')) as [->|]; [by left|right]. by exists x, x'.
  - by left.
Qed.

Lemma status_payload_inj c e v id q c' e' v' id' q' :
  payload_ok (PStatus c e v id q) → payload_ok (PStatus c' e' v' id' q') →
  status_signing_bytes c e v id q = status_signing_bytes c' e' v' id' q' →
  committed (PStatus c e v id q) = committed (PStatus c' e' v' id' q').
Proof.
  intros (?&?&?&?&Hq) (?&?&?&?&Hq') E. unfold status_signing_bytes in E.
  apply app_inv_head in E. repeat peel_code. subst. simpl. f_equal.
  destruct q as [q|], q' as [q'|]; [|apply (f_equal length) in E..|done].
  - destruct Hq, Hq'. peel_code. apply u64_le_inj in E; [|done..]. simpl. unfold qc_key. congruence.
  - rewrite length_app, length_u64_le in E. simpl in E. lia.
  - rewrite length_app, length_u64_le in E. simpl in E. lia.
Qed.

Lemma proposal_payload_inj c e b j c' e' b' j' :
  payload_ok (PProposal c e b j) → payload_ok (PProposal c' e' b' j') →
  proposal_signing_bytes c e b j = proposal_signing_bytes c' e' b' j' →
  committed (PProposal c e b j) = committed (PProposal c' e' b' j').
Proof.
  intros (?&?&[]&[]) (?&?&[]&[]) E. unfold proposal_signing_bytes in E.
  apply app_inv_head in E. repeat peel_code.
  apply u64_le_inj in E; [|done..]. simpl. unfold qc_key. congruence.
Qed.

Lemma prepare_payload_inj c e q c' e' q' :
  payload_ok (PPrepare c e q) → payload_ok (PPrepare c' e' q') →
  prepare_signing_bytes c e q = prepare_signing_bytes c' e' q' →
  committed (PPrepare c e q) = committed (PPrepare c' e' q').
Proof.
  intros (?&?&[]) (?&?&[]) E. unfold prepare_signing_bytes in E.
  apply app_inv_head in E. repeat peel_code.
  apply u64_le_inj in E; [|done..]. simpl. unfold qc_key. congruence.
Qed.

Lemma wish_payload_inj c e t q c' e' t' q' :
  payload_ok (PWish c e t q) → payload_ok (PWish c' e' t' q') →
  wish_signing_bytes c e t q = wish_signing_bytes c' e' t' q' →
  CWish c e t q = CWish c' e' t' q' ∨ collision (qc_preimage <$> q) (qc_preimage <$> q').
Proof.
  intros (?&?&?&Hq) (?&?&?&Hq') E. unfold wish_signing_bytes in E.
  apply app_inv_head in E. repeat peel_code. subst.
  destruct q as [q|], q' as [q'|]; try done; [|by left].
  apply (byte_code _ _ _ _ I I) in E as [_ E].
  destruct (decide (qc_preimage q = qc_preimage q')) as [->%qc_preimage_inj|]; [by left|done..|].
  right. by exists (qc_preimage q), (qc_preimage q').
Qed.
End Unambiguous.

(** ** Properties *)

(** The bytes hashed by [Block::compute_hash] determine every field of the
    block except the cached hash, so two blocks with the same hash have the
    same content unless their preimages are a blake3 collision. *)
Lemma compute_hash_binds `{Blake3} a b :
  block_ok a → block_ok b →
  (block_preimage a = block_preimage b ↔ ∀ h, set_hash a h = set_hash b h) ∧
  (compute_hash a = compute_hash b →
     (∀ h, set_hash a h = set_hash b h) ∨
     collision (Some (block_preimage a)) (Some (block_preimage b))).
Proof.
  intros Ha Hb. split.
  - split; [by apply block_preimage_inj|]. intros E. specialize (E []).
    destruct a, b. unfold set_hash in E. simpl in E. injection E as -> -> -> -> -> -> -> ->. reflexivity.
  - intros E. destruct (decide (block_preimage a = block_preimage b)).
    + left. by apply block_preimage_inj.
    + right. by exists (block_preimage a), (block_preimage b).
Qed.

(** A concrete 32-byte hash function, to evaluate definitions over [Blake3]. *)
#[local] Instance blake3_pad : Blake3.
Proof.
  refine {| blake3 := λ m, resize 32 x00 (rev m) |}. intros m. apply length_resize.
Defined.

Definition sample_evidence : EquivocationProof :=
  mkEquivocationProof 3 8 TVote2 1 (zeros 32) [x01; x02] (Some [x01]) (x01 :: zeros 31) [x02] None.

Definition sample_block : Block :=
  mkBlock 4 (zeros 32) 9 2 1000 [x00; x01] (zeros 32) [sample_evidence] (zeros 32).

Lemma sample_block_ok : block_ok sample_block.
Proof. repeat constructor; vm_compute; done. Qed.

Lemma compute_hash_binds_witness :
  block_preimage sample_block = block_preimage (set_hash sample_block (blake3 [])) ∧
  block_preimage sample_block ≠ block_preimage Block_genesis.
Proof.
  assert (block_ok (set_hash sample_block (blake3 []))) by (repeat constructor; vm_compute; done).
  assert (block_ok Block_genesis) by (repeat constructor; vm_compute; done).
  split.
  - apply (compute_hash_binds sample_block (set_hash sample_block (blake3 [])));
      [apply sample_block_ok|done|]. reflexivity.
  - intros E.
    destruct (compute_hash_binds sample_block Block_genesis sample_block_ok) as [[Hb _] _]; [done|].
    discriminate (Hb E []).
Defined.

(** C11: the five kinds of signed payload (votes, status certificates,
    proposals, prepares, wishes) never share their bytes across kinds, and
    equal bytes commit to equal contents: chain, epoch, view, validator, hash,
    vote type and extension of a vote; the locked (hash, view) of a status; the
    block hash and justify (hash, view) of a proposal; the (hash, view) of a
    prepare; the whole highest QC of a wish.  The only escape is a collision
    between the hashed extensions or certificate preimages themselves. *)
Theorem signing_bytes_unambiguous `{Blake3} p q :
  payload_ok p → payload_ok q → payload_bytes p = payload_bytes q →
  committed p = committed q ∨ collision (hashed p) (hashed q).
Proof.
  intros Hp Hq E. destruct p, q; try discriminate E.
  - by apply vote_payload_inj.
  - left. by apply status_payload_inj.
  - left. by apply proposal_payload_inj.
  - left. by apply prepare_payload_inj.
  - by apply wish_payload_inj.
Qed.

Definition sample_vote_payload (view : N) (ext : option bytes) : SignedPayload :=
  PVote (zeros 32) 0 view 1 (zeros 32) TVote2 ext.

Lemma signing_bytes_unambiguous_witness :
  payload_bytes (sample_vote_payload 5 (Some [x01])) ≠
  payload_bytes (sample_vote_payload 5 (Some [x02])).
Proof.
  intros E.
  destruct (signing_bytes_unambiguous (sample_vote_payload 5 (Some [x01]))
              (sample_vote_payload 5 (Some [x02]))) as [D|(m&m'&Hm&Hm'&_&C)];
    [vm_compute; repeat split; done..|exact E| |].
  - discriminate D.
  - injection Hm as <-. injection Hm' as <-. discriminate C.
Defined.
