(* ===== verification/Wal.v ===== *)
(** * The write-ahead log

    [hotmint-storage/src/wal.rs].  The file is its bytes and a position; the
    operations are sequences of system calls, so that a crash can interrupt
    them anywhere: calls before the last [sync_all] are durable, of the later
    ones any prefix may have reached the disk, with the last write torn.  The
    payload encoding is the [postcard] crate's, of which only the round trip is
    used. *)

From S2P Require Import Prelude Types Encoding.

(** ** Entries *)

Inductive WalEntry : Type :=
| CommitIntent (target_height : Height)
| CommitDone (target_height : Height).

Definition entry_height (e : WalEntry) : Height :=
  match e with CommitIntent h | CommitDone h => h end.

Definition entry_ok (e : WalEntry) : Prop := u64_ok (entry_height e).

(** [postcard::to_allocvec] and [postcard::from_bytes] at this type. *)
Class WalCodec : Type := {
  to_allocvec : WalEntry → bytes;
  from_bytes : bytes → option WalEntry;
  from_to_bytes : ∀ e, entry_ok e → from_bytes (to_allocvec e) = Some e;
  to_allocvec_length : ∀ e, entry_ok e → N.of_nat (length (to_allocvec e)) ≤ u32_max;
}.

Definition ENTRY_MAGIC : bytes := Byte.x57 :: Byte.x41 :: Byte.x4c :: Byte.x31 :: [].

Section Wal.
Context `{WalCodec}.

Inductive DecodeResult : Type :=
| Entry (e : WalEntry) (consumed : nat)
| Truncated
| Invalid.

Definition decode_entry (buf : bytes) : DecodeResult :=
  if (length buf <? 4)%nat then
    if bool_decide (buf `prefix_of` ENTRY_MAGIC) then Truncated else Invalid
  else if negb (bool_decide (take 4 buf = ENTRY_MAGIC)) then Invalid
  else if (length buf <? 8)%nat then Truncated
  else
    let len := N.to_nat (le_u32 (take 4 (drop 4 buf))) in
    if (length buf <? 8 + len)%nat then Truncated
    else match from_bytes (take len (drop 8 buf)) with
         | Some entry => Entry entry (8 + len)
         | None => Invalid
         end.

(** ** The file *)

Record File : Type := mkFile { f_bytes : bytes; f_pos : nat }.

Inductive syscall : Type :=
| WriteAll (data : bytes)
| SetLen (len : nat)
| SeekStart (pos : nat)
| SeekEnd
| SyncAll.

Definition write_at (f : File) (data : bytes) : File :=
  mkFile (take (f_pos f) (f_bytes f) ++ data ++ drop (f_pos f + length data) (f_bytes f))
    (f_pos f + length data).

Definition exec (f : File) (c : syscall) : File :=
  match c with
  | WriteAll data => write_at f data
  | SetLen len => mkFile (take len (f_bytes f)) (f_pos f)
  | SeekStart pos => mkFile (f_bytes f) pos
  | SeekEnd => mkFile (f_bytes f) (length (f_bytes f))
  | SyncAll => f
  end.

Definition exec_all (f : File) (cs : list syscall) : File := foldl exec f cs.

(** ** Operations *)

Definition write_entry (e : WalEntry) : list syscall :=
  let payload := to_allocvec e in
  [WriteAll ENTRY_MAGIC; WriteAll (u32_le (N.of_nat (length payload) mod (u32_max + 1)));
   WriteAll payload].

Definition wal_truncate : list syscall := [SetLen 0; SeekStart 0; SyncAll].

Definition wal_log_commit_intent (target_height : Height) : list syscall :=
  write_entry (CommitIntent target_height) ++ [SyncAll].

Definition wal_log_commit_done (target_height : Height) : list syscall :=
  write_entry (CommitDone target_height) ++ [SyncAll] ++ wal_truncate.

(** [ConsensusWal::open]: the file is created or kept, the position at its end. *)
Definition wal_open (content : option bytes) : File :=
  exec (mkFile (default [] content) 0) SeekEnd.

(** ** Recovery *)

Inductive WalRecovery : Type :=
| Clean
| NeedsReplay (target_height : Height).

Inductive wal_error : Type := InvalidData (offset : nat) | ScanFuel.

(** The loop over the entries: the last one, and the offset at which a truncated
    tail is cut off. *)
Fixpoint scan (fuel : nat) (buf : bytes) (offset : nat) (last_entry : option WalEntry)
    : res wal_error (option WalEntry * option nat) :=
  match fuel with
  | O => Err ScanFuel
  | S fuel =>
      if (offset <? length buf)%nat then
        match decode_entry (drop offset buf) with
        | Entry entry consumed => scan fuel buf (offset + consumed) (Some entry)
        | Truncated => Ok (last_entry, Some offset)
        | Invalid => Err (InvalidData offset)
        end
      else Ok (last_entry, None)
  end.

(** [check_recovery_path]: the verdict and the file it leaves; [None] is a
    missing file. *)
Definition check_recovery_path (content : option bytes) (last_committed_height : option Height)
    : res wal_error (WalRecovery * option bytes) :=
  match content with
  | None => Ok (Clean, None)
  | Some buf =>
      '(last_entry, cut) ← scan (S (length buf)) buf 0 None;
      let buf := match cut with Some offset => take offset buf | None => buf end in
      match last_entry with
      | Some (CommitIntent target_height) =>
          match last_committed_height with
          | Some committed_height =>
              if target_height <=? committed_height then Ok (Clean, Some [])
              else Ok (NeedsReplay target_height, Some buf)
          | None => Ok (NeedsReplay target_height, Some buf)
          end
      | Some (CommitDone _) => Ok (Clean, Some [])
      | None => Ok (Clean, Some buf)
      end
  end.

(** [reconcile_with_committed_height] on an open log. *)
Definition reconcile_with_committed_height (f : File) (last_committed_height : Height)
    : res wal_error (WalRecovery * File) :=
  '(recovery, content) ← check_recovery_path (Some (f_bytes f)) (Some last_committed_height);
  Ok (recovery, exec (mkFile (default [] content) (f_pos f)) SeekEnd).

(** ** Crashes *)

(** What may be on disk when the process dies while it executes [cs] on [f]:
    the calls up to some point, the write there in part. *)
Inductive crashed : File → list syscall → bytes → Prop :=
| crashed_here f cs : crashed f cs (f_bytes f)
| crashed_torn f data cs n : crashed f (WriteAll data :: cs) (f_bytes (write_at f (take n data)))
| crashed_later f c cs content : crashed (exec f c) cs content → crashed f (c :: cs) content.

(** What the engine does with the log. *)
Inductive wal_op : Type := OpIntent (h : Height) | OpDone (h : Height).

Definition op_calls (o : wal_op) : list syscall :=
  match o with OpIntent h => wal_log_commit_intent h | OpDone h => wal_log_commit_done h end.

Definition exec_ops (f : File) (os : list wal_op) : File :=
  foldl (λ f o, exec_all f (op_calls o)) f os.

(** A commit is unfinished when its intent is the last thing that was logged. *)
Definition unfinished (os : list wal_op) : WalRecovery :=
  match last os with Some (OpIntent h) => NeedsReplay h | _ => Clean end.

(** The verdict that the committed height [h] turns into. *)
Definition covered (committed : option Height) (r : WalRecovery) : WalRecovery :=
  match r, committed with
  | NeedsReplay target, Some h => if target <=? h then Clean else r
  | _, _ => r
  end.

(** ** One entry *)

Definition entry_bytes (e : WalEntry) : bytes :=
  ENTRY_MAGIC ++ u32_le (N.of_nat (length (to_allocvec e))) ++ to_allocvec e.

Lemma entry_bytes_length e : length (entry_bytes e) = (8 + length (to_allocvec e))%nat.
Proof. unfold entry_bytes. rewrite !length_app, length_u32_le. done. Qed.

Lemma decode_entry_complete e rest :
  entry_ok e → decode_entry (entry_bytes e ++ rest) = Entry e (length (entry_bytes e)).
Proof.
  intros Hok. pose proof (to_allocvec_length e Hok) as Hl. pose proof (entry_bytes_length e) as Hle.
  unfold decode_entry. rewrite !length_app, Hle.
  destruct (Nat.ltb_spec (8 + length (to_allocvec e) + length rest) 4); [lia|].
  replace (take 4 (entry_bytes e ++ rest)) with ENTRY_MAGIC by done.
  rewrite bool_decide_true by done. simpl negb. cbv iota.
  destruct (Nat.ltb_spec (8 + length (to_allocvec e) + length rest) 8); [lia|].
  replace (drop 4 (entry_bytes e ++ rest)) with
    (u32_le (N.of_nat (length (to_allocvec e))) ++ to_allocvec e ++ rest)
    by (unfold entry_bytes; rewrite <- !app_assoc; done).
  rewrite take_app_length' by (by rewrite length_u32_le). rewrite le_u32_u32_le, Nat2N.id by done.
  destruct (Nat.ltb_spec (8 + length (to_allocvec e) + length rest) (8 + length (to_allocvec e))); [lia|].
  replace (drop 8 (entry_bytes e ++ rest)) with (to_allocvec e ++ rest).
  - rewrite take_app_length, from_to_bytes by done. done.
  - unfold entry_bytes. rewrite app_assoc, <- app_assoc, drop_app_length'; [done|].
    rewrite length_app, length_u32_le. done.
Qed.

(** A torn entry is never taken for a whole or a corrupt one. *)
Lemma decode_entry_torn e n :
  entry_ok e → (n < length (entry_bytes e))%nat → decode_entry (take n (entry_bytes e)) = Truncated.
Proof.
  intros Hok Hn. pose proof (to_allocvec_length e Hok) as Hl. pose proof (entry_bytes_length e) as Hle.
  unfold decode_entry. rewrite length_take_le by lia. destruct (Nat.ltb_spec n 4) as [H4|H4].
  { rewrite bool_decide_true; [done|]. unfold entry_bytes. rewrite take_app_le by (simpl; lia).
    apply prefix_take. }
  rewrite take_take, Nat.min_l by lia. rewrite bool_decide_true by done. simpl negb. cbv iota.
  destruct (Nat.ltb_spec n 8) as [H8|H8]; [done|].
  rewrite skipn_firstn_comm, take_take, Nat.min_l by lia.
  replace (drop 4 (entry_bytes e)) with (u32_le (N.of_nat (length (to_allocvec e))) ++ to_allocvec e)
    by done.
  rewrite take_app_length' by (by rewrite length_u32_le). rewrite le_u32_u32_le, Nat2N.id by done.
  by destruct (Nat.ltb_spec n (8 + length (to_allocvec e))); [|lia].
Qed.

(** ** The scan *)

Definition log_bytes (es : list WalEntry) : bytes := mjoin (entry_bytes <$> es).

Lemma log_bytes_app es es' : log_bytes (es ++ es') = log_bytes es ++ log_bytes es'.
Proof. unfold log_bytes. by rewrite fmap_app, join_app. Qed.

(** A log of whole entries with a torn one at its end. *)
Lemma scan_spec es e n pre last fuel :
  entry_ok e → Forall entry_ok es → (n < length (entry_bytes e))%nat → (length es < fuel)%nat →
  scan fuel (pre ++ log_bytes es ++ take n (entry_bytes e)) (length pre) last =
    Ok (default last (Some <$> list.last es),
        if (n =? 0)%nat then None else Some (length (pre ++ log_bytes es))).
Proof.
  intros Hok Hes Hn. revert pre last fuel.
  induction Hes as [|x es Hx _ IH]; intros pre last fuel Hf;
    (destruct fuel as [|fuel]; [simpl in Hf; lia|]); cbn [scan].
  - rewrite length_app, drop_app_length. change (log_bytes []) with (@nil byte).
    rewrite !app_nil_l, app_nil_r. rewrite length_take_le by lia.
    destruct (Nat.ltb_spec (length pre) (length pre + n)) as [Hlt|Hge].
    + rewrite decode_entry_torn by done. by destruct (Nat.eqb_spec n 0); [lia|].
    + by destruct (Nat.eqb_spec n 0); [|lia].
  - change (log_bytes (x :: es)) with (entry_bytes x ++ log_bytes es).
    rewrite <- !app_assoc, drop_app_length.
    pose proof (entry_bytes_length x) as Hlx. rewrite !length_app.
    destruct (Nat.ltb_spec (length pre)
      (length pre + (length (entry_bytes x) + (length (log_bytes es) + length (take n (entry_bytes e))))));
      [|lia].
    rewrite decode_entry_complete by done. simpl in Hf.
    specialize (IH (pre ++ entry_bytes x) (Some x) fuel ltac:(lia)).
    rewrite <- !app_assoc, length_app in IH. rewrite IH. do 2 f_equal.
    + rewrite last_cons. by destruct (list.last es).
    + destruct (n =? 0)%nat; [done|]. by rewrite !length_app.
Qed.

Lemma log_bytes_count es : (length es ≤ length (log_bytes es))%nat.
Proof.
  induction es as [|x es IH]; [done|]. change (log_bytes (x :: es)) with (entry_bytes x ++ log_bytes es).
  rewrite length_app, entry_bytes_length. simpl. lia.
Qed.

(** The verdict on a log that ends in [last_entry]. *)
Definition verdict (committed : option Height) (last_entry : option WalEntry) : WalRecovery :=
  match last_entry with
  | Some (CommitIntent h) => covered committed (NeedsReplay h)
  | _ => Clean
  end.

(** Recovery drops a torn tail and, when nothing is left to replay, everything. *)
Definition kept (r : WalRecovery) (es : list WalEntry) : bytes :=
  match r with Clean => [] | NeedsReplay _ => log_bytes es end.

Lemma check_recovery_log es e n committed :
  entry_ok e → Forall entry_ok es → (n < length (entry_bytes e))%nat →
  check_recovery_path (Some (log_bytes es ++ take n (entry_bytes e))) committed =
    Ok (verdict committed (last es), Some (kept (verdict committed (last es)) es)).
Proof.
  intros Hok Hes Hn. unfold check_recovery_path.
  pose proof (scan_spec es e n [] None (S (length (log_bytes es ++ take n (entry_bytes e)))) Hok Hes Hn) as Hs.
  cbn [app length] in Hs.
  rewrite Hs; [|rewrite length_app; pose proof (log_bytes_count es); lia]. simpl.
  assert ((match (if (n =? 0)%nat then None else Some (length (log_bytes es))) with
           | Some offset => take offset (log_bytes es ++ take n (entry_bytes e))
           | None => log_bytes es ++ take n (entry_bytes e) end) = log_bytes es) as ->.
  { destruct (Nat.eqb_spec n 0) as [->|]; [by rewrite take_0, app_nil_r|apply take_app_length]. }
  unfold verdict. destruct (last es) as [[h|h]|] eqn:El; simpl; [|done|].
  - unfold covered. destruct committed as [c|]; [destruct (h <=? c)|]; done.
  - apply last_None in El as ->. done.
Qed.

(** ** Appending *)

Definition at_end (b : bytes) : File := mkFile b (length b).

Lemma write_at_end b data : write_at (at_end b) data = at_end (b ++ data).
Proof.
  unfold write_at, at_end. simpl. rewrite firstn_all, drop_ge, app_nil_r by lia. by rewrite length_app.
Qed.

(** A crash during or after consecutive writes at the end of the file. *)
Lemma crashed_writes b ds cs content :
  crashed (at_end b) ((WriteAll <$> ds) ++ cs) content →
  (∃ n, (n < length (mjoin ds))%nat ∧ content = b ++ take n (mjoin ds)) ∨
  crashed (at_end (b ++ mjoin ds)) cs content.
Proof.
  revert b. induction ds as [|d ds IH]; intros b; simpl.
  { rewrite app_nil_r. by right. }
  intros Hc. assert (∀ n, (∃ k, (k < length (d ++ mjoin ds))%nat ∧ b ++ take n d = b ++ take k (d ++ mjoin ds)) ∨
    b ++ take n d = b ++ d ++ mjoin ds) as Htake.
  { intros n. destruct (decide (n `min` length d < length (d ++ mjoin ds))%nat).
    - left. exists (n `min` length d)%nat. split; [done|]. by rewrite take_app_le, <- firstn_firstn, firstn_all by lia.
    - right. rewrite length_app in *. assert (length (mjoin ds) = 0%nat) by lia.
      rewrite (nil_length_inv (mjoin ds)), app_nil_r by done. by rewrite take_ge by lia. }
  inversion Hc as [f cs' Ef Ec|f data cs' n Ef Ec|f c cs' content' Hl Ef Ec]; subst; clear Hc.
  - simpl. destruct (Htake 0%nat) as [(k&?&E)|E]; rewrite take_0, app_nil_r in E.
    + left. by exists k.
    + right. rewrite <- E. apply crashed_here.
  - rewrite write_at_end. simpl. destruct (Htake n) as [(k&?&E)|E].
    + left. by exists k.
    + right. rewrite <- E. apply crashed_here.
  - simpl in Hl. rewrite write_at_end in Hl. destruct (IH _ Hl) as [(n&Hn&->)|Hr].
    + left. exists (length d + n)%nat. rewrite length_app. split; [lia|].
      by rewrite take_app_add, <- app_assoc.
    + right. by rewrite <- app_assoc in Hr.
Qed.
(** ** Operations on a log of intents *)

Definition intents (hs : list Height) : bytes := log_bytes (CommitIntent <$> hs).

Lemma write_entry_calls e cs :
  entry_ok e → write_entry e ++ cs = (WriteAll <$> [ENTRY_MAGIC; u32_le (N.of_nat (length (to_allocvec e))); to_allocvec e]) ++ cs.
Proof.
  intros Hok. unfold write_entry. rewrite N.mod_small; [done|]. pose proof (to_allocvec_length e Hok). lia.
Qed.

Lemma entry_bytes_join e :
  mjoin [ENTRY_MAGIC; u32_le (N.of_nat (length (to_allocvec e))); to_allocvec e] = entry_bytes e.
Proof. unfold entry_bytes. cbn [mjoin list_join]. by rewrite app_nil_r. Qed.

Lemma exec_write_entry b e : entry_ok e → exec_all (at_end b) (write_entry e) = at_end (b ++ entry_bytes e).
Proof.
  intros Hok. rewrite <- (app_nil_r (write_entry e)), write_entry_calls by done. simpl. unfold exec_all. simpl.
  rewrite !write_at_end. by rewrite <- !app_assoc.
Qed.

Lemma log_bytes_snoc es e : log_bytes (es ++ [e]) = log_bytes es ++ entry_bytes e.
Proof. rewrite log_bytes_app. unfold log_bytes at 2. simpl. by rewrite app_nil_r. Qed.

Lemma intents_snoc hs h : intents (hs ++ [h]) = intents hs ++ entry_bytes (CommitIntent h).
Proof. unfold intents. rewrite fmap_app. apply log_bytes_snoc. Qed.

Definition op_ok (o : wal_op) : Prop :=
  match o with OpIntent h | OpDone h => u64_ok h end.

(** The intents in the log after an operation. *)
Definition after_op (hs : list Height) (o : wal_op) : list Height :=
  match o with OpIntent h => hs ++ [h] | OpDone _ => [] end.

Lemma exec_all_app f cs cs' : exec_all f (cs ++ cs') = exec_all (exec_all f cs) cs'.
Proof. apply foldl_app. Qed.

Lemma exec_op hs o : op_ok o → exec_all (at_end (intents hs)) (op_calls o) = at_end (intents (after_op hs o)).
Proof.
  intros Hok. destruct o as [h|h]; cbn [op_calls after_op]; unfold wal_log_commit_intent, wal_log_commit_done;
    rewrite exec_all_app, exec_write_entry by done; [|done].
  by rewrite intents_snoc.
Qed.

Lemma exec_ops_intents hs os :
  Forall op_ok os → exec_ops (at_end (intents hs)) os = at_end (intents (foldl after_op hs os)).
Proof.
  intros Hok. revert hs. induction Hok as [|o os Ho _ IH]; intros hs; simpl; [done|]. by rewrite exec_op, IH.
Qed.

Lemma after_op_ok hs o : Forall u64_ok hs → op_ok o → Forall u64_ok (after_op hs o).
Proof. intros Hh Ho. destruct o; simpl; [|done]. apply Forall_app. by rewrite Forall_singleton. Qed.

Lemma after_ops_ok hs os : Forall u64_ok hs → Forall op_ok os → Forall u64_ok (foldl after_op hs os).
Proof. intros Hh Hok. revert hs Hh. induction Hok; simpl; auto using after_op_ok. Qed.

Lemma intents_ok hs : Forall u64_ok hs → Forall entry_ok (CommitIntent <$> hs).
Proof. intros Hh. by apply Forall_fmap. Qed.

Lemma open_intents hs : wal_open (Some (intents hs)) = at_end (intents hs).
Proof. done. Qed.

(** What is in the log is the unfinished commit. *)
Lemma unfinished_spec hs os :
  unfinished ((OpIntent <$> hs) ++ os) =
    match last (foldl after_op hs os) with Some h => NeedsReplay h | None => Clean end.
Proof.
  unfold unfinished. induction os as [|o os IH] using rev_ind.
  - rewrite app_nil_r. simpl. rewrite fmap_last. by destruct (last hs).
  - rewrite foldl_app, app_assoc, !last_snoc. simpl. destruct o; simpl; [by rewrite last_snoc|done].
Qed.
(** A crash during an operation leaves the intents of before, with the torn
    entry, or the whole entry after them, or nothing. *)
Lemma crashed_op hs o content :
  Forall u64_ok hs → op_ok o →
  crashed (at_end (intents hs)) (op_calls o) content →
  ∃ es e n, content = log_bytes es ++ take n (entry_bytes e) ∧ (n < length (entry_bytes e))%nat ∧
    entry_ok e ∧ Forall entry_ok es ∧
    (es = CommitIntent <$> hs ∨ es = CommitIntent <$> after_op hs o ∨
     ∃ h, o = OpDone h ∧ es = (CommitIntent <$> hs) ++ [CommitDone h]).
Proof.
  intros Hhs Ho. pose proof (intents_ok hs Hhs) as Hes.
  set (e := match o with OpIntent h => CommitIntent h | OpDone h => CommitDone h end).
  set (cs := match o with OpIntent h => [SyncAll] | OpDone h => [SyncAll; SetLen 0; SeekStart 0; SyncAll] end).
  assert (op_calls o = write_entry e ++ cs) as -> by by destruct o.
  assert (entry_ok e) as He by by destruct o.
  rewrite write_entry_calls by done. intros [(n&Hn&->)|Hc]%crashed_writes; rewrite entry_bytes_join in *.
  { exists (CommitIntent <$> hs), e, n. auto 8. }
  assert (0 < length (entry_bytes e))%nat as Hpos by (rewrite entry_bytes_length; lia).
  assert (content = intents hs ++ entry_bytes e ∨ ∃ h, o = OpDone h ∧ content = []) as [->|(h&->&->)].
  { destruct o as [h|h]; unfold cs in Hc; clear -Hc; inversion Hc; subst; [by left| |by left|]; simpl in *.
    - match goal with H : crashed _ [] _ |- _ => inversion H; subst; by left end.
    - match goal with H : crashed _ _ _ |- _ => inversion H; subst; [by left|]; clear H end.
      right. exists h. split; [done|]. simpl in *.
      repeat match goal with H : crashed _ _ _ |- _ => inversion H; subst; clear H end; done. }
  - rewrite <- (app_nil_r (intents hs ++ _)). exists ((CommitIntent <$> hs) ++ [e]), e, 0%nat.
    rewrite log_bytes_snoc, take_0. split_and!; [done..|by apply Forall_app; rewrite Forall_singleton|]. unfold e.
    destruct o as [h|h]; [right; left|right; right; by exists h]. simpl. by rewrite fmap_app.
  - exists [], e, 0%nat. rewrite take_0. split_and!; [done..|]. right. by left.
Qed.

(** What a log of intents asks for. *)
Definition replay_of (hs : list Height) : WalRecovery :=
  match last hs with Some h => NeedsReplay h | None => Clean end.

Definition kept_intents (committed : option Height) (hs : list Height) : list Height :=
  match covered committed (replay_of hs) with Clean => [] | NeedsReplay _ => hs end.

Lemma check_recovery_torn hs e n committed :
  entry_ok e → Forall u64_ok hs → (n < length (entry_bytes e))%nat →
  check_recovery_path (Some (log_bytes (CommitIntent <$> hs) ++ take n (entry_bytes e))) committed =
    Ok (covered committed (replay_of hs), Some (intents (kept_intents committed hs))).
Proof.
  intros Hok Hhs Hn. rewrite check_recovery_log by auto using intents_ok. rewrite fmap_last. unfold kept_intents, replay_of, kept.
  destruct (last hs) as [h|]; simpl; [|by destruct committed].
  unfold covered. destruct committed as [c|]; [destruct (h <=? c)|]; done.
Qed.

Lemma check_recovery_intents hs committed :
  Forall u64_ok hs → check_recovery_path (Some (intents hs)) committed =
    Ok (covered committed (replay_of hs), Some (intents (kept_intents committed hs))).
Proof.
  intros Hhs. rewrite <- (check_recovery_torn hs (CommitIntent 0) 0); [by rewrite take_0, app_nil_r|done..|].
  rewrite entry_bytes_length. lia.
Qed.

Lemma recovery_stable hs committed :
  Forall u64_ok hs → let hs' := kept_intents committed hs in
  check_recovery_path (Some (intents hs')) committed = Ok (covered committed (replay_of hs), Some (intents hs')).
Proof.
  intros Hhs hs'. assert (Forall u64_ok hs') by (unfold hs', kept_intents; by destruct (covered _ _)).
  rewrite check_recovery_intents by done. unfold hs', kept_intents.
  destruct (covered committed (replay_of hs)) eqn:Ec; [by destruct committed|by rewrite Ec].
Qed.

(** ** Property *)

(** C15: recovery of the log.  Start from a log of intents (an empty log, or what
    an earlier recovery left), perform any sequence of intents and dones, and
    die anywhere within the next one, its bytes torn at any point: on restart
    [check_recovery_path] succeeds, never taking the torn bytes for an entry or
    for corruption, reports the commit whose intent was the last operation
    (before or including the interrupted one) unless the durable committed
    height covers it, leaves a log of intents again, and gives the same verdict
    when it is run again.  Without an interrupted operation the verdict is
    exact. *)
Theorem wal_recovery_correct hs os committed :
  Forall u64_ok hs → Forall op_ok os →
  let f := exec_ops (wal_open (Some (intents hs))) os in
  let before := (OpIntent <$> hs) ++ os in
  (∃ hs', check_recovery_path (Some (f_bytes f)) committed =
     Ok (covered committed (unfinished before), Some (intents hs'))) ∧
  ∀ o content, op_ok o → crashed f (op_calls o) content →
    ∃ r hs', check_recovery_path (Some content) committed = Ok (r, Some (intents hs')) ∧
      (r = covered committed (unfinished before) ∨
       r = covered committed (unfinished (before ++ [o]))) ∧
      check_recovery_path (Some (intents hs')) committed = Ok (r, Some (intents hs')).
Proof.
  intros Hhs Hos f before. set (now := foldl after_op hs os).
  assert (Forall u64_ok now) as Hnow by by apply after_ops_ok.
  assert (f = at_end (intents now)) as -> by (unfold f; rewrite open_intents; by apply exec_ops_intents).
  assert (unfinished before = replay_of now) as -> by apply unfinished_spec.
  split; [eexists; by apply check_recovery_intents|].
  intros o content Ho (es&e&n&->&Hn&He&Hes&Hcase)%crashed_op; [|done..].
  assert (unfinished (before ++ [o]) = replay_of (after_op now o)) as ->.
  { unfold before. by rewrite <- app_assoc, unfinished_spec, foldl_app. }
  assert (Forall u64_ok (after_op now o)) by by apply after_op_ok.
  destruct Hcase as [->|[->|(h&->&->)]].
  - rewrite check_recovery_torn by done. eexists _, _. split_and!; [done|by left|by apply recovery_stable].
  - rewrite check_recovery_torn by done. eexists _, _. split_and!; [done|by right|by apply recovery_stable].
  - rewrite check_recovery_log by done. rewrite last_snoc. exists Clean, [].
    split_and!; [done|right; by destruct committed|].
    rewrite (check_recovery_intents []) by done. by destruct committed.
Qed.
End Wal.

(** A codec with a tag byte and a fixed-width height. *)
#[local] Instance sample_codec : WalCodec.
Proof.
  refine {| to_allocvec e := match e with
              | CommitIntent h => x00 :: u64_le h
              | CommitDone h => x01 :: u64_le h
              end;
            from_bytes bs := match bs with
              | x00 :: rest => Some (CommitIntent (le_u64 rest))
              | x01 :: rest => Some (CommitDone (le_u64 rest))
              | _ => None
              end |}.
  - intros [h|h] Hok; simpl; by rewrite le_u64_u64_le.
  - intros [h|h] _; cbn [length]; rewrite length_u64_le; done.
Defined.

(** Height 5 is being committed and its done entry is torn after six bytes. *)
Definition sample_torn : bytes :=
  log_bytes [CommitIntent 5] ++ take 6 (entry_bytes (CommitDone 5)).

Lemma wal_recovery_correct_witness :
  check_recovery_path (Some sample_torn) None = Ok (NeedsReplay 5, Some (intents [5])) ∧
  ∃ r hs', check_recovery_path (Some sample_torn) (Some 5) = Ok (r, Some (intents hs')) ∧
    (r = Clean ∨ r = Clean) ∧
    check_recovery_path (Some (intents hs')) (Some 5) = Ok (r, Some (intents hs')).
Proof.
  split; [vm_compute; reflexivity|].
  destruct (wal_recovery_correct [] [OpIntent 5] (Some 5)) as [_ H]; [done|by repeat constructor|].
  apply (H (OpDone 5) sample_torn); [done|]. apply crashed_later.
  match goal with |- crashed ?f (WriteAll ?d :: ?cs) _ =>
    replace sample_torn with (f_bytes (write_at f (take 2 d))) by (vm_compute; reflexivity) end.
  apply crashed_torn.
Defined.
