(* ===== verification/Aggregate.v ===== *)
(** * Aggregate signatures and certificates

    [AggregateSignature] ([hotmint-types/src/crypto.rs]), [aggregate_votes] and
    [has_quorum] ([hotmint-crypto/src/aggregate.rs]),
    [Ed25519Verifier::verify_aggregate] ([hotmint-crypto/src/signer.rs]),
    [TimeoutCertificate::highest_qc] ([hotmint-types/src/certificate.rs]) and
    the aggregate checks of the engine ([hotmint-consensus/src/engine.rs]:
    [verify_vote_aggregate], [canonical_vote_extensions]).  An aggregate is
    read as its list of (validator index, signature) entries. *)

From S2P Require Import Prelude Types ValidatorSet Encoding.

(** ** [AggregateSignature] *)

Definition agg_new (validator_count : nat) : AggregateSignature :=
  mkAgg (replicate validator_count false) [].

Definition count_true (l : list bool) : nat := length (filter (λ s, s = true) l).

Definition agg_count (agg : AggregateSignature) : nat := count_true (agg_signers agg).

Inductive agg_error : Type :=
| SignerOutOfBounds
| DuplicateSignature (index : nat)
| UnknownValidatorInVote.

(** [Vec::insert] panics when the position is past the end. *)
Definition agg_add (agg : AggregateSignature) (index : nat) (sig : Signature)
    : res agg_error AggregateSignature :=
  match agg_signers agg !! index with
  | None => Err SignerOutOfBounds
  | Some true => Err (DuplicateSignature index)
  | Some false =>
      let signers := <[index := true]> (agg_signers agg) in
      let pos := count_true (take index signers) in
      if (length (agg_signatures agg) <? pos)%nat then Panic
      else Ok (mkAgg signers
                 (take pos (agg_signatures agg) ++ sig :: drop pos (agg_signatures agg)))
  end.

(** The loop of [aggregate_votes] from an initial aggregate. *)
Fixpoint aggregate_from (vs : ValidatorSet) (agg : AggregateSignature) (votes : list Vote)
    : res agg_error AggregateSignature :=
  match votes with
  | [] => Ok agg
  | vote :: rest =>
      idx ← ok_or (index_of vs (v_validator vote)) UnknownValidatorInVote;
      agg' ← agg_add agg idx (v_signature vote);
      aggregate_from vs agg' rest
  end.

Definition aggregate_votes (vs : ValidatorSet) (votes : list Vote)
    : res agg_error AggregateSignature :=
  aggregate_from vs (agg_new (validator_count vs)) votes.

(** The power loop of [has_quorum]; [None] on overflow. *)
Fixpoint signed_power (validators : list ValidatorInfo) (i : nat) (power : N)
    (signers : list bool) : option N :=
  match signers with
  | [] => Some power
  | signed :: rest =>
      match signed, validators !! i with
      | true, Some vi =>
          new_power ← checked_add64 power (vi_power vi);
          signed_power validators (S i) new_power rest
      | _, _ => signed_power validators (S i) power rest
      end
  end.

Definition has_quorum (vs : ValidatorSet) (agg : AggregateSignature) : bool :=
  match signed_power (vs_validators vs) 0 0 (agg_signers agg) with
  | Some power => quorum_threshold vs <=? power
  | None => false
  end.

(** The loop shared by the aggregate checks: walk the signer bits from left to
    right, pairing each set bit with its validator and the next signature, and
    fold [step] over the pairs.  [None] is an early [return false]. *)
Fixpoint walk_signers {A} (validators : list ValidatorInfo) (sigs : list Signature)
    (step : A → nat → ValidatorInfo → Signature → option A)
    (acc : A) (i sig_idx : nat) (signers : list bool) : option (A * nat) :=
  match signers with
  | [] => Some (acc, sig_idx)
  | false :: rest => walk_signers validators sigs step acc (S i) sig_idx rest
  | true :: rest =>
      vi ← validators !! i;
      sig ← sigs !! sig_idx;
      acc' ← step acc i vi sig;
      walk_signers validators sigs step acc' (S i) (S sig_idx) rest
  end.

(** [verify_aggregate] collects the keys and signatures, then verifies the
    whole batch; [parse_key] and [parse_sig] are the conversions to the
    ed25519 types, [verify_batch] the batch verification of the library. *)
Definition verify_aggregate {K S} (parse_key : PublicKey → option K)
    (parse_sig : Signature → option S) (verify_batch : list bytes → list S → list K → bool)
    (vs : ValidatorSet) (msg : bytes) (agg : AggregateSignature) : bool :=
  match
    walk_signers (vs_validators vs) (agg_signatures agg)
      (λ '(pks, sigs) _ vi sig,
         vk ← parse_key (vi_public_key vi);
         s ← parse_sig sig;
         Some (pks ++ [vk], sigs ++ [s]))
      ([], []) 0 0 (agg_signers agg)
  with
  | Some (pks, sigs, sig_idx) =>
      bool_decide (sig_idx = length (agg_signatures agg)) &&
      verify_batch (replicate (length sigs) msg) sigs pks
  | None => false
  end.

(** ** Vote aggregates *)

(** [VoteAggregateRef] *)
Record VoteAggregateRef : Type := mkVoteAggregateRef {
  var_validator_set : ValidatorSet;
  var_epoch : EpochNumber;
  var_view : ViewNumber;
  var_block_hash : BlockHash;
  var_vote_type : VoteType;
  var_aggregate_signature : AggregateSignature;
  var_extensions : list (ValidatorId * bytes);
}.

(** [.iter().map(..).collect::<HashMap>()]: the last entry of a key wins. *)
Definition collect_map (l : list (ValidatorId * bytes)) : gmap N bytes :=
  foldl (λ m '(k, x), <[k := x]> m) ∅ l.

Definition verify_vote_aggregate `{Blake3, Verifier} (chain_id_hash : bytes)
    (a : VoteAggregateRef) : bool :=
  let vs := var_validator_set a in
  let agg := var_aggregate_signature a in
  if negb (bool_decide (length (agg_signers agg) = validator_count vs)) then false
  else if bool_decide (var_vote_type a = TVote) && negb (bool_decide (var_extensions a = [])) then
    false
  else
    let extension_map := collect_map (var_extensions a) in
    match
      walk_signers (vs_validators vs) (agg_signatures agg)
        (λ _ _ vi sig,
           let extension := extension_map !! vi_id vi in
           let msg := vote_signing_bytes chain_id_hash (var_epoch a) (var_view a) (vi_id vi)
                        (var_block_hash a) (var_vote_type a) extension in
           if verify (vi_public_key vi) msg sig then Some () else None)
        () 0 0 (agg_signers agg)
    with
    | Some (_, sig_idx) => bool_decide (sig_idx = length (agg_signatures agg)) && has_quorum vs agg
    | None => false
    end.

(** The loop over [dc.vote_extensions] of [canonical_vote_extensions]: a
    repeated validator aborts. *)
Fixpoint extensions_by_validator (m : gmap N bytes) (l : list (ValidatorId * bytes))
    : option (gmap N bytes) :=
  match l with
  | [] => Some m
  | (validator, extension) :: rest =>
      if m !! validator is Some _ then None
      else extensions_by_validator (<[validator := extension]> m) rest
  end.

(** The second loop: take each signer's extension out of the map, in signer
    order. *)
Fixpoint take_extensions (validators : list ValidatorInfo) (m : gmap N bytes)
    (canonical : list (ValidatorId * bytes)) (i : nat) (signers : list bool)
    : option (gmap N bytes * list (ValidatorId * bytes)) :=
  match signers with
  | [] => Some (m, canonical)
  | signed :: rest =>
      validator ← validators !! i;
      match signed, m !! vi_id validator with
      | true, Some extension =>
          take_extensions validators (delete (vi_id validator) m)
            (canonical ++ [(vi_id validator, extension)]) (S i) rest
      | _, _ => take_extensions validators m canonical (S i) rest
      end
  end.

Definition canonical_vote_extensions (dc : DoubleCertificate) (vs : ValidatorSet)
    : option (list (ValidatorId * bytes)) :=
  let signers := agg_signers (qc_aggregate_signature (dc_outer_qc dc)) in
  if negb (bool_decide (length signers = validator_count vs)) then None
  else
    by_validator ← extensions_by_validator ∅ (dc_vote_extensions dc);
    '(remaining, canonical) ← take_extensions (vs_validators vs) by_validator [] 0 signers;
    if bool_decide (remaining = ∅) then Some canonical else None.

(** ** [TimeoutCertificate::highest_qc]

    [max_by_key] keeps the last of several maximal elements. *)
Definition max_by_view (qcs : list QuorumCertificate) : option QuorumCertificate :=
  foldl (λ best qc,
    match best with
    | None => Some qc
    | Some b => if qc_view b <=? qc_view qc then Some qc else Some b
    end) None qcs.

Fixpoint signed_qcs (signers : list bool) (i : nat) (l : list (option QuorumCertificate))
    : list QuorumCertificate :=
  match l with
  | [] => []
  | o :: rest =>
      match signers !! i, o with
      | Some true, Some qc => qc :: signed_qcs signers (S i) rest
      | _, _ => signed_qcs signers (S i) rest
      end
  end.

Definition tc_highest_qc (tc : TimeoutCertificate) : option QuorumCertificate :=
  max_by_view (signed_qcs (agg_signers (tc_aggregate_signature tc)) 0 (tc_highest_qcs tc)).

(** ** Entries of an aggregate *)

Fixpoint positions (i : nat) (l : list bool) : list nat :=
  match l with
  | [] => []
  | true :: l => i :: positions (S i) l
  | false :: l => positions (S i) l
  end.

Definition agg_entries (agg : AggregateSignature) : list (nat * Signature) :=
  zip (positions 0 (agg_signers agg)) (agg_signatures agg).

(** One signature per set bit. *)
Definition aligned (agg : AggregateSignature) : Prop :=
  length (agg_signatures agg) = agg_count agg.

Lemma length_positions i l : length (positions i l) = count_true l.
Proof.
  revert i. unfold count_true.
  induction l as [|[] l IH]; intros i; [done|..]; rewrite filter_cons; simpl;
    [f_equal|]; apply IH.
Qed.

Lemma positions_app i l k :
  positions i (l ++ k) = positions i l ++ positions (i + length l) k.
Proof.
  revert i. induction l as [|[] l IH]; intros i; simpl; rewrite ?IH, ?Nat.add_0_r, ?Nat.add_succ_r;
    done.
Qed.

Lemma elem_of_positions i l j :
  j ∈ positions i l ↔ (i ≤ j)%nat ∧ l !! (j - i)%nat = Some true.
Proof.
  revert i. induction l as [|b l IH]; intros i; simpl.
  { rewrite elem_of_nil. naive_solver. }
  assert (j ∈ positions (S i) l ↔ (S i ≤ j)%nat ∧ (b :: l) !! (j - i)%nat = Some true) as Hr.
  { rewrite IH. split; intros [? Hj]; (split; [lia|]).
    - replace (j - i)%nat with (S (j - S i)) by lia. done.
    - replace (j - i)%nat with (S (j - S i)) in Hj by lia. done. }
  destruct b; [rewrite elem_of_cons|]; rewrite Hr.
  - split; [intros [->|]; [rewrite Nat.sub_diag|]; naive_solver lia|].
    intros [? ?]. destruct (decide (j = i)); [by left|right]. split; [lia|done].
  - split; [naive_solver lia|]. intros [? Hj]. split; [|done].
    destruct (decide (j = i)) as [->|]; [|lia]. by rewrite Nat.sub_diag in Hj.
Qed.

Lemma elem_of_positions_0 l j : j ∈ positions 0 l ↔ l !! j = Some true.
Proof. rewrite elem_of_positions, Nat.sub_0_r. naive_solver lia. Qed.

Lemma NoDup_positions i l : NoDup (positions i l).
Proof.
  revert i. induction l as [|[] l IH]; intros i; simpl; [constructor| |done].
  constructor; [|done]. rewrite elem_of_positions. lia.
Qed.

(** Setting a clear bit inserts its index at its rank. *)
Lemma positions_insert l index :
  l !! index = Some false →
  let pos := count_true (take index l) in
  positions 0 (<[index := true]> l) =
    take pos (positions 0 l) ++ index :: drop pos (positions 0 l).
Proof.
  intros Hl pos. pose proof (lookup_lt_Some _ _ _ Hl) as Hlt.
  assert (positions 0 l = positions 0 (take index l) ++ positions (S index) (drop (S index) l))
    as Hp.
  { rewrite <- (take_drop_middle l index false) at 1 by done.
    rewrite positions_app, length_take. simpl. f_equal. f_equal. lia. }
  rewrite Hp. rewrite insert_take_drop by done.
  rewrite positions_app, length_take. simpl.
  assert (length (positions 0 (take index l)) = pos) as Hpos by apply length_positions.
  rewrite take_app_length', drop_app_length' by done.
  replace (index `min` length l)%nat with index by lia. done.
Qed.

Lemma agg_new_aligned n : aligned (agg_new n).
Proof.
  unfold aligned, agg_count, count_true, agg_new. simpl.
  rewrite filter_none; [done|]. intros b Hb. apply elem_of_replicate in Hb as [-> _]. done.
Qed.

Lemma agg_new_entries n : agg_entries (agg_new n) = [].
Proof. unfold agg_entries. simpl. by destruct (positions 0 (replicate n false)). Qed.

Lemma zip_insert_perm {A B} pos (l : list A) (k : list B) a b :
  length l = length k → (pos ≤ length l)%nat →
  zip (take pos l ++ a :: drop pos l) (take pos k ++ b :: drop pos k) ≡ₚ (a, b) :: zip l k.
Proof.
  intros Hlen Hpos. rewrite zip_with_app by (rewrite !length_take; lia). simpl.
  rewrite <- Permutation_middle. constructor.
  rewrite <- zip_with_app by (rewrite !length_take; lia). by rewrite !take_drop.
Qed.

Lemma agg_add_spec agg index sig :
  aligned agg →
  match agg_add agg index sig with
  | Ok agg' =>
      agg_signers agg !! index = Some false ∧
      agg_signers agg' = <[index := true]> (agg_signers agg) ∧ aligned agg' ∧
      agg_entries agg' ≡ₚ (index, sig) :: agg_entries agg
  | Err SignerOutOfBounds => (length (agg_signers agg) ≤ index)%nat
  | Err (DuplicateSignature i) => i = index ∧ agg_signers agg !! index = Some true
  | _ => False
  end.
Proof.
  intros Hal. unfold agg_add. destruct (agg_signers agg !! index) as [[]|] eqn:Hi.
  - done.
  - set (signers' := <[index := true]> (agg_signers agg)).
    assert (take index signers' = take index (agg_signers agg)) as ->
      by (unfold signers'; by rewrite take_insert_ge).
    set (pos := count_true (take index (agg_signers agg))).
    pose proof (positions_insert _ _ Hi) as Hp. cbv zeta in Hp. fold pos signers' in Hp.
    assert (length (positions 0 (agg_signers agg)) = length (agg_signatures agg)) as Hlen
      by (rewrite length_positions, Hal; done).
    assert (pos ≤ length (positions 0 (agg_signers agg)))%nat as Hpos.
    { rewrite length_positions. unfold pos, count_true.
      rewrite <- (take_drop index (agg_signers agg)) at 2. rewrite filter_app, length_app. lia. }
    destruct (Nat.ltb_spec (length (agg_signatures agg)) pos); [lia|]. simpl.
    split_and!; [done|done|..].
    + unfold aligned, agg_count. simpl. rewrite <- (length_positions 0), Hp.
      rewrite !length_app. simpl. rewrite !length_take, !length_drop. lia.
    + unfold agg_entries. simpl. rewrite Hp. by apply zip_insert_perm.
  - by apply lookup_ge_None in Hi.
Qed.

Lemma agg_entries_signer agg i s :
  (i, s) ∈ agg_entries agg → agg_signers agg !! i = Some true.
Proof. intros H. apply elem_of_zip_l in H. by apply elem_of_positions_0. Qed.

Lemma agg_entries_fst agg : aligned agg → (agg_entries agg).*1 = positions 0 (agg_signers agg).
Proof.
  intros Hal. unfold agg_entries. apply fst_zip. rewrite length_positions. by rewrite Hal.
Qed.

Lemma signer_agg_entries agg i :
  aligned agg → agg_signers agg !! i = Some true → ∃ s, (i, s) ∈ agg_entries agg.
Proof.
  intros Hal Hi. apply elem_of_positions_0 in Hi. rewrite <- agg_entries_fst in Hi by done.
  apply list_elem_of_fmap in Hi as ([j s]&->&?). eauto.
Qed.

(** ** [aggregate_votes] *)

(** The entry a vote contributes. *)
Definition vote_entry (vs : ValidatorSet) (v : Vote) : option (nat * Signature) :=
  (λ i, (i, v_signature v)) <$> index_of vs (v_validator v).

Lemma aggregate_from_Ok vs votes agg agg' :
  aligned agg → aggregate_from vs agg votes = Ok agg' →
  aligned agg' ∧ length (agg_signers agg') = length (agg_signers agg) ∧
  ∃ l, Forall2 (λ v e, vote_entry vs v = Some e) votes l ∧ agg_entries agg' ≡ₚ l ++ agg_entries agg.
Proof.
  revert agg. induction votes as [|v votes IH]; intros agg Hal H; simpl in H.
  { res_inv. split_and!; [done|done|]. by exists []. }
  res_inv. pose proof (agg_add_spec agg x (v_signature v) Hal) as Hadd.
  rewrite H1 in Hadd. destruct Hadd as (_&Hs&Hal'&Hperm).
  destruct (IH _ Hal' H) as (?&Hlen&l&Hl&Hp). split_and!; [done|..].
  { rewrite Hlen, Hs. apply length_insert. }
  exists ((x, v_signature v) :: l). split.
  - constructor; [|done]. unfold vote_entry. by rewrite H0.
  - rewrite Hp, Hperm. simpl. by rewrite <- Permutation_middle.
Qed.

Lemma aggregate_from_succeeds vs votes agg :
  vs_wf vs → aligned agg → length (agg_signers agg) = validator_count vs →
  NoDup (v_validator <$> votes) →
  (∀ v, v ∈ votes → ∃ i, index_of vs (v_validator v) = Some i ∧ agg_signers agg !! i = Some false) →
  ∃ agg', aggregate_from vs agg votes = Ok agg'.
Proof.
  intros Hwf. revert agg. induction votes as [|v votes IH]; intros agg Hal Hlen Hnd Hv; csimpl.
  { by eexists. }
  apply NoDup_cons in Hnd as [Hnin Hnd]. destruct (Hv v) as (i&Hi&Hs); [left|]. rewrite Hi. simpl.
  pose proof (agg_add_spec agg i (v_signature v) Hal) as Hadd.
  destruct (agg_add agg i (v_signature v)) as [agg'|[| |]|] eqn:E; simpl.
  - destruct Hadd as (_&Hs'&Hal'&_). apply IH; [done| |done|].
    + by rewrite Hs', length_insert.
    + intros w Hw. destruct (Hv w) as (j&Hj&?); [by right|]. exists j. split; [done|].
      rewrite Hs', list_lookup_insert_ne; [done|]. intros ->.
      apply index_of_spec in Hi as (a&Ha&Hida), Hj as (b&Hb&Hidb); [|done..].
      apply Hnin. apply list_elem_of_fmap. exists w. split; [congruence|done].
  - apply lookup_lt_Some in Hs. lia.
  - destruct Hadd. congruence.
  - done.
  - done.
Qed.

Lemma aggregate_votes_Ok vs votes agg :
  aggregate_votes vs votes = Ok agg →
  aligned agg ∧ length (agg_signers agg) = validator_count vs ∧
  ∃ l, Forall2 (λ v e, vote_entry vs v = Some e) votes l ∧ agg_entries agg ≡ₚ l.
Proof.
  intros H. apply aggregate_from_Ok in H as (?&Hlen&l&?&Hp); [|apply agg_new_aligned].
  rewrite agg_new_entries, app_nil_r in Hp. simpl in Hlen. rewrite length_replicate in Hlen.
  split_and!; [done|done|]. by exists l.
Qed.

Lemma aggregate_votes_succeeds vs votes :
  vs_wf vs → NoDup (v_validator <$> votes) →
  (∀ v, v ∈ votes → is_Some (get vs (v_validator v))) →
  ∃ agg, aggregate_votes vs votes = Ok agg.
Proof.
  intros Hwf Hnd Hv. apply aggregate_from_succeeds; [done|apply agg_new_aligned| |done|].
  - simpl. by rewrite length_replicate.
  - intros v Hin. destruct (Hv v Hin) as [vi Hg]. apply get_index in Hg as (i&Hi&_).
    exists i. split; [done|]. simpl. apply lookup_replicate_2.
    by eapply index_of_lt.
Qed.

Lemma aggregate_votes_entry vs votes agg i s :
  aggregate_votes vs votes = Ok agg →
  (i, s) ∈ agg_entries agg ↔
    ∃ v, v ∈ votes ∧ index_of vs (v_validator v) = Some i ∧ v_signature v = s.
Proof.
  intros (_&_&l&Hl&Hp)%aggregate_votes_Ok. rewrite Hp. clear Hp.
  split.
  - intros (k&Hk)%list_elem_of_lookup_1. destruct (Forall2_lookup_r _ _ _ _ _ Hl Hk) as (v&Hv&E).
    unfold vote_entry in E. apply fmap_Some in E as (j&?&[= -> ->]). exists v.
    split; [by eapply list_elem_of_lookup_2|done].
  - intros (v&(k&Hk)%list_elem_of_lookup_1&Hi&<-).
    destruct (Forall2_lookup_l _ _ _ _ _ Hl Hk) as (e&He&E).
    unfold vote_entry in E. rewrite Hi in E. simplify_eq/=. by eapply list_elem_of_lookup_2.
Qed.

(** ** Quorum power *)

(** Validator [id]'s bit is set. *)
Definition signed_by (vs : ValidatorSet) (agg : AggregateSignature) (id : ValidatorId) : bool :=
  match index_of vs id with
  | Some i => bool_decide (agg_signers agg !! i = Some true)
  | None => false
  end.

Definition bit_power (p : ValidatorInfo * bool) : N := if p.2 then vi_power p.1 else 0.

Lemma signed_power_spec l i p signers :
  p + sumN bit_power (zip (drop i l) signers) ≤ u64_max →
  signed_power l i p signers = Some (p + sumN bit_power (zip (drop i l) signers)).
Proof.
  revert i p. induction signers as [|b signers IH]; intros i p Hmax; simpl.
  { rewrite zip_with_nil_r. simpl. f_equal. lia. }
  destruct (l !! i) as [vi|] eqn:Hi.
  - rewrite (drop_S l vi i) in * by done. simpl in *. unfold bit_power at 1 in Hmax.
    unfold bit_power at 1. simpl in *. destruct b.
    + rewrite (proj2 (checked_add64_Some p (vi_power vi) _)) by (split; [done|lia]). simpl.
      rewrite IH; [f_equal|]; lia.
    + rewrite IH; [f_equal|]; lia.
  - apply lookup_ge_None in Hi. rewrite drop_ge in * by done. simpl in *.
    specialize (IH (S i) p). rewrite drop_ge in IH by lia. simpl in IH. destruct b; auto.
Qed.

Lemma sumN_zip_bits (f : ValidatorInfo → N) l (bs : list bool) :
  (∀ i v, l !! i = Some v → f v = if bs !! i is Some true then vi_power v else 0) →
  sumN f l = sumN bit_power (zip l bs).
Proof.
  revert bs. induction l as [|v l IH]; intros bs H; simpl; [done|].
  rewrite (H 0%nat v) by done. destruct bs as [|b bs]; simpl.
  - rewrite (IH []); [by rewrite zip_with_nil_r|]. intros i w Hi. by apply (H (S i)).
  - rewrite (IH bs); [unfold bit_power at 2; by destruct b|]. intros i w Hi. by apply (H (S i)).
Qed.

Lemma signed_power_where vs agg :
  vs_wf vs →
  power_where (signed_by vs agg) (vs_validators vs) =
  sumN bit_power (zip (vs_validators vs) (agg_signers agg)).
Proof.
  intros Hwf. apply sumN_zip_bits. intros i v Hi. unfold signed_by.
  rewrite (index_of_lookup vs Hwf i v) by done.
  case_bool_decide as Hb; [by rewrite Hb|]. by destruct (agg_signers agg !! i) as [[]|].
Qed.

Lemma has_quorum_spec vs agg :
  vs_wf vs →
  has_quorum vs agg = (quorum_threshold vs <=? power_where (signed_by vs agg) (vs_validators vs)).
Proof.
  intros Hwf. unfold has_quorum.
  pose proof (signed_power_where vs agg Hwf) as Hp.
  rewrite Hp, signed_power_spec, N.add_0_l, drop_0; [done|].
  rewrite drop_0, N.add_0_l, <- Hp. etrans; [apply power_where_le|apply Hwf].
Qed.

(** ** Walking the signers *)

(** Folding [step] over the entries of an aggregate. *)
Fixpoint fold_entries {A} (l : list ValidatorInfo)
    (step : A → nat → ValidatorInfo → Signature → option A) (acc : A)
    (entries : list (nat * Signature)) : option A :=
  match entries with
  | [] => Some acc
  | (i, s) :: rest => vi ← l !! i; acc' ← step acc i vi s; fold_entries l step acc' rest
  end.

Lemma fold_entries_ext {A} l (f g : A → nat → ValidatorInfo → Signature → option A) acc entries :
  (∀ a i vi s, f a i vi s = g a i vi s) → fold_entries l f acc entries = fold_entries l g acc entries.
Proof.
  intros Hfg. revert acc. induction entries as [|[i s] entries IH]; intros acc; simpl; [done|].
  destruct (l !! i) as [vi|]; simpl; [|done]. rewrite Hfg. by destruct (g acc i vi s); simpl.
Qed.

Lemma walk_signers_fold {A} l sigs (step : A → nat → ValidatorInfo → Signature → option A)
    acc i k signers a n :
  walk_signers l sigs step acc i k signers = Some (a, n) ↔
    n = (k + length (positions i signers))%nat ∧
    (k + length (positions i signers) ≤ length sigs ∨ positions i signers = [])%nat ∧
    fold_entries l step acc (zip (positions i signers) (drop k sigs)) = Some a.
Proof.
  revert acc i k. induction signers as [|[] signers IH]; intros acc i k; simpl.
  - rewrite Nat.add_0_r. naive_solver.
  - destruct (sigs !! k) as [s|] eqn:Hk.
    + rewrite (drop_S sigs s k) by done. simpl. apply lookup_lt_Some in Hk.
      destruct (l !! i) as [vi|]; simpl; [|naive_solver].
      destruct (step acc i vi s) as [acc'|]; simpl; [|naive_solver].
      rewrite IH. split.
      * intros (->&[?|E]&?); (split; [lia|]); (split; [|done]); [left; lia|].
        rewrite E. simpl. left. lia.
      * intros (->&[?|?]&?); [|done]. split; [lia|]. split; [left; lia|done].
    + apply lookup_ge_None in Hk. rewrite drop_ge by lia. simpl. split.
      * intros H. by destruct (l !! i).
      * intros (_&[?|?]&_); [lia|done].
  - apply IH.
Qed.

Lemma walk_signers_aligned {A} l agg (step : A → nat → ValidatorInfo → Signature → option A)
    acc a :
  walk_signers l (agg_signatures agg) step acc 0 0 (agg_signers agg) =
    Some (a, length (agg_signatures agg)) ↔
  aligned agg ∧ fold_entries l step acc (agg_entries agg) = Some a.
Proof.
  rewrite walk_signers_fold, drop_0, length_positions, Nat.add_0_l.
  unfold aligned, agg_entries, agg_count. split.
  - by intros (->&_&?).
  - intros [-> ?]. split; [done|]. split; [by left|done].
Qed.

(** A check of each entry, without an accumulator. *)
Lemma fold_entries_check l (check : nat → ValidatorInfo → Signature → bool) entries :
  fold_entries l (λ _ i vi s, if check i vi s then Some () else None) () entries = Some () ↔
  ∀ i s, (i, s) ∈ entries → ∃ vi, l !! i = Some vi ∧ check i vi s = true.
Proof.
  induction entries as [|[i s] entries IH]; simpl.
  { split; [|done]. intros _ i s Hin. by apply not_elem_of_nil in Hin. }
  split.
  - intros H j t Hin. destruct (l !! i) as [vi|] eqn:Hi; simpl in H; [|done].
    destruct (check i vi s) eqn:Hc; simpl in H; [|done].
    apply elem_of_cons in Hin as [[= -> ->]|Hin]; [by eauto|]. by apply IH.
  - intros H. destruct (H i s) as (vi&Hi&Hc); [left|]. rewrite Hi. simpl. rewrite Hc. simpl.
    apply IH. intros. apply H. by right.
Qed.

(** ** Soundness and completeness of [verify_vote_aggregate] *)

(** Every set bit of [agg] carries a valid signature of its validator on the
    vote that [a] describes. *)
Definition entries_valid `{Blake3, Verifier} (chain : bytes) (a : VoteAggregateRef) : Prop :=
  ∀ i s, (i, s) ∈ agg_entries (var_aggregate_signature a) →
    ∃ vi, vs_validators (var_validator_set a) !! i = Some vi ∧
      verify (vi_public_key vi)
        (vote_signing_bytes chain (var_epoch a) (var_view a) (vi_id vi) (var_block_hash a)
           (var_vote_type a) (collect_map (var_extensions a) !! vi_id vi)) s = true.

Lemma verify_vote_aggregate_iff `{Blake3, Verifier} chain a :
  vs_wf (var_validator_set a) →
  verify_vote_aggregate chain a = true ↔
    length (agg_signers (var_aggregate_signature a)) = validator_count (var_validator_set a) ∧
    (var_vote_type a = TVote → var_extensions a = []) ∧
    aligned (var_aggregate_signature a) ∧ entries_valid chain a ∧
    quorum_threshold (var_validator_set a) ≤
      power_where (signed_by (var_validator_set a) (var_aggregate_signature a))
        (vs_validators (var_validator_set a)).
Proof.
  intros Hwf. unfold verify_vote_aggregate.
  set (vs := var_validator_set a) in *. set (agg := var_aggregate_signature a).
  set (check := λ (_ : nat) vi s, verify (vi_public_key vi)
        (vote_signing_bytes chain (var_epoch a) (var_view a) (vi_id vi) (var_block_hash a)
           (var_vote_type a) (collect_map (var_extensions a) !! vi_id vi)) s).
  change (entries_valid chain a) with
    (∀ i s, (i, s) ∈ agg_entries agg → ∃ vi, vs_validators vs !! i = Some vi ∧ check i vi s = true).
  rewrite <- fold_entries_check, has_quorum_spec by done.
  case_bool_decide as Hlen; simpl; [|naive_solver].
  match goal with |- (if ?b then _ else _) = _ ↔ _ => destruct b eqn:Hext end.
  { bool_prop. naive_solver. }
  assert (var_vote_type a = TVote → var_extensions a = []) as Hext'.
  { intros Ht. rewrite bool_decide_true in Hext by done. simpl in Hext. by bool_prop. }
  pose proof (walk_signers_aligned (vs_validators vs) agg
    (λ _ i vi s, if check i vi s then Some () else None) () ()) as Hw.
  unfold check at 1 in Hw.
  destruct (walk_signers _ _ _ _ _ _ _) as [[[] n]|].
  - rewrite andb_true_iff, bool_decide_eq_true, N.leb_le. split.
    + intros [-> Hq]. destruct Hw as [[? ?] _]; [done|]. done.
    + intros (_&_&Ha&Hf&?). split; [|done]. apply proj2 in Hw.
      specialize (Hw (conj Ha Hf)). by injection Hw.
  - split; [done|]. intros (_&_&Ha&Hf&_). apply proj2 in Hw. discriminate (Hw (conj Ha Hf)).
Qed.

(** ** Canonical vote extensions *)

(** The ids of the validators whose bits are set, in index order. *)
Definition signer_ids (l : list ValidatorInfo) (i : nat) (signers : list bool) : list ValidatorId :=
  omap (λ j, vi_id <$> l !! j) (positions i signers).

Definition pick (m : gmap N bytes) (ids : list ValidatorId) : list (ValidatorId * bytes) :=
  omap (λ id, pair id <$> m !! id) ids.

Lemma elem_of_signer_ids l i signers id :
  id ∈ signer_ids l i signers ↔
    ∃ j v, l !! j = Some v ∧ vi_id v = id ∧ (i ≤ j)%nat ∧ signers !! (j - i)%nat = Some true.
Proof.
  unfold signer_ids. rewrite list_elem_of_omap. setoid_rewrite elem_of_positions.
  setoid_rewrite fmap_Some. naive_solver.
Qed.

Lemma elem_of_pick m ids p : p ∈ pick m ids ↔ p.1 ∈ ids ∧ m !! p.1 = Some p.2.
Proof.
  destruct p as [id x]. unfold pick. rewrite list_elem_of_omap. setoid_rewrite fmap_Some.
  naive_solver.
Qed.

Lemma pick_delete m ids id : id ∉ ids → pick (delete id m) ids = pick m ids.
Proof.
  unfold pick. induction ids as [|k ids IH]; csimpl; [done|].
  rewrite not_elem_of_cons. intros [? ?]. rewrite lookup_delete_ne by done. by rewrite IH.
Qed.

Lemma NoDup_pick m ids : NoDup ids → NoDup (pick m ids).*1.
Proof.
  unfold pick. induction 1 as [|id ids Hid Hnd IH]; csimpl; [constructor|].
  destruct (m !! id); csimpl; [|done]. constructor; [|done].
  intros (p&->&Hp)%list_elem_of_fmap. apply Hid. apply elem_of_pick in Hp. naive_solver.
Qed.

Lemma NoDup_signer_ids l i signers : NoDup (vi_id <$> l) → NoDup (signer_ids l i signers).
Proof.
  intros Hnd. revert i. induction signers as [|[] signers IH]; intros i; [constructor| |apply IH].
  unfold signer_ids. csimpl. destruct (l !! i) as [v|] eqn:Hi; csimpl; [|apply IH].
  constructor; [|apply IH].
  intros (j&w&Hj&E&?&_)%elem_of_signer_ids. assert (i = j); [|lia].
  eapply NoDup_lookup; [done|..]; rewrite list_lookup_fmap, ?Hi, ?Hj; csimpl; by rewrite ?E.
Qed.

Lemma extensions_by_validator_Some m l m' :
  extensions_by_validator m l = Some m' ↔
    NoDup l.*1 ∧ (∀ k, k ∈ l.*1 → m !! k = None) ∧ m' = list_to_map l ∪ m.
Proof.
  revert m. induction l as [|[k x] l IH]; intros m; csimpl.
  { rewrite (left_id_L ∅ (∪)). split; [|naive_solver]. intros [= ->].
    split_and!; [constructor|set_solver|done]. }
  destruct (m !! k) as [y|] eqn:Hk.
  { split; [done|]. intros (_&H&_). rewrite H in Hk by left. done. }
  rewrite IH, NoDup_cons. split.
  - intros (?&Hm&->). assert (k ∉ l.*1) as Hnin.
    { intros Hin. specialize (Hm k Hin). by rewrite lookup_insert_eq in Hm. }
    split_and!; [done..| |].
    + intros k' [->|Hin]%elem_of_cons; [done|]. specialize (Hm k' Hin).
      by apply lookup_insert_None in Hm as [? _].
    + rewrite <- insert_union_r by (by apply not_elem_of_list_to_map). by rewrite insert_union_l.
  - intros ((Hnin&?)&Hm&->). split_and!; [done|..].
    + intros k' Hin. rewrite lookup_insert_ne by (by intros ->). apply Hm. by right.
    + rewrite <- insert_union_r by (by apply not_elem_of_list_to_map). by rewrite insert_union_l.
Qed.

Lemma take_extensions_spec l m c i signers :
  NoDup (vi_id <$> l) → (i + length signers = length l)%nat →
  take_extensions l m c i signers =
    Some (filter (λ p, p.1 ∉ signer_ids l i signers) m, c ++ pick m (signer_ids l i signers)).
Proof.
  intros Hnd. revert m c i. induction signers as [|b signers IH]; intros m c i Hlen; simpl.
  { rewrite map_filter_id, app_nil_r; [done|]. intros. apply not_elem_of_nil. }
  simpl in Hlen. destruct (lookup_lt_is_Some_2 l i) as [v Hi]; [lia|]. rewrite Hi. simpl.
  assert (vi_id v ∉ signer_ids l (S i) signers) as Hnin.
  { intros (j&w&Hj&E&?&_)%elem_of_signer_ids. assert (i = j); [|lia].
    eapply NoDup_lookup; [done|..]; rewrite list_lookup_fmap, ?Hi, ?Hj; simpl; by rewrite ?E. }
  destruct b; [|by apply IH; lia].
  assert (signer_ids l i (true :: signers) = vi_id v :: signer_ids l (S i) signers) as ->
    by (unfold signer_ids; csimpl; by rewrite Hi).
  unfold pick at 1. csimpl. destruct (m !! vi_id v) as [x|] eqn:Hx; simpl.
  - rewrite IH by lia. rewrite pick_delete by done. rewrite <- app_assoc. simpl. do 2 f_equal.
    apply map_eq. intros k. apply option_eq. intros y.
    rewrite !map_lookup_filter_Some, lookup_delete_Some. simpl. rewrite not_elem_of_cons.
    naive_solver.
  - rewrite IH by lia. do 2 f_equal. apply map_eq. intros k. apply option_eq. intros y.
    rewrite !map_lookup_filter_Some. simpl. rewrite not_elem_of_cons. naive_solver congruence.
Qed.

Lemma canonical_vote_extensions_Some dc vs c :
  vs_wf vs →
  let signers := agg_signers (qc_aggregate_signature (dc_outer_qc dc)) in
  let ids := signer_ids (vs_validators vs) 0 signers in
  canonical_vote_extensions dc vs = Some c ↔
    length signers = validator_count vs ∧
    NoDup (dc_vote_extensions dc).*1 ∧
    (∀ p, p ∈ dc_vote_extensions dc → p.1 ∈ ids) ∧
    c = pick (list_to_map (dc_vote_extensions dc)) ids.
Proof.
  intros Hwf signers ids. unfold canonical_vote_extensions. fold signers.
  case_bool_decide as Hlen; simpl; [|naive_solver].
  destruct (extensions_by_validator ∅ (dc_vote_extensions dc)) as [m|] eqn:Hm; simpl.
  - apply extensions_by_validator_Some in Hm as (Hnd&_&->). rewrite (right_id_L ∅ (∪)).
    rewrite take_extensions_spec by (try done; apply Hwf). simpl. fold ids.
    assert (filter (λ p : N * bytes, p.1 ∉ ids) (list_to_map (dc_vote_extensions dc) : gmap N bytes)
              = ∅ ↔ ∀ p, p ∈ dc_vote_extensions dc → p.1 ∈ ids) as Hiff.
    { rewrite map_empty. setoid_rewrite map_lookup_filter_None. split.
      - intros H [k x] Hp%(elem_of_list_to_map_1 (M := gmap N)); [|done].
        destruct (decide (k ∈ ids)) as [|Hk]; [done|].
        destruct (H k) as [E|E]; [congruence|]. by destruct (E x Hp Hk).
      - intros H k. right. intros x Hp%elem_of_list_to_map_2 Hk. apply Hk. by apply (H _ Hp). }
    case_bool_decide as Hf; naive_solver.
  - split; [done|]. intros (_&Hnd&_). exfalso. apply eq_None_not_Some in Hm. apply Hm.
    eexists. apply extensions_by_validator_Some. split_and!; [done| |done].
    intros. apply lookup_empty.
Qed.

(** ** The highest QC of a timeout certificate *)

Lemma max_by_view_spec qcs :
  match max_by_view qcs with
  | Some qc => qc ∈ qcs ∧ ∀ q, q ∈ qcs → qc_view q ≤ qc_view qc
  | None => qcs = []
  end.
Proof.
  unfold max_by_view. induction qcs as [|qc qcs IH] using rev_ind; [done|].
  rewrite foldl_snoc. destruct (foldl _ None qcs) as [b|].
  - destruct IH as [Hin Hmax]. destruct (N.leb_spec (qc_view b) (qc_view qc)); split.
    + set_solver.
    + intros q [Hq%Hmax| ->%list_elem_of_singleton]%elem_of_app; lia.
    + set_solver.
    + intros q [Hq%Hmax| ->%list_elem_of_singleton]%elem_of_app; lia.
  - subst. split; [set_solver|]. intros q ->%list_elem_of_singleton. lia.
Qed.

Lemma elem_of_signed_qcs signers i l qc :
  qc ∈ signed_qcs signers i l ↔
    ∃ j, signers !! (i + j)%nat = Some true ∧ l !! j = Some (Some qc).
Proof.
  revert i. induction l as [|o l IH]; intros i; simpl.
  { rewrite elem_of_nil. naive_solver. }
  assert (qc ∈ signed_qcs signers (S i) l ↔
    ∃ j, signers !! (i + S j)%nat = Some true ∧ l !! j = Some (Some qc)) as Hr.
  { rewrite IH. by setoid_rewrite Nat.add_succ_r. }
  split.
  - intros H. destruct (signers !! i) as [[]|] eqn:Hs, o as [q|];
      try (apply Hr in H as (j&?&?); exists (S j); done).
    apply elem_of_cons in H as [->|H].
    + exists 0%nat. by rewrite Nat.add_0_r.
    + apply Hr in H as (j&?&?). by exists (S j).
  - intros ([|j]&Hs&Hl); simpl in Hl.
    + rewrite Nat.add_0_r in Hs. rewrite Hs. simplify_eq. left.
    + assert (qc ∈ signed_qcs signers (S i) l) by (apply Hr; eauto).
      repeat case_match; try done. by right.
Qed.

(** ** Properties *)

(** A keyed-hash signature scheme, to evaluate definitions over [Verifier]. *)
Definition sample_sign (pk msg : bytes) : Signature := pk ++ msg.
#[local] Existing Instance blake3_pad.
#[local] Instance sample_verifier : Verifier :=
  {| verify := λ pk msg sig, bool_decide (sig = sample_sign pk msg) |}.

Definition sample_sig (t : VoteType) (view : N) (h : bytes) (ext : option bytes)
    (vi : ValidatorInfo) : Signature :=
  sample_sign (vi_public_key vi) (vote_signing_bytes (zeros 32) 0 view (vi_id vi) h t ext).

(** A certificate signed by all of [sample_set] but its first member. *)
Definition sample_agg (t : VoteType) (view : N) (h : bytes) : AggregateSignature :=
  mkAgg [false; true; true; true] (sample_sig t view h None <$> drop 1 sample_infos).

Definition sample_ref (t : VoteType) (view : N) (h : bytes) : VoteAggregateRef :=
  mkVoteAggregateRef sample_set 0 view h t (sample_agg t view h) [].

(** [verify_vote_aggregate] accepts exactly the aggregates with one bit per
    validator, one signature per set bit, a valid signature by the validator of
    each set bit on its own vote message (with its extension), no extensions on
    a first-phase aggregate, and set bits whose power reaches the quorum
    threshold. *)
Lemma verify_vote_aggregate_correct `{Blake3, Verifier} chain a :
  vs_wf (var_validator_set a) →
  verify_vote_aggregate chain a = true ↔
    length (agg_signers (var_aggregate_signature a)) = validator_count (var_validator_set a) ∧
    (var_vote_type a = TVote → var_extensions a = []) ∧
    aligned (var_aggregate_signature a) ∧ entries_valid chain a ∧
    quorum_threshold (var_validator_set a) ≤
      power_where (signed_by (var_validator_set a) (var_aggregate_signature a))
        (vs_validators (var_validator_set a)).
Proof. apply verify_vote_aggregate_iff. Qed.

Lemma verify_vote_aggregate_correct_witness :
  verify_vote_aggregate (zeros 32) (sample_ref TVote 3 (zeros 32)) = true ∧
  entries_valid (zeros 32) (sample_ref TVote 3 (zeros 32)).
Proof.
  assert (verify_vote_aggregate (zeros 32) (sample_ref TVote 3 (zeros 32)) = true) as Hv
    by (vm_compute; reflexivity).
  split; [exact Hv|].
  apply (verify_vote_aggregate_correct (zeros 32) (sample_ref TVote 3 (zeros 32)) sample_set_wf).
  exact Hv.
Defined.

(** [canonical_vote_extensions] succeeds only when no validator appears
    twice and every one is a signer of the outer certificate; the result then
    holds exactly the certificate's extensions, and depends neither on their
    order nor on anything but the signer bits: double certificates with the
    same signers and permuted extensions give the same list. *)
Lemma canonical_vote_extensions_correct dc vs c :
  vs_wf vs → canonical_vote_extensions dc vs = Some c →
  c ≡ₚ dc_vote_extensions dc ∧ NoDup c.*1 ∧
  (∀ p, p ∈ c → signed_by vs (qc_aggregate_signature (dc_outer_qc dc)) p.1 = true) ∧
  ∀ dc',
    agg_signers (qc_aggregate_signature (dc_outer_qc dc')) =
      agg_signers (qc_aggregate_signature (dc_outer_qc dc)) →
    dc_vote_extensions dc' ≡ₚ dc_vote_extensions dc →
    canonical_vote_extensions dc' vs = Some c.
Proof.
  intros Hwf Hc. apply canonical_vote_extensions_Some in Hc as (Hlen&Hnd&Hin&->); [|done].
  set (signers := agg_signers (qc_aggregate_signature (dc_outer_qc dc))) in *.
  set (ids := signer_ids (vs_validators vs) 0 signers) in *.
  assert (NoDup ids) as Hids by apply NoDup_signer_ids, Hwf.
  assert (∀ p, p ∈ pick (list_to_map (dc_vote_extensions dc)) ids ↔ p ∈ dc_vote_extensions dc) as Hel.
  { intros [k x]. rewrite elem_of_pick. simpl. rewrite <- elem_of_list_to_map by done.
    split; [naive_solver|]. intros Hp. split; [by apply (Hin _ Hp)|done]. }
  split_and!.
  - apply NoDup_Permutation; [|by eapply NoDup_fmap_1|done].
    by eapply NoDup_fmap_1, NoDup_pick.
  - by apply NoDup_pick.
  - intros p Hp%Hel%Hin. apply elem_of_signer_ids in Hp as (j&v&Hj&<-&_&Hs).
    unfold signed_by. rewrite (index_of_lookup vs Hwf j v Hj).
    apply bool_decide_eq_true. by rewrite Nat.sub_0_r in Hs.
  - intros dc' Hs Hp. apply canonical_vote_extensions_Some; [done|]. rewrite Hs. fold signers ids.
    split_and!; [done|by rewrite Hp| |].
    + intros p Hp'. apply Hin. by rewrite <- Hp.
    + f_equal. by apply list_to_map_proper.
Qed.

Definition sample_dc (exts : list (ValidatorId * bytes)) : DoubleCertificate :=
  mkDC (mkQC (zeros 32) 3 (sample_agg TVote 3 (zeros 32)) 0)
    (mkQC (zeros 32) 3 (sample_agg TVote2 3 (zeros 32)) 0) exts.

Lemma canonical_vote_extensions_correct_witness :
  canonical_vote_extensions (sample_dc [(9, [x01]); (3, [x02])]) sample_set =
    Some [(3, [x02]); (9, [x01])] ∧
  canonical_vote_extensions (sample_dc [(3, [x02]); (9, [x01])]) sample_set =
    Some [(3, [x02]); (9, [x01])].
Proof.
  split; [vm_compute; reflexivity|].
  apply (canonical_vote_extensions_correct (sample_dc [(9, [x01]); (3, [x02])]) sample_set).
  - apply sample_set_wf.
  - vm_compute. reflexivity.
  - reflexivity.
  - apply perm_swap.
Defined.

(** The highest QC of a timeout certificate is one reported by a signer,
    its view is at least that of every signer's report, and it is absent only
    when no signer reported one. *)
Lemma tc_highest_qc_correct tc :
  let signers := agg_signers (tc_aggregate_signature tc) in
  match tc_highest_qc tc with
  | Some qc =>
      (∃ i, signers !! i = Some true ∧ tc_highest_qcs tc !! i = Some (Some qc)) ∧
      ∀ i q, signers !! i = Some true → tc_highest_qcs tc !! i = Some (Some q) →
        qc_view q ≤ qc_view qc
  | None => ∀ i q, signers !! i = Some true → tc_highest_qcs tc !! i ≠ Some (Some q)
  end.
Proof.
  intros signers. unfold tc_highest_qc. fold signers.
  pose proof (max_by_view_spec (signed_qcs signers 0 (tc_highest_qcs tc))) as H.
  pose proof (elem_of_signed_qcs signers 0 (tc_highest_qcs tc)) as Hel.
  destruct (max_by_view _) as [qc|].
  - destruct H as [Hin Hmax]. split; [by apply Hel|]. intros i q Hs Hq. apply Hmax, Hel. by exists i.
  - intros i q Hs Hq. assert (q ∈ signed_qcs signers 0 (tc_highest_qcs tc)) as Hin
      by (apply Hel; by exists i). rewrite H in Hin. by apply not_elem_of_nil in Hin.
Qed.
