(* ===== verification/Light.v ===== *)
(** * Light client ([hotmint-light/src/lib.rs])

    A client that follows the chain from a trusted checkpoint by headers and
    first-phase certificates.  The mutex around the trusted state serialises the
    calls, so each is a function on the client.  The state proofs are calls of
    the database library. *)

From S2P Require Import Prelude Types ValidatorSet Encoding Aggregate.

Record BlockHeader : Type := mkBlockHeader {
  bh_height : Height;
  bh_parent_hash : BlockHash;
  bh_view : ViewNumber;
  bh_proposer : ValidatorId;
  bh_timestamp : N;
  bh_app_hash : BlockHash;
  bh_hash : BlockHash;
}.

Definition BlockHeader_from (block : Block) : BlockHeader :=
  mkBlockHeader (b_height block) (b_parent_hash block) (b_view block) (b_proposer block)
    (b_timestamp block) (b_app_hash block) (b_hash block).

(** The client with its [TrustedState]. *)
Record LightClient : Type := mkLightClient {
  lc_validator_set : ValidatorSet;
  lc_height : Height;
  lc_hash : option BlockHash;
  lc_chain_id_hash : bytes;
}.

Definition lc_new (trusted_validator_set : ValidatorSet) (trusted_height : Height)
    (chain_id_hash : bytes) : LightClient :=
  mkLightClient trusted_validator_set trusted_height
    (if trusted_height =? 0 then Some GENESIS_HASH else None) chain_id_hash.

Definition lc_new_with_trusted_hash (trusted_validator_set : ValidatorSet) (trusted_height : Height)
    (trusted_hash : BlockHash) (chain_id_hash : bytes) : LightClient :=
  mkLightClient trusted_validator_set trusted_height (Some trusted_hash) chain_id_hash.

Inductive light_error : Type :=
| NotAhead | HashUnavailable | TrustedHeightOverflow | NonAdjacent | ParentMismatch
| QcHashMismatch | NoQuorum | BitfieldLength | SignerOutOfBounds | TooFewSignatures
| SignatureInvalid | CheckpointRegression.

Section Light.
Context `{Blake3, Verifier}.

(** The loop over the signer bits; the result is [sig_idx]. *)
Fixpoint check_signers (c : LightClient) (qc : QuorumCertificate) (idx sig_idx : nat)
    (signers : list bool) : res light_error nat :=
  match signers with
  | [] => Ok sig_idx
  | false :: rest => check_signers c qc (S idx) sig_idx rest
  | true :: rest =>
      validator ← ok_or (vs_validators (lc_validator_set c) !! idx) SignerOutOfBounds;
      signature ← ok_or (agg_signatures (qc_aggregate_signature qc) !! sig_idx) TooFewSignatures;
      let signing_bytes := vote_signing_bytes (lc_chain_id_hash c) (qc_epoch qc) (qc_view qc)
                             (vi_id validator) (qc_block_hash qc) TVote None in
      if negb (verify (vi_public_key validator) signing_bytes signature) then Err SignatureInvalid
      else check_signers c qc (S idx) (S sig_idx) rest
  end.

(** The checks of [verify_header]. *)
Definition check_header (c : LightClient) (header : BlockHeader) (qc : QuorumCertificate)
    : res light_error unit :=
  if bh_height header <=? lc_height c then Err NotAhead
  else
    trusted_hash ← ok_or (lc_hash c) HashUnavailable;
    expected_height ← ok_or (checked_add64 (lc_height c) 1) TrustedHeightOverflow;
    if negb (bh_height header =? expected_height) then Err NonAdjacent
    else if negb (bool_decide (bh_parent_hash header = trusted_hash)) then Err ParentMismatch
    else if negb (bool_decide (qc_block_hash qc = bh_hash header)) then Err QcHashMismatch
    else if negb (has_quorum (lc_validator_set c) (qc_aggregate_signature qc)) then Err NoQuorum
    else if negb (bool_decide (length (agg_signers (qc_aggregate_signature qc)) =
                               validator_count (lc_validator_set c))) then Err BitfieldLength
    else
      sig_idx ← check_signers c qc 0 0 (agg_signers (qc_aggregate_signature qc));
      if negb (bool_decide (sig_idx = length (agg_signatures (qc_aggregate_signature qc))))
      then Err SignatureInvalid
      else Ok ().

Definition verify_header (c : LightClient) (header : BlockHeader) (qc : QuorumCertificate)
    : LightClient * res light_error unit :=
  match check_header c header qc with
  | Ok _ =>
      (mkLightClient (lc_validator_set c) (bh_height header) (Some (bh_hash header))
         (lc_chain_id_hash c), Ok ())
  | Err e => (c, Err e)
  | Panic => (c, Panic)
  end.

Definition update_validator_set (c : LightClient) (new_vs : ValidatorSet) (new_height : Height)
    (new_hash : BlockHash) : LightClient * res light_error unit :=
  if new_height <? lc_height c then (c, Err CheckpointRegression)
  else (mkLightClient new_vs new_height (Some new_hash) (lc_chain_id_hash c), Ok ()).

(** ** The certificate check *)

(** The certificate as a first-phase vote aggregate of the trusted set. *)
Definition qc_ref (vs : ValidatorSet) (qc : QuorumCertificate) : VoteAggregateRef :=
  mkVoteAggregateRef vs (qc_epoch qc) (qc_view qc) (qc_block_hash qc) TVote
    (qc_aggregate_signature qc) [].

Lemma check_signers_walk c qc i k signers n :
  check_signers c qc i k signers = Ok n ↔
  walk_signers (vs_validators (lc_validator_set c)) (agg_signatures (qc_aggregate_signature qc))
    (λ (_ : unit) (_ : nat) vi sig,
       if verify (vi_public_key vi)
            (vote_signing_bytes (lc_chain_id_hash c) (qc_epoch qc) (qc_view qc) (vi_id vi)
               (qc_block_hash qc) TVote None) sig then Some () else None)
    () i k signers = Some ((), n).
Proof.
  revert i k. induction signers as [|[] signers IH]; intros i k; simpl; [naive_solver| |apply IH].
  destruct (_ !! i) as [vi|]; simpl; [|done].
  destruct (_ !! k) as [sig|]; simpl; [|done].
  destruct (verify _ _ sig); simpl; [apply IH|done].
Qed.

Lemma check_signers_total c qc i k signers : check_signers c qc i k signers ≠ Panic.
Proof.
  revert i k. induction signers as [|[] signers IH]; intros i k; simpl; [done| |apply IH].
  destruct (_ !! i) as [vi|]; simpl; [|done]. destruct (_ !! k) as [sig|]; simpl; [|done].
  destruct (verify _ _ sig); simpl; [apply IH|done].
Qed.

(** What a header must satisfy to extend the trusted block. *)
Record extends (c : LightClient) (header : BlockHeader) (qc : QuorumCertificate) : Prop := {
  ex_height : bh_height header = lc_height c + 1;
  ex_bound : bh_height header ≤ u64_max;
  ex_parent : lc_hash c = Some (bh_parent_hash header);
  ex_hash : qc_block_hash qc = bh_hash header;
  ex_cert : verify_vote_aggregate (lc_chain_id_hash c) (qc_ref (lc_validator_set c) qc) = true;
}.

Lemma check_header_Ok c header qc : check_header c header qc = Ok () ↔ extends c header qc.
Proof.
  set (agg := qc_aggregate_signature qc).
  assert (Hcert : verify_vote_aggregate (lc_chain_id_hash c) (qc_ref (lc_validator_set c) qc) = true ↔
    has_quorum (lc_validator_set c) agg = true ∧
    length (agg_signers agg) = validator_count (lc_validator_set c) ∧
    check_signers c qc 0 0 (agg_signers agg) = Ok (length (agg_signatures agg))).
  { rewrite check_signers_walk. unfold verify_vote_aggregate; simpl. fold agg.
    case_bool_decide as Hl; simpl; [|naive_solver].
    destruct (walk_signers _ _ _ _ _ _ _) as [[[] n]|]; [|naive_solver].
    rewrite andb_true_iff, bool_decide_eq_true. naive_solver. }
  split.
  - unfold check_header. fold agg. intros Hc.
    destruct (N.leb_spec (bh_height header) (lc_height c)); [done|].
    destruct (lc_hash c) as [th|] eqn:Eh; simpl in Hc; [|done].
    destruct (checked_add64 (lc_height c) 1) as [n|] eqn:En; simpl in Hc; [|done].
    apply checked_add64_Some in En as [-> Hb].
    destruct (N.eqb_spec (bh_height header) (lc_height c + 1)) as [E|]; simpl in Hc; [|done].
    case_bool_decide as Hp; simpl in Hc; [|done]. case_bool_decide as Hq; simpl in Hc; [|done].
    destruct (has_quorum (lc_validator_set c) agg) eqn:Equ; simpl in Hc; [|done].
    case_bool_decide as Hl; simpl in Hc; [|done].
    destruct (check_signers c qc 0 0 (agg_signers agg)) as [k| |] eqn:Es; simpl in Hc; [|done..].
    case_bool_decide as Hk; simpl in Hc; [|done].
    split; [done|lia|congruence|done|]. apply (proj2 Hcert). by rewrite Hk.
  - intros [Hh Hb Hp Hq (Hquo & Hlen & Hsig)%Hcert]. unfold check_header. fold agg.
    rewrite (proj2 (N.leb_gt _ _)) by lia. rewrite Hp. simpl.
    rewrite (proj2 (checked_add64_Some (lc_height c) 1 (bh_height header))) by lia. simpl.
    rewrite N.eqb_refl, !bool_decide_true by done. simpl. rewrite Hquo. simpl.
    rewrite ?bool_decide_true by done. simpl. rewrite Hsig. simpl. by rewrite bool_decide_true.
Qed.

(** ** Following the chain *)

(** The headers of a sequence of calls that were accepted, and the client after
    the calls. *)
Fixpoint follow (c : LightClient) (l : list (BlockHeader * QuorumCertificate))
    : list (BlockHeader * QuorumCertificate) * LightClient :=
  match l with
  | [] => ([], c)
  | (h, q) :: l =>
      match verify_header c h q with
      | (c', Ok _) => let '(acc, c'') := follow c' l in ((h, q) :: acc, c'')
      | (c', _) => follow c' l
      end
  end.

(** Headers that extend a client one after the other. *)
Fixpoint trusted_chain (c : LightClient) (l : list (BlockHeader * QuorumCertificate)) : Prop :=
  match l with
  | [] => True
  | (h, q) :: l =>
      extends c h q ∧
      trusted_chain (lc_new_with_trusted_hash (lc_validator_set c) (bh_height h) (bh_hash h)
                       (lc_chain_id_hash c)) l
  end.

Lemma verify_header_spec c h q :
  (extends c h q ∧ verify_header c h q =
     (lc_new_with_trusted_hash (lc_validator_set c) (bh_height h) (bh_hash h) (lc_chain_id_hash c), Ok ())) ∨
  (¬ extends c h q ∧ ∃ e, verify_header c h q = (c, Err e)).
Proof.
  pose proof (check_header_Ok c h q) as Hok. unfold verify_header.
  destruct (check_header c h q) as [[]|e|] eqn:E.
  - left. split; [by apply Hok|done].
  - right. split; [intros X; by apply Hok in X|eauto].
  - exfalso. clear Hok. revert E. unfold check_header. repeat case_match; try done.
    all: unfold ok_or, mbind, res_bind; repeat case_match; simplify_eq; try done.
    all: intros _; by eapply check_signers_total.
Qed.

Lemma follow_chain l : ∀ c,
  let '(acc, c') := follow c l in
  trusted_chain c acc ∧ sublist acc l ∧
  lc_height c' = lc_height c + N.of_nat (length acc) ∧
  lc_hash c' = match last acc with Some (h, _) => Some (bh_hash h) | None => lc_hash c end ∧
  lc_validator_set c' = lc_validator_set c ∧ lc_chain_id_hash c' = lc_chain_id_hash c.
Proof.
  induction l as [|[h q] l IH]; intros c; [simpl; split_and!; [done|done|lia|done..]|].
  cbn [follow]. destruct (verify_header_spec c h q) as [[Hx ->]|[Hx [e ->]]].
  - specialize (IH (lc_new_with_trusted_hash (lc_validator_set c) (bh_height h) (bh_hash h) (lc_chain_id_hash c))).
    destruct (follow _ l) as [acc c']. destruct IH as (H1 & H2 & H3 & H4 & H5 & H6).
    split_and!; [done|by constructor| | |done|done].
    + rewrite H3. simpl. rewrite (ex_height _ _ _ Hx). lia.
    + rewrite H4. destruct acc as [|p acc]; [done|]. rewrite (last_cons_cons (h, q)).
      by destruct (last (p :: acc)) as [[]|] eqn:El; [|apply last_None in El].
  - specialize (IH c). destruct (follow c l) as [acc c']. destruct IH as (? & ? & ? & ? & ? & ?).
    split_and!; [done|by constructor|done..].
Qed.

(** Some validator outside any tolerated faulty set signed the certified hash. *)
Definition honest_signature (chain : bytes) (vs : ValidatorSet) (bad : ValidatorId → bool)
    (qc : QuorumCertificate) : Prop :=
  ∃ vi s, vi ∈ vs_validators vs ∧ bad (vi_id vi) = false ∧
    s ∈ agg_signatures (qc_aggregate_signature qc) ∧
    verify (vi_public_key vi)
      (vote_signing_bytes chain (qc_epoch qc) (qc_view qc) (vi_id vi) (qc_block_hash qc) TVote None) s = true.

Lemma certificate_honest chain vs bad qc :
  vs_wf vs → power_where bad (vs_validators vs) ≤ max_faulty_power vs →
  verify_vote_aggregate chain (qc_ref vs qc) = true → honest_signature chain vs bad qc.
Proof.
  intros Hwf Hbad (_ & _ & Hal & He & Hq)%verify_vote_aggregate_iff; [|done]. simpl in *.
  destruct (quorum_intersection vs _ _ bad Hwf Hq Hq Hbad) as (vi & Hin & Hs & _ & Hb & _).
  unfold signed_by in Hs. destruct (index_of vs (vi_id vi)) as [i|] eqn:Ei; [|done].
  apply bool_decide_eq_true in Hs. destruct (signer_agg_entries _ i Hal Hs) as [s Hent].
  destruct (He i s Hent) as (vi' & Hi & Hver). simpl in Hi, Hver.
  apply (index_of_spec _ Hwf) in Ei as (v' & Hi' & Eid). rewrite Hi in Hi'. injection Hi' as <-.
  exists vi', s. split_and!; [by eapply list_elem_of_lookup_2|by rewrite Eid| |done].
  unfold agg_entries in Hent. by eapply elem_of_zip_r.
Qed.

Lemma trusted_chain_elem c l h q :
  trusted_chain c l → (h, q) ∈ l →
  qc_block_hash q = bh_hash h ∧
  verify_vote_aggregate (lc_chain_id_hash c) (qc_ref (lc_validator_set c) q) = true.
Proof.
  revert c. induction l as [|[h' q'] l IH]; intros c Hc Hin; [by apply not_elem_of_nil in Hin|].
  destruct Hc as [Hx Hc]. apply elem_of_cons in Hin as [[= <- <-]|Hin]; [by destruct Hx|].
  by apply (IH _ Hc) in Hin.
Qed.

(** ** Properties *)

(** C20: [verify_header] accepts exactly the headers that extend the trusted block
    by one height, name its hash as parent and carry a certificate of their hash
    that passes the full aggregate check against the trusted set, and otherwise
    leaves the client as it was.  So whatever sequence of headers a client is
    given, the accepted ones form an unbroken chain from its checkpoint, its
    height is the number of accepted headers above the checkpoint, and behind
    each of them stands a signature of a validator outside any tolerated faulty
    set.  A checkpoint update never lowers the height. *)
Theorem light_client_correct c l bad :
  vs_wf (lc_validator_set c) →
  power_where bad (vs_validators (lc_validator_set c)) ≤ max_faulty_power (lc_validator_set c) →
  (∀ h q,
    (extends c h q ∧ verify_header c h q =
       (lc_new_with_trusted_hash (lc_validator_set c) (bh_height h) (bh_hash h) (lc_chain_id_hash c), Ok ())) ∨
    (¬ extends c h q ∧ ∃ e, verify_header c h q = (c, Err e))) ∧
  (let '(acc, c') := follow c l in
   trusted_chain c acc ∧ sublist acc l ∧
   lc_height c' = lc_height c + N.of_nat (length acc) ∧
   lc_hash c' = match last acc with Some (h, _) => Some (bh_hash h) | None => lc_hash c end ∧
   Forall (λ '(h, q), honest_signature (lc_chain_id_hash c) (lc_validator_set c) bad q ∧
                      qc_block_hash q = bh_hash h) acc) ∧
  (∀ vs n h, lc_height c ≤ lc_height (update_validator_set c vs n h).1).
Proof.
  intros Hwf Hbad. split_and!; [apply verify_header_spec| |].
  - pose proof (follow_chain l c) as Hf. destruct (follow c l) as [acc c'].
    destruct Hf as (Hc & Hs & Hh & Hl & _). split_and!; [done..|].
    apply Forall_forall. intros [h q] Hin. destruct (trusted_chain_elem _ _ _ _ Hc Hin) as [Hq Hv].
    split; [by apply certificate_honest|done].
  - intros vs n h. unfold update_validator_set. destruct (N.ltb_spec n (lc_height c)); simpl; lia.
Qed.
End Light.

#[local] Existing Instance blake3_pad.
#[local] Existing Instance sample_verifier.

Definition sample_client : LightClient := lc_new sample_set 0 (zeros 32).
Definition sample_header (n : Height) (parent hash : BlockHash) : BlockHeader :=
  mkBlockHeader n parent n 0 0 (zeros 32) hash.
Definition sample_qc (n : ViewNumber) (hash : BlockHash) : QuorumCertificate :=
  mkQC hash n (sample_agg TVote n hash) 0.

(** Two headers and, between them, one that skips a height. *)
Definition sample_headers : list (BlockHeader * QuorumCertificate) :=
  [ (sample_header 1 (zeros 32) (x01 :: zeros 31), sample_qc 1 (x01 :: zeros 31));
    (sample_header 3 (x01 :: zeros 31) (x02 :: zeros 31), sample_qc 3 (x02 :: zeros 31));
    (sample_header 2 (x01 :: zeros 31) (x02 :: zeros 31), sample_qc 2 (x02 :: zeros 31)) ].

Lemma light_client_correct_witness :
  bh_height <$> (follow sample_client sample_headers).1.*1 = [1; 2] ∧
  lc_height (follow sample_client sample_headers).2 = 2 ∧
  trusted_chain sample_client (follow sample_client sample_headers).1.
Proof.
  split; [vm_compute; reflexivity|]. split; [vm_compute; reflexivity|].
  destruct (light_client_correct sample_client sample_headers (λ id, id =? 5)) as (_ & Hf & _).
  - apply sample_set_wf.
  - vm_compute. discriminate.
  - destruct (follow sample_client sample_headers) as [acc c']. simpl. apply Hf.
Defined.
