(* ===== verification/VoteCollector.v ===== *)
(** * Vote collection ([hotmint-consensus/src/vote_collector.rs])

    Votes are bucketed by (epoch, view, block hash, vote type); a bucket whose
    validators reach the quorum yields a certificate, and a vote that conflicts
    with an earlier one of the same validator yields an equivocation proof.
    The iteration order of the [HashMap] is a parameter. *)

From S2P Require Import Prelude Types ValidatorSet Encoding Aggregate.

Notation vote_key := (N * N * bytes * VoteType)%type.

Record VoteResult : Type := mkVoteResult {
  vr_qc : option QuorumCertificate;
  vr_equivocation : option EquivocationProof;
  vr_extensions : list (ValidatorId * bytes);
}.

Record VoteCollector : Type := mkVoteCollector {
  vc_votes : gmap vote_key (list Vote);
}.

Definition vc_new : VoteCollector := mkVoteCollector ∅.

Inductive vc_error : Type :=
| EpochMismatch
| UnexpectedExtension
| UnknownValidator (id : ValidatorId)
| AggregationFailed (e : agg_error).

Definition vote_key_of (v : Vote) : vote_key :=
  (v_epoch v, v_view v, v_block_hash v, v_vote_type v).

(** The proof built from an existing vote and the incoming one. *)
Definition equivocation_of (epoch : EpochNumber) (existing vote : Vote) : EquivocationProof :=
  mkEquivocationProof (v_validator vote) (v_view vote) (v_vote_type vote) epoch
    (v_block_hash existing) (v_signature existing) (v_extension existing)
    (v_block_hash vote) (v_signature vote) (v_extension vote).

(** The test of one bucket in the equivocation scan. *)
Definition conflicting (epoch : EpochNumber) (vote : Vote) (k : vote_key) (votes : list Vote)
    : option EquivocationProof :=
  let '(ep, v, bh, vt) := k in
  if bool_decide (ep = epoch) && bool_decide (v = v_view vote) &&
     bool_decide (vt = v_vote_type vote) && negb (bool_decide (bh = v_block_hash vote))
  then (λ '(_, existing), equivocation_of epoch existing vote) <$>
         list_find (λ ev, v_validator ev = v_validator vote) votes
  else None.

(** The scan stops at the first bucket with a conflicting vote. *)
Fixpoint find_equivocation (epoch : EpochNumber) (vote : Vote)
    (buckets : list (vote_key * list Vote)) : option EquivocationProof :=
  match buckets with
  | [] => None
  | (k, votes) :: rest =>
      match conflicting epoch vote k votes with
      | Some p => Some p
      | None => find_equivocation epoch vote rest
      end
  end.

Definition vote_extensions (votes : list Vote) : list (ValidatorId * bytes) :=
  omap (λ v, pair (v_validator v) <$> v_extension v) votes.

Section Collector.
Context (iter : gmap vote_key (list Vote) → list (vote_key * list Vote)).

Definition add_vote (c : VoteCollector) (vs : ValidatorSet) (vote : Vote) (epoch : EpochNumber)
    : VoteCollector * res vc_error VoteResult :=
  if negb (v_epoch vote =? epoch) then (c, Err EpochMismatch)
  else if bool_decide (v_vote_type vote = TVote) && bool_decide (is_Some (v_extension vote)) then
    (c, Err UnexpectedExtension)
  else
    let equivocation := find_equivocation epoch vote (iter (vc_votes c)) in
    let key := (epoch, v_view vote, v_block_hash vote, v_vote_type vote) in
    let votes := default [] (vc_votes c !! key) in
    let c := mkVoteCollector (<[key := votes]> (vc_votes c)) in
    if bool_decide (Exists (λ v, v_validator v = v_validator vote) votes) then
      (c, Ok (mkVoteResult None equivocation []))
    else if bool_decide (get vs (v_validator vote) = None) then
      (c, Err (UnknownValidator (v_validator vote)))
    else
      let votes := votes ++ [vote] in
      let c := mkVoteCollector (<[key := votes]> (vc_votes c)) in
      match aggregate_votes vs votes with
      | Err e => (c, Err (AggregationFailed e))
      | Panic => (c, Panic)
      | Ok agg =>
          if has_quorum vs agg then
            let qc := mkQC (v_block_hash vote) (v_view vote) agg epoch in
            (c, Ok (mkVoteResult (Some qc) equivocation (vote_extensions votes)))
          else (c, Ok (mkVoteResult None equivocation []))
      end.

End Collector.

Definition vc_clear_view (c : VoteCollector) (view : ViewNumber) : VoteCollector :=
  mkVoteCollector (filter (λ '((_, v, _, _), _), v ≠ view) (vc_votes c)).

Definition vc_prune_before (c : VoteCollector) (min_view : ViewNumber) : VoteCollector :=
  mkVoteCollector (filter (λ '((_, v, _, _), _), min_view ≤ v) (vc_votes c)).

(** ** Invariant

    Every bucket holds votes that carry its key, at most one per validator, all
    by members of the epoch's validator set. *)

Record bucket_ok (vs : ValidatorSet) (k : vote_key) (votes : list Vote) : Prop := {
  bk_key : ∀ v, v ∈ votes → vote_key_of v = k;
  bk_nodup : NoDup (v_validator <$> votes);
  bk_members : ∀ v, v ∈ votes → is_Some (get vs (v_validator v));
  bk_extension : ∀ v, v ∈ votes → v_vote_type v = TVote → v_extension v = None;
}.

Definition vc_inv (vset : EpochNumber → ValidatorSet) (c : VoteCollector) : Prop :=
  ∀ k votes, vc_votes c !! k = Some votes → bucket_ok (vset k.1.1.1) k votes.

(** The bucket a vote belongs to. *)
Definition bucket (c : VoteCollector) (k : vote_key) : list Vote := default [] (vc_votes c !! k).

(** ** Buckets *)

Lemma bucket_ok_nil vs k : bucket_ok vs k [].
Proof. split; csimpl; try (intros v Hv; by apply not_elem_of_nil in Hv). constructor. Qed.

Lemma bucket_ok_default vset c k : vc_inv vset c → bucket_ok (vset k.1.1.1) k (bucket c k).
Proof.
  intros Hinv. unfold bucket. destruct (vc_votes c !! k) eqn:E; simpl; [by apply Hinv|].
  apply bucket_ok_nil.
Qed.

Lemma bucket_ok_snoc vs k votes v :
  bucket_ok vs k votes → vote_key_of v = k → v_validator v ∉ v_validator <$> votes →
  is_Some (get vs (v_validator v)) → (v_vote_type v = TVote → v_extension v = None) →
  bucket_ok vs k (votes ++ [v]).
Proof.
  intros [] Hk Hnew Hm He.
  split; try (intros w [Hw| ->%list_elem_of_singleton]%elem_of_app; by auto).
  rewrite fmap_app. apply NoDup_app. csimpl.
  split_and!; [done| |apply NoDup_singleton].
  intros id Hid ->%list_elem_of_singleton. done.
Qed.

Lemma vc_inv_insert vset c k votes :
  vc_inv vset c → bucket_ok (vset k.1.1.1) k votes →
  vc_inv vset (mkVoteCollector (<[k := votes]> (vc_votes c))).
Proof.
  intros Hinv Hb k' votes'. simpl. rewrite lookup_insert_Some. intros [[<- <-]|[_ ?]]; auto.
Qed.

Lemma vc_inv_new vset : vc_inv vset vc_new.
Proof. intros k votes. simpl. by rewrite lookup_empty. Qed.

Lemma vc_inv_filter vset c (P : vote_key * list Vote → Prop) `{∀ x, Decision (P x)} :
  vc_inv vset c → vc_inv vset (mkVoteCollector (filter P (vc_votes c))).
Proof. intros Hinv k votes. simpl. rewrite map_lookup_filter_Some. naive_solver. Qed.

(** A bucket always aggregates. *)
Lemma bucket_aggregates vs k votes :
  vs_wf vs → bucket_ok vs k votes → ∃ agg, aggregate_votes vs votes = Ok agg.
Proof. intros ? []. by apply aggregate_votes_succeeds. Qed.

(** The set bits are exactly the bucket's validators. *)
Lemma bucket_signed_by vs votes agg v :
  vs_wf vs → aggregate_votes vs votes = Ok agg → v ∈ vs_validators vs →
  signed_by vs agg (vi_id v) = bool_decide (vi_id v ∈ v_validator <$> votes).
Proof.
  intros Hwf Hagg Hv. destruct (list_elem_of_lookup_1 _ _ Hv) as [i Hi].
  unfold signed_by. rewrite (index_of_lookup vs Hwf i v Hi). apply bool_decide_ext.
  pose proof (aggregate_votes_Ok _ _ _ Hagg) as (Hal&_&_). split.
  - intros Hs. apply signer_agg_entries in Hs as [s Hs]; [|done].
    apply (aggregate_votes_entry _ _ _ _ _ Hagg) in Hs as (w&Hw&Hidx&_).
    apply index_of_spec in Hidx as (x&Hx&E); [|done]. simplify_eq.
    apply list_elem_of_fmap. eauto.
  - intros (w&E&Hw)%list_elem_of_fmap.
    apply agg_entries_signer with (v_signature w).
    apply (aggregate_votes_entry _ _ _ _ _ Hagg). exists w. split_and!; [done| |done].
    rewrite <- E. by apply index_of_lookup.
Qed.

Lemma bucket_has_quorum vs votes agg :
  vs_wf vs → aggregate_votes vs votes = Ok agg →
  has_quorum vs agg =
    (quorum_threshold vs <=?
       power_where (λ id, bool_decide (id ∈ v_validator <$> votes)) (vs_validators vs)).
Proof.
  intros Hwf Hagg. rewrite has_quorum_spec by done. f_equal.
  apply sumN_ext. intros v Hv. by rewrite (bucket_signed_by vs votes agg v).
Qed.

(** ** Signatures of a formed certificate *)

(** A vote carries a valid signature of its validator. *)
Definition vote_valid `{Blake3, Verifier} (chain : bytes) (vs : ValidatorSet) (v : Vote) : Prop :=
  ∃ vi, get vs (v_validator v) = Some vi ∧
    verify (vi_public_key vi)
      (vote_signing_bytes chain (v_epoch v) (v_view v) (v_validator v) (v_block_hash v)
         (v_vote_type v) (v_extension v)) (v_signature v) = true.

Lemma collect_map_lookup l k x :
  NoDup l.*1 → collect_map l !! k = Some x ↔ (k, x) ∈ l.
Proof.
  unfold collect_map. induction l as [|[k' x'] l IH] using rev_ind; intros Hnd.
  { simpl. rewrite lookup_empty, elem_of_nil. done. }
  rewrite foldl_snoc, fmap_app in *. apply NoDup_app in Hnd as (Hnd&Hdis&_).
  rewrite lookup_insert_Some, IH, elem_of_app, list_elem_of_singleton by done.
  split; [naive_solver|]. intros [Hin|[= -> ->]]; [|by left]. right. split; [|done].
  intros <-. apply (Hdis k'); [|csimpl; left]. apply list_elem_of_fmap. by exists (k', x).
Qed.

Lemma elem_of_vote_extensions votes id x :
  (id, x) ∈ vote_extensions votes ↔
    ∃ v, v ∈ votes ∧ v_validator v = id ∧ v_extension v = Some x.
Proof.
  unfold vote_extensions. rewrite list_elem_of_omap. setoid_rewrite fmap_Some. naive_solver.
Qed.

Lemma NoDup_vote_extensions votes :
  NoDup (v_validator <$> votes) → NoDup (vote_extensions votes).*1.
Proof.
  unfold vote_extensions. induction votes as [|v votes IH]; csimpl; [constructor|].
  intros [Hv Hnd]%NoDup_cons. destruct (v_extension v) as [x|]; csimpl; [|by apply IH].
  constructor; [|by apply IH]. intros ([id y]&E&Hin)%list_elem_of_fmap. simpl in E.
  apply elem_of_vote_extensions in Hin as (w&?&Hw&_). apply Hv, list_elem_of_fmap.
  exists w. split; [congruence|done].
Qed.

Lemma vote_extensions_lookup votes v :
  NoDup (v_validator <$> votes) → v ∈ votes →
  collect_map (vote_extensions votes) !! v_validator v = v_extension v.
Proof.
  intros Hnd Hv. apply option_eq. intros x.
  rewrite collect_map_lookup, elem_of_vote_extensions by by apply NoDup_vote_extensions.
  split; [|by eauto]. intros (w&Hw&E&Hx).
  destruct (list_elem_of_lookup_1 _ _ Hv) as [i Hi], (list_elem_of_lookup_1 _ _ Hw) as [j Hj].
  assert (i = j) as ->; [|by simplify_eq].
  eapply NoDup_lookup; [done|..]; rewrite list_lookup_fmap, ?Hi, ?Hj; simpl; by rewrite ?E.
Qed.

(** The certificate of a bucket whose votes are valid passes the engine's
    aggregate check. *)
Lemma bucket_verifies `{Blake3, Verifier} chain vs e w h t votes agg :
  vs_wf vs → bucket_ok vs (e, w, h, t) votes →
  aggregate_votes vs votes = Ok agg → has_quorum vs agg = true →
  (∀ v, v ∈ votes → vote_valid chain vs v) →
  verify_vote_aggregate chain
    (mkVoteAggregateRef vs e w h t agg (vote_extensions votes)) = true.
Proof.
  intros Hwf Hb Hagg Hq Hvalid.
  pose proof (aggregate_votes_Ok _ _ _ Hagg) as (Hal&Hlen&_).
  apply verify_vote_aggregate_iff; [done|]. simpl.
  rewrite has_quorum_spec in Hq by done. apply N.leb_le in Hq. split_and!; try done.
  - intros Ht. apply elem_of_nil_inv. intros [id x] (v&Hv&_&Hx)%elem_of_vote_extensions.
    rewrite (bk_extension _ _ _ Hb v Hv) in Hx; [done|].
    pose proof (bk_key _ _ _ Hb v Hv) as Hk. unfold vote_key_of in Hk. congruence.
  - intros i s Hin. simpl in *.
    apply (aggregate_votes_entry _ _ _ _ _ Hagg) in Hin as (v&Hv&Hi&<-).
    destruct (Hvalid v Hv) as (vi&Hg&Hver). exists vi.
    pose proof (bk_key _ _ _ Hb v Hv) as Hk. unfold vote_key_of in Hk. injection Hk as <- <- <- <-.
    apply get_index in Hg as (j&Hj&Hvi). rewrite Hi in Hj. injection Hj as <-.
    split; [done|]. pose proof (proj1 (index_of_spec vs Hwf _ _) Hi) as (vi'&Hvi'&E).
    assert (vi' = vi) as -> by congruence. rewrite E.
    rewrite vote_extensions_lookup; [done| |done]. apply Hb.
Qed.

(** ** [add_vote] *)

Section AddVote.
Context (iter : gmap vote_key (list Vote) → list (vote_key * list Vote)).
Context (vset : EpochNumber → ValidatorSet).
Implicit Types (c : VoteCollector) (vote : Vote).

(** The outcome of [add_vote] on every branch. *)
Lemma add_vote_spec c vote epoch :
  vs_wf (vset epoch) → vc_inv vset c →
  let k := vote_key_of vote in
  let eq := find_equivocation epoch vote (iter (vc_votes c)) in
  let '(c', r) := add_vote iter c (vset epoch) vote epoch in
  vc_inv vset c' ∧ (∀ k', k' ≠ k → vc_votes c' !! k' = vc_votes c !! k') ∧
  match r with
  | Err EpochMismatch => v_epoch vote ≠ epoch ∧ c' = c
  | Err UnexpectedExtension => v_vote_type vote = TVote ∧ is_Some (v_extension vote) ∧ c' = c
  | Err (UnknownValidator id) =>
      id = v_validator vote ∧ get (vset epoch) id = None ∧ bucket c' k = bucket c k
  | Ok r =>
      v_epoch vote = epoch ∧ vr_equivocation r = eq ∧
      ((v_validator vote ∈ v_validator <$> bucket c k ∧ bucket c' k = bucket c k ∧
        vr_qc r = None ∧ vr_extensions r = []) ∨
       (v_validator vote ∉ v_validator <$> bucket c k ∧ bucket c' k = bucket c k ++ [vote] ∧
        ∃ agg, aggregate_votes (vset epoch) (bucket c k ++ [vote]) = Ok agg ∧
          if has_quorum (vset epoch) agg then
            vr_qc r = Some (mkQC (v_block_hash vote) (v_view vote) agg epoch) ∧
            vr_extensions r = vote_extensions (bucket c k ++ [vote])
          else vr_qc r = None ∧ vr_extensions r = []))
  | Err (AggregationFailed _) | Panic => False
  end.
Proof.
  intros Hwf Hinv k eq. unfold add_vote.
  destruct (N.eqb_spec (v_epoch vote) epoch) as [He|He]; simpl; [|done].
  match goal with |- context [if ?b then (c, Err UnexpectedExtension) else _] => destruct b eqn:Hx end.
  { bool_prop. done. }
  assert (v_vote_type vote = TVote → v_extension vote = None) as Hext.
  { intros Ht. rewrite bool_decide_true in Hx by done. simpl in Hx. bool_prop.
    by apply eq_None_not_Some. }
  clear Hx. replace (epoch, v_view vote, v_block_hash vote, v_vote_type vote) with k
    by (unfold k, vote_key_of; by rewrite He).
  fold (bucket c k). pose proof (bucket_ok_default vset c k Hinv) as Hb.
  replace (k.1.1.1) with epoch in Hb by (unfold k, vote_key_of; by rewrite He).
  assert (Exists (λ v, v_validator v = v_validator vote) (bucket c k) ↔
          v_validator vote ∈ v_validator <$> bucket c k) as Hdup.
  { rewrite Exists_exists, list_elem_of_fmap. naive_solver. }
  assert (k.1.1.1 = epoch) as Hke by (unfold k, vote_key_of; by rewrite He).
  case_bool_decide as Hd; simpl.
  { split_and!; [apply vc_inv_insert; [done|by rewrite Hke]
      |intros; by rewrite lookup_insert_ne|done|done|].
    left. unfold bucket at 2. simpl. rewrite lookup_insert_eq. naive_solver. }
  case_bool_decide as Hg; simpl.
  { split_and!; [apply vc_inv_insert; [done|by rewrite Hke]
      |intros; by rewrite lookup_insert_ne|done|done|].
    unfold bucket at 1. simpl. by rewrite lookup_insert_eq. }
  assert (bucket_ok (vset epoch) k (bucket c k ++ [vote])) as Hb'.
  { apply bucket_ok_snoc; try done; [by rewrite <- Hdup|by apply not_eq_None_Some]. }
  destruct (bucket_aggregates _ _ _ Hwf Hb') as [agg Hagg]. rewrite Hagg.
  destruct (has_quorum (vset epoch) agg) eqn:Hq; simpl; rewrite insert_insert_eq;
    (split_and!; [apply vc_inv_insert; [done|by rewrite Hke]
      |intros; by rewrite lookup_insert_ne|done|done|right]);
    (split_and!; [by rewrite <- Hdup|unfold bucket at 1; simpl; by rewrite lookup_insert_eq|]);
    exists agg; by rewrite Hq.
Qed.

(** ** Equivocation *)

Lemma conflicting_Some epoch vote k votes p :
  conflicting epoch vote k votes = Some p →
  ∃ ev, ev ∈ votes ∧ v_validator ev = v_validator vote ∧ k.1.1.1 = epoch ∧
    k.1.1.2 = v_view vote ∧ k.1.2 ≠ v_block_hash vote ∧ k.2 = v_vote_type vote ∧
    p = equivocation_of epoch ev vote.
Proof.
  destruct k as [[[ep v] bh] vt]. simpl. case_match eqn:Hc; [|done].
  repeat (apply andb_true_iff in Hc as [Hc ?]). bool_prop.
  intros ([i ev]&Hf&->)%fmap_Some. apply list_find_Some in Hf as (Hi&Hv&_).
  exists ev. split_and!; try done. by eapply list_elem_of_lookup_2.
Qed.

Lemma conflicting_is_Some epoch vote k votes ev :
  ev ∈ votes → v_validator ev = v_validator vote → k.1.1.1 = epoch →
  k.1.1.2 = v_view vote → k.1.2 ≠ v_block_hash vote → k.2 = v_vote_type vote →
  is_Some (conflicting epoch vote k votes).
Proof.
  destruct k as [[[ep v] bh] vt]. simpl. intros Hin Hv -> -> Hne ->.
  rewrite !bool_decide_true, bool_decide_false by done. simpl.
  destruct (list_find_elem (λ ev, v_validator ev = v_validator vote) votes ev Hin Hv)
    as (i&y&->). by eexists.
Qed.

Lemma find_equivocation_Some epoch vote l p :
  find_equivocation epoch vote l = Some p →
  ∃ k votes, (k, votes) ∈ l ∧ conflicting epoch vote k votes = Some p.
Proof.
  induction l as [|[k votes] l IH]; simpl; [done|].
  destruct (conflicting epoch vote k votes) eqn:E.
  - intros [= <-]. exists k, votes. split; [left|done].
  - intros (k'&votes'&?&?)%IH. exists k', votes'. split; [by right|done].
Qed.

Lemma find_equivocation_None epoch vote l k votes :
  find_equivocation epoch vote l = None → (k, votes) ∈ l → conflicting epoch vote k votes = None.
Proof.
  induction l as [|[k' votes'] l IH]; simpl; [by intros _ ?%not_elem_of_nil|].
  destruct (conflicting epoch vote k' votes') eqn:E; [done|].
  intros Hn [[= -> ->]|Hin]%elem_of_cons; [done|by apply IH].
Qed.

Hypothesis iter_perm : ∀ m, iter m ≡ₚ map_to_list m.

(** The scan reports a conflict exactly when some bucket holds one, whatever
    the iteration order. *)
Lemma find_equivocation_iff c vote epoch :
  vc_inv vset c →
  (∀ p, find_equivocation epoch vote (iter (vc_votes c)) = Some p →
     ∃ k ev, ev ∈ bucket c k ∧ vote_key_of ev = k ∧ v_validator ev = v_validator vote ∧
       v_epoch ev = epoch ∧ v_view ev = v_view vote ∧ v_vote_type ev = v_vote_type vote ∧
       v_block_hash ev ≠ v_block_hash vote ∧ p = equivocation_of epoch ev vote) ∧
  (∀ k ev, ev ∈ bucket c k → v_validator ev = v_validator vote → v_epoch ev = epoch →
     v_view ev = v_view vote → v_vote_type ev = v_vote_type vote →
     v_block_hash ev ≠ v_block_hash vote →
     is_Some (find_equivocation epoch vote (iter (vc_votes c)))).
Proof.
  intros Hinv. split.
  - intros p (k&votes&Hin&Hc)%find_equivocation_Some.
    rewrite iter_perm, elem_of_map_to_list in Hin.
    apply conflicting_Some in Hc as (ev&Hev&Hv&He&Hw&Hh&Ht&->).
    pose proof (bk_key _ _ _ (Hinv k votes Hin) ev Hev) as Hk.
    exists k, ev. unfold bucket. rewrite Hin. simpl. unfold vote_key_of in *. subst k. done.
  - intros k ev Hev Hv He Hw Ht Hh. unfold bucket in Hev.
    destruct (vc_votes c !! k) as [votes|] eqn:Hk; simpl in Hev; [|by apply not_elem_of_nil in Hev].
    destruct (find_equivocation epoch vote (iter (vc_votes c))) eqn:E; [by eexists|].
    eapply (find_equivocation_None _ _ _ k votes) in E;
      [|by rewrite iter_perm, elem_of_map_to_list].
    pose proof (bk_key _ _ _ (Hinv k votes Hk) ev Hev) as Hkey. unfold vote_key_of in Hkey.
    exfalso. eapply eq_None_not_Some; [exact E|].
    by apply (conflicting_is_Some _ _ _ _ ev); subst k.
Qed.

End AddVote.

(** ** Properties *)

(** A collector with the sample votes of a list of validators, in order. *)
Definition sample_vote (t : VoteType) (h : bytes) (ext : option bytes) (vi : ValidatorInfo) : Vote :=
  mkVote 0 h 3 (vi_id vi) (sample_sig t 3 h ext vi) t ext.

Definition sample_iter (m : gmap vote_key (list Vote)) : list (vote_key * list Vote) :=
  map_to_list m.

Definition add_all (c : VoteCollector) (votes : list Vote) : VoteCollector :=
  foldl (λ c v, (add_vote sample_iter c sample_set v 0).1) c votes.

#[local] Existing Instance blake3_pad.
#[local] Existing Instance sample_verifier.

Definition sample_collector : VoteCollector :=
  add_all vc_new [sample_vote TVote2 (zeros 32) (Some [x01]) (mkValidatorInfo 5 (x02 :: zeros 31) 3);
                  sample_vote TVote2 (zeros 32) None (mkValidatorInfo 7 (x00 :: zeros 31) 1)].

(** The third vote, with which the bucket reaches the quorum. *)
Definition sample_vote9 : Vote :=
  sample_vote TVote2 (zeros 32) (Some [x02]) (mkValidatorInfo 9 (x00 :: x01 :: zeros 30) 4).

Lemma add_all_inv c votes : vc_inv (λ _, sample_set) c → vc_inv (λ _, sample_set) (add_all c votes).
Proof.
  revert c. induction votes as [|v votes IH]; intros c Hinv; [done|]. apply IH.
  pose proof (add_vote_spec sample_iter (λ _, sample_set) c v 0 sample_set_wf Hinv) as H.
  destruct (add_vote _ _ _ _ _) as [c' r]. apply H.
Qed.

Lemma sample_collector_inv : vc_inv (λ _, sample_set) sample_collector.
Proof. apply add_all_inv, vc_inv_new. Qed.

(** A vote of validator 5 for another block. *)
Definition sample_conflict : Vote :=
  sample_vote TVote2 (x01 :: zeros 31) None (mkValidatorInfo 5 (x02 :: zeros 31) 3).

Definition sample_out (v : Vote) : VoteCollector * res vc_error VoteResult :=
  add_vote sample_iter sample_collector sample_set v 0.

Lemma sample_out_ok v : is_ok (sample_out v).2 = true → ∃ c' r, sample_out v = (c', Ok r).
Proof. destruct (sample_out v) as [c' [r|e|]]; [by eauto|done..]. Qed.

Lemma sample_out_qc v c' r :
  sample_out v = (c', Ok r) →
  (if (sample_out v).2 is Ok r then bool_decide (is_Some (vr_qc r)) else false) = true →
  is_Some (vr_qc r).
Proof. intros ->. apply bool_decide_eq_true. Qed.

Lemma sample_out_equivocation v c' r :
  sample_out v = (c', Ok r) →
  (if (sample_out v).2 is Ok r then bool_decide (is_Some (vr_equivocation r)) else false) = true →
  is_Some (vr_equivocation r).
Proof. intros ->. apply bool_decide_eq_true. Qed.

Definition vote_valid_b (v : Vote) : bool :=
  if get sample_set (v_validator v) is Some vi then
    verify (vi_public_key vi)
      (vote_signing_bytes (zeros 32) (v_epoch v) (v_view v) (v_validator v) (v_block_hash v)
         (v_vote_type v) (v_extension v)) (v_signature v)
  else false.

Lemma sample_votes_valid votes :
  forallb vote_valid_b votes = true → ∀ v, v ∈ votes → vote_valid (zeros 32) sample_set v.
Proof.
  intros H v Hv. rewrite forallb_forall in H.
  specialize (H v (proj1 (list_elem_of_In _ _) Hv)). unfold vote_valid_b in H.
  destruct (get sample_set (v_validator v)) as [vi|] eqn:E; [|done]. exists vi.
  done.
Qed.



(** When every vote of the bucket carries a valid signature, the
    certificate formed by [add_vote] is for the vote's hash, view and epoch and,
    together with the collected extensions, passes [verify_vote_aggregate]. *)
Lemma add_vote_qc_verifies `{Blake3, Verifier} iter vset c vote c' r qc chain :
  vs_wf (vset (v_epoch vote)) → vc_inv vset c →
  add_vote iter c (vset (v_epoch vote)) vote (v_epoch vote) = (c', Ok r) →
  vr_qc r = Some qc →
  (∀ v, v ∈ bucket c' (vote_key_of vote) → vote_valid chain (vset (v_epoch vote)) v) →
  qc_key qc = (v_block_hash vote, v_view vote) ∧ qc_epoch qc = v_epoch vote ∧
  verify_vote_aggregate chain
    (mkVoteAggregateRef (vset (v_epoch vote)) (qc_epoch qc) (qc_view qc) (qc_block_hash qc)
       (v_vote_type vote) (qc_aggregate_signature qc) (vr_extensions r)) = true.
Proof.
  intros Hwf Hinv Hadd Hqc Hvalid. pose proof (add_vote_spec iter vset c vote _ Hwf Hinv) as Hspec.
  cbv zeta in Hspec. rewrite Hadd in Hspec. destruct Hspec as (Hinv'&_&_&_&Hcase).
  destruct Hcase as [(_&_&?&_)|(_&Hb&agg&Hagg&Hq)]; [congruence|].
  destruct (has_quorum _ agg) eqn:Hquorum; destruct Hq as [Hqc' Hext]; [|congruence].
  rewrite Hqc' in Hqc. injection Hqc as <-. simpl. split_and!; [done|done|].
  rewrite Hext, <- Hb. rewrite <- Hb in Hagg.
  apply (bucket_verifies chain _ (v_epoch vote) (v_view vote) (v_block_hash vote)); try done.
  apply (bucket_ok_default vset c' (vote_key_of vote)). done.
Qed.

Lemma add_vote_qc_verifies_witness :
  ∃ c' r qc, sample_out sample_vote9 = (c', Ok r) ∧ vr_qc r = Some qc ∧
    verify_vote_aggregate (zeros 32)
      (mkVoteAggregateRef sample_set (qc_epoch qc) (qc_view qc) (qc_block_hash qc)
         TVote2 (qc_aggregate_signature qc) (vr_extensions r)) = true.
Proof.
  destruct (sample_out_ok sample_vote9) as (c'&r&E); [vm_compute; reflexivity|].
  destruct (sample_out_qc sample_vote9 c' r E) as [qc Hqc]; [vm_compute; reflexivity|].
  exists c', r, qc. split; [exact E|]. split; [exact Hqc|].
  apply (add_vote_qc_verifies sample_iter (λ _, sample_set) sample_collector sample_vote9 c' r qc
           (zeros 32) sample_set_wf sample_collector_inv E Hqc).
  change c' with (c', Ok (E := vc_error) r).1. rewrite <- E.
  apply sample_votes_valid. vm_compute. reflexivity.
Defined.

(** [add_vote] reports an equivocation proof exactly when the collector
    holds a vote of the same validator, epoch, view and type for another block,
    whatever the iteration order of the map; the proof names that validator,
    and pairs the two conflicting votes' hashes, signatures and extensions. *)
Lemma add_vote_equivocation iter vset c vote c' r :
  (∀ m, iter m ≡ₚ map_to_list m) →
  vs_wf (vset (v_epoch vote)) → vc_inv vset c →
  add_vote iter c (vset (v_epoch vote)) vote (v_epoch vote) = (c', Ok r) →
  (∀ p, vr_equivocation r = Some p →
     ∃ ev, ev ∈ bucket c (vote_key_of ev) ∧ v_validator ev = v_validator vote ∧
       v_view ev = v_view vote ∧ v_vote_type ev = v_vote_type vote ∧
       v_block_hash ev ≠ v_block_hash vote ∧ p = equivocation_of (v_epoch vote) ev vote) ∧
  (vr_equivocation r = None →
     ∀ k ev, ev ∈ bucket c k → v_validator ev = v_validator vote → v_epoch ev = v_epoch vote →
       v_view ev = v_view vote → v_vote_type ev = v_vote_type vote →
       v_block_hash ev = v_block_hash vote).
Proof.
  intros Hiter Hwf Hinv H. pose proof (add_vote_spec iter vset c vote _ Hwf Hinv) as Hspec.
  cbv zeta in Hspec. rewrite H in Hspec. destruct Hspec as (_&_&_&Heq&_).
  destruct (find_equivocation_iff iter vset Hiter c vote (v_epoch vote) Hinv) as [H1 H2].
  rewrite Heq. split.
  - intros p (k&ev&Hin&<-&?&?&?&?&?&?)%H1. exists ev. done.
  - intros Hn k ev Hin Hv He Hw Ht. destruct (decide (v_block_hash ev = v_block_hash vote));
      [done|]. destruct (H2 k ev) as [p Hp]; try done. congruence.
Qed.

Lemma add_vote_equivocation_witness :
  ∃ c' r, sample_out sample_conflict = (c', Ok r) ∧
    ∃ p ev, vr_equivocation r = Some p ∧ p = equivocation_of 0 ev sample_conflict.
Proof.
  destruct (sample_out_ok sample_conflict) as (c'&r&E); [vm_compute; reflexivity|].
  destruct (sample_out_equivocation sample_conflict c' r E) as [p Hp]; [vm_compute; reflexivity|].
  exists c', r. split; [exact E|].
  destruct (add_vote_equivocation sample_iter (λ _, sample_set) sample_collector sample_conflict
              c' r (λ m, reflexivity (map_to_list m)) sample_set_wf sample_collector_inv E) as [H _].
  destruct (H p Hp) as (ev&_&_&_&_&_&Hev). exists p, ev. split; [exact Hp|exact Hev].
Defined.
