(* ===== verification/State.v ===== *)
(** * Consensus state ([hotmint-consensus/src/state.rs])

    The mutable state of one validator, the double-sign guard for its own votes
    and the monotone updates of its locked and highest certificates. *)

From S2P Require Import Prelude Types ValidatorSet.

Inductive ViewRole : Type := Leader | Replica.

Inductive ViewStep : Type :=
| Entered
| WaitingForStatus
| Proposed
| WaitingForProposal
| Voted
| CollectingVotes
| Prepared
| SentVote2
| Done.

#[global] Instance ViewRole_eq_dec : EqDecision ViewRole.
Proof. solve_decision. Defined.
#[global] Instance ViewStep_eq_dec : EqDecision ViewStep.
Proof. solve_decision. Defined.

Record ConsensusState : Type := mkConsensusState {
  cs_validator_id : ValidatorId;
  cs_validator_set : ValidatorSet;
  cs_chain_id_hash : bytes;
  cs_current_view : ViewNumber;
  cs_role : ViewRole;
  cs_step : ViewStep;
  cs_locked_qc : option QuorumCertificate;
  cs_highest_double_cert : option DoubleCertificate;
  cs_highest_qc : option QuorumCertificate;
  cs_last_committed_height : Height;
  cs_last_app_hash : BlockHash;
  cs_current_epoch : Epoch;
  cs_pending_vote_extensions : list (ValidatorId * bytes);
  cs_last_vote1 : option (ViewNumber * BlockHash);
  cs_last_vote2 : option (ViewNumber * BlockHash);
}.

(** [ConsensusState::with_chain_id]; [chain_id] is the identifier's bytes. *)
Definition with_chain_id `{Blake3} (validator_id : ValidatorId) (validator_set : ValidatorSet)
    (chain_id : bytes) : ConsensusState :=
  mkConsensusState validator_id validator_set (blake3 chain_id) 0 Replica Entered
    None None None 0 GENESIS_HASH (Epoch_genesis validator_set) [] None None.

(** ** Field updates *)

Section Updates.
Context (s : ConsensusState).
Let mk := mkConsensusState (cs_validator_id s).

Definition set_validator_set x := mk x (cs_chain_id_hash s) (cs_current_view s) (cs_role s)
  (cs_step s) (cs_locked_qc s) (cs_highest_double_cert s) (cs_highest_qc s)
  (cs_last_committed_height s) (cs_last_app_hash s) (cs_current_epoch s)
  (cs_pending_vote_extensions s) (cs_last_vote1 s) (cs_last_vote2 s).
Definition set_current_view x := mk (cs_validator_set s) (cs_chain_id_hash s) x (cs_role s)
  (cs_step s) (cs_locked_qc s) (cs_highest_double_cert s) (cs_highest_qc s)
  (cs_last_committed_height s) (cs_last_app_hash s) (cs_current_epoch s)
  (cs_pending_vote_extensions s) (cs_last_vote1 s) (cs_last_vote2 s).
Definition set_role x := mk (cs_validator_set s) (cs_chain_id_hash s) (cs_current_view s) x
  (cs_step s) (cs_locked_qc s) (cs_highest_double_cert s) (cs_highest_qc s)
  (cs_last_committed_height s) (cs_last_app_hash s) (cs_current_epoch s)
  (cs_pending_vote_extensions s) (cs_last_vote1 s) (cs_last_vote2 s).
Definition set_step x := mk (cs_validator_set s) (cs_chain_id_hash s) (cs_current_view s)
  (cs_role s) x (cs_locked_qc s) (cs_highest_double_cert s) (cs_highest_qc s)
  (cs_last_committed_height s) (cs_last_app_hash s) (cs_current_epoch s)
  (cs_pending_vote_extensions s) (cs_last_vote1 s) (cs_last_vote2 s).
Definition set_locked_qc x := mk (cs_validator_set s) (cs_chain_id_hash s) (cs_current_view s)
  (cs_role s) (cs_step s) x (cs_highest_double_cert s) (cs_highest_qc s)
  (cs_last_committed_height s) (cs_last_app_hash s) (cs_current_epoch s)
  (cs_pending_vote_extensions s) (cs_last_vote1 s) (cs_last_vote2 s).
Definition set_highest_double_cert x := mk (cs_validator_set s) (cs_chain_id_hash s)
  (cs_current_view s) (cs_role s) (cs_step s) (cs_locked_qc s) x (cs_highest_qc s)
  (cs_last_committed_height s) (cs_last_app_hash s) (cs_current_epoch s)
  (cs_pending_vote_extensions s) (cs_last_vote1 s) (cs_last_vote2 s).
Definition set_highest_qc x := mk (cs_validator_set s) (cs_chain_id_hash s)
  (cs_current_view s) (cs_role s) (cs_step s) (cs_locked_qc s) (cs_highest_double_cert s) x
  (cs_last_committed_height s) (cs_last_app_hash s) (cs_current_epoch s)
  (cs_pending_vote_extensions s) (cs_last_vote1 s) (cs_last_vote2 s).
Definition set_last_committed_height x := mk (cs_validator_set s) (cs_chain_id_hash s)
  (cs_current_view s) (cs_role s) (cs_step s) (cs_locked_qc s) (cs_highest_double_cert s)
  (cs_highest_qc s) x (cs_last_app_hash s) (cs_current_epoch s)
  (cs_pending_vote_extensions s) (cs_last_vote1 s) (cs_last_vote2 s).
Definition set_last_app_hash x := mk (cs_validator_set s) (cs_chain_id_hash s)
  (cs_current_view s) (cs_role s) (cs_step s) (cs_locked_qc s) (cs_highest_double_cert s)
  (cs_highest_qc s) (cs_last_committed_height s) x (cs_current_epoch s)
  (cs_pending_vote_extensions s) (cs_last_vote1 s) (cs_last_vote2 s).
Definition set_current_epoch x := mk (cs_validator_set s) (cs_chain_id_hash s)
  (cs_current_view s) (cs_role s) (cs_step s) (cs_locked_qc s) (cs_highest_double_cert s)
  (cs_highest_qc s) (cs_last_committed_height s) (cs_last_app_hash s) x
  (cs_pending_vote_extensions s) (cs_last_vote1 s) (cs_last_vote2 s).
Definition set_pending_vote_extensions x := mk (cs_validator_set s) (cs_chain_id_hash s)
  (cs_current_view s) (cs_role s) (cs_step s) (cs_locked_qc s) (cs_highest_double_cert s)
  (cs_highest_qc s) (cs_last_committed_height s) (cs_last_app_hash s) (cs_current_epoch s)
  x (cs_last_vote1 s) (cs_last_vote2 s).
Definition set_last_vote1 x := mk (cs_validator_set s) (cs_chain_id_hash s)
  (cs_current_view s) (cs_role s) (cs_step s) (cs_locked_qc s) (cs_highest_double_cert s)
  (cs_highest_qc s) (cs_last_committed_height s) (cs_last_app_hash s) (cs_current_epoch s)
  (cs_pending_vote_extensions s) x (cs_last_vote2 s).
Definition set_last_vote2 x := mk (cs_validator_set s) (cs_chain_id_hash s)
  (cs_current_view s) (cs_role s) (cs_step s) (cs_locked_qc s) (cs_highest_double_cert s)
  (cs_highest_qc s) (cs_last_committed_height s) (cs_last_app_hash s) (cs_current_epoch s)
  (cs_pending_vote_extensions s) (cs_last_vote1 s) x.
End Updates.

(** ** Operations *)

(** The slot a vote type is recorded in. *)
Definition last_vote (s : ConsensusState) (t : VoteType) : option (ViewNumber * BlockHash) :=
  match t with TVote => cs_last_vote1 s | TVote2 => cs_last_vote2 s end.

Definition set_last_vote (s : ConsensusState) (t : VoteType) (x : option (ViewNumber * BlockHash))
    : ConsensusState :=
  match t with TVote => set_last_vote1 s x | TVote2 => set_last_vote2 s x end.

Definition check_and_record_vote (s : ConsensusState) (t : VoteType) (view : ViewNumber)
    (block_hash : BlockHash) : ConsensusState * bool :=
  match last_vote s t with
  | Some (v, h) =>
      if view <? v then (s, false)
      else if v =? view then (s, bool_decide (h = block_hash))
      else (set_last_vote s t (Some (view, block_hash)), true)
  | None => (set_last_vote s t (Some (view, block_hash)), true)
  end.

(** [ConsensusState::is_leader] *)
Definition cs_is_leader (s : ConsensusState) : bool := bool_decide (cs_role s = Leader).

(** [o.as_ref().is_none_or(|h| qc.view > h.view)] *)
Definition dominated (o : option QuorumCertificate) (qc : QuorumCertificate) : bool :=
  match o with None => true | Some h => qc_view h <? qc_view qc end.

Definition update_highest_qc (s : ConsensusState) (qc : QuorumCertificate) : ConsensusState :=
  if dominated (cs_highest_qc s) qc then set_highest_qc s (Some qc) else s.

Definition update_locked_qc (s : ConsensusState) (qc : QuorumCertificate) : ConsensusState :=
  if dominated (cs_locked_qc s) qc then set_locked_qc s (Some qc) else s.

(** ** The double-sign guard *)

(** [(v, h)] may follow the record [o]: a later view, or the same block. *)
Definition may_follow (o : option (ViewNumber * BlockHash)) (view : ViewNumber) (h : BlockHash)
    : Prop :=
  match o with
  | None => True
  | Some (v', h') => v' < view ∨ (v' = view ∧ h' = h)
  end.

Lemma last_vote_set s t x : last_vote (set_last_vote s t x) t = x.
Proof. by destruct t. Qed.

Lemma last_vote_set_ne s t t' x : t ≠ t' → last_vote (set_last_vote s t x) t' = last_vote s t'.
Proof. by destruct t, t'. Qed.

Lemma check_and_record_vote_true s t view h s' :
  check_and_record_vote s t view h = (s', true) →
  may_follow (last_vote s t) view h ∧ s' = set_last_vote s t (Some (view, h)).
Proof.
  unfold check_and_record_vote, may_follow.
  destruct (last_vote s t) as [[v' h']|] eqn:E; [|by intros [= <-]].
  destruct (N.ltb_spec view v'); [done|]. destruct (N.eqb_spec v' view) as [->|].
  - intros [= <- Hh]. bool_prop. subst. split; [by right|].
    destruct s, t; simpl in *; by subst.
  - intros [= <-]. split; [left; lia|done].
Qed.

Lemma check_and_record_vote_false s t view h s' :
  check_and_record_vote s t view h = (s', false) →
  s' = s ∧ ∃ v' h', last_vote s t = Some (v', h') ∧ (view < v' ∨ (v' = view ∧ h' ≠ h)).
Proof.
  unfold check_and_record_vote. destruct (last_vote s t) as [[v' h']|]; [|done].
  destruct (N.ltb_spec view v'); [intros [= <-]; by eauto 8|].
  destruct (N.eqb_spec v' view) as [->|]; [|done]. intros [= <- Hh]. bool_prop. eauto 8.
Qed.

(** ** Ranks *)

Definition opt_view (o : option QuorumCertificate) : option ViewNumber := qc_view <$> o.

(** A certificate's rank, with no certificate below every view. *)
Definition rank_le (o o' : option QuorumCertificate) : Prop :=
  match o, o' with
  | None, _ => True
  | Some a, Some b => qc_view a ≤ qc_view b
  | Some _, None => False
  end.

#[global] Instance rank_le_preorder : PreOrder rank_le.
Proof.
  split.
  - intros [a|]; simpl; [lia|done].
  - intros [a|] [b|] [c|]; simpl; try done. lia.
Qed.

Lemma update_highest_qc_rank s qc :
  rank_le (cs_highest_qc s) (cs_highest_qc (update_highest_qc s qc)) ∧
  rank_le (Some qc) (cs_highest_qc (update_highest_qc s qc)).
Proof.
  unfold update_highest_qc, dominated. destruct (cs_highest_qc s) as [h|] eqn:E; simpl.
  - destruct (N.ltb_spec (qc_view h) (qc_view qc)); simpl; rewrite ?E; simpl; lia.
  - split; [done|lia].
Qed.

Lemma update_locked_qc_rank s qc :
  rank_le (cs_locked_qc s) (cs_locked_qc (update_locked_qc s qc)) ∧
  rank_le (Some qc) (cs_locked_qc (update_locked_qc s qc)).
Proof.
  unfold update_locked_qc, dominated. destruct (cs_locked_qc s) as [h|] eqn:E; simpl.
  - destruct (N.ltb_spec (qc_view h) (qc_view qc)); simpl; rewrite ?E; simpl; lia.
  - split; [done|lia].
Qed.
