(* ===== verification/Liveness.v ===== *)
(** * Liveness tracking ([hotmint-consensus/src/liveness.rs])

    Counts of missed commit-certificate signatures per validator and the
    offline report at epoch boundaries. *)

From S2P Require Import Prelude Types ValidatorSet.

Record LivenessTracker : Type := mkLivenessTracker {
  lt_missed : gmap N N;
  lt_total_commits : N;
  lt_threshold_num : N;
  lt_threshold_den : N;
}.

Definition lt_new : LivenessTracker := mkLivenessTracker ∅ 0 50 100.

(** The loop over the validators with their indices. *)
Fixpoint record_missed (missed : gmap N N) (signers : list bool) (i : nat)
    (validators : list ValidatorInfo) : gmap N N :=
  match validators with
  | [] => missed
  | vi :: rest =>
      let signed := default false (signers !! i) in
      let missed :=
        if signed then missed
        else <[vi_id vi := default 0 (missed !! vi_id vi) +w 1]> missed in
      record_missed missed signers (S i) rest
  end.

Definition record_commit (t : LivenessTracker) (vs : ValidatorSet) (signers : list bool)
    : LivenessTracker :=
  mkLivenessTracker (record_missed (lt_missed t) signers 0 (vs_validators vs))
    (lt_total_commits t +w 1) (lt_threshold_num t) (lt_threshold_den t).

(** [missed * threshold_den > threshold_num * total_commits], in [u64] *)
Definition is_offline (t : LivenessTracker) (missed : N) : bool :=
  (lt_threshold_num t * lt_total_commits t) mod (u64_max + 1) <?
  (missed * lt_threshold_den t) mod (u64_max + 1).

(** Insertion into a list sorted by id, for [sort_by_key]. *)
Fixpoint insert_by_id (x : ValidatorId * N * N) (l : list (ValidatorId * N * N))
    : list (ValidatorId * N * N) :=
  match l with
  | [] => [x]
  | y :: rest => if x.1.1 <=? y.1.1 then x :: y :: rest else y :: insert_by_id x rest
  end.

Definition sort_by_id (l : list (ValidatorId * N * N)) : list (ValidatorId * N * N) :=
  foldr insert_by_id [] l.

Definition offline_validators (t : LivenessTracker) : list (ValidatorId * N * N) :=
  if lt_total_commits t =? 0 then []
  else sort_by_id
         (omap (λ '(id, missed),
                  if is_offline t missed then Some (id, missed, lt_total_commits t) else None)
            (map_to_list (lt_missed t))).

Definition lt_reset (t : LivenessTracker) : LivenessTracker :=
  mkLivenessTracker ∅ 0 (lt_threshold_num t) (lt_threshold_den t).

Definition lt_stats (t : LivenessTracker) (id : ValidatorId) : N * N :=
  (default 0 (lt_missed t !! id), lt_total_commits t).

(** ** What the tracker counts *)

(** How many of the recorded bitfields lack the bit of index [i]. *)
Definition missed_in (history : list (list bool)) (i : nat) : nat :=
  length (filter (λ s, default false (s !! i) = false) history).

Definition record_all (t : LivenessTracker) (vs : ValidatorSet) (history : list (list bool))
    : LivenessTracker :=
  foldl (λ t s, record_commit t vs s) t history.

Lemma record_missed_other missed signers i l id :
  id ∉ vi_id <$> l → record_missed missed signers i l !! id = missed !! id.
Proof.
  revert missed i. induction l as [|v l IH]; intros missed i; csimpl; [done|].
  rewrite not_elem_of_cons. intros [? ?]. rewrite IH by done.
  destruct (default false (signers !! i)); [done|]. by rewrite lookup_insert_ne.
Qed.

Lemma record_missed_lookup missed signers i l j v :
  NoDup (vi_id <$> l) → l !! j = Some v →
  default 0 (record_missed missed signers i l !! vi_id v) =
    if default false (signers !! (i + j)%nat) then default 0 (missed !! vi_id v)
    else default 0 (missed !! vi_id v) +w 1.
Proof.
  revert missed i j. induction l as [|w l IH]; intros missed i j; csimpl; [done|].
  intros [Hw Hnd]%NoDup_cons Hj. destruct j as [|j]; simpl in Hj.
  - injection Hj as ->. rewrite record_missed_other by done. rewrite Nat.add_0_r.
    destruct (default false (signers !! i)); [done|]. by rewrite lookup_insert_eq.
  - rewrite (IH _ (S i) j) by done. replace (S i + j)%nat with (i + S j)%nat by lia.
    assert (vi_id w ≠ vi_id v).
    { intros E. apply Hw. rewrite E. apply list_elem_of_fmap. exists v.
      split; [done|]. by eapply list_elem_of_lookup_2. }
    destruct (default false (signers !! i)); [done|]. by rewrite lookup_insert_ne.
Qed.

Lemma record_all_counts t vs history i v :
  NoDup (vi_id <$> vs_validators vs) → vs_validators vs !! i = Some v →
  lt_total_commits t + N.of_nat (length history) ≤ u64_max →
  default 0 (lt_missed t !! vi_id v) ≤ lt_total_commits t →
  let t' := record_all t vs history in
  lt_total_commits t' = lt_total_commits t + N.of_nat (length history) ∧
  lt_threshold_num t' = lt_threshold_num t ∧ lt_threshold_den t' = lt_threshold_den t ∧
  default 0 (lt_missed t' !! vi_id v) =
    default 0 (lt_missed t !! vi_id v) + N.of_nat (missed_in history i).
Proof.
  intros Hnd Hi. revert t. induction history as [|s history IH]; intros t Hmax Hle; simpl.
  { unfold missed_in. simpl. split_and!; [lia|done|done|lia]. }
  simpl in Hmax.
  assert (lt_total_commits (record_commit t vs s) = lt_total_commits t + 1) as Ht.
  { simpl. apply wrapping_add64_small. unfold u64_max in *. lia. }
  assert (default 0 (lt_missed (record_commit t vs s) !! vi_id v) =
          default 0 (lt_missed t !! vi_id v) + (if default false (s !! i) then 0 else 1)) as Hm.
  { simpl. rewrite (record_missed_lookup _ _ 0 _ i v) by done. rewrite Nat.add_0_l.
    destruct (default false (s !! i)); [lia|]. apply wrapping_add64_small. unfold u64_max in *. lia. }
  destruct (IH (record_commit t vs s)) as (H1&H2&H3&H4).
  - rewrite Ht. lia.
  - rewrite Ht, Hm. destruct (default false (s !! i)); lia.
  - split_and!; [rewrite H1, Ht; lia|done|done|].
    rewrite H4, Hm. unfold missed_in. rewrite filter_cons.
    destruct (default false (s !! i)); simpl; lia.
Qed.

Lemma elem_of_insert_by_id x y l : x ∈ insert_by_id y l ↔ x = y ∨ x ∈ l.
Proof.
  induction l as [|z l IH]; simpl; [set_solver|]. case_match; [set_solver|].
  rewrite !elem_of_cons, IH. naive_solver.
Qed.

Lemma elem_of_sort_by_id x l : x ∈ sort_by_id l ↔ x ∈ l.
Proof.
  unfold sort_by_id. induction l as [|y l IH]; simpl; [done|].
  by rewrite elem_of_insert_by_id, IH, elem_of_cons.
Qed.

Lemma elem_of_offline t id missed total :
  (id, missed, total) ∈ offline_validators t ↔
    lt_total_commits t ≠ 0 ∧ lt_missed t !! id = Some missed ∧
    is_offline t missed = true ∧ total = lt_total_commits t.
Proof.
  unfold offline_validators. destruct (N.eqb_spec (lt_total_commits t) 0) as [E|E].
  { rewrite elem_of_nil. naive_solver. }
  rewrite elem_of_sort_by_id, list_elem_of_omap. split.
  - intros ([id' m']&Hin&Hx). apply elem_of_map_to_list in Hin.
    destruct (is_offline t m') eqn:Ho; naive_solver.
  - intros (_&Hl&Ho&->). exists (id, missed). by rewrite elem_of_map_to_list, Ho.
Qed.

(** ** Properties *)

(** After recording a history of commit certificates from a fresh tracker,
    a validator is reported offline exactly when it missed more than half of
    them, with its exact counts (for histories short enough that the
    percentages do not overflow). *)
Lemma offline_iff_majority_missed vs history i v :
  NoDup (vi_id <$> vs_validators vs) → vs_validators vs !! i = Some v →
  100 * N.of_nat (length history) ≤ u64_max →
  (∃ missed total, (vi_id v, missed, total) ∈ offline_validators (record_all lt_new vs history)) ↔
  N.of_nat (length history) < 2 * N.of_nat (missed_in history i).
Proof.
  intros Hnd Hi Hmax.
  destruct (record_all_counts lt_new vs history i v Hnd Hi) as (H1&H2&H3&H4).
  { simpl. unfold u64_max in *. lia. }
  { simpl. by rewrite lookup_empty. }
  set (t := record_all lt_new vs history) in *. simpl in *. rewrite lookup_empty in H4. simpl in H4.
  assert ((missed_in history i ≤ length history)%nat) as Hle by apply length_filter.
  setoid_rewrite elem_of_offline. unfold is_offline. rewrite H1, H2, H3.
  rewrite N.mod_small by (unfold u64_max in *; lia). split.
  - intros (m&total&_&Hm&Ho&_). rewrite Hm in H4. simpl in H4. subst m.
    rewrite N.mod_small in Ho by (unfold u64_max in *; lia). bool_prop. lia.
  - intros Hlt. destruct (lt_missed t !! vi_id v) as [m|] eqn:Em; simpl in H4; [|lia].
    exists m, (N.of_nat (length history)). subst m.
    rewrite N.mod_small by (unfold u64_max in *; lia). split_and!; [lia|done| |done].
    apply N.ltb_lt. lia.
Qed.

Lemma offline_iff_majority_missed_witness :
  let history := [[true; false; true; true]; [true; false; true; true]; [true; true; true; false]] in
  offline_validators (record_all lt_new sample_set history) = [(3, 2, 3)] ∧
  ∃ missed total, (3, missed, total) ∈ offline_validators (record_all lt_new sample_set history).
Proof.
  intros history. split; [vm_compute; reflexivity|].
  apply (offline_iff_majority_missed sample_set history 1 (mkValidatorInfo 3 (x01 :: zeros 31) 2)).
  - apply sample_set_wf.
  - reflexivity.
  - vm_compute. discriminate.
  - vm_compute. reflexivity.
Defined.
