(* ===== verification/BlockStore.v ===== *)
(** * Block store ([hotmint-consensus/src/store.rs])

    The [BlockStore] trait as an interface class with the laws the engine
    relies on, and [MemoryBlockStore] as an instance.  Over every sequence of
    operations a height with a commit certificate serves the certified block. *)

From S2P Require Import Prelude Types.

(** ** The trait *)

Class BlockStore (St : Type) : Type := {
  put_block : St → Block → St;
  get_block : St → BlockHash → option Block;
  get_block_by_height : St → Height → option Block;
  put_commit_qc : St → Height → QuorumCertificate → St;
  get_commit_qc : St → Height → option QuorumCertificate;
  put_tx_index : St → bytes → Height → N → St;
  get_tx_location : St → bytes → option (Height * N);
  put_block_results : St → Height → EndBlockResponse → St;
  get_block_results : St → Height → option EndBlockResponse;
  tip_height : St → Height;
  get_blocks_in_range : St → Height → Height → list Block;
}.

(** The default [get_blocks_in_range]: a [while] loop over the heights, with
    fuel for the iterations. *)
Fixpoint blocks_in_range_loop `{BlockStore St} (fuel : nat) (s : St) (h to : Height)
    (blocks : list Block) : option (list Block) :=
  match fuel with
  | O => None
  | S fuel =>
      if h <=? to then
        let blocks := match get_block_by_height s h with
                      | Some b => blocks ++ [b]
                      | None => blocks
                      end in
        blocks_in_range_loop fuel s (h +w 1) to blocks
      else Some blocks
  end.

(** What the engine and the sync code rely on.  [st_ok] is the store's
    invariant; a block may only be overwritten by one with its own height. *)
Class BlockStoreLaws (St : Type) `{BlockStore St} : Type := {
  st_ok : St → Prop;
  put_block_ok : ∀ s b,
    st_ok s → (∀ b', get_block s (b_hash b) = Some b' → b_height b' = b_height b) →
    st_ok (put_block s b);
  put_commit_qc_ok : ∀ s h q, st_ok s → st_ok (put_commit_qc s h q);
  put_tx_index_ok : ∀ s x h i, st_ok s → st_ok (put_tx_index s x h i);
  put_block_results_ok : ∀ s h r, st_ok s → st_ok (put_block_results s h r);
  get_put_block : ∀ s b h,
    get_block (put_block s b) h = if decide (b_hash b = h) then Some b else get_block s h;
  get_put_commit_qc : ∀ s h q x, get_block (put_commit_qc s h q) x = get_block s x;
  get_put_tx_index : ∀ s x h i y, get_block (put_tx_index s x h i) y = get_block s y;
  get_put_block_results : ∀ s h r y, get_block (put_block_results s h r) y = get_block s y;
  commit_qc_put_block : ∀ s b h, get_commit_qc (put_block s b) h = get_commit_qc s h;
  commit_qc_put_commit_qc : ∀ s h q h',
    get_commit_qc (put_commit_qc s h q) h' = if decide (h = h') then Some q else get_commit_qc s h';
  commit_qc_put_tx_index : ∀ s x h i h', get_commit_qc (put_tx_index s x h i) h' = get_commit_qc s h';
  commit_qc_put_block_results : ∀ s h r h',
    get_commit_qc (put_block_results s h r) h' = get_commit_qc s h';
  get_block_hash : ∀ s h b, st_ok s → get_block s h = Some b → b_hash b = h;
  by_height_get : ∀ s n b,
    st_ok s → get_block_by_height s n = Some b →
    b_height b = n ∧ get_block s (b_hash b) = Some b;
  (* a certified height is pinned to the certified block *)
  by_height_put_commit_qc : ∀ s q b,
    st_ok s → get_block s (qc_block_hash q) = Some b →
    get_block_by_height (put_commit_qc s (b_height b) q) (b_height b) = Some b;
  by_height_put_tx_index : ∀ s x h i n,
    get_block_by_height (put_tx_index s x h i) n = get_block_by_height s n;
  by_height_put_block_results : ∀ s h r n,
    get_block_by_height (put_block_results s h r) n = get_block_by_height s n;
  by_height_put_commit_qc_ne : ∀ s h q n,
    h ≠ n → get_block_by_height (put_commit_qc s h q) n = get_block_by_height s n;
}.

(** A store that keeps the index of the transactions; the trait's defaults keep
    none. *)
Class TxIndexLaws (St : Type) `{BlockStore St} : Prop := {
  tx_put_block : ∀ s b x, get_tx_location (put_block s b) x = get_tx_location s x;
  tx_put_commit_qc : ∀ s h q x, get_tx_location (put_commit_qc s h q) x = get_tx_location s x;
  tx_put_tx_index : ∀ s x h i y,
    get_tx_location (put_tx_index s x h i) y =
      if decide (x = y) then Some (h, i) else get_tx_location s y;
  tx_put_block_results : ∀ s h r x, get_tx_location (put_block_results s h r) x = get_tx_location s x;
}.

(** ** [MemoryBlockStore] *)

Record MemoryBlockStore : Type := mkMemoryBlockStore {
  ms_by_hash : gmap bytes Block;
  ms_by_height : gmap N bytes;
  ms_commit_qcs : gmap N QuorumCertificate;
}.

Definition mem_put_block (s : MemoryBlockStore) (block : Block) : MemoryBlockStore :=
  let hash := b_hash block in
  let height := b_height block in
  let by_height :=
    match ms_commit_qcs s !! height with
    | Some commit_qc =>
        if bool_decide (qc_block_hash commit_qc = hash)
        then <[height := hash]> (ms_by_height s) else ms_by_height s
    | None => <[height := hash]> (ms_by_height s)
    end in
  mkMemoryBlockStore (<[hash := block]> (ms_by_hash s)) by_height (ms_commit_qcs s).

Definition mem_get_block (s : MemoryBlockStore) (hash : BlockHash) : option Block :=
  ms_by_hash s !! hash.

Definition mem_get_block_by_height (s : MemoryBlockStore) (h : Height) : option Block :=
  hash ← ms_by_height s !! h; ms_by_hash s !! hash.

(** [by_height.range(from..=to)] visits the keys of the range in order. *)
Definition mem_get_blocks_in_range (s : MemoryBlockStore) (from to : Height) : list Block :=
  if to <? from then []
  else omap (λ h, hash ← ms_by_height s !! h; ms_by_hash s !! hash) (seqN from (to - from + 1)).

(** [keys().next_back()]: the greatest key. *)
Definition mem_tip_height (s : MemoryBlockStore) : Height :=
  map_fold (λ k _ m, N.max k m) 0 (ms_by_height s).

Definition mem_put_commit_qc (s : MemoryBlockStore) (height : Height) (qc : QuorumCertificate)
    : MemoryBlockStore :=
  let by_height :=
    match ms_by_hash s !! qc_block_hash qc with
    | Some block =>
        if b_height block =? height then <[height := qc_block_hash qc]> (ms_by_height s)
        else ms_by_height s
    | None => ms_by_height s
    end in
  mkMemoryBlockStore (ms_by_hash s) by_height (<[height := qc]> (ms_commit_qcs s)).

Definition mem_get_commit_qc (s : MemoryBlockStore) (height : Height) : option QuorumCertificate :=
  ms_commit_qcs s !! height.

Definition mem_new : MemoryBlockStore := mem_put_block (mkMemoryBlockStore ∅ ∅ ∅) Block_genesis.

(** The transaction index and the block results keep the trait's defaults. *)
#[global] Instance memory_block_store : BlockStore MemoryBlockStore := {|
  put_block := mem_put_block;
  get_block := mem_get_block;
  get_block_by_height := mem_get_block_by_height;
  put_commit_qc := mem_put_commit_qc;
  get_commit_qc := mem_get_commit_qc;
  put_tx_index := λ s _ _ _, s;
  get_tx_location := λ _ _, None;
  put_block_results := λ s _ _, s;
  get_block_results := λ _ _, None;
  tip_height := mem_tip_height;
  get_blocks_in_range := mem_get_blocks_in_range;
|}.

(** Every entry is stored under its own hash, and every height names a stored
    block of that height. *)
Record mem_ok (s : MemoryBlockStore) : Prop := {
  mo_hash : ∀ h b, ms_by_hash s !! h = Some b → b_hash b = h;
  mo_height : ∀ n h, ms_by_height s !! n = Some h →
    ∃ b, ms_by_hash s !! h = Some b ∧ b_height b = n;
}.

Lemma mem_put_block_ok s b :
  mem_ok s → (∀ b', mem_get_block s (b_hash b) = Some b' → b_height b' = b_height b) →
  mem_ok (mem_put_block s b).
Proof.
  intros [Hh Hn] Hb. split.
  - intros h b'. simpl. rewrite lookup_insert_Some. naive_solver.
  - intros n h Hlk.
    assert ((n = b_height b ∧ h = b_hash b) ∨ ms_by_height s !! n = Some h) as [[-> ->]|Hold].
    { simpl in Hlk. repeat case_match; simplify_eq;
        rewrite ?lookup_insert_Some in Hlk; naive_solver. }
    + exists b. simpl. by rewrite lookup_insert_eq.
    + destruct (Hn n h Hold) as (b'&Hb'&<-). simpl.
      destruct (decide (b_hash b = h)) as [<-|Hne].
      * exists b. rewrite lookup_insert_eq. split; [done|]. symmetry. by apply Hb.
      * exists b'. by rewrite lookup_insert_ne.
Qed.

Lemma mem_put_commit_qc_ok s h q : mem_ok s → mem_ok (mem_put_commit_qc s h q).
Proof.
  intros [Hh Hn]. split; simpl; [done|]. intros n x Hx.
  destruct (ms_by_hash s !! qc_block_hash q) as [b|] eqn:E; [|by auto].
  destruct (N.eqb_spec (b_height b) h) as [<-|]; [|by auto].
  apply lookup_insert_Some in Hx as [[<- <-]|[_ ?]]; eauto.
Qed.

Lemma mem_new_ok : mem_ok mem_new.
Proof.
  apply mem_put_block_ok; [|done]. split; simpl; intros ? ?; by rewrite lookup_empty.
Qed.

#[global] Program Instance memory_block_store_laws : BlockStoreLaws MemoryBlockStore :=
  {| st_ok := mem_ok |}.
Next Obligation. intros. by apply mem_put_block_ok. Qed.
Next Obligation. intros. by apply mem_put_commit_qc_ok. Qed.
Next Obligation. done. Qed.
Next Obligation. done. Qed.
Next Obligation.
  intros s b h. simpl. unfold mem_get_block. simpl.
  case_decide as E; [by rewrite E, lookup_insert_eq|by rewrite lookup_insert_ne].
Qed.
Next Obligation. done. Qed.
Next Obligation. done. Qed.
Next Obligation. done. Qed.
Next Obligation. done. Qed.
Next Obligation.
  intros s h q h'. simpl. unfold mem_get_commit_qc. simpl.
  case_decide as E; [by rewrite E, lookup_insert_eq|by rewrite lookup_insert_ne].
Qed.
Next Obligation. done. Qed.
Next Obligation. done. Qed.
Next Obligation. intros s h b [Hh _]. apply Hh. Qed.
Next Obligation.
  intros s n b [Hh Hn] (h&Hlk&Hb)%bind_Some. destruct (Hn n h Hlk) as (b'&Hb'&<-).
  simplify_eq. split; [done|]. simpl. unfold mem_get_block. by rewrite (Hh h b).
Qed.
Next Obligation.
  intros s q b Hok Hb. simpl in *. unfold mem_get_block_by_height, mem_get_block in *. simpl.
  rewrite Hb, N.eqb_refl, lookup_insert_eq. simpl. done.
Qed.
Next Obligation. done. Qed.
Next Obligation. done. Qed.
Next Obligation.
  intros s h q n Hne. simpl. unfold mem_get_block_by_height. simpl.
  repeat case_match; rewrite ?lookup_insert_ne by done; done.
Qed.

(** ** Sequences of operations *)

Inductive store_op : Type :=
| OpPutBlock (b : Block)
| OpPutCommitQc (h : Height) (q : QuorumCertificate)
| OpPutTxIndex (tx_hash : bytes) (h : Height) (i : N)
| OpPutBlockResults (h : Height) (r : EndBlockResponse).

Definition run_op `{BlockStore St} (s : St) (o : store_op) : St :=
  match o with
  | OpPutBlock b => put_block s b
  | OpPutCommitQc h q => put_commit_qc s h q
  | OpPutTxIndex x h i => put_tx_index s x h i
  | OpPutBlockResults h r => put_block_results s h r
  end.

(** The last block put under a hash, the last block put at a height and the last
    certificate put at a height. *)
Definition last_block (hash : BlockHash) (os : list store_op) : option Block :=
  last (omap (λ o, match o with
                   | OpPutBlock b => if decide (b_hash b = hash) then Some b else None
                   | _ => None end) os).

Definition last_block_at (n : Height) (os : list store_op) : option Block :=
  last (omap (λ o, match o with
                   | OpPutBlock b => if decide (b_height b = n) then Some b else None
                   | _ => None end) os).

Definition last_commit_qc (n : Height) (os : list store_op) : option QuorumCertificate :=
  last (omap (λ o, match o with
                   | OpPutCommitQc h q => if decide (h = n) then Some q else None
                   | _ => None end) os).

(** A run from the empty store; [mem_new] starts with the genesis block. *)
Definition mem_run (os : list store_op) : MemoryBlockStore :=
  foldl run_op (mkMemoryBlockStore ∅ ∅ ∅) os.

Lemma mem_run_new os : foldl run_op mem_new os = mem_run (OpPutBlock Block_genesis :: os).
Proof. done. Qed.

Lemma mem_run_snoc os o : mem_run (os ++ [o]) = run_op (mem_run os) o.
Proof. unfold mem_run. by rewrite foldl_snoc. Qed.

Lemma mem_run_by_hash os h : ms_by_hash (mem_run os) !! h = last_block h os.
Proof.
  unfold last_block. induction os as [|o os IH] using rev_ind; [apply lookup_empty|].
  rewrite mem_run_snoc, omap_app. destruct o as [b|n q|x n i|n r]; csimpl; rewrite ?app_nil_r; try done.
  case_decide as E; csimpl.
  - by rewrite last_snoc, <- E, lookup_insert_eq.
  - by rewrite app_nil_r, lookup_insert_ne.
Qed.

Lemma mem_run_commit_qcs os n : ms_commit_qcs (mem_run os) !! n = last_commit_qc n os.
Proof.
  unfold last_commit_qc. induction os as [|o os IH] using rev_ind; [apply lookup_empty|].
  rewrite mem_run_snoc, omap_app. destruct o as [b|m q|x m i|m r]; csimpl; rewrite ?app_nil_r; try done.
  case_decide as E; csimpl.
  - by rewrite last_snoc, E, lookup_insert_eq.
  - by rewrite app_nil_r, lookup_insert_ne.
Qed.

(** A height whose certified block is stored, at that height, is indexed to it. *)
Definition mem_pinned (s : MemoryBlockStore) : Prop :=
  ∀ n q b, ms_commit_qcs s !! n = Some q → ms_by_hash s !! qc_block_hash q = Some b →
    b_height b = n → ms_by_height s !! n = Some (qc_block_hash q).

Lemma mem_put_block_pinned s b : mem_pinned s → mem_pinned (mem_put_block s b).
Proof.
  intros Hp n q c Hq Hc Hn. simpl in *. destruct (decide (b_hash b = qc_block_hash q)) as [E|E].
  - rewrite E, lookup_insert_eq in Hc. simplify_eq. rewrite Hq, bool_decide_true by done.
    by rewrite E, lookup_insert_eq.
  - rewrite lookup_insert_ne in Hc by done. destruct (decide (b_height b = n)) as [<-|Hne].
    + rewrite Hq, bool_decide_false by congruence. by eapply Hp.
    + repeat case_match; rewrite ?lookup_insert_ne by done; by eapply Hp.
Qed.

Lemma mem_put_commit_qc_pinned s h q : mem_pinned s → mem_pinned (mem_put_commit_qc s h q).
Proof.
  intros Hp n q' c Hq Hc Hn. simpl in *. destruct (decide (h = n)) as [->|Hne].
  - rewrite lookup_insert_eq in Hq. simplify_eq. by rewrite Hc, N.eqb_refl, lookup_insert_eq.
  - rewrite lookup_insert_ne in Hq by done. repeat case_match; rewrite ?lookup_insert_ne by done; by eapply Hp.
Qed.

Lemma mem_run_pinned os : mem_pinned (mem_run os).
Proof.
  induction os as [|o os IH] using rev_ind; [intros ??? Hq; unfold mem_run in Hq; simpl in Hq; by rewrite lookup_empty in Hq|].
  rewrite mem_run_snoc. destruct o; [by apply mem_put_block_pinned|by apply mem_put_commit_qc_pinned|done..].
Qed.

(** Without a certificate a height follows the last block put there. *)
Lemma mem_run_uncertified os n :
  last_commit_qc n os = None → ms_by_height (mem_run os) !! n = b_hash <$> last_block_at n os.
Proof.
  unfold last_commit_qc, last_block_at. induction os as [|o os IH] using rev_ind; [intros _; apply lookup_empty|].
  rewrite !omap_app, mem_run_snoc. pose proof (mem_run_commit_qcs os n) as Hc. unfold last_commit_qc in Hc.
  destruct o as [b|m q|x m i|m r]; csimpl; rewrite ?app_nil_r; try by apply IH.
  - intros Hn. rewrite Hn in Hc. case_decide as E; csimpl.
    + by rewrite E, Hc, last_snoc, lookup_insert_eq.
    + rewrite app_nil_r, <- IH by done. repeat case_match; by rewrite ?lookup_insert_ne.
  - case_decide as E; csimpl; [by rewrite last_snoc|]. rewrite app_nil_r. intros Hn. rewrite <- IH by done.
    repeat case_match; by rewrite ?lookup_insert_ne.
Qed.

(** A run that keeps what it put under a hash, and only certifies that hash at a
    height, changes neither. *)
Lemma last_block_kept h b os os' :
  last_block h os = Some b → (∀ c, OpPutBlock c ∈ os' → b_hash c = h → c = b) →
  last_block h (os ++ os') = Some b.
Proof.
  unfold last_block. intros Hb. induction os' as [|o os' IH] using rev_ind; intros Hc; [by rewrite app_nil_r|].
  rewrite app_assoc, omap_app.
  assert (last_block h (os ++ os') = Some b) as Hl.
  { apply IH. intros c Hin. apply Hc. set_solver. }
  unfold last_block in Hl. destruct o as [c|m q|x m i|m r]; csimpl; rewrite ?app_nil_r; try done.
  case_decide as E; csimpl; [|by rewrite app_nil_r]. rewrite last_snoc. f_equal. apply Hc; [set_solver|done].
Qed.

Lemma last_commit_qc_kept n h q os os' :
  last_commit_qc n os = Some q → qc_block_hash q = h →
  (∀ q', OpPutCommitQc n q' ∈ os' → qc_block_hash q' = h) →
  ∃ q', last_commit_qc n (os ++ os') = Some q' ∧ qc_block_hash q' = h.
Proof.
  unfold last_commit_qc. intros Hq Hh. induction os' as [|o os' IH] using rev_ind; intros Hc.
  { exists q. by rewrite app_nil_r. }
  rewrite app_assoc, omap_app. destruct IH as (q1&Hq1&Hh1).
  { intros q' Hin. apply Hc. set_solver. }
  destruct o as [c|m q'|x m i|m r]; csimpl; rewrite ?app_nil_r; try by exists q1.
  case_decide as E; csimpl; [|rewrite app_nil_r; by exists q1]. exists q'. rewrite last_snoc. split; [done|].
  apply Hc. subst m. set_solver.
Qed.

Lemma blocks_in_range_loop_spec `{BlockStore St} fuel s h to blocks :
  to < u64_max → h ≤ to + 1 → (N.to_nat (to + 1 - h) < fuel)%nat →
  blocks_in_range_loop fuel s h to blocks =
    Some (blocks ++ omap (get_block_by_height s) (seqN h (to + 1 - h))).
Proof.
  intros Hto. revert h blocks. induction fuel as [|fuel IH]; intros h blocks Hh Hf; [lia|].
  simpl. destruct (N.leb_spec h to).
  - rewrite wrapping_add64_small by (unfold u64_max in *; lia). rewrite IH by lia.
    replace (to + 1 - h) with (1 + (to + 1 - (h + 1))) by lia. rewrite seqN_app, omap_app.
    replace (seqN h 1) with [h] by (unfold seqN; simpl; by rewrite N.add_0_r). csimpl.
    destruct (get_block_by_height s h); simpl; by rewrite <- ?app_assoc.
  - replace (to + 1 - h) with 0 by lia. by rewrite app_nil_r.
Qed.

(** ** Properties *)

(** C7: the in-memory store after any sequence of operations on a new store,
    whatever blocks and certificates it was given.  Blocks and certificates are
    the last ones put under their hash and height (the genesis block first); a
    height whose certificate names a stored block of that height serves exactly
    that block, whatever other blocks were put there, before or after the
    certificate; a height without a certificate serves the last block put there.
    So a certified height stays pinned to its block through every sequence of
    operations that puts no other block under its hash and no certificate of
    another block at that height; a certificate of another stored block moves
    the height to that block. *)
Theorem certified_height_stays_pinned os :
  let s := foldl run_op mem_new os in
  let puts := OpPutBlock Block_genesis :: os in
  (∀ h, mem_get_block s h = last_block h puts) ∧
  (∀ n, mem_get_commit_qc s n = last_commit_qc n puts) ∧
  (∀ n q b, mem_get_commit_qc s n = Some q → mem_get_block s (qc_block_hash q) = Some b →
     b_height b = n →
     mem_get_block_by_height s n = Some b ∧
     ∀ os', (∀ c, OpPutBlock c ∈ os' → b_hash c = qc_block_hash q → c = b) →
       (∀ q', OpPutCommitQc n q' ∈ os' → qc_block_hash q' = qc_block_hash q) →
       mem_get_block_by_height (foldl run_op s os') n = Some b) ∧
  (∀ n, mem_get_commit_qc s n = None →
     mem_get_block_by_height s n = (b ← last_block_at n puts; mem_get_block s (b_hash b))) ∧
  (∀ n q b, mem_get_block s (qc_block_hash q) = Some b → b_height b = n →
     mem_get_block_by_height (run_op s (OpPutCommitQc n q)) n = Some b).
Proof.
  intros s puts. unfold s. rewrite mem_run_new. fold puts.
  assert (∀ os' n q b, last_commit_qc n os' = Some q → last_block (qc_block_hash q) os' = Some b →
            b_height b = n → mem_get_block_by_height (mem_run os') n = Some b) as Hserve.
  { intros os' n q b Hq Hb Hn. rewrite <- mem_run_commit_qcs in Hq. rewrite <- mem_run_by_hash in Hb.
    unfold mem_get_block_by_height. by rewrite (mem_run_pinned os' n q b). }
  unfold mem_get_block, mem_get_commit_qc. split_and!.
  - apply mem_run_by_hash.
  - apply mem_run_commit_qcs.
  - intros n q b. rewrite mem_run_commit_qcs, mem_run_by_hash. intros Hq Hb Hn. split; [by eapply Hserve|].
    intros os' Hblocks Hqcs. destruct (last_commit_qc_kept n _ q puts os' Hq eq_refl Hqcs) as (q'&Hq'&E).
    unfold mem_run. rewrite <- foldl_app. eapply Hserve; [done| |done]. rewrite E. by apply last_block_kept.
  - intros n. rewrite mem_run_commit_qcs. intros Hn. unfold mem_get_block_by_height.
    rewrite mem_run_uncertified by done. by destruct (last_block_at n puts).
  - intros n q b. rewrite mem_run_by_hash. intros Hb Hn. rewrite <- mem_run_snoc.
    apply (Hserve _ n q b); [| |done].
    + unfold last_commit_qc. rewrite omap_app. csimpl. by rewrite decide_True, last_snoc.
    + unfold last_block. rewrite omap_app. csimpl. by rewrite app_nil_r.
Qed.

Definition sample_block1 : Block :=
  mkBlock 1 GENESIS_HASH 1 7 5 [] GENESIS_HASH [] (x01 :: zeros 31).
Definition sample_fork1 : Block :=
  mkBlock 1 GENESIS_HASH 2 3 6 [] GENESIS_HASH [] (x02 :: zeros 31).
Definition sample_qc1 : QuorumCertificate := mkQC (x01 :: zeros 31) 1 (mkAgg [] []) 0.

(** A fork put beside the certified block does not move the height; its own
    certificate does. *)
Definition sample_fork_qc : QuorumCertificate := mkQC (x02 :: zeros 31) 2 (mkAgg [] []) 0.

Lemma certified_height_stays_pinned_witness :
  let s := foldl run_op mem_new [OpPutBlock sample_block1; OpPutCommitQc 1 sample_qc1; OpPutBlock sample_fork1] in
  mem_get_block_by_height s 1 = Some sample_block1 ∧
  mem_get_block_by_height (run_op s (OpPutCommitQc 1 sample_fork_qc)) 1 = Some sample_fork1.
Proof.
  destruct (certified_height_stays_pinned
    [OpPutBlock sample_block1; OpPutCommitQc 1 sample_qc1; OpPutBlock sample_fork1]) as (_&_&Hc&_&Hm).
  split.
  - apply (Hc 1 sample_qc1 sample_block1); vm_compute; reflexivity.
  - apply (Hm 1 sample_fork_qc sample_fork1); vm_compute; reflexivity.
Defined.

(** The range query of [MemoryBlockStore] returns exactly what the trait's
    default height-by-height loop returns (with fuel for one iteration per
    height), for every range that ends below the maximal height. *)
Lemma mem_range_equals_default (s : MemoryBlockStore) from to fuel :
  to < u64_max → (N.to_nat (to + 1 - from) < fuel)%nat →
  blocks_in_range_loop fuel s from to [] = Some (mem_get_blocks_in_range s from to).
Proof.
  intros Hto Hf. unfold mem_get_blocks_in_range. destruct (N.ltb_spec to from).
  - destruct fuel as [|fuel]; [lia|]. simpl. by destruct (N.leb_spec from to); [lia|].
  - rewrite blocks_in_range_loop_spec by lia. simpl. do 2 f_equal.
    replace (to + 1 - from) with (to - from + 1) by lia. done.
Qed.
