(* ===== verification/VsdbStore.v ===== *)
(** * The persistent block store

    [hotmint-storage/src/block_store.rs].  The database's ordered maps are an
    interface: a map behaves as its contents, ranges and the last entry come in
    key order.  Over any maps that do so the store behaves as the in-memory one
    and obeys the laws the engine relies on; the metadata file brings the same
    five maps back when the store is opened again. *)

From S2P Require Import Prelude Types BlockStore.

(** ** Ordered maps of the database *)

Class Mapx (K V M : Type) `{Countable K} : Type := {
  mx_new : M;
  mx_get : M → K → option V;
  mx_insert : M → K → V → M;
  mx_contents : M → gmap K V;
  mx_contents_new : mx_contents mx_new = ∅;
  mx_get_contents : ∀ m k, mx_get m k = mx_contents m !! k;
  mx_insert_contents : ∀ m k v, mx_contents (mx_insert m k v) = <[k := v]> (mx_contents m);
}.

(** [range(a..=b)] and [last()], for the maps keyed by height. *)
Class MapxOrd (V M : Type) `{!Mapx N V M} : Type := {
  mx_range : M → N → N → list (N * V);
  mx_last : M → option (N * V);
  mx_range_contents : ∀ m a b, a ≤ b →
    mx_range m a b = omap (λ k, (k,.) <$> mx_contents m !! k) (seqN a (b - a + 1));
  mx_last_contents : ∀ m, (fst <$> mx_last m) =
    if bool_decide (mx_contents m = ∅) then None
    else Some (map_fold (λ k _ acc, N.max k acc) 0 (mx_contents m));
}.

Section Store.
Context {MB MH MQ MT MR : Type}.
Context `{!Mapx bytes Block MB, !Mapx N bytes MH, !MapxOrd bytes MH, !Mapx N QuorumCertificate MQ}.
Context `{!Mapx bytes (N * N) MT, !Mapx N EndBlockResponse MR}.

Record VsdbBlockStore : Type := mkVsdbBlockStore {
  vs_by_hash : MB;
  vs_by_height : MH;
  vs_commit_qcs : MQ;
  vs_tx_index : MT;
  vs_block_results : MR;
}.

(** ** Operations *)

Definition vs_put_block (s : VsdbBlockStore) (block : Block) : VsdbBlockStore :=
  let by_hash := mx_insert (vs_by_hash s) (b_hash block) block in
  let height := b_height block in
  let by_height :=
    match mx_get (vs_commit_qcs s) height with
    | Some commit_qc =>
        if bool_decide (qc_block_hash commit_qc = b_hash block)
        then mx_insert (vs_by_height s) height (b_hash block) else vs_by_height s
    | None => mx_insert (vs_by_height s) height (b_hash block)
    end in
  mkVsdbBlockStore by_hash by_height (vs_commit_qcs s) (vs_tx_index s) (vs_block_results s).

Definition vs_get_block (s : VsdbBlockStore) (hash : BlockHash) : option Block :=
  mx_get (vs_by_hash s) hash.

Definition vs_get_block_by_height (s : VsdbBlockStore) (h : Height) : option Block :=
  hash ← mx_get (vs_by_height s) h; mx_get (vs_by_hash s) hash.

Definition vs_get_blocks_in_range (s : VsdbBlockStore) (from to : Height) : list Block :=
  if to <? from then []
  else omap (λ e, mx_get (vs_by_hash s) e.2) (mx_range (vs_by_height s) from to).

Definition vs_tip_height (s : VsdbBlockStore) : Height :=
  default 0 (fst <$> mx_last (vs_by_height s)).

Definition vs_put_commit_qc (s : VsdbBlockStore) (height : Height) (qc : QuorumCertificate)
    : VsdbBlockStore :=
  let commit_qcs := mx_insert (vs_commit_qcs s) height qc in
  let by_height :=
    match mx_get (vs_by_hash s) (qc_block_hash qc) with
    | Some block =>
        if b_height block =? height then mx_insert (vs_by_height s) height (qc_block_hash qc)
        else vs_by_height s
    | None => vs_by_height s
    end in
  mkVsdbBlockStore (vs_by_hash s) by_height commit_qcs (vs_tx_index s) (vs_block_results s).

Definition vs_get_commit_qc (s : VsdbBlockStore) (height : Height) : option QuorumCertificate :=
  mx_get (vs_commit_qcs s) height.

Definition vs_put_tx_index (s : VsdbBlockStore) (tx_hash : bytes) (height : Height) (index : N)
    : VsdbBlockStore :=
  mkVsdbBlockStore (vs_by_hash s) (vs_by_height s) (vs_commit_qcs s)
    (mx_insert (vs_tx_index s) tx_hash (height, index)) (vs_block_results s).

Definition vs_get_tx_location (s : VsdbBlockStore) (tx_hash : bytes) : option (Height * N) :=
  mx_get (vs_tx_index s) tx_hash.

Definition vs_put_block_results (s : VsdbBlockStore) (height : Height) (results : EndBlockResponse)
    : VsdbBlockStore :=
  mkVsdbBlockStore (vs_by_hash s) (vs_by_height s) (vs_commit_qcs s) (vs_tx_index s)
    (mx_insert (vs_block_results s) height results).

Definition vs_get_block_results (s : VsdbBlockStore) (height : Height) : option EndBlockResponse :=
  mx_get (vs_block_results s) height.

Definition vs_contains (s : VsdbBlockStore) (hash : BlockHash) : bool :=
  bool_decide (is_Some (mx_get (vs_by_hash s) hash)).

Definition vs_new : VsdbBlockStore :=
  vs_put_block (mkVsdbBlockStore mx_new mx_new mx_new mx_new mx_new) Block_genesis.

#[global] Instance vsdb_block_store : BlockStore VsdbBlockStore := {|
  put_block := vs_put_block;
  get_block := vs_get_block;
  get_block_by_height := vs_get_block_by_height;
  put_commit_qc := vs_put_commit_qc;
  get_commit_qc := vs_get_commit_qc;
  put_tx_index := vs_put_tx_index;
  get_tx_location := vs_get_tx_location;
  put_block_results := vs_put_block_results;
  get_block_results := vs_get_block_results;
  tip_height := vs_tip_height;
  get_blocks_in_range := vs_get_blocks_in_range;
|}.

(** ** Opening *)

(** The five map ids, in the order of the fields. *)
Notation ids := (N * N * N * N * N)%type.

Definition meta_bytes (i : ids) : bytes :=
  let '(a, b, c, d, e) := i in u64_le a ++ u64_le b ++ u64_le c ++ u64_le d ++ u64_le e.

Definition meta_ids (bs : bytes) : ids :=
  let at_ (k : nat) := le_u64 (take 8 (drop k bs)) in
  (at_ 0%nat, at_ 8%nat, at_ 16%nat, at_ 24%nat, at_ 32%nat).

Inductive open_error : Type := RestoreFailed | CorruptMeta (len : nat).

(** What [MapxOrd::from_meta] finds for an id, at each type. *)
Record restorer : Type := mkRestorer {
  rs_by_hash : N → option MB;
  rs_by_height : N → option MH;
  rs_commit_qcs : N → option MQ;
  rs_tx_index : N → option MT;
  rs_block_results : N → option MR;
}.

(** [VsdbBlockStore::open]: [meta] is the metadata file, [fresh] the ids that the
    database gives to new maps.  Returns the store and the file. *)
Definition vs_open (meta : option bytes) (rs : restorer) (fresh : ids)
    : res open_error (VsdbBlockStore * bytes) :=
  match meta with
  | Some bs =>
      if (length bs =? 40)%nat then
        let '(a, b, c, d, e) := meta_ids bs in
        by_hash ← ok_or (rs_by_hash rs a) RestoreFailed;
        by_height ← ok_or (rs_by_height rs b) RestoreFailed;
        commit_qcs ← ok_or (rs_commit_qcs rs c) RestoreFailed;
        tx_index ← ok_or (rs_tx_index rs d) RestoreFailed;
        block_results ← ok_or (rs_block_results rs e) RestoreFailed;
        let store := mkVsdbBlockStore by_hash by_height commit_qcs tx_index block_results in
        Ok (if bool_decide (vs_get_block store (b_hash Block_genesis) = None)
            then vs_put_block store Block_genesis else store, bs)
      else Err (CorruptMeta (length bs))
  | None =>
      Ok (vs_put_block (mkVsdbBlockStore mx_new mx_new mx_new mx_new mx_new) Block_genesis,
          meta_bytes fresh)
  end.

(** ** Refinement of the in-memory store *)

Definition vs_abs (s : VsdbBlockStore) : MemoryBlockStore :=
  mkMemoryBlockStore (mx_contents (vs_by_hash s)) (mx_contents (vs_by_height s))
    (mx_contents (vs_commit_qcs s)).

Lemma vs_put_block_abs s b : vs_abs (vs_put_block s b) = mem_put_block (vs_abs s) b.
Proof.
  unfold vs_abs, mem_put_block. simpl. rewrite mx_insert_contents, mx_get_contents. f_equal.
  destruct (_ !! _) as [q|]; [case_bool_decide|]; by rewrite ?mx_insert_contents.
Qed.

Lemma vs_put_commit_qc_abs s h q : vs_abs (vs_put_commit_qc s h q) = mem_put_commit_qc (vs_abs s) h q.
Proof.
  unfold vs_abs, mem_put_commit_qc. simpl. rewrite mx_insert_contents, mx_get_contents. f_equal.
  destruct (_ !! _) as [b|]; [destruct (_ =? _)|]; by rewrite ?mx_insert_contents.
Qed.

Lemma vs_get_block_abs s h : vs_get_block s h = mem_get_block (vs_abs s) h.
Proof. apply mx_get_contents. Qed.

Lemma vs_get_block_by_height_abs s h : vs_get_block_by_height s h = mem_get_block_by_height (vs_abs s) h.
Proof.
  unfold vs_get_block_by_height, mem_get_block_by_height. rewrite mx_get_contents. simpl.
  destruct (_ !! _); simpl; [apply mx_get_contents|done].
Qed.

Lemma vs_get_commit_qc_abs s h : vs_get_commit_qc s h = mem_get_commit_qc (vs_abs s) h.
Proof. apply mx_get_contents. Qed.

Lemma vs_range_abs s from to : vs_get_blocks_in_range s from to = mem_get_blocks_in_range (vs_abs s) from to.
Proof.
  unfold vs_get_blocks_in_range, mem_get_blocks_in_range. destruct (N.ltb_spec to from); [done|].
  rewrite mx_range_contents by done. induction (seqN _ _) as [|k l IH]; [done|]. csimpl.
  destruct (mx_contents (vs_by_height s) !! k) as [h|]; csimpl; [|done].
  rewrite mx_get_contents, IH. done.
Qed.

Lemma vs_tip_abs s : vs_tip_height s = mem_tip_height (vs_abs s).
Proof.
  unfold vs_tip_height, mem_tip_height. rewrite mx_last_contents. simpl.
  case_bool_decide as E; simpl; [|done]. by rewrite E, map_fold_empty.
Qed.
Ltac to_mem :=
  simpl in *; rewrite ?vs_put_block_abs, ?vs_put_commit_qc_abs, ?vs_get_block_abs, ?vs_get_commit_qc_abs,
    ?vs_get_block_by_height_abs, ?vs_put_block_abs, ?vs_put_commit_qc_abs in *.

(** The persistent store obeys the laws of the interface. *)
#[global] Program Instance vsdb_block_store_laws : BlockStoreLaws VsdbBlockStore :=
  {| st_ok s := mem_ok (vs_abs s) |}.
Next Obligation. intros s b Hs Hb. to_mem. apply mem_put_block_ok; [done|]. intros b'. specialize (Hb b'). by to_mem. Qed.
Next Obligation. intros. to_mem. by apply mem_put_commit_qc_ok. Qed.
Next Obligation. done. Qed.
Next Obligation. done. Qed.
Next Obligation. intros s b h. to_mem. exact (get_put_block (St := MemoryBlockStore) (vs_abs s) b h). Qed.
Next Obligation. intros s h q x. to_mem. exact (get_put_commit_qc (St := MemoryBlockStore) (vs_abs s) h q x). Qed.
Next Obligation. done. Qed.
Next Obligation. done. Qed.
Next Obligation. intros s b h. to_mem. exact (commit_qc_put_block (St := MemoryBlockStore) (vs_abs s) b h). Qed.
Next Obligation. intros s h q h'. to_mem. exact (commit_qc_put_commit_qc (St := MemoryBlockStore) (vs_abs s) h q h'). Qed.
Next Obligation. done. Qed.
Next Obligation. done. Qed.
Next Obligation. intros s h b. to_mem. exact (get_block_hash (St := MemoryBlockStore) (vs_abs s) h b). Qed.
Next Obligation. intros s n b. to_mem. exact (by_height_get (St := MemoryBlockStore) (vs_abs s) n b). Qed.
Next Obligation. intros s q b. to_mem. exact (by_height_put_commit_qc (St := MemoryBlockStore) (vs_abs s) q b). Qed.
Next Obligation. done. Qed.
Next Obligation. done. Qed.
Next Obligation. intros s h q n. to_mem. exact (by_height_put_commit_qc_ne (St := MemoryBlockStore) (vs_abs s) h q n). Qed.

#[global] Instance vsdb_tx_index_laws : TxIndexLaws VsdbBlockStore.
Proof.
  split; try done. intros s x h i y. simpl. unfold vs_get_tx_location, vs_put_tx_index. simpl.
  rewrite !mx_get_contents, mx_insert_contents. case_decide as E; [by rewrite E, lookup_insert_eq|].
  by rewrite lookup_insert_ne.
Qed.

(** ** Sequences of operations *)

Definition last_tx_index (x : bytes) (os : list store_op) : option (Height * N) :=
  last (omap (λ o, match o with
                   | OpPutTxIndex y h i => if decide (y = x) then Some (h, i) else None
                   | _ => None end) os).

Definition last_results (n : Height) (os : list store_op) : option EndBlockResponse :=
  last (omap (λ o, match o with
                   | OpPutBlockResults h r => if decide (h = n) then Some r else None
                   | _ => None end) os).

Lemma run_ops_abs os s : vs_abs (foldl run_op s os) = foldl run_op (vs_abs s) os.
Proof.
  revert s. induction os as [|o os IH]; intros s; simpl; [done|]. rewrite IH. f_equal.
  destruct o; simpl; [apply vs_put_block_abs|apply vs_put_commit_qc_abs|done..].
Qed.

Lemma run_ops_tx os s x :
  vs_get_tx_location (foldl run_op s os) x =
    match last_tx_index x os with Some v => Some v | None => vs_get_tx_location s x end.
Proof.
  unfold last_tx_index. induction os as [|o os IH] using rev_ind; [done|].
  rewrite foldl_app, omap_app. unfold vs_get_tx_location in *. destruct o as [b|h q|y h i|h r]; simpl.
  1,2,4: by rewrite app_nil_r, IH.
  rewrite mx_get_contents, mx_insert_contents. case_decide as E; csimpl.
  - by rewrite E, lookup_insert_eq, last_snoc.
  - rewrite lookup_insert_ne, app_nil_r, <- mx_get_contents by done. apply IH.
Qed.

Lemma run_ops_results os s n :
  vs_get_block_results (foldl run_op s os) n =
    match last_results n os with Some v => Some v | None => vs_get_block_results s n end.
Proof.
  unfold last_results. induction os as [|o os IH] using rev_ind; [done|].
  rewrite foldl_app, omap_app. unfold vs_get_block_results in *. destruct o as [b|h q|y h i|h r]; simpl.
  1,2,3: by rewrite app_nil_r, IH.
  rewrite mx_get_contents, mx_insert_contents. case_decide as E; csimpl.
  - by rewrite E, lookup_insert_eq, last_snoc.
  - rewrite lookup_insert_ne, app_nil_r, <- mx_get_contents by done. apply IH.
Qed.

Lemma meta_round_trip a b c d e :
  a ≤ u64_max → b ≤ u64_max → c ≤ u64_max → d ≤ u64_max → e ≤ u64_max →
  length (meta_bytes (a, b, c, d, e)) = 40%nat ∧ meta_ids (meta_bytes (a, b, c, d, e)) = (a, b, c, d, e).
Proof.
  intros Ha Hb Hc Hd He. unfold meta_bytes, meta_ids.
  split; [by rewrite !length_app, !length_u64_le|].
  assert (∀ x rest, x ≤ u64_max → le_u64 (take 8 (u64_le x ++ rest)) = x) as Htake.
  { intros x rest Hx. rewrite take_app_length' by (by rewrite length_u64_le). by apply le_u64_u64_le. }
  assert (∀ x rest k, drop (8 + k) (u64_le x ++ rest) = drop k rest) as Hdrop.
  { intros x rest k. rewrite drop_app_ge by (rewrite length_u64_le; lia). f_equal.
    rewrite length_u64_le. lia. }
  rewrite (Hdrop _ _ 0%nat), (Hdrop _ _ 8%nat), (Hdrop _ _ 0%nat), (Hdrop _ _ 16%nat), (Hdrop _ _ 8%nat),
    (Hdrop _ _ 0%nat), (Hdrop _ _ 24%nat), (Hdrop _ _ 16%nat), (Hdrop _ _ 8%nat), (Hdrop _ _ 0%nat), !drop_0.
  rewrite !Htake by done. rewrite <- (app_nil_r (u64_le e)), Htake by done. done.
Qed.
Lemma genesis_stays os (s : VsdbBlockStore) :
  is_Some (vs_get_block s (b_hash Block_genesis)) →
  is_Some (vs_get_block (foldl run_op s os) (b_hash Block_genesis)).
Proof.
  revert s. induction os as [|o os IH]; intros s Hs; simpl; [done|]. apply IH. destruct o as [b| | |]; simpl.
  - rewrite vs_get_block_abs, vs_put_block_abs. unfold mem_get_block. simpl.
    destruct (decide (b_hash b = b_hash Block_genesis)) as [->|].
    + by rewrite lookup_insert_eq.
    + rewrite lookup_insert_ne by done. by rewrite vs_get_block_abs in Hs.
  - by rewrite vs_get_block_abs, vs_put_commit_qc_abs in *.
  - done.
  - done.
Qed.

(** [rs] finds the maps of [s] under [i]. *)
Definition restores (rs : restorer) (i : N * N * N * N * N) (s : VsdbBlockStore) : Prop :=
  let '(a, b, c, d, e) := i in
  rs_by_hash rs a = Some (vs_by_hash s) ∧ rs_by_height rs b = Some (vs_by_height s) ∧
  rs_commit_qcs rs c = Some (vs_commit_qcs s) ∧ rs_tx_index rs d = Some (vs_tx_index s) ∧
  rs_block_results rs e = Some (vs_block_results s).

Definition ids_ok (i : N * N * N * N * N) : Prop :=
  let '(a, b, c, d, e) := i in
  a ≤ u64_max ∧ b ≤ u64_max ∧ c ≤ u64_max ∧ d ≤ u64_max ∧ e ≤ u64_max.

(** ** Property *)

(** C16: the persistent store.  A store opened on a new directory and driven by
    any sequence of operations answers every query - by hash, by height, commit
    certificates, ranges and the tip - as the in-memory store driven by the same
    sequence, and returns the last transaction location and block results that
    were put; opening the directory again, with the database handing out the
    maps under the ids of the metadata file, gives exactly this store and leaves
    the file alone; a metadata file of another length than 40 bytes is
    refused. *)
Theorem persistent_store_refines rs i os :
  ids_ok i →
  ∃ s0 meta, vs_open None rs i = Ok (s0, meta) ∧
    let s := foldl run_op s0 os in let m := foldl run_op mem_new os in
    (∀ h, get_block s h = get_block m h) ∧
    (∀ n, get_block_by_height s n = get_block_by_height m n) ∧
    (∀ n, get_commit_qc s n = get_commit_qc m n) ∧
    (∀ from to, get_blocks_in_range s from to = get_blocks_in_range m from to) ∧
    tip_height s = tip_height m ∧
    (∀ x, vs_get_tx_location s x = last_tx_index x os) ∧
    (∀ n, vs_get_block_results s n = last_results n os) ∧
    (∀ rs' fresh, restores rs' i s → vs_open (Some meta) rs' fresh = Ok (s, meta)) ∧
    (∀ bs rs' fresh, length bs ≠ 40%nat → vs_open (Some bs) rs' fresh = Err (CorruptMeta (length bs))).
Proof.
  destruct i as [[[[a b] c] d] e]. intros (Ha&Hb&Hc&Hd&He). eexists vs_new, _. split; [done|]. intros s m.
  assert (vs_abs s = m) as Em.
  { unfold s, m. rewrite run_ops_abs. f_equal. unfold vs_new. rewrite vs_put_block_abs. unfold mem_new. f_equal.
    unfold vs_abs. simpl. by rewrite !mx_contents_new. }
  destruct (meta_round_trip a b c d e) as [Hlen Hids]; [done..|].
  split_and!.
  - intros h. simpl. by rewrite vs_get_block_abs, Em.
  - intros h. simpl. by rewrite vs_get_block_by_height_abs, Em.
  - intros h. simpl. by rewrite vs_get_commit_qc_abs, Em.
  - intros from to. simpl. by rewrite vs_range_abs, Em.
  - simpl. by rewrite vs_tip_abs, Em.
  - intros x. unfold s. rewrite run_ops_tx. destruct (last_tx_index x os); [done|].
    unfold vs_get_tx_location, vs_new. simpl. by rewrite mx_get_contents, mx_contents_new, lookup_empty.
  - intros n. unfold s. rewrite run_ops_results. destruct (last_results n os); [done|].
    unfold vs_get_block_results, vs_new. simpl. by rewrite mx_get_contents, mx_contents_new, lookup_empty.
  - intros rs' fresh (E1&E2&E3&E4&E5). unfold vs_open. rewrite Hlen. cbn [Nat.eqb].
    rewrite Hids, E1, E2, E3, E4, E5. simpl. rewrite bool_decide_false; [by destruct s|].
    assert (is_Some (vs_get_block s (b_hash Block_genesis))) as [x Hx].
    { apply genesis_stays. unfold vs_new. rewrite vs_get_block_abs, vs_put_block_abs. unfold mem_get_block.
      simpl. by rewrite lookup_insert_eq. }
    destruct s. simpl in *. by rewrite Hx.
  - intros bs rs' fresh Hbs. unfold vs_open. by destruct (Nat.eqb_spec (length bs) 40).
Qed.
End Store.

(** Finite maps as the database's maps. *)
#[local] Instance gmap_mapx {K V} `{Countable K} : Mapx K V (gmap K V).
Proof. by refine {| mx_new := ∅; mx_get m k := m !! k; mx_insert m k v := <[k := v]> m; mx_contents m := m |}. Defined.

Definition last_key {V} (m : gmap N V) : N := map_fold (λ k _ acc, N.max k acc) 0 m.

#[local] Instance gmap_mapx_ord : MapxOrd bytes (gmap N bytes).
Proof.
  refine {| mx_range m a b := omap (λ k, (k,.) <$> m !! k) (seqN a (b - a + 1));
            mx_last m := if bool_decide (m = ∅) then None else Some (last_key m, default [] (m !! last_key m)) |}.
  - done.
  - intros m. simpl. repeat case_bool_decide; done.
Defined.

Lemma persistent_store_refines_witness :
  ids_ok (1, 2, 3, 4, 5) ∧
  ∃ s0 meta, vs_open (MB := gmap bytes Block) (MH := gmap N bytes) (MQ := gmap N QuorumCertificate)
      (MT := gmap bytes (N * N)) (MR := gmap N EndBlockResponse) None
      (mkRestorer (λ _, None) (λ _, None) (λ _, None) (λ _, None) (λ _, None)) (1, 2, 3, 4, 5) = Ok (s0, meta) ∧
    get_block_by_height (foldl run_op s0 [OpPutBlock sample_block1]) 1 = Some sample_block1.
Proof.
  assert (ids_ok (1, 2, 3, 4, 5)) as Hi by (repeat split; vm_compute; discriminate).
  split; [exact Hi|].
  destruct (persistent_store_refines (MB := gmap bytes Block) (MH := gmap N bytes) (MQ := gmap N QuorumCertificate)
      (MT := gmap bytes (N * N)) (MR := gmap N EndBlockResponse)
      (mkRestorer (λ _, None) (λ _, None) (λ _, None) (λ _, None) (λ _, None)) (1, 2, 3, 4, 5)
      [OpPutBlock sample_block1] Hi) as (s0&meta&Ho&_&Hh&_).
  exists s0, meta. split; [exact Ho|]. rewrite Hh. vm_compute. reflexivity.
Defined.
