(* ===== verification/EvidenceStore.v ===== *)
(** * Evidence stores ([hotmint-storage/src/evidence_store.rs])

    The trait the engine keeps equivocation proofs behind, its in-memory
    implementation and the one over an ordered map of the database, and that the
    second behaves like the first. *)

From Stdlib Require Import Sorted.
From S2P Require Import Prelude Types.

(** The [EvidenceStore] trait ([hotmint-consensus/src/evidence_store.rs]). *)
Class EvidenceStore (Ev : Type) : Type := {
  put_evidence : Ev → EquivocationProof → Ev;
  get_pending : Ev → list EquivocationProof;
  mark_committed : Ev → ViewNumber → ValidatorId → Ev;
  ev_all : Ev → list EquivocationProof;
}.

(** ** [MemoryEvidenceStore] *)

Record MemoryEvidenceStore : Type := mkMemoryEvidenceStore {
  me_proofs : list EquivocationProof;
  me_committed : gset (N * N);
}.

Definition me_new : MemoryEvidenceStore := mkMemoryEvidenceStore [] ∅.

(** The key proofs are deduplicated and committed by. *)
Definition proof_key (p : EquivocationProof) : N * N := (ep_view p, ep_validator p).

Definition me_put_evidence (s : MemoryEvidenceStore) (proof : EquivocationProof)
    : MemoryEvidenceStore :=
  if bool_decide (Exists (λ p, proof_key p = proof_key proof) (me_proofs s)) then s
  else mkMemoryEvidenceStore (me_proofs s ++ [proof]) (me_committed s).

Definition me_get_pending (s : MemoryEvidenceStore) : list EquivocationProof :=
  filter (λ p, proof_key p ∉ me_committed s) (me_proofs s).

Definition me_mark_committed (s : MemoryEvidenceStore) (view : ViewNumber) (validator : ValidatorId)
    : MemoryEvidenceStore :=
  let committed := {[(view, validator)]} ∪ me_committed s in
  mkMemoryEvidenceStore (filter (λ p, proof_key p ∉ committed) (me_proofs s)) committed.

#[global] Instance memory_evidence_store : EvidenceStore MemoryEvidenceStore := {|
  put_evidence := me_put_evidence;
  get_pending := me_get_pending;
  mark_committed := me_mark_committed;
  ev_all := me_proofs;
|}.

(** ** [PersistentEvidenceStore] *)

(** [MapxOrd<u64, EquivocationProof>]: the entries in the order of their keys. *)
Notation mapx := (list (N * EquivocationProof)).

Fixpoint mapx_insert (m : mapx) (k : N) (x : EquivocationProof) : mapx :=
  match m with
  | [] => [(k, x)]
  | (k', x') :: rest =>
      if k <? k' then (k, x) :: m
      else if k =? k' then (k, x) :: rest
      else (k', x') :: mapx_insert rest k x
  end.

Definition mapx_remove (m : mapx) (k : N) : mapx := filter (λ e, e.1 ≠ k) m.

Record PersistentEvidenceStore : Type := mkPersistentEvidenceStore {
  pe_proofs : mapx;
  pe_committed : gmap bytes N;
  pe_next_id : N;
}.

Definition pe_new : PersistentEvidenceStore := mkPersistentEvidenceStore [] ∅ 0.

Definition next_id_from_proofs (proofs : mapx) : N :=
  match last proofs with Some (id, _) => saturating_add64 id 1 | None => 0 end.

(** [open] on an existing store: the identifier is derived from the proofs. *)
Definition pe_reopen (s : PersistentEvidenceStore) : PersistentEvidenceStore :=
  mkPersistentEvidenceStore (pe_proofs s) (pe_committed s) (next_id_from_proofs (pe_proofs s)).

Definition committed_key (view : ViewNumber) (validator : ValidatorId) : bytes :=
  u64_le view ++ u64_le validator.

Definition pe_is_duplicate (s : PersistentEvidenceStore) (proof : EquivocationProof) : bool :=
  bool_decide (Exists (λ e, ep_view e.2 = ep_view proof ∧ ep_validator e.2 = ep_validator proof)
                 (pe_proofs s)).

Definition pe_put_evidence (s : PersistentEvidenceStore) (proof : EquivocationProof)
    : PersistentEvidenceStore :=
  if pe_is_duplicate s proof then s
  else mkPersistentEvidenceStore (mapx_insert (pe_proofs s) (pe_next_id s) proof) (pe_committed s)
         (pe_next_id s +w 1).

Definition pe_get_pending (s : PersistentEvidenceStore) : list EquivocationProof :=
  omap (λ e, if bool_decide (is_Some (pe_committed s !! committed_key (ep_view e.2) (ep_validator e.2)))
             then None else Some e.2) (pe_proofs s).

Definition pe_mark_committed (s : PersistentEvidenceStore) (view : ViewNumber)
    (validator : ValidatorId) : PersistentEvidenceStore :=
  let to_remove :=
    (filter (λ e, ep_view e.2 = view ∧ ep_validator e.2 = validator) (pe_proofs s)).*1 in
  mkPersistentEvidenceStore (foldl mapx_remove (pe_proofs s) to_remove)
    (<[committed_key view validator := 1]> (pe_committed s)) (pe_next_id s).

Definition pe_all (s : PersistentEvidenceStore) : list EquivocationProof := (pe_proofs s).*2.

#[global] Instance persistent_evidence_store : EvidenceStore PersistentEvidenceStore := {|
  put_evidence := pe_put_evidence;
  get_pending := pe_get_pending;
  mark_committed := pe_mark_committed;
  ev_all := pe_all;
|}.

(** ** What the stores promise

    The pending proofs in the order they came, and the keys committed so far. *)

Notation pending_spec := (list EquivocationProof * gset (N * N))%type.

Inductive ev_op : Type :=
| EvPut (p : EquivocationProof)
| EvMark (view : ViewNumber) (validator : ValidatorId)
| EvReopen.

Definition spec_op (s : pending_spec) (o : ev_op) : pending_spec :=
  match o with
  | EvPut p =>
      if bool_decide (proof_key p ∈ s.2 ∨ proof_key p ∈ proof_key <$> s.1) then s
      else (s.1 ++ [p], s.2)
  | EvMark v id => (filter (λ p, proof_key p ≠ (v, id)) s.1, {[(v, id)]} ∪ s.2)
  | EvReopen => s
  end.

(** The in-memory store is never closed. *)
Definition me_op (s : MemoryEvidenceStore) (o : ev_op) : MemoryEvidenceStore :=
  match o with
  | EvPut p => me_put_evidence s p
  | EvMark v id => me_mark_committed s v id
  | EvReopen => s
  end.

Definition pe_op (s : PersistentEvidenceStore) (o : ev_op) : PersistentEvidenceStore :=
  match o with
  | EvPut p => pe_put_evidence s p
  | EvMark v id => pe_mark_committed s v id
  | EvReopen => pe_reopen s
  end.

(** Views and identifiers are 64-bit numbers. *)
Definition op_ok (o : ev_op) : Prop :=
  match o with
  | EvPut p => ep_view p ≤ u64_max ∧ ep_validator p ≤ u64_max
  | EvMark v id => v ≤ u64_max ∧ id ≤ u64_max
  | EvReopen => True
  end.

Record me_rel (m : MemoryEvidenceStore) (s : pending_spec) : Prop := {
  mr_pending : me_get_pending m = s.1;
  mr_committed : me_committed m = s.2;
}.

Lemma me_op_rel m s o : me_rel m s → me_rel (me_op m o) (spec_op s o).
Proof.
  destruct s as [l C]. intros [Hp Hc]; simpl in *. destruct o as [p|v id|]; simpl; [| |done].
  - unfold me_put_evidence, me_get_pending in *.
    assert (∀ p', proof_key p' = proof_key p → proof_key p ∉ C →
              p' ∈ me_proofs m → proof_key p ∈ proof_key <$> l) as Hin.
    { intros p' E Hn Hp'. apply list_elem_of_fmap. exists p'. split; [done|].
      rewrite <- Hp. apply list_elem_of_filter. split; [by rewrite Hc, E|done]. }
    destruct (bool_decide _) eqn:Hd; bool_prop.
    + apply Exists_exists in Hd as (p'&Hp'&E).
      rewrite bool_decide_true; [done|].
      destruct (decide (proof_key p ∈ C)); [by left|right; by eapply Hin].
    + destruct (decide (proof_key p ∈ C)) as [HC|HC].
      * rewrite bool_decide_true by by left. split; unfold me_get_pending; simpl; [|done].
        rewrite filter_app, Hp, filter_cons_False by by rewrite Hc; auto. apply app_nil_r.
      * rewrite bool_decide_false.
        -- split; unfold me_get_pending; simpl; [|done].
           by rewrite filter_app, Hp, filter_cons_True, filter_nil by by rewrite Hc.
        -- intros [?|Hk]; [done|]. apply Hd. rewrite <- Hp in Hk.
           apply list_elem_of_fmap in Hk as (p'&E&[_ Hp']%list_elem_of_filter).
           apply Exists_exists. by exists p'.
  - split; simpl; [|by rewrite Hc]. unfold me_get_pending; simpl. rewrite <- Hp.
    unfold me_get_pending. rewrite !list_filter_filter. apply list_filter_iff. set_solver.
Qed.

Record pe_rel (n : N) (p : PersistentEvidenceStore) (s : pending_spec) : Prop := {
  pr_pending : pe_get_pending p = s.1;
  pr_committed : ∀ v id, v ≤ u64_max → id ≤ u64_max →
    is_Some (pe_committed p !! committed_key v id) ↔ (v, id) ∈ s.2;
  pr_sorted : StronglySorted N.lt (pe_proofs p).*1;
  pr_next : ∀ k, k ∈ (pe_proofs p).*1 → k < pe_next_id p;
  pr_bound : pe_next_id p ≤ n;
  pr_ok : ∀ e, e ∈ pe_proofs p → ep_view e.2 ≤ u64_max ∧ ep_validator e.2 ≤ u64_max;
}.

Lemma sorted_NoDup l : StronglySorted N.lt l → NoDup l.
Proof.
  induction 1 as [|k l _ IH Hk]; constructor; [|done]. intros Hin.
  rewrite Forall_forall in Hk. specialize (Hk k Hin). lia.
Qed.

Lemma sorted_filter m (P : N * EquivocationProof → Prop) `{∀ x, Decision (P x)} :
  StronglySorted N.lt m.*1 → StronglySorted N.lt (filter P m).*1.
Proof.
  induction m as [|[k x] m IH]; intros Hs; [done|]. csimpl in Hs.
  apply StronglySorted_inv in Hs as [Hs Hk]. rewrite filter_cons. case_decide; [|by apply IH].
  csimpl. constructor; [by apply IH|]. rewrite Forall_forall in *.
  intros k' (e&->&[_ He]%list_elem_of_filter)%list_elem_of_fmap.
  apply Hk, list_elem_of_fmap. by exists e.
Qed.

Lemma sorted_snoc l k :
  StronglySorted N.lt l → (∀ k', k' ∈ l → k' < k) → StronglySorted N.lt (l ++ [k]).
Proof.
  intros Hs Hk. induction Hs as [|k' l Hs IH Hf]; simpl.
  - by repeat constructor.
  - constructor; [apply IH; intros; apply Hk; by right|]. rewrite Forall_forall in *.
    intros k'' [?| ->%list_elem_of_singleton]%elem_of_app; [by apply Hf|]. apply Hk. left.
Qed.

Lemma sorted_last (m : mapx) id x :
  StronglySorted N.lt m.*1 → last m = Some (id, x) → ∀ k, k ∈ m.*1 → k ≤ id.
Proof.
  induction m as [|[k0 x0] m IH]; intros Hs Hl k Hk; [done|]. csimpl in *.
  apply StronglySorted_inv in Hs as [Hs Hf]. rewrite Forall_forall in Hf.
  destruct m as [|e m]; simplify_eq/=.
  - apply list_elem_of_singleton in Hk. lia.
  - apply elem_of_cons in Hk as [->|Hk]; [|by apply IH].
    assert (id ∈ (e :: m).*1) as Hid.
    { apply list_elem_of_fmap. exists (id, x). split; [done|].
      apply last_Some_elem_of. done. }
    apply Hf in Hid. lia.
Qed.

Lemma mapx_insert_last m k x : (∀ k', k' ∈ m.*1 → k' < k) → mapx_insert m k x = m ++ [(k, x)].
Proof.
  induction m as [|[k' x'] m IH]; intros Hk; simpl; [done|].
  assert (k' < k) by (apply Hk; left).
  destruct (N.ltb_spec k k'); [lia|]. destruct (N.eqb_spec k k'); [lia|].
  f_equal. apply IH. intros k'' H'. apply Hk. by right.
Qed.

Lemma foldl_mapx_remove m ids : foldl mapx_remove m ids = filter (λ e, e.1 ∉ ids) m.
Proof.
  revert m. induction ids as [|i ids IH]; intros m; simpl.
  - symmetry. apply filter_all. intros. apply not_elem_of_nil.
  - rewrite IH. unfold mapx_remove. rewrite list_filter_filter. apply list_filter_iff. set_solver.
Qed.

(** Removing the keys of the matching entries removes those entries. *)
Lemma remove_matching (m : mapx) v id :
  NoDup m.*1 →
  foldl mapx_remove m (filter (λ e, ep_view e.2 = v ∧ ep_validator e.2 = id) m).*1 =
  filter (λ e, ¬ (ep_view e.2 = v ∧ ep_validator e.2 = id)) m.
Proof.
  intros Hnd. rewrite foldl_mapx_remove. apply filter_iff_elem. intros [k x] Hin. simpl.
  split; intros Hk Hx; apply Hk; clear Hk.
  - apply list_elem_of_fmap. exists (k, x). split; [done|]. by apply list_elem_of_filter.
  - apply list_elem_of_fmap in Hx as ([k' x']&->&[Hp Hin']%list_elem_of_filter). simpl in *.
    apply (elem_of_list_to_map_1 (M := gmap N)) in Hin, Hin'; [|done..]. congruence.
Qed.

Lemma pe_get_pending_filter p :
  pe_get_pending p =
  (filter (λ e, ¬ is_Some (pe_committed p !! committed_key (ep_view e.2) (ep_validator e.2)))
     (pe_proofs p)).*2.
Proof.
  unfold pe_get_pending. induction (pe_proofs p) as [|e l IH]; [done|]. csimpl. rewrite filter_cons.
  rewrite IH. destruct (decide (is_Some (pe_committed p !! committed_key (ep_view e.2) (ep_validator e.2)))).
  - rewrite bool_decide_true by done. by rewrite decide_False by auto.
  - rewrite bool_decide_false by done. by rewrite decide_True by auto.
Qed.

Lemma committed_key_inj v id v' id' :
  v ≤ u64_max → id ≤ u64_max → v' ≤ u64_max → id' ≤ u64_max →
  committed_key v id = committed_key v' id' → v = v' ∧ id = id'.
Proof.
  intros ????. unfold committed_key. intros E. apply app_inj_1 in E as [? ?]; [|by rewrite !length_u64_le].
  split; by apply u64_le_inj.
Qed.

(** An entry is pending iff the specification has not committed its key. *)
Lemma pe_pending_spec n p s :
  pe_rel n p s → s.1 = (filter (λ e, proof_key e.2 ∉ s.2) (pe_proofs p)).*2.
Proof.
  intros [Hp Hc _ _ _ Hok]. rewrite <- Hp, pe_get_pending_filter. f_equal.
  apply filter_iff_elem. intros e He. destruct (Hok e He). by rewrite Hc.
Qed.

Lemma pe_put_rel n p s x :
  n < u64_max → ep_view x ≤ u64_max → ep_validator x ≤ u64_max →
  pe_rel n p s → pe_rel (n + 1) (pe_put_evidence p x) (spec_op s (EvPut x)).
Proof.
  intros Hn Hv Hi Hr. pose proof (pe_pending_spec _ _ _ Hr) as Hs.
  destruct Hr as [Hp Hc Hs' Hx Hb Hok], s as [l C]; simpl in *.
  unfold pe_put_evidence, pe_is_duplicate.
  assert (∀ e, e ∈ pe_proofs p → proof_key e.2 = proof_key x → proof_key x ∉ C →
            proof_key x ∈ proof_key <$> l) as Hin.
  { intros e He E HC. rewrite Hs. apply list_elem_of_fmap. exists e.2. split; [done|].
    apply list_elem_of_fmap. exists e. split; [done|]. apply list_elem_of_filter. by rewrite E. }
  destruct (bool_decide (Exists _ _)) eqn:Hd; bool_prop.
  - apply Exists_exists in Hd as (e&He&E1&E2).
    assert (proof_key e.2 = proof_key x) as E by (unfold proof_key; by rewrite E1, E2).
    rewrite bool_decide_true; [split; simpl; try done; lia|].
    destruct (decide (proof_key x ∈ C)); [by left|right; by eapply Hin].
  - rewrite mapx_insert_last by done.
    assert (pe_next_id p +w 1 = pe_next_id p + 1) as -> by (apply wrapping_add64_small; lia).
    assert (∀ s', s'.2 = C → s'.1 = l ++ (if decide (proof_key x ∈ C) then [] else [x]) →
              pe_rel (n + 1) (mkPersistentEvidenceStore (pe_proofs p ++ [(pe_next_id p, x)])
                (pe_committed p) (pe_next_id p + 1)) s') as Hrel.
    { intros [l' C'] EC El. simpl in EC, El. subst C' l'. split; simpl; try done; try lia.
      - rewrite pe_get_pending_filter. simpl. rewrite filter_app, fmap_app.
        rewrite <- pe_get_pending_filter, Hp. f_equal. rewrite filter_cons. simpl.
        specialize (Hc _ _ Hv Hi). fold (proof_key x) in Hc. repeat case_decide; tauto || done.
      - rewrite fmap_app. by apply sorted_snoc.
      - intros k. rewrite fmap_app. intros [Hk|Hk]%elem_of_app.
        + apply Hx in Hk. lia.
        + apply list_elem_of_singleton in Hk. simpl in Hk. lia.
      - intros e [He| ->%list_elem_of_singleton]%elem_of_app; [by apply Hok|done]. }
    case_bool_decide as Hcase; apply Hrel; simpl; try done.
    + destruct Hcase as [HC|Hk]; [by rewrite decide_True, app_nil_r|].
      exfalso. apply Hd. rewrite Hs in Hk.
      apply list_elem_of_fmap in Hk as (y&E&Hy). apply list_elem_of_fmap in Hy as (e&->&He).
      apply list_elem_of_filter in He as [_ He]. apply Exists_exists. exists e. split; [done|].
      unfold proof_key in E. by simplify_eq.
    + rewrite decide_False by tauto. done.
Qed.

Lemma pe_mark_rel n p s v id :
  v ≤ u64_max → id ≤ u64_max →
  pe_rel n p s → pe_rel n (pe_mark_committed p v id) (spec_op s (EvMark v id)).
Proof.
  intros Hv Hi [Hp Hc Hs Hx Hb Hok]. destruct s as [l C]; simpl in *.
  unfold pe_mark_committed. rewrite remove_matching by by apply sorted_NoDup.
  set (Q := λ e : N * EquivocationProof, ¬ (ep_view e.2 = v ∧ ep_validator e.2 = id)).
  assert (∀ k, k ∈ (filter Q (pe_proofs p)).*1 → k ∈ (pe_proofs p).*1) as Hsub.
  { intros k (e&->&[_ He]%list_elem_of_filter)%list_elem_of_fmap. apply list_elem_of_fmap. by exists e. }
  assert (∀ v' id', v' ≤ u64_max → id' ≤ u64_max →
    is_Some (<[committed_key v id := 1]> (pe_committed p) !! committed_key v' id') ↔
      (v', id') ∈ ({[(v, id)]} ∪ C : gset _)) as Hc'.
  { intros v' id' Hv' Hi'. destruct (decide ((v', id') = (v, id))) as [[= -> ->]|Hne].
    - rewrite lookup_insert_eq. set_solver.
    - rewrite lookup_insert_ne, Hc; [set_solver|done..|].
      intros E%committed_key_inj; try done. destruct E. congruence. }
  split; simpl; try done.
  - rewrite pe_get_pending_filter. simpl. rewrite <- Hp, pe_get_pending_filter.
    rewrite filter_fmap. f_equal. rewrite !list_filter_filter. apply filter_iff_elem.
    intros e He. destruct (Hok e He). rewrite Hc', Hc by done. unfold Q, compose. simpl.
    assert (proof_key e.2 ≠ (v, id) ↔ ¬ (ep_view e.2 = v ∧ ep_validator e.2 = id)) as ->.
    { unfold proof_key. split; intros Hn E; apply Hn; [destruct E; by f_equal|by simplify_eq]. }
    unfold proof_key. set_solver.
  - by apply sorted_filter.
  - intros k Hk. by apply Hx, Hsub.
  - intros e [_ He]%list_elem_of_filter. by apply Hok.
Qed.

Lemma pe_reopen_rel n p s : n ≤ u64_max → pe_rel n p s → pe_rel n (pe_reopen p) s.
Proof.
  intros Hn [Hp Hc Hs Hx Hb Hok].
  assert (∀ k, k ∈ (pe_proofs p).*1 → k < next_id_from_proofs (pe_proofs p)) as Hnext.
  { intros k Hk. unfold next_id_from_proofs.
    destruct (last (pe_proofs p)) as [[id x]|] eqn:E; [|apply last_None in E; rewrite E in Hk; by apply not_elem_of_nil in Hk].
    pose proof (sorted_last _ _ _ Hs E k Hk).
    assert (id < pe_next_id p).
    { apply Hx, list_elem_of_fmap. exists (id, x). split; [done|]. by apply last_Some_elem_of. }
    unfold saturating_add64. lia. }
  split; simpl; try done.
  unfold next_id_from_proofs. destruct (last (pe_proofs p)) as [[id x]|] eqn:E; [|lia].
  assert (id < pe_next_id p).
  { apply Hx, list_elem_of_fmap. exists (id, x). split; [done|]. by apply last_Some_elem_of. }
  unfold saturating_add64. lia.
Qed.

Lemma pe_op_rel n p s o :
  n < u64_max → op_ok o → pe_rel n p s → pe_rel (n + 1) (pe_op p o) (spec_op s o).
Proof.
  intros Hn Ho Hr. assert (∀ p s, pe_rel n p s → pe_rel (n + 1) p s) as Hup.
  { intros p' s' []. split; try done. lia. }
  destruct o as [x|v id|]; simpl in *.
  - destruct Ho. by apply pe_put_rel.
  - destruct Ho. by apply Hup, pe_mark_rel.
  - apply Hup, pe_reopen_rel; [lia|done].
Qed.

Definition sample_evidences : list ev_op :=
  let p v id t := mkEquivocationProof id v t 0 (zeros 32) [] None (x01 :: zeros 31) [x01] None in
  [EvPut (p 4 7 TVote); EvPut (p 4 7 TVote2); EvPut (p 5 3 TVote); EvMark 4 7; EvReopen;
   EvPut (p 4 7 TVote); EvPut (p 6 9 TVote2)].

(** Over any sequence of insertions, commitments and reopenings of the
    database, the in-memory and the persistent evidence store hold the same
    pending proofs: those inserted first for their view and validator and not
    committed since, in the order of insertion. *)
Lemma evidence_stores_refine ops :
  Forall op_ok ops → N.of_nat (length ops) ≤ u64_max →
  get_pending (foldl me_op me_new ops) = (foldl spec_op ([], ∅) ops).1 ∧
  get_pending (foldl pe_op pe_new ops) = (foldl spec_op ([], ∅) ops).1.
Proof.
  intros Hok Hn.
  assert (me_rel (foldl me_op me_new ops) (foldl spec_op ([], ∅) ops) ∧
          pe_rel (N.of_nat (length ops)) (foldl pe_op pe_new ops) (foldl spec_op ([], ∅) ops))
    as [[? _] [? _ _ _ _ _]]; [|done].
  induction ops as [|o ops IH] using rev_ind.
  - split; split; simpl; try done.
    + intros v id _ _. split; [intros [? Hm]; by rewrite lookup_empty in Hm|set_solver].
    + constructor.
    + intros k Hk. by apply not_elem_of_nil in Hk.
    + intros e He. by apply not_elem_of_nil in He.
  - apply Forall_app in Hok as [Hok Ho]. inversion Ho as [|? ? Ho' _]; subst.
    rewrite length_app in *. simpl in *. destruct IH as [Hm Hp]; [done|lia|].
    rewrite !foldl_snoc. split; [by apply me_op_rel|].
    replace (N.of_nat (length ops + 1)) with (N.of_nat (length ops) + 1) by lia.
    apply pe_op_rel; [lia|done..].
Qed.

Lemma evidence_stores_refine_witness :
  length (get_pending (foldl pe_op pe_new sample_evidences)) = 2%nat ∧
  get_pending (foldl me_op me_new sample_evidences) =
    get_pending (foldl pe_op pe_new sample_evidences).
Proof.
  split; [vm_compute; reflexivity|].
  destruct (evidence_stores_refine sample_evidences) as [-> ->]; [|vm_compute; done|reflexivity].
  repeat constructor; vm_compute; done.
Defined.
