(* ===== verification/World.v ===== *)
(** * Effects, traits and the state monad of the consensus code

    The traits the engine is generic over ([Application] of
    [hotmint-consensus/src/application.rs], [NetworkSink] of
    [hotmint-consensus/src/network.rs], [StatePersistence] and [Wal] of
    [hotmint-consensus/src/engine.rs]) and the monad its functions run in.  A
    [World] is what the view protocol mutates: the consensus state, the block
    store and the application.  Calls on the network, the persistence, the
    signer and the application are recorded in order in a trace. *)

From S2P Require Import Prelude Types Encoding State BlockStore.

(** ** A state monad with errors and panics *)

Definition SM (W E A : Type) : Type := W → W * res E A.

#[global] Instance SM_ret {W E} : MRet (SM W E) := λ A a w, (w, Ok a).
#[global] Instance SM_bind {W E} : MBind (SM W E) := λ A B f m w,
  match m w with
  | (w', Ok a) => f a w'
  | (w', Err e) => (w', Err e)
  | (w', Panic) => (w', Panic)
  end.

Section Monad.
Context {W E : Type}.

Definition get_w : SM W E W := λ w, (w, Ok w).
Definition gets {A} (f : W → A) : SM W E A := λ w, (w, Ok (f w)).
Definition modify (f : W → W) : SM W E unit := λ w, (f w, Ok ()).
Definition throw {A} (e : E) : SM W E A := λ w, (w, Err e).
Definition panic {A} : SM W E A := λ w, (w, Panic).
Definition lift_res {A} (r : res E A) : SM W E A := λ w, (w, r).

(** [match m { Ok(..) => .., Err(..) => .. }]: the error as a value. *)
Definition try_ {E' A} (m : SM W E' A) : SM W E (A + E') := λ w,
  match m w with
  | (w', Ok a) => (w', Ok (inl a))
  | (w', Err e) => (w', Ok (inr e))
  | (w', Panic) => (w', Panic)
  end.

(** [if b { m }] *)
Definition when (b : bool) (m : SM W E unit) : SM W E unit := if b then m else mret ().

(** [for x in l { m(x) }] *)
Fixpoint for_each {A} (l : list A) (m : A → SM W E unit) : SM W E unit :=
  match l with
  | [] => mret ()
  | x :: rest => m x ;; for_each rest m
  end.
End Monad.

(** Weakest preconditions over every outcome. *)
Definition wp {W E A} (m : SM W E A) (Q : W → res E A → Prop) (w : W) : Prop :=
  Q (m w).1 (m w).2.

Section WP.
Context {W E : Type}.

Lemma wp_ret {A} (a : A) (Q : W → res E A → Prop) w : Q w (Ok a) → wp (mret a) Q w.
Proof. done. Qed.

Lemma wp_bind {A B} (m : SM W E A) (k : A → SM W E B) Q w :
  wp m (λ w' r, match r with
                | Ok a => wp (k a) Q w'
                | Err e => Q w' (Err e)
                | Panic => Q w' Panic
                end) w →
  wp (m ≫= k) Q w.
Proof. unfold wp, mbind, SM_bind. by destruct (m w) as [w' [a|e|]]. Qed.

Lemma wp_mono {A} (m : SM W E A) (Q Q' : W → res E A → Prop) w :
  wp m Q w → (∀ w' r, Q w' r → Q' w' r) → wp m Q' w.
Proof. unfold wp. auto. Qed.

Lemma wp_and {A} (m : SM W E A) (Q Q' : W → res E A → Prop) w :
  wp m Q w → wp m Q' w → wp m (λ w' r, Q w' r ∧ Q' w' r) w.
Proof. unfold wp. auto. Qed.

Lemma wp_try {E' A} (m : SM W E' A) (Q : W → res E (A + E') → Prop) w :
  wp m (λ w' r, match r with
                | Ok a => Q w' (Ok (inl a))
                | Err e => Q w' (Ok (inr e))
                | Panic => Q w' Panic
                end) w →
  wp (try_ m) Q w.
Proof. unfold wp, try_. by destruct (m w) as [w' [a|e|]]. Qed.

Lemma wp_when b (m : SM W E unit) Q w :
  (b = true → wp m Q w) → (b = false → Q w (Ok ())) → wp (when b m) Q w.
Proof. destruct b; intros H1 H2; [by apply H1|]. apply wp_ret. by apply H2. Qed.

(** [keeps R m]: every run of [m], whatever its outcome, is an [R]-step. *)
Definition keeps {A} (R : W → W → Prop) (m : SM W E A) : Prop := ∀ w, R w (m w).1.

Section Keeps.
Context (R : W → W → Prop) `{!PreOrder R}.

Lemma keeps_ret {A} (a : A) : keeps R (mret a).
Proof. intros w. simpl. reflexivity. Qed.
Lemma keeps_gets {A} (f : W → A) : keeps R (gets f).
Proof. intros w. simpl. reflexivity. Qed.
Lemma keeps_get_w : keeps R get_w.
Proof. intros w. simpl. reflexivity. Qed.
Lemma keeps_throw {A} (e : E) : keeps R (throw (A := A) e).
Proof. intros w. simpl. reflexivity. Qed.
Lemma keeps_panic {A} : keeps R (panic (A := A)).
Proof. intros w. simpl. reflexivity. Qed.
Lemma keeps_lift_res {A} (r : res E A) : keeps R (lift_res r).
Proof. intros w. simpl. reflexivity. Qed.
Lemma keeps_modify (f : W → W) : (∀ w, R w (f w)) → keeps R (modify f).
Proof. intros H w. apply H. Qed.
Lemma keeps_bind {A B} (m : SM W E A) (k : A → SM W E B) :
  keeps R m → (∀ a, keeps R (k a)) → keeps R (m ≫= k).
Proof.
  intros Hm Hk w. specialize (Hm w). unfold mbind, SM_bind.
  destruct (m w) as [w' [a|e|]]; simpl in *; [|done..]. etrans; [done|apply Hk].
Qed.
Lemma keeps_when b (m : SM W E unit) : keeps R m → keeps R (when b m).
Proof. destruct b; [done|]. intros _. apply keeps_ret. Qed.
Lemma keeps_for_each {A} (l : list A) m : (∀ x, keeps R (m x)) → keeps R (for_each l m).
Proof.
  intros H. induction l as [|x l IH]; simpl; [apply keeps_ret|].
  apply keeps_bind; [apply H|]. done.
Qed.
End Keeps.
End WP.

Lemma keeps_try {W E E' A} (R : W → W → Prop) (m : SM W E' A) :
  keeps R m → keeps R (try_ (E := E) m).
Proof. intros H w. specialize (H w). unfold try_. by destruct (m w) as [w' [a|e|]]. Qed.

Create HintDb keeps.
#[export] Hint Resolve keeps_ret keeps_gets keeps_get_w keeps_throw keeps_panic keeps_lift_res
  keeps_bind keeps_when keeps_for_each keeps_try : keeps.

(** ** The application *)

Record OfflineEvidence : Type := mkOfflineEvidence {
  oe_validator : ValidatorId;
  oe_missed_commits : N;
  oe_total_commits : N;
  oe_evidence_height : Height;
}.

Record AppInfo : Type := mkAppInfo {
  ai_last_block_height : Height;
  ai_last_block_app_hash : BlockHash;
}.

Record TxContext : Type := mkTxContext { txc_height : Height; txc_epoch : EpochNumber }.

Record TxValidationResult : Type := mkTxValidationResult {
  tvr_valid : bool;
  tvr_priority : N;
  tvr_gas_wanted : N;
}.
Definition TxValidationResult_accept (priority : N) : TxValidationResult := mkTxValidationResult true priority 0.
Definition TxValidationResult_reject : TxValidationResult := mkTxValidationResult false 0 0.

Record QueryResponse : Type := mkQueryResponse {
  qr_data : bytes;
  qr_proof : option bytes;
  qr_height : N;
}.

(** The methods the engine and the API call.  They take [&self] with interior mutability,
    so each threads the application's state; [None] and [false] are [Err]. *)
Class Application (App : Type) : Type := {
  app_info : App → AppInfo;
  app_create_payload : App → BlockContext → bytes * App;
  app_validate_block : App → Block → BlockContext → bool * App;
  app_execute_block : App → list bytes → BlockContext → option EndBlockResponse * App;
  app_on_commit : App → Block → BlockContext → bool * App;
  app_on_evidence : App → EquivocationProof → bool * App;
  app_on_offline_validators : App → list OfflineEvidence → bool * App;
  app_extend_vote : App → Block → BlockContext → option bytes * App;
  app_verify_vote_extension : App → bytes → BlockHash → ValidatorId → bool * App;
  app_tracks_app_hash : App → bool;
  app_validate_tx : App → bytes → option TxContext → TxValidationResult * App;
  app_query : App → string → bytes → option QueryResponse * App;
}.

(** [NoopApplication]: the trait's defaults, without state roots. *)
Inductive NoopApplication : Type := Noop.

#[global] Instance noop_application : Application NoopApplication := {|
  app_info _ := mkAppInfo 0 GENESIS_HASH;
  app_create_payload a _ := ([], a);
  app_validate_block a _ _ := (true, a);
  app_execute_block a _ _ := (Some EndBlockResponse_default, a);
  app_on_commit a _ _ := (true, a);
  app_on_evidence a _ := (true, a);
  app_on_offline_validators a _ := (true, a);
  app_extend_vote a _ _ := (None, a);
  app_verify_vote_extension a _ _ _ := (true, a);
  app_tracks_app_hash _ := false;
  app_validate_tx a _ _ := (TxValidationResult_accept 0, a);
  app_query a _ _ := (Some (mkQueryResponse [] None 0), a);
|}.

(** ** Effects *)

Inductive Effect : Type :=
(* NetworkSink *)
| EBroadcast (m : ConsensusMessage)
| ESendTo (target : ValidatorId) (m : ConsensusMessage)
| EBroadcastEvidence (p : EquivocationProof)
| EOnEpochChange (e : EpochNumber) (vs : ValidatorSet)
(* Signer *)
| ESign (p : SignedPayload)
(* StatePersistence *)
| ESaveCurrentView (v : ViewNumber)
| ESaveLockedQc (q : QuorumCertificate)
| ESaveHighestQc (q : QuorumCertificate)
| ESaveLastCommittedHeight (h : Height)
| ESaveCurrentEpoch (e : Epoch)
| ESavePreviousEpoch (e : option Epoch)
| ESaveLastAppHash (h : BlockHash)
| ESavePendingEpoch (e : option Epoch)
| ESaveLastVote (t : VoteType) (v : ViewNumber) (h : BlockHash)
| EPersistFlush
(* Wal *)
| EWalIntent (h : Height)
| EWalDone (h : Height)
(* BlockStore *)
| EStoreFlush
(* Application *)
| EAppEvidence (p : EquivocationProof)
| EAppExecute (b : Block)
| EAppCommit (b : Block)
| EAppOffline (l : list OfflineEvidence).

(** ** The world of the view protocol *)

Record World (St App : Type) : Type := mkWorld {
  w_state : ConsensusState;
  w_store : St;
  w_app : App;
  w_ticks : nat;                 (* how often the clock was read *)
  w_trace : list Effect;         (* most recent first *)
}.
Arguments mkWorld {St App}.
Arguments w_state {St App}.
Arguments w_store {St App}.
Arguments w_app {St App}.
Arguments w_ticks {St App}.
Arguments w_trace {St App}.

Section World.
Context {St App E : Type}.
Implicit Types w : World St App.

Definition w_set_state w s := mkWorld s (w_store w) (w_app w) (w_ticks w) (w_trace w).
Definition w_set_store w (s : St) : World St App := mkWorld (w_state w) s (w_app w) (w_ticks w) (w_trace w).
Definition w_set_app w (a : App) : World St App := mkWorld (w_state w) (w_store w) a (w_ticks w) (w_trace w).
Definition w_emit w e := mkWorld (w_state w) (w_store w) (w_app w) (w_ticks w) (e :: w_trace w).
Definition w_tick w := mkWorld (w_state w) (w_store w) (w_app w) (S (w_ticks w)) (w_trace w).

Definition get_state : SM (World St App) E ConsensusState := gets w_state.
Definition get_store : SM (World St App) E St := gets w_store.
Definition put_state (s : ConsensusState) : SM (World St App) E unit :=
  modify (λ w, w_set_state w s).
Definition mod_state (f : ConsensusState → ConsensusState) : SM (World St App) E unit :=
  modify (λ w, w_set_state w (f (w_state w))).
Definition mod_store (f : St → St) : SM (World St App) E unit :=
  modify (λ w, w_set_store w (f (w_store w))).
Definition emit (e : Effect) : SM (World St App) E unit := modify (λ w, w_emit w e).

(** A call on the application. *)
Definition call_app {A} (f : App → A * App) : SM (World St App) E A := λ w,
  let (a, app) := f (w_app w) in (w_set_app w app, Ok a).

(** Reading the clock; [clock n] is the [n]-th reading. *)
Definition read_clock (clock : nat → N) : SM (World St App) E N := λ w,
  (w_tick w, Ok (clock (w_ticks w))).

(** [signer.sign(&bytes)] of a payload. *)
Definition sign_payload `{Blake3, Signer} (p : SignedPayload) : SM (World St App) E Signature :=
  emit (ESign p) ;; mret (sign (payload_bytes p)).
End World.

(** ** Rules for the primitive operations *)

Section Primitives.
Context {W E : Type}.
Lemma wp_gets {A} (f : W → A) (Q : W → res E A → Prop) w : Q w (Ok (f w)) → wp (gets f) Q w.
Proof. done. Qed.
Lemma wp_get_w (Q : W → res E W → Prop) w : Q w (Ok w) → wp get_w Q w.
Proof. done. Qed.
Lemma wp_modify f (Q : W → res E unit → Prop) w : Q (f w) (Ok ()) → wp (modify f) Q w.
Proof. done. Qed.
Lemma wp_throw {A} (e : E) (Q : W → res E A → Prop) w : Q w (Err e) → wp (throw e) Q w.
Proof. done. Qed.
Lemma wp_panic {A} (Q : W → res E A → Prop) w : Q w Panic → wp panic Q w.
Proof. done. Qed.
Lemma wp_lift_res {A} (r : res E A) (Q : W → res E A → Prop) w : Q w r → wp (lift_res r) Q w.
Proof. done. Qed.
End Primitives.

Section WorldPrimitives.
Context {St App E : Type}.
Implicit Types w : World St App.

Lemma wp_get_state (Q : _ → res E _ → Prop) w : Q w (Ok (w_state w)) → wp get_state Q w.
Proof. done. Qed.
Lemma wp_get_store (Q : _ → res E _ → Prop) w : Q w (Ok (w_store w)) → wp get_store Q w.
Proof. done. Qed.
Lemma wp_put_state s (Q : _ → res E _ → Prop) w : Q (w_set_state w s) (Ok ()) → wp (put_state s) Q w.
Proof. done. Qed.
Lemma wp_mod_state f (Q : _ → res E _ → Prop) w :
  Q (w_set_state w (f (w_state w))) (Ok ()) → wp (mod_state f) Q w.
Proof. done. Qed.
Lemma wp_mod_store f (Q : _ → res E _ → Prop) w :
  Q (w_set_store w (f (w_store w))) (Ok ()) → wp (mod_store f) Q w.
Proof. done. Qed.
Lemma wp_emit e (Q : _ → res E _ → Prop) w : Q (w_emit w e) (Ok ()) → wp (emit e) Q w.
Proof. done. Qed.
Lemma wp_read_clock c (Q : _ → res E _ → Prop) w :
  Q (w_tick w) (Ok (c (w_ticks w))) → wp (read_clock c) Q w.
Proof. done. Qed.
Lemma wp_call_app {A} (f : App → A * App) (Q : _ → res E _ → Prop) w :
  (∀ a app, f (w_app w) = (a, app) → Q (w_set_app w app) (Ok a)) → wp (call_app f) Q w.
Proof. unfold wp, call_app. destruct (f (w_app w)) as [a app]. intros HQ. by apply HQ. Qed.
Lemma wp_sign_payload `{Blake3, Signer} p (Q : _ → res E _ → Prop) w :
  Q (w_emit w (ESign p)) (Ok (sign (payload_bytes p))) → wp (sign_payload p) Q w.
Proof. done. Qed.
End WorldPrimitives.

(** One step of symbolic execution of a [wp] goal; branches of the code are
    left to the caller. *)
Ltac wp_step :=
  lazymatch goal with
  | |- wp (mret _) _ _ => apply wp_ret
  | |- wp (_ ≫= _) _ _ => apply wp_bind
  | |- wp (mbind _ _) _ _ => apply wp_bind
  | |- wp (gets _) _ _ => apply wp_gets
  | |- wp get_w _ _ => apply wp_get_w
  | |- wp (modify _) _ _ => apply wp_modify
  | |- wp (throw _) _ _ => apply wp_throw
  | |- wp panic _ _ => apply wp_panic
  | |- wp (lift_res _) _ _ => apply wp_lift_res
  | |- wp get_state _ _ => apply wp_get_state
  | |- wp get_store _ _ => apply wp_get_store
  | |- wp (put_state _) _ _ => apply wp_put_state
  | |- wp (mod_state _) _ _ => apply wp_mod_state
  | |- wp (mod_store _) _ _ => apply wp_mod_store
  | |- wp (emit _) _ _ => apply wp_emit
  | |- wp (read_clock _) _ _ => apply wp_read_clock
  | |- wp (sign_payload _) _ _ => apply wp_sign_payload
  | |- wp (call_app _) _ _ => apply wp_call_app; intros ? ? ?
  | |- wp (try_ _) _ _ => apply wp_try
  | |- wp (when _ _) _ _ => apply wp_when; intros ?
  end.
Ltac wp_steps := repeat (wp_step; cbv beta zeta).

(** A property of the final state alone. *)
Lemma wp_fst {W E A} (P : W → Prop) (m : SM W E A) w : wp m (λ w' _, P w') w → P (m w).1.
Proof. done. Qed.
