(* ===== verification/Staking.v ===== *)
(** * Staking

    [hotmint-staking/src/]: the in-memory store and the staking manager, whose
    methods run in the state monad over the store (a method may fail after it
    has written).  The store's hash maps are finite maps; where the manager
    iterates over one it sorts the result or folds it in a way that does not
    depend on the order. *)

From stdpp Require Import sorting.
From S2P Require Import Prelude Types ValidatorSet Encoding State BlockStore World.

(** ** Types *)

Inductive SlashReason : Type := DoubleSign | Downtime.

Record AppliedSlash : Type := mkAppliedSlash {
  as_evidence_id : bytes;
  as_reason : SlashReason;
}.

Record ValidatorState : Type := mkValidatorState {
  va_id : ValidatorId;
  va_public_key : PublicKey;
  va_self_stake : N;
  va_delegated_stake : N;
  va_score : N;
  va_jailed : bool;
  va_jail_until_height : N;
  va_tombstoned : bool;
  va_applied_slashes : list AppliedSlash;
}.

Definition total_stake (v : ValidatorState) : N :=
  saturating_add64 (va_self_stake v) (va_delegated_stake v).

Definition voting_power (v : ValidatorState) : N :=
  if va_jailed v || va_tombstoned v then 0 else total_stake v.

Record SlashResult : Type := mkSlashResult {
  sr_self_slashed : N;
  sr_delegated_slashed : N;
  sr_jailed : bool;
}.

Record UnbondingEntry : Type := mkUnbondingEntry {
  ub_staker : bytes;
  ub_validator : ValidatorId;
  ub_amount : N;
  ub_completion_height : N;
}.

Record StakingConfig : Type := mkStakingConfig {
  sc_max_validators : nat;
  sc_min_self_stake : N;
  sc_slash_rate_double_sign : N;
  sc_slash_rate_downtime : N;
  sc_jail_duration : N;
  sc_initial_score : N;
  sc_max_score : N;
  sc_block_reward : N;
  sc_unbonding_period : N;
}.

Inductive staking_error : Type :=
| MaxValidatorsZero | SlashRateTooHigh | InitialScoreTooHigh
| AlreadyRegistered | InvalidKeyLength | DuplicateKey | SelfStakeTooLow
| ValidatorNotFound | SlashableStakeRemains | ZeroAmount | IsTombstoned
| DelegatedOverflow | EntryOverflow | NoStake | InsufficientDelegation
| EmptyEvidenceId | AlreadySlashed | NotJailed | StillJailed | RewardOverflow.

Definition validate_config (c : StakingConfig) : res staking_error unit :=
  if (sc_max_validators c =? 0)%nat then Err MaxValidatorsZero
  else if 10000 <? sc_slash_rate_double_sign c then Err SlashRateTooHigh
  else if 10000 <? sc_slash_rate_downtime c then Err SlashRateTooHigh
  else if sc_max_score c <? sc_initial_score c then Err InitialScoreTooHigh
  else Ok ().

Definition StakingConfig_default : StakingConfig :=
  mkStakingConfig 100 1000 500 100 1000 10000 10000 100 1000.

(** ** The store *)

Record StakingStore : Type := mkStakingStore {
  ss_validators : gmap ValidatorId ValidatorState;
  ss_stakes : gmap (bytes * ValidatorId) N;
  ss_unbondings : list UnbondingEntry;
}.

Definition ss_new : StakingStore := mkStakingStore ∅ ∅ [].

Definition get_validator (s : StakingStore) (id : ValidatorId) : option ValidatorState :=
  ss_validators s !! id.
Definition set_validator (id : ValidatorId) (v : ValidatorState) (s : StakingStore) : StakingStore :=
  mkStakingStore (<[id := v]> (ss_validators s)) (ss_stakes s) (ss_unbondings s).
Definition remove_validator (id : ValidatorId) (s : StakingStore) : StakingStore :=
  mkStakingStore (delete id (ss_validators s)) (ss_stakes s) (ss_unbondings s).
Definition all_validator_ids (s : StakingStore) : list ValidatorId :=
  (map_to_list (ss_validators s)).*1.

Definition get_stake (s : StakingStore) (staker : bytes) (v : ValidatorId) : option N :=
  ss_stakes s !! (staker, v).
Definition set_stake (staker : bytes) (v : ValidatorId) (amount : N) (s : StakingStore) : StakingStore :=
  mkStakingStore (ss_validators s) (<[(staker, v) := amount]> (ss_stakes s)) (ss_unbondings s).
Definition remove_stake (staker : bytes) (v : ValidatorId) (s : StakingStore) : StakingStore :=
  mkStakingStore (ss_validators s) (delete (staker, v) (ss_stakes s)) (ss_unbondings s).
Definition stakers_of (s : StakingStore) (v : ValidatorId) : list (bytes * N) :=
  omap (λ e : bytes * ValidatorId * N, if decide (e.1.2 = v) then Some (e.1.1, e.2) else None)
    (map_to_list (ss_stakes s)).

Definition push_unbonding (e : UnbondingEntry) (s : StakingStore) : StakingStore :=
  mkStakingStore (ss_validators s) (ss_stakes s) (ss_unbondings s ++ [e]).
Definition replace_unbondings (l : list UnbondingEntry) (s : StakingStore) : StakingStore :=
  mkStakingStore (ss_validators s) (ss_stakes s) l.
Definition drain_mature_unbondings (height : N) (s : StakingStore) : StakingStore * list UnbondingEntry :=
  (replace_unbondings (filter (λ e, ¬ ub_completion_height e ≤ height) (ss_unbondings s)) s,
   filter (λ e, ub_completion_height e ≤ height) (ss_unbondings s)).

(** ** The manager *)

Section Manager.
Context (config : StakingConfig).
Notation M := (SM StakingStore staking_error).

Definition the_validator (id : ValidatorId) : M ValidatorState :=
  s ← get_w; lift_res (ok_or (get_validator s id) ValidatorNotFound).

Definition ensure (b : bool) (e : staking_error) : M unit := if b then mret () else throw e.

Definition validate_public_key (pubkey : PublicKey) : M unit :=
  s ← get_w;
  ensure (length pubkey =? 32)%nat InvalidKeyLength ;;
  ensure (negb (existsb (λ v, bool_decide (va_public_key v = pubkey))
                  (omap (get_validator s) (all_validator_ids s)))) DuplicateKey.

Definition register_validator (id : ValidatorId) (pubkey : PublicKey) (self_stake : N) : M unit :=
  s ← get_w;
  ensure (bool_decide (get_validator s id = None)) AlreadyRegistered ;;
  validate_public_key pubkey ;;
  ensure (sc_min_self_stake config <=? self_stake) SelfStakeTooLow ;;
  modify (set_validator id
    (mkValidatorState id pubkey self_stake 0 (sc_initial_score config) false 0 false [])).

Definition has_pending_unbondings (s : StakingStore) (id : ValidatorId) : bool :=
  existsb (λ e, (ub_validator e =? id) && (0 <? ub_amount e)) (ss_unbondings s).

Definition with_tombstoned (v : ValidatorState) : ValidatorState :=
  mkValidatorState (va_id v) (va_public_key v) (va_self_stake v) (va_delegated_stake v) (va_score v)
    (va_jailed v) (va_jail_until_height v) true (va_applied_slashes v).

Definition unregister_validator (id : ValidatorId) : M N :=
  state ← the_validator id;
  ensure (negb (0 <? total_stake state)) SlashableStakeRemains ;;
  s ← get_w;
  if has_pending_unbondings s id then
    modify (set_validator id (with_tombstoned state)) ;; mret 0
  else modify (remove_validator id) ;; mret 0.

Definition with_delegated (v : ValidatorState) (n : N) : ValidatorState :=
  mkValidatorState (va_id v) (va_public_key v) (va_self_stake v) n (va_score v)
    (va_jailed v) (va_jail_until_height v) (va_tombstoned v) (va_applied_slashes v).

Definition delegate (staker : bytes) (validator : ValidatorId) (amount : N) : M unit :=
  ensure (negb (amount =? 0)) ZeroAmount ;;
  vs ← the_validator validator;
  ensure (negb (va_tombstoned vs)) IsTombstoned ;;
  delegated ← lift_res (ok_or (checked_add64 (va_delegated_stake vs) amount) DelegatedOverflow);
  modify (set_validator validator (with_delegated vs delegated)) ;;
  s ← get_w;
  let entry := default 0 (get_stake s staker validator) in
  entry ← lift_res (ok_or (checked_add64 entry amount) EntryOverflow);
  modify (set_stake staker validator entry).

Definition undelegate (staker : bytes) (validator : ValidatorId) (amount current_height : N) : M unit :=
  ensure (negb (amount =? 0)) ZeroAmount ;;
  vs ← the_validator validator;
  s ← get_w;
  entry ← lift_res (ok_or (get_stake s staker validator) NoStake);
  ensure (negb (entry <? amount)) InsufficientDelegation ;;
  let entry := entry - amount in
  let vs := with_delegated vs (saturating_sub (va_delegated_stake vs) amount) in
  (if entry =? 0 then modify (remove_stake staker validator)
   else modify (set_stake staker validator entry)) ;;
  modify (set_validator validator vs) ;;
  modify (push_unbonding (mkUnbondingEntry staker validator amount
    (saturating_add64 current_height (sc_unbonding_period config)))).

(** The loop over the validators; what it removes does not affect the tests. *)
Definition prune_tombstoned_validators (s : StakingStore) : StakingStore :=
  let pending := ub_validator <$> filter (λ e, 0 < ub_amount e) (ss_unbondings s) in
  foldl (λ s id,
    match get_validator s id with
    | None => s
    | Some state =>
        if va_tombstoned state && (total_stake state =? 0) && negb (bool_decide (id ∈ pending))
        then remove_validator id s else s
    end) s (all_validator_ids s).

Definition process_unbonding (current_height : N) : M (list UnbondingEntry) := λ s,
  let '(s, mature) := drain_mature_unbondings current_height s in
  (prune_tombstoned_validators s, Ok mature).

(** ** Slashing *)

Definition slash_rate (reason : SlashReason) : N :=
  match reason with
  | DoubleSign => sc_slash_rate_double_sign config
  | Downtime => sc_slash_rate_downtime config
  end.

(** [(a as u128 * b as u128 / d as u128) as u64] *)
Definition mul_div (a b d : N) : N := (a * b / d) mod (u64_max + 1).

(** One staker of the loop; the accumulator is [slashed_so_far] and
    [cumulative_stake]. *)
Definition slash_staker (id : ValidatorId) (del_slash total_del : N)
    (acc : N * N * StakingStore) (e : bytes * N) : N * N * StakingStore :=
  let '(slashed_so_far, cumulative_stake, s) := acc in
  let cumulative_stake := cumulative_stake +w e.2 in
  let cumulative_slash := mul_div cumulative_stake del_slash total_del in
  let staker_slash := wrapping_sub64 cumulative_slash slashed_so_far in
  let amount := saturating_sub e.2 staker_slash in
  (cumulative_slash, cumulative_stake,
   if amount =? 0 then remove_stake e.1 id s else set_stake e.1 id amount s).

Definition addr_le (a b : bytes * N) : Prop := bytes_cmp a.1 b.1 ≠ Gt.
#[global] Instance addr_le_dec : RelDecision addr_le.
Proof. intros a b. unfold addr_le. apply _. Defined.

Definition slash_stakers (id : ValidatorId) (del_slash : N) (s : StakingStore) : StakingStore :=
  let stakers := merge_sort addr_le (stakers_of s id) in
  let total_del := foldl (λ acc e, acc +w e.2) 0 stakers in
  if 0 <? total_del then (foldl (slash_staker id del_slash total_del) (0, 0, s) stakers).2 else s.

Definition slash_unbonding (id : ValidatorId) (rate : N) (e : UnbondingEntry) : UnbondingEntry * N :=
  if (ub_validator e =? id) && (0 <? ub_amount e) then
    let ub_slash := mul_div (ub_amount e) rate 10000 in
    (mkUnbondingEntry (ub_staker e) (ub_validator e) (saturating_sub (ub_amount e) ub_slash)
       (ub_completion_height e), ub_slash)
  else (e, 0).

Definition slash_with_evidence (id : ValidatorId) (evidence_id : bytes) (reason : SlashReason)
    (current_height : N) : M SlashResult :=
  ensure (negb (bool_decide (evidence_id = []))) EmptyEvidenceId ;;
  vs ← the_validator id;
  ensure (negb (existsb (λ a, bool_decide (as_evidence_id a = evidence_id)) (va_applied_slashes vs)))
    AlreadySlashed ;;
  let rate := slash_rate reason in
  let self_slash := mul_div (va_self_stake vs) rate 10000 in
  let del_slash := mul_div (va_delegated_stake vs) rate 10000 in
  let vs := mkValidatorState (va_id vs) (va_public_key vs)
    (saturating_sub (va_self_stake vs) self_slash) (saturating_sub (va_delegated_stake vs) del_slash)
    (saturating_sub (va_score vs) (sc_max_score config / 10)) true
    (N.max (va_jail_until_height vs) (saturating_add64 current_height (sc_jail_duration config)))
    (va_tombstoned vs) (va_applied_slashes vs ++ [mkAppliedSlash evidence_id reason]) in
  (if 0 <? del_slash then modify (slash_stakers id del_slash) else mret ()) ;;
  modify (set_validator id vs) ;;
  s ← get_w;
  let slashed := slash_unbonding id rate <$> ss_unbondings s in
  modify (replace_unbondings (filter (λ e, 0 < ub_amount e) slashed.*1)) ;;
  let unbonding_slashed := foldl saturating_add64 0 slashed.*2 in
  mret (mkSlashResult self_slash (saturating_add64 del_slash unbonding_slashed) true).

Definition default_evidence_id (reason : SlashReason) : bytes :=
  match reason with
  | DoubleSign => String.list_byte_of_string "reason:double-sign"
  | Downtime => String.list_byte_of_string "reason:downtime"
  end.

Definition slash (id : ValidatorId) (reason : SlashReason) (current_height : N) : M SlashResult :=
  slash_with_evidence id (default_evidence_id reason) reason current_height.

Definition with_jail (v : ValidatorState) (jailed : bool) (until : N) : ValidatorState :=
  mkValidatorState (va_id v) (va_public_key v) (va_self_stake v) (va_delegated_stake v) (va_score v)
    jailed until (va_tombstoned v) (va_applied_slashes v).

Definition unjail (id : ValidatorId) (current_height : N) : M unit :=
  vs ← the_validator id;
  ensure (negb (va_tombstoned vs)) IsTombstoned ;;
  ensure (va_jailed vs) NotJailed ;;
  ensure (negb (current_height <? va_jail_until_height vs)) StillJailed ;;
  modify (set_validator id (with_jail vs false 0)).
(** ** Scores and rewards *)

Definition with_score (v : ValidatorState) (n : N) : ValidatorState :=
  mkValidatorState (va_id v) (va_public_key v) (va_self_stake v) (va_delegated_stake v) n
    (va_jailed v) (va_jail_until_height v) (va_tombstoned v) (va_applied_slashes v).

Definition saturating_add32 (a b : N) : N := N.min (a + b) u32_max.

Definition increment_score (id : ValidatorId) (delta : N) (s : StakingStore) : StakingStore :=
  match get_validator s id with
  | Some vs => set_validator id
      (with_score vs (N.min (saturating_add32 (va_score vs) delta) (sc_max_score config))) s
  | None => s
  end.

Definition decrement_score (id : ValidatorId) (delta : N) (s : StakingStore) : StakingStore :=
  match get_validator s id with
  | Some vs => set_validator id (with_score vs (saturating_sub (va_score vs) delta)) s
  | None => s
  end.

Definition with_self_stake (v : ValidatorState) (n : N) : ValidatorState :=
  mkValidatorState (va_id v) (va_public_key v) n (va_delegated_stake v) (va_score v)
    (va_jailed v) (va_jail_until_height v) (va_tombstoned v) (va_applied_slashes v).

(** [rewards::proposer_reward] *)
Definition proposer_reward : N := sc_block_reward config.

Definition reward_proposer (proposer : ValidatorId) : M N :=
  let reward := proposer_reward in
  if reward =? 0 then mret 0
  else
    vs ← the_validator proposer;
    ensure (negb (va_tombstoned vs)) IsTombstoned ;;
    self_stake ← lift_res (ok_or (checked_add64 (va_self_stake vs) reward) RewardOverflow);
    modify (set_validator proposer (with_self_stake vs self_stake)) ;;
    mret reward.

(** ** Queries *)

Definition voting_power_of (s : StakingStore) (id : ValidatorId) : N :=
  match get_validator s id with Some vs => voting_power vs | None => 0 end.

Definition all_validators (s : StakingStore) : list ValidatorState :=
  omap (get_validator s) (all_validator_ids s).

Definition total_staked (s : StakingStore) : N :=
  foldl saturating_add64 0 (total_stake <$> all_validators s).

(** The sort key [(Reverse(voting_power), id)]. *)
Definition power_order (a b : ValidatorState) : Prop :=
  voting_power b < voting_power a ∨ voting_power a = voting_power b ∧ va_id a ≤ va_id b.
#[global] Instance power_order_dec : RelDecision power_order.
Proof. intros a b. unfold power_order. apply _. Defined.

Definition eligible (v : ValidatorState) : bool :=
  negb (va_jailed v) && negb (va_tombstoned v) && (sc_min_self_stake config <=? va_self_stake v).

Definition formal_validator_list (s : StakingStore) : list ValidatorState :=
  take (sc_max_validators config) (merge_sort power_order (filter (λ v, eligible v = true) (all_validators s))).

(** The loop of the overflow guard. *)
Definition checked_total (l : list ValidatorState) : option N :=
  foldl (λ acc v, t ← acc; checked_add64 t (voting_power v)) (Some 0) l.

Definition compute_validator_updates (s : StakingStore) (current_set : ValidatorSet)
    : list ValidatorUpdate :=
  let formal := formal_validator_list s in
  if bool_decide (formal = []) then []
  else match checked_total formal with
  | None => []
  | Some _ =>
      omap (λ v,
        if match get current_set (va_id v) with
           | Some current => (vi_power current =? voting_power v) &&
               bool_decide (vi_public_key current = va_public_key v)
           | None => false
           end
        then None
        else Some (mkValidatorUpdate (va_id v) (va_public_key v) (voting_power v))) formal ++
      omap (λ vi,
        if existsb (λ f, va_id f =? vi_id vi) formal then None
        else Some (mkValidatorUpdate (vi_id vi) (vi_public_key vi) 0)) (vs_validators current_set)
  end.
End Manager.

(** ** Sums over finite maps *)

Definition msum {K V} `{Countable K} (f : K → V → N) (m : gmap K V) : N :=
  sumN (λ p, f p.1 p.2) (map_to_list m).

Section Msum.
Context {K V : Type} `{Countable K} (f : K → V → N).
Implicit Types m : gmap K V.

Lemma msum_insert m k x : m !! k = None → msum f (<[k := x]> m) = f k x + msum f m.
Proof. intros Hk. unfold msum. by rewrite (sumN_perm _ _ _ (map_to_list_insert m k x Hk)). Qed.

Lemma msum_delete m k x : m !! k = Some x → msum f m = f k x + msum f (delete k m).
Proof.
  intros Hk. rewrite <- (insert_delete_id m k x) at 1 by done. apply msum_insert, lookup_delete_eq.
Qed.

Lemma msum_update m k x y : m !! k = Some x → msum f (<[k := y]> m) + f k x = msum f m + f k y.
Proof.
  intros Hk. rewrite <- (insert_delete_eq m), msum_insert by apply lookup_delete_eq.
  rewrite (msum_delete m k x) by done. lia.
Qed.

Lemma msum_elem m k x : m !! k = Some x → f k x ≤ msum f m.
Proof. intros Hk. rewrite (msum_delete m k x) by done. lia. Qed.

Lemma msum_delete_zero m k : (∀ x, m !! k = Some x → f k x = 0) → msum f (delete k m) = msum f m.
Proof.
  intros Hk. destruct (m !! k) as [x|] eqn:E; [|by rewrite delete_id].
  rewrite (msum_delete m k x), (Hk x) by done. done.
Qed.
End Msum.

(** ** The invariant of the store *)

(** What the stakers have delegated to [id]. *)
Definition stake_sum (s : StakingStore) (id : ValidatorId) : N :=
  msum (λ (k : bytes * ValidatorId) a, if k.2 =? id then a else 0) (ss_stakes s).

Record validator_ok (config : StakingConfig) (id : ValidatorId) (v : ValidatorState) : Prop := {
  vo_id : va_id v = id;
  vo_key : length (va_public_key v) = 32%nat;
  vo_self : va_self_stake v ≤ u64_max;
  vo_delegated : va_delegated_stake v ≤ u64_max;
  vo_score : va_score v ≤ sc_max_score config;
  vo_tombstoned : va_tombstoned v = true → va_self_stake v = 0 ∧ va_delegated_stake v = 0;
}.

Record unbonding_ok (s : StakingStore) (e : UnbondingEntry) : Prop := {
  uo_pos : 0 < ub_amount e;
  uo_bound : ub_amount e ≤ u64_max;
  uo_registered : is_Some (get_validator s (ub_validator e));
}.

(** Each validator's delegated stake is the sum of its stakers' entries, the
    entries and the unbondings belong to registered validators, and no two
    validators share a key. *)
Record staking_ok (config : StakingConfig) (s : StakingStore) : Prop := {
  so_valid : ∀ id v, get_validator s id = Some v → validator_ok config id v;
  so_sum : ∀ id v, get_validator s id = Some v → va_delegated_stake v = stake_sum s id;
  so_keys : ∀ id1 id2 v1 v2, get_validator s id1 = Some v1 → get_validator s id2 = Some v2 →
    va_public_key v1 = va_public_key v2 → id1 = id2;
  so_stake : ∀ a id n, get_stake s a id = Some n → 0 < n ∧ is_Some (get_validator s id);
  so_unbonding : Forall (unbonding_ok s) (ss_unbondings s);
}.

(** Everything the store holds: bonded and unbonding. *)
Definition funds (s : StakingStore) : N :=
  msum (λ _ v, va_self_stake v + va_delegated_stake v) (ss_validators s) +
  sumN ub_amount (ss_unbondings s).

(** ** Changing one entry *)

Definition put_stake (a : bytes) (id : ValidatorId) (n : N) (s : StakingStore) : StakingStore :=
  if n =? 0 then remove_stake a id s else set_stake a id n s.

Lemma put_stake_lookup a id n s b id' :
  get_stake (put_stake a id n s) b id' =
  if decide ((a, id) = (b, id')) then (if n =? 0 then None else Some n) else get_stake s b id'.
Proof.
  unfold get_stake, put_stake. destruct (n =? 0); simpl.
  - rewrite lookup_delete. by case_decide.
  - rewrite lookup_insert. by case_decide.
Qed.

Lemma put_stake_validators a id n s : ss_validators (put_stake a id n s) = ss_validators s.
Proof. unfold put_stake. by destruct (n =? 0). Qed.
Lemma put_stake_unbondings a id n s : ss_unbondings (put_stake a id n s) = ss_unbondings s.
Proof. unfold put_stake. by destruct (n =? 0). Qed.

Lemma put_stake_sum a id n s :
  stake_sum (put_stake a id n s) id + default 0 (get_stake s a id) = stake_sum s id + n.
Proof.
  set (f := λ (k : bytes * ValidatorId) (x : N), if k.2 =? id then x else 0).
  assert (Hf : ∀ x, f (a, id) x = x) by (intros; unfold f; simpl; by rewrite N.eqb_refl).
  unfold stake_sum, put_stake, get_stake. fold f.
  destruct (N.eqb_spec n 0) as [->|Hn]; simpl; destruct (ss_stakes s !! (a, id)) as [x|] eqn:E; simpl.
  - rewrite (msum_delete f (ss_stakes s) (a, id) x), Hf by done. lia.
  - rewrite delete_id by done. lia.
  - pose proof (msum_update f (ss_stakes s) (a, id) x n E) as Hu. rewrite !Hf in Hu. lia.
  - rewrite msum_insert, Hf by done. lia.
Qed.

Lemma put_stake_sum_ne a id n s id' : id' ≠ id → stake_sum (put_stake a id n s) id' = stake_sum s id'.
Proof.
  intros Hne. set (f := λ (k : bytes * ValidatorId) (x : N), if k.2 =? id' then x else 0).
  assert (Hf : ∀ x, f (a, id) x = 0) by (intros; unfold f; simpl; by rewrite (proj2 (N.eqb_neq id id'))).
  unfold stake_sum, put_stake. fold f. destruct (n =? 0); simpl.
  - apply msum_delete_zero. intros x _. apply Hf.
  - destruct (ss_stakes s !! (a, id)) as [x|] eqn:E.
    + pose proof (msum_update f (ss_stakes s) (a, id) x n E) as Hu. rewrite !Hf in Hu. lia.
    + rewrite msum_insert, Hf by done. lia.
Qed.

Section Preservation.
Context (config : StakingConfig).
Implicit Types (s : StakingStore) (v : ValidatorState).

Lemma set_validator_lookup id v s id' :
  get_validator (set_validator id v s) id' = if decide (id = id') then Some v else get_validator s id'.
Proof. unfold get_validator, set_validator; simpl. rewrite lookup_insert. by case_decide. Qed.

Lemma set_validator_registered id v s id' :
  is_Some (get_validator s id') → is_Some (get_validator (set_validator id v s) id').
Proof. rewrite set_validator_lookup. case_decide; eauto. Qed.

(** Replacing a validator's record and one of its stakers' entries together. *)
Lemma set_validator_put_ok s id v v' a n :
  staking_ok config s → get_validator s id = Some v → validator_ok config id v' →
  va_public_key v' = va_public_key v →
  va_delegated_stake v' + default 0 (get_stake s a id) = va_delegated_stake v + n →
  staking_ok config (set_validator id v' (put_stake a id n s)).
Proof.
  intros [Hv Hs Hk He Hu] Hg Hv' Hpk Hd.
  assert (Hgp : ∀ i, get_validator (put_stake a id n s) i = get_validator s i)
    by (intros i; unfold get_validator; by rewrite put_stake_validators).
  split.
  - intros i w. rewrite set_validator_lookup, Hgp. case_decide; intros; simplify_eq; eauto.
  - intros i w. rewrite set_validator_lookup, Hgp. change (stake_sum (set_validator id v' ?s0)) with (stake_sum s0).
    case_decide; intros; simplify_eq; [|rewrite put_stake_sum_ne by done; eauto].
    pose proof (put_stake_sum a i n s). pose proof (Hs _ _ Hg). lia.
  - intros i j w1 w2. rewrite !set_validator_lookup, !Hgp.
    repeat case_decide; intros; simplify_eq; try done; eapply Hk; eauto; congruence.
  - intros b i m Hst. change (get_stake (put_stake a id n s) b i = Some m) in Hst.
    assert (0 < m ∧ is_Some (get_validator s i)) as [Hm Hi].
    { rewrite put_stake_lookup in Hst. case_decide; [|eauto]. simplify_eq.
      destruct (N.eqb_spec n 0); simplify_eq. split; [lia|eauto]. }
    split; [done|]. apply set_validator_registered. by rewrite Hgp.
  - change (Forall (unbonding_ok (set_validator id v' (put_stake a id n s)))
      (ss_unbondings (put_stake a id n s))).
    rewrite put_stake_unbondings. eapply Forall_impl; [exact Hu|]. intros e [? ? ?]. split; [done..|].
    apply set_validator_registered. by rewrite Hgp.
Qed.

Lemma put_stake_same s a id : staking_ok config s → put_stake a id (default 0 (get_stake s a id)) s = s.
Proof.
  intros Hok. unfold put_stake, get_stake. destruct s as [vs st ub]; simpl.
  destruct (st !! (a, id)) as [n|] eqn:E; simpl.
  - destruct (so_stake _ _ Hok a id n E) as [Hn _]. rewrite (proj2 (N.eqb_neq n 0)) by lia.
    unfold set_stake; simpl. by rewrite insert_id.
  - unfold remove_stake; simpl. by rewrite delete_id.
Qed.

Lemma set_validator_ok s id v v' :
  staking_ok config s → get_validator s id = Some v → validator_ok config id v' →
  va_public_key v' = va_public_key v → va_delegated_stake v' = va_delegated_stake v →
  staking_ok config (set_validator id v' s).
Proof.
  intros Hok Hg Hv' Hpk Hd. rewrite <- (put_stake_same s [] id Hok) at 1.
  eapply set_validator_put_ok; eauto. lia.
Qed.

Lemma stake_le_sum s a id n : get_stake s a id = Some n → n ≤ stake_sum s id.
Proof.
  intros Hn. unfold stake_sum.
  pose proof (msum_elem (λ (k : bytes * ValidatorId) a, if k.2 =? id then a else 0) _ _ _ Hn) as H.
  simpl in H. by rewrite N.eqb_refl in H.
Qed.

Lemma remove_validator_ok s id v :
  staking_ok config s → get_validator s id = Some v → va_delegated_stake v = 0 →
  Forall (λ e, ub_validator e ≠ id) (ss_unbondings s) →
  staking_ok config (remove_validator id s).
Proof.
  intros [Hv Hs Hk He Hu] Hg Hd Hub.
  assert (Hgr : ∀ i w, get_validator (remove_validator id s) i = Some w →
                get_validator s i = Some w)
    by (intros i w; unfold get_validator, remove_validator; simpl; by intros [_ ?]%lookup_delete_Some).
  assert (Hkeep : ∀ i, i ≠ id → get_validator (remove_validator id s) i = get_validator s i)
    by (intros i Hi; unfold get_validator, remove_validator; simpl; by rewrite lookup_delete_ne).
  split; [eauto| |eauto 6| |].
  - intros i w Hi. change (stake_sum (remove_validator id s) i) with (stake_sum s i). eauto.
  - intros a i n Hn. change (get_stake s a i = Some n) in Hn. destruct (He _ _ _ Hn) as [Hpos Hi].
    split; [done|]. destruct (decide (i = id)) as [->|]; [|by rewrite Hkeep].
    pose proof (stake_le_sum _ _ _ _ Hn). pose proof (Hs _ _ Hg). lia.
  - change (Forall (unbonding_ok (remove_validator id s)) (ss_unbondings s)).
    rewrite Forall_forall in Hu, Hub |- *. intros e Hin. destruct (Hu e Hin). split; [done..|].
    rewrite Hkeep; eauto.
Qed.

Lemma replace_unbondings_ok s l :
  staking_ok config s → Forall (unbonding_ok s) l → staking_ok config (replace_unbondings l s).
Proof. intros [Hv Hs Hk He Hu] Hl. split; [exact Hv|exact Hs|exact Hk|exact He|].
  eapply Forall_impl; [exact Hl|]. intros e [? ? ?]. by split.
Qed.

Lemma total_stake_zero v : total_stake v = 0 → va_self_stake v = 0 ∧ va_delegated_stake v = 0.
Proof. unfold total_stake, saturating_add64. assert (0 < u64_max) by done. lia. Qed.

(** ** The funds *)

Lemma funds_set_validator s id v v' :
  get_validator s id = Some v →
  funds (set_validator id v' s) + (va_self_stake v + va_delegated_stake v) =
  funds s + (va_self_stake v' + va_delegated_stake v').
Proof.
  intros Hg. unfold funds; simpl.
  pose proof (msum_update (λ _ v, va_self_stake v + va_delegated_stake v) _ _ _ v' Hg). simpl in *. lia.
Qed.

Lemma funds_put_stake s a id n : funds (put_stake a id n s) = funds s.
Proof. unfold funds. by rewrite put_stake_validators, put_stake_unbondings. Qed.

Lemma funds_remove s id v :
  get_validator s id = Some v → total_stake v = 0 → funds (remove_validator id s) = funds s.
Proof.
  intros Hg Ht. unfold funds; simpl.
  rewrite (msum_delete _ (ss_validators s) id v) by done. apply total_stake_zero in Ht. lia.
Qed.
End Preservation.

(** ** The stakers' share of a slash *)

Lemma floor_step C n D T : 0 < T → D ≤ T →
  ∃ loss, C * D / T + loss = (C + n) * D / T ∧ n * D / T ≤ loss ≤ n * D / T + 1 ∧ loss ≤ n.
Proof.
  intros HT HD. rewrite N.mul_add_distr_r.
  pose proof (N.div_mod' (C * D) T) as E1. pose proof (N.div_mod' (n * D) T) as E2.
  assert ((C * D) mod T < T) as L1 by (apply N.mod_lt; lia).
  assert ((n * D) mod T < T) as L2 by (apply N.mod_lt; lia).
  assert (n * D ≤ T * n) as Hn by (rewrite (N.mul_comm T); by apply N.mul_le_mono_l).
  revert E1 E2 L1 L2. generalize ((C * D) mod T), ((n * D) mod T), (C * D / T), (n * D / T).
  intros r1 r2 q1 q2 E1 E2 L1 L2.
  assert (q1 + q2 ≤ (C * D + n * D) / T) by (apply N.div_le_lower_bound; nia).
  assert ((C * D + n * D) / T < q1 + n + 1) by (apply N.Div0.div_lt_upper_bound; nia).
  assert ((C * D + n * D) / T < q1 + q2 + 2) by (apply N.Div0.div_lt_upper_bound; nia).
  revert H H0 H1. generalize ((C * D + n * D) / T). intros q H1 H2 H3. exists (q - q1). lia.
Qed.

Lemma mul_div_small a b d : 0 < d → a ≤ u64_max → b ≤ d → mul_div a b d = a * b / d ∧ a * b / d ≤ a.
Proof.
  intros Hd Ha Hb. assert (a * b / d ≤ a).
  { apply N.Div0.div_le_upper_bound. rewrite N.mul_comm. by apply N.mul_le_mono_r. }
  split; [|done]. apply N.mod_small. lia.
Qed.

(** What a staker with [n] delegated is left with. *)
Definition slashed_entry (D T n : N) (r : option N) : Prop :=
  ∃ loss, n * D / T ≤ loss ≤ n * D / T + 1 ∧ loss ≤ n ∧
    r = if n - loss =? 0 then None else Some (n - loss).

Section SlashLoop.
Context (id : ValidatorId) (D T : N) (HT : 0 < T) (HD : D ≤ T) (HTmax : T ≤ u64_max).

Lemma slash_staker_eq C s a n : C + n ≤ T →
  ∃ loss, (C * D / T + loss = (C + n) * D / T ∧ n * D / T ≤ loss ≤ n * D / T + 1 ∧ loss ≤ n) ∧
    slash_staker id D T (C * D / T, C, s) (a, n) =
      ((C + n) * D / T, C + n, put_stake a id (n - loss) s).
Proof.
  intros HC. destruct (mul_div_small (C + n) D T) as [Hm Hle]; [done|lia|done|].
  destruct (floor_step C n D T HT HD) as (loss & Hsum & Hloss & Hn).
  exists loss. split; [done|]. unfold slash_staker; simpl. rewrite wrapping_add64_small by lia.
  rewrite Hm. rewrite <- Hsum in *. rewrite wrapping_sub64_small by lia.
  by rewrite N.add_comm, N.add_sub.
Qed.

Lemma slash_loop_spec l : ∀ C s,
  C + sumN snd l ≤ T → NoDup l.*1 → (∀ a n, (a, n) ∈ l → get_stake s a id = Some n) →
  ∃ s', foldl (slash_staker id D T) (C * D / T, C, s) l =
      ((C + sumN snd l) * D / T, C + sumN snd l, s') ∧
    ss_validators s' = ss_validators s ∧ ss_unbondings s' = ss_unbondings s ∧
    (stake_sum s' id + (C + sumN snd l) * D / T = stake_sum s id + C * D / T) ∧
    (∀ i, i ≠ id → stake_sum s' i = stake_sum s i) ∧
    (∀ a n, (a, n) ∈ l → slashed_entry D T n (get_stake s' a id)) ∧
    (∀ a i, i ≠ id ∨ a ∉ l.*1 → get_stake s' a i = get_stake s a i).
Proof.
  induction l as [|[a n] l IH]; intros C s HC Hnd Hl.
  - exists s. simpl. rewrite N.add_0_r. repeat split; intros; set_solver.
  - rewrite fmap_cons, NoDup_cons in Hnd. destruct Hnd as [Ha Hnd]. rewrite sumN_cons in *. simpl in HC, Ha.
    destruct (slash_staker_eq C s a n) as (loss & (Hsum & Hloss & Hle) & Heq); [lia|].
    destruct (IH (C + n) (put_stake a id (n - loss) s)) as (s' & Hf & Hv & Hu & Hss & Hother & Hin & Hout).
    { lia. } { done. }
    { intros b m Hb. rewrite put_stake_lookup. rewrite decide_False; [apply Hl; by right|].
      intros [= <-]. apply Ha. by apply (list_elem_of_fmap_2 fst _ (a, m)). }
    exists s'. rewrite <- N.add_assoc in Hf, Hss. split; [cbn [foldl snd]; rewrite Heq; exact Hf|].
    rewrite Hv, Hu, put_stake_validators, put_stake_unbondings. split_and!; [done..| | | |].
    + pose proof (put_stake_sum a id (n - loss) s) as Hp. rewrite (Hl a n) in Hp by left. simpl in Hp, Hss |- *. lia.
    + intros i Hi. by rewrite Hother, put_stake_sum_ne.
    + intros b m Hb. apply elem_of_cons in Hb as [[= -> ->]|Hb]; [|by apply Hin].
      exists loss. split; [done|]. split; [done|]. rewrite Hout by (by right).
      rewrite put_stake_lookup. by rewrite decide_True.
    + intros b i Hb. rewrite Hout by set_solver. rewrite put_stake_lookup, decide_False; [done|]. set_solver.
Qed.
End SlashLoop.

Section StakersOf.
Context (s : StakingStore) (id : ValidatorId).
Let pick := λ e : bytes * ValidatorId * N, if decide (e.1.2 = id) then Some (e.1.1, e.2) else None.

Lemma stakers_of_elem a n : (a, n) ∈ stakers_of s id ↔ get_stake s a id = Some n.
Proof.
  unfold stakers_of, get_stake. rewrite list_elem_of_omap. split.
  - intros ([[b i] m] & Hin & E). simpl in E. case_decide; simplify_eq. by apply elem_of_map_to_list in Hin.
  - intros E. exists ((a, id), n). split; [by apply elem_of_map_to_list|]. simpl. by rewrite decide_True.
Qed.

Lemma stakers_of_sum : sumN snd (stakers_of s id) = stake_sum s id.
Proof.
  unfold stakers_of, stake_sum, msum. fold pick.
  induction (map_to_list (ss_stakes s)) as [|[[a i] n] l IH]; [done|]. simpl.
  unfold pick at 1; simpl. case_decide as E; rewrite ?sumN_cons, <- IH.
  - by rewrite E, N.eqb_refl.
  - by rewrite (proj2 (N.eqb_neq i id) E).
Qed.

Lemma stakers_of_NoDup : NoDup (stakers_of s id).*1.
Proof.
  unfold stakers_of. fold pick. pose proof (NoDup_fst_map_to_list (ss_stakes s)) as Hnd.
  induction (map_to_list (ss_stakes s)) as [|[[a i] n] l IH]; [constructor|].
  rewrite fmap_cons, NoDup_cons in Hnd. destruct Hnd as [Ha Hnd]. simpl.
  unfold pick at 1; simpl. case_decide as E; [|auto]. simpl. constructor; [|auto].
  rewrite list_elem_of_fmap. intros ([b m] & -> & Hin). simpl in *.
  apply list_elem_of_omap in Hin as ([[c j] k] & Hc & Epick). unfold pick in Epick; simpl in Epick.
  case_decide; simplify_eq. apply Ha. by apply (list_elem_of_fmap_2 fst _ ((b, id), m)).
Qed.
End StakersOf.

Lemma wrapping_sum (l : list (bytes * N)) acc :
  acc + sumN snd l ≤ u64_max → foldl (λ acc e, acc +w e.2) acc l = acc + sumN snd l.
Proof.
  revert acc. induction l as [|e l IH]; intros acc H; simpl in *; [lia|].
  rewrite wrapping_add64_small, IH by lia. lia.
Qed.

Lemma slash_stakers_spec s id D : D ≤ stake_sum s id → 0 < D → stake_sum s id ≤ u64_max →
  let s' := slash_stakers id D s in
  ss_validators s' = ss_validators s ∧ ss_unbondings s' = ss_unbondings s ∧
  stake_sum s' id + D = stake_sum s id ∧
  (∀ i, i ≠ id → stake_sum s' i = stake_sum s i) ∧
  (∀ a n, get_stake s a id = Some n → slashed_entry D (stake_sum s id) n (get_stake s' a id)) ∧
  (∀ a i, i ≠ id ∨ get_stake s a id = None → get_stake s' a i = get_stake s a i).
Proof.
  intros HD Hpos Hmax. unfold slash_stakers.
  set (l := merge_sort addr_le (stakers_of s id)).
  assert (Hl : l ≡ₚ stakers_of s id) by apply merge_sort_Permutation.
  assert (Hsum : sumN snd l = stake_sum s id) by (rewrite (sumN_perm _ _ _ Hl); apply stakers_of_sum).
  rewrite wrapping_sum by (rewrite Hsum; lia). rewrite N.add_0_l, Hsum.
  rewrite (proj2 (N.ltb_lt 0 (stake_sum s id))) by lia.
  destruct (slash_loop_spec id D (stake_sum s id) ltac:(lia) HD Hmax l 0 s)
    as (s' & Hf & Hv & Hu & Hss & Hother & Hin & Hout).
  { lia. } { rewrite Hl. apply stakers_of_NoDup. }
  { intros a n Ha. apply stakers_of_elem. by rewrite <- Hl. }
  rewrite N.mul_0_l, N.Div0.div_0_l, Hsum, !N.add_0_l in Hf. rewrite Hf. simpl.
  rewrite N.mul_0_l, N.Div0.div_0_l, Hsum, !N.add_0_l, N.add_0_r in Hss.
  rewrite (N.mul_comm (stake_sum s id)), N.div_mul in Hss by lia.
  split_and!; [done..| |].
  - intros a n Ha. apply Hin. rewrite Hl. by apply stakers_of_elem.
  - intros a i [Hi|Hn]; apply Hout; [by left|right]. rewrite list_elem_of_fmap.
    intros ([b n] & -> & Hb). rewrite Hl in Hb. apply stakers_of_elem in Hb. simpl in *. congruence.
Qed.

Lemma saturating_sum l acc : acc ≤ u64_max →
  foldl saturating_add64 acc l = N.min (acc + sumN id l) u64_max.
Proof.
  revert acc. induction l as [|n l IH]; intros acc Hacc; cbn [foldl]; [cbn; lia|].
  rewrite IH, sumN_cons by (unfold saturating_add64; lia). change (id n) with n. unfold saturating_add64. lia.
Qed.

(** ** Slashing as a whole *)

Lemma sumN_filter_pos l : sumN ub_amount (filter (λ e, 0 < ub_amount e) l) = sumN ub_amount l.
Proof.
  induction l as [|e l IH]; [done|]. rewrite filter_cons, sumN_cons.
  case_decide; rewrite ?sumN_cons, IH; lia.
Qed.

Lemma slash_unbonding_spec s id rate e : rate ≤ 10000 → unbonding_ok s e →
  let '(e', n) := slash_unbonding id rate e in
  ub_amount e' + n = ub_amount e ∧ ub_validator e' = ub_validator e ∧
  n = if ub_validator e =? id then ub_amount e * rate / 10000 else 0.
Proof.
  intros Hr [Hp Hb _]. unfold slash_unbonding. rewrite (proj2 (N.ltb_lt _ _) Hp), andb_true_r.
  destruct (ub_validator e =? id); [|split_and!; [lia|done..]]. simpl.
  destruct (mul_div_small (ub_amount e) rate 10000) as [-> Hle]; [done..|].
  split_and!; [|done..]. unfold saturating_sub. lia.
Qed.

Lemma slash_unbondings_spec s id rate l : rate ≤ 10000 → Forall (unbonding_ok s) l →
  let slashed := slash_unbonding id rate <$> l in
  let kept := filter (λ e, 0 < ub_amount e) slashed.*1 in
  Forall (unbonding_ok s) kept ∧
  sumN ub_amount kept + sumN Datatypes.id slashed.*2 = sumN ub_amount l ∧
  sumN Datatypes.id slashed.*2 =
    sumN (λ e, if ub_validator e =? id then ub_amount e * rate / 10000 else 0) l.
Proof.
  intros Hr Hl. simpl. rewrite sumN_filter_pos. split; [|split].
  - rewrite Forall_forall in Hl |- *. intros e [Hp He]%list_elem_of_filter.
    rewrite <- list_fmap_compose in He. apply list_elem_of_fmap in He as (e0 & -> & He0).
    pose proof (slash_unbonding_spec s id rate e0 Hr (Hl _ He0)) as Hs. simpl in *.
    destruct (slash_unbonding id rate e0) as [e' n], (Hl _ He0), Hs as (? & Hv & _).
    split; simpl; [done|lia|]. by rewrite Hv.
  - induction Hl as [|e l He Hl IH]; [done|]. rewrite !fmap_cons, !sumN_cons.
    pose proof (slash_unbonding_spec s id rate e Hr He) as Hs.
    destruct (slash_unbonding id rate e) as [e' n]. simpl. change (Datatypes.id n) with n. lia.
  - induction Hl as [|e l He Hl IH]; [done|]. rewrite !fmap_cons, !sumN_cons, IH. f_equal.
    pose proof (slash_unbonding_spec s id rate e Hr He) as Hs.
    destruct (slash_unbonding id rate e) as [e' n]. simpl. apply Hs.
Qed.

Section SlashAll.
Context (config : StakingConfig) (Hconfig : validate_config config = Ok ()).

Lemma slash_rate_bound reason : slash_rate config reason ≤ 10000.
Proof.
  unfold validate_config in Hconfig. destruct (_ =? _)%nat; [done|].
  destruct (N.ltb_spec 10000 (sc_slash_rate_double_sign config)); [done|].
  destruct (N.ltb_spec 10000 (sc_slash_rate_downtime config)); [done|]. by destruct reason.
Qed.

(** The record of a slashed validator. *)
Definition slashed_validator (v : ValidatorState) (evidence_id : bytes) (reason : SlashReason)
    (current_height : N) : ValidatorState :=
  let rate := slash_rate config reason in
  mkValidatorState (va_id v) (va_public_key v)
    (va_self_stake v - va_self_stake v * rate / 10000)
    (va_delegated_stake v - va_delegated_stake v * rate / 10000)
    (va_score v - sc_max_score config / 10) true
    (N.max (va_jail_until_height v) (N.min (current_height + sc_jail_duration config) u64_max))
    (va_tombstoned v) (va_applied_slashes v ++ [mkAppliedSlash evidence_id reason]).

Definition slash_bonded (id : ValidatorId) (D : N) (s : StakingStore) : StakingStore :=
  if 0 <? D then slash_stakers id D s else s.

Lemma slash_bonded_spec s id D :
  staking_ok config s → D ≤ stake_sum s id → stake_sum s id ≤ u64_max →
  let s' := slash_bonded id D s in
  ss_validators s' = ss_validators s ∧ ss_unbondings s' = ss_unbondings s ∧
  stake_sum s' id + D = stake_sum s id ∧
  (∀ i, i ≠ id → stake_sum s' i = stake_sum s i) ∧
  (∀ a n, get_stake s a id = Some n → slashed_entry D (stake_sum s id) n (get_stake s' a id)) ∧
  (∀ a i, i ≠ id ∨ get_stake s a id = None → get_stake s' a i = get_stake s a i).
Proof.
  intros Hok HD Hmax. unfold slash_bonded. destruct (N.ltb_spec 0 D); [by apply slash_stakers_spec|].
  assert (D = 0) as -> by lia. split_and!; [done|done|lia|done| |done].
  intros a n Ha. exists 0. rewrite N.mul_0_r, N.Div0.div_0_l, N.sub_0_r, Ha.
  destruct (so_stake _ _ Hok _ _ _ Ha). rewrite (proj2 (N.eqb_neq n 0)) by lia. split_and!; [lia..|done].
Qed.

Lemma slash_with_evidence_run s id evidence_id reason h v :
  get_validator s id = Some v → evidence_id ≠ [] →
  Forall (λ a, as_evidence_id a ≠ evidence_id) (va_applied_slashes v) →
  validator_ok config id v →
  let rate := slash_rate config reason in
  let D := va_delegated_stake v * rate / 10000 in
  let s1 := slash_bonded id D s in
  let slashed := slash_unbonding id rate <$> ss_unbondings s1 in
  slash_with_evidence config id evidence_id reason h s =
  (replace_unbondings (filter (λ e, 0 < ub_amount e) slashed.*1)
     (set_validator id (slashed_validator v evidence_id reason h) s1),
   Ok (mkSlashResult (va_self_stake v * rate / 10000)
         (saturating_add64 D (foldl saturating_add64 0 slashed.*2)) true)).
Proof.
  intros Hg Hne Hnew [_ _ Hself Hdel _ _]. pose proof (slash_rate_bound reason) as Hr.
  destruct (mul_div_small (va_self_stake v) (slash_rate config reason) 10000) as [E1 _]; [done..|].
  destruct (mul_div_small (va_delegated_stake v) (slash_rate config reason) 10000) as [E2 _]; [done..|].
  unfold slash_with_evidence, ensure, the_validator, mbind, SM_bind, get_w, lift_res, modify, mret, SM_ret.
  rewrite bool_decide_false by done. cbn -[mul_div slash_stakers filter]. rewrite Hg. cbn -[mul_div slash_stakers filter].
  assert (existsb (λ a, bool_decide (as_evidence_id a = evidence_id)) (va_applied_slashes v) = false) as ->.
  { apply not_true_iff_false. intros (a & Ha & Hd)%existsb_exists. apply bool_decide_eq_true in Hd.
    rewrite Forall_forall in Hnew. apply (Hnew a); [by apply list_elem_of_In|done]. }
  cbn -[mul_div slash_stakers filter]. rewrite E1, E2. unfold slash_bonded.
  by destruct (0 <? va_delegated_stake v * slash_rate config reason / 10000).
Qed.
End SlashAll.

Lemma saturating_add64_min a b : saturating_add64 a (N.min (0 + b) u64_max) = N.min (a + b) u64_max.
Proof. unfold saturating_add64. lia. Qed.

Section SlashSpec.
Context (config : StakingConfig) (Hconfig : validate_config config = Ok ()).

Lemma slashed_validator_ok id v evidence_id reason h :
  validator_ok config id v → validator_ok config id (slashed_validator config v evidence_id reason h).
Proof.
  intros [Hi Hk Hs Hd Hsc Ht]. split; simpl; [done|done|etrans; [apply N.le_sub_l|done]..|]. intros T.
  destruct (Ht T) as [-> ->]. by rewrite !N.sub_0_l.
Qed.

(** The amounts a slash takes off the unbonding entries of [id]. *)
Definition unbonding_loss (id : ValidatorId) (rate : N) (l : list UnbondingEntry) : N :=
  sumN (λ e, if ub_validator e =? id then ub_amount e * rate / 10000 else 0) l.

Lemma slash_spec s id evidence_id reason h v :
  staking_ok config s → get_validator s id = Some v → evidence_id ≠ [] →
  Forall (λ a, as_evidence_id a ≠ evidence_id) (va_applied_slashes v) →
  let rate := slash_rate config reason in
  let self_slash := va_self_stake v * rate / 10000 in
  let del_slash := va_delegated_stake v * rate / 10000 in
  let ub_slash := unbonding_loss id rate (ss_unbondings s) in
  ∃ s', slash_with_evidence config id evidence_id reason h s =
      (s', Ok (mkSlashResult self_slash (N.min (del_slash + ub_slash) u64_max) true)) ∧
    staking_ok config s' ∧
    funds s = funds s' + (self_slash + del_slash + ub_slash) ∧
    (∀ i, get_validator s' i =
      if decide (id = i) then Some (slashed_validator config v evidence_id reason h) else get_validator s i) ∧
    (∀ a n, get_stake s a id = Some n →
      slashed_entry del_slash (va_delegated_stake v) n (get_stake s' a id)) ∧
    (∀ a i, i ≠ id ∨ get_stake s a id = None → get_stake s' a i = get_stake s a i).
Proof.
  intros Hok Hg Hne Hnew rate self_slash del_slash ub_slash.
  pose proof (so_valid _ _ Hok _ _ Hg) as Hv. pose proof (so_sum _ _ Hok _ _ Hg) as Hsum.
  assert (Hr : rate ≤ 10000) by by apply slash_rate_bound.
  assert (self_slash ≤ va_self_stake v) as Hself by (apply mul_div_small; [done|apply Hv|done]).
  assert (del_slash ≤ va_delegated_stake v) as Hdel by (apply mul_div_small; [done|apply Hv|done]).
  destruct (slash_bonded_spec config s id del_slash) as (Ev & Eu & Hs1 & Hs2 & Hs3 & Hs4);
    [done|by rewrite <- Hsum|rewrite <- Hsum; apply Hv|].
  destruct (slash_unbondings_spec s id rate (ss_unbondings s) Hr (so_unbonding _ _ Hok))
    as (Hu1 & Hu2 & Hu3). fold (unbonding_loss id rate (ss_unbondings s)) in Hu3. fold ub_slash in Hu3.
  pose proof (slashed_validator_ok id v evidence_id reason h Hv) as Hv'.
  pose proof (slash_with_evidence_run config Hconfig s id evidence_id reason h v Hg Hne Hnew Hv) as Hrun.
  simpl in Hrun. fold rate del_slash in Hrun. set (s1 := slash_bonded id del_slash s) in *.
  rewrite Eu, saturating_sum, Hu3, saturating_add64_min in Hrun by done.
  set (v' := slashed_validator config v evidence_id reason h) in *.
  set (kept := filter _ _) in *.
  assert (Hgv : ∀ i, get_validator (replace_unbondings kept (set_validator id v' s1)) i =
    if decide (id = i) then Some v' else get_validator s i).
  { intros i. change (get_validator (set_validator id v' s1) i =
      if decide (id = i) then Some v' else get_validator s i).
    rewrite set_validator_lookup. unfold get_validator. by rewrite Ev. }
  eexists. split; [exact Hrun|]. split_and!; [| |exact Hgv| |].
  - split.
    + intros i w. rewrite Hgv. case_decide; intros; simplify_eq; [done|by eapply so_valid].
    + intros i w. rewrite Hgv. change (stake_sum (replace_unbondings _ _) i) with (stake_sum s1 i).
      case_decide as Hi; [intros [= <-]|intros; rewrite Hs2 by done; by eapply so_sum].
      rewrite <- Hi. simpl. fold rate del_slash. lia.
    + intros i j w1 w2. rewrite !Hgv. pose proof (so_keys _ _ Hok) as Hk.
      repeat case_decide; intros; simplify_eq; try done; eapply Hk; eauto; congruence.
    + intros a i n. change (get_stake s1 a i = Some n → 0 < n ∧ is_Some
        (get_validator (replace_unbondings kept (set_validator id v' s1)) i)). rewrite Hgv. intros Hn.
      destruct (decide (id = i)) as [<-|Hi]; [|rewrite Hs4 in Hn by auto; by eapply so_stake].
      split; [|eauto]. destruct (get_stake s a id) as [m|] eqn:Em; [|rewrite Hs4 in Hn by auto; congruence].
      destruct (Hs3 _ _ Em) as (loss & _ & _ & E). rewrite E in Hn.
      destruct (N.eqb_spec (m - loss) 0); simplify_eq. lia.
    + eapply Forall_impl; [exact Hu1|]. intros e [? ? Hreg]. split; [done..|].
      rewrite Hgv. case_decide; eauto.
  - pose proof (funds_set_validator s1 id v v') as Hf. unfold get_validator in Hf. rewrite Ev in Hf.
    specialize (Hf Hg). unfold funds in *. simpl in *. rewrite Ev, Eu in *.
    fold rate self_slash del_slash in Hf. lia.
  - intros a n Ha. rewrite Hsum. by apply Hs3.
  - intros a i Ha. by apply Hs4.
Qed.
End SlashSpec.

(** ** The methods that change the store *)

Inductive staking_op : Type :=
| OpRegister (id : ValidatorId) (pubkey : PublicKey) (self_stake : N)
| OpUnregister (id : ValidatorId)
| OpDelegate (staker : bytes) (id : ValidatorId) (amount : N)
| OpUndelegate (staker : bytes) (id : ValidatorId) (amount current_height : N)
| OpProcessUnbonding (current_height : N)
| OpSlash (id : ValidatorId) (evidence_id : bytes) (reason : SlashReason) (current_height : N)
| OpUnjail (id : ValidatorId) (current_height : N)
| OpIncrementScore (id : ValidatorId) (delta : N)
| OpDecrementScore (id : ValidatorId) (delta : N)
| OpReward (id : ValidatorId).

(** A call, with what it puts into the store and what it takes out. *)
Definition run_op (config : StakingConfig) (op : staking_op) : SM StakingStore staking_error (N * N) :=
  match op with
  | OpRegister id pubkey n => register_validator config id pubkey n ;; mret (n, 0)
  | OpUnregister id => n ← unregister_validator id; mret (0, n)
  | OpDelegate a id n => delegate a id n ;; mret (n, 0)
  | OpUndelegate a id n h => undelegate config a id n h ;; mret (0, 0)
  | OpProcessUnbonding h => l ← process_unbonding h; mret (0, sumN ub_amount l)
  | OpSlash id ev reason h => r ← slash_with_evidence config id ev reason h;
      mret (0, sr_self_slashed r + sr_delegated_slashed r)
  | OpUnjail id h => unjail id h ;; mret (0, 0)
  | OpIncrementScore id d => modify (increment_score config id d) ;; mret (0, 0)
  | OpDecrementScore id d => modify (decrement_score id d) ;; mret (0, 0)
  | OpReward id => n ← reward_proposer config id; mret (n, 0)
  end.

(** The stake a validator registers with is a [u64]. *)
Definition op_typed (op : staking_op) : Prop :=
  match op with OpRegister _ _ n => n ≤ u64_max | _ => True end.

(** The promise of every method: the invariant is kept, no unit of stake
    appears or disappears, and an error changes nothing. *)
Definition op_spec (config : StakingConfig) (s s' : StakingStore) (r : res staking_error (N * N)) : Prop :=
  staking_ok config s' ∧
  match r with
  | Ok (deposit, withdrawal) => funds s ≤ u64_max → funds s' + withdrawal = funds s + deposit
  | Err _ => s' = s
  | Panic => False
  end.

Section Ops.
Context (config : StakingConfig) (Hconfig : validate_config config = Ok ()).
Context (s : StakingStore) (Hok : staking_ok config s).

Lemma op_spec_err e : op_spec config s s (Err e).
Proof. by split. Qed.

Lemma op_spec_set id v v' d w :
  get_validator s id = Some v → validator_ok config id v' → va_public_key v' = va_public_key v →
  va_delegated_stake v' = va_delegated_stake v → va_self_stake v' + w = va_self_stake v + d →
  op_spec config s (set_validator id v' s) (Ok (d, w)).
Proof.
  intros Hg Hv' Hk Hd Hs. split; [by eapply set_validator_ok|]. intros _.
  pose proof (funds_set_validator s id v v' Hg). lia.
Qed.

Lemma all_validators_elem v : v ∈ all_validators s ↔ ∃ id, get_validator s id = Some v.
Proof.
  unfold all_validators, all_validator_ids. rewrite list_elem_of_omap. split.
  - intros (id & _ & Hv). by exists id.
  - intros (id & Hv). exists id. split; [|done].
    apply (list_elem_of_fmap_2 fst _ (id, v)). by apply elem_of_map_to_list.
Qed.

Lemma set_fresh_ok id v :
  get_validator s id = None → validator_ok config id v → va_delegated_stake v = 0 →
  (∀ w, w ∈ all_validators s → va_public_key w ≠ va_public_key v) →
  staking_ok config (set_validator id v s).
Proof.
  intros Hg Hv Hd Hfresh. destruct Hok as [H1 H2 H3 H4 H5]. split.
  - intros i w. rewrite set_validator_lookup. case_decide; intros; simplify_eq; eauto.
  - intros i w. rewrite set_validator_lookup. change (stake_sum (set_validator id v s) i) with (stake_sum s i).
    case_decide as Hi; [intros [= <-]|eauto]. rewrite Hd, <- Hi.
    rewrite <- stakers_of_sum. destruct (stakers_of s id) as [|[a n] l] eqn:E; [done|].
    assert (get_stake s a id = Some n) as Ha by (apply stakers_of_elem; rewrite E; left).
    destruct (H4 _ _ _ Ha) as [_ [? ?]]. congruence.
  - intros i j w1 w2. rewrite !set_validator_lookup.
    case_decide; case_decide; intros ? ? Hpk; simplify_eq; [done| | |by eapply H3; eauto].
    + destruct (Hfresh w2); [by apply all_validators_elem; eauto|done].
    + destruct (Hfresh w1); [by apply all_validators_elem; eauto|done].
  - intros a i n Hn. destruct (H4 a i n Hn). split; [done|by apply set_validator_registered].
  - eapply Forall_impl; [exact H5|]. intros e [? ? ?]. split; [done..|by apply set_validator_registered].
Qed.

Lemma register_spec id pk n :
  n ≤ u64_max → op_spec config s (run_op config (OpRegister id pk n) s).1 (run_op config (OpRegister id pk n) s).2.
Proof.
  intros Hn. unfold run_op, register_validator, validate_public_key, ensure, mbind, SM_bind, get_w. cbn -[omap].
  case_bool_decide as Hg; [|apply op_spec_err]. cbn -[omap].
  destruct (Nat.eqb_spec (length pk) 32) as [Hlen|]; [|apply op_spec_err]. cbn -[omap].
  destruct (existsb _ _) eqn:Ex; [apply op_spec_err|]. cbn -[omap].
  destruct (sc_min_self_stake config <=? n); [|apply op_spec_err]. cbn -[omap].
  set (v := mkValidatorState _ _ _ _ _ _ _ _ _). split.
  - apply set_fresh_ok; [done| |done|].
    + split; simpl; try done. unfold validate_config in Hconfig. repeat case_match; try done.
      by apply N.ltb_ge.
    + intros w Hw Hpk. apply not_true_iff_false in Ex. apply Ex, existsb_exists. exists w.
      split; [by apply list_elem_of_In|by apply bool_decide_eq_true].
  - intros _. unfold funds; simpl. rewrite msum_insert by done. simpl. lia.
Qed.

Lemma unregister_spec id : op_spec config s (run_op config (OpUnregister id) s).1 (run_op config (OpUnregister id) s).2.
Proof.
  unfold run_op, unregister_validator, the_validator, ensure, mbind, SM_bind, get_w, lift_res. cbn.
  destruct (get_validator s id) as [v|] eqn:Hg; [|apply op_spec_err]. cbn.
  destruct (N.ltb_spec 0 (total_stake v)) as [|Ht]; [apply op_spec_err|]. cbn.
  destruct (total_stake_zero v ltac:(lia)) as [Hs Hd]. pose proof (so_valid _ _ Hok _ _ Hg) as [? ? ? ? ? ?].
  destruct (has_pending_unbondings s id) eqn:Hp; cbn.
  - eapply op_spec_set; [done|by split|done..].
  - split; [|intros _; rewrite (funds_remove s id v) by (done || lia); lia].
    eapply remove_validator_ok; eauto. pose proof (so_unbonding _ _ Hok) as Hu.
    rewrite Forall_forall in Hu |- *. intros e He Hid. apply not_true_iff_false in Hp. apply Hp, existsb_exists.
    exists e. split; [by apply list_elem_of_In|]. destruct (Hu e He).
    by rewrite Hid, N.eqb_refl, (proj2 (N.ltb_lt 0 (ub_amount e))).
Qed.

Lemma put_stake_set a id n w : n ≠ 0 → set_stake a id n w = put_stake a id n w.
Proof. intros Hn. unfold put_stake. by rewrite (proj2 (N.eqb_neq n 0)). Qed.

Lemma set_validator_put id v a n w :
  set_validator id v (put_stake a id n w) = put_stake a id n (set_validator id v w).
Proof. unfold put_stake. by destruct (n =? 0). Qed.

Lemma delegate_spec a id n : op_spec config s (run_op config (OpDelegate a id n) s).1 (run_op config (OpDelegate a id n) s).2.
Proof.
  unfold run_op, delegate, the_validator, ensure, mbind, SM_bind, get_w, lift_res. cbn.
  destruct (N.eqb_spec n 0) as [|Hn]; [apply op_spec_err|]. cbn.
  destruct (get_validator s id) as [v|] eqn:Hg; [|apply op_spec_err]. cbn.
  destruct (va_tombstoned v) eqn:Ht; [apply op_spec_err|]. cbn.
  destruct (checked_add64 (va_delegated_stake v) n) as [d|] eqn:Ed; [|apply op_spec_err]. cbn.
  apply checked_add64_Some in Ed as [-> Hmax].
  fold (get_stake s a id).
  pose proof (so_valid _ _ Hok _ _ Hg) as [? ? ? ? ? ?]. pose proof (so_sum _ _ Hok _ _ Hg) as Hsum.
  assert (default 0 (get_stake s a id) ≤ va_delegated_stake v) as Hle.
  { rewrite Hsum. destruct (get_stake s a id) eqn:E; simpl; [by eapply stake_le_sum|lia]. }
  rewrite (proj2 (checked_add64_Some _ n (default 0 (get_stake s a id) + n))) by lia. cbn.
  rewrite put_stake_set, <- set_validator_put by lia. split.
  - eapply set_validator_put_ok; eauto; [|simpl; lia]. split; simpl; try done. congruence.
  - intros _. pose proof (funds_set_validator (put_stake a id (default 0 (get_stake s a id) + n) s) id v
      (with_delegated v (va_delegated_stake v + n))) as Hf.
    unfold get_validator in Hf. rewrite put_stake_validators, funds_put_stake in Hf. specialize (Hf Hg).
    simpl in Hf. lia.
Qed.

Lemma undelegate_spec a id n h :
  op_spec config s (run_op config (OpUndelegate a id n h) s).1 (run_op config (OpUndelegate a id n h) s).2.
Proof.
  unfold run_op, undelegate, the_validator, ensure, mbind, SM_bind, get_w, lift_res. cbn.
  destruct (N.eqb_spec n 0) as [|Hn]; [apply op_spec_err|]. cbn.
  destruct (get_validator s id) as [v|] eqn:Hg; [|apply op_spec_err]. cbn.
  destruct (get_stake s a id) as [m|] eqn:Hst; [|apply op_spec_err]. cbn.
  destruct (N.ltb_spec m n) as [|Hle]; [apply op_spec_err|]. cbn.
  pose proof (so_valid _ _ Hok _ _ Hg) as [? ? ? ? ? Htomb]. pose proof (so_sum _ _ Hok _ _ Hg) as Hsum.
  pose proof (stake_le_sum _ _ _ _ Hst) as Hm.
  set (v' := with_delegated v (saturating_sub (va_delegated_stake v) n)).
  set (e := mkUnbondingEntry a id n (saturating_add64 h (sc_unbonding_period config))).
  enough (op_spec config s (push_unbonding e (set_validator id v' (put_stake a id (m - n) s))) (Ok (0, 0))) as He.
  { unfold put_stake in He. by destruct (m - n =? 0). }
  assert (staking_ok config (set_validator id v' (put_stake a id (m - n) s))) as Hok'.
  { eapply set_validator_put_ok; eauto; [|rewrite Hst; simpl; unfold saturating_sub; lia].
    split; simpl; try done; unfold saturating_sub; [lia|]. intros Ht. destruct (Htomb Ht). lia. }
  split.
  - apply (replace_unbondings_ok _ _ _ Hok'). apply Forall_app; split; [apply Hok'|]. apply Forall_singleton. split; simpl; [lia|lia|].
    rewrite set_validator_lookup, decide_True by done. eauto.
  - intros _. pose proof (funds_set_validator (put_stake a id (m - n) s) id v v') as Hf.
    unfold get_validator in Hf. rewrite put_stake_validators, funds_put_stake in Hf. specialize (Hf Hg).
    unfold funds in *. simpl in *. rewrite sumN_app. simpl. unfold saturating_sub in Hf. lia.
Qed.

Lemma prune_spec w : staking_ok config w →
  staking_ok config (prune_tombstoned_validators w) ∧ funds (prune_tombstoned_validators w) = funds w ∧
  ss_unbondings (prune_tombstoned_validators w) = ss_unbondings w.
Proof.
  intros Hw. unfold prune_tombstoned_validators. set (pending := ub_validator <$> _).
  assert (Hgen : ∀ ids t, staking_ok config t → ss_unbondings t = ss_unbondings w →
    let t' := foldl (λ s id, match get_validator s id with
      | None => s
      | Some state =>
          if va_tombstoned state && (total_stake state =? 0) && negb (bool_decide (id ∈ pending))
          then remove_validator id s else s
      end) t ids in
    staking_ok config t' ∧ funds t' = funds t ∧ ss_unbondings t' = ss_unbondings t).
  { induction ids as [|id ids IH]; intros t Ht Hu; [done|]. cbn [foldl].
    destruct (get_validator t id) as [v|] eqn:Hg; [|by apply IH].
    destruct (_ && _ && _) eqn:Hc; [|by apply IH].
    apply andb_true_iff in Hc as [[_ Hz]%andb_true_iff Hnp]. apply N.eqb_eq in Hz.
    apply negb_true_iff, bool_decide_eq_false in Hnp.
    destruct (IH (remove_validator id t)) as (H1 & H2 & H3); [|done|].
    - eapply remove_validator_ok; [done|done|by apply total_stake_zero|].
      rewrite Forall_forall. intros e He <-. apply Hnp. unfold pending. rewrite <- Hu.
      apply list_elem_of_fmap_2, list_elem_of_filter. split; [|done].
      pose proof (so_unbonding _ _ Ht) as Hub. rewrite Forall_forall in Hub. by destruct (Hub e He).
    - split_and!; [done| |by rewrite H3]. rewrite H2. by eapply funds_remove. }
  by apply Hgen.
Qed.

Lemma sumN_filter_split (P : UnbondingEntry → Prop) `{!∀ e, Decision (P e)} l :
  sumN ub_amount (filter (λ e, ¬ P e) l) + sumN ub_amount (filter P l) = sumN ub_amount l.
Proof.
  induction l as [|e l IH]; [done|]. rewrite !filter_cons, sumN_cons.
  repeat case_decide; rewrite ?sumN_cons; try done; lia.
Qed.

Lemma process_unbonding_spec h :
  op_spec config s (run_op config (OpProcessUnbonding h) s).1 (run_op config (OpProcessUnbonding h) s).2.
Proof.
  unfold run_op, process_unbonding, drain_mature_unbondings, mbind, SM_bind. cbn -[prune_tombstoned_validators].
  set (w := replace_unbondings _ s).
  destruct (prune_spec w) as (H1 & H2 & _).
  { apply replace_unbondings_ok; [done|]. pose proof (so_unbonding _ _ Hok) as Hu.
    rewrite Forall_forall in Hu |- *. intros e [_ He]%list_elem_of_filter. by apply Hu. }
  split; [done|]. intros _. rewrite H2. unfold funds, w; simpl.
  pose proof (sumN_filter_split (λ e, ub_completion_height e ≤ h) (ss_unbondings s)). lia.
Qed.

Lemma slash_conserves f f' a b c :
  f = f' + (a + b + c) → f ≤ u64_max → f' + (a + N.min (b + c) u64_max) = f + 0.
Proof. lia. Qed.

Lemma slash_op_spec id ev reason h :
  op_spec config s (run_op config (OpSlash id ev reason h) s).1 (run_op config (OpSlash id ev reason h) s).2.
Proof.
  unfold run_op, mbind, SM_bind.
  destruct (decide (ev = [])) as [->|Hev]; [apply op_spec_err|].
  destruct (get_validator s id) as [v|] eqn:Hg.
  2:{ unfold slash_with_evidence, the_validator, mbind, SM_bind, ensure, get_w, lift_res, ok_or.
      rewrite bool_decide_false by done. cbn. rewrite Hg. apply op_spec_err. }
  destruct (existsb (λ a, bool_decide (as_evidence_id a = ev)) (va_applied_slashes v)) eqn:Ex.
  { unfold slash_with_evidence, the_validator, mbind, SM_bind, ensure, get_w, lift_res, ok_or.
    rewrite bool_decide_false by done. cbn. rewrite Hg, Ex. apply op_spec_err. }
  destruct (slash_spec config Hconfig s id ev reason h v) as (s' & -> & Hok' & Hf & _); [done..| |].
  { rewrite Forall_forall. intros a Ha Hid. apply not_true_iff_false in Ex. apply Ex, existsb_exists.
    exists a. split; [by apply list_elem_of_In|by apply bool_decide_eq_true]. }
  split; [done|]. intros Hmax. by apply slash_conserves.
Qed.

Lemma unjail_spec id h : op_spec config s (run_op config (OpUnjail id h) s).1 (run_op config (OpUnjail id h) s).2.
Proof.
  unfold run_op, unjail, the_validator, ensure, mbind, SM_bind, get_w, lift_res. cbn.
  destruct (get_validator s id) as [v|] eqn:Hg; [|apply op_spec_err]. cbn.
  destruct (va_tombstoned v) eqn:Ht; [apply op_spec_err|]. cbn.
  destruct (va_jailed v); [|apply op_spec_err]. cbn.
  destruct (h <? va_jail_until_height v); [apply op_spec_err|]. cbn.
  destruct (so_valid _ _ Hok _ _ Hg). by eapply op_spec_set.
Qed.

Lemma score_spec id (f : N → N) : (∀ n, n ≤ sc_max_score config → f n ≤ sc_max_score config) →
  op_spec config s
    (match get_validator s id with Some v => set_validator id (with_score v (f (va_score v))) s | None => s end)
    (Ok (0, 0)).
Proof.
  intros Hf. destruct (get_validator s id) as [v|] eqn:Hg; [|by split].
  destruct (so_valid _ _ Hok _ _ Hg). eapply op_spec_set; [done| |done..]. split; simpl; auto.
Qed.

Lemma reward_spec id : op_spec config s (run_op config (OpReward id) s).1 (run_op config (OpReward id) s).2.
Proof.
  unfold run_op, reward_proposer, the_validator, ensure, mbind, SM_bind, get_w, lift_res.
  destruct (proposer_reward config =? 0); [by split|]. cbn.
  destruct (get_validator s id) as [v|] eqn:Hg; [|apply op_spec_err]. cbn.
  destruct (va_tombstoned v) eqn:Ht; [apply op_spec_err|]. cbn.
  destruct (checked_add64 (va_self_stake v) (proposer_reward config)) as [n|] eqn:En; [|apply op_spec_err].
  apply checked_add64_Some in En as [-> Hn]. cbn.
  destruct (so_valid _ _ Hok _ _ Hg). eapply op_spec_set; [done| |done|done|simpl; lia].
  split; simpl; try done. congruence.
Qed.

Lemma run_op_spec op : op_typed op → op_spec config s (run_op config op s).1 (run_op config op s).2.
Proof.
  destruct op; intros Ht; [by apply register_spec|apply unregister_spec|apply delegate_spec
    |apply undelegate_spec|apply process_unbonding_spec|apply slash_op_spec|apply unjail_spec
    |apply (score_spec id (λ n, N.min (saturating_add32 n delta) (sc_max_score config))); lia
    |apply (score_spec id (λ n, saturating_sub n delta)); unfold saturating_sub; lia|apply reward_spec].
Qed.
End Ops.

(** ** The validator set the staking state asks for *)

#[global] Instance power_order_trans : Transitive power_order.
Proof. intros a b c. unfold power_order. lia. Qed.
#[global] Instance power_order_total : Total power_order.
Proof. intros a b. unfold power_order. lia. Qed.

Definition info_of (v : ValidatorState) : ValidatorInfo :=
  mkValidatorInfo (va_id v) (va_public_key v) (voting_power v).

Section Formal.
Context (config : StakingConfig) (s : StakingStore) (Hok : staking_ok config s).
Notation formal := (formal_validator_list config s).

Lemma formal_perm : ∃ rest,
  formal ++ rest ≡ₚ filter (λ v, eligible config v = true) (all_validators s) ∧
  StronglySorted power_order (formal ++ rest) ∧
  (rest = [] ∨ length formal = sc_max_validators config).
Proof.
  set (l := merge_sort power_order (filter (λ v, eligible config v = true) (all_validators s))).
  exists (drop (sc_max_validators config) l). unfold formal_validator_list. fold l.
  rewrite take_drop. split_and!.
  - apply merge_sort_Permutation.
  - apply StronglySorted_merge_sort; apply _.
  - destruct (decide (length l ≤ sc_max_validators config)%nat);
      [left; by apply drop_ge|right; rewrite length_take; lia].
Qed.

Lemma formal_elem v : v ∈ formal → get_validator s (va_id v) = Some v ∧ eligible config v = true.
Proof.
  intros Hv. destruct formal_perm as (rest & Hp & _).
  assert (v ∈ filter (λ v, eligible config v = true) (all_validators s)) as Hin
    by (rewrite <- Hp; apply elem_of_app; by left).
  apply list_elem_of_filter in Hin as [He Hin]. split; [|done].
  apply all_validators_elem in Hin as (id & Hid).
  by rewrite (vo_id _ _ _ (so_valid _ _ Hok _ _ Hid)).
Qed.

Lemma all_validators_ids : NoDup (va_id <$> all_validators s).
Proof.
  unfold all_validators, all_validator_ids.
  assert (Hg : ∀ l, NoDup l → NoDup (va_id <$> omap (get_validator s) l)).
  { induction 1 as [|id l Hid Hnd IH]; [constructor|]. simpl.
    destruct (get_validator s id) as [v|] eqn:E; [|done]. rewrite fmap_cons. constructor; [|done].
    rewrite (vo_id _ _ _ (so_valid _ _ Hok _ _ E)). rewrite list_elem_of_fmap.
    intros (w & Hw & Hin). apply list_elem_of_omap in Hin as (id' & Hin & E').
    rewrite (vo_id _ _ _ (so_valid _ _ Hok _ _ E')) in Hw. congruence. }
  apply Hg, NoDup_fst_map_to_list.
Qed.

Lemma formal_ids : NoDup (va_id <$> formal).
Proof.
  destruct formal_perm as (rest & Hp & _).
  assert (NoDup (va_id <$> (formal ++ rest))) as Hnd.
  { rewrite Hp. eapply sublist_NoDup; [apply all_validators_ids|]. apply fmap_sublist, sublist_filter. }
  rewrite fmap_app in Hnd. by apply NoDup_app in Hnd as [? _].
Qed.

Lemma formal_power v : 0 < sc_min_self_stake config → v ∈ formal → 0 < voting_power v.
Proof.
  intros Hmin [Hg He]%formal_elem. unfold eligible in He. unfold voting_power, total_stake, saturating_add64.
  destruct (va_jailed v), (va_tombstoned v); simpl in *; try done. apply N.leb_le in He.
  assert (0 < u64_max) by done. lia.
Qed.

(** Membership, the limit and the order of selection. *)
Lemma formal_spec :
  (length formal ≤ sc_max_validators config)%nat ∧
  (∀ v, v ∈ formal → get_validator s (va_id v) = Some v ∧ eligible config v = true) ∧
  (∀ id w, get_validator s id = Some w → eligible config w = true → w ∉ formal →
     length formal = sc_max_validators config ∧ ∀ v, v ∈ formal → power_order v w).
Proof.
  split_and!; [|apply formal_elem|].
  - unfold formal_validator_list. rewrite length_take. lia.
  - intros id w Hw He Hn. destruct formal_perm as (rest & Hp & Hsort & Hlen).
    assert (w ∈ formal ++ rest) as Hin.
    { rewrite Hp. apply list_elem_of_filter. split; [done|]. apply all_validators_elem; eauto. }
    apply elem_of_app in Hin as [|Hin]; [done|].
    destruct Hlen as [->|Hlen]; [by apply not_elem_of_nil in Hin|].
    split; [done|]. intros v Hv. eapply StronglySorted_app_1_elem_of; eauto.
Qed.
End Formal.

Lemma update_map_out m us id : id ∉ vu_id <$> us → foldl update_map m us !! id = m !! id.
Proof.
  revert m. induction us as [|u us IH]; intros m Hid; [done|]. cbn [foldl].
  rewrite fmap_cons, not_elem_of_cons in Hid. destruct Hid as [Hne Hid]. rewrite IH by done.
  unfold update_map. destruct (vu_power u =? 0); [by rewrite lookup_delete_ne|by rewrite lookup_insert_ne].
Qed.

Lemma update_map_in m us u : NoDup (vu_id <$> us) → u ∈ us →
  foldl update_map m us !! vu_id u =
  if vu_power u =? 0 then None else Some (mkValidatorInfo (vu_id u) (vu_public_key u) (vu_power u)).
Proof.
  revert m. induction us as [|x us IH]; intros m Hnd Hu; [by apply not_elem_of_nil in Hu|]. cbn [foldl].
  rewrite fmap_cons, NoDup_cons in Hnd. destruct Hnd as [Hx Hnd].
  apply elem_of_cons in Hu as [->|Hu]; [|by apply IH]. rewrite update_map_out by done.
  unfold update_map. destruct (vu_power x =? 0); [apply lookup_delete_eq|apply lookup_insert_eq].
Qed.

Lemma omap_ids {A} (f : A → option ValidatorUpdate) (g : A → N) l :
  (∀ x u, f x = Some u → vu_id u = g x) → NoDup (g <$> l) → NoDup (vu_id <$> omap f l).
Proof.
  intros Hf. induction l as [|x l IH]; intros Hnd; [constructor|].
  rewrite fmap_cons, NoDup_cons in Hnd. destruct Hnd as [Hx Hnd]. simpl.
  destruct (f x) as [u|] eqn:E; [|auto]. rewrite fmap_cons. constructor; [|auto].
  rewrite (Hf _ _ E), list_elem_of_fmap. intros (u' & Hid & Hin).
  apply list_elem_of_omap in Hin as (y & Hy & Ey). rewrite (Hf _ _ Ey) in Hid. apply Hx.
  rewrite Hid. by apply list_elem_of_fmap_2.
Qed.

Section Updates.
Context (config : StakingConfig) (s : StakingStore) (Hok : staking_ok config s).
Context (current_set : ValidatorSet) (Hvs : vs_wf current_set).
Notation formal := (formal_validator_list config s).

(** The validator is in the set with its key and power. *)
Definition unchanged (v : ValidatorState) : bool :=
  match get current_set (va_id v) with
  | Some current => (vi_power current =? voting_power v) &&
      bool_decide (vi_public_key current = va_public_key v)
  | None => false
  end.

Definition formal_updates : list ValidatorUpdate :=
  omap (λ v, if unchanged v then None
             else Some (mkValidatorUpdate (va_id v) (va_public_key v) (voting_power v))) formal.
Definition removal_updates : list ValidatorUpdate :=
  omap (λ vi, if existsb (λ f, va_id f =? vi_id vi) formal then None
              else Some (mkValidatorUpdate (vi_id vi) (vi_public_key vi) 0)) (vs_validators current_set).

Lemma formal_updates_elem u : u ∈ formal_updates ↔
  ∃ v, v ∈ formal ∧ unchanged v = false ∧ u = mkValidatorUpdate (va_id v) (va_public_key v) (voting_power v).
Proof.
  unfold formal_updates. rewrite list_elem_of_omap. split.
  - intros (v & Hv & E). destruct (unchanged v) eqn:Eu; simplify_eq. eauto.
  - intros (v & Hv & Eu & ->). exists v. by rewrite Eu.
Qed.

Lemma removal_updates_elem u : u ∈ removal_updates ↔
  ∃ vi, vi ∈ vs_validators current_set ∧ vi_id vi ∉ va_id <$> formal ∧
    u = mkValidatorUpdate (vi_id vi) (vi_public_key vi) 0.
Proof.
  assert (Hex : ∀ vi, existsb (λ f, va_id f =? vi_id vi) formal = true ↔ vi_id vi ∈ va_id <$> formal).
  { intros vi. rewrite existsb_exists, list_elem_of_fmap. setoid_rewrite <- list_elem_of_In.
    setoid_rewrite N.eqb_eq. naive_solver. }
  unfold removal_updates. rewrite list_elem_of_omap. split.
  - intros (vi & Hvi & E). destruct (existsb _ _) eqn:Eu; simplify_eq. exists vi.
    split_and!; [done| |done]. rewrite <- Hex. congruence.
  - intros (vi & Hvi & Hn & ->). exists vi. rewrite <- Hex in Hn. by apply not_true_iff_false in Hn as ->.
Qed.

Lemma update_ids : NoDup (vu_id <$> (formal_updates ++ removal_updates)).
Proof.
  rewrite fmap_app. apply NoDup_app. split_and!.
  - apply (omap_ids _ va_id); [|by apply formal_ids]. intros v u. destruct (unchanged v); by intros [= <-].
  - intros id. rewrite !list_elem_of_fmap. intros (u & -> & Hu) (u' & Hid & Hu').
    apply formal_updates_elem in Hu as (v & Hv & _ & ->).
    apply removal_updates_elem in Hu' as (vi & _ & Hn & ->). apply Hn. simpl in Hid. rewrite <- Hid.
    by apply list_elem_of_fmap_2.
  - apply (omap_ids _ vi_id); [|apply Hvs]. intros v u. destruct (existsb _ _); by intros [= <-].
Qed.

Lemma unchanged_true v : unchanged v = true ↔ get current_set (va_id v) = Some (info_of v).
Proof.
  unfold unchanged, info_of. destruct (get current_set (va_id v)) as [[i k p]|] eqn:E; [|done]. simpl.
  rewrite andb_true_iff, N.eqb_eq, bool_decide_eq_true. apply get_spec in E as [_ Hi]; [|done].
  simpl in Hi. naive_solver.
Qed.

(** The set after the updates holds exactly the formal validators. *)
Lemma updated_lookup id :
  0 < sc_min_self_stake config →
  foldl update_map (info_map (vs_validators current_set)) (formal_updates ++ removal_updates) !! id =
  info_map (info_of <$> formal) !! id.
Proof.
  intros Hmin. pose proof update_ids as Hnd.
  assert (Hfn : NoDup (vi_id <$> (info_of <$> formal))).
  { rewrite <- list_fmap_compose. change (vi_id ∘ info_of) with va_id. by apply formal_ids. }
  assert (Hcur : ∀ i vi, info_map (vs_validators current_set) !! i = Some vi ↔
    vi ∈ vs_validators current_set ∧ vi_id vi = i) by (intros; apply info_map_lookup, Hvs).
  destruct (decide (id ∈ va_id <$> formal)) as [Hin|Hout].
  - apply list_elem_of_fmap in Hin as (v & -> & Hv).
    rewrite (proj2 (info_map_lookup (info_of <$> formal) (va_id v) (info_of v) Hfn))
      by (split; [by apply list_elem_of_fmap_2|done]).
    destruct (unchanged v) eqn:Eu.
    + rewrite update_map_out.
      * apply Hcur. apply unchanged_true, get_spec in Eu; done.
      * rewrite fmap_app, elem_of_app, !list_elem_of_fmap. intros [(u & Hid & Hu)|(u & Hid & Hu)].
        -- apply formal_updates_elem in Hu as (w & Hw & Ew & ->). simpl in Hid.
           pose proof (formal_elem _ _ Hok _ Hv) as [Gv _]. pose proof (formal_elem _ _ Hok _ Hw) as [Gw _].
           rewrite Hid in Gv. congruence.
        -- apply removal_updates_elem in Hu as (vi & _ & Hn & ->). simpl in Hid. apply Hn. rewrite <- Hid.
           by apply list_elem_of_fmap_2.
    + rewrite (update_map_in _ _ (mkValidatorUpdate (va_id v) (va_public_key v) (voting_power v))); [|done|].
      * simpl. rewrite (proj2 (N.eqb_neq (voting_power v) 0)); [done|].
        pose proof (formal_power _ _ Hok v Hmin Hv). lia.
      * apply elem_of_app. left. apply formal_updates_elem. eauto.
  - transitivity (@None ValidatorInfo).
    2:{ symmetry. apply eq_None_ne_Some. intros vi [Hvi <-]%info_map_lookup; [|done].
        apply list_elem_of_fmap in Hvi as (w & -> & Hw). apply Hout. by apply (list_elem_of_fmap_2 va_id). }
    destruct (info_map (vs_validators current_set) !! id) as [vi|] eqn:E.
    + apply Hcur in E as [Hvi <-].
      rewrite (update_map_in _ _ (mkValidatorUpdate (vi_id vi) (vi_public_key vi) 0)); [done|done|].
      apply elem_of_app. right. apply removal_updates_elem. eauto.
    + rewrite update_map_out; [done|]. rewrite fmap_app, elem_of_app, !list_elem_of_fmap.
      intros [(u & -> & Hu)|(u & -> & Hu)].
      * apply formal_updates_elem in Hu as (w & Hw & _ & ->). apply Hout. by apply (list_elem_of_fmap_2 va_id).
      * apply removal_updates_elem in Hu as (vi & Hvi & _ & ->). apply (eq_None_ne_Some_1 _ vi) in E.
        apply E, Hcur. done.
Qed.
End Updates.

Lemma checked_total_spec l : checked_total l =
  if sumN voting_power l <=? u64_max then Some (sumN voting_power l) else None.
Proof.
  unfold checked_total.
  assert (Hn : ∀ l, foldl (λ acc v, t ← acc; checked_add64 t (voting_power v)) None l = None)
    by (induction l0; [done|done]).
  assert (Hg : ∀ l acc, acc ≤ u64_max →
    foldl (λ acc v, t ← acc; checked_add64 t (voting_power v)) (Some acc) l =
    if acc + sumN voting_power l <=? u64_max then Some (acc + sumN voting_power l) else None).
  { clear l. induction l as [|v l IH]; intros acc Hacc; cbn [foldl].
    - simpl. rewrite N.add_0_r. by rewrite (proj2 (N.leb_le _ _) Hacc).
    - simpl. unfold checked_add64 at 2. destruct (N.leb_spec (acc + voting_power v) u64_max) as [H|H].
      + rewrite IH by done. by rewrite <- N.add_assoc.
      + rewrite Hn, (proj2 (N.leb_gt _ _)); [done|]. lia. }
  rewrite Hg by done. by rewrite N.add_0_l.
Qed.

Lemma compute_validator_updates_eq config s vs :
  formal_validator_list config s ≠ [] →
  sumN voting_power (formal_validator_list config s) ≤ u64_max →
  compute_validator_updates config s vs = formal_updates config s vs ++ removal_updates config s vs.
Proof.
  intros Hne Hsum. unfold compute_validator_updates. rewrite bool_decide_false by done.
  by rewrite checked_total_spec, (proj2 (N.leb_le _ _) Hsum).
Qed.

Lemma updated_infos config s vs :
  staking_ok config s → vs_wf vs → 0 < sc_min_self_stake config →
  foldl apply_update (vs_validators vs) (formal_updates config s vs ++ removal_updates config s vs)
  ≡ₚ info_of <$> formal_validator_list config s.
Proof.
  intros Hok Hvs Hmin.
  destruct (foldl_apply_update (vs_validators vs) (formal_updates config s vs ++ removal_updates config s vs))
    as [Hnd Hmap]; [apply Hvs|].
  assert (Hfn : NoDup (vi_id <$> (info_of <$> formal_validator_list config s))).
  { rewrite <- list_fmap_compose. change (vi_id ∘ info_of) with va_id. by apply formal_ids. }
  apply NoDup_Permutation; [by eapply NoDup_fmap_1|by eapply NoDup_fmap_1|]. intros vi.
  pose proof (info_map_lookup _ (vi_id vi) vi Hnd) as H1. pose proof (info_map_lookup _ (vi_id vi) vi Hfn) as H2.
  rewrite Hmap, updated_lookup in H1 by done. naive_solver.
Qed.

Lemma formal_infos_wf config s :
  staking_ok config s → 0 < sc_min_self_stake config →
  sumN voting_power (formal_validator_list config s) ≤ u64_max →
  infos_wf (info_of <$> formal_validator_list config s).
Proof.
  intros Hok Hmin Hsum.
  assert (Ht : total (info_of <$> formal_validator_list config s) =
    sumN voting_power (formal_validator_list config s)).
  { unfold total. clear. induction (formal_validator_list config s) as [|v l IH]; [done|].
    rewrite fmap_cons, !sumN_cons. by rewrite IH. }
  split.
  - rewrite <- list_fmap_compose. change (vi_id ∘ info_of) with va_id. by apply formal_ids.
  - rewrite <- list_fmap_compose. apply NoDup_fmap_2_strong; [|by eapply NoDup_fmap_1, formal_ids].
    intros v w [Gv _]%formal_elem [Gw _]%formal_elem E; [|done..].
    pose proof (so_keys _ _ Hok _ _ _ _ Gv Gw E). congruence.
  - rewrite Forall_fmap, Forall_forall. intros v [Gv _]%formal_elem; [|done].
    apply (vo_key _ _ _ (so_valid _ _ Hok _ _ Gv)).
  - by rewrite Ht.
  - intros Hne. rewrite Ht. destruct (formal_validator_list config s) as [|v l] eqn:E; [done|].
    rewrite sumN_cons. pose proof (formal_power config s Hok v Hmin) as Hp. rewrite E in Hp.
    specialize (Hp ltac:(left)). lia.
Qed.

Lemma infos_wf_perm l k : l ≡ₚ k → infos_wf l → infos_wf k.
Proof.
  intros Hp. rewrite !infos_wf_alt. unfold total. rewrite (sumN_perm _ _ _ Hp).
  intros (H1 & H2 & H3 & H4 & H5). split_and!; [done| |by rewrite <- Hp..].
  intros Hk. apply H2. intros ->. apply Permutation_nil_l in Hp. done.
Qed.

Lemma updates_settled config s vs :
  staking_ok config s → vs_wf vs → formal_validator_list config s ≠ [] →
  sumN voting_power (formal_validator_list config s) ≤ u64_max →
  vs_validators vs ≡ₚ info_of <$> formal_validator_list config s →
  compute_validator_updates config s vs = [].
Proof.
  intros Hok Hvs Hne Hsum Hp. rewrite compute_validator_updates_eq by done. apply app_nil. split.
  - apply elem_of_nil_inv. intros u (v & Hv & Hu & _)%formal_updates_elem.
    apply not_true_iff_false in Hu. apply Hu, unchanged_true; [done|]. apply get_spec; [done|].
    split; [|done]. rewrite Hp. by apply list_elem_of_fmap_2.
  - apply elem_of_nil_inv. intros u (vi & Hvi & Hn & _)%removal_updates_elem. apply Hn.
    rewrite Hp in Hvi. apply list_elem_of_fmap in Hvi as (v & -> & Hv). by apply (list_elem_of_fmap_2 va_id).
Qed.

(** ** Properties *)

(** Two validators with delegations, of which the first unbonds a part. *)
Definition sample_ops : list staking_op :=
  [ OpRegister 1 (x01 :: zeros 31) 5000; OpRegister 2 (x02 :: zeros 31) 3000;
    OpDelegate [x00] 1 1001; OpDelegate [x01] 1 999; OpDelegate [x02] 2 70;
    OpUndelegate [x00] 1 301 10; OpReward 2 ].

Definition run_ops (config : StakingConfig) (ops : list staking_op) (s : StakingStore) : StakingStore :=
  foldl (λ s op, (run_op config op s).1) s ops.

Definition sample_store : StakingStore := run_ops StakingConfig_default sample_ops ss_new.

Lemma staking_ok_new config : staking_ok config ss_new.
Proof. by split. Qed.

Lemma run_ops_ok config ops s :
  validate_config config = Ok () → staking_ok config s → Forall op_typed ops →
  staking_ok config (run_ops config ops s).
Proof.
  intros Hc Hok Hops. revert s Hok. induction Hops as [|op ops Hop Hops IH]; intros s Hok; [done|].
  apply IH. by apply run_op_spec.
Qed.

Lemma sample_ops_typed : Forall op_typed sample_ops.
Proof. by repeat (apply Forall_cons; split); try apply Forall_nil_2. Qed.

Lemma sample_store_ok : staking_ok StakingConfig_default sample_store.
Proof. apply run_ops_ok; [done|apply staking_ok_new|apply sample_ops_typed]. Qed.

(** C18: With a configuration that validates, every sequence of calls on the
    staking manager, starting from the empty store, keeps the store consistent:
    each validator's delegated stake is the sum of its stakers' positive
    entries, stakers' entries and unbonding entries belong to registered
    validators, keys are distinct, stakes fit in [u64], scores stay within
    [max_score] and a tombstoned validator has no stake.  Moreover any further
    call keeps this, fails only without changing the store, and otherwise
    conserves the stake: what the store holds changes by exactly what the call
    deposits and withdraws. *)
Theorem staking_invariant config ops op :
  validate_config config = Ok () → Forall op_typed ops → op_typed op →
  let s := run_ops config ops ss_new in
  staking_ok config s ∧
  op_spec config s (run_op config op s).1 (run_op config op s).2.
Proof.
  intros Hc Hops Hop s. assert (staking_ok config s) as Hs by (apply run_ops_ok; [done|apply staking_ok_new|done]).
  split; [done|]. by apply run_op_spec.
Qed.

Lemma staking_invariant_witness :
  funds sample_store = 10170 ∧
  op_spec StakingConfig_default sample_store
    (run_op StakingConfig_default (OpProcessUnbonding 1010) sample_store).1
    (run_op StakingConfig_default (OpProcessUnbonding 1010) sample_store).2 ∧
  (run_op StakingConfig_default (OpProcessUnbonding 1010) sample_store).2 = Ok (0, 301).
Proof.
  split; [vm_compute; reflexivity|]. split; [|vm_compute; reflexivity].
  apply (staking_invariant StakingConfig_default sample_ops (OpProcessUnbonding 1010)).
  - reflexivity.
  - apply sample_ops_typed.
  - exact I.
Defined.



(** With a positive minimum self stake, and unless no validator is eligible
    or the eligible powers overflow [u64], the updates the staking manager
    computes are accepted by [try_apply_updates] on the current validator set,
    and the set they lead to holds exactly the formal validators with their
    keys and voting powers; computing the updates again then yields none.  The
    formal validators are registered, neither jailed nor tombstoned, have the
    minimum self stake, are at most [max_validators], and an eligible validator
    that is left out comes after every one of them in the order of decreasing
    power and increasing id, which happens only when the list is full. *)
Lemma validator_updates_correct config s current_set :
  staking_ok config s → vs_wf current_set → 0 < sc_min_self_stake config →
  formal_validator_list config s ≠ [] →
  sumN voting_power (formal_validator_list config s) ≤ u64_max →
  (∃ vs', try_apply_updates current_set (compute_validator_updates config s current_set) = Ok vs' ∧
     vs_wf vs' ∧ vs_validators vs' ≡ₚ info_of <$> formal_validator_list config s ∧
     compute_validator_updates config s vs' = []) ∧
  (length (formal_validator_list config s) ≤ sc_max_validators config)%nat ∧
  (∀ v, v ∈ formal_validator_list config s → get_validator s (va_id v) = Some v ∧ eligible config v = true) ∧
  (∀ id w, get_validator s id = Some w → eligible config w = true → w ∉ formal_validator_list config s →
     length (formal_validator_list config s) = sc_max_validators config ∧
     ∀ v, v ∈ formal_validator_list config s → power_order v w).
Proof.
  intros Hok Hvs Hmin Hne Hsum. split; [|by apply formal_spec].
  pose proof (updated_infos config s current_set Hok Hvs Hmin) as Hp.
  pose proof (formal_infos_wf config s Hok Hmin Hsum) as Hwf.
  rewrite compute_validator_updates_eq by done.
  set (l := foldl apply_update _ _) in Hp. symmetry in Hp. pose proof (infos_wf_perm _ _ Hp Hwf) as Hl.
  assert (vs_wf (mkValidatorSet l (total l) (build_index l))) as Hvs' by by split.
  exists (mkValidatorSet l (total l) (build_index l)). split_and!; [|done|by rewrite Hp|].
  - by apply try_new_Ok.
  - by apply updates_settled.
Qed.

(** The powers [1] reaches 6699 and [2] 3170; the current set has neither. *)
Lemma validator_updates_correct_witness :
  vi_power <$> (info_of <$> formal_validator_list StakingConfig_default sample_store) = [6699; 3170] ∧
  ∃ vs', try_apply_updates sample_set
      (compute_validator_updates StakingConfig_default sample_store sample_set) = Ok vs' ∧
    vs_validators vs' ≡ₚ info_of <$> formal_validator_list StakingConfig_default sample_store.
Proof.
  split; [vm_compute; reflexivity|].
  destruct (validator_updates_correct StakingConfig_default sample_store sample_set)
    as [(vs' & Hu & _ & Hp & _) _].
  - apply sample_store_ok.
  - apply sample_set_wf.
  - reflexivity.
  - vm_compute. discriminate.
  - vm_compute. discriminate.
  - eauto.
Defined.

(** With a minimum self stake of zero, which [validate_config] accepts, the
    guard against an empty list does not protect the set: a validator without
    stake is eligible, and the updates remove everyone else. *)
Definition zero_min_config : StakingConfig := mkStakingConfig 100 0 500 100 1000 10000 10000 100 1000.

Lemma zero_min_empties_the_set :
  validate_config zero_min_config = Ok () ∧
  let s := run_ops zero_min_config [OpRegister 1 (x01 :: x01 :: zeros 30) 0] ss_new in
  compute_validator_updates zero_min_config s sample_set ≠ [] ∧
  match try_apply_updates sample_set (compute_validator_updates zero_min_config s sample_set) with
  | Ok vs' => vs_validators vs' = []
  | _ => False
  end.
Proof. split; [done|]. split; [vm_compute; discriminate|vm_compute; reflexivity]. Qed.
