(* ===== verification/Persist.v ===== *)
(** * Persistent consensus state ([hotmint-storage/src/consensus_state.rs])

    The key-value records behind the engine's [StatePersistence] calls, what
    they hold after a trace of such calls, what a crash may leave of them, and
    the state the node restores from them at start-up
    ([hotmint/src/bin/node.rs]). *)

From S2P Require Import Prelude Types ValidatorSet State World.

Inductive StateValue : Type :=
| SvView (v : ViewNumber)
| SvHeight (h : Height)
| SvQc (q : QuorumCertificate)
| SvEpoch (e : Epoch)
| SvAppHash (h : BlockHash)
| SvVote (v : ViewNumber) (h : BlockHash).

Definition KEY_CURRENT_VIEW : N := 1.
Definition KEY_LOCKED_QC : N := 2.
Definition KEY_HIGHEST_QC : N := 3.
Definition KEY_LAST_COMMITTED_HEIGHT : N := 4.
Definition KEY_CURRENT_EPOCH : N := 5.
Definition KEY_LAST_APP_HASH : N := 6.
Definition KEY_PENDING_EPOCH : N := 7.
Definition KEY_PREVIOUS_EPOCH : N := 8.
Definition KEY_LAST_VOTE1 : N := 9.
Definition KEY_LAST_VOTE2 : N := 10.

(** [MapxOrd<u64, StateValue>] *)
Notation PersistentConsensusState := (gmap N StateValue).

Definition vote_slot (t : VoteType) : N :=
  match t with TVote => KEY_LAST_VOTE1 | TVote2 => KEY_LAST_VOTE2 end.

(** ** Operations *)

Section Operations.
Context (p : PersistentConsensusState).

Definition save_current_view v : PersistentConsensusState := <[KEY_CURRENT_VIEW := SvView v]> p.
Definition save_locked_qc q : PersistentConsensusState := <[KEY_LOCKED_QC := SvQc q]> p.
Definition save_highest_qc q : PersistentConsensusState := <[KEY_HIGHEST_QC := SvQc q]> p.
Definition save_last_committed_height h : PersistentConsensusState :=
  <[KEY_LAST_COMMITTED_HEIGHT := SvHeight h]> p.
Definition save_current_epoch e : PersistentConsensusState := <[KEY_CURRENT_EPOCH := SvEpoch e]> p.
Definition save_last_app_hash h : PersistentConsensusState := <[KEY_LAST_APP_HASH := SvAppHash h]> p.
Definition save_pending_epoch (o : option Epoch) : PersistentConsensusState :=
  match o with
  | Some e => <[KEY_PENDING_EPOCH := SvEpoch e]> p
  | None => delete KEY_PENDING_EPOCH p
  end.
Definition save_previous_epoch (o : option Epoch) : PersistentConsensusState :=
  match o with
  | Some e => <[KEY_PREVIOUS_EPOCH := SvEpoch e]> p
  | None => delete KEY_PREVIOUS_EPOCH p
  end.
Definition save_last_vote (t : VoteType) v h : PersistentConsensusState :=
  <[vote_slot t := SvVote v h]> p.

Definition load_current_view : option ViewNumber :=
  match p !! KEY_CURRENT_VIEW with Some (SvView v) => Some v | _ => None end.
Definition load_locked_qc : option QuorumCertificate :=
  match p !! KEY_LOCKED_QC with Some (SvQc q) => Some q | _ => None end.
Definition load_highest_qc : option QuorumCertificate :=
  match p !! KEY_HIGHEST_QC with Some (SvQc q) => Some q | _ => None end.
Definition load_last_committed_height : option Height :=
  match p !! KEY_LAST_COMMITTED_HEIGHT with Some (SvHeight h) => Some h | _ => None end.
Definition load_current_epoch : option Epoch :=
  match p !! KEY_CURRENT_EPOCH with Some (SvEpoch e) => Some e | _ => None end.
Definition load_last_app_hash : option BlockHash :=
  match p !! KEY_LAST_APP_HASH with Some (SvAppHash h) => Some h | _ => None end.
Definition load_pending_epoch : option Epoch :=
  match p !! KEY_PENDING_EPOCH with Some (SvEpoch e) => Some e | _ => None end.
Definition load_previous_epoch : option Epoch :=
  match p !! KEY_PREVIOUS_EPOCH with Some (SvEpoch e) => Some e | _ => None end.
Definition load_last_vote (t : VoteType) : option (ViewNumber * BlockHash) :=
  match p !! vote_slot t with Some (SvVote v h) => Some (v, h) | _ => None end.
End Operations.

(** The [StatePersistence] call behind an effect. *)
Definition persist_effect (p : PersistentConsensusState) (x : Effect) : PersistentConsensusState :=
  match x with
  | ESaveCurrentView v => save_current_view p v
  | ESaveLockedQc q => save_locked_qc p q
  | ESaveHighestQc q => save_highest_qc p q
  | ESaveLastCommittedHeight h => save_last_committed_height p h
  | ESaveCurrentEpoch e => save_current_epoch p e
  | ESavePreviousEpoch o => save_previous_epoch p o
  | ESaveLastAppHash h => save_last_app_hash p h
  | ESavePendingEpoch o => save_pending_epoch p o
  | ESaveLastVote t v h => save_last_vote p t v h
  | _ => p
  end.

(** The records after the calls of a process (most recent first) that found
    the records [p0]. *)
Fixpoint written (p0 : PersistentConsensusState) (tr : list Effect) : PersistentConsensusState :=
  match tr with [] => p0 | x :: rest => persist_effect (written p0 rest) x end.

(** What may be found after a crash: [flush] made every earlier call durable;
    of the calls after the last [flush], each record has kept some or none. *)
Definition recovered (p0 : PersistentConsensusState) (tr : list Effect)
    (p : PersistentConsensusState) : Prop :=
  ∀ k, ∃ lost tr', tr = lost ++ tr' ∧ EPersistFlush ∉ lost ∧ p !! k = written p0 tr' !! k.

(** ** Start-up *)

(** The state of [node.rs] before the engine starts; the fields the source
    leaves alone keep the values of [with_chain_id]. *)
Definition restore_state `{Blake3} (vid : ValidatorId) (vs : ValidatorSet) (chain_id : bytes)
    (p : PersistentConsensusState) : ConsensusState :=
  let state := with_chain_id vid vs chain_id in
  let state := match load_current_view p with Some v => set_current_view state v | None => state end in
  let state := match load_locked_qc p with Some q => set_locked_qc state (Some q) | None => state end in
  let state := match load_highest_qc p with Some q => set_highest_qc state (Some q) | None => state end in
  let state := match load_last_committed_height p with
               | Some h => set_last_committed_height state h
               | None => state
               end in
  let state := match load_current_epoch p with
               | Some e => set_current_epoch (set_validator_set state (e_validator_set e)) e
               | None => state
               end in
  let state := match load_last_app_hash p with
               | Some h => set_last_app_hash state h
               | None => state
               end in
  let state := set_last_vote1 state (load_last_vote p TVote) in
  set_last_vote2 state (load_last_vote p TVote2).

(** ** What a trace has saved *)

(** The record that an effect changes. *)
Definition saved_key (x : Effect) : option N :=
  match x with
  | ESaveCurrentView _ => Some KEY_CURRENT_VIEW
  | ESaveLockedQc _ => Some KEY_LOCKED_QC
  | ESaveHighestQc _ => Some KEY_HIGHEST_QC
  | ESaveLastCommittedHeight _ => Some KEY_LAST_COMMITTED_HEIGHT
  | ESaveCurrentEpoch _ => Some KEY_CURRENT_EPOCH
  | ESavePreviousEpoch _ => Some KEY_PREVIOUS_EPOCH
  | ESaveLastAppHash _ => Some KEY_LAST_APP_HASH
  | ESavePendingEpoch _ => Some KEY_PENDING_EPOCH
  | ESaveLastVote t _ _ => Some (vote_slot t)
  | _ => None
  end.

Lemma persist_effect_other p x k : saved_key x ≠ Some k → persist_effect p x !! k = p !! k.
Proof.
  intros Hk. destruct x; simpl in *; try done;
    unfold save_current_view, save_locked_qc, save_highest_qc, save_last_committed_height,
      save_current_epoch, save_last_app_hash, save_pending_epoch, save_previous_epoch,
      save_last_vote; try case_match;
    first [apply lookup_insert_ne|apply lookup_delete_ne]; congruence.
Qed.

Lemma vote_slot_inj t t' : vote_slot t = vote_slot t' → t = t'.
Proof. by destruct t, t'. Qed.

Lemma load_last_vote_effect p x t :
  load_last_vote (persist_effect p x) t =
  match x with
  | ESaveLastVote t' v h => if decide (t' = t) then Some (v, h) else load_last_vote p t
  | _ => load_last_vote p t
  end.
Proof.
  unfold load_last_vote. destruct (decide (saved_key x = Some (vote_slot t))) as [E|E].
  - destruct x; simpl in E; try done; simplify_eq; try by destruct t.
    apply vote_slot_inj in E as ->. simpl. unfold save_last_vote.
    by rewrite lookup_insert_eq, decide_True.
  - rewrite persist_effect_other by done. destruct x; try done. rewrite decide_False; [done|].
    intros ->. by apply E.
Qed.

Lemma load_locked_qc_effect p x :
  load_locked_qc (persist_effect p x) =
  match x with ESaveLockedQc q => Some q | _ => load_locked_qc p end.
Proof.
  unfold load_locked_qc. destruct (decide (saved_key x = Some KEY_LOCKED_QC)) as [E|E].
  - destruct x as [| | | | | | | | | | | | |t v h| | | | | | | |]; simpl in E; try done;
      [|by destruct t].
    simpl. unfold save_locked_qc. by rewrite lookup_insert_eq.
  - rewrite persist_effect_other by done. by destruct x.
Qed.

(** The last vote and the lock found after a crash are those of a part of the
    trace that holds the last [flush]. *)
Lemma recovered_last_vote p0 tr p t :
  recovered p0 tr p →
  ∃ lost tr', tr = lost ++ tr' ∧ EPersistFlush ∉ lost ∧
    load_last_vote p t = load_last_vote (written p0 tr') t.
Proof.
  intros Hr. destruct (Hr (vote_slot t)) as (lost&tr'&?&?&E). exists lost, tr'.
  split_and!; try done. unfold load_last_vote. by rewrite E.
Qed.

Lemma recovered_locked_qc p0 tr p :
  recovered p0 tr p →
  ∃ lost tr', tr = lost ++ tr' ∧ EPersistFlush ∉ lost ∧
    load_locked_qc p = load_locked_qc (written p0 tr').
Proof.
  intros Hr. destruct (Hr KEY_LOCKED_QC) as (lost&tr'&?&?&E). exists lost, tr'.
  split_and!; try done. unfold load_locked_qc. by rewrite E.
Qed.

(** A flush at the end of the trace: nothing is lost. *)
Lemma recovered_flushed p0 tr p : recovered p0 (EPersistFlush :: tr) p → p = written p0 tr.
Proof.
  intros Hr. apply map_eq. intros k.
  destruct (Hr k) as ([|x lost]&tr'&E&Hl&->); simplify_eq/=; [done|].
  exfalso. apply Hl. left.
Qed.

Lemma restore_last_vote `{Blake3} vid vs c p t :
  last_vote (restore_state vid vs c p) t = load_last_vote p t.
Proof. by destruct t. Qed.

Lemma restore_locked_qc `{Blake3} vid vs c p :
  cs_locked_qc (restore_state vid vs c p) = load_locked_qc p.
Proof.
  unfold restore_state. cbn zeta. by repeat case_match.
Qed.
