(* ===== verification/Pacemaker.v ===== *)
(** * Pacemaker ([hotmint-consensus/src/pacemaker.rs])

    View timers with exponential backoff, collection of timeout wishes into
    timeout certificates and the relay filter.  Instants and durations are
    milliseconds; the backoff is computed in binary64 as in the source. *)

From Stdlib Require Import Floats.SpecFloat.
From S2P Require Import Prelude Types ValidatorSet Encoding Aggregate State World.

(** ** Binary64 arithmetic of the backoff *)

Definition f64 : Type := spec_float.

Definition f64_mul (a b : f64) : f64 := SFmul 53 1024 a b.
Definition f64_div (a b : f64) : f64 := SFdiv 53 1024 a b.

(** [n as f64] *)
Definition f64_of_N (n : N) : f64 := binary_normalize 53 1024 (Z.of_N n) 0 false.

(** [x as u64]: truncation, saturating at both ends, NaN to zero *)
Definition f64_to_u64 (x : f64) : N :=
  match x with
  | S754_finite false m e =>
      N.min (Z.to_N (match e with
                     | Z0 => Z.pos m
                     | Zpos p => Z.shiftl (Z.pos m) (Z.pos p)
                     | Zneg p => Z.shiftr (Z.pos m) (Z.pos p)
                     end)) u64_max
  | S754_infinity false => u64_max
  | _ => 0
  end.

(** [powi] by repeated squaring, on the absolute exponent; 32 squarings cover
    an [i32]. *)
Fixpoint powi_loop (fuel : nat) (r a : f64) (b : Z) : f64 :=
  match fuel with
  | O => r
  | S fuel =>
      let r := if Z.odd b then f64_mul r a else r in
      let b := (b / 2)%Z in
      if (b =? 0)%Z then r else powi_loop fuel r (f64_mul a a) b
  end.

Definition f64_powi (a : f64) (b : Z) : f64 :=
  let r := powi_loop 32 (f64_of_N 1) a (Z.abs b) in
  if (b <? 0)%Z then f64_div (f64_of_N 1) r else r.

(** [n as i32] of a [u32] *)
Definition u32_as_i32 (n : N) : Z :=
  if n <? 2147483648 then Z.of_N n else (Z.of_N n - 4294967296)%Z.

(** ** Configuration and state *)

Record PacemakerConfig : Type := mkPacemakerConfig {
  pc_base_timeout_ms : N;
  pc_max_timeout_ms : N;
  pc_backoff_multiplier : f64;
}.

(** 1.5 is 3 * 2^-1, normalised to 53 bits. *)
Definition f64_1_5 : f64 := S754_finite false 6755399441055744 (-52).

Definition PacemakerConfig_default : PacemakerConfig := mkPacemakerConfig 2000 30000 f64_1_5.

Record Pacemaker : Type := mkPacemaker {
  pm_config : PacemakerConfig;
  pm_view_deadline : N;
  pm_base_timeout : N;
  pm_current_timeout : N;
  pm_consecutive_timeouts : N;
  pm_wishes : gmap N (list (ValidatorId * option QuorumCertificate * Signature));
  pm_relayed_tcs : gmap N bool;
}.

Definition pm_with_config (now : N) (config : PacemakerConfig) : Pacemaker :=
  let base_timeout := pc_base_timeout_ms config in
  mkPacemaker config (now + base_timeout) base_timeout base_timeout 0 ∅ ∅.

Definition reset_timer (now : N) (p : Pacemaker) : Pacemaker :=
  mkPacemaker (pm_config p) (now + pm_current_timeout p) (pm_base_timeout p)
    (pm_current_timeout p) (pm_consecutive_timeouts p) (pm_wishes p) (pm_relayed_tcs p).

Definition reset_on_progress (now : N) (p : Pacemaker) : Pacemaker :=
  mkPacemaker (pm_config p) (now + pm_base_timeout p) (pm_base_timeout p)
    (pm_base_timeout p) 0 (pm_wishes p) (pm_relayed_tcs p).

(** The timeout after [n] consecutive timeouts. *)
Definition backoff_ms (config : PacemakerConfig) (base_timeout n : N) : N :=
  let multiplier := f64_powi (pc_backoff_multiplier config) (u32_as_i32 n) in
  let new_ms := f64_to_u64 (f64_mul (f64_of_N base_timeout) multiplier) in
  N.min new_ms (pc_max_timeout_ms config).

Definition on_timeout (now : N) (p : Pacemaker) : Pacemaker :=
  let n := wrapping_add32 (pm_consecutive_timeouts p) 1 in
  let t := backoff_ms (pm_config p) (pm_base_timeout p) n in
  mkPacemaker (pm_config p) (now + t) (pm_base_timeout p) t n (pm_wishes p) (pm_relayed_tcs p).

(** The signed wish for the next view; [sign] happens in the caller's world. *)
Definition build_wish {St App E} `{Blake3, Signer} (chain_id_hash : bytes) (epoch : EpochNumber)
    (current_view : ViewNumber) (validator_id : ValidatorId)
    (highest_qc : option QuorumCertificate) : SM (World St App) E ConsensusMessage :=
  target_view ← lift_res (ViewNumber_next current_view);
  signature ← sign_payload (PWish chain_id_hash epoch target_view highest_qc);
  mret (Wish target_view validator_id highest_qc signature).

(** The power of the wishes, skipping validators without power; [None] on
    overflow. *)
Fixpoint wish_power (vs : ValidatorSet) (power : N)
    (wishes : list (ValidatorId * option QuorumCertificate * Signature)) : option N :=
  match wishes with
  | [] => Some power
  | (vid, _, _) :: rest =>
      let validator_power := power_of vs vid in
      if validator_power =? 0 then wish_power vs power rest
      else power' ← checked_add64 power validator_power; wish_power vs power' rest
  end.

(** The loop that fills the certificate; the result of [agg.add] is ignored. *)
Fixpoint fill_tc (vs : ValidatorSet) (agg : AggregateSignature)
    (highest_qcs : list (option QuorumCertificate))
    (wishes : list (ValidatorId * option QuorumCertificate * Signature))
    : AggregateSignature * list (option QuorumCertificate) :=
  match wishes with
  | [] => (agg, highest_qcs)
  | (vid, hqc, sig) :: rest =>
      match index_of vs vid with
      | Some idx =>
          let agg := match agg_add agg idx sig with Ok agg' => agg' | _ => agg end in
          fill_tc vs agg (<[idx := hqc]> highest_qcs) rest
      | None => fill_tc vs agg highest_qcs rest
      end
  end.

Definition set_wishes (p : Pacemaker) w : Pacemaker :=
  mkPacemaker (pm_config p) (pm_view_deadline p) (pm_base_timeout p) (pm_current_timeout p)
    (pm_consecutive_timeouts p) w (pm_relayed_tcs p).

Definition add_wish (p : Pacemaker) (vs : ValidatorSet) (target_view : ViewNumber)
    (validator : ValidatorId) (highest_qc : option QuorumCertificate) (signature : Signature)
    : Pacemaker * option TimeoutCertificate :=
  let wishes := default [] (pm_wishes p !! target_view) in
  if bool_decide (Exists (λ x, x.1.1 = validator) wishes) then
    (set_wishes p (<[target_view := wishes]> (pm_wishes p)), None)
  else
    let wishes := wishes ++ [(validator, highest_qc, signature)] in
    let p := set_wishes p (<[target_view := wishes]> (pm_wishes p)) in
    match wish_power vs 0 wishes with
    | None => (p, None)
    | Some power =>
        if quorum_threshold vs <=? power then
          let '(agg, highest_qcs) :=
            fill_tc vs (agg_new (validator_count vs)) (replicate (validator_count vs) None) wishes in
          (p, Some (mkTC (saturating_sub target_view 1) agg highest_qcs))
        else (p, None)
    end.

Definition should_relay_tc (p : Pacemaker) (tc : TimeoutCertificate) : Pacemaker * bool :=
  match pm_relayed_tcs p !! tc_view tc with
  | None =>
      (mkPacemaker (pm_config p) (pm_view_deadline p) (pm_base_timeout p) (pm_current_timeout p)
         (pm_consecutive_timeouts p) (pm_wishes p) (<[tc_view tc := true]> (pm_relayed_tcs p)), true)
  | Some _ => (p, false)
  end.

Definition pm_clear_view (p : Pacemaker) (view : ViewNumber) : Pacemaker :=
  set_wishes p (delete view (pm_wishes p)).

Definition pm_prune_before (p : Pacemaker) (min_view : ViewNumber) : Pacemaker :=
  mkPacemaker (pm_config p) (pm_view_deadline p) (pm_base_timeout p) (pm_current_timeout p)
    (pm_consecutive_timeouts p) (filter (λ '(v, _), min_view ≤ v) (pm_wishes p))
    (filter (λ '(v, _), min_view ≤ v) (pm_relayed_tcs p)).

(** ** Wishes *)

Notation wish := (ValidatorId * option QuorumCertificate * Signature)%type.

(** The aggregate entry a wish contributes, if its validator is a member. *)
Definition wish_entry (vs : ValidatorSet) (x : wish) : option (nat * Signature) :=
  (λ i, (i, x.2)) <$> index_of vs x.1.1.

Definition wishers (wishes : list wish) : list ValidatorId := (λ x, x.1.1) <$> wishes.

Lemma power_of_where vs id :
  vs_wf vs →
  power_of vs id = power_where (λ x, x =? id) (vs_validators vs).
Proof.
  intros Hwf. unfold power_of. destruct (get vs id) as [v|] eqn:Hg.
  - apply get_spec in Hg as [Hv <-]; [|done]. pose proof (iw_ids _ (vw_infos _ Hwf)) as Hnd.
    unfold power_where. induction Hv as [v l|v w l Hv IH]; csimpl in *;
      apply NoDup_cons in Hnd as [Hnin Hnd].
    + rewrite N.eqb_refl. rewrite (sumN_ext _ (λ _, 0)).
      * assert (∀ l : list ValidatorInfo, sumN (λ _, 0) l = 0) as ->; [|lia].
        clear. intros l. induction l; simpl; lia.
      * intros x Hx. destruct (N.eqb_spec (vi_id x) (vi_id v)) as [E|]; [|done].
        exfalso. apply Hnin. rewrite <- E. apply list_elem_of_fmap. eauto.
    + destruct (N.eqb_spec (vi_id w) (vi_id v)) as [E|]; [|by rewrite N.add_0_l; apply IH].
      exfalso. apply Hnin. rewrite E. apply list_elem_of_fmap. eauto.
  - symmetry. pose proof (proj1 (get_None vs Hwf id) Hg) as Hnone. unfold power_where.
    rewrite (sumN_ext _ (λ _, 0)).
    + generalize (vs_validators vs). intros l. induction l; simpl; lia.
    + intros x Hx. destruct (N.eqb_spec (vi_id x) id); [|done]. by destruct (Hnone x Hx).
Qed.

Lemma sum_power_where vs ids :
  vs_wf vs → NoDup ids →
  sumN (power_of vs) ids = power_where (λ x, bool_decide (x ∈ ids)) (vs_validators vs).
Proof.
  intros Hwf. induction 1 as [|id ids Hid Hnd IH]; csimpl.
  { unfold power_where. generalize (vs_validators vs). intros l. by induction l; simpl. }
  rewrite IH, power_of_where by done. unfold power_where.
  generalize (vs_validators vs). intros l. induction l as [|v l IHl]; simpl; [done|].
  rewrite (bool_decide_ext (vi_id v ∈ id :: ids) (vi_id v = id ∨ vi_id v ∈ ids))
    by apply elem_of_cons.
  destruct (N.eqb_spec (vi_id v) id) as [E|E].
  - rewrite E, bool_decide_false by done. rewrite bool_decide_true by (by left). lia.
  - rewrite (bool_decide_ext (vi_id v = id ∨ vi_id v ∈ ids) (vi_id v ∈ ids)) by naive_solver.
    case_bool_decide; lia.
Qed.

Lemma wish_power_spec vs power (wishes : list wish) :
  power + sumN (power_of vs) (wishers wishes) ≤ u64_max →
  wish_power vs power wishes = Some (power + sumN (power_of vs) (wishers wishes)).
Proof.
  revert power. induction wishes as [|[[vid q] s] wishes IH]; intros power; simpl.
  { intros _. f_equal. lia. }
  intros Hmax. destruct (N.eqb_spec (power_of vs vid) 0) as [E|E].
  - rewrite E in *. rewrite IH; [f_equal|]; lia.
  - rewrite (proj2 (checked_add64_Some power (power_of vs vid) _)) by (split; [done|lia]). simpl.
    rewrite IH; [f_equal|]; lia.
Qed.

Lemma wish_power_total vs (wishes : list wish) :
  vs_wf vs → NoDup (wishers wishes) →
  wish_power vs 0 wishes =
    Some (power_where (λ x, bool_decide (x ∈ wishers wishes)) (vs_validators vs)).
Proof.
  intros Hwf Hnd. rewrite wish_power_spec; rewrite N.add_0_l, sum_power_where by done; [done|].
  etrans; [apply power_where_le|apply Hwf].
Qed.

Lemma fill_tc_spec vs agg hqs (wishes : list wish) agg' hqs' :
  vs_wf vs → aligned agg → length (agg_signers agg) = validator_count vs →
  length hqs = validator_count vs → NoDup (wishers wishes) →
  (∀ x i, x ∈ wishes → index_of vs x.1.1 = Some i → agg_signers agg !! i = Some false) →
  fill_tc vs agg hqs wishes = (agg', hqs') →
  aligned agg' ∧ length (agg_signers agg') = validator_count vs ∧
  length hqs' = validator_count vs ∧
  agg_entries agg' ≡ₚ omap (wish_entry vs) wishes ++ agg_entries agg ∧
  (∀ x i, x ∈ wishes → index_of vs x.1.1 = Some i → hqs' !! i = Some x.1.2) ∧
  (∀ i, (∀ x, x ∈ wishes → index_of vs x.1.1 ≠ Some i) → hqs' !! i = hqs !! i).
Proof.
  intros Hwf. revert agg hqs.
  induction wishes as [|[[vid hqc] sig] wishes IH]; intros agg hqs Hal Hlen Hlq Hnd Hbits Hf.
  { simpl in Hf. simplify_eq. split_and!; try done. by intros x i ?%not_elem_of_nil. }
  apply NoDup_cons in Hnd as [Hnin Hnd]. simpl in Hf, Hnin.
  assert (∀ x, x ∈ wishes → x.1.1 ≠ vid) as Hne.
  { intros x Hx <-. apply Hnin. apply list_elem_of_fmap. eauto. }
  destruct (index_of vs vid) as [idx|] eqn:Hidx.
  - pose proof (Hbits (vid, hqc, sig) idx ltac:(left) Hidx) as Hb.
    pose proof (agg_add_spec agg idx sig Hal) as Hadd.
    destruct (agg_add agg idx sig) as [agg1|[| |]|] eqn:Ea; try done.
    2: { apply lookup_lt_Some in Hb. lia. }
    2: { destruct Hadd. congruence. }
    destruct Hadd as (_&Hs&Hal1&Hperm).
    assert (∀ x i, x ∈ wishes → index_of vs x.1.1 = Some i → i ≠ idx) as Hii.
    { intros x i Hx Hi ->. apply (Hne x Hx).
      apply index_of_spec in Hi as (a&Ha&<-), Hidx as (b&Hb'&<-); [|done..]. congruence. }
    destruct (IH agg1 (<[idx := hqc]> hqs) Hal1) as (H1&H2&H3&H4&H5&H6); try done.
    + by rewrite Hs, length_insert.
    + by rewrite length_insert.
    + intros x i Hx Hi. rewrite Hs, list_lookup_insert_ne by (symmetry; by eapply Hii).
      apply (Hbits x); [by right|done].
    + split_and!; try done.
      * rewrite H4, Hperm. unfold wish_entry at 2. simpl. rewrite Hidx. simpl.
        by rewrite <- Permutation_middle.
      * intros x i [->|Hx]%elem_of_cons Hi; [|by apply (H5 x)].
        simpl in Hi. rewrite Hidx in Hi. injection Hi as <-. rewrite H6.
        -- apply list_lookup_insert_eq. rewrite Hlq. by eapply index_of_lt.
        -- intros x Hx Hi. by apply (Hii x idx).
      * intros i Hi. rewrite H6 by (intros x Hx; apply Hi; by right).
        apply list_lookup_insert_ne. intros ->. apply (Hi (vid, hqc, sig)); [left|done].
  - destruct (IH agg hqs) as (H1&H2&H3&H4&H5&H6); try done.
    { intros x i Hx. apply Hbits. by right. }
    split_and!; try done.
    + rewrite H4. csimpl. unfold wish_entry at 2. simpl. by rewrite Hidx.
    + intros x i [->|Hx]%elem_of_cons Hi; [simpl in Hi; congruence|by apply (H5 x)].
    + intros i Hi. apply H6. intros x Hx. apply Hi. by right.
Qed.

(** ** The certificate of a set of wishes *)

(** At most one wish per validator in every bucket. *)
Definition pm_inv (p : Pacemaker) : Prop :=
  ∀ v l, pm_wishes p !! v = Some l → NoDup (wishers l).

Record tc_of_wishes (vs : ValidatorSet) (target : ViewNumber) (wishes : list wish)
    (tc : TimeoutCertificate) : Prop := {
  tw_view : tc_view tc = saturating_sub target 1;
  tw_aligned : aligned (tc_aggregate_signature tc);
  tw_signers : length (agg_signers (tc_aggregate_signature tc)) = validator_count vs;
  tw_qcs : length (tc_highest_qcs tc) = validator_count vs;
  tw_entries : agg_entries (tc_aggregate_signature tc) ≡ₚ omap (wish_entry vs) wishes;
  tw_reports : ∀ x i, x ∈ wishes → index_of vs x.1.1 = Some i →
    tc_highest_qcs tc !! i = Some x.1.2;
}.

Lemma add_wish_spec p vs target id hqc sig p' o :
  vs_wf vs → pm_inv p → add_wish p vs target id hqc sig = (p', o) →
  let old := default [] (pm_wishes p !! target) in
  let new := old ++ [(id, hqc, sig)] in
  pm_inv p' ∧
  match o with
  | Some tc =>
      id ∉ wishers old ∧ pm_wishes p' !! target = Some new ∧ tc_of_wishes vs target new tc ∧
      quorum_threshold vs ≤
        power_where (λ x, bool_decide (x ∈ wishers new)) (vs_validators vs)
  | None =>
      id ∈ wishers old ∨
      (pm_wishes p' !! target = Some new ∧
       power_where (λ x, bool_decide (x ∈ wishers new)) (vs_validators vs) < quorum_threshold vs)
  end.
Proof.
  intros Hwf Hinv Hadd old new. unfold add_wish in Hadd. fold old in Hadd.
  assert (NoDup (wishers old)) as Hold.
  { unfold old. destruct (pm_wishes p !! target) eqn:E; simpl; [by eapply Hinv|constructor]. }
  assert (Exists (λ x : wish, x.1.1 = id) old ↔ id ∈ wishers old) as Hex.
  { rewrite Exists_exists. unfold wishers. rewrite list_elem_of_fmap. naive_solver. }
  assert (∀ l, NoDup (wishers l) → pm_inv (set_wishes p (<[target := l]> (pm_wishes p)))) as Hins.
  { intros l Hl v l'. simpl. rewrite lookup_insert_Some. intros [[<- <-]|[_ ?]]; [done|by eapply Hinv]. }
  case_bool_decide as Hd.
  { simplify_eq. split; [by apply Hins|]. left. by apply Hex. }
  rewrite Hex in Hd. fold new in Hadd.
  assert (NoDup (wishers new)) as Hnew.
  { unfold wishers, new. rewrite fmap_app. apply NoDup_app. csimpl.
    split_and!; [done| |apply NoDup_singleton]. by intros x Hx ->%list_elem_of_singleton. }
  rewrite wish_power_total in Hadd by done.
  destruct (N.leb_spec (quorum_threshold vs)
    (power_where (λ x, bool_decide (x ∈ wishers new)) (vs_validators vs))).
  - destruct (fill_tc vs _ _ new) as [agg hqs] eqn:Hf. injection Hadd as <- <-.
    split; [by apply Hins|]. split; [done|]. split; [simpl; by rewrite lookup_insert_eq|]. split; [|done].
    apply fill_tc_spec in Hf as (H1&H2&H3&H4&H5&H6); try done.
    + split; simpl; try done. by rewrite agg_new_entries, app_nil_r in H4.
    + apply agg_new_aligned.
    + simpl. apply length_replicate.
    + apply length_replicate.
    + intros x i Hx Hi. simpl. apply lookup_replicate_2. by eapply index_of_lt.
  - simplify_eq. split; [by apply Hins|]. right. split; [simpl; by rewrite lookup_insert_eq|done].
Qed.

(** ** The backoff schedule *)

(** Positive, possibly infinite. *)
Definition f64_pos (x : f64) : bool :=
  match x with S754_finite false _ _ | S754_infinity false => true | _ => false end.

Notation f64_inf := (S754_infinity false : f64).

Lemma f64_mul_inf r : f64_pos r = true → f64_mul r f64_inf = f64_inf.
Proof. by destruct r as [|[]| |[] m e]. Qed.

(** Once the squared base is infinite, so is the power. *)
Lemma powi_loop_inf fuel r b :
  f64_pos r = true → (0 < b < 2 ^ Z.of_nat fuel)%Z → powi_loop fuel r f64_inf b = f64_inf.
Proof.
  revert r b. induction fuel as [|fuel IH]; intros r b Hr Hb; [simpl in Hb; lia|].
  cbn [powi_loop]. rewrite Nat2Z.inj_succ, Z.pow_succ_r in Hb by lia.
  pose proof (Z.div_mod b 2) as Hd. pose proof (Z.mod_pos_bound b 2) as Hm.
  change (f64_mul f64_inf f64_inf) with f64_inf.
  destruct (Z.odd b) eqn:Ho.
  - rewrite f64_mul_inf by done. destruct (Z.eqb_spec (b / 2) 0); [done|]. apply IH; [done|lia].
  - rewrite Zmod_odd, Ho in Hd. destruct (Z.eqb_spec (b / 2) 0); [lia|]. apply IH; [done|lia].
Qed.

(** The accumulator and the base after [k] rounds that do not end the loop. *)
Fixpoint powi_acc (k : nat) (r a : f64) (b : Z) : f64 :=
  match k with
  | O => r
  | S k => powi_acc k (if Z.odd b then f64_mul r a else r) (f64_mul a a) (b / 2)
  end.
Fixpoint powi_base (k : nat) (a : f64) : f64 :=
  match k with O => a | S k => powi_base k (f64_mul a a) end.

Lemma powi_loop_split k fuel r a b :
  (2 ^ Z.of_nat k <= b)%Z →
  powi_loop (k + fuel) r a b =
  powi_loop fuel (powi_acc k r a b) (powi_base k a) (b / 2 ^ Z.of_nat k).
Proof.
  revert r a b. induction k as [|k IH]; intros r a b Hb.
  - simpl. by rewrite Z.div_1_r.
  - rewrite Nat2Z.inj_succ, Z.pow_succ_r in * by lia. cbn [Nat.add powi_loop powi_acc powi_base].
    assert (2 ^ Z.of_nat k <= b / 2)%Z by (apply Z.div_le_lower_bound; lia).
    assert (0 < 2 ^ Z.of_nat k)%Z by (apply Z.pow_pos_nonneg; lia).
    destruct (Z.eqb_spec (b / 2) 0); [lia|]. rewrite IH by done.
    by rewrite Z.div_div by lia.
Qed.

Lemma powi_acc_mod k r a b : powi_acc k r a b = powi_acc k r a (b mod 2 ^ Z.of_nat k).
Proof.
  revert r a b. induction k as [|k IH]; intros r a b; [done|]. cbn [powi_acc].
  rewrite Nat2Z.inj_succ, Z.pow_succ_r by lia.
  assert (0 < 2 ^ Z.of_nat k)%Z by (apply Z.pow_pos_nonneg; lia).
  rewrite (Z.rem_mul_r b 2 (2 ^ Z.of_nat k)) by lia.
  assert (Z.odd (b mod 2 + 2 * ((b / 2) mod 2 ^ Z.of_nat k)) = Z.odd b) as ->.
  { rewrite Z.odd_add_mul_2, Zmod_odd. by destruct (Z.odd b). }
  replace ((b mod 2 + 2 * ((b / 2) mod 2 ^ Z.of_nat k)) / 2)%Z
    with ((b / 2) mod 2 ^ Z.of_nat k)%Z; [by rewrite <- IH|].
  rewrite Z.add_comm, (Z.mul_comm 2), Z.div_add_l by lia.
  rewrite (Z.div_small (b mod 2)) by (apply Z.mod_pos_bound; lia). lia.
Qed.

Lemma powi_acc_pos :
  forallb (λ n, f64_pos (powi_acc 11 (f64_of_N 1) f64_1_5 (Z.of_N n))) (seqN 0 2048) = true.
Proof. vm_compute. reflexivity. Qed.

(** From 2048 timeouts on the power is infinite in binary64. *)
Lemma powi_large n :
  (2048 <= n < 2147483648)%Z → f64_powi f64_1_5 n = f64_inf.
Proof.
  intros Hn. unfold f64_powi. rewrite Z.abs_eq by lia.
  change 32%nat with (11 + 21)%nat. rewrite powi_loop_split by (simpl; lia).
  change (powi_base 11 f64_1_5) with f64_inf. rewrite powi_loop_inf.
  - by destruct (Z.ltb_spec n 0); [lia|].
  - rewrite powi_acc_mod. change (2 ^ Z.of_nat 11)%Z with 2048%Z.
    pose proof (Z.mod_pos_bound n 2048 ltac:(lia)).
    pose proof powi_acc_pos as H'. rewrite forallb_forall in H'.
    rewrite <- (Z2N.id (n mod 2048)) by lia. apply H', list_elem_of_In, elem_of_seqN. lia.
  - change (2 ^ Z.of_nat 11)%Z with 2048%Z. change (2 ^ Z.of_nat 21)%Z with 2097152%Z.
    split; [apply Z.div_str_pos; lia|apply Z.div_lt_upper_bound; lia].
Qed.

Lemma backoff_small :
  forallb (λ n, backoff_ms PacemakerConfig_default 2000 n =?
             if n <? 7 then 2000 * 3 ^ n / 2 ^ n else 30000) (seqN 0 2048) = true.
Proof. vm_compute. reflexivity. Qed.

Lemma growth n : 7 ≤ n → 15 * 2 ^ n ≤ 3 ^ n.
Proof.
  intros Hn. replace n with (7 + (n - 7)) by lia. generalize (n - 7). clear n Hn.
  intros k. induction k as [|k IH] using N.peano_ind; [vm_compute; done|].
  replace (7 + N.succ k) with (N.succ (7 + k)) by lia. rewrite !N.pow_succ_r'. lia.
Qed.

Lemma backoff_ms_default n :
  n < 2147483648 → backoff_ms PacemakerConfig_default 2000 n = N.min (2000 * 3 ^ n / 2 ^ n) 30000.
Proof.
  intros Hn. assert (7 ≤ n → N.min (2000 * 3 ^ n / 2 ^ n) 30000 = 30000) as Hbig.
  { intros H7. apply N.min_r, N.div_le_lower_bound; [by apply N.pow_nonzero|].
    pose proof (growth n H7). lia. }
  destruct (N.lt_ge_cases n 2048) as [Hs|Hl].
  - pose proof backoff_small as H. rewrite forallb_forall in H.
    specialize (H n). rewrite N.eqb_eq in H. rewrite H by (apply list_elem_of_In, elem_of_seqN; lia).
    destruct (N.ltb_spec n 7); [|by rewrite Hbig].
    symmetry. apply N.min_l.
    assert (n = 0 ∨ n = 1 ∨ n = 2 ∨ n = 3 ∨ n = 4 ∨ n = 5 ∨ n = 6) as Hc by lia.
    destruct Hc as [->|[->|[->|[->|[->|[->| ->]]]]]]; vm_compute; done.
  - rewrite Hbig by lia. unfold backoff_ms, u32_as_i32.
    destruct (N.ltb_spec n 2147483648); [|lia]. cbn [pc_backoff_multiplier PacemakerConfig_default].
    rewrite powi_large by lia. vm_compute. done.
Qed.

Lemma timeouts_state now n :
  N.of_nat n < 2147483648 →
  let p := Nat.iter n (on_timeout now) (pm_with_config now PacemakerConfig_default) in
  pm_config p = PacemakerConfig_default ∧ pm_base_timeout p = 2000 ∧
  pm_consecutive_timeouts p = N.of_nat n ∧
  pm_current_timeout p = backoff_ms PacemakerConfig_default 2000 (N.of_nat n) ∧
  pm_view_deadline p = now + pm_current_timeout p.
Proof.
  induction n as [|n IH]; intros Hn; simpl; [by split_and!; vm_compute|].
  destruct IH as (Hc&Hb&Hk&_&_); [lia|]. simpl in *. rewrite Hc, Hb, Hk.
  replace (wrapping_add32 (N.of_nat n) 1) with (N.of_nat (S n)); [done|].
  unfold wrapping_add32. rewrite N.mod_small by (unfold u32_max; lia). lia.
Qed.

(** C14: with the default configuration the timeout of a view after [n] timeouts
    in a row is [2000 * 1.5^n] milliseconds rounded down, capped at 30 seconds,
    for every [n] below [2^31]: the rounding of the binary64 power never shows;
    the deadline is that long after the last timeout, and progress resets the
    timeout to two seconds. *)
Theorem backoff_schedule now n :
  N.of_nat n < 2147483648 →
  let p := Nat.iter n (on_timeout now) (pm_with_config now PacemakerConfig_default) in
  pm_current_timeout p = N.min (2000 * 3 ^ N.of_nat n / 2 ^ N.of_nat n) 30000 ∧
  pm_view_deadline p = now + pm_current_timeout p ∧
  ∀ later, pm_current_timeout (reset_on_progress later p) = 2000 ∧
    pm_consecutive_timeouts (reset_on_progress later p) = 0.
Proof.
  intros Hn p. destruct (timeouts_state now n Hn) as (_&Hb&_&Ht&Hd). fold p in Hb, Ht, Hd.
  rewrite Ht, backoff_ms_default in * by done. by split_and!.
Qed.

Lemma backoff_schedule_witness :
  pm_current_timeout (Nat.iter 5 (on_timeout 7) (pm_with_config 7 PacemakerConfig_default)) = 15187.
Proof.
  destruct (backoff_schedule 7 5) as (H&_&_); [vm_compute; reflexivity|]. rewrite H.
  vm_compute. reflexivity.
Defined.
