(* ===== verification/Commit.v ===== *)
(** * Commit rule ([hotmint-consensus/src/commit.rs])

    Decoding of block payloads, the chain walk and the execution loop of
    [try_commit], the validation of embedded evidence and the derivation of
    epochs from validator updates. *)

From S2P Require Import Prelude Types ValidatorSet Encoding State BlockStore World.

(** ** Payloads *)

(** The [while] loop of [decode_payload] on the bytes from [offset] on; each
    iteration consumes at least four bytes, so the payload's length is fuel
    enough. *)
Fixpoint decode_from (fuel : nat) (rest : bytes) : list bytes :=
  match fuel with
  | O => []
  | S fuel =>
      if (4 <=? length rest)%nat then
        let len := N.to_nat (le_u32 (take 4 rest)) in
        let rest := drop 4 rest in
        if (length rest <? len)%nat then []
        else take len rest :: decode_from fuel (drop len rest)
      else []
  end.

Definition decode_payload (payload : bytes) : list bytes :=
  decode_from (length payload) payload.

(** ** Results *)

Record CommitResult : Type := mkCommitResult {
  cr_committed_blocks : list Block;
  cr_commit_qc : QuorumCertificate;
  cr_pending_epoch : option Epoch;
  cr_activated_epoch : option Epoch;
  cr_last_app_hash : BlockHash;
  cr_block_responses : list EndBlockResponse;
}.

Inductive commit_error : Type :=
| CommitBlockNotFound
| HeightZero
| MissingAncestor (h : BlockHash)
| HeightDiscontinuity (child parent : Height)
| LastCommittedMissing
| ConflictsWithCommitted
| SkipsLastCommitted
| InvalidUpdates (height : Height) (e : vs_error)
| ChainFuel.

Inductive evidence_error : Type :=
| EvUnknownValidator
| EvInvalid
| EvSignature.

(** ** Epochs *)

Definition chained_pending_epoch {E} (current_epoch : Epoch) (pending : option Epoch)
    (block_view : ViewNumber) (updates : list ValidatorUpdate) (err : vs_error → E)
    : res E Epoch :=
  let '(base_number, base_vs) :=
    match pending with
    | Some ep => (e_number ep, e_validator_set ep)
    | None => (e_number current_epoch, e_validator_set current_epoch)
    end in
  new_vs ← match try_apply_updates base_vs updates with
           | Ok vs => Ok vs
           | Err e => Err (err e)
           | Panic => Panic
           end;
  let epoch_start := block_view +w 2 in
  number ← EpochNumber_next base_number;
  mret (mkEpoch number epoch_start new_vs).

(** The loop variables of the execution loop. *)
Record CommitLoop : Type := mkCommitLoop {
  cl_pending_epoch : option Epoch;
  cl_activated_epoch : option Epoch;
  cl_active_epoch : Epoch;
  cl_previous_epoch : option Epoch;
  cl_last_app_hash : BlockHash;
  cl_block_responses : list EndBlockResponse;
}.

(** Activate the in-flight pending epoch when a block reaches its start view. *)
Definition activate_pending (l : CommitLoop) (view : ViewNumber) : CommitLoop :=
  match cl_pending_epoch l with
  | Some p =>
      if e_start_view p <=? view then
        mkCommitLoop None (Some p) p (Some (cl_active_epoch l)) (cl_last_app_hash l)
          (cl_block_responses l)
      else l
  | None => l
  end.

(** The epoch a block is executed under. *)
Definition context_epoch (l : CommitLoop) (view : ViewNumber) : Epoch :=
  if view <? e_start_view (cl_active_epoch l)
  then default (cl_active_epoch l) (cl_previous_epoch l)
  else cl_active_epoch l.

Definition commit_context (b : Block) (e : Epoch) : BlockContext :=
  mkBlockContext (b_height b) (b_view b) (b_proposer b) (e_number e) (e_start_view e)
    (e_validator_set e) (b_timestamp b) [].

Section Commit.
Context {St App : Type} `{BlockStore St} `{Application App}.
Notation MW := (SM (World St App) commit_error).

(** ** The chain walk *)

(** From the block to commit back to the last committed block; [to_commit]
    grows by [push].  Heights strictly decrease, so the height is fuel enough. *)
Fixpoint collect_chain (fuel : nat) (store : St) (last_committed : Height) (current : Block)
    (to_commit : list Block) : res commit_error (list Block) :=
  match fuel with
  | O => Err ChainFuel
  | S fuel =>
      expected_parent_height ← ok_or (checked_sub (b_height current) 1) HeightZero;
      parent ← ok_or (get_block store (b_parent_hash current))
                 (MissingAncestor (b_parent_hash current));
      if negb (b_height parent =? expected_parent_height) then
        Err (HeightDiscontinuity (b_height current) (b_height parent))
      else
        let to_commit := to_commit ++ [current] in
        if b_height parent =? last_committed then
          committed ← ok_or (get_block_by_height store last_committed) LastCommittedMissing;
          if negb (bool_decide (b_hash parent = b_hash committed)) then Err ConflictsWithCommitted
          else Ok to_commit
        else if b_height parent <? last_committed then Err SkipsLastCommitted
        else collect_chain fuel store last_committed parent to_commit
  end.

(** ** Execution *)

(** [execute_committed_block]: an application error is fatal. *)
Definition execute_committed_block (block : Block) (ctx : BlockContext) : MW EndBlockResponse :=
  for_each (b_evidence block) (λ proof,
    emit (EAppEvidence proof) ;;
    ok ← call_app (λ a, app_on_evidence a proof);
    if ok : bool then mret () else panic) ;;
  emit (EAppExecute block) ;;
  response ← call_app (λ a, app_execute_block a (decode_payload (b_payload block)) ctx);
  match response with
  | None => panic
  | Some response =>
      emit (EAppCommit block) ;;
      ok ← call_app (λ a, app_on_commit a block ctx);
      if ok : bool then mret response else panic
  end.

(** One iteration of the execution loop. *)
Definition commit_one (l : CommitLoop) (block : Block) : MW CommitLoop :=
  let l := activate_pending l (b_view block) in
  let ctx := commit_context block (context_epoch l (b_view block)) in
  response ← execute_committed_block block ctx;
  tracks ← gets (λ w, app_tracks_app_hash (w_app w));
  let last_app_hash := if tracks : bool then ebr_app_hash response else b_app_hash block in
  pending ←
    (if bool_decide (ebr_validator_updates response = []) then mret (cl_pending_epoch l)
     else
       ep ← lift_res (chained_pending_epoch (cl_active_epoch l) (cl_pending_epoch l)
              (b_view block) (ebr_validator_updates response) (InvalidUpdates (b_height block)));
       mret (Some ep));
  mod_state (λ s, set_last_committed_height s (b_height block)) ;;
  mret (mkCommitLoop pending (cl_activated_epoch l) (cl_active_epoch l) (cl_previous_epoch l)
          last_app_hash (cl_block_responses l ++ [response])).

Fixpoint commit_loop (l : CommitLoop) (blocks : list Block) : MW CommitLoop :=
  match blocks with
  | [] => mret l
  | block :: rest => l' ← commit_one l block; commit_loop l' rest
  end.

(** [try_commit]; [last_committed_height] is the field of the state. *)
Definition try_commit (dc : DoubleCertificate) (current_epoch : Epoch)
    (previous_epoch in_flight_pending : option Epoch) : MW CommitResult :=
  store ← get_store;
  s ← get_state;
  let last := cs_last_committed_height s in
  commit_block ← lift_res (ok_or (get_block store (qc_block_hash (dc_inner_qc dc))) CommitBlockNotFound);
  if b_height commit_block <=? last then
    mret (mkCommitResult [] (dc_inner_qc dc) None None GENESIS_HASH [])
  else
    to_commit ← lift_res (collect_chain (S (N.to_nat (b_height commit_block))) store last
                            commit_block []);
    let to_commit := reverse to_commit in
    l ← commit_loop (mkCommitLoop in_flight_pending None current_epoch previous_epoch
                       GENESIS_HASH []) to_commit;
    mret (mkCommitResult to_commit (dc_inner_qc dc) (cl_pending_epoch l) (cl_activated_epoch l)
            (cl_last_app_hash l) (cl_block_responses l)).

End Commit.

(** ** Evidence *)

Section Evidence.
Context `{Blake3, Verifier}.

(** One iteration of the signature loop of [validate_evidence]. *)
Definition evidence_signature_ok (chain_id_hash : bytes) (validator : ValidatorInfo)
    (proof : EquivocationProof) (hash : BlockHash) (signature : Signature)
    (extension : option bytes) : bool :=
  verify (vi_public_key validator)
    (vote_signing_bytes chain_id_hash (ep_epoch proof) (ep_view proof) (ep_validator proof)
       hash (ep_vote_type proof) extension) signature.

(** [set.get(id).or_else(|| previous.and_then(|e| e.validator_set.get(id)))] *)
Definition get_with_previous (vs : ValidatorSet) (previous : option Epoch) (id : ValidatorId)
    : option ValidatorInfo :=
  match get vs id with
  | Some v => Some v
  | None => e ← previous; get (e_validator_set e) id
  end.

Definition validate_evidence (proof : EquivocationProof) (block_view : ViewNumber)
    (epoch : Epoch) (previous_epoch : option Epoch) (chain_id_hash : bytes)
    : res evidence_error unit :=
  validator ← ok_or (get_with_previous (e_validator_set epoch) previous_epoch (ep_validator proof))
                EvUnknownValidator;
  if bool_decide (ep_block_hash_a proof = ep_block_hash_b proof)
     || (e_number epoch <? ep_epoch proof)
     || (block_view <? ep_view proof)
     || (bool_decide (ep_vote_type proof = TVote) &&
         (bool_decide (is_Some (ep_extension_a proof)) ||
          bool_decide (is_Some (ep_extension_b proof))))
  then Err EvInvalid
  else if negb (evidence_signature_ok chain_id_hash validator proof (ep_block_hash_a proof)
                  (ep_signature_a proof) (ep_extension_a proof)) then Err EvSignature
  else if negb (evidence_signature_ok chain_id_hash validator proof (ep_block_hash_b proof)
                  (ep_signature_b proof) (ep_extension_b proof)) then Err EvSignature
  else Ok ().

Fixpoint validate_all (proofs : list EquivocationProof) (block_view : ViewNumber)
    (epoch : Epoch) (previous_epoch : option Epoch) (chain_id_hash : bytes)
    : res evidence_error unit :=
  match proofs with
  | [] => Ok ()
  | p :: rest =>
      _ ← validate_evidence p block_view epoch previous_epoch chain_id_hash;
      validate_all rest block_view epoch previous_epoch chain_id_hash
  end.

Definition validate_block_evidence (block : Block) (epoch : Epoch) (previous_epoch : option Epoch)
    (chain_id_hash : bytes) : res evidence_error unit :=
  validate_all (b_evidence block) (b_view block) epoch previous_epoch chain_id_hash.
End Evidence.

(** ** Payload decoding *)

(** The length-prefixed encoding that [decode_payload] inverts. *)
Definition encode_txs (txs : list bytes) : bytes :=
  mjoin ((λ tx, u32_le (N.of_nat (length tx)) ++ tx) <$> txs).

Lemma encode_txs_cons tx txs :
  encode_txs (tx :: txs) = u32_le (N.of_nat (length tx)) ++ tx ++ encode_txs txs.
Proof. unfold encode_txs. rewrite fmap_cons. cbn [mjoin list_join]. by rewrite <- app_assoc. Qed.

Lemma decode_from_short fuel rest : (length rest < 4)%nat → decode_from fuel rest = [].
Proof.
  destruct fuel; [done|]. intros H. cbn [decode_from].
  destruct (Nat.leb_spec 4 (length rest)); [lia|done].
Qed.

Lemma decode_from_cons fuel tx rest :
  N.of_nat (length tx) ≤ u32_max →
  decode_from (S fuel) (u32_le (N.of_nat (length tx)) ++ tx ++ rest) = tx :: decode_from fuel rest.
Proof.
  intros Htx. cbn [decode_from].
  rewrite take_app_length', drop_app_length', le_u32_u32_le by (rewrite ?length_u32_le; done).
  rewrite !length_app, length_u32_le, Nat2N.id.
  destruct (Nat.leb_spec 4 (4 + (length tx + length rest))); [|lia].
  destruct (Nat.ltb_spec (length tx + length rest) (length tx)); [lia|].
  by rewrite take_app_length, drop_app_length.
Qed.

Lemma decode_from_encode fuel txs tail :
  Forall (λ tx, N.of_nat (length tx) ≤ u32_max) txs → (length tail < 4)%nat →
  (length txs ≤ fuel)%nat → decode_from fuel (encode_txs txs ++ tail) = txs.
Proof.
  intros Htxs Htail. revert fuel. induction Htxs as [|tx txs Htx Htxs IH]; intros fuel Hf.
  { by apply decode_from_short. }
  destruct fuel as [|fuel]; [simpl in Hf; lia|]. rewrite encode_txs_cons, <- !app_assoc, decode_from_cons by done. f_equal. apply IH. simpl in Hf. lia.
Qed.

Lemma length_encode_txs txs : (length txs ≤ length (encode_txs txs))%nat.
Proof.
  induction txs as [|tx txs IH]; [done|]. rewrite encode_txs_cons, !length_app, length_u32_le.
  simpl. lia.
Qed.

(** What was decoded is a prefix of the payload, encoded. *)
Lemma decode_from_prefix fuel payload :
  ∃ tail, payload = encode_txs (decode_from fuel payload) ++ tail.
Proof.
  revert payload. induction fuel as [|fuel IH]; intros payload; [by exists payload|].
  cbn [decode_from]. destruct (Nat.leb_spec 4 (length payload)); [|by exists payload].
  set (len := N.to_nat (le_u32 (take 4 payload))).
  destruct (Nat.ltb_spec (length (drop 4 payload)) len); [by exists payload|].
  destruct (IH (drop len (drop 4 payload))) as [tail Ht]. exists tail.
  rewrite encode_txs_cons, <- !app_assoc, <- Ht.
  assert (length (take 4 payload) = 4%nat) as Hl4 by (rewrite length_take; lia).
  assert (u32_le (N.of_nat (length (take len (drop 4 payload)))) = take 4 payload) as ->.
  { rewrite length_take, Nat.min_l by lia. unfold len. rewrite N2Nat.id.
    by apply u32_le_le_u32. }
  by rewrite take_drop, take_drop.
Qed.

Lemma decode_from_length_bound fuel payload :
  Forall (λ tx, N.of_nat (length tx) ≤ u32_max) (decode_from fuel payload).
Proof.
  revert payload. induction fuel as [|fuel IH]; intros payload; cbn [decode_from]; [constructor|].
  destruct (Nat.leb_spec 4 (length payload)); [|constructor].
  destruct (Nat.ltb_spec (length (drop 4 payload)) (N.to_nat (le_u32 (take 4 payload)))); constructor;
    [|apply IH].
  rewrite length_take. pose proof (le_u32_bound (take 4 payload)) as Hb.
  rewrite length_take in Hb. specialize (Hb ltac:(lia)). lia.
Qed.

(** ** The chain walk *)

Section Chain.
Context {St : Type} `{!BlockStore St}.
Implicit Types (store : St) (last : Height).

(** A descending chain of blocks, each the child of the next, the last a child
    of the block indexed at the last committed height. *)
Inductive desc_chain store last : list Block → Prop :=
| desc_last b parent committed :
    get_block store (b_parent_hash b) = Some parent → b_height parent = last →
    b_height b = last + 1 → get_block_by_height store last = Some committed →
    b_hash parent = b_hash committed → desc_chain store last [b]
| desc_cons b parent rest :
    get_block store (b_parent_hash b) = Some parent → b_height b = b_height parent + 1 →
    last < b_height parent → desc_chain store last (parent :: rest) →
    desc_chain store last (b :: parent :: rest).

Lemma collect_chain_Ok fuel store last current acc l :
  collect_chain fuel store last current acc = Ok l →
  ∃ rest, l = acc ++ current :: rest ∧ desc_chain store last (current :: rest).
Proof.
  revert current acc. induction fuel as [|fuel IH]; intros current acc Hc; simpl in Hc; [done|].
  res_inv. unfold checked_sub in *. destruct (N.leb_spec 1 (b_height current)); simplify_eq.
  destruct (N.eqb_spec (b_height x0) (b_height current - 1)) as [Eh|]; simpl in Hc; [|done].
  destruct (N.eqb_spec (b_height x0) last) as [El|El].
  - res_inv. case_bool_decide as Hx; simpl in Hc; [|done]. res_inv.
    exists []. split; [done|]. eapply desc_last; eauto. lia.
  - destruct (N.ltb_spec (b_height x0) last); [done|].
    apply IH in Hc as (rest&->&Hd). exists (x0 :: rest). rewrite <- app_assoc. split; [done|].
    apply desc_cons; try done; lia.
Qed.

(** The walk stops within the block's height, so the fuel of [try_commit] is
    enough, and its errors are the chain's. *)
Definition chain_error (e : commit_error) : bool :=
  match e with
  | CommitBlockNotFound | InvalidUpdates _ _ | ChainFuel => false
  | _ => true
  end.

Lemma collect_chain_outcome fuel store last current acc :
  (N.to_nat (b_height current) < fuel)%nat →
  match collect_chain fuel store last current acc with
  | Ok _ => True
  | Err e => chain_error e = true
  | Panic => False
  end.
Proof.
  revert current acc. induction fuel as [|fuel IH]; intros current acc Hf; [lia|]. simpl.
  unfold checked_sub. destruct (N.leb_spec 1 (b_height current)); simpl; [|done].
  destruct (get_block store (b_parent_hash current)) as [parent|]; simpl; [|done].
  destruct (N.eqb_spec (b_height parent) (b_height current - 1)); simpl; [|done].
  destruct (N.eqb_spec (b_height parent) last).
  { destruct (get_block_by_height store last); simpl; [|done]. by case_bool_decide. }
  destruct (N.ltb_spec (b_height parent) last); [done|]. apply IH. lia.
Qed.

(** In ascending order the heights are consecutive from the last committed
    height on, and each block's parent is the one before it. *)
Record asc_chain store last (l : list Block) : Prop := {
  ac_heights : b_height <$> l = seqN (last + 1) (N.of_nat (length l));
  ac_first : ∀ b, head l = Some b →
    ∃ parent committed, get_block store (b_parent_hash b) = Some parent ∧ b_height parent = last ∧
      get_block_by_height store last = Some committed ∧ b_hash parent = b_hash committed;
  ac_links : ∀ i a b, l !! i = Some a → l !! S i = Some b →
    get_block store (b_parent_hash b) = Some a;
}.

Lemma desc_asc store last l : desc_chain store last l → asc_chain store last (reverse l).
Proof.
  induction 1 as [b parent committed Hp Hh Hb Hc He|b parent rest Hp Hb Hlt Hd IH].
  - rewrite reverse_singleton. split.
    + simpl. unfold seqN. simpl. rewrite Hb. f_equal. lia.
    + intros b' [= <-]. by exists parent, committed.
    + intros [|i] a b'; simpl; done.
  - rewrite reverse_cons. destruct IH as [IHh IHf IHl].
    set (l := reverse (parent :: rest)) in *.
    assert (last_error : ∃ l0, l = l0 ++ [parent]) by (exists (reverse rest); apply reverse_cons).
    destruct last_error as [l0 El].
    assert (b_height b = last + 1 + N.of_nat (length l)) as Hbh.
    { rewrite Hb. assert ((b_height <$> l) !! length l0 = Some (b_height parent)) as Hl.
      { rewrite El, fmap_app. rewrite lookup_app_r by (rewrite length_fmap; lia).
        rewrite length_fmap, Nat.sub_diag. done. }
      rewrite IHh in Hl. unfold seqN in Hl. rewrite list_lookup_fmap in Hl.
      apply fmap_Some in Hl as (k&[Hk _]%lookup_seq&->).
      rewrite El, length_app. simpl. lia. }
    split.
    + rewrite fmap_app, IHh, length_app. csimpl.
      rewrite Nat2N.inj_add, seqN_app. f_equal. unfold seqN. simpl. f_equal. lia.
    + intros b' Hb'. apply IHf. by rewrite El in Hb' |- *; destruct l0.
    + intros i x y Hx Hy. destruct (decide (S i = length l)) as [Ei|Ei].
      * rewrite lookup_app_r in Hy by lia. replace (S i - length l)%nat with 0%nat in Hy by lia.
        injection Hy as <-. rewrite lookup_app_l in Hx by lia.
        rewrite El, length_app in Ei. simpl in Ei. rewrite El in Hx.
        rewrite lookup_app_r in Hx by lia. replace (i - length l0)%nat with 0%nat in Hx by lia.
        by injection Hx as <-.
      * pose proof (lookup_lt_Some _ _ _ Hy) as Hlt'. rewrite length_app in Hlt'. simpl in Hlt'.
        rewrite lookup_app_l in Hx, Hy by lia. eauto.
Qed.
Lemma asc_chain_app_inv store last l b :
  asc_chain store last (l ++ [b]) →
  asc_chain store last l ∧ b_height b = last + 1 + N.of_nat (length l).
Proof.
  intros [Hh Hf Hl]. rewrite fmap_app, length_app, Nat2N.inj_add, seqN_app in Hh.
  apply app_inj_1 in Hh as [Hh Hb]; [|by rewrite length_fmap, length_seqN, Nat2N.id]. split.
  - split; [done| |].
    + intros b' Hb'. apply Hf. by destruct l.
    + intros i x y Hx Hy. eapply Hl; by apply lookup_app_l_Some.
  - unfold seqN in Hb. simpl in Hb. injection Hb as Hb. lia.
Qed.

(** The walk finds every such chain. *)
Lemma collect_chain_complete fuel store last l b acc :
  asc_chain store last (l ++ [b]) → (N.to_nat (b_height b) < fuel)%nat →
  ∃ r, collect_chain fuel store last b acc = Ok r.
Proof.
  revert b acc fuel. induction l as [|p l IH] using rev_ind; intros b acc [|fuel] Hc Hfuel; try lia.
  - destruct (asc_chain_app_inv _ _ _ _ Hc) as [_ Hb]. simpl in Hb.
    destruct (ac_first _ _ _ Hc b eq_refl) as (parent&committed&Hp&Hph&Hq&Heq). simpl.
    unfold checked_sub. destruct (N.leb_spec 1 (b_height b)); [|lia]. simpl. rewrite Hp. simpl.
    destruct (N.eqb_spec (b_height parent) (b_height b - 1)); [|lia]. simpl.
    rewrite Hph, N.eqb_refl, Hq. simpl. rewrite bool_decide_true by done. by eexists.
  - destruct (asc_chain_app_inv _ _ _ _ Hc) as [Hc' Hb]. rewrite length_app in Hb. simpl in Hb.
    destruct (asc_chain_app_inv _ _ _ _ Hc') as [_ Hp].
    assert (get_block store (b_parent_hash b) = Some p) as Hget.
    { apply (ac_links _ _ _ Hc (length l)).
      - rewrite <- app_assoc. by apply list_lookup_middle.
      - rewrite lookup_app_r by (rewrite length_app; simpl; lia). rewrite length_app. simpl.
        by replace (S (length l) - (length l + 1))%nat with 0%nat by lia. }
    simpl. unfold checked_sub. destruct (N.leb_spec 1 (b_height b)); [|lia]. simpl. rewrite Hget. simpl.
    destruct (N.eqb_spec (b_height p) (b_height b - 1)); [|lia]. simpl.
    destruct (N.eqb_spec (b_height p) last); [lia|]. destruct (N.ltb_spec (b_height p) last); [lia|].
    apply IH; [done|lia].
Qed.
End Chain.

(** ** Execution *)

(** The application calls for one block, most recent first. *)
Definition block_effects (b : Block) : list Effect :=
  EAppCommit b :: EAppExecute b :: reverse (EAppEvidence <$> b_evidence b).

(** The calls for a list of blocks executed in order, most recent first. *)
Definition blocks_effects (l : list Block) : list Effect :=
  foldl (λ es b, block_effects b ++ es) [] l.

Lemma foldl_effects l es : foldl (λ es b, block_effects b ++ es) es l = blocks_effects l ++ es.
Proof.
  unfold blocks_effects. revert es. induction l as [|b l IH]; intros es; [done|]. cbn [foldl].
  rewrite IH, (IH (block_effects b ++ [])), <- !app_assoc. done.
Qed.

Lemma blocks_effects_cons b l : blocks_effects (b :: l) = blocks_effects l ++ block_effects b.
Proof. unfold blocks_effects. cbn [foldl]. rewrite foldl_effects. by rewrite app_nil_r. Qed.

(** *** What a commit does to the epochs *)

(** The epoch in use, the one before it, the one scheduled, and the last one that
    a block of the run started. *)
Record Epochs : Type := mkEpochs {
  ec_active : Epoch;
  ec_previous : option Epoch;
  ec_pending : option Epoch;
  ec_activated : option Epoch;
}.

(** A block starts the scheduled epoch when its view has reached the epoch's
    start view. *)
Inductive starts (view : ViewNumber) : Epochs → Epochs → Prop :=
| starts_now active previous p activated :
    e_start_view p ≤ view →
    starts view (mkEpochs active previous (Some p) activated) (mkEpochs p (Some active) None (Some p))
| starts_not es :
    (∀ p, ec_pending es = Some p → view < e_start_view p) → starts view es es.

(** A block is executed under the epoch in use, or under the one before it when
    its view is older than the epoch in use. *)
Definition in_force (view : ViewNumber) (es : Epochs) (e : Epoch) : Prop :=
  (e_start_view (ec_active es) ≤ view ∧ e = ec_active es) ∨
  (view < e_start_view (ec_active es) ∧ e = default (ec_active es) (ec_previous es)).

(** The epoch that validator updates are applied to. *)
Definition base_epoch (es : Epochs) : Epoch := default (ec_active es) (ec_pending es).

(** Updates of a block schedule the successor of that epoch, two views after
    the block. *)
Inductive schedules (view : ViewNumber) (updates : list ValidatorUpdate) : Epochs → Epochs → Prop :=
| schedules_none es : updates = [] → schedules view updates es es
| schedules_next es ep :
    updates ≠ [] →
    e_number ep = e_number (base_epoch es) + 1 → e_number ep ≤ u64_max →
    e_start_view ep = (view + 2) mod 2 ^ 64 →
    try_apply_updates (e_validator_set (base_epoch es)) updates = Ok (e_validator_set ep) →
    schedules view updates es
      (mkEpochs (ec_active es) (ec_previous es) (Some ep) (ec_activated es)).

Definition epochs_of (l : CommitLoop) : Epochs :=
  mkEpochs (cl_active_epoch l) (cl_previous_epoch l) (cl_pending_epoch l) (cl_activated_epoch l).

Lemma activate_pending_starts l v : starts v (epochs_of l) (epochs_of (activate_pending l v)).
Proof.
  unfold activate_pending, epochs_of. destruct (cl_pending_epoch l) as [p|] eqn:Hp.
  - destruct (N.leb_spec (e_start_view p) v); simpl; [by constructor|].
    rewrite Hp. apply starts_not. simpl. by intros p' [= <-].
  - rewrite Hp. by apply starts_not.
Qed.

Lemma activate_pending_responses l v :
  cl_block_responses (activate_pending l v) = cl_block_responses l.
Proof. unfold activate_pending. by repeat case_match. Qed.

Lemma context_epoch_in_force l v : in_force v (epochs_of l) (context_epoch l v).
Proof.
  unfold in_force, context_epoch. simpl. destruct (N.ltb_spec v (e_start_view (cl_active_epoch l))); auto.
Qed.

Lemma chained_pending_epoch_spec {E} es v us (err : vs_error → E) :
  match chained_pending_epoch (ec_active es) (ec_pending es) v us err with
  | Ok ep =>
      e_number ep = e_number (base_epoch es) + 1 ∧ e_number ep ≤ u64_max ∧
      e_start_view ep = (v + 2) mod 2 ^ 64 ∧
      try_apply_updates (e_validator_set (base_epoch es)) us = Ok (e_validator_set ep)
  | Err e => ∃ x, e = err x ∧ try_apply_updates (e_validator_set (base_epoch es)) us = Err x
  | Panic =>
      u64_max < e_number (base_epoch es) + 1 ∧
      ∃ vs, try_apply_updates (e_validator_set (base_epoch es)) us = Ok vs
  end.
Proof.
  unfold chained_pending_epoch, base_epoch. simpl.
  assert (∀ n vs, try_apply_updates vs us ≠ Panic ∧
    match (checked_add64 n 1 : option N) with
    | Some m => m = n + 1 ∧ m ≤ u64_max | None => u64_max < n + 1 end) as Hn.
  { intros n vs. split; [apply try_new_total|]. destruct (checked_add64 n 1) eqn:Ea.
    - apply checked_add64_Some in Ea. naive_solver.
    - by apply checked_add64_None in Ea. }
  destruct (ec_pending es) as [p|]; simpl; unfold EpochNumber_next, expect;
    match goal with |- context [checked_add64 ?n 1] =>
      match goal with |- context [try_apply_updates ?vs us] =>
        destruct (Hn n vs) as [Hnp Hadd]; destruct (try_apply_updates vs us) as [vs'|x|]; simpl; [|by eauto|done] end end;
    destruct (checked_add64 _ 1); simpl; naive_solver.
Qed.

Section Execution.
Context {St App : Type} `{!BlockStore St} `{!Application App}.
Implicit Types w : World St App.

(** Same state and store; the trace grew by [es]. *)
Definition ran w w' (es : list Effect) : Prop :=
  w_state w' = w_state w ∧ w_store w' = w_store w ∧ w_ticks w' = w_ticks w ∧
  w_trace w' = es ++ w_trace w.

(** *** The calls on the application *)

(** The application took the proofs one after the other. *)
Inductive evidence_taken : App → list EquivocationProof → App → Prop :=
| taken_nil a : evidence_taken a [] a
| taken_cons a p a1 l a2 :
    app_on_evidence a p = (true, a1) → evidence_taken a1 l a2 → evidence_taken a (p :: l) a2.

(** The application took the block's evidence, executed its transactions and
    took the commit notification. *)
Definition answered (b : Block) (ctx : BlockContext) (a : App) (resp : EndBlockResponse) (a' : App) : Prop :=
  ∃ a1 a2, evidence_taken a (b_evidence b) a1 ∧
    app_execute_block a1 (decode_payload (b_payload b)) ctx = (Some resp, a2) ∧
    app_on_commit a2 b ctx = (true, a').

(** It failed one of these calls, after having taken the ones before. *)
Inductive refused (b : Block) (ctx : BlockContext) (a : App) : Prop :=
| refused_evidence taken p rest a1 :
    b_evidence b = taken ++ p :: rest → evidence_taken a taken a1 →
    (app_on_evidence a1 p).1 = false → refused b ctx a
| refused_execution a1 :
    evidence_taken a (b_evidence b) a1 →
    (app_execute_block a1 (decode_payload (b_payload b)) ctx).1 = None → refused b ctx a
| refused_commit a1 resp a2 :
    evidence_taken a (b_evidence b) a1 →
    app_execute_block a1 (decode_payload (b_payload b)) ctx = (Some resp, a2) →
    (app_on_commit a2 b ctx).1 = false → refused b ctx a.

(** The run panics: the application fails a call, or it asks for updates and the
    epoch numbers are exhausted. *)
Definition fatal (b : Block) (ctx : BlockContext) (es : Epochs) (a : App) : Prop :=
  refused b ctx a ∨
  ∃ resp a', answered b ctx a resp a' ∧ ebr_validator_updates resp ≠ [] ∧
    u64_max < e_number (base_epoch es) + 1.

(** The context of a block under an epoch. *)
Record context_of (b : Block) (e : Epoch) (ctx : BlockContext) : Prop := {
  co_height : bc_height ctx = b_height b;
  co_view : bc_view ctx = b_view b;
  co_proposer : bc_proposer ctx = b_proposer b;
  co_epoch : bc_epoch ctx = e_number e;
  co_epoch_start_view : bc_epoch_start_view ctx = e_start_view e;
  co_validator_set : bc_validator_set ctx = e_validator_set e;
  co_timestamp : bc_timestamp ctx = b_timestamp b;
  co_vote_extensions : bc_vote_extensions ctx = [];
}.

(** Before a block runs: the epochs after it may have started the scheduled
    one, and the context it runs in. *)
Definition prepared (b : Block) (es es' : Epochs) (ctx : BlockContext) : Prop :=
  starts (b_view b) es es' ∧ ∃ e, in_force (b_view b) es' e ∧ context_of b e ctx.

(** The blocks ran in order, each in its context, each scheduling what its
    response asks for. *)
Inductive committed : Epochs → App → list Block → Epochs → App → list EndBlockResponse → Prop :=
| committed_nil es a : committed es a [] es a []
| committed_cons es a b es1 ctx resp a1 es2 bs es' a' resps :
    prepared b es es1 ctx → answered b ctx a resp a1 →
    schedules (b_view b) (ebr_validator_updates resp) es1 es2 →
    committed es2 a1 bs es' a' resps → committed es a (b :: bs) es' a' (resp :: resps).

(** The run reached [b]: the blocks before it are committed and it is about to
    be given to the application [a1] in [ctx]. *)
Definition reached (es : Epochs) (a : App) (blocks bs : list Block) (b : Block)
    (es2 : Epochs) (ctx : BlockContext) (a1 : App) : Prop :=
  ∃ rest es1 resps, blocks = bs ++ b :: rest ∧ committed es a bs es1 a1 resps ∧ prepared b es1 es2 ctx.

(** The application hash after the last block. *)
Definition run_app_hash (a : App) (blocks : list Block) (resps : list EndBlockResponse) : option BlockHash :=
  b ← last blocks; resp ← last resps;
  Some (if app_tracks_app_hash a then ebr_app_hash resp else b_app_hash b).

Lemma evidence_loop_calls l w :
  wp (for_each l (λ proof,
        emit (EAppEvidence proof) ;;
        ok ← call_app (λ a, app_on_evidence a proof);
        if ok : bool then mret () else panic))
    (λ w' (r : res commit_error unit),
       match r with
       | Ok _ => ran w w' (reverse (EAppEvidence <$> l)) ∧ evidence_taken (w_app w) l (w_app w')
       | Err _ => False
       | Panic => w_store w' = w_store w ∧
           ∃ taken p rest a1, l = taken ++ p :: rest ∧ evidence_taken (w_app w) taken a1 ∧
             (app_on_evidence a1 p).1 = false
       end) w.
Proof.
  revert w. induction l as [|p l IH]; intros w; cbn [for_each]; wp_steps.
  { by split; [split_and!|constructor]. }
  simpl in *. destruct a; wp_steps.
  2: { split; [done|]. exists [], p, l, (w_app w). split; [done|]. split; [constructor|].
       by match goal with H : app_on_evidence _ _ = _ |- _ => rewrite H end. }
  eapply wp_mono; [apply IH|]. intros w' [[]|e|]; try done.
  - intros [(Hs&Hst&Ht&Htr) Hev]. split; [|by econstructor]. split_and!; try done. rewrite Htr. csimpl.
    by rewrite reverse_cons, <- app_assoc.
  - intros [Hst (taken&q&rest&a1&->&Htk&Hq)]. split; [done|]. exists (p :: taken), q, rest, a1.
    split; [done|]. split; [by econstructor|done].
Qed.

Lemma evidence_loop_spec l w :
  wp (for_each l (λ proof,
        emit (EAppEvidence proof) ;;
        ok ← call_app (λ a, app_on_evidence a proof);
        if ok : bool then mret () else panic))
    (λ w' (r : res commit_error unit),
       match r with
       | Ok _ => ran w w' (reverse (EAppEvidence <$> l))
       | Err _ => False
       | Panic => w_store w' = w_store w
       end) w.
Proof. eapply wp_mono; [apply evidence_loop_calls|]. intros w' [[]|e|]; naive_solver. Qed.

Lemma execute_committed_block_calls b ctx w :
  wp (execute_committed_block b ctx)
    (λ w' r, match r with
             | Ok resp => ran w w' (block_effects b) ∧ answered b ctx (w_app w) resp (w_app w')
             | Err _ => False
             | Panic => w_store w' = w_store w ∧ refused b ctx (w_app w)
             end) w.
Proof.
  unfold execute_committed_block. wp_steps.
  eapply wp_mono; [apply evidence_loop_calls|]. intros w1 [[]|e|]; [|done|].
  2: { intros [Hst (taken&p&rest&a1&Hl&Htk&Hp)]. split; [done|]. by econstructor. }
  intros [(Hs&Hst&Ht&Htr) Hev]. wp_steps. simpl in *. destruct a as [resp|]; wp_steps.
  2: { split; [done|]. eapply refused_execution; [done|].
       by match goal with H : app_execute_block _ _ _ = _ |- _ => rewrite H end. }
  simpl in *. destruct a; wp_steps; simpl.
  - unfold ran, block_effects. simpl. rewrite Htr. split; [done|]. by do 2 eexists.
  - split; [done|]. eapply refused_commit; [done..|].
    by match goal with H : app_on_commit _ _ _ = _ |- _ => rewrite H end.
Qed.

Lemma execute_committed_block_spec b ctx w :
  wp (execute_committed_block b ctx)
    (λ w' r, match r with
             | Ok _ => ran w w' (block_effects b)
             | Err _ => False
             | Panic => w_store w' = w_store w
             end) w.
Proof. eapply wp_mono; [apply execute_committed_block_calls|]. intros w' [?|e|]; naive_solver. Qed.

Lemma commit_one_spec l b w :
  wp (commit_one l b)
    (λ w' r, w_store w' = w_store w ∧
       ∃ es ctx, prepared b (epochs_of l) es ctx ∧
       match r with
       | Ok l' =>
           w_state w' = set_last_committed_height (w_state w) (b_height b) ∧
           w_trace w' = block_effects b ++ w_trace w ∧
           ∃ resp, answered b ctx (w_app w) resp (w_app w') ∧
             schedules (b_view b) (ebr_validator_updates resp) es (epochs_of l') ∧
             cl_block_responses l' = cl_block_responses l ++ [resp] ∧
             cl_last_app_hash l' =
               (if app_tracks_app_hash (w_app w') then ebr_app_hash resp else b_app_hash b)
       | Err e =>
           ran w w' (block_effects b) ∧
           ∃ resp x, e = InvalidUpdates (b_height b) x ∧ answered b ctx (w_app w) resp (w_app w') ∧
             ebr_validator_updates resp ≠ [] ∧
             try_apply_updates (e_validator_set (base_epoch es)) (ebr_validator_updates resp) = Err x
       | Panic =>
           fatal b ctx es (w_app w)
       end) w.
Proof.
  unfold commit_one. wp_steps. set (l1 := activate_pending l (b_view b)).
  set (ctx := commit_context b (context_epoch l1 (b_view b))).
  assert (prepared b (epochs_of l) (epochs_of l1) ctx) as Hprep.
  { split; [apply activate_pending_starts|]. exists (context_epoch l1 (b_view b)).
    split; [apply context_epoch_in_force|by split]. }
  eapply wp_mono; [apply execute_committed_block_calls|].
  intros w1 [resp|e|]; [|done|].
  2: { intros [Hst Hr]. split; [done|]. eexists _, ctx. split; [done|]. by left. }
  intros [(Hs&Hst&Ht&Htr) Hans]. wp_steps.
  assert (cl_block_responses l1 = cl_block_responses l) as Hresp by apply activate_pending_responses.
  case_bool_decide as Hu; wp_steps.
  - split; [done|]. eexists _, ctx. split; [done|]. rewrite Hs. split_and!; [done..|].
    exists resp. simpl. rewrite Hresp. split_and!; try done. by constructor.
  - pose proof (chained_pending_epoch_spec (epochs_of l1) (b_view b) (ebr_validator_updates resp)
      (InvalidUpdates (b_height b))) as Hc.
    destruct (chained_pending_epoch _ _ _ _ _) as [ep|e|]; wp_steps; (split; [done|]);
      eexists _, ctx; (split; [done|]).
    + destruct Hc as (Hn&Hmax&Hv&Hset). rewrite Hs. split_and!; [done..|].
      exists resp. simpl. rewrite Hresp. split_and!; try done. by apply schedules_next.
    + destruct Hc as (x&->&Hx). split; [by split_and!|]. by exists resp, x.
    + right. exists resp, (w_app w1). by destruct Hc.
Qed.

Lemma last_cons_state (b : Block) blocks (s : ConsensusState) :
  match last blocks with
  | Some c => set_last_committed_height (set_last_committed_height s (b_height b)) (b_height c)
  | None => set_last_committed_height s (b_height b)
  end = match last (b :: blocks) with
        | Some c => set_last_committed_height s (b_height c)
        | None => s
        end.
Proof.
  destruct blocks as [|c blocks]; [done|]. rewrite last_cons_cons.
  destruct (last (c :: blocks)) eqn:El; [done|]. by apply last_None in El.
Qed.

Lemma committed_length es a bs es' a' resps : committed es a bs es' a' resps → length bs = length resps.
Proof. induction 1; simpl; congruence. Qed.

Lemma reached_cons es a b es1 ctx resp a1 es2 blocks bs c es3 ctx' a2 :
  prepared b es es1 ctx → answered b ctx a resp a1 →
  schedules (b_view b) (ebr_validator_updates resp) es1 es2 →
  reached es2 a1 blocks bs c es3 ctx' a2 → reached es a (b :: blocks) (b :: bs) c es3 ctx' a2.
Proof.
  intros Hp Ha Hs (rest&es0&resps&->&Hc&Hp'). exists rest, es0, (resp :: resps). split; [done|].
  split; [by econstructor|done].
Qed.

(** The loop as a fold: every block up to and including a failing one is
    executed, and the committed height is that of the last block that
    completed its iteration. *)
Lemma commit_loop_spec l blocks w :
  wp (commit_loop l blocks)
    (λ w' r, w_store w' = w_store w ∧
       match r with
       | Ok l' =>
           w_trace w' = blocks_effects blocks ++ w_trace w ∧
           w_state w' = match last blocks with
                        | Some b => set_last_committed_height (w_state w) (b_height b)
                        | None => w_state w
                        end ∧
           ∃ resps, committed (epochs_of l) (w_app w) blocks (epochs_of l') (w_app w') resps ∧
             cl_block_responses l' = cl_block_responses l ++ resps ∧
             cl_last_app_hash l' = default (cl_last_app_hash l) (run_app_hash (w_app w') blocks resps)
       | Err e =>
           ∃ done b es ctx a resp x,
             reached (epochs_of l) (w_app w) blocks done b es ctx a ∧
             e = InvalidUpdates (b_height b) x ∧ answered b ctx a resp (w_app w') ∧
             ebr_validator_updates resp ≠ [] ∧
             try_apply_updates (e_validator_set (base_epoch es)) (ebr_validator_updates resp) = Err x ∧
             w_trace w' = blocks_effects (done ++ [b]) ++ w_trace w ∧
             w_state w' = match last done with
                          | Some b => set_last_committed_height (w_state w) (b_height b)
                          | None => w_state w
                          end
       | Panic =>
           ∃ done b es ctx a,
             reached (epochs_of l) (w_app w) blocks done b es ctx a ∧ fatal b ctx es a
       end) w.
Proof.
  revert l w. induction blocks as [|b blocks IH]; intros l w; cbn [commit_loop]; wp_steps.
  { split; [done|]. split; [done|]. split; [done|]. exists []. rewrite app_nil_r. split; [constructor|done]. }
  eapply wp_mono; [apply commit_one_spec|]. intros w1 r (Hst&es&ctx&Hprep&Hr).
  assert (reached (epochs_of l) (w_app w) (b :: blocks) [] b es ctx (w_app w)) as Hhere
    by (exists blocks, (epochs_of l), []; split; [done|]; split; [constructor|done]).
  destruct r as [l'|e|]; wp_steps.
  - destruct Hr as (Hs&Htr&resp&Hans&Hsch&Hrs&Hh).
    eapply wp_mono; [apply IH|]. cbv beta. intros w2 r [Hst2 Hr].
    split; [congruence|]. destruct r as [l2|e|].
    + destruct Hr as (Htr2&Hs2&resps&Hcom&Hrs2&Hh2).
      rewrite blocks_effects_cons, <- app_assoc, <- Htr. split; [done|].
      rewrite Hs2, Hs, last_cons_state. split; [done|]. exists (resp :: resps).
      split; [by econstructor|]. split; [by rewrite Hrs2, Hrs, <- app_assoc|].
      rewrite Hh2, Hh. destruct blocks as [|c blocks].
      * by inversion Hcom.
      * destruct resps as [|r resps]; [by apply committed_length in Hcom|]. unfold run_app_hash. rewrite !last_cons_cons.
        destruct (last (c :: blocks)) eqn:El; [|by apply last_None in El].
        destruct (last (r :: resps)) eqn:Er; [done|by apply last_None in Er].
    + destruct Hr as (dn&c&es'&ctx'&a&resp'&x&Hre&->&Hans'&Hu&Hx&Htr2&Hs2).
      exists (b :: dn), c, es', ctx', a, resp', x. split; [by eapply reached_cons|].
      do 4 (split; [done|]). rewrite <- app_comm_cons, blocks_effects_cons, <- app_assoc, <- Htr. split; [done|].
      by rewrite Hs2, Hs, last_cons_state.
    + destruct Hr as (dn&c&es'&ctx'&a&Hre&Hwhy). exists (b :: dn), c, es', ctx', a.
      split; [by eapply reached_cons|done].
  - destruct Hr as [(Hs&_&Ht&Htr) (resp&x&->&Hans&Hu&Hx)]. split; [done|].
    exists [], b, es, ctx, (w_app w), resp, x. do 5 (split; [done|]). split; [|done].
    unfold blocks_effects. simpl. rewrite Htr. by rewrite app_nil_r.
  - split; [done|]. by exists [], b, es, ctx, (w_app w).
Qed.
End Execution.

Section TryCommit.
Context {St App : Type} `{!BlockStore St} `{!Application App}.
Implicit Types w : World St App.

(** [try_commit] on every outcome. *)
Lemma try_commit_spec dc cur prev pend w :
  let last_h := cs_last_committed_height (w_state w) in
  let cb := get_block (w_store w) (qc_block_hash (dc_inner_qc dc)) in
  let run := λ chain, asc_chain (w_store w) last_h chain ∧ last chain = cb in
  let es := mkEpochs cur prev pend None in
  wp (try_commit dc cur prev pend)
    (λ w' r,
     w_store w' = w_store w ∧
       match r with
       | Ok cr =>
           cr_commit_qc cr = dc_inner_qc dc ∧
           ∃ b, cb = Some b ∧
             ((b_height b ≤ last_h ∧ w' = w ∧
               cr = mkCommitResult [] (dc_inner_qc dc) None None GENESIS_HASH []) ∨
              (last_h < b_height b ∧ run (cr_committed_blocks cr) ∧
               w_state w' = set_last_committed_height (w_state w) (b_height b) ∧
               w_trace w' = blocks_effects (cr_committed_blocks cr) ++ w_trace w ∧
               ∃ es', committed es (w_app w) (cr_committed_blocks cr) es' (w_app w') (cr_block_responses cr) ∧
                 cr_pending_epoch cr = ec_pending es' ∧ cr_activated_epoch cr = ec_activated es' ∧
                 Some (cr_last_app_hash cr) =
                   run_app_hash (w_app w') (cr_committed_blocks cr) (cr_block_responses cr)))
       | Err (InvalidUpdates h x) =>
           ∃ chain done b es' ctx a resp, run chain ∧ b_height b = h ∧
             reached es (w_app w) chain done b es' ctx a ∧ answered b ctx a resp (w_app w') ∧
             ebr_validator_updates resp ≠ [] ∧
             try_apply_updates (e_validator_set (base_epoch es')) (ebr_validator_updates resp) = Err x ∧
             w_trace w' = blocks_effects (done ++ [b]) ++ w_trace w ∧
             w_state w' = match last done with
                          | Some c => set_last_committed_height (w_state w) (b_height c)
                          | None => w_state w
                          end
       | Err ChainFuel => False
       | Err CommitBlockNotFound => w' = w ∧ cb = None
       | Err _ => w' = w ∧ ∃ b, cb = Some b ∧ last_h < b_height b ∧ ∀ chain, ¬ run chain
       | Panic =>
           ∃ chain done b es' ctx a, run chain ∧ reached es (w_app w) chain done b es' ctx a ∧
             fatal b ctx es' a
       end) w.
Proof.
  intros last_h cb run es. unfold try_commit. wp_steps. fold last_h. fold cb.
  destruct cb as [b|] eqn:Hcb; cbn [ok_or]; [|done].
  destruct (N.leb_spec (b_height b) last_h); wp_steps.
  { split; [done|]. split; [done|]. exists b. split; [done|]. by left. }
  set (fuel := S (N.to_nat (b_height b))).
  assert (∀ chain, run chain → ∃ l, collect_chain fuel (w_store w) last_h b [] = Ok l) as Hcomplete.
  { intros chain [Hc Hl]. destruct chain as [|c chain _] using rev_ind; [done|].
    rewrite last_snoc in Hl. simplify_eq. eapply collect_chain_complete; [done|lia]. }
  pose proof (collect_chain_outcome fuel (w_store w) last_h b [] ltac:(lia)) as Hout.
  destruct (collect_chain _ (w_store w) last_h b []) as [l|e|] eqn:Hc; cbv beta iota; [| |done].
  2: { assert (∀ chain, ¬ run chain) as Hno by (intros chain [l Hl]%Hcomplete; done).
       split; [done|]. destruct e; try done; (split; [done|by exists b]). }
  apply collect_chain_Ok in Hc as (rest&->&Hd). wp_steps.
  assert (run (reverse (b :: rest))) as Hchain
    by (split; [by apply desc_asc|]; rewrite reverse_cons, last_snoc; done).
  eapply wp_mono; [apply commit_loop_spec|].
  cbv beta. intros w1 r [Hst Hr]. destruct r as [l'|e|]; wp_steps; (split; [done|]).
  - destruct Hr as (Htr&Hs&resps&Hcom&Hresps&Hh). simpl in *. split; [done|]. exists b. split; [done|]. right.
    destruct Hchain as [Hasc Hlast]. rewrite Hlast in Hs. split_and!; try done.
    exists (epochs_of l'). rewrite Hresps. split_and!; try done. rewrite Hh.
    apply committed_length in Hcom. unfold run_app_hash. rewrite Hlast. simpl.
    destruct (last resps) eqn:Er; [done|]. apply last_None in Er as ->.
    by rewrite length_reverse in Hcom.
  - destruct Hr as (dn&c&es'&ctx&a&resp&x&Hre&->&Hr). exists (reverse (b :: rest)), dn, c, es', ctx, a, resp.
    done.
  - destruct Hr as (dn&c&es'&ctx&a&Hr). by exists (reverse (b :: rest)), dn, c, es', ctx, a.
Qed.
End TryCommit.

(** ** Evidence *)

Lemma validate_evidence_Ok `{Blake3, Verifier} p view epoch prev chain :
  validate_evidence p view epoch prev chain = Ok () ↔
    ep_block_hash_a p ≠ ep_block_hash_b p ∧ ep_epoch p ≤ e_number epoch ∧ ep_view p ≤ view ∧
    (ep_vote_type p = TVote → ep_extension_a p = None ∧ ep_extension_b p = None) ∧
    ∃ vi, get_with_previous (e_validator_set epoch) prev (ep_validator p) = Some vi ∧
      evidence_signature_ok chain vi p (ep_block_hash_a p) (ep_signature_a p) (ep_extension_a p) = true ∧
      evidence_signature_ok chain vi p (ep_block_hash_b p) (ep_signature_b p) (ep_extension_b p) = true.
Proof.
  unfold validate_evidence.
  destruct (get_with_previous _ _ _) as [vi|]; cbn [ok_or mbind res_bind]; [|naive_solver].
  match goal with |- (if ?b then _ else _) = _ ↔ _ => destruct b eqn:Hb end.
  { split; [done|]. intros (H1&H2&H3&H4&_). exfalso.
    rewrite bool_decide_false in Hb by done.
    destruct (N.ltb_spec (e_number epoch) (ep_epoch p)); [lia|].
    destruct (N.ltb_spec view (ep_view p)); [lia|]. simpl in Hb.
    apply andb_true_iff in Hb as [Ht Hx]. bool_prop. destruct (H4 Ht) as [Ea Eb].
    rewrite Ea, Eb in Hx. done. }
  bool_prop.
  assert (ep_vote_type p = TVote → ep_extension_a p = None ∧ ep_extension_b p = None) as Hext.
  { intros Ht. rewrite bool_decide_true in Hb by done. simpl in Hb. bool_prop.
    by split; apply eq_None_not_Some. }
  destruct (evidence_signature_ok chain vi p (ep_block_hash_a p) _ _) eqn:Ha; cbn [negb].
  2: { split; [done|]. intros (_&_&_&_&vi'&[= <-]&?&?). congruence. }
  destruct (evidence_signature_ok chain vi p (ep_block_hash_b p) _ _) eqn:Hb'; cbn [negb].
  2: { split; [done|]. intros (_&_&_&_&vi'&[= <-]&?&?). congruence. }
  split; [|done]. intros _. split_and!; try done. by exists vi.
Qed.



Lemma validate_all_Ok `{Blake3, Verifier} ps view epoch prev chain :
  validate_all ps view epoch prev chain = Ok () ↔
    Forall (λ p, validate_evidence p view epoch prev chain = Ok ()) ps.
Proof.
  induction ps as [|p ps IH]; cbn [validate_all].
  { split; [constructor|done]. }
  rewrite Forall_cons, <- IH.
  destruct (validate_evidence p view epoch prev chain) as [[]| |]; simpl; naive_solver.
Qed.

(** ** Properties *)

(** [decode_payload] inverts the length-prefixed encoding of any list of
    transactions of at most [u32::MAX] bytes, even when up to three stray bytes
    follow; and on arbitrary bytes what it returns re-encodes to a prefix of
    the payload, so no decoded transaction overlaps another or reaches past
    the end. *)
Lemma decode_payload_roundtrip :
  (∀ txs tail, Forall (λ tx, N.of_nat (length tx) ≤ u32_max) txs → (length tail < 4)%nat →
     decode_payload (encode_txs txs ++ tail) = txs) ∧
  (∀ payload, ∃ tail, payload = encode_txs (decode_payload payload) ++ tail).
Proof.
  split.
  - intros txs tail Htxs Ht. unfold decode_payload. apply decode_from_encode; [done..|].
    pose proof (length_encode_txs txs). rewrite length_app. lia.
  - intros payload. apply decode_from_prefix.
Qed.

(** C6: [try_commit] validates the whole chain before it touches the
    application.  When it commits, the blocks have consecutive heights from the
    last committed height on, each is the stored parent of the next, the first
    extends the block indexed at the last committed height and the last is the
    certified block; every block is given to the application exactly once, in
    order, evidence before execution before the commit notification, and the
    committed height becomes the certified block's.  Each block is executed in
    its own context: the scheduled epoch takes over once a block's view has
    reached its start view, a block older than the epoch in use runs under the
    previous one, and the validator updates of a block schedule the successor of
    the last scheduled epoch (or of the one in use), numbered one higher, starting
    two views after the block, with the updates applied; the result reports the
    epoch scheduled and the last one started, the responses and the application
    hash.  Updates that do not apply stop the run after the block that asked for
    them, with the blocks before it committed.  The run panics only when the
    application fails a call or the epoch numbers are exhausted.  A certificate
    for an already committed height changes nothing, and neither do the chain
    errors, which arise only when the block is not stored or no such chain leads
    to it; the walk always stops within its fuel. *)
Theorem try_commit_correct {St App} `{!BlockStore St, !Application App}
    dc cur prev pend (w : World St App) w' r :
  let last_h := cs_last_committed_height (w_state w) in
  let cb := get_block (w_store w) (qc_block_hash (dc_inner_qc dc)) in
  let run := λ chain, asc_chain (w_store w) last_h chain ∧ last chain = cb in
  let es := mkEpochs cur prev pend None in
  try_commit dc cur prev pend w = (w', r) →
  w_store w' = w_store w ∧
  match r with
  | Ok cr =>
      cr_commit_qc cr = dc_inner_qc dc ∧
      ∃ b, cb = Some b ∧
        ((b_height b ≤ last_h ∧ w' = w ∧
          cr = mkCommitResult [] (dc_inner_qc dc) None None GENESIS_HASH []) ∨
         (last_h < b_height b ∧ run (cr_committed_blocks cr) ∧
          w_state w' = set_last_committed_height (w_state w) (b_height b) ∧
          w_trace w' = blocks_effects (cr_committed_blocks cr) ++ w_trace w ∧
          ∃ es', committed es (w_app w) (cr_committed_blocks cr) es' (w_app w') (cr_block_responses cr) ∧
            cr_pending_epoch cr = ec_pending es' ∧ cr_activated_epoch cr = ec_activated es' ∧
            Some (cr_last_app_hash cr) =
              run_app_hash (w_app w') (cr_committed_blocks cr) (cr_block_responses cr)))
  | Err (InvalidUpdates h x) =>
      ∃ chain done b es' ctx a resp, run chain ∧ b_height b = h ∧
        reached es (w_app w) chain done b es' ctx a ∧ answered b ctx a resp (w_app w') ∧
        ebr_validator_updates resp ≠ [] ∧
        try_apply_updates (e_validator_set (base_epoch es')) (ebr_validator_updates resp) = Err x ∧
        w_trace w' = blocks_effects (done ++ [b]) ++ w_trace w ∧
        w_state w' = match last done with
                     | Some c => set_last_committed_height (w_state w) (b_height c)
                     | None => w_state w
                     end
  | Err ChainFuel => False
  | Err CommitBlockNotFound => w' = w ∧ cb = None
  | Err _ => w' = w ∧ ∃ b, cb = Some b ∧ last_h < b_height b ∧ ∀ chain, ¬ run chain
  | Panic =>
      ∃ chain done b es' ctx a, run chain ∧ reached es (w_app w) chain done b es' ctx a ∧
        fatal b ctx es' a
  end.
Proof.
  intros last_h cb run es Hrun. pose proof (try_commit_spec dc cur prev pend w) as H.
  unfold wp in H. rewrite Hrun in H. exact H.
Qed.

(** Two blocks above genesis, in a memory store with the no-op application. *)
Definition sample_block2 : Block :=
  mkBlock 2 (x01 :: zeros 31) 3 3 9 [] GENESIS_HASH [] (x01 :: x01 :: zeros 30).

Definition sample_store : MemoryBlockStore :=
  put_block (put_block mem_new sample_block1) sample_block2.

Definition sample_state : ConsensusState :=
  mkConsensusState 3 sample_set (zeros 32) 3 Replica WaitingForProposal None None None 0
    GENESIS_HASH (Epoch_genesis sample_set) [] None None.

Definition sample_world : World MemoryBlockStore NoopApplication :=
  mkWorld sample_state sample_store Noop 0 [].

Definition sample_commit_dc : DoubleCertificate :=
  mkDC (mkQC (x01 :: x01 :: zeros 30) 3 (mkAgg [] []) 0)
    (mkQC (x01 :: x01 :: zeros 30) 3 (mkAgg [] []) 0) [].

(** The next epoch, scheduled to start between the two blocks' views. *)
Definition sample_next_epoch : Epoch := mkEpoch 1 2 sample_set.

Definition sample_commit_run : World MemoryBlockStore NoopApplication * res commit_error CommitResult :=
  try_commit sample_commit_dc (Epoch_genesis sample_set) None (Some sample_next_epoch) sample_world.

Lemma try_commit_correct_witness :
  ∃ w' cr, sample_commit_run = (w', Ok cr) ∧
    cr_committed_blocks cr = [sample_block1; sample_block2] ∧
    w_trace w' = [EAppCommit sample_block2; EAppExecute sample_block2;
                  EAppCommit sample_block1; EAppExecute sample_block1] ∧
    cr_activated_epoch cr = Some sample_next_epoch ∧
    ∃ es', committed (mkEpochs (Epoch_genesis sample_set) None (Some sample_next_epoch) None) Noop
             [sample_block1; sample_block2] es' Noop (cr_block_responses cr) ∧
      ec_activated es' = Some sample_next_epoch.
Proof.
  assert (if sample_commit_run.2 is Ok cr
          then cr_committed_blocks cr = [sample_block1; sample_block2] ∧
               cr_activated_epoch cr = Some sample_next_epoch else False) as Hb
    by (vm_compute; split; reflexivity).
  assert (w_trace sample_commit_run.1 = [EAppCommit sample_block2; EAppExecute sample_block2;
            EAppCommit sample_block1; EAppExecute sample_block1]) as Ht
    by (vm_compute; reflexivity).
  destruct sample_commit_run as [w' [cr|e|]] eqn:E; [|destruct Hb..]. destruct Hb as [Hb Ha].
  exists w', cr. split; [reflexivity|]. split; [exact Hb|]. split; [exact Ht|]. split; [exact Ha|].
  destruct (try_commit_correct sample_commit_dc (Epoch_genesis sample_set) None (Some sample_next_epoch)
              sample_world w' (Ok cr) E) as (_&_&b&_&[(_&_&Hn)|(_&_&_&_&es'&Hc&_&Hact&_)]).
  - rewrite Hn in Hb. discriminate Hb.
  - exists es'. rewrite Hb in Hc. destruct (w_app w'). split; [exact Hc|]. rewrite <- Hact. exact Ha.
Defined.

(** [validate_evidence] accepts a proof exactly when its validator is in the
    epoch's set (or the previous one's), the two hashes differ, its epoch and
    view are not in the future, a first-phase proof carries no extensions, and
    both signatures are that validator's on votes for the two blocks at the same
    epoch, view and type. *)
Lemma validate_evidence_correct `{Blake3, Verifier} p view epoch prev chain :
  validate_evidence p view epoch prev chain = Ok () ↔
    ep_block_hash_a p ≠ ep_block_hash_b p ∧ ep_epoch p ≤ e_number epoch ∧ ep_view p ≤ view ∧
    (ep_vote_type p = TVote → ep_extension_a p = None ∧ ep_extension_b p = None) ∧
    ∃ vi, get_with_previous (e_validator_set epoch) prev (ep_validator p) = Some vi ∧
      evidence_signature_ok chain vi p (ep_block_hash_a p) (ep_signature_a p) (ep_extension_a p) = true ∧
      evidence_signature_ok chain vi p (ep_block_hash_b p) (ep_signature_b p) (ep_extension_b p) = true.
Proof. apply validate_evidence_Ok. Qed.
