(* ===== verification/Mempool.v ===== *)
(** * The mempool

    [hotmint-mempool/src/lib.rs].  The entries are a set ordered by priority and
    hash, here its sorted list; [seen] maps each pending hash to the priority of
    its entry.  Every operation holds the locks for its whole body, so a
    sequence of operations is a sequence of the functions below. *)

From Stdlib Require Import Sorted.
From S2P Require Import Prelude Types Encoding State BlockStore World Commit.

(** ** Entries and their order *)

Record TxEntry : Type := mkTxEntry {
  te_tx : bytes;
  te_priority : N;
  te_gas_wanted : N;
  te_hash : bytes;
}.

Definition te_cmp (a b : TxEntry) : comparison :=
  match N.compare (te_priority a) (te_priority b) with
  | Eq => bytes_cmp (te_hash a) (te_hash b)
  | c => c
  end.

(** ** The ordered set *)

(** [BTreeSet::insert] keeps the element that is there. *)
Fixpoint bt_insert (e : TxEntry) (l : list TxEntry) : list TxEntry :=
  match l with
  | [] => [e]
  | x :: rest =>
      match te_cmp e x with
      | Lt => e :: x :: rest
      | Eq => x :: rest
      | Gt => x :: bt_insert e rest
      end
  end.

Definition bt_remove (e : TxEntry) (l : list TxEntry) : list TxEntry :=
  filter (λ x, te_cmp e x ≠ Eq) l.

(** ** The pool *)

Record Mempool : Type := mkMempool {
  mp_entries : list TxEntry;
  mp_seen : gmap bytes N;
  mp_max_size : nat;
  mp_max_tx_bytes : nat;
}.

Definition mp_new (max_size max_tx_bytes : nat) : Mempool :=
  mkMempool [] ∅ max_size max_tx_bytes.

Section Mempool.
Context `{Blake3}.

Definition hash_tx (tx : bytes) : bytes := blake3 tx.

Definition add_tx_with_gas (p : Mempool) (tx : bytes) (priority gas_wanted : N) : Mempool * bool :=
  if (mp_max_size p =? 0)%nat then (p, false)
  else if (mp_max_tx_bytes p <? length tx)%nat then (p, false)
  else
    let hash := hash_tx tx in
    let entries := mp_entries p in
    let seen := mp_seen p in
    let with_ entries seen := mkMempool entries seen (mp_max_size p) (mp_max_tx_bytes p) in
    match seen !! hash with
    | Some existing_priority =>
        if priority <=? existing_priority then (p, false)
        else
          let old := mkTxEntry tx existing_priority 0 hash in
          let entries := bt_remove old entries in
          let seen := <[hash := priority]> seen in
          (with_ (bt_insert (mkTxEntry tx priority gas_wanted hash) entries) seen, true)
    | None =>
        let insert_ entries seen :=
          (with_ (bt_insert (mkTxEntry tx priority gas_wanted hash) entries)
             (<[hash := priority]> seen), true) in
        if (mp_max_size p <=? length entries)%nat then
          match entries with
          | lowest :: rest =>
              if priority <=? te_priority lowest then (p, false)
              else insert_ rest (delete (te_hash lowest) seen)
          | [] => insert_ entries seen
          end
        else insert_ entries seen
    end.

Definition add_tx (p : Mempool) (tx : bytes) (priority : N) : Mempool * bool :=
  add_tx_with_gas p tx priority 0.

Definition mp_size (p : Mempool) : nat := length (mp_entries p).

(** ** Recheck *)

Definition recheck_one (validator : bytes → option (N * N)) (acc : list TxEntry * gmap bytes N)
    (entry : TxEntry) : list TxEntry * gmap bytes N :=
  match validator (te_tx entry) with
  | Some (new_priority, new_gas) =>
      (bt_insert (mkTxEntry (te_tx entry) new_priority new_gas (te_hash entry)) acc.1,
       <[te_hash entry := new_priority]> acc.2)
  | None => acc
  end.

Definition recheck (p : Mempool) (validator : bytes → option (N * N)) : Mempool :=
  let '(entries, seen) := foldl (recheck_one validator) ([], ∅) (mp_entries p) in
  mkMempool entries seen (mp_max_size p) (mp_max_tx_bytes p).
End Mempool.

(** ** Collecting a payload *)

Definition MAX_SKIPPED : N := 200.

Definition frame (tx : bytes) : bytes :=
  u32_le (N.of_nat (length tx) mod (u32_max + 1)) ++ tx.

(** The loop over the entries, highest first: the payload, the gas and the
    number of skipped entries so far. *)
Fixpoint collect_loop (max_bytes max_gas : N) (entries : list TxEntry) (payload : bytes)
    (total_gas skipped : N) : bytes :=
  match entries with
  | [] => payload
  | entry :: rest =>
      let tx_frame := saturating_add64 4 (N.of_nat (length (te_tx entry))) in
      let skip := if MAX_SKIPPED <=? skipped + 1 then payload
                  else collect_loop max_bytes max_gas rest payload total_gas (skipped + 1) in
      let take_ gas := collect_loop max_bytes max_gas rest (payload ++ frame (te_tx entry)) gas skipped in
      if max_bytes <? tx_frame then collect_loop max_bytes max_gas rest payload total_gas skipped
      else if (0 <? max_gas) && (max_gas <? te_gas_wanted entry) then
        collect_loop max_bytes max_gas rest payload total_gas skipped
      else match checked_add64 (N.of_nat (length payload)) tx_frame with
      | None => skip
      | Some next_len =>
          if max_bytes <? next_len then skip
          else if 0 <? max_gas then
            match checked_add64 total_gas (te_gas_wanted entry) with
            | None => skip
            | Some next_gas => if max_gas <? next_gas then skip else take_ next_gas
            end
          else take_ total_gas
      end
  end.

Definition collect_payload_with_gas (p : Mempool) (max_bytes max_gas : N) : bytes :=
  collect_loop max_bytes max_gas (rev (mp_entries p)) [] 0 0.

Definition collect_payload (p : Mempool) (max_bytes : N) : bytes :=
  collect_payload_with_gas p max_bytes 0.

(** [Mempool::decode_payload], with the offset as the source keeps it. *)
Fixpoint mp_decode_loop (fuel : nat) (payload : bytes) (offset : nat) (txs : list bytes) : option (list bytes) :=
  match fuel with
  | O => None
  | S fuel =>
      if (offset + 4 <=? length payload)%nat then
        let len := N.to_nat (le_u32 (take 4 (drop offset payload))) in
        let offset := (offset + 4)%nat in
        if (length payload <? offset + len)%nat then Some txs
        else mp_decode_loop fuel payload (offset + len) (txs ++ [take len (drop offset payload)])
      else Some txs
  end.

Definition mp_decode_payload (payload : bytes) : option (list bytes) :=
  mp_decode_loop (S (length payload)) payload 0 [].

(** ** The order *)

Definition te_lt (a b : TxEntry) : Prop := te_cmp a b = Lt.

Lemma te_cmp_eq a b : te_cmp a b = Eq ↔ te_priority a = te_priority b ∧ te_hash a = te_hash b.
Proof.
  unfold te_cmp. destruct (N.compare_spec (te_priority a) (te_priority b)).
  - rewrite bytes_cmp_eq. naive_solver.
  - naive_solver lia.
  - naive_solver lia.
Qed.

Lemma te_cmp_gt a b : te_cmp a b = Gt ↔ te_lt b a.
Proof.
  unfold te_lt, te_cmp. rewrite (N.compare_antisym (te_priority a)), (bytes_cmp_antisym (te_hash a)).
  destruct (N.compare _ _), (bytes_cmp _ _); simpl; naive_solver.
Qed.

#[local] Instance te_lt_trans : Transitive te_lt.
Proof.
  intros a b c. unfold te_lt, te_cmp.
  destruct (N.compare_spec (te_priority a) (te_priority b)), (N.compare_spec (te_priority b) (te_priority c));
    try done; intros; destruct (N.compare_spec (te_priority a) (te_priority c)); try lia; try done.
  by eapply bytes_cmp_trans.
Qed.

Lemma te_lt_irrefl a b : te_lt a b → te_cmp a b ≠ Eq.
Proof. unfold te_lt. intros ->. done. Qed.

Lemma te_lt_priority a b : te_lt a b → te_priority a ≤ te_priority b.
Proof. unfold te_lt, te_cmp. destruct (N.compare_spec (te_priority a) (te_priority b)); [lia|lia|done]. Qed.

(** ** The set operations *)

Notation sorted := (StronglySorted te_lt).

Lemma elem_of_bt_insert e l x :
  (∀ y, y ∈ l → te_cmp e y ≠ Eq) → x ∈ bt_insert e l ↔ x = e ∨ x ∈ l.
Proof.
  intros Hne. induction l as [|y l IH]; simpl; [by rewrite list_elem_of_singleton, elem_of_nil; naive_solver|].
  destruct (te_cmp e y) eqn:E.
  - exfalso. by apply (Hne y); [left|].
  - rewrite elem_of_cons. done.
  - rewrite !elem_of_cons, IH; [naive_solver|]. intros z Hz. apply Hne. by right.
Qed.

Lemma bt_insert_sorted e l : sorted l → sorted (bt_insert e l).
Proof.
  induction 1 as [|y l Hs IH Hy]; simpl; [repeat constructor|].
  destruct (te_cmp e y) eqn:E.
  - by constructor.
  - constructor; [by constructor|]. constructor; [done|]. eapply Forall_impl; [exact Hy|].
    intros z Hz. by etrans.
  - constructor; [done|]. apply te_cmp_gt in E. rewrite Forall_forall in Hy |- *. intros z Hz.
    assert (z = e ∨ z ∈ l) as [->|?]; [|done|by apply Hy].
    clear -Hz. induction l as [|x l IH]; simpl in Hz; [left; by apply list_elem_of_singleton in Hz|].
    destruct (te_cmp e x); [by right| |].
    + apply elem_of_cons in Hz as [?|?]; auto.
    + apply elem_of_cons in Hz as [->|?]; [by right; left|]. destruct (IH H) as [?|?]; [auto|by right; right].
Qed.

Lemma length_bt_insert e l : (length (bt_insert e l) ≤ S (length l))%nat.
Proof. induction l as [|y l IH]; simpl; [done|]. destruct (te_cmp e y); simpl; lia. Qed.

Lemma length_bt_insert_new e l :
  (∀ y, y ∈ l → te_cmp e y ≠ Eq) → length (bt_insert e l) = S (length l).
Proof.
  intros Hne. induction l as [|y l IH]; simpl; [done|]. destruct (te_cmp e y) eqn:E; simpl; [|done|].
  - exfalso. by apply (Hne y); [left|].
  - rewrite IH; [done|]. intros z Hz. apply Hne. by right.
Qed.

Lemma filter_sorted (P : TxEntry → Prop) `{∀ x, Decision (P x)} l : sorted l → sorted (filter P l).
Proof.
  induction 1 as [|y l Hs IH Hy]; [constructor|]. rewrite filter_cons. case_decide; [|done].
  constructor; [done|]. rewrite Forall_forall in Hy |- *. intros z [_ Hz]%list_elem_of_filter. auto.
Qed.

(** Two elements of the set with one key are one element. *)
Lemma sorted_inj l x y : sorted l → x ∈ l → y ∈ l → te_cmp x y = Eq → x = y.
Proof.
  induction 1 as [|z l Hs IH Hz]; [by intros ?%not_elem_of_nil|].
  rewrite Forall_forall in Hz.
  intros [->|Hx]%elem_of_cons [->|Hy]%elem_of_cons E; [done| | |by apply IH].
  - apply Hz in Hy. by apply te_lt_irrefl in Hy.
  - apply Hz in Hx. apply te_cmp_gt in Hx. congruence.
Qed.

(** ** The invariant *)

Section Pool.
Context `{Blake3}.
Implicit Types p : Mempool.

(** The set is ordered and holds transactions of admissible size, at most one
    per hash and at most [max_size]; [seen] is the index of the set. *)
Record pool_ok p : Prop := {
  po_sorted : sorted (mp_entries p);
  po_entry : ∀ e, e ∈ mp_entries p → te_hash e = hash_tx (te_tx e) ∧ (length (te_tx e) ≤ mp_max_tx_bytes p)%nat;
  po_seen : ∀ h pr, mp_seen p !! h = Some pr ↔ ∃ e, e ∈ mp_entries p ∧ te_hash e = h ∧ te_priority e = pr;
  po_size : (length (mp_entries p) ≤ mp_max_size p)%nat;
}.

Lemma pool_unique p x y : pool_ok p → x ∈ mp_entries p → y ∈ mp_entries p → te_hash x = te_hash y → x = y.
Proof.
  intros Hp Hx Hy E. eapply sorted_inj; [apply Hp|done..|]. apply te_cmp_eq. split; [|done].
  assert (mp_seen p !! te_hash x = Some (te_priority x)) as Hs by (apply (po_seen _ Hp); eauto).
  assert (mp_seen p !! te_hash y = Some (te_priority y)) as Hs' by (apply (po_seen _ Hp); eauto).
  rewrite E in Hs. congruence.
Qed.

Lemma unseen p h e : pool_ok p → mp_seen p !! h = None → e ∈ mp_entries p → te_hash e ≠ h.
Proof.
  intros Hp Hn He <-. assert (mp_seen p !! te_hash e = Some (te_priority e)) by (apply (po_seen _ Hp); eauto).
  congruence.
Qed.

Lemma mp_new_ok n m : pool_ok (mp_new n m).
Proof.
  split; simpl; [constructor|by intros e ?%not_elem_of_nil| |lia].
  intros h pr. rewrite lookup_empty. split; [done|]. by intros (e&?%not_elem_of_nil&_).
Qed.

(** Inserting a new hash next to a subset of the old entries. *)
Lemma pool_insert p (keep : list TxEntry) (seen : gmap bytes N) tx pr gas :
  let h := hash_tx tx in let new := mkTxEntry tx pr gas h in
  sorted keep → (∀ e, e ∈ keep → te_hash e = hash_tx (te_tx e) ∧ (length (te_tx e) ≤ mp_max_tx_bytes p)%nat) →
  (∀ e, e ∈ keep → te_hash e ≠ h) → (length tx ≤ mp_max_tx_bytes p)%nat →
  (∀ k v, k ≠ h → seen !! k = Some v ↔ ∃ e, e ∈ keep ∧ te_hash e = k ∧ te_priority e = v) →
  (S (length keep) ≤ mp_max_size p)%nat →
  let p' := mkMempool (bt_insert new keep) (<[h := pr]> seen) (mp_max_size p) (mp_max_tx_bytes p) in
  pool_ok p' ∧ ∀ x, x ∈ mp_entries p' ↔ x = new ∨ x ∈ keep.
Proof.
  intros h new Hs He Hh Hl Hseen Hsz p'.
  assert (∀ y, y ∈ keep → te_cmp new y ≠ Eq) as Hne.
  { intros y Hy [_ E]%te_cmp_eq. by apply (Hh y Hy). }
  assert (∀ x, x ∈ mp_entries p' ↔ x = new ∨ x ∈ keep) as Hin by (intros x; by apply elem_of_bt_insert).
  split; [|done]. split; simpl.
  - by apply bt_insert_sorted.
  - intros e [->|Hk]%Hin; [by split|by apply He].
  - intros k v. destruct (decide (k = h)) as [->|Hkh].
    + rewrite lookup_insert_eq. split.
      * intros [= <-]. exists new. split_and!; [|done..]. apply Hin. by left.
      * intros (e&[->|Hk]%Hin&E&<-); [done|]. by apply Hh in Hk.
    + rewrite lookup_insert_ne by done. rewrite Hseen by done. split.
      * intros (e&?&?&?). exists e. split_and!; [|done..]. apply Hin. by right.
      * intros (e&[->|Hk]%Hin&E&<-); [done|]. eauto.
  - rewrite length_bt_insert_new by done. done.
Qed.
(** ** Adding *)

(** The conditions under which a transaction is taken. *)
Definition admissible p (tx : bytes) (priority : N) : Prop :=
  mp_max_size p ≠ 0%nat ∧ (length tx ≤ mp_max_tx_bytes p)%nat ∧
  match mp_seen p !! hash_tx tx with
  | Some pr => pr < priority
  | None => (length (mp_entries p) < mp_max_size p)%nat ∨
      ∃ lowest, lowest ∈ mp_entries p ∧ te_priority lowest < priority
  end.

(** [x] is the entry that makes room for a new transaction. *)
Definition evicted p (tx : bytes) (x : TxEntry) : Prop :=
  mp_seen p !! hash_tx tx = None ∧ (mp_max_size p ≤ length (mp_entries p))%nat ∧
  ∀ y, y ∈ mp_entries p → y = x ∨ te_lt x y.

Lemma sorted_head_least l x y : sorted (x :: l) → y ∈ x :: l → y = x ∨ te_lt x y.
Proof.
  intros [_ Hf]%StronglySorted_inv. rewrite Forall_forall in Hf.
  intros [->|Hy]%elem_of_cons; [by left|right]. auto.
Qed.

(** Replacing a pending transaction. *)
Lemma add_replace p tx pr gas old :
  pool_ok p → mp_seen p !! hash_tx tx = Some old → (length tx ≤ mp_max_tx_bytes p)%nat →
  let h := hash_tx tx in let new := mkTxEntry tx pr gas h in
  let keep := bt_remove (mkTxEntry tx old 0 h) (mp_entries p) in
  let p' := mkMempool (bt_insert new keep) (<[h := pr]> (mp_seen p)) (mp_max_size p) (mp_max_tx_bytes p) in
  pool_ok p' ∧ ∀ x, x ∈ mp_entries p' ↔ x = new ∨ x ∈ mp_entries p ∧ te_hash x ≠ h.
Proof.
  intros Hp Hs Hl h new keep p'.
  assert (∀ e, e ∈ keep ↔ e ∈ mp_entries p ∧ te_hash e ≠ h) as Hk.
  { intros e. unfold keep, bt_remove. rewrite list_elem_of_filter, te_cmp_eq. simpl. split.
    - intros [Hne He]. split; [done|]. intros E. apply Hne. split; [|done].
      assert (mp_seen p !! te_hash e = Some (te_priority e)) as He' by (apply (po_seen _ Hp); eauto).
      rewrite E in He'. unfold h in He'. congruence.
    - intros [He Hne]. split; [|done]. by intros [_ ?]. }
  apply (po_seen _ Hp) in Hs as (e0&He0&Eh&Ep).
  assert (S (length keep) ≤ length (mp_entries p))%nat as Hlen.
  { apply Nat.le_succ_l. unfold keep, bt_remove. apply (length_filter_lt _ (mp_entries p) e0); [done|].
    rewrite te_cmp_eq. simpl. naive_solver. }
  pose proof (po_size _ Hp).
  edestruct (pool_insert p keep (mp_seen p) tx pr gas) as [Hok Hin].
  - apply filter_sorted, Hp.
  - intros e [He _]%Hk. by apply Hp.
  - by intros e [_ ?]%Hk.
  - done.
  - intros k v Hne. rewrite (po_seen _ Hp). split.
    + intros (e&He&<-&<-). exists e. split_and!; [by apply Hk|done..].
    + intros (e&[He _]%Hk&?&?). eauto.
  - lia.
  - split; [exact Hok|]. intros x. etransitivity; [apply Hin|]. by rewrite Hk.
Qed.

(** Adding a new transaction, with or without evicting the lowest one. *)
Lemma add_fresh p tx pr gas :
  pool_ok p → mp_seen p !! hash_tx tx = None → (length tx ≤ mp_max_tx_bytes p)%nat →
  (length (mp_entries p) < mp_max_size p)%nat →
  let h := hash_tx tx in let new := mkTxEntry tx pr gas h in
  let p' := mkMempool (bt_insert new (mp_entries p)) (<[h := pr]> (mp_seen p)) (mp_max_size p) (mp_max_tx_bytes p) in
  pool_ok p' ∧ ∀ x, x ∈ mp_entries p' ↔ x = new ∨ x ∈ mp_entries p.
Proof.
  intros Hp Hs Hl Hsz h new p'. apply pool_insert; [apply Hp|apply Hp| |done| |lia].
  - intros e He. by eapply unseen.
  - intros k v _. apply Hp.
Qed.

Lemma add_evict p tx pr gas lowest rest :
  pool_ok p → mp_seen p !! hash_tx tx = None → (length tx ≤ mp_max_tx_bytes p)%nat →
  mp_entries p = lowest :: rest →
  let h := hash_tx tx in let new := mkTxEntry tx pr gas h in
  let p' := mkMempool (bt_insert new rest) (<[h := pr]> (delete (te_hash lowest) (mp_seen p)))
              (mp_max_size p) (mp_max_tx_bytes p) in
  pool_ok p' ∧ ∀ x, x ∈ mp_entries p' ↔ x = new ∨ x ∈ rest.
Proof.
  intros Hp Hs Hl El h new p'. pose proof (po_sorted _ Hp) as Hsort. rewrite El in Hsort.
  assert (∀ e, e ∈ rest → e ∈ mp_entries p) as Hsub by (intros e He; rewrite El; by right).
  assert (lowest ∈ mp_entries p) as Hlow by (rewrite El; by left).
  assert (∀ e, e ∈ rest → te_hash e ≠ te_hash lowest) as Hdist.
  { intros e He E. assert (e = lowest) as -> by (eapply pool_unique; eauto).
    apply StronglySorted_inv in Hsort as [_ Hf]. rewrite Forall_forall in Hf. apply Hf in He.
    apply te_lt_irrefl in He. apply He. by apply te_cmp_eq. }
  apply pool_insert.
  - by apply StronglySorted_inv in Hsort as [? _].
  - intros e He. by apply Hp, Hsub.
  - intros e He. eapply unseen; [done..|auto].
  - done.
  - intros k v _. rewrite lookup_delete_Some, (po_seen _ Hp). split.
    + intros (Hne&e&He&<-&<-). exists e. split_and!; [|done..]. rewrite El in He.
      by apply elem_of_cons in He as [->|?].
    + intros (e&He&<-&<-). split; [by apply not_eq_sym, Hdist|]. eauto.
  - pose proof (po_size _ Hp) as Hz. rewrite El in Hz. simpl in Hz. lia.
Qed.
Lemma add_tx_spec p tx priority gas :
  pool_ok p →
  let new := mkTxEntry tx priority gas (hash_tx tx) in
  let '(p', ok) := add_tx_with_gas p tx priority gas in
  pool_ok p' ∧ mp_max_size p' = mp_max_size p ∧ mp_max_tx_bytes p' = mp_max_tx_bytes p ∧
  (ok = true ↔ admissible p tx priority) ∧ (ok = false → p' = p) ∧
  (ok = true → ∀ x, x ∈ mp_entries p' ↔
     x = new ∨ x ∈ mp_entries p ∧ te_hash x ≠ hash_tx tx ∧ ¬ evicted p tx x).
Proof.
  intros Hp new. unfold add_tx_with_gas, admissible.
  destruct (Nat.eqb_spec (mp_max_size p) 0) as [|Hz]; [naive_solver|].
  destruct (Nat.ltb_spec (mp_max_tx_bytes p) (length tx)) as [|Hl]; [naive_solver lia|].
  destruct (mp_seen p !! hash_tx tx) as [old|] eqn:Hs.
  - destruct (N.leb_spec priority old); [naive_solver lia|].
    destruct (add_replace p tx priority gas old Hp Hs Hl) as [Hok Hin]. split_and!; [done..|naive_solver|done|].
    intros _ x. rewrite Hin. unfold evicted. rewrite Hs. naive_solver.
  - assert (∀ x, x ∈ mp_entries p → te_hash x ≠ hash_tx tx) as Hne by (intros; by eapply unseen).
    destruct (Nat.leb_spec (mp_max_size p) (length (mp_entries p))) as [Hfull|Hroom].
    + destruct (mp_entries p) as [|lowest rest] eqn:El; [simpl in Hfull; lia|].
      pose proof (po_sorted _ Hp) as Hsort. rewrite El in Hsort.
      assert (∀ y, y ∈ lowest :: rest → y = lowest ∨ te_lt lowest y) as Hleast
        by (intros y; by apply sorted_head_least).
      assert (∀ y, y ∈ lowest :: rest → te_priority lowest ≤ te_priority y) as Hle.
      { intros y Hy. destruct (Hleast y Hy) as [->|?]; [done|by apply te_lt_priority]. }
      destruct (N.leb_spec priority (te_priority lowest)) as [Hlow|Hhigh].
      { split_and!; try done. split; [done|]. intros (_&_&[?|(y&Hy&?)]); [lia|]. specialize (Hle y Hy). lia. }
      destruct (add_evict p tx priority gas lowest rest Hp Hs Hl El) as [Hok Hin].
      split_and!; [done..| |done|].
      * split; [intros _|done]. split_and!; [done..|]. right. exists lowest. split; [left|done].
      * intros _ x. rewrite Hin. unfold evicted. rewrite Hs, El. split.
        -- intros [->|Hx]; [by left|right]. split_and!; [by right|apply Hne; by right|].
           intros (_&_&Hall). destruct (Hall lowest) as [<-|Hlt]; [left| |].
           ++ apply StronglySorted_inv in Hsort as [_ Hf]. rewrite Forall_forall in Hf. apply Hf in Hx.
              apply te_lt_irrefl in Hx. apply Hx. by apply te_cmp_eq.
           ++ destruct (Hleast x) as [->|Hlt']; [by right|by apply te_lt_irrefl in Hlt; apply Hlt, te_cmp_eq|].
              assert (te_lt x x) as Hxx by by etrans. apply te_lt_irrefl in Hxx. by apply Hxx, te_cmp_eq.
        -- intros [->|(Hx&_&Hev)]; [by left|right]. apply elem_of_cons in Hx as [->|?]; [|done].
           exfalso. apply Hev. done.
    + destruct (add_fresh p tx priority gas Hp Hs Hl Hroom) as [Hok Hin]. split_and!; [done..|naive_solver|done|].
      intros _ x. rewrite Hin. unfold evicted. split.
      * intros [->|Hx]; [by left|right]. split_and!; [done|by apply Hne|]. intros (_&?&_). lia.
      * intros [->|(?&_)]; auto.
Qed.

(** ** Recheck *)

Definition rechecked (validator : bytes → option (N * N)) (l : list TxEntry) (x : TxEntry) : Prop :=
  ∃ e pr gas, e ∈ l ∧ validator (te_tx e) = Some (pr, gas) ∧ x = mkTxEntry (te_tx e) pr gas (te_hash e).

Lemma recheck_fold validator max_tx l :
  (∀ e, e ∈ l → te_hash e = hash_tx (te_tx e) ∧ (length (te_tx e) ≤ max_tx)%nat) →
  NoDup (te_hash <$> l) →
  let '(entries, seen) := foldl (recheck_one validator) ([], ∅) l in
  pool_ok (mkMempool entries seen (length l) max_tx) ∧ ∀ x, x ∈ entries ↔ rechecked validator l x.
Proof.
  induction l as [|e l IH] using rev_ind; intros Hl Hnd.
  { split; [apply (mp_new_ok 0 max_tx)|]. intros x. simpl. rewrite elem_of_nil. split; [done|].
    by intros (?&?&?&?%not_elem_of_nil&_). }
  rewrite fmap_app in Hnd. apply NoDup_app in Hnd as (Hnd&Hdis&_).
  rewrite foldl_app. destruct (foldl _ _ l) as [entries seen] eqn:Ef. simpl.
  destruct IH as [Hok Hin]; [intros x Hx; apply Hl, elem_of_app; by left|done|].
  assert (∀ x, rechecked validator (l ++ [e]) x ↔ rechecked validator l x ∨ rechecked validator [e] x) as Hsplit.
  { intros x. unfold rechecked. setoid_rewrite elem_of_app. naive_solver. }
  destruct (Hl e) as [Eh Hsz]; [apply elem_of_app; right; by left|].
  unfold recheck_one. destruct (validator (te_tx e)) as [[pr gas]|] eqn:Ev; simpl.
  - rewrite length_app. simpl. rewrite Eh.
    edestruct (pool_insert (mkMempool [] ∅ (length l + 1) max_tx) entries seen (te_tx e) pr gas) as [Hok' Hin'].
    + apply Hok.
    + apply Hok.
    + intros y (e'&pr'&gas'&He'&_&->)%Hin. simpl. intros E. apply (Hdis (te_hash e')).
      * apply list_elem_of_fmap. eauto.
      * rewrite E, <- Eh. csimpl. by left.
    + done.
    + intros k v _. apply (po_seen _ Hok).
    + simpl. pose proof (po_size _ Hok) as Hs. simpl in Hs. lia.
    + split; [exact Hok'|]. intros x. etransitivity; [apply Hin'|]. rewrite Hin, Hsplit. unfold rechecked at 3.
      setoid_rewrite list_elem_of_singleton. split.
      * intros [->|?]; [right; by exists e, pr, gas; rewrite Eh|by left].
      * intros [?|(?&?&?&->&E&->)]; [by right|left]. rewrite Ev in E. injection E as <- <-. by rewrite Eh.
  - split.
    + destruct Hok as [H1 H2 H3 H4]. split; try done. simpl in *. rewrite length_app. lia.
    + intros x. rewrite Hin, Hsplit. unfold rechecked at 3. setoid_rewrite list_elem_of_singleton. naive_solver.
Qed.

Lemma pool_hashes_NoDup p : pool_ok p → NoDup (te_hash <$> mp_entries p).
Proof.
  intros Hp. apply NoDup_fmap_2_strong.
  - intros x y Hx Hy. by apply (pool_unique p).
  - pose proof (po_sorted _ Hp) as Hs. induction Hs as [|x l Hs IH Hf]; constructor; [|done].
    intros Hx. rewrite Forall_forall in Hf. apply Hf in Hx. apply te_lt_irrefl in Hx. by apply Hx, te_cmp_eq.
Qed.

Lemma recheck_spec p validator :
  pool_ok p →
  let p' := recheck p validator in
  pool_ok p' ∧ (mp_size p' ≤ mp_size p)%nat ∧ mp_max_size p' = mp_max_size p ∧
  mp_max_tx_bytes p' = mp_max_tx_bytes p ∧
  ∀ x, x ∈ mp_entries p' ↔ rechecked validator (mp_entries p) x.
Proof.
  intros Hp p'. unfold p', recheck, mp_size.
  pose proof (recheck_fold validator (mp_max_tx_bytes p) (mp_entries p) (po_entry _ Hp) (pool_hashes_NoDup p Hp)) as H1.
  destruct (foldl _ _ _) as [entries seen]. destruct H1 as [[Hs He Hse Hsz] Hin]. simpl in *.
  pose proof (po_size _ Hp). split_and!; try done. split; simpl; try done. lia.
Qed.
End Pool.

(** ** Payloads *)

Lemma decode_from_fuel f f' rest :
  (length rest ≤ f)%nat → (length rest ≤ f')%nat → decode_from f rest = decode_from f' rest.
Proof.
  revert f' rest. induction f as [|f IH]; intros f' rest Hf Hf'.
  { destruct f'; [done|]. simpl. by destruct rest; [|simpl in Hf; lia]. }
  destruct f' as [|f']; [by destruct rest; [|simpl in Hf'; lia]|]. cbn [decode_from].
  destruct (Nat.leb_spec 4 (length rest)); [|done]. cbv zeta.
  destruct (Nat.ltb_spec (length (drop 4 rest)) (N.to_nat (le_u32 (take 4 rest)))); [done|].
  f_equal. apply IH; rewrite !length_drop; lia.
Qed.

(** The decoder of the mempool is the one of the commit path. *)
Lemma mp_decode_loop_spec fuel payload offset txs :
  (offset ≤ length payload)%nat → (length payload - offset < fuel)%nat →
  mp_decode_loop fuel payload offset txs =
    Some (txs ++ decode_from (length payload - offset) (drop offset payload)).
Proof.
  revert offset txs. induction fuel as [|fuel IH]; intros offset txs Ho Hf; [lia|]. cbn [mp_decode_loop].
  destruct (Nat.leb_spec (offset + 4) (length payload)) as [H4|H4].
  - remember (length payload - offset)%nat as k eqn:Ek. destruct k as [|k]; [lia|]. cbn [decode_from].
    rewrite length_drop, <- Ek. destruct (Nat.leb_spec 4 (S k)); [|lia]. cbv zeta.
    set (len := N.to_nat (le_u32 (take 4 (drop offset payload)))).
    rewrite !drop_drop, length_drop.
    destruct (Nat.ltb_spec (length payload) (offset + 4 + len)), (Nat.ltb_spec (length payload - (offset + 4)) len);
      try lia.
    + by rewrite app_nil_r.
    + rewrite IH by lia. rewrite <- app_assoc. do 3 f_equal. apply decode_from_fuel; rewrite length_drop; lia.
  - rewrite decode_from_short, app_nil_r by (rewrite length_drop; lia). done.
Qed.

Lemma mp_decode_payload_eq payload : mp_decode_payload payload = Some (decode_payload payload).
Proof.
  unfold mp_decode_payload. rewrite mp_decode_loop_spec by lia. by rewrite Nat.sub_0_r, drop_0.
Qed.

(** Why an entry is left out: it fits no block, or not what is left of this one. *)
Definition misfit (max_bytes max_gas len gas : N) (e : TxEntry) : Prop :=
  max_bytes < len + (4 + N.of_nat (length (te_tx e))) ∨
  0 < max_gas ∧ max_gas < gas + te_gas_wanted e.

Lemma misfit_mono max_bytes max_gas len gas len' gas' e :
  len ≤ len' → gas ≤ gas' → misfit max_bytes max_gas len gas e → misfit max_bytes max_gas len' gas' e.
Proof. unfold misfit. lia. Qed.

Notation payload_of sel := (encode_txs (te_tx <$> sel)).
Notation gas_of sel := (sumN te_gas_wanted sel).

(** What the loop makes of [entries], of which [sel] is selected. *)
Record collected (max_bytes max_gas len gas skipped : N) (entries sel : list TxEntry) : Prop := {
  co_sublist : sublist sel entries;
  co_bytes : len ≤ max_bytes → len + N.of_nat (length (payload_of sel)) ≤ max_bytes;
  co_gas : 0 < max_gas → gas ≤ max_gas → gas + gas_of sel ≤ max_gas;
  co_maximal :
    let len' := len + N.of_nat (length (payload_of sel)) in
    let gas' := gas + gas_of sel in
    (∀ e, e ∈ entries → e ∈ sel ∨ misfit max_bytes max_gas len' gas' e) ∨
    (∃ missed, sublist missed entries ∧ Forall (misfit max_bytes max_gas len' gas') missed ∧
       MAX_SKIPPED ≤ skipped + N.of_nat (length missed));
}.

(** Passing over an entry that does not fit, counted or not. *)
Lemma collected_skip max_bytes max_gas len gas skipped skipped' e entries sel :
  misfit max_bytes max_gas len gas e → skipped' ≤ skipped + 1 →
  collected max_bytes max_gas len gas skipped' entries sel →
  collected max_bytes max_gas len gas skipped (e :: entries) sel.
Proof.
  intros Hm Hle [Hsub Hb Hg Hmax]. split; [by constructor|done..|]. intros len' gas'.
  assert (misfit max_bytes max_gas len' gas' e) as Hm' by (eapply misfit_mono; [..|exact Hm]; lia).
  destruct Hmax as [Hall|(missed&Hms&Hf&Hc)].
  - left. intros x [->|Hx]%elem_of_cons; [by right|auto].
  - right. exists (e :: missed). split_and!; [by constructor|by constructor|]. simpl. lia.
Qed.

Lemma collected_take max_bytes max_gas len gas skipped e entries sel :
  N.of_nat (length (te_tx e)) ≤ u32_max →
  len + (4 + N.of_nat (length (te_tx e))) ≤ max_bytes →
  (0 < max_gas → gas + te_gas_wanted e ≤ max_gas) →
  collected max_bytes max_gas (len + (4 + N.of_nat (length (te_tx e)))) (gas + te_gas_wanted e) skipped entries sel →
  collected max_bytes max_gas len gas skipped (e :: entries) (e :: sel).
Proof.
  intros Hl Hlen Hgas [Hsub Hb Hg Hmax].
  assert (N.of_nat (length (payload_of (e :: sel))) =
    4 + N.of_nat (length (te_tx e)) + N.of_nat (length (payload_of sel))) as Epl.
  { rewrite fmap_cons, encode_txs_cons, !length_app, length_u32_le. lia. }
  split.
  - by constructor.
  - intros _. rewrite Epl. specialize (Hb Hlen). lia.
  - intros H0 Hle. rewrite sumN_cons. specialize (Hg H0 (Hgas H0)). lia.
  - rewrite Epl, sumN_cons. intros len' gas'.
    assert (len' = len + (4 + N.of_nat (length (te_tx e))) + N.of_nat (length (payload_of sel))) as -> by (unfold len'; lia).
    assert (gas' = gas + te_gas_wanted e + gas_of sel) as -> by (unfold gas'; lia).
    destruct Hmax as [Hall|(missed&Hms&Hf&Hc)].
    + left. intros x [->|Hx]%elem_of_cons; [left; by left|]. destruct (Hall x Hx) as [?|?]; [left; by right|by right].
    + right. exists missed. split_and!; [by constructor|done..].
Qed.

Lemma frame_bytes tx : N.of_nat (length tx) ≤ u32_max → frame tx = u32_le (N.of_nat (length tx)) ++ tx.
Proof. intros Hl. unfold frame. rewrite N.mod_small by lia. done. Qed.

(** Without a gas limit the gas is not counted. *)
Lemma collected_no_gas max_bytes len gas gas' skipped entries sel :
  collected max_bytes 0 len gas skipped entries sel → collected max_bytes 0 len gas' skipped entries sel.
Proof.
  assert (∀ len g g' e, misfit max_bytes 0 len g e → misfit max_bytes 0 len g' e) as Hm by (unfold misfit; lia).
  intros [Hsub Hb Hg Hmax]. split; [done|done|lia|]. destruct Hmax as [Hall|(missed&Hms&Hf&Hc)].
  - left. intros e He. destruct (Hall e He); eauto.
  - right. exists missed. split_and!; [done| |done]. eapply Forall_impl; [exact Hf|]. intros e. apply Hm.
Qed.

Lemma collect_loop_spec max_bytes max_gas entries payload gas skipped :
  max_bytes ≤ u64_max → max_gas ≤ u64_max →
  Forall (λ e, N.of_nat (length (te_tx e)) ≤ u32_max) entries →
  N.of_nat (length payload) ≤ max_bytes → (0 < max_gas → gas ≤ max_gas) →
  ∃ sel, collect_loop max_bytes max_gas entries payload gas skipped = payload ++ payload_of sel ∧
    collected max_bytes max_gas (N.of_nat (length payload)) gas skipped entries sel.
Proof.
  intros Hmb Hmg Hl. revert payload gas skipped.
  induction Hl as [|e entries He _ IH]; intros payload gas skipped Hp Hgas.
  { exists []. split; [by rewrite app_nil_r|].
    split; [constructor|simpl; lia|simpl; lia|]. left. by intros x ?%not_elem_of_nil. }
  cbn [collect_loop].
  assert (saturating_add64 4 (N.of_nat (length (te_tx e))) = 4 + N.of_nat (length (te_tx e))) as ->.
  { unfold saturating_add64, u32_max, u64_max in *. lia. }
  set (len := N.of_nat (length payload)) in *.
  assert (∀ skipped', skipped' ≤ skipped + 1 → misfit max_bytes max_gas len gas e →
    ∃ sel, collect_loop max_bytes max_gas entries payload gas skipped' = payload ++ payload_of sel ∧
      collected max_bytes max_gas len gas skipped (e :: entries) sel) as Hpass.
  { intros skipped' Hs Hm. destruct (IH payload gas skipped' Hp Hgas) as (sel&E&Hc).
    exists sel. split; [done|]. by eapply collected_skip. }
  assert (misfit max_bytes max_gas len gas e →
    ∃ sel, (if MAX_SKIPPED <=? skipped + 1 then payload
            else collect_loop max_bytes max_gas entries payload gas (skipped + 1)) = payload ++ payload_of sel ∧
      collected max_bytes max_gas len gas skipped (e :: entries) sel) as Hskip.
  { intros Hm. destruct (N.leb_spec MAX_SKIPPED (skipped + 1)); [|by apply Hpass].
    exists []. split; [by rewrite app_nil_r|]. split; [apply sublist_nil_l|simpl; lia|simpl; lia|].
    right. exists [e]. simpl. rewrite !N.add_0_r. split_and!; [|by constructor|done].
    constructor. apply sublist_nil_l. }
  assert (∀ gas', gas' = (if 0 <? max_gas then gas + te_gas_wanted e else gas) →
    len + (4 + N.of_nat (length (te_tx e))) ≤ max_bytes → (0 < max_gas → gas + te_gas_wanted e ≤ max_gas) →
    ∃ sel, collect_loop max_bytes max_gas entries (payload ++ frame (te_tx e)) gas' skipped = payload ++ payload_of sel ∧
      collected max_bytes max_gas len gas skipped (e :: entries) sel) as Htake.
  { intros gas' -> Hb Hg. assert (N.of_nat (length (payload ++ frame (te_tx e))) = len + (4 + N.of_nat (length (te_tx e)))) as El.
    { rewrite length_app, frame_bytes, length_app, length_u32_le by done. unfold len. lia. }
    edestruct (IH (payload ++ frame (te_tx e))) as (sel&E&Hc); [by rewrite El|..|].
    2: { exists (e :: sel). split.
         - rewrite E, fmap_cons, encode_txs_cons, frame_bytes by done. by rewrite <- !app_assoc.
         - apply collected_take; [done..|]. rewrite El in Hc.
           destruct (N.ltb_spec 0 max_gas); [exact Hc|]. assert (max_gas = 0) as -> by lia. by eapply collected_no_gas. }
    destruct (N.ltb_spec 0 max_gas); lia. }
  destruct (N.ltb_spec max_bytes (4 + N.of_nat (length (te_tx e)))) as [Hbig|Hsmall].
  { apply Hpass; [lia|]. left. lia. }
  destruct (N.ltb_spec 0 max_gas) as [Hg0|Hg0], (N.ltb_spec max_gas (te_gas_wanted e)) as [Hgw|Hgw]; simpl.
  { apply Hpass; [lia|]. right. lia. }
  all: destruct (checked_add64 len _) as [next|] eqn:En;
    [apply checked_add64_Some in En as [-> _]|apply checked_add64_None in En; apply Hskip; left; unfold u64_max in *; lia].
  all: destruct (N.ltb_spec max_bytes (len + (4 + N.of_nat (length (te_tx e))))); [apply Hskip; by left|].
  2,3: apply Htake; [done|done|lia].
  destruct (checked_add64 gas _) as [ng|] eqn:Eng;
    [apply checked_add64_Some in Eng as [-> _]|apply checked_add64_None in Eng; apply Hskip; right; lia].
  destruct (N.ltb_spec max_gas (gas + te_gas_wanted e)); [apply Hskip; right; lia|]. by apply Htake.
Qed.

(** ** Properties *)

Section Properties.
Context `{Blake3}.

(** C17: adding a transaction.  On a well-formed pool it is taken exactly when the
    pool admits transactions of its size and either its hash is pending with a
    lower priority, or it is new and there is room or an entry of lower
    priority.  Taken, it replaces the entry of the same hash, or joins the pool,
    in which case a full pool loses its least entry by priority and hash and
    nothing else; refused, it changes nothing.  The pool stays ordered, within
    its bounds, with at most one entry per hash and [seen] as its index. *)
Theorem add_tx_correct p tx priority gas :
  pool_ok p →
  let new := mkTxEntry tx priority gas (hash_tx tx) in
  let '(p', ok) := add_tx_with_gas p tx priority gas in
  pool_ok p' ∧ mp_max_size p' = mp_max_size p ∧ mp_max_tx_bytes p' = mp_max_tx_bytes p ∧
  (ok = true ↔ admissible p tx priority) ∧ (ok = false → p' = p) ∧
  (ok = true → ∀ x, x ∈ mp_entries p' ↔
     x = new ∨ x ∈ mp_entries p ∧ te_hash x ≠ hash_tx tx ∧ ¬ evicted p tx x).
Proof. apply add_tx_spec. Qed.

(** The recheck after a commit keeps exactly the transactions that the
    validator still accepts, each with its new priority and gas, and keeps the
    pool well-formed; no entry is lost to a clash of the new priorities. *)
Lemma recheck_correct p validator :
  pool_ok p →
  let p' := recheck p validator in
  pool_ok p' ∧ (mp_size p' ≤ mp_size p)%nat ∧
  mp_size p' = length (filter (λ e, is_Some (validator (te_tx e))) (mp_entries p)) ∧
  ∀ x, x ∈ mp_entries p' ↔ rechecked validator (mp_entries p) x.
Proof.
  intros Hp p'. destruct (recheck_spec p validator Hp) as (Hok&Hsz&_&_&Hin). split_and!; try done.
  unfold mp_size. rewrite <- (length_fmap te_hash (mp_entries p')), <- (length_fmap te_hash (filter _ _)).
  apply Permutation_length, NoDup_Permutation.
  - by apply pool_hashes_NoDup.
  - eapply sublist_NoDup; [exact (pool_hashes_NoDup p Hp)|apply fmap_sublist, sublist_filter].
  - intros h. rewrite !list_elem_of_fmap. setoid_rewrite list_elem_of_filter. split.
    + intros (x&->&(e&pr&gas&He&Ev&->)%Hin). exists e. by rewrite Ev.
    + intros (e&->&[[pr gas] Ev]&He). exists (mkTxEntry (te_tx e) pr gas (te_hash e)).
      split; [done|]. apply Hin. by exists e, pr, gas.
Qed.

(** Collecting a payload.  What is collected is a selection of the pool in
    descending order of priority; it fits the byte limit and, if there is one,
    the gas limit; an entry that is left out does not fit a block or what is
    left of this one, unless two hundred such entries had been passed over; and
    both decoders - the pool's and the commit path's - take the payload apart
    into exactly the selected transactions. *)
Lemma collect_payload_correct p max_bytes max_gas :
  pool_ok p → max_bytes ≤ u64_max → max_gas ≤ u64_max → N.of_nat (mp_max_tx_bytes p) ≤ u32_max →
  let payload := collect_payload_with_gas p max_bytes max_gas in
  let len := N.of_nat (length payload) in
  ∃ sel, sublist sel (rev (mp_entries p)) ∧
    decode_payload payload = te_tx <$> sel ∧ mp_decode_payload payload = Some (te_tx <$> sel) ∧
    len ≤ max_bytes ∧ (0 < max_gas → sumN te_gas_wanted sel ≤ max_gas) ∧
    ((∀ e, e ∈ mp_entries p → e ∈ sel ∨ misfit max_bytes max_gas len (sumN te_gas_wanted sel) e) ∨
     ∃ missed, sublist missed (rev (mp_entries p)) ∧ 200 ≤ N.of_nat (length missed) ∧
       Forall (misfit max_bytes max_gas len (sumN te_gas_wanted sel)) missed).
Proof.
  intros Hp Hb Hg Hm payload len. unfold len, payload, collect_payload_with_gas.
  assert (Forall (λ e, N.of_nat (length (te_tx e)) ≤ u32_max) (rev (mp_entries p))) as Hl.
  { apply Forall_rev, Forall_forall. intros e He. destruct (po_entry _ Hp e He). lia. }
  destruct (collect_loop_spec max_bytes max_gas (rev (mp_entries p)) [] 0 0) as (sel&E&[Hsub Hcb Hcg Hmax]);
    [done..|simpl; lia|lia|]. rewrite E. simpl in *. rewrite N.add_0_l in *.
  assert (decode_payload (payload_of sel) = te_tx <$> sel) as Hd.
  { unfold decode_payload. rewrite <- (app_nil_r (payload_of sel)) at 2. apply decode_from_encode; [|simpl; lia|].
    - apply Forall_fmap, Forall_forall. intros e He. rewrite Forall_forall in Hl. apply Hl. by eapply elem_of_sublist.
    - etrans; [|apply length_encode_txs]. done. }
  exists sel. split_and!; [done|done|by rewrite mp_decode_payload_eq, Hd|apply Hcb; lia|intros; apply Hcg; lia|].
  destruct Hmax as [Hall|(missed&?&?&?)]; [left|right; by exists missed].
  intros e He. apply Hall. by rewrite <- Permutation_rev.
Qed.
End Properties.

(** A pool of two, into which three transactions are put. *)
#[local] Existing Instance blake3_pad.

Definition sample_pool (txs : list (bytes * N * N)) : Mempool :=
  foldl (λ p t, (add_tx_with_gas p t.1.1 t.1.2 t.2).1) (mp_new 2 10) txs.

Definition sample_txs : list (bytes * N * N) := [([x01], 5, 3); ([x02], 7, 4)].

Lemma sample_pool_ok txs : pool_ok (sample_pool txs).
Proof.
  induction txs as [|t txs IH] using rev_ind; [apply mp_new_ok|]. unfold sample_pool. rewrite foldl_app. simpl.
  pose proof (add_tx_spec (sample_pool txs) t.1.1 t.1.2 t.2 IH) as Ha. unfold sample_pool in Ha.
  destruct (add_tx_with_gas _ _ _ _). by destruct Ha.
Qed.

Lemma add_tx_correct_witness :
  (te_tx <$> mp_entries (sample_pool (sample_txs ++ [([x01; x01], 6, 1)]))) = [[x01; x01]; [x02]] ∧
  admissible (sample_pool sample_txs) [x01; x01] 6 ∧
  evicted (sample_pool sample_txs) [x01; x01] (mkTxEntry [x01] 5 3 (hash_tx [x01])).
Proof.
  assert ((te_tx <$> mp_entries (sample_pool (sample_txs ++ [([x01; x01], 6, 1)]))) = [[x01; x01]; [x02]]) as E
    by (vm_compute; reflexivity).
  split; [exact E|].
  pose proof (add_tx_correct (sample_pool sample_txs) [x01; x01] 6 1 (sample_pool_ok sample_txs)) as Ha.
  destruct (add_tx_with_gas (sample_pool sample_txs) [x01; x01] 6 1) as [p' ok] eqn:Ep.
  assert (ok = true) as -> by (vm_compute in Ep; congruence).
  destruct Ha as (_&_&_&Hadm&_&_). split; [by apply Hadm|].
  split_and!; [vm_compute; reflexivity|vm_compute; lia|].
  change (mp_entries (sample_pool sample_txs)) with
    [mkTxEntry [x01] 5 3 (hash_tx [x01]); mkTxEntry [x02] 7 4 (hash_tx [x02])].
  intros y [->|[->|?%not_elem_of_nil]%elem_of_cons]%elem_of_cons; [by left|right; vm_compute; reflexivity|done].
Defined.

Lemma recheck_correct_witness :
  mp_size (recheck (sample_pool sample_txs) (λ tx, if decide (tx = [x02]) then Some (1, 1) else None)) = 1%nat.
Proof.
  destruct (recheck_correct (sample_pool sample_txs) (λ tx, if decide (tx = [x02]) then Some (1, 1) else None)
    (sample_pool_ok sample_txs)) as (_&_&Hs&_).
  rewrite Hs. vm_compute. reflexivity.
Defined.

Lemma collect_payload_correct_witness :
  decode_payload (collect_payload_with_gas (sample_pool sample_txs) 11 0) = [[x02]; [x01]] ∧
  ∃ sel, decode_payload (collect_payload_with_gas (sample_pool sample_txs) 8 0) = te_tx <$> sel ∧
    N.of_nat (length (collect_payload_with_gas (sample_pool sample_txs) 8 0)) ≤ 8.
Proof.
  split; [vm_compute; reflexivity|].
  destruct (collect_payload_correct (sample_pool sample_txs) 8 0 (sample_pool_ok sample_txs)) as (sel&_&Hd&_&Hb&_).
  - vm_compute. discriminate.
  - vm_compute. discriminate.
  - vm_compute. discriminate.
  - exists sel. split; [exact Hd|exact Hb].
Defined.
