(* ===== verification/ViewProtocol.v ===== *)
(** * View protocol ([hotmint-consensus/src/view_protocol.rs])

    The five steps of a view: entering it, proposing, voting on a proposal,
    forming the prepare certificate and second-phase voting.  Each runs in the
    state monad over the [World]; the persistence is present or absent, and the
    clock is a sequence of readings. *)

From S2P Require Import Prelude Types ValidatorSet Encoding Aggregate State BlockStore World Commit.

Inductive ViewEntryTrigger : Type :=
| TrDoubleCert (dc : DoubleCertificate)
| TrTimeoutCert (tc : TimeoutCertificate)
| TrGenesis.

Inductive vp_error : Type :=
| NoQcToJustify
| ParentNotFound
| JustifyBelowLock
| EmptyValidatorSet
| WrongProposer
| BlockHashMismatch
| ParentHashMismatch
| ProposalParentNotFound
| HeightNotNext
| TimestampZero
| TimestampBeforeParent
| TimestampInFuture
| InvalidEvidence (e : evidence_error)
| AppRejectedBlock
| FastForwardFailed (e : commit_error)
| AncestorFuel.

Record EpochContext : Type := mkEpochContext {
  ec_previous_epoch : option Epoch;
  ec_in_flight_pending : option Epoch;
}.

Record ProposalData : Type := mkProposalData {
  pd_block : Block;
  pd_justify : QuorumCertificate;
  pd_double_cert : option DoubleCertificate;
}.

Record ProposalResult : Type := mkProposalResult {
  pr_pending_epoch : option Epoch;
  pr_commit_result : option CommitResult;
}.

Definition MAX_FUTURE_DRIFT_MS : N := 15000.

(** The block context of the current epoch. *)
Definition state_context (s : ConsensusState) (height : Height) (view : ViewNumber)
    (proposer : ValidatorId) (timestamp : N) (exts : list (ValidatorId * bytes)) : BlockContext :=
  mkBlockContext height view proposer (e_number (cs_current_epoch s))
    (e_start_view (cs_current_epoch s)) (cs_validator_set s) timestamp exts.

(** [justify.rank() < locked.rank() || (justify.rank() == locked.rank() &&
    justify.block_hash != locked.block_hash)] *)
Definition below_lock (locked : option QuorumCertificate) (justify : QuorumCertificate) : bool :=
  match locked with
  | None => false
  | Some locked =>
      (qc_rank justify <? qc_rank locked) ||
      ((qc_rank justify =? qc_rank locked) &&
       negb (bool_decide (qc_block_hash justify = qc_block_hash locked)))
  end.

Section ViewProtocol.
Context {St App : Type} `{!BlockStore St} `{!Application App} `{!Blake3, !Verifier, !Signer}.
Context (has_persistence : bool) (clock_ms : nat → N) (fuel : nat).
Notation MV := (SM (World St App) vp_error).

(** [p.save_last_vote(..); p.flush()] when there is a persistence. *)
Definition persist_vote {E} (t : VoteType) (view : ViewNumber) (h : BlockHash)
    : SM (World St App) E unit :=
  when has_persistence (emit (ESaveLastVote t view h) ;; emit EPersistFlush).

(** Sign a vote of this node for [h] at its current view and epoch. *)
Definition make_vote {E} (t : VoteType) (h : BlockHash) (extension : option bytes)
    : SM (World St App) E Vote :=
  s ← get_state;
  signature ← sign_payload (PVote (cs_chain_id_hash s) (e_number (cs_current_epoch s))
                 (cs_current_view s) (cs_validator_id s) h t extension);
  mret (mkVote (e_number (cs_current_epoch s)) h (cs_current_view s) (cs_validator_id s)
          signature t extension).

(** [state.check_and_record_vote(..)] *)
Definition record_vote {E} (t : VoteType) (h : BlockHash) : SM (World St App) E bool :=
  s ← get_state;
  let '(s', ok) := check_and_record_vote s t (cs_current_view s) h in
  put_state s' ;; mret ok.

(** ** Step 1: entering a view *)

(** A replica with voting power sends its status to the leader of [view]. *)
Definition send_status (view : ViewNumber) : MV unit :=
  s ← get_state;
  when (0 <? power_of (cs_validator_set s) (cs_validator_id s))
    (leader ← lift_res (expect (leader_for_view (cs_validator_set s) view));
     sig ← sign_payload (PStatus (cs_chain_id_hash s) (e_number (cs_current_epoch s)) view
              (cs_validator_id s) (cs_locked_qc s));
     emit (ESendTo (vi_id leader) (StatusCert (cs_locked_qc s) (cs_validator_id s) sig))).

(** The end of every trigger: a leader waits for status, a replica for the
    proposal after [m]. *)
Definition settle (am_leader : bool) (m : MV unit) : MV unit :=
  if am_leader then mod_state (λ s, set_step s WaitingForStatus)
  else m ;; mod_state (λ s, set_step s WaitingForProposal).

Definition enter_view (view : ViewNumber) (trigger : ViewEntryTrigger) : MV unit :=
  s ← get_state;
  if (match trigger with TrGenesis => false | _ => true end) && (view <=? cs_current_view s)
  then mret ()
  else
    mod_state (λ s, set_step (set_current_view s view) Entered) ;;
    let am_leader := is_leader (cs_validator_set s) view (cs_validator_id s) in
    mod_state (λ s, set_role s (if am_leader then Leader else Replica)) ;;
    match trigger with
    | TrGenesis => settle am_leader (mret ())
    | TrDoubleCert dc =>
        mod_state (λ s, update_highest_qc s (dc_inner_qc dc)) ;;
        mod_state (λ s, set_highest_double_cert s (Some dc)) ;;
        settle am_leader (send_status view)
    | TrTimeoutCert tc =>
        match tc_highest_qc tc with
        | Some hqc => mod_state (λ s, update_highest_qc s hqc)
        | None => mret ()
        end ;;
        settle am_leader (send_status view)
    end.

(** ** Step 2: proposing *)

(** The walk that collects ancestor blocks; [None] when the fuel is used up. *)
Fixpoint ancestors (fuel : nat) (store : St) (depth_limit : N) (hash : BlockHash)
    (acc : list Block) : option (list Block) :=
  match fuel with
  | O => None
  | S fuel =>
      if bool_decide (hash = GENESIS_HASH) then Some acc
      else match get_block store hash with
           | Some b =>
               if b_height b <? depth_limit then Some acc
               else ancestors fuel store depth_limit (b_parent_hash b) (acc ++ [b])
           | None => Some acc
           end
  end.

(** The evidence that replicas can authenticate, at [self.state]'s epoch. *)
Definition retain_evidence (s : ConsensusState) (previous_epoch : option Epoch)
    (evidence : list EquivocationProof) : list EquivocationProof :=
  filter (λ p, is_ok (validate_evidence p (cs_current_view s) (cs_current_epoch s)
                        previous_epoch (cs_chain_id_hash s)) = true) evidence.

Definition propose (evidence : list EquivocationProof) (epochs : EpochContext) : MV Block :=
  s ← get_state;
  justify ← lift_res (ok_or (cs_highest_qc s) NoQcToJustify);
  let parent_hash := qc_block_hash justify in
  store ← get_store;
  parent ← lift_res (ok_or (get_block store parent_hash) ParentNotFound);
  height ← lift_res (Height_next (b_height parent));
  now_ms ← read_clock clock_ms;
  let timestamp := N.max now_ms (saturating_add64 (b_timestamp parent) 1) in
  let ctx := state_context s height (cs_current_view s) (cs_validator_id s) timestamp
               (cs_pending_vote_extensions s) in
  mod_state (λ s, set_pending_vote_extensions s []) ;;
  payload ← call_app (λ a, app_create_payload a ctx);
  let evidence := retain_evidence s (ec_previous_epoch epochs) evidence in
  let block := mkBlock height parent_hash (cs_current_view s) (cs_validator_id s) timestamp
                 payload (cs_last_app_hash s) evidence GENESIS_HASH in
  let block := set_hash block (compute_hash block) in
  mod_store (λ st, put_block st block) ;;
  signature ← sign_payload (PProposal (cs_chain_id_hash s) (e_number (cs_current_epoch s))
                 block justify);
  store ← get_store;
  let depth_limit := saturating_sub (cs_last_committed_height s) 1 in
  ancestor_blocks ← lift_res (ok_or (ancestors fuel store depth_limit parent_hash []) AncestorFuel);
  emit (EBroadcast (Propose block justify (cs_highest_double_cert s) signature ancestor_blocks)) ;;
  mod_state (λ s, set_step s CollectingVotes) ;;
  mret block.

(** ** Step 3: voting on a proposal *)

(** The checks on the block's timestamp. *)
Definition check_timestamp (block parent : Block) (now_ms : N) : res vp_error unit :=
  if b_timestamp block =? 0 then Err TimestampZero
  else if b_timestamp block <? b_timestamp parent then Err TimestampBeforeParent
  else if (now_ms +w MAX_FUTURE_DRIFT_MS) <? b_timestamp block then Err TimestampInFuture
  else Ok ().

(** The checks up to the timestamp, which read but do not write the state. *)
Definition check_proposal (s : ConsensusState) (store : St) (block : Block)
    (justify : QuorumCertificate) : res vp_error Block :=
  if below_lock (cs_locked_qc s) justify then Err JustifyBelowLock
  else
    leader ← ok_or (leader_for_view (cs_validator_set s) (b_view block)) EmptyValidatorSet;
    if negb (b_proposer block =? vi_id leader) then Err WrongProposer
    else if negb (bool_decide (b_hash block = compute_hash block)) then Err BlockHashMismatch
    else if negb (bool_decide (b_parent_hash block = qc_block_hash justify)) then
      Err ParentHashMismatch
    else
      parent ← ok_or (get_block store (b_parent_hash block)) ProposalParentNotFound;
      next ← Height_next (b_height parent);
      if negb (b_height block =? next) then Err HeightNotNext else Ok parent.

(** Sending the first-phase vote, when the guard allows it. *)
Definition vote_for (block : Block) : MV unit :=
  s ← get_state;
  may_sign ← (if 0 <? power_of (cs_validator_set s) (cs_validator_id s)
              then record_vote TVote (b_hash block) else mret false);
  when may_sign
    (persist_vote TVote (cs_current_view s) (b_hash block) ;;
     vote ← make_vote TVote (b_hash block) None;
     leader ← lift_res (expect (leader_for_view (cs_validator_set s) (cs_current_view s)));
     emit (ESendTo (vi_id leader) (VoteMsg vote))).

(** The fast-forward commit of a certificate carried by the proposal. *)
Definition fast_forward (double_cert : option DoubleCertificate) (epochs : EpochContext)
    : MV (option CommitResult) :=
  match double_cert with
  | None => mret None
  | Some dc =>
      s ← get_state;
      r ← try_ (try_commit dc (cs_current_epoch s) (ec_previous_epoch epochs)
                  (ec_in_flight_pending epochs));
      match r with
      | inl result =>
          when (negb (bool_decide (cr_committed_blocks result = [])))
            (mod_state (λ s, set_last_app_hash s (cr_last_app_hash result))) ;;
          mret (Some result)
      | inr e => throw (FastForwardFailed e)
      end
  end.

Definition on_proposal (proposal : ProposalData) (epochs : EpochContext) : MV ProposalResult :=
  let block := pd_block proposal in
  let justify := pd_justify proposal in
  s ← get_state;
  if negb (bool_decide (cs_step s = WaitingForProposal)) then mret (mkProposalResult None None)
  else
    store ← get_store;
    parent ← lift_res (check_proposal s store block justify);
    (if 0 <? b_height block then
       now_ms ← read_clock clock_ms;
       lift_res (check_timestamp block parent now_ms)
     else mret ()) ;;
    let ctx := state_context s (b_height block) (b_view block) (b_proposer block)
                 (b_timestamp block) [] in
    lift_res (match validate_block_evidence block (cs_current_epoch s) (ec_previous_epoch epochs)
                      (cs_chain_id_hash s) with
              | Ok u => Ok u
              | Err e => Err (InvalidEvidence e)
              | Panic => Panic
              end) ;;
    valid ← call_app (λ a, app_validate_block a block ctx);
    if negb valid then throw AppRejectedBlock
    else
      mod_store (λ st, put_block st block) ;;
      mod_state (λ s, update_highest_qc s justify) ;;
      commit ← fast_forward (pd_double_cert proposal) epochs;
      let pending := commit ≫= cr_pending_epoch in
      s ← get_state;
      tracks ← gets (λ w, app_tracks_app_hash (w_app w));
      if tracks && negb (bool_decide (b_app_hash block = cs_last_app_hash s)) then
        mret (mkProposalResult pending commit)
      else
        vote_for block ;;
        mod_state (λ s, set_step s Voted) ;;
        mret (mkProposalResult pending commit).

(** ** Step 4: the prepare certificate *)

Definition on_votes_collected (qc : QuorumCertificate) : MV unit :=
  mod_state (λ s, update_highest_qc s qc) ;;
  s ← get_state;
  signature ← sign_payload (PPrepare (cs_chain_id_hash s) (e_number (cs_current_epoch s)) qc);
  emit (EBroadcast (Prepare qc signature)) ;;
  mod_state (λ s, set_step s Prepared).

(** ** Step 5: locking and the second-phase vote *)

(** The vote and its recipient, to be sent by the caller. *)
Definition on_prepare (qc : QuorumCertificate) (vote_extension : option bytes)
    : MV (option (ValidatorId * Vote)) :=
  s ← get_state;
  if negb (bool_decide (cs_step s = Voted)) then mret None
  else
    mod_state (λ s, update_locked_qc s qc) ;;
    mod_state (λ s, update_highest_qc s qc) ;;
    may_sign ← (if 0 <? power_of (cs_validator_set s) (cs_validator_id s)
                then record_vote TVote2 (qc_block_hash qc) else mret false);
    if may_sign : bool then
      persist_vote TVote2 (cs_current_view s) (qc_block_hash qc) ;;
      vote ← make_vote TVote2 (qc_block_hash qc) vote_extension;
      next ← lift_res (next_leader (cs_validator_set s) (cs_current_view s));
      mod_state (λ s, set_step s SentVote2) ;;
      mret (Some (next, vote))
    else
      mod_state (λ s, set_step s SentVote2) ;; mret None.
End ViewProtocol.
