(* ===== verification/VoteSafety.v ===== *)
(** * Voting discipline of the view protocol

    The relation that every view-protocol function keeps between the world
    before and after it: views, locks, highest certificates and committed
    heights only grow, the trace only grows, and the votes signed so far stay
    consistent with the double-sign record (one block per view and vote type,
    each written and flushed to the persistence right before it is signed,
    nothing sent but signed votes, and no second-phase vote sent before a lock
    of its view is durable). *)

From S2P Require Import Prelude Types ValidatorSet Encoding Aggregate State BlockStore World Persist.
From S2P Require Import Pacemaker Commit ViewProtocol.

(** ** Monotone state *)

Record st_mono (s s' : ConsensusState) : Prop := {
  sm_view : cs_current_view s ≤ cs_current_view s';
  sm_locked : rank_le (cs_locked_qc s) (cs_locked_qc s');
  sm_highest : rank_le (cs_highest_qc s) (cs_highest_qc s');
  sm_height : cs_last_committed_height s ≤ cs_last_committed_height s';
  sm_id : cs_validator_id s' = cs_validator_id s;
  sm_chain : cs_chain_id_hash s' = cs_chain_id_hash s;
}.

#[global] Instance st_mono_preorder : PreOrder st_mono.
Proof.
  split.
  - intros s. split; done.
  - intros a b c [] []. split; first [lia|by etrans].
Qed.

Lemma update_highest_qc_mono s qc : st_mono s (update_highest_qc s qc).
Proof.
  pose proof (update_highest_qc_rank s qc) as [H _]. unfold update_highest_qc in *.
  destruct (dominated _ _); split; try done; simpl; lia.
Qed.

Lemma update_locked_qc_mono s qc : st_mono s (update_locked_qc s qc).
Proof.
  pose proof (update_locked_qc_rank s qc) as [H _]. unfold update_locked_qc in *.
  destruct (dominated _ _); split; try done; simpl; lia.
Qed.

Lemma update_locked_qc_view s qc :
  cs_current_view (update_locked_qc s qc) = cs_current_view s.
Proof. unfold update_locked_qc. by destruct (dominated _ _). Qed.

Lemma set_last_vote_mono s t x : st_mono s (set_last_vote s t x).
Proof. destruct t; split; try done; simpl; lia. Qed.

Lemma update_highest_qc_last_vote s qc t : last_vote (update_highest_qc s qc) t = last_vote s t.
Proof. unfold update_highest_qc. by destruct (dominated _ _), t. Qed.

Lemma update_locked_qc_last_vote s qc t : last_vote (update_locked_qc s qc) t = last_vote s t.
Proof. unfold update_locked_qc. by destruct (dominated _ _), t. Qed.

(** ** Signed and sent votes *)

Notation trace := (list Effect).

(** The vote whose signature the effect records. *)
Definition vote_signed_by (x : Effect) : option (VoteType * ViewNumber * BlockHash) :=
  match x with
  | ESign (PVote _ _ v _ h t _) => Some (t, v, h)
  | _ => None
  end.

Definition signed (tr : trace) (t : VoteType) (v : ViewNumber) (h : BlockHash) : Prop :=
  ∃ x, x ∈ tr ∧ vote_signed_by x = Some (t, v, h).

(** [vote] was signed by this node. *)
Definition vote_is_signed `{Blake3, Signer} (tr : trace) (vote : Vote) : Prop :=
  ∃ chain,
    let p := PVote chain (v_epoch vote) (v_view vote) (v_validator vote) (v_block_hash vote)
               (v_vote_type vote) (v_extension vote) in
    ESign p ∈ tr ∧ v_signature vote = sign (payload_bytes p).

(** The vote that the effect sends, if any. *)
Definition vote_sent_by (x : Effect) : option Vote :=
  match x with
  | ESendTo _ (VoteMsg v) | ESendTo _ (Vote2Msg v) => Some v
  | EBroadcast (VoteMsg v) | EBroadcast (Vote2Msg v) => Some v
  | _ => None
  end.

(** Effects that leave the saved votes and the saved lock alone. *)
Definition saves_nothing (x : Effect) : bool :=
  match x with ESaveLastVote _ _ _ | ESaveLockedQc _ => false | _ => true end.

(** An effect that neither signs nor sends a vote and saves neither a vote nor
    a lock. *)
Definition quiet (x : Effect) : Prop :=
  vote_signed_by x = None ∧ vote_sent_by x = None ∧ saves_nothing x = true.

(** At each position of the trace (most recent first), a signature on a vote
    directly follows the flushed record of that vote. *)
Fixpoint guarded (tr : trace) : Prop :=
  match tr with
  | [] => True
  | x :: rest =>
      guarded rest ∧
      match vote_signed_by x with
      | Some (t, v, h) => ∃ rest', rest = EPersistFlush :: ESaveLastVote t v h :: rest'
      | None => True
      end
  end.

(** Every vote that was sent had been signed before. *)
Fixpoint sent_signed `{Blake3, Signer} (tr : trace) : Prop :=
  match tr with
  | [] => True
  | x :: rest =>
      sent_signed rest ∧
      match vote_sent_by x with
      | Some vote => vote_is_signed rest vote
      | None => True
      end
  end.

(** A second-phase vote at [v] was sent. *)
Definition sent2 (tr : trace) (v : ViewNumber) : Prop :=
  ∃ x vote, x ∈ tr ∧ vote_sent_by x = Some vote ∧ v_vote_type vote = TVote2 ∧ v_view vote = v.

(** ** Saved votes and locks

    [p0] is what the process found on disk when it started. *)

Definition vote_le (o o' : option (ViewNumber * BlockHash)) : Prop :=
  match o' with Some (v, h) => may_follow o v h | None => o = None end.

#[global] Instance vote_le_preorder : PreOrder vote_le.
Proof.
  split.
  - intros [[v h]|]; simpl; [by right|done].
  - intros [[v h]|] [[v' h']|] [[v'' h'']|]; simpl; try done.
    intros [?|[-> ->]] [?|[-> ->]]; auto; left; lia.
Qed.

(** A lock of view at least [v]. *)
Definition lock_above (o : option QuorumCertificate) (v : ViewNumber) : Prop :=
  match o with Some q => v ≤ qc_view q | None => False end.

Lemma lock_above_mono o o' v : rank_le o o' → lock_above o v → lock_above o' v.
Proof. destruct o, o'; simpl; try done. lia. Qed.

Section Records.
Context (p0 : PersistentConsensusState).

Definition saved_vote (tr : trace) (t : VoteType) : option (ViewNumber * BlockHash) :=
  load_last_vote (written p0 tr) t.
Definition saved_lock (tr : trace) : option QuorumCertificate := load_locked_qc (written p0 tr).

(** [P] holds of the records whatever a crash now loses of them. *)
Definition secured (P : trace → Prop) (tr : trace) : Prop :=
  ∀ lost tr', tr = lost ++ tr' → EPersistFlush ∉ lost → P tr'.

(** Whatever a crash loses, the record of votes of type [t] is not below
    [(v, h)], and the lock not below [v]. *)
Definition vote_secured (tr : trace) (t : VoteType) (v : ViewNumber) (h : BlockHash) : Prop :=
  secured (λ tr, vote_le (Some (v, h)) (saved_vote tr t)) tr.
Definition lock_secured (tr : trace) (v : ViewNumber) : Prop :=
  secured (λ tr, lock_above (saved_lock tr) v) tr.

Lemma secured_now P tr : secured P tr → P tr.
Proof. intros Hs. apply (Hs [] tr); [done|apply not_elem_of_nil]. Qed.

Lemma secured_cons P x tr : P (x :: tr) → secured P tr → secured P (x :: tr).
Proof.
  intros Hx Hs [|y lost] tr' E Hl; simplify_eq/=; [done|].
  apply (Hs lost); [done|]. set_solver.
Qed.

Lemma secured_flush P tr : P (EPersistFlush :: tr) → secured P (EPersistFlush :: tr).
Proof.
  intros Hx [|y lost] tr' E Hl; simplify_eq/=; [done|]. exfalso. apply Hl. left.
Qed.

Lemma saved_vote_same x tr t : saves_nothing x = true → saved_vote (x :: tr) t = saved_vote tr t.
Proof. intros Hx. unfold saved_vote. cbn [written]. rewrite load_last_vote_effect. by destruct x. Qed.

Lemma saved_lock_same x tr : saves_nothing x = true → saved_lock (x :: tr) = saved_lock tr.
Proof. intros Hx. unfold saved_lock. cbn [written]. rewrite load_locked_qc_effect. by destruct x. Qed.

Lemma vote_secured_same x tr t v h :
  saves_nothing x = true → vote_secured tr t v h → vote_secured (x :: tr) t v h.
Proof. intros Hx Hs. apply secured_cons; [|done]. rewrite saved_vote_same by done. by apply secured_now in Hs. Qed.

Lemma lock_secured_same x tr v :
  saves_nothing x = true → lock_secured tr v → lock_secured (x :: tr) v.
Proof. intros Hx Hs. apply secured_cons; [|done]. rewrite saved_lock_same by done. by apply secured_now in Hs. Qed.
End Records.

(** ** The invariant of one node

    [past] is the trace of the node's earlier processes. *)

(** Whatever is lost, the records cover the votes signed and the locks the sent
    second-phase votes need. *)
Definition covered (p0 : PersistentConsensusState) (past : trace) (tr : trace) : Prop :=
  (∀ t v h, signed (tr ++ past) t v h → vote_secured p0 tr t v h) ∧
  (∀ v, sent2 (tr ++ past) v → lock_secured p0 tr v).

(** [P] has held at every moment so far. *)
Fixpoint always (P : trace → Prop) (tr : trace) : Prop :=
  P tr ∧ match tr with [] => True | _ :: rest => always P rest end.

Lemma always_now P tr : always P tr → P tr.
Proof. by destruct tr as [|x tr]; intros []. Qed.

Lemma always_app P es tr : always P (es ++ tr) → always P tr.
Proof. induction es as [|x es IH]; [done|]. intros [_ H]. auto. Qed.

(** The records of a node with a persistence. *)
Record durable_inv (p0 : PersistentConsensusState) (past : trace) (s : ConsensusState) (tr : trace)
    : Prop := {
  di_guarded : guarded tr;
  di_covered : always (covered p0 past) tr;
  di_lock : ∀ v, sent2 (tr ++ past) v → lock_above (cs_locked_qc s) v;
}.

Record vote_inv `{Blake3, Signer} (has_persistence : bool) (p0 : PersistentConsensusState)
    (past : trace) (s : ConsensusState) (tr : trace) : Prop := {
  vi_last : ∀ t v h, signed (tr ++ past) t v h → vote_le (Some (v, h)) (last_vote s t);
  vi_unique : ∀ t v h h', signed (tr ++ past) t v h → signed (tr ++ past) t v h' → h = h';
  vi_sent : sent_signed tr;
  vi_durable : has_persistence = true → durable_inv p0 past s tr;
}.

Lemma signed_cons x tr t v h :
  signed (x :: tr) t v h ↔ vote_signed_by x = Some (t, v, h) ∨ signed tr t v h.
Proof.
  unfold signed. split.
  - intros (y&[->|Hy]%elem_of_cons&E); [by left|right; by eauto].
  - intros [E|(y&Hy&E)]; [exists x|exists y]; (split; [|done]); [left|by right].
Qed.

Lemma sent2_cons x tr v :
  sent2 (x :: tr) v ↔
  (∃ vote, vote_sent_by x = Some vote ∧ v_vote_type vote = TVote2 ∧ v_view vote = v) ∨ sent2 tr v.
Proof.
  unfold sent2. split.
  - intros (y&vote&[->|Hy]%elem_of_cons&E); [left; by eauto|right; by eauto].
  - intros [(vote&E)|(y&vote&Hy&E)]; [exists x, vote|exists y, vote]; (split; [|done]);
      [left|by right].
Qed.

Section Discipline.
Context {St App : Type} `{!BlockStore St, !Application App}.
Context {B3 : Blake3} {Vf : Verifier} {Sg : Signer}.
Context (hp : bool) (p0 : PersistentConsensusState) (past : trace).
Implicit Types w : World St App.
Notation vote_inv := (vote_inv hp p0 past).
Notation durable_inv := (durable_inv p0 past).

(** The step relation kept by every function. *)
Record safe w w' : Prop := {
  sf_mono : st_mono (w_state w) (w_state w');
  sf_trace : ∃ es, w_trace w' = es ++ w_trace w;
  sf_inv : vote_inv (w_state w) (w_trace w) → vote_inv (w_state w') (w_trace w');
}.

#[global] Instance safe_preorder : PreOrder safe.
Proof.
  split.
  - intros w. split; [done|by exists []|done].
  - intros a b c [Hm [es Ht] Hi] [Hm' [es' Ht'] Hi']. split; [by etrans| |by auto].
    exists (es' ++ es). by rewrite Ht', Ht, app_assoc.
Qed.

(** One more effect: what it signs, sends and saves must be covered. *)
Lemma durable_inv_cons s x tr :
  (∀ t v h, vote_signed_by x = Some (t, v, h) →
     ∃ rest, tr = EPersistFlush :: ESaveLastVote t v h :: rest) →
  (∀ vote, vote_sent_by x = Some vote → v_vote_type vote = TVote2 →
     lock_above (cs_locked_qc s) (v_view vote) ∧ lock_secured p0 (x :: tr) (v_view vote)) →
  (∀ t v h, vote_secured p0 tr t v h → signed (tr ++ past) t v h → vote_secured p0 (x :: tr) t v h) →
  (∀ v, lock_above (cs_locked_qc s) v → lock_secured p0 tr v → lock_secured p0 (x :: tr) v) →
  saves_nothing x = true ∨ vote_signed_by x = None →
  durable_inv s tr → durable_inv s (x :: tr).
Proof.
  intros Hsig Hsent Hv Hl Hq [Hg Hc Hdl]. pose proof (always_now _ _ Hc) as [Hdv Hds]. split.
  - simpl. split; [done|]. destruct (vote_signed_by x) as [[[t v] h]|]; [by apply Hsig|done].
  - split; [|done]. split.
    + intros t v h [E|Hs]%signed_cons; [|by apply Hv, Hs; apply Hdv].
      destruct Hq as [Hq|Hq]; [|congruence]. destruct (Hsig _ _ _ E) as [rest ->].
      apply secured_cons; [|apply secured_flush]; rewrite !saved_vote_same by done;
        unfold saved_vote; cbn [written]; rewrite load_last_vote_effect, decide_True by done; by right.
    + intros v [(vote&E&Ht&<-)|Hs]%sent2_cons; [by apply Hsent|by apply Hl; auto].
  - intros v [(vote&E&Ht&<-)|Hs]%sent2_cons; [by apply Hsent|by apply Hdl].
Qed.

Lemma vote_inv_cons s x tr :
  vote_signed_by x = None → vote_sent_by x = None →
  (vote_inv s tr → durable_inv s tr → durable_inv s (x :: tr)) →
  vote_inv s tr → vote_inv s (x :: tr).
Proof.
  intros Hx Hs Hd Hi. pose proof Hi as [Hl Hu Hse Hdi]. split.
  - intros t v h [E|?]%signed_cons; [congruence|auto].
  - intros t v h h' [E|?]%signed_cons [E'|?]%signed_cons; try congruence. by eapply Hu.
  - simpl. by rewrite Hs.
  - intros Hp. auto.
Qed.

Lemma vote_inv_quiet s x tr : quiet x → vote_inv s tr → vote_inv s (x :: tr).
Proof.
  intros (Hx&Hs&Hn). apply vote_inv_cons; [done..|]. intros _. apply durable_inv_cons.
  - by rewrite Hx.
  - by rewrite Hs.
  - intros. by apply vote_secured_same.
  - intros. by apply lock_secured_same.
  - by left.
Qed.

Lemma vote_inv_state s s' tr :
  (∀ t, vote_le (last_vote s t) (last_vote s' t)) → rank_le (cs_locked_qc s) (cs_locked_qc s') →
  vote_inv s tr → vote_inv s' tr.
Proof.
  intros E Hle [Hl Hu Hse Hd]. split; try done.
  - intros t v h Hs. etrans; [by apply Hl|apply E].
  - intros Hp. destruct (Hd Hp) as [? ? Hdl]. split; try done.
    intros v Hv. eapply lock_above_mono; [done|]. by apply Hdl.
Qed.

(** ** Primitive operations *)

Lemma safe_same w w' : w_state w' = w_state w → w_trace w' = w_trace w → safe w w'.
Proof. intros Es Et. split; rewrite ?Es, ?Et; [done|by exists []|done]. Qed.

Lemma safe_emit w x : quiet x → safe w (w_emit w x).
Proof. intros Hx. split; simpl; [done|by exists [x]|by apply vote_inv_quiet]. Qed.

Lemma safe_set_state w s :
  st_mono (w_state w) s → (∀ t, last_vote s t = last_vote (w_state w) t) → safe w (w_set_state w s).
Proof.
  intros Hm Hl. split; simpl; [done|by exists []|].
  apply vote_inv_state; [intros t; by rewrite Hl|apply Hm].
Qed.

(** A vote is recorded, made durable, signed, and may then be sent. *)
Lemma vote_inv_record s tr t v h s' :
  check_and_record_vote s t v h = (s', true) → vote_inv s tr → vote_inv s' tr.
Proof.
  intros [Hf ->]%check_and_record_vote_true. apply vote_inv_state; [|by destruct t].
  intros t'. destruct (decide (t = t')) as [<-|Hne]; [by rewrite last_vote_set|].
  by rewrite last_vote_set_ne.
Qed.

Lemma vote_inv_save_vote s tr t v h :
  last_vote s t = Some (v, h) → vote_inv s tr → vote_inv s (ESaveLastVote t v h :: tr).
Proof.
  intros Hlast. apply vote_inv_cons; [done..|]. intros Hi. apply durable_inv_cons; try done.
  - intros t' v' h' Hs Hsig. apply secured_cons; [|done]. unfold saved_vote. cbn [written].
    rewrite load_last_vote_effect. destruct (decide (t = t')) as [<-|].
    + rewrite <- Hlast. by apply (vi_last _ _ _ _ _ Hi).
    + by apply secured_now in Hs.
  - intros v' _ Hs. apply secured_cons; [|done]. unfold saved_lock. cbn [written].
    rewrite load_locked_qc_effect. by apply secured_now in Hs.
  - by right.
Qed.

Lemma vote_inv_save_lock s tr q :
  cs_locked_qc s = Some q → vote_inv s tr → vote_inv s (ESaveLockedQc q :: tr).
Proof.
  intros Hlock. apply vote_inv_cons; [done..|]. intros Hi. apply durable_inv_cons; try done.
  - intros t' v' h' Hs Hsig. apply secured_cons; [|done]. unfold saved_vote. cbn [written].
    rewrite load_last_vote_effect. by apply secured_now in Hs.
  - intros v' Hv Hs. apply secured_cons; [|done]. unfold saved_lock. cbn [written].
    rewrite load_locked_qc_effect. by rewrite Hlock in Hv.
  - by right.
Qed.

Lemma vote_inv_sign s tr t v h c e id x :
  vote_inv s tr → last_vote s t = Some (v, h) →
  (hp = true → ∃ rest, tr = EPersistFlush :: ESaveLastVote t v h :: rest) →
  vote_inv s (ESign (PVote c e v id h t x) :: tr).
Proof.
  intros [Hl Hu Hs Hd] Hlast Hrec.
  assert (∀ h', signed (tr ++ past) t v h' → h' = h) as Hold.
  { intros h' Hh%Hl. rewrite Hlast in Hh. simpl in Hh. destruct Hh as [?|[_ ?]]; [lia|done]. }
  split.
  - intros t' v' h' [[= <- <- <-]|?]%signed_cons; [by rewrite Hlast|by apply Hl].
  - intros t' v' h1 h2 [E|Ha]%signed_cons [E'|Hb]%signed_cons; simplify_eq/=.
    + done.
    + symmetry. by apply Hold.
    + by apply Hold.
    + by eapply Hu.
  - done.
  - intros Hp. apply durable_inv_cons; try done; [|by intros; apply vote_secured_same
      |by intros; apply lock_secured_same|by left|auto].
    intros t' v' h' [= <- <- <-]. by apply Hrec.
Qed.

Lemma vote_is_signed_mono tr es vote : vote_is_signed tr vote → vote_is_signed (es ++ tr) vote.
Proof. intros (c&Hin&E). exists c. split; [set_solver|done]. Qed.

(** [vote] may be sent: it is signed and, for the second phase, a lock of its
    view is held and durable. *)
Definition sendable (s : ConsensusState) (tr : trace) (vote : Vote) : Prop :=
  vote_is_signed tr vote ∧
  (hp = true → v_vote_type vote = TVote2 →
     lock_above (cs_locked_qc s) (v_view vote) ∧ lock_secured p0 tr (v_view vote)).

Lemma vote_inv_send s tr x vote :
  vote_signed_by x = None → saves_nothing x = true → vote_sent_by x = Some vote →
  sendable s tr vote → vote_inv s tr → vote_inv s (x :: tr).
Proof.
  intros Hx Hn Hsx [Hsig Hlk] [Hl Hu Hs Hd]. split.
  - intros t v h [E|?]%signed_cons; [congruence|auto].
  - intros t v h h' [E|?]%signed_cons [E'|?]%signed_cons; try congruence. by eapply Hu.
  - simpl. rewrite Hsx. auto.
  - intros Hp. apply durable_inv_cons; [by rewrite Hx| |by intros; apply vote_secured_same
      |by intros; apply lock_secured_same|by left|auto].
    rewrite Hsx. intros v' [= <-] Ht. destruct (Hlk Hp Ht). split; [done|].
    by apply lock_secured_same.
Qed.

(** ** Computations *)

Section Computations.
Context {E : Type}.
Notation MV := (SM (World St App) E).

Lemma keeps_mod_store f : keeps safe (mod_store f : MV unit).
Proof. intros w. by apply safe_same. Qed.

Lemma keeps_call_app {A} (f : App → A * App) : keeps safe (call_app f : MV A).
Proof. intros w. unfold call_app. destruct (f (w_app w)). by apply safe_same. Qed.

Lemma keeps_read_clock c : keeps safe (read_clock c : MV N).
Proof. intros w. by apply safe_same. Qed.

Lemma keeps_emit x : quiet x → keeps safe (emit x : MV unit).
Proof. intros Hx w. by apply safe_emit. Qed.

Lemma keeps_mod_state f :
  (∀ s, st_mono s (f s)) → (∀ s t, last_vote (f s) t = last_vote s t) →
  keeps safe (mod_state f : MV unit).
Proof. intros Hm Hl w. by apply safe_set_state. Qed.

Lemma keeps_sign p : vote_signed_by (ESign p) = None → keeps safe (sign_payload p : MV Signature).
Proof. intros Hp w. by apply safe_emit. Qed.

Lemma keeps_get_state : keeps safe (get_state : MV _).
Proof. intros w. by apply safe_same. Qed.

Lemma keeps_get_store : keeps safe (get_store : MV _).
Proof. intros w. by apply safe_same. Qed.

(** The vote's record is on disk, if there is a persistence. *)
Definition durable w (t : VoteType) (v : ViewNumber) (h : BlockHash) : Prop :=
  hp = true → ∃ rest, w_trace w = EPersistFlush :: ESaveLastVote t v h :: rest.

Lemma persist_vote_spec t v h w :
  last_vote (w_state w) t = Some (v, h) →
  wp (persist_vote hp t v h : MV unit)
    (λ w' r, r = Ok () ∧ safe w w' ∧ w_state w' = w_state w ∧ w_store w' = w_store w ∧
       durable w' t v h) w.
Proof.
  intros Hl. unfold wp, persist_vote, durable. destruct hp; simpl; [|done].
  split_and!; try done; [|by eexists].
  split; simpl; [done|by eexists [_; _]|]. intros Hi.
  by apply vote_inv_quiet; [repeat split|]; apply vote_inv_save_vote.
Qed.

Lemma record_vote_spec t h w :
  wp (record_vote t h : MV bool)
    (λ w' r, safe w w' ∧ w_store w' = w_store w ∧ w_trace w' = w_trace w ∧
       ∃ ok, r = Ok ok ∧
         if ok : bool then
           may_follow (last_vote (w_state w) t) (cs_current_view (w_state w)) h ∧
           w_state w' = set_last_vote (w_state w) t (Some (cs_current_view (w_state w), h))
         else w_state w' = w_state w) w.
Proof.
  unfold record_vote. wp_steps.
  destruct (check_and_record_vote (w_state w) t (cs_current_view (w_state w)) h) as [s' ok] eqn:Hc.
  wp_steps. split_and!; try done.
  - split; simpl; [|by exists []|].
    + destruct ok; [apply check_and_record_vote_true in Hc as [_ ->]; apply set_last_vote_mono|].
      by apply check_and_record_vote_false in Hc as [-> _].
    + intros Hi. destruct ok; [by eapply vote_inv_record|].
      by apply check_and_record_vote_false in Hc as [-> _].
  - exists ok. split; [done|]. destruct ok; [by apply check_and_record_vote_true|].
    by apply check_and_record_vote_false in Hc as [-> _].
Qed.

(** Signing the recorded vote. *)
Lemma make_vote_spec t h x w :
  last_vote (w_state w) t = Some (cs_current_view (w_state w), h) →
  durable w t (cs_current_view (w_state w)) h →
  wp (make_vote t h x : MV Vote)
    (λ w' r, safe w w' ∧ w_state w' = w_state w ∧ w_store w' = w_store w ∧
       ∃ vote, r = Ok vote ∧ vote_is_signed (w_trace w') vote ∧
         v_epoch vote = e_number (cs_current_epoch (w_state w)) ∧
         v_block_hash vote = h ∧ v_view vote = cs_current_view (w_state w) ∧
         v_validator vote = cs_validator_id (w_state w) ∧
         v_vote_type vote = t ∧ v_extension vote = x) w.
Proof.
  intros Hl Hd. unfold make_vote. wp_steps. split_and!; try done.
  - split; simpl; [done|by eexists [_]|]. intros Hi.
    by apply vote_inv_sign.
  - eexists. split; [done|]. split; [|done]. exists (cs_chain_id_hash (w_state w)). simpl.
    split; [left|done].
Qed.

Lemma send_vote_safe w x vote :
  vote_signed_by x = None → saves_nothing x = true → vote_sent_by x = Some vote →
  sendable (w_state w) (w_trace w) vote → safe w (w_emit w x).
Proof.
  intros Hx Hn Hs Hsig. split; simpl; [done|by exists [x]|]. by apply vote_inv_send with vote.
Qed.
End Computations.
End Discipline.

#[export] Hint Resolve keeps_mod_store keeps_call_app keeps_read_clock keeps_get_state
  keeps_get_store : keeps.

(** Prove [keeps safe m] by following the structure of [m]; what remains are
    the state changes and emitted effects the rules do not know. *)
Ltac keeps_step :=
  lazymatch goal with
  | |- ∀ _, _ => intros
  | |- keeps _ (mret _) => apply keeps_ret; apply _
  | |- keeps _ (gets _) => apply keeps_gets; apply _
  | |- keeps _ get_w => apply keeps_get_w; apply _
  | |- keeps _ (throw _) => apply keeps_throw; apply _
  | |- keeps _ panic => apply keeps_panic; apply _
  | |- keeps _ (lift_res _) => apply keeps_lift_res; apply _
  | |- keeps _ get_state => apply keeps_get_state
  | |- keeps _ get_store => apply keeps_get_store
  | |- keeps _ (mod_store _) => apply keeps_mod_store
  | |- keeps _ (call_app _) => apply keeps_call_app
  | |- keeps _ (read_clock _) => apply keeps_read_clock
  | |- keeps _ (mbind _ _) => apply keeps_bind; [apply _|..]
  | |- keeps _ (when _ _) => apply keeps_when; [apply _|]
  | |- keeps _ (try_ _) => apply keeps_try
  | |- keeps _ (sign_payload _) => apply keeps_sign; reflexivity
  | |- keeps _ (emit _) => apply keeps_emit; repeat split
  | |- keeps _ (match ?x with _ => _ end) => destruct x
  end.

Ltac st_mono_solve := intros; split; simpl; try done; lia.
Ltac keeps_tac :=
  repeat keeps_step;
  try (apply keeps_mod_state; [st_mono_solve|by intros ? []]).

Section Functions.
Context {St App : Type} `{!BlockStore St, !Application App}.
Context {B3 : Blake3} {Vf : Verifier} {Sg : Signer}.
Context (hp : bool) (p0 : PersistentConsensusState) (past : trace).
Context (clock_ms : nat → N) (anc_fuel : nat).
Implicit Types w : World St App.
Notation safe := (safe hp p0 past).

Lemma keeps_update_highest {E} qc :
  keeps safe (mod_state (λ s, update_highest_qc s qc) : SM (World St App) E unit).
Proof.
  apply keeps_mod_state; intros; [apply update_highest_qc_mono|apply update_highest_qc_last_vote].
Qed.

Lemma keeps_update_locked {E} qc :
  keeps safe (mod_state (λ s, update_locked_qc s qc) : SM (World St App) E unit).
Proof.
  apply keeps_mod_state; intros; [apply update_locked_qc_mono|apply update_locked_qc_last_vote].
Qed.

(** ** Commit *)

Lemma execute_keeps b ctx : keeps safe (execute_committed_block (St := St) b ctx).
Proof.
  unfold execute_committed_block. apply keeps_bind; [apply _| |]; keeps_tac.
  apply keeps_for_each; [apply _|]. keeps_tac.
Qed.

Lemma commit_one_safe l b w :
  cs_last_committed_height (w_state w) ≤ b_height b →
  wp (commit_one l b)
    (λ w' r, safe w w' ∧ ∀ l', r = Ok l' → cs_last_committed_height (w_state w') = b_height b) w.
Proof.
  intros Hle. unfold commit_one. wp_steps.
  pose proof (execute_committed_block_spec (St := St) b
    (commit_context b (context_epoch (activate_pending l (b_view b)) (b_view b))) w) as Hx.
  pose proof (execute_keeps b
    (commit_context b (context_epoch (activate_pending l (b_view b)) (b_view b))) w) as Hk.
  unfold wp in *. destruct (execute_committed_block b _ w) as [w1 [resp|e|]]; simpl in *; [|done..].
  destruct Hx as (Hs&_). wp_steps.
  assert (safe w1 (w_set_state w1 (set_last_committed_height (w_state w1) (b_height b)))) as Hset.
  { apply safe_set_state; [|by intros []]. rewrite Hs. split; simpl; try done; lia. }
  destruct (bool_decide _); simpl; wp_steps.
  - split; [by etrans|]. done.
  - destruct (chained_pending_epoch _ _ _ _ _); simpl; [|done..]. split; [by etrans|]. done.
Qed.

Lemma commit_loop_safe l blocks w n :
  b_height <$> blocks = seqN n (N.of_nat (length blocks)) →
  cs_last_committed_height (w_state w) ≤ n →
  wp (commit_loop l blocks) (λ w' _, safe w w') w.
Proof.
  revert l w n. induction blocks as [|b blocks IH]; intros l w n Hh Hn; cbn [commit_loop]; wp_steps.
  { done. }
  cbn [length] in Hh. rewrite Nat2N.inj_succ, <- N.add_1_l, seqN_app in Hh. csimpl in Hh.
  replace (seqN n 1) with [n] in Hh by (unfold seqN; simpl; by rewrite N.add_0_r).
  injection Hh as Hb Hh. eapply wp_mono; [apply commit_one_safe; lia|].
  intros w1 [l'|e|] [Hs Hl]; [|done..].
  eapply wp_mono; [apply (IH l' w1 (n + 1))|].
  - done.
  - rewrite (Hl l') by done. lia.
  - intros w2 r Hs2. by etrans.
Qed.

Lemma try_commit_keeps dc cur prev pend : keeps safe (try_commit (St := St) (App := App) dc cur prev pend).
Proof.
  intros w. apply (wp_fst (λ w', safe w w')). unfold try_commit. wp_steps.
  destruct (get_block (w_store w) (qc_block_hash (dc_inner_qc dc))) as [cb|]; cbn [ok_or]; [|done].
  destruct (N.leb_spec (b_height cb) (cs_last_committed_height (w_state w))); wp_steps; [done|].
  destruct (collect_chain _ _ _ _ _) as [l|e|] eqn:Hc; cbv beta iota; [|done..].
  apply collect_chain_Ok in Hc as (rest&->&Hd). wp_steps.
  eapply wp_mono; [eapply commit_loop_safe; [apply (ac_heights _ _ _ (desc_asc _ _ _ Hd))|lia]|].
  cbv beta. intros w1 [r|e|] Hs; wp_steps; done.
Qed.

(** ** Entering a view *)

Lemma send_status_keeps view : keeps safe (send_status (St := St) (App := App) view).
Proof. unfold send_status. keeps_tac. Qed.

Lemma settle_keeps b m : keeps safe m → keeps safe (settle (St := St) (App := App) b m).
Proof. intros Hm. unfold settle. destruct b; keeps_tac. done. Qed.

Lemma enter_view_safe view trigger w :
  (trigger = TrGenesis → cs_current_view (w_state w) ≤ view) →
  safe w (enter_view (St := St) (App := App) view trigger w).1.
Proof.
  intros Hg. apply (wp_fst (λ w', safe w w')). unfold enter_view. wp_steps.
  match goal with |- wp (if ?b then _ else _) _ _ => destruct b eqn:Hb end; wp_steps; [done|].
  assert (cs_current_view (w_state w) ≤ view) as Hle.
  { destruct trigger; simpl in Hb; bool_prop; try lia. by apply Hg. }
  set (w2 := w_set_state _ _).
  assert (safe w w2) as H2.
  { apply (safe_set_state hp p0 past w (w_state w2)); [split; simpl; try done; lia|by intros []]. }
  assert (∀ E A (m : SM (World St App) E A), keeps safe m → wp m (λ w' _, safe w w') w2) as Hk.
  { intros E A m Hm. unfold wp. etrans; [apply H2|]. apply Hm. }
  destruct trigger as [dc|tc|]; apply Hk.
  - keeps_tac.
    + apply keeps_update_highest.
    + apply settle_keeps, send_status_keeps.
  - apply keeps_bind; [apply _| |intros; apply settle_keeps, send_status_keeps].
    destruct (tc_highest_qc tc); keeps_tac.
    apply keeps_update_highest.
  - apply settle_keeps. keeps_tac.
Qed.

Lemma enter_view_safe_wp view trigger w :
  (trigger = TrGenesis → cs_current_view (w_state w) ≤ view) →
  wp (enter_view (St := St) (App := App) view trigger) (λ w' _, safe w w') w.
Proof. apply enter_view_safe. Qed.

(** ** Proposing *)

Lemma propose_keeps ev epochs : keeps safe (propose (St := St) (App := App) clock_ms anc_fuel ev epochs).
Proof. unfold propose. keeps_tac. Qed.

(** ** Voting *)

Lemma vote_for_keeps b : keeps safe (vote_for (St := St) (App := App) hp b).
Proof.
  intros w. apply (wp_fst (λ w', safe w w')). unfold vote_for. wp_steps.
  destruct (0 <? power_of _ _); [|by wp_steps].
  eapply wp_mono; [apply record_vote_spec|]. cbv beta.
  intros w1 r (H1&_&_&ok&->&Hok). wp_steps; [|done]. subst ok. destruct Hok as [_ Hs1].
  eapply wp_mono; [apply persist_vote_spec; rewrite Hs1; apply last_vote_set|].
  cbv beta. intros w2 r (->&H2&Hs2&_&Hd).
  wp_steps. eapply wp_mono; [apply (make_vote_spec hp)|].
  - rewrite Hs2, Hs1. by destruct (w_state w).
  - rewrite Hs2, Hs1. by destruct (w_state w).
  - cbv beta. intros w3 r (H3&Hs3&_&vote&->&Hsig&_&_&_&_&Ht&_).
    assert (safe w w3) as H03 by (etrans; [done|]; by etrans). wp_steps.
    destruct (leader_for_view _ _); simpl; [|done]. wp_steps.
    etrans; [done|]. eapply send_vote_safe; try done. split; [done|]. by rewrite Ht.
Qed.

Lemma fast_forward_keeps dc epochs : keeps safe (fast_forward (St := St) (App := App) dc epochs).
Proof. unfold fast_forward. keeps_tac. apply try_commit_keeps. Qed.

Lemma on_proposal_keeps p epochs :
  keeps safe (on_proposal (St := St) (App := App) hp clock_ms p epochs).
Proof.
  unfold on_proposal. keeps_tac.
  - apply keeps_update_highest.
  - apply fast_forward_keeps.
  - apply vote_for_keeps.
Qed.

Lemma on_votes_collected_keeps qc : keeps safe (on_votes_collected (St := St) (App := App) qc).
Proof.
  unfold on_votes_collected. keeps_tac.
  apply keeps_update_highest.
Qed.

Lemma on_prepare_safe qc x w :
  wp (on_prepare (St := St) (App := App) hp qc x)
    (λ w' r, safe w w' ∧
       ∀ to vote, r = Ok (Some (to, vote)) →
         vote_is_signed (w_trace w') vote ∧ v_view vote = cs_current_view (w_state w) ∧
         rank_le (Some qc) (cs_locked_qc (w_state w'))) w.
Proof.
  unfold on_prepare. wp_steps. case_bool_decide; simpl; wp_steps; [|done].
  set (w2 := w_set_state (w_set_state _ _) _).
  assert (safe w w2) as H2.
  { apply (safe_set_state hp p0 past w (w_state w2)); simpl.
    - etrans; [apply update_locked_qc_mono|apply update_highest_qc_mono].
    - intros t. by rewrite update_highest_qc_last_vote, update_locked_qc_last_vote. }
  assert (cs_current_view (w_state w2) = cs_current_view (w_state w) ∧
          rank_le (Some qc) (cs_locked_qc (w_state w2))) as [Hv2 Hl2].
  { pose proof (update_locked_qc_rank (w_state w) qc) as [_ Hr]. simpl. revert Hr.
    generalize (update_locked_qc (w_state w) qc) as s, (update_locked_qc_view (w_state w) qc).
    intros s E Hr. unfold update_highest_qc. by case_match. }
  destruct (0 <? power_of _ _); wp_steps.
  2: { split; [|done]. etrans; [done|]. apply safe_set_state; [st_mono_solve|by intros []]. }
  eapply wp_mono; [apply record_vote_spec|]. cbv beta. intros w3 r (H3&_&_&ok&->&Hok).
  destruct ok; wp_steps.
  2: { split; [|done]. etrans; [done|]. etrans; [done|].
       apply safe_set_state; [st_mono_solve|by intros []]. }
  destruct Hok as [_ Hs3].
  eapply wp_mono; [apply persist_vote_spec; rewrite Hs3, <- Hv2; apply last_vote_set|].
  cbv beta. intros w4 r (->&H4&Hs4&_&Hd).
  assert (cs_current_view (w_state w4) = cs_current_view (w_state w)) as Hv4.
  { rewrite Hs4, Hs3, <- Hv2. by destruct (w_state w2). }
  wp_steps. eapply wp_mono; [apply (make_vote_spec hp)|].
  - rewrite Hv4, Hs4, Hs3, Hv2. by destruct (w_state w2).
  - by rewrite Hv4.
  - cbv beta. intros w5 r (H5&Hs5&_&vote&->&Hsig&_&_&Hv&_).
    assert (safe w w5) as H05 by (etrans; [done|]; etrans; [done|]; by etrans). wp_steps.
    destruct (next_leader _ _) as [next|e|]; [|done..]. wp_steps. split.
    + etrans; [done|]. apply safe_set_state; [st_mono_solve|by intros []].
    + intros to vote' [= <- <-]. split_and!; [done|by rewrite Hv, Hv4|].
      simpl. by rewrite Hs5, Hs4, Hs3.
Qed.

Lemma build_wish_keeps {E} c ep v id q :
  keeps safe (build_wish (St := St) (App := App) (E := E) c ep v id q).
Proof. unfold build_wish. keeps_tac. Qed.
End Functions.
