(* ===== verification/Voting.v ===== *)
(** * Two-phase voting in the abstract

    What the votes of the honest validators obey, as a step relation over the
    votes signed so far: a first-phase vote extends a certified block and
    respects the voter's second-phase votes, a second-phase vote has a
    first-phase certificate of its view, and no validator votes below a view it
    has voted in.  Two blocks with second-phase certificates then lie on one
    chain.  The engines refine this relation in [NodeSafety]. *)

From S2P Require Import Prelude Types ValidatorSet Encoding State.

Notation ballot := (VoteType * ViewNumber * BlockHash)%type.

(** The validators, those that may be faulty, and the blocks that occur; the
    hashes of the latter identify them. *)
Class Setting : Type := {
  vset : ValidatorSet;
  byz : ValidatorId → bool;
  occurs : Block → Prop;
  vset_wf : vs_wf vset;
  byz_bounded : power_where byz (vs_validators vset) ≤ max_faulty_power vset;
  occurs_inj : ∀ b b', occurs b → occurs b' → b_hash b = b_hash b' → b = b';
  occurs_genesis : occurs Block_genesis;
}.

Section Voting.
Context {Se : Setting}.

(** ** Certificates *)

Notation ballots := (gmap ValidatorId (list ballot)).
Implicit Types σ : ballots.

Definition votes σ (j : ValidatorId) : list ballot := default [] (σ !! j).

Definition voted σ (j : ValidatorId) (x : ballot) : bool :=
  byz j || bool_decide (x ∈ votes σ j).

Definition quorum (f : ValidatorId → bool) : Prop :=
  quorum_threshold vset ≤ power_where f (vs_validators vset).

(** A quorum whose honest members have voted so. *)
Definition cert σ (t : VoteType) (v : ViewNumber) (h : BlockHash) : Prop :=
  quorum (λ j, voted σ j (t, v, h)).

Lemma quorum_meet f g :
  quorum f → quorum g → ∃ j, f j = true ∧ g j = true ∧ byz j = false.
Proof.
  intros Hf Hg. destruct (quorum_intersection vset f g byz vset_wf Hf Hg byz_bounded) as (v&_&?&?&?&_). eauto.
Qed.

Lemma cert_meet σ t v h t' v' h' :
  cert σ t v h → cert σ t' v' h' →
  ∃ j, byz j = false ∧ (t, v, h) ∈ votes σ j ∧ (t', v', h') ∈ votes σ j.
Proof.
  intros Hc Hc'. destruct (quorum_meet _ _ Hc Hc') as (j&Hj&Hj'&Hb).
  unfold voted in *. rewrite Hb in *. simpl in *. bool_prop. eauto.
Qed.

Lemma cert_honest σ t v h : cert σ t v h → ∃ j, byz j = false ∧ (t, v, h) ∈ votes σ j.
Proof. intros Hc. destruct (cert_meet _ _ _ _ _ _ _ Hc Hc) as (j&?&?&_). eauto. Qed.

(** ** Growth *)

Definition grows σ σ' : Prop := ∀ j x, x ∈ votes σ j → x ∈ votes σ' j.

#[global] Instance grows_preorder : PreOrder grows.
Proof. split; [by intros σ j x|]. intros a b c H1 H2 j x Hx. by apply H2, H1. Qed.

Lemma quorum_mono f g : (∀ j, f j = true → g j = true) → quorum f → quorum g.
Proof. unfold quorum. intros H Hf. etrans; [exact Hf|]. apply power_where_mono. auto. Qed.

Lemma cert_mono σ σ' t v h : grows σ σ' → cert σ t v h → cert σ' t v h.
Proof.
  intros Hg. apply quorum_mono. unfold voted. intros j. rewrite !orb_true_iff, !bool_decide_eq_true.
  intros [?|?]; [by left|right]. by apply Hg.
Qed.

(** ** Blocks *)

Record parent (b p : Block) : Prop := {
  pa_block : occurs b;
  pa_parent : occurs p;
  pa_hash : b_parent_hash b = b_hash p;
  pa_height : b_height b = b_height p + 1;
}.

Definition extends : Block → Block → Prop := rtc parent.

Lemma parent_unique b p p' : parent b p → parent b p' → p = p'.
Proof. intros [_ Hp E _] [_ Hp' E' _]. apply occurs_inj; congruence. Qed.

Lemma extends_height b a : extends b a → b_height a ≤ b_height b.
Proof. induction 1 as [|b p a [_ _ _ Hh] _ IH]; lia. Qed.

Lemma extends_linear b a c : extends b a → extends b c → extends a c ∨ extends c a.
Proof.
  intros Ha. revert c. induction Ha as [b|b p a Hp Ha IH]; intros c Hc; [by left|].
  destruct Hc as [|b p' c Hp' Hc]; [right; by eapply rtc_l|].
  rewrite (parent_unique b p' p) in Hc by done. by apply IH.
Qed.

Lemma extends_same_height b a : extends b a → b_height a = b_height b → a = b.
Proof.
  intros He Hh. destruct He as [|b p a [_ _ _ Hp] He]; [done|].
  apply extends_height in He. lia.
Qed.

(** The blocks at one height of a chain are one block. *)
Lemma extends_level b a c :
  extends b a → extends b c → b_height a = b_height c → a = c.
Proof.
  intros Ha Hc E. destruct (extends_linear b a c Ha Hc) as [H|H].
  - symmetry. by apply extends_same_height.
  - by apply extends_same_height.
Qed.

(** ** The voting rules *)

(** [p] is what a vote may extend: the genesis block or a certified one. *)
Definition certified σ (p : Block) : Prop :=
  p = Block_genesis ∨ cert σ TVote (b_view p) (b_hash p).

Definition add_ballot σ (j : ValidatorId) (x : ballot) : ballots := <[j := x :: votes σ j]> σ.

Inductive vote_step σ : ballots → Prop :=
| vote_first j b p :
    byz j = false → parent b p → 0 < b_view b → certified σ p →
    (∀ v h, (TVote, v, h) ∈ votes σ j → v < b_view b ∨ v = b_view b ∧ h = b_hash b) →
    (∀ v h, (TVote2, v, h) ∈ votes σ j → v ≤ b_view b ∧ v ≤ b_view p) →
    vote_step σ (add_ballot σ j (TVote, b_view b, b_hash b))
| vote_second j v h :
    byz j = false → 0 < v → cert σ TVote v h →
    (∀ t v' h', (t, v', h') ∈ votes σ j → v' ≤ v) →
    vote_step σ (add_ballot σ j (TVote2, v, h)).

(** Reachable from a state without votes. *)
Definition reachable σ : Prop := ∃ σ0, (∀ j, votes σ0 j = []) ∧ rtc vote_step σ0 σ.

Lemma reachable_empty σ : (∀ j, votes σ j = []) → reachable σ.
Proof. intros H. exists σ. split; [done|apply rtc_refl]. Qed.

Lemma reachable_step σ σ' : reachable σ → vote_step σ σ' → reachable σ'.
Proof. intros (σ0&?&?) ?. exists σ0. split; [done|]. by eapply rtc_r. Qed.

Lemma votes_add σ j x k y :
  y ∈ votes (add_ballot σ j x) k ↔ (k = j ∧ y = x) ∨ y ∈ votes σ k.
Proof.
  unfold add_ballot. unfold votes at 1. destruct (decide (k = j)) as [->|Hne].
  - rewrite lookup_insert_eq. simpl. rewrite elem_of_cons. naive_solver.
  - rewrite lookup_insert_ne by done. naive_solver.
Qed.

Lemma add_grows σ j x : grows σ (add_ballot σ j x).
Proof. intros k y Hy. apply votes_add. by right. Qed.

Lemma vote_step_grows σ σ' : vote_step σ σ' → grows σ σ'.
Proof. intros []; apply add_grows. Qed.

Lemma certified_mono σ σ' p : grows σ σ' → certified σ p → certified σ' p.
Proof. intros Hg [->|Hc]; [by left|right]. by eapply cert_mono. Qed.

(** ** The invariant *)

(** [v, h] may still get a first-phase certificate: a quorum has voted so or
    not yet voted at [v] or above. *)
Definition open σ (v : ViewNumber) (j : ValidatorId) : Prop :=
  Forall (λ x : ballot, x.1.1 = TVote → x.1.2 < v) (votes σ j).

#[local] Instance open_dec σ v j : Decision (open σ v j).
Proof. unfold open. apply _. Defined.

Definition possible σ (v : ViewNumber) (h : BlockHash) : Prop :=
  quorum (λ j, voted σ j (TVote, v, h) || bool_decide (open σ v j)).

Record voting_inv σ : Prop := {
  vo_first : ∀ j v h, byz j = false → (TVote, v, h) ∈ votes σ j →
    ∃ b p, b_hash b = h ∧ b_view b = v ∧ 0 < v ∧ parent b p ∧ certified σ p ∧
      (b_view p < v ∨ ¬ possible σ v h) ∧
      ∀ v2 h2, (TVote2, v2, h2) ∈ votes σ j → v2 < v → v2 ≤ b_view p;
  vo_unique : ∀ j v h h', byz j = false →
    (TVote, v, h) ∈ votes σ j → (TVote, v, h') ∈ votes σ j → h = h';
  vo_second : ∀ j v h, byz j = false → (TVote2, v, h) ∈ votes σ j → 0 < v ∧ cert σ TVote v h;
}.

Lemma open_spec σ v j : open σ v j ↔ ∀ v' h', (TVote, v', h') ∈ votes σ j → v' < v.
Proof.
  unfold open. rewrite Forall_forall. split; [intros H v' h' Hx; by apply (H _ Hx)|].
  intros H [[t v'] h'] Hx. simpl. intros ->. by eapply H.
Qed.

Lemma cert_possible σ v h : cert σ TVote v h → possible σ v h.
Proof. apply quorum_mono. intros j ->. done. Qed.

(** A certificate's block, known to the honest voters. *)
Lemma cert_block σ v h :
  voting_inv σ → cert σ TVote v h →
  ∃ b p, b_hash b = h ∧ b_view b = v ∧ 0 < v ∧ parent b p ∧ certified σ p ∧ b_view p < v.
Proof.
  intros Hi Hc. destruct (cert_honest _ _ _ _ Hc) as (j&Hj&Hv).
  destruct (vo_first _ Hi j v h Hj Hv) as (b&p&?&?&?&?&?&[?|Hn]&_); [by eauto 10|].
  by apply cert_possible in Hc.
Qed.

Lemma certified_view σ p : voting_inv σ → certified σ p → p = Block_genesis ∨ 0 < b_view p.
Proof.
  intros Hi [->|Hc]; [by left|right]. by destruct (cert_block _ _ _ Hi Hc) as (?&?&_&_&?&_).
Qed.

Lemma cert_unique σ v h h' : voting_inv σ → cert σ TVote v h → cert σ TVote v h' → h = h'.
Proof.
  intros Hi Hc Hc'. destruct (cert_meet _ _ _ _ _ _ _ Hc Hc') as (j&Hj&?&?).
  by eapply (vo_unique _ Hi j).
Qed.

(** ** Preservation *)

Lemma possible_step σ σ' v h : vote_step σ σ' → possible σ' v h → possible σ v h.
Proof.
  intros Hs. apply quorum_mono. intros k. unfold voted.
  rewrite !orb_true_iff, !bool_decide_eq_true, !open_spec.
  assert (∀ x, x ∈ votes σ k → x ∈ votes σ' k) as Hg by (intros x; by apply (vote_step_grows _ _ Hs)).
  intros [[Hb|Hv]|Ho]; [by auto| |right; intros v' h' Hx; by apply (Ho v' h'), Hg].
  destruct Hs as [j b p Hj Hp Hv0 Hcp Hmono Hlock|j w x Hj Hw Hcx Hmono].
  - apply votes_add in Hv as [[-> [= -> ->]]|Hv]; [|by auto].
    destruct (decide ((TVote, b_view b, b_hash b) ∈ votes σ j)) as [|Hn]; [by auto|].
    right. intros v' h' Hx. destruct (Hmono v' h' Hx) as [|[-> ->]]; [done|done].
  - apply votes_add in Hv as [[-> [=]]|Hv]. by auto.
Qed.

(** No certificate can form for a block whose parent is not of an earlier view:
    the parent's voters are past that view. *)
Lemma late_parent_impossible σ b p :
  voting_inv σ → parent b p → certified σ p → b_view b ≤ b_view p → 0 < b_view b →
  (∀ j, byz j = false → (TVote, b_view b, b_hash b) ∉ votes σ j) →
  ¬ possible σ (b_view b) (b_hash b).
Proof.
  intros Hi Hp Hcp Hle Hpos Hnone Hposs.
  destruct Hcp as [->|Hc]; [simpl in Hle; lia|].
  destruct (quorum_meet _ _ Hposs Hc) as (j&Hj&Hv&Hb). unfold voted in *. rewrite Hb in *.
  simpl in *. apply bool_decide_eq_true in Hv. apply orb_true_iff in Hj as [Hj|Hj]; bool_prop.
  - by apply (Hnone j).
  - rewrite open_spec in Hj. apply Hj in Hv. lia.
Qed.

Lemma vote_first_inv σ j b p :
  voting_inv σ → byz j = false → parent b p → 0 < b_view b → certified σ p →
  (∀ v h, (TVote, v, h) ∈ votes σ j → v < b_view b ∨ v = b_view b ∧ h = b_hash b) →
  (∀ v h, (TVote2, v, h) ∈ votes σ j → v ≤ b_view b ∧ v ≤ b_view p) →
  voting_inv (add_ballot σ j (TVote, b_view b, b_hash b)).
Proof.
  intros Hi Hj Hp Hpos Hcp Hmono Hlock.
  assert (vote_step σ (add_ballot σ j (TVote, b_view b, b_hash b))) as Hs by by eapply vote_first.
  pose proof (vote_step_grows _ _ Hs) as Hg. split.
  - intros k v h Hk [[-> [= -> ->]]|Hv]%votes_add.
    + exists b, p. split_and!; try done; [by eapply certified_mono| |].
      * destruct (N.lt_ge_cases (b_view p) (b_view b)) as [|Hle]; [by left|right].
        intros Hposs%(possible_step _ _ _ _ Hs).
        assert (∃ k, byz k = false ∧ (TVote, b_view b, b_hash b) ∈ votes σ k ∨
                ∀ k, byz k = false → (TVote, b_view b, b_hash b) ∉ votes σ k) as Hdec.
        { destruct (decide (Exists (λ k, byz k = false ∧ (TVote, b_view b, b_hash b) ∈ votes σ k)
                      (map_to_list σ).*1)) as [He|He].
          - apply Exists_exists in He as (k&_&He). by exists k; left.
          - exists j. right. intros k Hk' Hin. apply He, Exists_exists. exists k. split; [|done].
            unfold votes in Hin. destruct (σ !! k) as [l|] eqn:E; [|by apply not_elem_of_nil in Hin].
            apply list_elem_of_fmap. exists (k, l). split; [done|]. by apply elem_of_map_to_list. }
        destruct Hdec as [k [[Hk' Hin]|Hnone]].
        -- destruct (vo_first _ Hi k _ _ Hk' Hin) as (b'&p'&Eh&Ev&_&Hp'&_&[Hlt|Hn]&_); [|done].
           assert (b' = b) as -> by (apply occurs_inj; [apply Hp'|apply Hp|done]).
           rewrite (parent_unique b p p') in Hle by done. lia.
        -- by apply (late_parent_impossible σ b p).
      * intros v2 h2 [[_ [=]]|Hv2]%votes_add _. by apply (Hlock v2 h2).
    + destruct (vo_first _ Hi k v h Hk Hv) as (b'&p'&?&?&?&?&?&Hlt&Hl).
      exists b', p'. split_and!; try done; [by eapply certified_mono| |].
      * destruct Hlt as [|Hn]; [by left|right]. by intros ?%(possible_step _ _ _ _ Hs).
      * intros v2 h2 [[_ [=]]|Hv2]%votes_add. by apply Hl with h2.
  - intros k v h h' Hk [[E1 E2]|Hv]%votes_add [[E3 E4]|Hv']%votes_add; simplify_eq; [done| | |].
    + destruct (Hmono _ _ Hv') as [?|[_ ?]]; [lia|done].
    + destruct (Hmono _ _ Hv) as [?|[_ ?]]; [lia|done].
    + by eapply (vo_unique _ Hi k).
  - intros k v h Hk [[_ [=]]|Hv]%votes_add. destruct (vo_second _ Hi k v h Hk Hv) as [? Hc].
    split; [done|]. by eapply cert_mono.
Qed.

Lemma vote_second_inv σ j v h :
  voting_inv σ → byz j = false → 0 < v → cert σ TVote v h →
  (∀ t v' h', (t, v', h') ∈ votes σ j → v' ≤ v) →
  voting_inv (add_ballot σ j (TVote2, v, h)).
Proof.
  intros Hi Hj Hpos Hc Hmono.
  assert (vote_step σ (add_ballot σ j (TVote2, v, h))) as Hs by by eapply vote_second.
  pose proof (vote_step_grows _ _ Hs) as Hg. split.
  - intros k v' h' Hk [[_ [=]]|Hv]%votes_add.
    destruct (vo_first _ Hi k v' h' Hk Hv) as (b'&p'&?&?&?&?&?&Hlt&Hl).
    exists b', p'. split_and!; try done; [by eapply certified_mono| |].
    + destruct Hlt as [|Hn]; [by left|right]. by intros ?%(possible_step _ _ _ _ Hs).
    + intros v2 h2 [[-> [= -> ->]]|Hv2]%votes_add Hlt2; [|by apply Hl with h2].
      apply Hmono in Hv. lia.
  - intros k v' h1 h2 Hk [[_ [=]]|?]%votes_add [[_ [=]]|?]%votes_add. by eapply (vo_unique _ Hi k).
  - intros k v' h' Hk [[-> [= -> ->]]|Hv]%votes_add.
    + split; [done|]. by eapply cert_mono.
    + destruct (vo_second _ Hi k v' h' Hk Hv) as [? Hc']. split; [done|]. by eapply cert_mono.
Qed.

Lemma reachable_inv σ : reachable σ → voting_inv σ.
Proof.
  assert (∀ σ1 σ2, rtc vote_step σ1 σ2 → voting_inv σ1 → voting_inv σ2) as Hr.
  { induction 1 as [|σ1 σ2 σ3 Hs _ IH]; [done|]. intros Hi. apply IH.
    destruct Hs; [by eapply vote_first_inv|by eapply vote_second_inv]. }
  intros (σ0&E&H). apply (Hr σ0 σ H).
  split; intros j v h; rewrite E; intros; exfalso; eapply not_elem_of_nil; done.
Qed.

(** ** Agreement *)

Lemma cert2_cert σ v h : voting_inv σ → cert σ TVote2 v h → 0 < v ∧ cert σ TVote v h.
Proof.
  intros Hi Hc. destruct (cert_honest _ _ _ _ Hc) as (j&Hj&Hv). by apply (vo_second _ Hi j).
Qed.

(** Every block certified at or above the view of a second-phase certificate
    extends its block. *)
Lemma certified_extends σ v b v' b' :
  voting_inv σ → occurs b → occurs b' →
  cert σ TVote2 v (b_hash b) → cert σ TVote v' (b_hash b') → v ≤ v' → extends b' b.
Proof.
  intros Hi Hb. revert b'. induction (N.lt_wf_0 v') as [v' _ IH]. intros b' Hb' Hc2 Hc Hle.
  destruct (cert2_cert _ _ _ Hi Hc2) as [Hpos Hc1].
  destruct (decide (v = v')) as [<-|Hne].
  { rewrite (occurs_inj b' b); [apply rtc_refl|done..|]. by eapply cert_unique. }
  destruct (cert_meet _ _ _ _ _ _ _ Hc2 Hc) as (j&Hj&Hv2&Hv1).
  destruct (vo_first _ Hi j v' _ Hj Hv1) as (b1&p&Eh&Ev&_&Hp&Hcp&Hlt&Hl).
  assert (b1 = b') as -> by (apply occurs_inj; [apply Hp|done..]).
  assert (b_view p < v') as Hpv.
  { destruct Hlt as [|Hn]; [done|]. by apply cert_possible in Hc. }
  assert (v ≤ b_view p) as Hvp by (apply (Hl v (b_hash b)); [done|lia]).
  destruct Hcp as [->|Hcp]; [simpl in Hvp; lia|].
  eapply rtc_l; [exact Hp|]. apply (IH (b_view p)); [done|apply Hp|done..].
Qed.

(** The blocks of two second-phase certificates lie on one chain. *)
Lemma double_certified_chain σ v b v' b' :
  reachable σ → occurs b → occurs b' →
  cert σ TVote2 v (b_hash b) → cert σ TVote2 v' (b_hash b') → extends b b' ∨ extends b' b.
Proof.
  intros Hi%reachable_inv Hb Hb' Hc Hc'.
  destruct (cert2_cert _ _ _ Hi Hc) as [_ H1], (cert2_cert _ _ _ Hi Hc') as [_ H1'].
  destruct (N.le_ge_cases v v'); [right|left]; by eapply certified_extends.
Qed.

(** Ancestors of double-certified blocks at one height are one block. *)
Lemma double_certified_agree σ v b v' b' a a' :
  reachable σ → occurs b → occurs b' →
  cert σ TVote2 v (b_hash b) → cert σ TVote2 v' (b_hash b') →
  extends b a → extends b' a' → b_height a = b_height a' → a = a'.
Proof.
  intros Hr Hb Hb' Hc Hc' Ha Ha' E.
  destruct (double_certified_chain _ _ _ _ _ Hr Hb Hb' Hc Hc') as [H|H].
  - apply (extends_level b); [done| |done]. by etrans.
  - apply (extends_level b'); [|done..]. by etrans.
Qed.
End Voting.
