(* ===== verification/NodeSafety.v ===== *)
(** * The view protocol refines the voting rules

    One honest node against the votes of the others: every function of the view
    protocol keeps an invariant under which each vote the node signs is a step
    of [Voting.vote_step], each certificate it holds is a certificate of the
    votes signed so far, and each block it commits is an ancestor of a block
    with a second-phase certificate.  The validator set is fixed: the
    application asks for no validator updates. *)

From S2P Require Import Prelude Types ValidatorSet Encoding Aggregate State BlockStore World Persist.
From S2P Require Import Pacemaker Commit ViewProtocol VoteSafety Voting.

(** The votes signed in a trace, most recent first. *)
Definition votes_of (tr : trace) : list ballot := omap vote_signed_by tr.

Lemma elem_of_votes_of tr t v h : (t, v, h) ∈ votes_of tr ↔ signed tr t v h.
Proof. unfold votes_of, signed. rewrite list_elem_of_omap. naive_solver. Qed.

Lemma votes_of_app es tr : votes_of (es ++ tr) = votes_of es ++ votes_of tr.
Proof. unfold votes_of. apply omap_app. Qed.

(** No block's execution changes the validator set. *)
Class FixedSet (App : Type) `{!Application App} : Prop :=
  no_updates : ∀ (a : App) txs ctx resp a', app_execute_block a txs ctx = (Some resp, a') →
    ebr_validator_updates resp = [].

(** One honest node without a quorum of its own, and the votes of the others. *)
Class Node `{Setting} : Type := {
  self : ValidatorId;
  chain : bytes;
  others : gmap ValidatorId (list ballot);
  self_honest : byz self = false;
  self_power : power_of vset self < quorum_threshold vset;
}.

Section Node.
Context {St App : Type} `{!BlockStore St, !BlockStoreLaws St, !Application App, !FixedSet App}.
Context {B3 : Blake3} {Vf : Verifier} {Sg : Signer} {Se : Setting} {No : Node}.
Implicit Types w : World St App.
#[local] Hint Resolve self_honest occurs_genesis : core.

(** All votes: the others' and those in this node's trace. *)
Definition all_votes (tr : trace) : gmap ValidatorId (list ballot) := <[self := votes_of tr]> others.

Lemma all_votes_own tr : votes (all_votes tr) self = votes_of tr.
Proof. unfold votes, all_votes. by rewrite lookup_insert_eq. Qed.

Lemma all_votes_grows es tr : grows (all_votes tr) (all_votes (es ++ tr)).
Proof.
  intros k x. unfold votes, all_votes. destruct (decide (self = k)) as [<-|Hne].
  - rewrite !lookup_insert_eq. simpl. rewrite votes_of_app, elem_of_app. by right.
  - by rewrite !lookup_insert_ne.
Qed.

Lemma all_votes_same x tr : vote_signed_by x = None → all_votes (x :: tr) = all_votes tr.
Proof. intros E. unfold all_votes, votes_of. simpl. by rewrite E. Qed.

Lemma all_votes_sign x tr b :
  vote_signed_by x = Some b → all_votes (x :: tr) = add_ballot (all_votes tr) self b.
Proof.
  intros E. unfold add_ballot. rewrite all_votes_own. unfold all_votes, votes_of. simpl.
  rewrite E. by rewrite insert_insert_eq.
Qed.

(** ** The invariant *)

(** The blocks this node proposed are among the known ones. *)
Definition proposals_known (tr : trace) : Prop :=
  ∀ c e b q, ESign (PProposal c e b q) ∈ tr → b_hash b = compute_hash b → occurs b.

(** A certificate that a vote may build on. *)
Definition good (tr : trace) (q : QuorumCertificate) : Prop :=
  (qc_block_hash q = GENESIS_HASH ∧ qc_view q = 0) ∨
  cert (all_votes tr) TVote (qc_view q) (qc_block_hash q).

(** [b] is an ancestor of a double-certified block. *)
Definition final (tr : trace) (b : Block) : Prop :=
  ∃ v cb, cert (all_votes tr) TVote2 v (b_hash cb) ∧ occurs cb ∧ extends cb b.

Record state_ok (tr : trace) (s : ConsensusState) : Prop := {
  so_id : cs_validator_id s = self;
  so_set : cs_validator_set s = vset;
  so_chain : cs_chain_id_hash s = chain;
  so_epoch : cs_current_epoch s = Epoch_genesis vset;
  so_view : 1 ≤ cs_current_view s;
  so_last : ∀ t v h, (t, v, h) ∈ votes_of tr → vote_le (Some (v, h)) (last_vote s t);
  so_last_view : ∀ t v h, last_vote s t = Some (v, h) → v ≤ cs_current_view s;
  so_highest : ∃ q, cs_highest_qc s = Some q ∧ good tr q;
  so_lock : ∀ q, cs_locked_qc s = Some q → good tr q;
  so_lock_le : rank_le (cs_locked_qc s) (cs_highest_qc s);
}.

(** The lock covers the second-phase votes. *)
Definition locked_votes (tr : trace) (s : ConsensusState) : Prop :=
  ∀ v h, (TVote2, v, h) ∈ votes_of tr → lock_above (cs_locked_qc s) v.

Record world_ok w : Prop := {
  wo_reach : reachable (all_votes (w_trace w));
  wo_state : state_ok (w_trace w) (w_state w);
  wo_store : ∀ h b, get_block (w_store w) h = Some b → occurs b ∧ b_hash b = h;
  wo_final : ∀ b, EAppCommit b ∈ w_trace w → final (w_trace w) b;
}.

(** The invariant, as far as the proposals are known blocks. *)
Definition winv w : Prop :=
  proposals_known (w_trace w) → world_ok w ∧ locked_votes (w_trace w) (w_state w).

Record wkeeps w w' : Prop := {
  wk_trace : ∃ es, w_trace w' = es ++ w_trace w;
  wk_view : cs_current_view (w_state w) ≤ cs_current_view (w_state w');
  wk_inv : winv w → winv w';
}.

#[global] Instance wkeeps_preorder : PreOrder wkeeps.
Proof.
  split.
  - intros w. split; [by exists []|done|done].
  - intros a b c [[es Ht] Hv Hi] [[es' Ht'] Hv' Hi']. split; [|lia|by auto].
    exists (es' ++ es). by rewrite Ht', Ht, app_assoc.
Qed.

(** ** Monotone facts *)

Lemma good_mono es tr q : good tr q → good (es ++ tr) q.
Proof. intros [?|Hc]; [by left|right]. eapply cert_mono; [apply all_votes_grows|done]. Qed.

Lemma good_wk w w' q : wkeeps w w' → good (w_trace w) q → good (w_trace w') q.
Proof. intros [[es ->] _ _]. apply good_mono. Qed.

Lemma cert_wk w w' t v h :
  wkeeps w w' → cert (all_votes (w_trace w)) t v h → cert (all_votes (w_trace w')) t v h.
Proof. intros [[es ->] _ _]. apply cert_mono, all_votes_grows. Qed.

Lemma final_mono es tr b : final tr b → final (es ++ tr) b.
Proof.
  intros (v&cb&Hc&?). exists v, cb. split; [|done]. eapply cert_mono; [apply all_votes_grows|done].
Qed.

Lemma proposals_known_app es tr : proposals_known (es ++ tr) → proposals_known tr.
Proof. intros H c e b q Hin. eapply (H c e b q). apply elem_of_app. by right. Qed.

Lemma good_same x tr q : vote_signed_by x = None → good (x :: tr) q ↔ good tr q.
Proof. intros E. unfold good. by rewrite all_votes_same. Qed.

Lemma state_ok_same x tr s : vote_signed_by x = None → state_ok tr s → state_ok (x :: tr) s.
Proof.
  intros E []. split; try done.
  - intros t v h. unfold votes_of in *. simpl. rewrite E. auto.
  - destruct so_highest0 as (q&?&?). exists q. by rewrite good_same.
  - intros q. rewrite good_same by done. auto.
Qed.

(** The view of a certified block's votes is its own view. *)
Lemma good_parent tr q p :
  reachable (all_votes tr) → good tr q → occurs p → b_hash p = qc_block_hash q →
  certified (all_votes tr) p ∧ b_view p = qc_view q.
Proof.
  intros Hr Hq Hp E. destruct Hq as [[Eh Ev]|Hc].
  - assert (p = Block_genesis) as -> by (apply occurs_inj; [done..|]; by rewrite E, Eh).
    split; [by left|]. by rewrite Ev.
  - pose proof (reachable_inv _ Hr) as Hi.
    destruct (cert_block _ _ _ Hi Hc) as (b&p'&Eb&Ev&_&Hpa&_).
    assert (p = b) as -> by (apply occurs_inj; [done|apply Hpa|congruence]).
    split; [right|done]. by rewrite Ev, Eb.
Qed.

(** ** Signing votes *)

(** [b] may get this node's first-phase vote. *)
Definition votable w (b : Block) : Prop :=
  b_view b = cs_current_view (w_state w) ∧
  ∃ p, parent b p ∧ certified (all_votes (w_trace w)) p ∧
    ∀ q, cs_locked_qc (w_state w) = Some q → qc_view q ≤ b_view p.

Lemma ballot_view tr s t v h :
  state_ok tr s → (t, v, h) ∈ votes_of tr → v ≤ cs_current_view s.
Proof.
  intros Hs Hin. pose proof (so_last _ _ Hs _ _ _ Hin) as Hl.
  destruct (last_vote s t) as [[v' h']|] eqn:E; [|done]. simpl in Hl.
  pose proof (so_last_view _ _ Hs _ _ _ E). destruct Hl as [?|[-> _]]; lia.
Qed.

Lemma state_ok_sign x tr s t h :
  vote_signed_by x = Some (t, cs_current_view s, h) →
  last_vote s t = Some (cs_current_view s, h) → state_ok tr s → state_ok (x :: tr) s.
Proof.
  intros E El []. split; try done.
  - intros t' v' h'. unfold votes_of in *. simpl. rewrite E. intros [[= -> -> ->]|Hin]%elem_of_cons.
    + by rewrite El.
    + auto.
  - destruct so_highest0 as (q&?&?). exists q. split; [done|]. by apply (good_mono [x]).
  - intros q Hq. apply (good_mono [x]). auto.
Qed.

Lemma sign_first w b c e id x :
  world_ok w → locked_votes (w_trace w) (w_state w) → votable w b →
  last_vote (w_state w) TVote = Some (cs_current_view (w_state w), b_hash b) →
  let w' := w_emit w (ESign (PVote c e (cs_current_view (w_state w)) id (b_hash b) TVote x)) in
  world_ok w' ∧ locked_votes (w_trace w') (w_state w').
Proof.
  intros [Hr Hs Hst Hf] Hl [Ev (p&Hp&Hcp&Hlk)] Elast w'.
  assert (vote_signed_by (ESign (PVote c e (cs_current_view (w_state w)) id (b_hash b) TVote x)) =
          Some (TVote, cs_current_view (w_state w), b_hash b)) as Ex by done.
  split; [split|].
  - simpl. rewrite (all_votes_sign _ _ _ Ex). eapply reachable_step; [exact Hr|]. rewrite <- Ev.
    apply vote_first with p; try done; rewrite ?all_votes_own.
    + rewrite Ev. pose proof (so_view _ _ Hs). lia.
    + intros v h Hin. pose proof (so_last _ _ Hs _ _ _ Hin) as Hle. rewrite Elast in Hle.
      simpl in Hle. rewrite Ev. done.
    + intros v h Hin. split; [rewrite Ev; by eapply ballot_view|].
      specialize (Hl v h Hin). destruct (cs_locked_qc (w_state w)) as [q|] eqn:Eq; [|done].
      simpl in Hl. specialize (Hlk q eq_refl). lia.
  - by eapply state_ok_sign.
  - done.
  - simpl. intros b' [?|Hin]%elem_of_cons; [done|]. apply (final_mono [_]). auto.
  - intros v h. simpl. unfold votes_of. simpl. intros [?|Hin]%elem_of_cons; [done|]. by eapply Hl.
Qed.

Lemma sign_second w h c e id x :
  world_ok w → cert (all_votes (w_trace w)) TVote (cs_current_view (w_state w)) h →
  last_vote (w_state w) TVote2 = Some (cs_current_view (w_state w), h) →
  let w' := w_emit w (ESign (PVote c e (cs_current_view (w_state w)) id h TVote2 x)) in
  world_ok w' ∧
  ∀ v h', (TVote2, v, h') ∈ votes_of (w_trace w') →
    v = cs_current_view (w_state w) ∨ (TVote2, v, h') ∈ votes_of (w_trace w).
Proof.
  intros [Hr Hs Hst Hf] Hc Elast w'.
  assert (vote_signed_by (ESign (PVote c e (cs_current_view (w_state w)) id h TVote2 x)) =
          Some (TVote2, cs_current_view (w_state w), h)) as Ex by done.
  split; [split|].
  - simpl. rewrite (all_votes_sign _ _ _ Ex). eapply reachable_step; [exact Hr|].
    apply vote_second; try done; rewrite ?all_votes_own.
    + pose proof (so_view _ _ Hs). lia.
    + intros t v h' Hin. by eapply ballot_view.
  - by eapply state_ok_sign.
  - done.
  - simpl. intros b' [?|Hin]%elem_of_cons; [done|]. apply (final_mono [_]). auto.
  - intros v h'. simpl. unfold votes_of. simpl. intros [[= -> _]|Hin]%elem_of_cons; by auto.
Qed.

(** ** Primitive operations *)

(** The fields of the state the invariant is about. *)
Definition core (s : ConsensusState) :=
  (cs_validator_id s, cs_validator_set s, cs_chain_id_hash s, cs_current_epoch s,
   cs_current_view s, cs_last_vote1 s, cs_last_vote2 s, cs_highest_qc s, cs_locked_qc s).

Lemma core_state_ok tr s s' : core s' = core s → state_ok tr s → state_ok tr s'.
Proof.
  unfold core. intros [= E1 E2 E3 E4 E5 E6 E7 E8 E9] [].
  assert (∀ t, last_vote s' t = last_vote s t) as El by by intros [].
  split; rewrite ?E1, ?E2, ?E3, ?E4, ?E5, ?E8, ?E9; try done; intros t v h; rewrite El;
    [apply so_last0|apply so_last_view0].
Qed.

(** [w'] differs from [w] in nothing that voting depends on. *)
Record wquiet w w' : Prop := {
  wq_keeps : wkeeps w w';
  wq_core : core (w_state w') = core (w_state w);
}.

#[global] Instance wquiet_preorder : PreOrder wquiet.
Proof. split; [by intros w; split|]. intros a b c [] []. split; [by etrans|congruence]. Qed.

Lemma wkeeps_intro w w' :
  (∃ es, w_trace w' = es ++ w_trace w) →
  cs_current_view (w_state w) ≤ cs_current_view (w_state w') →
  (proposals_known (w_trace w') → world_ok w → locked_votes (w_trace w) (w_state w) →
   world_ok w' ∧ locked_votes (w_trace w') (w_state w')) →
  wkeeps w w'.
Proof.
  intros [es E] Hv H. split; [by exists es|done|]. intros Hi Hk. pose proof Hk as Hk'.
  rewrite E in Hk'. apply proposals_known_app in Hk'. destruct (Hi Hk'). by apply H.
Qed.

Lemma wquiet_core w w' :
  w_store w' = w_store w → w_trace w' = w_trace w → core (w_state w') = core (w_state w) →
  wquiet w w'.
Proof.
  intros Es Et Ec. pose proof Ec as Ec'. unfold core in Ec'. injection Ec' as _ _ _ _ Ev _ _ _ El.
  split; [|done]. apply wkeeps_intro; [by exists []|lia|]. intros _ [Hr Hs Hst Hf] Hl. split.
  - split; rewrite ?Et, ?Es; try done. by eapply core_state_ok.
  - intros v h. rewrite Et, El. apply Hl.
Qed.

(** What is true as far as the proposals are known blocks. *)
Definition known w (P : trace → Prop) : Prop := proposals_known (w_trace w) → P (w_trace w).

Lemma known_mono w w' (P : trace → Prop) :
  (∀ es tr, P tr → P (es ++ tr)) → wkeeps w w' → known w P → known w' P.
Proof.
  intros Hm [[es E] _ _] Hk Hp. rewrite E in *. apply Hm, Hk. by eapply proposals_known_app.
Qed.

Lemma known_final w w' b :
  wkeeps w w' → known w (λ tr, final tr b) → known w' (λ tr, final tr b).
Proof. apply known_mono. intros. by apply final_mono. Qed.

Definition harmless (x : Effect) : Prop :=
  vote_signed_by x = None ∧ match x with EAppCommit _ => False | _ => True end.

Lemma emit_ok w x :
  vote_signed_by x = None → (∀ b, x = EAppCommit b → final (w_trace w) b) →
  world_ok w → locked_votes (w_trace w) (w_state w) →
  world_ok (w_emit w x) ∧ locked_votes (x :: w_trace w) (w_state w).
Proof.
  intros Hx Hc [Hr Hs Hst Hf] Hl. split; [split; simpl|].
  - by rewrite all_votes_same.
  - by apply state_ok_same.
  - done.
  - intros b [<-|Hin]%elem_of_cons; apply (final_mono [_]); auto.
  - intros v h. unfold votes_of. simpl. rewrite Hx. apply Hl.
Qed.

Lemma emit_wquiet w x : harmless x → wquiet w (w_emit w x).
Proof.
  intros [Hx Hn]. split; [|done]. apply wkeeps_intro; [by exists [x]|done|].
  intros _ Ho Hl. apply (emit_ok w x); try done. by intros b ->.
Qed.

Lemma emit_commit_wquiet w b :
  known w (λ tr, final tr b) → wquiet w (w_emit w (EAppCommit b)).
Proof.
  intros Hf. split; [|done]. apply wkeeps_intro; [by exists [EAppCommit b]|done|].
  intros Hk Ho Hl. apply (emit_ok w (EAppCommit b)); try done. intros b' [= <-]. apply Hf.
  by apply (proposals_known_app [_]) in Hk.
Qed.

Section Computations.
Context {E : Type}.
Notation MV := (SM (World St App) E).

Lemma wq_call_app {A} (f : App → A * App) : keeps wquiet (call_app f : MV A).
Proof. intros w. unfold call_app. destruct (f (w_app w)). by apply wquiet_core. Qed.

Lemma wq_read_clock c : keeps wquiet (read_clock c : MV N).
Proof. intros w. by apply wquiet_core. Qed.

Lemma wq_emit x : harmless x → keeps wquiet (emit x : MV unit).
Proof. intros Hx w. by apply emit_wquiet. Qed.

Lemma wq_mod_state f : (∀ s, core (f s) = core s) → keeps wquiet (mod_state f : MV unit).
Proof. intros Hf w. apply wquiet_core; [done..|apply Hf]. Qed.

Lemma wq_sign p : harmless (ESign p) → keeps wquiet (sign_payload p : MV Signature).
Proof. intros Hp w. by apply emit_wquiet. Qed.
End Computations.

(** A computation continues a quiet one. *)
Lemma wp_quiet {E A} (m : SM (World St App) E A) w0 w :
  wquiet w0 w → keeps wquiet m → wp m (λ w' _, wquiet w0 w') w.
Proof. intros H Hm. unfold wp. etrans; [done|apply Hm]. Qed.

(** ** Commit *)

Lemma execute_ok b ctx w :
  known w (λ tr, final tr b) →
  wp (execute_committed_block (St := St) b ctx)
    (λ w' r, wquiet w w' ∧ w_store w' = w_store w ∧
       ∀ resp, r = Ok resp → ebr_validator_updates resp = []) w.
Proof.
  intros Hf. unfold execute_committed_block. apply wp_bind.
  eapply wp_mono; [apply (wp_and _ (λ w' _, wquiet w w') (λ w' _, w_store w' = w_store w))|].
  - apply wp_quiet; [done|]. apply keeps_for_each; [apply _|]. intros p.
    apply keeps_bind; [apply _|by apply wq_emit|]. intros _.
    apply keeps_bind; [apply _|apply wq_call_app|]. intros [];
      [apply keeps_ret|apply keeps_panic]; apply _.
  - eapply wp_mono; [apply evidence_loop_spec|]. intros w1 [[]|e|]; [|done..]. by intros (?&?&_).
  - cbv beta. intros w1 [[]|e|] [H1 Hs1]; [|done..]. wp_steps.
    set (w2 := w_set_app _ _). assert (wquiet w w2 ∧ w_store w2 = w_store w) as [H2 Hs2].
    { split; [|done]. etrans; [exact H1|]. etrans; [apply (emit_wquiet _ (EAppExecute b)); done|].
      by apply wquiet_core. }
    destruct a as [resp|]; wp_steps; [|done].
    match goal with Hx : app_execute_block _ _ _ = _ |- _ => apply no_updates in Hx as Hu end.
    assert (wquiet w (w_emit w2 (EAppCommit b))) as H3.
    { etrans; [exact H2|]. apply emit_commit_wquiet. eapply known_final; [apply H2|done]. }
    assert (wquiet w (w_set_app (w_emit w2 (EAppCommit b)) app0)) as H4
      by (etrans; [exact H3|by apply wquiet_core]).
    destruct a; wp_steps; (split_and!; [done|done|]); [by intros ? [= <-]|done].
Qed.

Lemma commit_one_ok l b w :
  known w (λ tr, final tr b) → cl_pending_epoch l = None → cl_activated_epoch l = None →
  wp (commit_one (St := St) l b)
    (λ w' r, wquiet w w' ∧ w_store w' = w_store w ∧
       ∀ l', r = Ok l' → cl_pending_epoch l' = None ∧ cl_activated_epoch l' = None) w.
Proof.
  intros Hf Hp Ha. unfold commit_one. wp_steps.
  assert (activate_pending l (b_view b) = l) as -> by (unfold activate_pending; by rewrite Hp).
  eapply wp_mono; [by apply execute_ok|]. cbv beta. intros w1 [resp|e|] (H1&Hs1&Hu); [|done..].
  wp_steps. rewrite (Hu resp) by done. simpl. wp_steps. split_and!.
  - etrans; [done|]. by apply wquiet_core.
  - done.
  - by intros l' [= <-].
Qed.

Lemma commit_loop_ok l blocks w :
  (∀ b, b ∈ blocks → known w (λ tr, final tr b)) →
  cl_pending_epoch l = None → cl_activated_epoch l = None →
  wp (commit_loop (St := St) l blocks)
    (λ w' r, wquiet w w' ∧ w_store w' = w_store w ∧
       ∀ l', r = Ok l' → cl_pending_epoch l' = None ∧ cl_activated_epoch l' = None) w.
Proof.
  revert l w. induction blocks as [|b blocks IH]; intros l w Hf Hp Ha; cbn [commit_loop]; wp_steps.
  { split_and!; [done..|]. by intros l' [= <-]. }
  eapply wp_mono; [apply commit_one_ok; [apply Hf; left|done..]|].
  cbv beta. intros w1 [l1|e|] (H1&Hs1&Hl1); [|done..]. destruct (Hl1 l1 eq_refl).
  eapply wp_mono; [apply IH; [|done..]|].
  - intros b' Hb'. eapply known_final; [apply H1|]. apply Hf. by right.
  - cbv beta. intros w2 r (H2&Hs2&Hl2). split_and!; [by etrans|congruence|done].
Qed.

(** The blocks of the walk are ancestors of the block it starts at. *)
Lemma desc_chain_extends store last b l :
  (∀ h x, get_block store h = Some x → occurs x ∧ b_hash x = h) → occurs b →
  desc_chain store last (b :: l) → ∀ a, a ∈ b :: l → extends b a.
Proof.
  intros Hst. revert b. induction l as [|p l IH]; intros b Hb Hd a.
  - intros ->%list_elem_of_singleton. apply rtc_refl.
  - inversion_clear Hd as [|? ? ? Hg Hh _ Hd']. intros [->|Ha]%elem_of_cons; [apply rtc_refl|].
    destruct (Hst _ _ Hg) as [Hp Eh]. eapply rtc_l; [|by apply IH]. by split.
Qed.

(** [dc] certifies its block twice. *)
Definition dc_final w (dc : DoubleCertificate) : Prop :=
  known w (λ tr, ∃ v, cert (all_votes tr) TVote2 v (qc_block_hash (dc_inner_qc dc))).

Lemma try_commit_ok dc cur prev w :
  winv w → dc_final w dc →
  wp (try_commit (St := St) (App := App) dc cur prev None)
    (λ w' r, wquiet w w' ∧ w_store w' = w_store w ∧
       ∀ cr, r = Ok cr → cr_pending_epoch cr = None ∧ cr_activated_epoch cr = None) w.
Proof.
  intros Hi Hc. unfold try_commit. wp_steps.
  destruct (get_block (w_store w) _) as [cb|] eqn:Hcb; cbn [ok_or]; [|done].
  destruct (b_height cb <=? _); wp_steps; [split_and!; [done..|]; by intros ? [= <-]|].
  destruct (collect_chain _ _ _ _ _) as [l|e|] eqn:Hw; cbv beta iota; [|done..].
  apply collect_chain_Ok in Hw as (rest&->&Hd). wp_steps.
  eapply wp_mono; [apply commit_loop_ok; [|done..]|].
  - intros b Hb Hk. destruct (Hi Hk) as [[_ _ Hst _] _]. destruct (Hst _ _ Hcb) as [Kb Eb].
    destruct (Hc Hk) as [v Hcv]. exists v, cb. split_and!; [by rewrite Eb|done|].
    eapply desc_chain_extends; [done..|]. simpl in Hb. by apply elem_of_reverse.
  - cbv beta. intros w1 [l1|e|] (H1&Hs1&Hl1); wp_steps; [|done..]. destruct (Hl1 l1 eq_refl).
    split_and!; [done..|]. by intros cr [= <-].
Qed.

(** ** Certificates and blocks *)

Definition known_good w (q : QuorumCertificate) : Prop := known w (λ tr, good tr q).

Lemma known_good_mono w w' q : wkeeps w w' → known_good w q → known_good w' q.
Proof. apply known_mono. intros. by apply good_mono. Qed.

Lemma dc_final_mono w w' dc : wkeeps w w' → dc_final w dc → dc_final w' dc.
Proof.
  apply known_mono. intros es tr [v Hc]. exists v. eapply cert_mono; [apply all_votes_grows|done].
Qed.

Lemma update_highest_core s q :
  core (update_highest_qc s q) = core s ∨
  core (update_highest_qc s q) = core (set_highest_qc s (Some q)) ∧
  rank_le (cs_highest_qc s) (Some q).
Proof.
  unfold update_highest_qc. destruct (dominated _ _) eqn:Ed; [right|by left]. split; [done|].
  unfold dominated in Ed. destruct (cs_highest_qc s); simpl; [|done]. bool_prop. lia.
Qed.

Lemma state_ok_highest tr s q : good tr q → state_ok tr s → state_ok tr (update_highest_qc s q).
Proof.
  intros Hq Hs. destruct (update_highest_core s q) as [E|[E Hr]].
  - by eapply core_state_ok.
  - eapply core_state_ok; [exact E|]. destruct Hs. split; try done.
    + exists q. done.
    + simpl. by etrans.
Qed.

Lemma state_ok_locked tr s q :
  good tr q → rank_le (Some q) (cs_highest_qc s) → state_ok tr s → state_ok tr (update_locked_qc s q).
Proof.
  intros Hq Hr Hs. unfold update_locked_qc. destruct (dominated _ _); [|done].
  destruct Hs. split; try done. by intros q' [= <-].
Qed.

Lemma update_qcs_commute s q :
  update_highest_qc (update_locked_qc s q) q = update_locked_qc (update_highest_qc s q) q.
Proof.
  unfold update_highest_qc, update_locked_qc.
  destruct (dominated (cs_locked_qc s) q) eqn:E1, (dominated (cs_highest_qc s) q) eqn:E2;
    simpl; by rewrite ?E1, ?E2.
Qed.

Lemma update_highest_wkeeps w q :
  known_good w q → wkeeps w (w_set_state w (update_highest_qc (w_state w) q)).
Proof.
  intros Hq. apply wkeeps_intro; simpl.
  - by exists [].
  - apply update_highest_qc_mono.
  - intros Hk [Hr Hs Hst Hf] Hl. split; [split; try done; apply state_ok_highest; auto|].
    intros v h Hin. unfold update_highest_qc. destruct (dominated _ _); by eapply Hl.
Qed.

Lemma update_locked_wkeeps w q :
  known_good w q → rank_le (Some q) (cs_highest_qc (w_state w)) →
  wkeeps w (w_set_state w (update_locked_qc (w_state w) q)).
Proof.
  intros Hq Hr. apply wkeeps_intro; simpl.
  - by exists [].
  - apply update_locked_qc_mono.
  - intros Hk [Hre Hs Hst Hf] Hl. split; [split; try done; apply state_ok_locked; auto|].
    intros v h Hin. eapply lock_above_mono; [exact (proj1 (update_locked_qc_rank (w_state w) q))|by eapply Hl].
Qed.

Lemma store_wquiet w (f : St → St) :
  (proposals_known (w_trace w) → (∀ h b, get_block (w_store w) h = Some b → occurs b ∧ b_hash b = h) →
   ∀ h b, get_block (f (w_store w)) h = Some b → occurs b ∧ b_hash b = h) →
  wquiet w (w_set_store w (f (w_store w))).
Proof.
  intros Hf. split; [|done]. apply wkeeps_intro; [by exists []|done|].
  intros Hk [Hr Hs Hst Hfi] Hl. split; [|done]. split; try done. simpl. by apply Hf.
Qed.

Lemma put_block_known (st : St) b :
  occurs b → (∀ h x, get_block st h = Some x → occurs x ∧ b_hash x = h) →
  ∀ h x, get_block (put_block st b) h = Some x → occurs x ∧ b_hash x = h.
Proof. intros Hb Hst h x. rewrite get_put_block. case_decide; [|apply Hst]. by intros [= <-]. Qed.

(** ** Entering a view *)

Definition trigger_ok w (tr : ViewEntryTrigger) : Prop :=
  match tr with
  | TrDoubleCert dc => known_good w (dc_inner_qc dc)
  | TrTimeoutCert tc => ∀ q, tc_highest_qc tc = Some q → known_good w q
  | TrGenesis => False
  end.

Lemma trigger_ok_mono w w' tr : wkeeps w w' → trigger_ok w tr → trigger_ok w' tr.
Proof. intros Hk. destruct tr; simpl; [by apply known_good_mono| |done]. intros Ht q Hq. eapply known_good_mono; eauto. Qed.

Ltac wq_step :=
  lazymatch goal with
  | |- ∀ _, _ => intros
  | |- keeps _ (mret _) => apply keeps_ret; apply _
  | |- keeps _ (gets _) => apply keeps_gets; apply _
  | |- keeps _ get_state => apply keeps_gets; apply _
  | |- keeps _ get_store => apply keeps_gets; apply _
  | |- keeps _ get_w => apply keeps_get_w; apply _
  | |- keeps _ (throw _) => apply keeps_throw; apply _
  | |- keeps _ panic => apply keeps_panic; apply _
  | |- keeps _ (lift_res _) => apply keeps_lift_res; apply _
  | |- keeps _ (call_app _) => apply wq_call_app
  | |- keeps _ (read_clock _) => apply wq_read_clock
  | |- keeps _ (mbind _ _) => apply keeps_bind; [apply _|..]
  | |- keeps _ (when _ _) => apply keeps_when; [apply _|]
  | |- keeps _ (sign_payload _) => apply wq_sign; by split
  | |- keeps _ (emit _) => apply wq_emit; by split
  | |- keeps _ (mod_state _) => apply wq_mod_state; reflexivity
  | |- keeps _ (match ?x with _ => _ end) => destruct x
  end.
Ltac wq_tac := repeat wq_step.

Lemma send_status_wq view : keeps wquiet (send_status (St := St) (App := App) view).
Proof. unfold send_status. wq_tac. Qed.

Lemma settle_wq b m : keeps wquiet m → keeps wquiet (settle (St := St) (App := App) b m).
Proof. intros Hm. unfold settle. destruct b; wq_tac. done. Qed.

Lemma wk_then {E A} (m : SM (World St App) E A) w0 w :
  wkeeps w0 w → keeps wquiet m → wp m (λ w' _, wkeeps w0 w') w.
Proof. intros H Hm. unfold wp. etrans; [done|apply Hm]. Qed.

Lemma set_view_wkeeps w view s :
  cs_current_view (w_state w) ≤ view → core s = core (set_current_view (w_state w) view) →
  wkeeps w (w_set_state w s).
Proof.
  intros Hle E. assert (cs_current_view s = view ∧ cs_locked_qc s = cs_locked_qc (w_state w))
    as [Ev El] by (unfold core in E; by simplify_eq/=).
  apply wkeeps_intro; simpl; [by exists []|lia|]. intros _ [Hr Hs Hst Hf] Hl. split.
  - split; try done. eapply core_state_ok; [exact E|]. destruct Hs. split; try done; simpl.
    + lia.
    + intros t v h Ht. assert (last_vote (w_state w) t = Some (v, h)) as H' by by destruct t.
      apply so_last_view0 in H'. lia.
  - intros v h Hin. simpl. rewrite El. by eapply Hl.
Qed.

Lemma enter_view_ok view trigger w :
  trigger_ok w trigger →
  wp (enter_view (St := St) (App := App) view trigger) (λ w' _, wkeeps w w') w.
Proof.
  intros Ht. unfold enter_view. wp_steps.
  match goal with |- wp (if ?b then _ else _) _ _ => destruct b eqn:Hb end; wp_steps; [done|].
  set (w2 := w_set_state _ _). assert (wkeeps w w2) as H2.
  { apply (set_view_wkeeps w view (w_state w2)); [|done].
    destruct trigger; simpl in Hb, Ht; bool_prop; [lia..|done]. }
  apply (trigger_ok_mono _ _ _ H2) in Ht.
  destruct trigger as [dc|tc|]; simpl in Ht; [| |done].
  - wp_steps. apply wk_then; [|apply settle_wq, send_status_wq].
    etrans; [exact H2|]. etrans; [by apply update_highest_wkeeps|]. by apply wquiet_core.
  - apply wp_bind. destruct (tc_highest_qc tc) as [q|]; wp_steps;
      (apply wk_then; [|apply settle_wq, send_status_wq]); [|done].
    etrans; [exact H2|]. apply update_highest_wkeeps. by apply Ht.
Qed.

(** ** Proposing *)

Definition known_votable w (b : Block) : Prop :=
  proposals_known (w_trace w) → votable w b.

Lemma votable_core w w' b :
  wkeeps w w' → core (w_state w') = core (w_state w) → votable w b → votable w' b.
Proof.
  intros Hk E [Ev (p&Hp&Hcp&Hl)]. unfold core in E. injection E as _ _ _ _ E1 _ _ _ E2.
  split; [by rewrite E1|]. exists p. split_and!; [done| |by rewrite E2].
  destruct Hk as [[es ->] _ _]. eapply certified_mono; [apply all_votes_grows|done].
Qed.

Lemma known_votable_mono w w' b : wquiet w w' → known_votable w b → known_votable w' b.
Proof.
  intros [Hk E] Hv Hp. apply (votable_core w); [done..|]. apply Hv.
  destruct Hk as [[es Et] _ _]. rewrite Et in Hp. by eapply proposals_known_app.
Qed.

Lemma Height_next_Ok {E} h n : Height_next (E := E) h = Ok n → n = h + 1.
Proof. unfold Height_next, expect. destruct (checked_add64 h 1) eqn:Ec; [|done]. by intros [= <-]; apply checked_add64_Some in Ec as [-> _]. Qed.

Lemma propose_ok clock fuel ev epochs w :
  winv w →
  wp (propose (St := St) (App := App) clock fuel ev epochs)
    (λ w' r, wquiet w w' ∧ ∀ b, r = Ok b → known_votable w' b) w.
Proof.
  intros Hi. unfold propose. wp_steps.
  destruct (cs_highest_qc (w_state w)) as [q|] eqn:Eq; cbn [ok_or]; wp_steps; [|done].
  destruct (get_block (w_store w) (qc_block_hash q)) as [p|] eqn:Ep; cbn [ok_or]; wp_steps; [|done].
  destruct (Height_next (b_height p)) as [height|e|] eqn:Eh; wp_steps; [|done..].
  apply Height_next_Ok in Eh.
  match goal with |- context [ESign (PProposal _ _ ?b _)] => set (block := b) end.
  match goal with |- context [w_emit ?w0 (ESign (PProposal ?c ?e block q))] =>
    set (w3 := w_emit w0 (ESign (PProposal c e block q))) end.
  assert (wquiet w w3) as H3.
  { split; [|done]. apply wkeeps_intro; [by eexists [_]|done|]. intros Hk Ho Hl.
    assert (occurs block) as Kb by (eapply Hk; simpl; [left|done]).
    destruct (emit_ok w (ESign (PProposal (cs_chain_id_hash (w_state w))
      (e_number (cs_current_epoch (w_state w))) block q)) eq_refl ltac:(done) Ho Hl) as [[Hr Hs Hst Hf] Hl'].
    split; [|done]. split; [done| |by apply put_block_known|done].
    eapply core_state_ok; [|exact Hs]. done. }
  assert (known_votable w3 block) as Hv.
  { intros Hk. assert (occurs block) as Kb by (eapply Hk; simpl; [left|done]).
    assert (proposals_known (w_trace w)) as Hk' by by apply (proposals_known_app [_]) in Hk.
    destruct (Hi Hk') as [[Hr Hs Hst _] _]. destruct (so_highest _ _ Hs) as (q'&Eq'&Hg).
    rewrite Eq in Eq'. injection Eq' as <-. destruct (Hst _ _ Ep) as [Kp Hh].
    destruct (good_parent _ _ _ Hr Hg Kp Hh) as [Hcp Hvp].
    apply (votable_core w); [apply H3|apply H3|]. split; [done|]. exists p. split_and!; [|done|].
    - by split.
    - intros lk El. pose proof (so_lock_le _ _ Hs) as Hle. rewrite El, Eq in Hle. simpl in Hle. lia. }
  destruct (ancestors _ _ _ _ _) as [anc|]; cbn [ok_or]; wp_steps; [|done].
  set (w4 := w_set_state _ _). assert (wquiet w3 w4) as H4.
  { etrans; [by apply (emit_wquiet w3 (EBroadcast (Propose block q
      (cs_highest_double_cert (w_state w)) (sign (payload_bytes (PProposal
      (cs_chain_id_hash (w_state w)) (e_number (cs_current_epoch (w_state w))) block q))) anc)))|].
    by apply wquiet_core. }
  split; [by etrans|]. intros b [= <-]. by eapply known_votable_mono.
Qed.

(** ** Casting votes *)

Section Votes.
Context {E : Type}.
Notation MV := (SM (World St App) E).

Lemma record_vote_ok t h w :
  wp (record_vote t h : MV bool)
    (λ w' r, wkeeps w w' ∧ w_trace w' = w_trace w ∧ ∃ ok, r = Ok ok ∧
       w_state w' = (if ok : bool
         then set_last_vote (w_state w) t (Some (cs_current_view (w_state w), h))
         else w_state w)) w.
Proof.
  eapply wp_mono; [apply (record_vote_spec true ∅ [])|]. cbv beta.
  intros w' r (_&Hst&Htr&ok&->&Hok). split_and!; [|done|exists ok; split; [done|]; by destruct ok as [|]; [destruct Hok|]].
  destruct ok; [destruct Hok as [Hf Es]|by apply wquiet_core; rewrite ?Hok].
  apply wkeeps_intro; [by exists []|rewrite Es; by destruct t|]. intros _ [Hr Hs Hsto Hfi] Hl.
  split; [split; rewrite ?Htr, ?Hst; try done|].
  - rewrite Es. destruct Hs. split; try (by destruct t).
    + intros t' v' h' Hin%so_last0. etrans; [exact Hin|].
      destruct (decide (t = t')) as [<-|Hne]; [by rewrite last_vote_set|by rewrite last_vote_set_ne].
    + intros t' v' h' E'. replace (cs_current_view (set_last_vote _ _ _)) with (cs_current_view (w_state w))
        by by destruct t.
      destruct (decide (t = t')) as [<-|Hne].
      * rewrite last_vote_set in E'. by simplify_eq.
      * rewrite last_vote_set_ne in E' by done. by eapply so_last_view0.
  - intros v' h'. rewrite Htr, Es. intros Hin%Hl. by destruct t.
Qed.

Lemma persist_vote_ok hp t v h w :
  wp (persist_vote hp t v h : MV unit)
    (λ w' r, r = Ok () ∧ wquiet w w' ∧ w_state w' = w_state w) w.
Proof.
  unfold persist_vote. wp_steps; [|done]. split_and!; [done| |done].
  etrans; [by apply (emit_wquiet w (ESaveLastVote t v h))|by apply (emit_wquiet _ EPersistFlush)].
Qed.
End Votes.

Lemma sign_first_wkeeps w b c e id x :
  known_votable w b →
  last_vote (w_state w) TVote = Some (cs_current_view (w_state w), b_hash b) →
  wkeeps w (w_emit w (ESign (PVote c e (cs_current_view (w_state w)) id (b_hash b) TVote x))).
Proof.
  intros Hv El. apply wkeeps_intro; [by eexists [_]|done|]. intros Hk Ho Hl.
  apply (sign_first w b c e id x); try done. apply Hv. by apply (proposals_known_app [_]) in Hk.
Qed.

Lemma sign_second_wkeeps w h c e id x :
  known w (λ tr, cert (all_votes tr) TVote (cs_current_view (w_state w)) h) →
  last_vote (w_state w) TVote2 = Some (cs_current_view (w_state w), h) →
  lock_above (cs_locked_qc (w_state w)) (cs_current_view (w_state w)) →
  wkeeps w (w_emit w (ESign (PVote c e (cs_current_view (w_state w)) id h TVote2 x))).
Proof.
  intros Hc El Hla. apply wkeeps_intro; [by eexists [_]|done|]. intros Hk Ho Hl.
  destruct (sign_second w h c e id x) as [Ho' Hv]; try done.
  { apply Hc. by apply (proposals_known_app [_]) in Hk. }
  split; [done|]. intros v h' [->|Hin]%Hv; [done|]. by eapply Hl.
Qed.

Lemma vote_for_ok hp b w :
  winv w → known_votable w b → wp (vote_for (St := St) (App := App) hp b) (λ w' _, wkeeps w w') w.
Proof.
  intros Hi Hv. unfold vote_for. wp_steps.
  destruct (0 <? power_of _ _); [|by wp_steps].
  eapply wp_mono; [apply record_vote_ok|]. cbv beta. intros w1 r (H1&Ht1&ok&->&Es). wp_steps; [|done].
  subst ok.
  assert (cs_current_view (w_state w1) = cs_current_view (w_state w) ∧
          cs_locked_qc (w_state w1) = cs_locked_qc (w_state w)) as [Ev1 Elk] by by rewrite Es.
  assert (known_votable w1 b) as Hv1.
  { intros Hk. rewrite Ht1 in Hk. destruct (Hv Hk) as [Ev (p&?&?&?)]. split; [by rewrite Ev1|].
    exists p. rewrite Ht1, Elk. done. }
  eapply wp_mono; [apply persist_vote_ok|]. cbv beta. intros w2 r (->&H2&Es2).
  unfold make_vote. wp_steps. rewrite <- Ev1, <- Es2.
  match goal with |- context [w_emit w2 ?x] => assert (wkeeps w (w_emit w2 x)) as H3 end.
  { etrans; [done|]. etrans; [apply H2|]. apply sign_first_wkeeps.
    - by eapply known_votable_mono.
    - rewrite Es2, Ev1, Es. done. }
  destruct (leader_for_view _ _); simpl; [|done]. wp_steps.
  etrans; [exact H3|]. by apply emit_wquiet.
Qed.

(** ** Voting on a proposal *)

(** A commit result without an epoch change. *)
Definition no_epochs (cr : CommitResult) : Prop :=
  cr_pending_epoch cr = None ∧ cr_activated_epoch cr = None.

Lemma fast_forward_ok dc epochs w :
  winv w → (∀ d, dc = Some d → dc_final w d) → ec_in_flight_pending epochs = None →
  wp (fast_forward (St := St) (App := App) dc epochs)
    (λ w' r, wquiet w w' ∧ ∀ cr, r = Ok (Some cr) → no_epochs cr) w.
Proof.
  intros Hi Hd Hp. unfold fast_forward. destruct dc as [d|]; wp_steps; [|done].
  rewrite Hp. eapply wp_mono; [apply try_commit_ok; auto|]. cbv beta.
  intros w1 [cr|e|] (H1&_&Hc); wp_steps; try done.
  - split; [etrans; [done|by apply wquiet_core]|]. intros ? [= <-]. by apply Hc.
  - split; [done|]. intros ? [= <-]. by apply Hc.
Qed.

Lemma check_proposal_Ok s (store : St) b q p :
  check_proposal s store b q = Ok p →
  below_lock (cs_locked_qc s) q = false ∧ b_hash b = compute_hash b ∧
  b_parent_hash b = qc_block_hash q ∧ get_block store (b_parent_hash b) = Some p ∧ b_height b = b_height p + 1.
Proof.
  unfold check_proposal. destruct (below_lock _ _); [done|]. intros H.
  destruct (leader_for_view _ _); simpl in H; [|done].
  destruct (negb _); [done|]. case_bool_decide as Ebh; simpl in H; [|done].
  case_bool_decide as Eh; simpl in H; [|done].
  destruct (get_block store (b_parent_hash b)) as [p'|] eqn:Eg; simpl in H; [|done].
  destruct (Height_next (b_height p')) as [n|e|] eqn:En; simpl in H; try done.
  apply Height_next_Ok in En. destruct (N.eqb_spec (b_height b) n); simpl in H; [|done].
  injection H as <-. split_and!; [done..|congruence].
Qed.

Lemma below_lock_false lk q :
  below_lock lk q = false → ∀ l, lk = Some l → qc_view l ≤ qc_view q.
Proof.
  intros H l ->. simpl in H. apply orb_false_iff in H as [H _]. unfold qc_rank in H.
  by apply N.ltb_ge in H.
Qed.

Lemma proposal_votable w b q p :
  winv w → known w (λ _, occurs b) → known w (λ _, b_view b = cs_current_view (w_state w)) →
  known_good w q →
  check_proposal (w_state w) (w_store w) b q = Ok p → known_votable w b.
Proof.
  intros Hi Kb Ev Hg (Hl&_&Eh&Ep&Ehe)%check_proposal_Ok Hk. destruct (Hi Hk) as [[Hr Hs Hst _] _].
  destruct (Hst _ _ Ep) as [Kp Ehp]. rewrite Eh in Ehp.
  destruct (good_parent _ _ _ Hr (Hg Hk) Kp Ehp) as [Hcp Hvp]. split; [by apply Ev|]. exists p.
  split_and!; [|done|].
  - split; [by apply Kb|done|congruence|done].
  - rewrite Hvp. by apply below_lock_false.
Qed.

Lemma on_proposal_ok hp clock p epochs w :
  let b := pd_block p in
  winv w → (b_hash b = compute_hash b → occurs b) →
  known w (λ _, b_view b = cs_current_view (w_state w)) → known_good w (pd_justify p) → (∀ d, pd_double_cert p = Some d → dc_final w d) →
  ec_in_flight_pending epochs = None →
  wp (on_proposal (St := St) (App := App) hp clock p epochs)
    (λ w' r, wkeeps w w' ∧ ∀ res, r = Ok res → pr_pending_epoch res = None ∧
       ∀ cr, pr_commit_result res = Some cr → no_epochs cr) w.
Proof.
  intros b Hi Kb Ev Hg Hd Hpend. unfold on_proposal. wp_steps.
  case_bool_decide; simpl; wp_steps; [|split; [done|]; by intros ? [= <-]].
  destruct (check_proposal _ _ _ _) as [parent|e|] eqn:Ec; wp_steps; [|done..].
  pose proof (proj1 (proj2 (check_proposal_Ok _ _ _ _ _ Ec))) as Hbh.
  assert (known w (λ _, occurs b)) as Kb' by by intros _; apply Kb.
  apply (proposal_votable w b) in Ec as Hv; [|done..].
  eapply (wp_mono _ (λ w' _, wquiet w w')).
  { destruct (0 <? _); wp_steps; [|done]. by apply wquiet_core. }
  intros w1 r H1. destruct r as [[]|e|]; [|split; [apply H1|done]..]. wp_steps.
  match goal with |- match match ?x with _ => _ end with _ => _ end => destruct x as [[]|e|] end;
    [|split; [apply H1|done]..].
  wp_steps. match goal with |- context [w_set_app w1 ?a] => set (w2 := w_set_app w1 a) end.
  assert (wquiet w w2) as H2 by (etrans; [exact H1|by apply wquiet_core]).
  match goal with |- wp (if negb ?x then _ else _) _ _ => destruct x end; cbn [negb]; wp_steps;
    [|split; [apply H2|done]].
  set (w3 := w_set_store w2 _). assert (wquiet w w3) as H3.
  { etrans; [exact H2|]. apply (store_wquiet w2 (λ st, put_block st b)). intros Hk Hst.
    apply put_block_known; [by apply Kb|done]. }
  match goal with |- context [update_highest_qc ?s ?q] => set (w4 := w_set_state w3 (update_highest_qc s q)) end.
  assert (wkeeps w3 w4) as H34.
  { apply update_highest_wkeeps. eapply known_good_mono; [apply H3|done]. }
  assert (wkeeps w w4) as H4 by (etrans; [apply H3|done]).
  assert (known_votable w4 b) as Hv4.
  { intros Hk. apply (known_votable_mono _ _ _ H3) in Hv.
    destruct (Hv Hk) as [Ev' (pp&Hpp&Hcp&Hlk)]. unfold w4. simpl. split; simpl.
    - rewrite Ev'. unfold update_highest_qc. by destruct (dominated _ _).
    - exists pp. split_and!; [done..|]. unfold update_highest_qc. by destruct (dominated _ _). }
  assert (winv w4) as Hi4 by by apply H4. clearbody w4.
  eapply wp_mono; [apply fast_forward_ok; [done| |done]|].
  { intros d Ed. eapply dc_final_mono; [exact H4|auto]. }
  cbv beta. intros w5 r [H5 Hcr]. assert (wkeeps w w5) as H05 by (etrans; [exact H4|apply H5]).
  destruct r as [commit|e|]; wp_steps; [|done..].
  assert (commit ≫= cr_pending_epoch = None ∧ ∀ cr, commit = Some cr → no_epochs cr) as [Hpe Hne].
  { destruct commit as [cr|]; [|done]. destruct (Hcr cr eq_refl). split; [done|].
    by intros ? [= <-]. }
  match goal with |- wp (if ?x then _ else _) _ _ => destruct x end; wp_steps.
  { split; [done|]. by intros ? [= <-]. }
  eapply wp_mono; [apply vote_for_ok; [by apply H5|by eapply known_votable_mono]|].
  cbv beta. intros w6 r H6. assert (wkeeps w w6) as H06 by by etrans.
  destruct r as [[]|e|]; wp_steps; [|done..]. split; [|by intros ? [= <-]].
  etrans; [exact H06|]. by apply wquiet_core.
Qed.

(** ** Certificates and second-phase votes *)

Lemma on_votes_collected_ok q w :
  known_good w q →
  wp (on_votes_collected (St := St) (App := App) q)
    (λ w' r, r = Ok () ∧ wkeeps w w' ∧
       cs_current_view (w_state w') = cs_current_view (w_state w) ∧
       rank_le (Some q) (cs_highest_qc (w_state w'))) w.
Proof.
  intros Hg. unfold on_votes_collected. wp_steps. split_and!; [done| | |].
  - match goal with |- wkeeps w (w_set_state (w_emit (w_emit ?w1 ?a) ?b) _) =>
      etrans; [by apply update_highest_wkeeps|]; etrans; [by apply (emit_wquiet w1 a)|];
      etrans; [by apply (emit_wquiet (w_emit w1 a) b)|] end.
    by apply wquiet_core.
  - simpl. unfold update_highest_qc. by destruct (dominated _ _).
  - simpl. apply update_highest_qc_rank.
Qed.

Lemma on_prepare_ok hp q x w :
  winv w → known w (λ tr, cert (all_votes tr) TVote (qc_view q) (qc_block_hash q)) →
  qc_view q = cs_current_view (w_state w) →
  wp (on_prepare (St := St) (App := App) hp q x) (λ w' _, wkeeps w w') w.
Proof.
  intros Hi Hc Ev. unfold on_prepare. wp_steps. case_bool_decide; simpl; wp_steps; [|done].
  set (w2 := w_set_state (w_set_state _ _) _).
  assert (cs_current_view (w_state w2) = cs_current_view (w_state w) ∧
          rank_le (Some q) (cs_locked_qc (w_state w2))) as [Ev2 Hl2].
  { pose proof (update_locked_qc_rank (w_state w) q) as [_ Hr]. simpl. revert Hr.
    generalize (update_locked_qc (w_state w) q) as s, (update_locked_qc_view (w_state w) q).
    intros s E Hr. unfold update_highest_qc. by case_match. }
  assert (known_good w q) as Hg by (intros Hk; right; auto).
  assert (wkeeps w w2) as H2.
  { apply wkeeps_intro; [by exists []|by rewrite Ev2|]. intros Hk [Hr Hs Hst Hf] Hl. split.
    - split; try done. unfold w2. simpl.
      assert (state_ok (w_trace w) (update_highest_qc (w_state w) q)) as Hs'
        by (apply state_ok_highest; [by apply Hg|done]).
      apply (state_ok_locked _ _ q) in Hs'; [|by apply Hg|apply update_highest_qc_rank].
      by rewrite update_qcs_commute.
    - intros v h Hin%Hl. simpl. eapply lock_above_mono; [|exact Hin].
      pose proof (update_locked_qc_rank (w_state w) q) as [Hr' _]. etrans; [exact Hr'|].
      unfold update_highest_qc. by case_match. }
  assert (known w2 (λ tr, cert (all_votes tr) TVote (cs_current_view (w_state w2)) (qc_block_hash q)))
    as Hc2 by (intros Hk; rewrite Ev2, <- Ev; by apply Hc).
  assert (lock_above (cs_locked_qc (w_state w2)) (cs_current_view (w_state w2))) as Hla.
  { rewrite Ev2, <- Ev. apply (lock_above_mono (Some q)); [done|simpl; lia]. }
  destruct (0 <? power_of _ _); wp_steps.
  2: { etrans; [done|]. by apply wquiet_core. }
  eapply wp_mono; [apply record_vote_ok|]. cbv beta. intros w3 r (H3&Et3&ok&->&Es3).
  destruct ok; wp_steps.
  2: { etrans; [done|]. etrans; [done|]. by apply wquiet_core. }
  eapply wp_mono; [apply persist_vote_ok|]. cbv beta. intros w4 r (->&H4&Es4).
  unfold make_vote. wp_steps.
  assert (cs_current_view (w_state w4) = cs_current_view (w_state w2) ∧
          cs_locked_qc (w_state w4) = cs_locked_qc (w_state w2) ∧
          last_vote (w_state w4) TVote2 = Some (cs_current_view (w_state w2), qc_block_hash q))
    as (Ev4&El4&Ela4) by by rewrite Es4, Es3.
  match goal with |- context [w_emit w4 ?y] => assert (wkeeps w (w_emit w4 y)) as H5 end.
  { etrans; [exact H2|]. etrans; [exact H3|]. etrans; [apply H4|]. apply sign_second_wkeeps.
    - rewrite Ev4. apply (known_mono w2); [|etrans; [exact H3|apply H4]|done].
      intros es tr. apply cert_mono, all_votes_grows.
    - by rewrite Ev4.
    - by rewrite Ev4, El4. }
  destruct (next_leader _ _) as [next|e|]; [|done..]. wp_steps.
  etrans; [exact H5|]. by apply wquiet_core.
Qed.

Lemma build_wish_wq {E} c ep v id q :
  keeps wquiet (build_wish (St := St) (App := App) (E := E) c ep v id q).
Proof. unfold build_wish. wq_tac. Qed.
End Node.
