(* ===== verification/Engine.v ===== *)
(** * Consensus engine ([hotmint-consensus/src/engine.rs])

    The engine's state, its message and timeout handlers and the functions they
    call, in the state monad over [Engine].  The functions from proposing to
    entering the next view call each other; [try_propose] takes fuel for that
    recursion.  The verifier, signer, hash, application, block store, evidence
    store and network are the traits' interfaces. *)

From S2P Require Import Prelude Types ValidatorSet Encoding Aggregate VoteCollector State Liveness.
From S2P Require Import BlockStore EvidenceStore World Pacemaker Commit ViewProtocol.

Inductive engine_error : Type :=
| OnProposalFailed (e : vp_error)
| AddVoteFailed (e : vc_error)
| ViewProtocolError (e : vp_error)
| Halted
| OutOfFuel.

(** [ConsensusEngine]; the network, signer and verifier are interfaces, and the
    persistence and the write-ahead log are present or absent. *)
Record Engine (St App Ev : Type) : Type := mkEngine {
  en_w : World St App;
  en_vote_collector : VoteCollector;
  en_pacemaker : Pacemaker;
  en_pacemaker_config : PacemakerConfig;
  en_status_senders : gset N;
  en_current_view_qc : option QuorumCertificate;
  en_pending_epoch : option Epoch;
  en_evidence_store : option Ev;
  en_liveness_tracker : LivenessTracker;
  en_msg_rate_limiter : gmap N (N * N);
  en_previous_epoch : option Epoch;
}.
Arguments mkEngine {St App Ev}.
Arguments en_w {St App Ev}.
Arguments en_vote_collector {St App Ev}.
Arguments en_pacemaker {St App Ev}.
Arguments en_pacemaker_config {St App Ev}.
Arguments en_status_senders {St App Ev}.
Arguments en_current_view_qc {St App Ev}.
Arguments en_pending_epoch {St App Ev}.
Arguments en_evidence_store {St App Ev}.
Arguments en_liveness_tracker {St App Ev}.
Arguments en_msg_rate_limiter {St App Ev}.
Arguments en_previous_epoch {St App Ev}.

(** ** Field updates *)

Section Updates.
Context {St App Ev : Type} (e : Engine St App Ev).

Definition en_set_w (x : World St App) : Engine St App Ev :=
  mkEngine x (en_vote_collector e) (en_pacemaker e) (en_pacemaker_config e) (en_status_senders
    e) (en_current_view_qc e) (en_pending_epoch e) (en_evidence_store e) (en_liveness_tracker e)
    (en_msg_rate_limiter e) (en_previous_epoch e).
Definition en_set_vote_collector (x : VoteCollector) : Engine St App Ev :=
  mkEngine (en_w e) x (en_pacemaker e) (en_pacemaker_config e) (en_status_senders e)
    (en_current_view_qc e) (en_pending_epoch e) (en_evidence_store e) (en_liveness_tracker e)
    (en_msg_rate_limiter e) (en_previous_epoch e).
Definition en_set_pacemaker (x : Pacemaker) : Engine St App Ev :=
  mkEngine (en_w e) (en_vote_collector e) x (en_pacemaker_config e) (en_status_senders e)
    (en_current_view_qc e) (en_pending_epoch e) (en_evidence_store e) (en_liveness_tracker e)
    (en_msg_rate_limiter e) (en_previous_epoch e).
Definition en_set_pacemaker_config (x : PacemakerConfig) : Engine St App Ev :=
  mkEngine (en_w e) (en_vote_collector e) (en_pacemaker e) x (en_status_senders e)
    (en_current_view_qc e) (en_pending_epoch e) (en_evidence_store e) (en_liveness_tracker e)
    (en_msg_rate_limiter e) (en_previous_epoch e).
Definition en_set_status_senders (x : gset N) : Engine St App Ev :=
  mkEngine (en_w e) (en_vote_collector e) (en_pacemaker e) (en_pacemaker_config e) x
    (en_current_view_qc e) (en_pending_epoch e) (en_evidence_store e) (en_liveness_tracker e)
    (en_msg_rate_limiter e) (en_previous_epoch e).
Definition en_set_current_view_qc (x : option QuorumCertificate) : Engine St App Ev :=
  mkEngine (en_w e) (en_vote_collector e) (en_pacemaker e) (en_pacemaker_config e)
    (en_status_senders e) x (en_pending_epoch e) (en_evidence_store e) (en_liveness_tracker e)
    (en_msg_rate_limiter e) (en_previous_epoch e).
Definition en_set_pending_epoch (x : option Epoch) : Engine St App Ev :=
  mkEngine (en_w e) (en_vote_collector e) (en_pacemaker e) (en_pacemaker_config e)
    (en_status_senders e) (en_current_view_qc e) x (en_evidence_store e) (en_liveness_tracker e)
    (en_msg_rate_limiter e) (en_previous_epoch e).
Definition en_set_evidence_store (x : option Ev) : Engine St App Ev :=
  mkEngine (en_w e) (en_vote_collector e) (en_pacemaker e) (en_pacemaker_config e)
    (en_status_senders e) (en_current_view_qc e) (en_pending_epoch e) x (en_liveness_tracker e)
    (en_msg_rate_limiter e) (en_previous_epoch e).
Definition en_set_liveness_tracker (x : LivenessTracker) : Engine St App Ev :=
  mkEngine (en_w e) (en_vote_collector e) (en_pacemaker e) (en_pacemaker_config e)
    (en_status_senders e) (en_current_view_qc e) (en_pending_epoch e) (en_evidence_store e) x
    (en_msg_rate_limiter e) (en_previous_epoch e).
Definition en_set_msg_rate_limiter (x : gmap N (N * N)) : Engine St App Ev :=
  mkEngine (en_w e) (en_vote_collector e) (en_pacemaker e) (en_pacemaker_config e)
    (en_status_senders e) (en_current_view_qc e) (en_pending_epoch e) (en_evidence_store e)
    (en_liveness_tracker e) x (en_previous_epoch e).
Definition en_set_previous_epoch (x : option Epoch) : Engine St App Ev :=
  mkEngine (en_w e) (en_vote_collector e) (en_pacemaker e) (en_pacemaker_config e)
    (en_status_senders e) (en_current_view_qc e) (en_pending_epoch e) (en_evidence_store e)
    (en_liveness_tracker e) (en_msg_rate_limiter e) x.
End Updates.

Section Engine.
Context {St App Ev : Type} `{!BlockStore St, !Application App, !EvidenceStore Ev}.
Context {B3 : Blake3} {Vf : Verifier} {Sg : Signer}.
Context (iter : gmap vote_key (list Vote) → list (vote_key * list Vote)).
Context (has_persistence has_wal : bool) (wal_intent_ok : nat → Height → bool).
Context (clock_ms instant_ms : nat → N) (anc_fuel : nat).
Notation Eng := (Engine St App Ev).
Notation ME := (SM Eng engine_error).
Implicit Types e : Eng.

(** ** Access to the state *)

Definition en_state e : ConsensusState := w_state (en_w e).
Definition en_store e : St := w_store (en_w e).

(** A computation on the [World] inside the engine. *)
Definition lift_w {E A} (f : E → engine_error) (m : SM (World St App) E A) : ME A := λ e,
  match m (en_w e) with
  | (w, Ok a) => (en_set_w e w, Ok a)
  | (w, Err x) => (en_set_w e w, Err (f x))
  | (w, Panic) => (en_set_w e w, Panic)
  end.

(** A view-protocol function whose error the caller inspects. *)
Definition try_w {E A} (m : SM (World St App) E A) : ME (A + E) := λ e,
  match m (en_w e) with
  | (w, Ok a) => (en_set_w e w, Ok (inl a))
  | (w, Err x) => (en_set_w e w, Ok (inr x))
  | (w, Panic) => (en_set_w e w, Panic)
  end.

Definition vp {A} (m : SM (World St App) vp_error A) : ME A := lift_w ViewProtocolError m.

Definition e_state : ME ConsensusState := gets en_state.
Definition e_store : ME St := gets en_store.
Definition e_emit (x : Effect) : ME unit := vp (emit x).
Definition e_mod_state (f : ConsensusState → ConsensusState) : ME unit := vp (mod_state f).
Definition e_mod_store (f : St → St) : ME unit := vp (mod_store f).
Definition now : ME N := vp (read_clock instant_ms).

(** ** Verification *)

Definition verification_epochs e : list EpochNumber :=
  let cur := e_number (cs_current_epoch (en_state e)) in
  [cur; match en_previous_epoch e with Some p => e_number p | None => cur end].

Definition validator_set_for_epoch e (epoch : EpochNumber) : option ValidatorSet :=
  if epoch =? e_number (cs_current_epoch (en_state e)) then Some (cs_validator_set (en_state e))
  else match en_previous_epoch e with
       | Some p => if e_number p =? epoch then Some (e_validator_set p) else None
       | None => None
       end.

Definition verify_vote_qc e (qc : QuorumCertificate) (t : VoteType) : bool :=
  match validator_set_for_epoch e (qc_epoch qc) with
  | None => false
  | Some vs =>
      verify_vote_aggregate (cs_chain_id_hash (en_state e))
        (mkVoteAggregateRef vs (qc_epoch qc) (qc_view qc) (qc_block_hash qc) t
           (qc_aggregate_signature qc) [])
  end.

(** The canonical genesis certificate carries no signatures. *)
Definition is_genesis_qc (qc : QuorumCertificate) : bool :=
  bool_decide (qc_block_hash qc = GENESIS_HASH) && (qc_view qc =? 0) && (qc_epoch qc =? 0) &&
  (agg_count (qc_aggregate_signature qc) =? 0)%nat &&
  bool_decide (agg_signatures (qc_aggregate_signature qc) = []).

Definition verify_justify_qc e (qc : QuorumCertificate) : bool :=
  if is_genesis_qc qc then true else verify_vote_qc e qc TVote.

(** [for epoch in self.verification_epochs()] until a signature verifies. *)
Definition verify_any_epoch e (pk : PublicKey) (payload : EpochNumber → SignedPayload)
    (sig : Signature) : bool :=
  existsb (λ epoch, verify pk (payload_bytes (payload epoch)) sig) (verification_epochs e).

(** The loop body of [verify_tc] for the signer at index [i]. *)
Definition tc_step e (tc : TimeoutCertificate) (vs : ValidatorSet) (target_view : ViewNumber)
    (power : N) (i : nat) (vi : ValidatorInfo) (sig : Signature) : option N :=
  let hqc := mjoin (tc_highest_qcs tc !! i) in
  if match hqc with Some qc => negb (verify_justify_qc e qc) | None => false end then None
  else if verify_any_epoch e (vi_public_key vi)
            (λ epoch, PWish (cs_chain_id_hash (en_state e)) epoch target_view hqc) sig
  then Some (power +w power_of vs (vi_id vi))
  else None.

Definition verify_tc e (tc : TimeoutCertificate) (vs : ValidatorSet) : bool :=
  match checked_add64 (tc_view tc) 1 with
  | None => false
  | Some target_view =>
      let agg := tc_aggregate_signature tc in
      let n := validator_count vs in
      if negb (bool_decide (length (agg_signers agg) = n)) then false
      else if negb (bool_decide (length (tc_highest_qcs tc) = n)) then false
      else
        match walk_signers (vs_validators vs) (agg_signatures agg) (tc_step e tc vs target_view)
                0 0 0 (agg_signers agg) with
        | Some (power, sig_idx) =>
            if negb (bool_decide (sig_idx = length (agg_signatures agg))) then false
            else quorum_threshold vs <=? power
        | None => false
        end
  end.

Definition validate_double_cert e (dc : DoubleCertificate) : bool :=
  let inner := dc_inner_qc dc in
  let outer := dc_outer_qc dc in
  if negb (bool_decide (qc_block_hash inner = qc_block_hash outer)) then false
  else if negb (qc_view outer =? qc_view inner) then false
  else if negb (qc_epoch inner =? qc_epoch outer) then false
  else
    match validator_set_for_epoch e (qc_epoch inner) with
    | None => false
    | Some vs =>
        match canonical_vote_extensions dc vs with
        | None => false
        | Some vote_extensions =>
            let chain := cs_chain_id_hash (en_state e) in
            if negb (verify_vote_aggregate chain
                 (mkVoteAggregateRef vs (qc_epoch inner) (qc_view inner) (qc_block_hash inner)
                    TVote (qc_aggregate_signature inner) [])) then false
            else if negb (verify_vote_aggregate chain
                 (mkVoteAggregateRef vs (qc_epoch outer) (qc_view outer) (qc_block_hash outer)
                    TVote2 (qc_aggregate_signature outer) vote_extensions)) then false
            else true
        end
    end.

(** The view that decides whether a message is stale; [None] in the outer
    option is the overflow of a timeout certificate's view. *)
Definition msg_view (msg : ConsensusMessage) : option (option ViewNumber) :=
  match msg with
  | Propose _ _ _ _ _ => Some None
  | VoteMsg v | Vote2Msg v => Some (Some (v_view v))
  | Prepare certificate _ => Some (Some (qc_view certificate))
  | Wish target_view _ _ _ => Some (Some target_view)
  | TimeoutCert tc => Some <$> checked_add64 (tc_view tc) 1
  | StatusCert _ _ _ => Some None
  | Evidence _ => Some None
  end.

Definition verify_message_body e (msg : ConsensusMessage) : bool :=
  let s := en_state e in
  let vs := cs_validator_set s in
  let chain := cs_chain_id_hash s in
  match msg with
  | Propose block justify _ signature _ =>
      match get vs (b_proposer block) with
      | None => false
      | Some vi =>
          if negb (verify_any_epoch e (vi_public_key vi)
                     (λ epoch, PProposal chain epoch block justify) signature) then false
          else verify_justify_qc e justify
      end
  | VoteMsg vote | Vote2Msg vote =>
      match validator_set_for_epoch e (v_epoch vote) with
      | None => false
      | Some vote_vs =>
          match get vote_vs (v_validator vote) with
          | None => false
          | Some vi =>
              if bool_decide (v_vote_type vote = TVote) && bool_decide (is_Some (v_extension vote))
              then false
              else verify (vi_public_key vi)
                     (vote_signing_bytes chain (v_epoch vote) (v_view vote) (v_validator vote)
                        (v_block_hash vote) (v_vote_type vote) (v_extension vote))
                     (v_signature vote)
          end
      end
  | Prepare certificate signature =>
      match leader_for_view vs (qc_view certificate) with
      | None => false
      | Some leader =>
          if negb (verify_any_epoch e (vi_public_key leader)
                     (λ epoch, PPrepare chain epoch certificate) signature) then false
          else verify_vote_qc e certificate TVote
      end
  | Wish target_view validator highest_qc signature =>
      match get_with_previous vs (en_previous_epoch e) validator with
      | None => false
      | Some vi =>
          verify_any_epoch e (vi_public_key vi)
            (λ epoch, PWish chain epoch target_view highest_qc) signature
      end
  | TimeoutCert tc =>
      if verify_tc e tc vs then true
      else match en_previous_epoch e with
           | Some prev => verify_tc e tc (e_validator_set prev)
           | None => false
           end
  | StatusCert locked_qc validator signature =>
      match get vs validator with
      | None => false
      | Some vi =>
          verify_any_epoch e (vi_public_key vi)
            (λ epoch, PStatus chain epoch (cs_current_view s) validator locked_qc) signature
      end
  | Evidence _ => true
  end.

(** Messages of past views are accepted here and dropped by their handlers. *)
Definition verify_message e (msg : ConsensusMessage) : bool :=
  match msg_view msg with
  | None => false
  | Some (Some v) =>
      if v <? cs_current_view (en_state e) then true else verify_message_body e msg
  | Some None => verify_message_body e msg
  end.

(** ** Persistence and the write-ahead log *)

Definition persist_state : ME unit :=
  s ← e_state;
  e ← get_w;
  when has_persistence
    (e_emit (ESaveCurrentView (cs_current_view s)) ;;
     match cs_locked_qc s with Some qc => e_emit (ESaveLockedQc qc) | None => mret () end ;;
     match cs_highest_qc s with Some qc => e_emit (ESaveHighestQc qc) | None => mret () end ;;
     e_emit (ESaveLastCommittedHeight (cs_last_committed_height s)) ;;
     e_emit (ESaveCurrentEpoch (cs_current_epoch s)) ;;
     e_emit (ESavePreviousEpoch (en_previous_epoch e)) ;;
     e_emit (ESaveLastAppHash (cs_last_app_hash s)) ;;
     e_emit (ESavePendingEpoch (en_pending_epoch e)) ;;
     e_emit EPersistFlush).

(** [wal.log_commit_intent(h)], fatal when it fails; [wal_intent_ok] says whether
    the write succeeds, by the position in the trace. *)
Definition log_commit_intent (h : Height) : ME unit :=
  when has_wal
    (n ← gets (λ e, length (w_trace (en_w e)));
     if wal_intent_ok n h then e_emit (EWalIntent h) else panic).

(** [wal.log_commit_done(h)]; a failure is only logged. *)
Definition finish_wal_intent (h : Height) : ME unit := when has_wal (e_emit (EWalDone h)).

(** ** Commit post-processing *)

Definition index_txs (block : Block) (st : St) : St :=
  enumerate_foldl (λ i s tx, put_tx_index s (blake3 tx) (b_height block)
                               (N.of_nat i mod (u32_max + 1))) 0 st (decode_payload (b_payload block)).

(** The loop over the committed blocks, with the index into the responses. *)
Definition record_committed (result : CommitResult) (st : St) : St :=
  enumerate_foldl (λ i s block,
    let s := if bool_decide (qc_block_hash (cr_commit_qc result) = b_hash block)
             then put_commit_qc s (b_height block) (cr_commit_qc result) else s in
    let s := index_txs block s in
    match cr_block_responses result !! i with
    | Some resp => put_block_results s (b_height block) resp
    | None => s
    end) 0 st (cr_committed_blocks result).

Definition mark_blocks (blocks : list Block) (ev : Ev) : Ev :=
  foldl (λ ev block,
    foldl (λ ev proof, mark_committed ev (ep_view proof) (ep_validator proof)) ev
      (b_evidence block)) ev blocks.

Definition process_commit_result (result : CommitResult) : ME unit :=
  if bool_decide (cr_committed_blocks result = []) then mret ()
  else
    e_mod_store (record_committed result) ;;
    e_emit EStoreFlush ;;
    modify (λ e, en_set_evidence_store e
      (mark_blocks (cr_committed_blocks result) <$> en_evidence_store e)) ;;
    modify (λ e, en_set_liveness_tracker e
      (record_commit (en_liveness_tracker e) (cs_validator_set (en_state e))
         (agg_signers (qc_aggregate_signature (cr_commit_qc result))))) ;;
    persist_state ;;
    s ← e_state;
    finish_wal_intent (cs_last_committed_height s).

Definition adopt_commit_epoch (result : CommitResult) : ME unit :=
  match cr_activated_epoch result with
  | Some activated =>
      modify (λ e, en_set_previous_epoch e (Some (cs_current_epoch (en_state e)))) ;;
      e_mod_state (λ s, set_current_epoch s activated) ;;
      e_mod_state (λ s, set_validator_set s (e_validator_set activated))
  | None => mret ()
  end ;;
  modify (λ e, en_set_pending_epoch e (cr_pending_epoch result)).

(** The clearing of the intent when [committed] is false. *)
Definition finish_if (b : bool) (intent : option Height) : ME unit :=
  match intent with
  | Some h => when b (finish_wal_intent h)
  | None => mret ()
  end.

Definition apply_commit (dc : DoubleCertificate) : ME unit :=
  store ← e_store;
  let target_height := b_height <$> get_block store (qc_block_hash (dc_inner_qc dc)) in
  match target_height with
  | Some h => log_commit_intent h
  | None => mret ()
  end ;;
  let intent_height := if has_wal then target_height else None in
  e ← get_w;
  r ← try_w (try_commit dc (cs_current_epoch (en_state e)) (en_previous_epoch e)
               (en_pending_epoch e));
  match r with
  | inl result =>
      let committed := negb (bool_decide (cr_committed_blocks result = [])) in
      when committed (e_mod_state (λ s, set_last_app_hash s (cr_last_app_hash result))) ;;
      when committed (adopt_commit_epoch result) ;;
      process_commit_result result ;;
      finish_if (negb committed) intent_height
  | inr _ => finish_if true intent_height
  end.

Definition handle_equivocation (result : VoteResult) : ME unit :=
  match vr_equivocation result with
  | Some proof =>
      modify (λ e, en_set_evidence_store e
        ((λ ev, put_evidence ev proof) <$> en_evidence_store e)) ;;
      e_emit (EBroadcastEvidence proof)
  | None => mret ()
  end.

(** ** The view-change recursion

    [tp] stands for [self.try_propose()]. *)

(** [self.vote_collector.add_vote(..)] with the current set and epoch. *)
Definition e_add_vote (vote : Vote) : ME (VoteResult + vc_error) := λ e,
  let s := en_state e in
  let '(c, r) := add_vote iter (en_vote_collector e) (cs_validator_set s) vote
                   (e_number (cs_current_epoch s)) in
  let e := en_set_vote_collector e c in
  match r with
  | Ok r => (e, Ok (inl r))
  | Err x => (e, Ok (inr x))
  | Panic => (e, Panic)
  end.

Section Recursion.
Context (tp : ME unit).

(** The epoch switch of [advance_view_to]. *)
Definition switch_epoch (new_view : ViewNumber) : ME unit :=
  e ← get_w;
  match en_pending_epoch e with
  | Some new_epoch =>
      if e_start_view new_epoch <=? new_view then
        modify (λ e, en_set_pending_epoch e None) ;;
        let offline := offline_validators (en_liveness_tracker e) in
        when (negb (bool_decide (offline = [])))
          (let evidence :=
             (λ '(validator, missed, total),
                mkOfflineEvidence validator missed total
                  (cs_last_committed_height (en_state e))) <$> offline in
           e_emit (EAppOffline evidence) ;;
           vp (call_app (λ a, app_on_offline_validators a evidence)) ;; mret ()) ;;
        modify (λ e, en_set_liveness_tracker e (lt_reset (en_liveness_tracker e))) ;;
        modify (λ e, en_set_previous_epoch e (Some (cs_current_epoch (en_state e)))) ;;
        e_mod_state (λ s, set_validator_set s (e_validator_set new_epoch)) ;;
        e_mod_state (λ s, set_current_epoch s new_epoch) ;;
        e_emit (EOnEpochChange (e_number new_epoch) (e_validator_set new_epoch)) ;;
        modify (λ e, en_set_vote_collector e vc_new) ;;
        t ← now;
        modify (λ e, en_set_pacemaker e (pm_with_config t (en_pacemaker_config e)))
      else mret ()
  | None => mret ()
  end.

Definition advance_view_to (new_view : ViewNumber) (trigger : ViewEntryTrigger) : ME unit :=
  s ← e_state;
  if new_view <=? cs_current_view s then mret ()
  else
    e ← get_w;
    e_mod_state (λ s, set_pending_vote_extensions s
      (match trigger with
       | TrDoubleCert dc =>
           default [] (vs ← validator_set_for_epoch e (qc_epoch (dc_outer_qc dc));
                       canonical_vote_extensions dc vs)
       | _ => []
       end)) ;;
    let cur := cs_current_view s in
    modify (λ e, en_set_vote_collector e
      (vc_prune_before (vc_clear_view (en_vote_collector e) cur) cur)) ;;
    modify (λ e, en_set_pacemaker e (pm_prune_before (pm_clear_view (en_pacemaker e) cur) cur)) ;;
    modify (λ e, en_set_status_senders e ∅) ;;
    modify (λ e, en_set_current_view_qc e None) ;;
    switch_epoch new_view ;;
    vp (enter_view new_view trigger) ;;
    t ← now;
    modify (λ e, en_set_pacemaker e
      (match trigger with
       | TrDoubleCert _ => reset_on_progress t (en_pacemaker e)
       | _ => reset_timer t (en_pacemaker e)
       end)) ;;
    persist_state ;;
    s ← e_state;
    when (cs_is_leader s && bool_decide (cs_step s = WaitingForStatus)) tp.

Definition advance_view (trigger : ViewEntryTrigger) : ME unit :=
  s ← e_state;
  new_view ← match trigger with
             | TrDoubleCert _ => lift_res (ViewNumber_next (cs_current_view s))
             | TrTimeoutCert tc => mret (tc_view tc +w 1)
             | TrGenesis => mret 1
             end;
  advance_view_to new_view trigger.

(** The certificate paired with [outer] in a double certificate: the one saved
    in this view, else the locked or the highest one, if it is for its block. *)
Definition matching_qc (outer : QuorumCertificate) (o : option QuorumCertificate)
    : option QuorumCertificate :=
  match o with
  | Some qc => if bool_decide (qc_block_hash qc = qc_block_hash outer) then Some qc else None
  | None => None
  end.

Definition find_inner_qc (saved : option QuorumCertificate) (s : ConsensusState)
    (outer : QuorumCertificate) : option QuorumCertificate :=
  match matching_qc outer saved with
  | Some qc => Some qc
  | None =>
      match matching_qc outer (cs_locked_qc s) with
      | Some qc => Some qc
      | None => matching_qc outer (cs_highest_qc s)
      end
  end.

Definition on_double_cert_formed (outer_qc : QuorumCertificate)
    (extensions : list (ValidatorId * bytes)) : ME unit :=
  e ← get_w;
  modify (λ e, en_set_current_view_qc e None) ;;
  match find_inner_qc (en_current_view_qc e) (en_state e) outer_qc with
  | None => mret ()
  | Some inner_qc =>
      let dc := mkDC inner_qc outer_qc extensions in
      apply_commit dc ;;
      e_mod_state (λ s, set_highest_double_cert s (Some dc)) ;;
      advance_view (TrDoubleCert dc)
  end.

(** [self.app.extend_vote] for a stored block. *)
Definition extend_vote_for (block : option Block) : ME (option bytes) :=
  match block with
  | None => mret None
  | Some block =>
      s ← e_state;
      let ctx := state_context s (b_height block) (cs_current_view s) (b_proposer block)
                   (b_timestamp block) [] in
      vp (call_app (λ a, app_extend_vote a block ctx))
  end.

Definition on_qc_formed (qc : QuorumCertificate) : ME unit :=
  modify (λ e, en_set_current_view_qc e (Some qc)) ;;
  vp (on_votes_collected qc) ;;
  store ← e_store;
  vote_extension ← extend_vote_for (get_block store (qc_block_hash qc));
  ok ← vp (record_vote TVote2 (qc_block_hash qc));
  if negb ok then mret ()
  else
    s ← e_state;
    vp (persist_vote has_persistence TVote2 (cs_current_view s) (qc_block_hash qc)) ;;
    vote ← vp (make_vote TVote2 (qc_block_hash qc) vote_extension);
    e_mod_state (λ s, update_locked_qc s qc) ;;
    persist_state ;;
    s ← e_state;
    next ← lift_res (next_leader (cs_validator_set s) (cs_current_view s));
    if next =? cs_validator_id s then
      r ← e_add_vote vote;
      match r with
      | inl result =>
          handle_equivocation result ;;
          match vr_qc result with
          | Some outer_qc => on_double_cert_formed outer_qc (vr_extensions result)
          | None => mret ()
          end
      | inr _ => mret ()
      end
    else e_emit (ESendTo next (Vote2Msg vote)).

Definition leader_self_vote (block_hash : BlockHash) : ME unit :=
  ok ← vp (record_vote TVote block_hash);
  if negb ok then mret ()
  else
    s ← e_state;
    vp (persist_vote has_persistence TVote (cs_current_view s) block_hash) ;;
    vote ← vp (make_vote TVote block_hash None);
    r ← e_add_vote vote;
    match r with
    | inl result =>
        handle_equivocation result ;;
        match vr_qc result with Some qc => on_qc_formed qc | None => mret () end
    | inr _ => mret ()
    end.

(** One call of [try_propose]. *)
Definition try_propose_body : ME unit :=
  e ← get_w;
  let pending_evidence := match en_evidence_store e with Some s => get_pending s | None => [] end in
  r ← try_w (propose clock_ms anc_fuel pending_evidence
               (mkEpochContext (en_previous_epoch e) None));
  match r with
  | inl block => leader_self_vote (b_hash block)
  | inr AncestorFuel => throw OutOfFuel
  | inr _ => mret ()
  end.
End Recursion.

Fixpoint try_propose (fuel : nat) : ME unit :=
  match fuel with
  | O => throw OutOfFuel
  | S fuel => try_propose_body (try_propose fuel)
  end.

(** ** Handlers *)

Section Handlers.
Context (fuel : nat).
Let tp : ME unit := try_propose fuel.

(** Ancestors of a proposal that are new and hash to their declared hash. *)
Definition store_ancestors (last_committed : Height) (ancestor_blocks : list Block) (st : St) : St :=
  foldl (λ st ancestor,
    if (last_committed <? b_height ancestor) && bool_decide (get_block st (b_hash ancestor) = None)
    then if bool_decide (b_hash ancestor = compute_hash ancestor) then put_block st ancestor else st
    else st) st ancestor_blocks.

(** The justify certificate as commit evidence for the block it certifies. *)
Definition store_justify (justify : QuorumCertificate) (st : St) : St :=
  if (0 <? agg_count (qc_aggregate_signature justify))%nat then
    match get_block st (qc_block_hash justify) with
    | Some justified =>
        if bool_decide (get_commit_qc st (b_height justified) = None)
        then put_commit_qc st (b_height justified) justify else st
    | None => st
    end
  else st.

(** The part of the [Propose] handler after the view checks. *)
Definition accept_proposal (block : Block) (justify : QuorumCertificate)
    (double_cert : option DoubleCertificate) : ME unit :=
  e ← get_w;
  if match double_cert with Some dc => negb (validate_double_cert e dc) | None => false end
  then mret ()
  else
    e_mod_store (store_justify justify) ;;
    store ← e_store;
    let intent_height :=
      dc ← double_cert; b_height <$> get_block store (qc_block_hash (dc_inner_qc dc)) in
    match intent_height with Some h => log_commit_intent h | None => mret () end ;;
    e ← get_w;
    r ← try_w (on_proposal has_persistence clock_ms (mkProposalData block justify double_cert)
                 (mkEpochContext (en_previous_epoch e) (en_pending_epoch e)));
    match r with
    | inr x => finish_if true intent_height ;; throw (OnProposalFailed x)
    | inl res =>
        match pr_commit_result res with
        | Some result =>
            let committed := negb (bool_decide (cr_committed_blocks result = [])) in
            when committed (adopt_commit_epoch result) ;;
            process_commit_result result ;;
            finish_if (negb committed) intent_height
        | None =>
            match pr_pending_epoch res with
            | Some epoch => modify (λ e, en_set_pending_epoch e (Some epoch))
            | None => mret ()
            end ;;
            finish_if true intent_height
        end
    end.

Definition handle_propose (block : Block) (justify : QuorumCertificate)
    (double_cert : option DoubleCertificate) (ancestor_blocks : list Block) : ME unit :=
  s ← e_state;
  e_mod_store (store_ancestors (cs_last_committed_height s) ancestor_blocks) ;;
  if cs_current_view s <? b_view block then
    match double_cert with
    | None => mret ()
    | Some dc =>
        e ← get_w;
        if negb (validate_double_cert e dc) then mret ()
        else
          apply_commit dc ;;
          e_mod_state (λ s, set_highest_double_cert s (Some dc)) ;;
          advance_view_to tp (b_view block) (TrDoubleCert dc) ;;
          accept_proposal block justify double_cert
    end
  else if b_view block <? cs_current_view s then
    when ((cs_last_committed_height s <? b_height block) &&
          bool_decide (b_hash block = compute_hash block))
      (e_mod_store (λ st, put_block st block))
  else accept_proposal block justify double_cert.

Definition handle_vote (vote : Vote) : ME unit :=
  s ← e_state;
  if negb (v_view vote =? cs_current_view s) then mret ()
  else if negb (v_epoch vote =? e_number (cs_current_epoch s)) then mret ()
  else if negb (cs_is_leader s) then mret ()
  else if negb (bool_decide (v_vote_type vote = TVote)) then mret ()
  else
    r ← e_add_vote vote;
    match r with
    | inr x => throw (AddVoteFailed x)
    | inl result =>
        handle_equivocation result ;;
        match vr_qc result with Some qc => on_qc_formed tp qc | None => mret () end
    end.

Definition handle_prepare (certificate : QuorumCertificate) : ME unit :=
  s ← e_state;
  if qc_view certificate =? cs_current_view s then
    store ← e_store;
    tracks ← gets (λ e, app_tracks_app_hash (w_app (en_w e)));
    let block_opt := get_block store (qc_block_hash certificate) in
    if tracks && match block_opt with
                 | Some block => negb (bool_decide (b_app_hash block = cs_last_app_hash s))
                 | None => false
                 end
    then mret ()
    else
      vote_extension ← extend_vote_for block_opt;
      vote2 ← vp (on_prepare has_persistence certificate vote_extension);
      persist_state ;;
      match vote2 with
      | Some (next_leader_id, vote) => e_emit (ESendTo next_leader_id (Vote2Msg vote))
      | None => mret ()
      end
  else mret ().

Definition handle_vote2 (vote : Vote) : ME unit :=
  s ← e_state;
  if negb (v_view vote =? cs_current_view s) then mret ()
  else if negb (v_epoch vote =? e_number (cs_current_epoch s)) then mret ()
  else if negb (bool_decide (v_vote_type vote = TVote2)) then mret ()
  else
    ok ← match v_extension vote with
         | Some ext =>
             vp (call_app (λ a, app_verify_vote_extension a ext (v_block_hash vote)
                                  (v_validator vote)))
         | None => mret true
         end;
    if negb ok then mret ()
    else
      r ← e_add_vote vote;
      match r with
      | inr x => throw (AddVoteFailed x)
      | inl result =>
          handle_equivocation result ;;
          match vr_qc result with
          | Some outer_qc => on_double_cert_formed tp outer_qc (vr_extensions result)
          | None => mret ()
          end
      end.

(** [self.pacemaker.add_wish(..)] with the current set. *)
Definition e_add_wish (target_view : ViewNumber) (validator : ValidatorId)
    (highest_qc : option QuorumCertificate) (signature : Signature)
    : ME (option TimeoutCertificate) := λ e,
  let '(p, tc) := add_wish (en_pacemaker e) (cs_validator_set (en_state e)) target_view validator
                    highest_qc signature in
  (en_set_pacemaker e p, Ok tc).

Definition handle_wish (target_view : ViewNumber) (validator : ValidatorId)
    (highest_qc : option QuorumCertificate) (signature : Signature) : ME unit :=
  e ← get_w;
  let cur := cs_current_view (en_state e) in
  if target_view <? cur then mret ()
  else if saturating_add64 cur 1 <? target_view then mret ()
  else if match highest_qc with Some qc => negb (verify_justify_qc e qc) | None => false end
  then mret ()
  else
    tc ← e_add_wish target_view validator highest_qc signature;
    match tc with
    | Some tc =>
        e_emit (EBroadcast (TimeoutCert tc)) ;;
        advance_view tp (TrTimeoutCert tc)
    | None => mret ()
    end.

Definition handle_timeout_cert (tc : TimeoutCertificate) : ME unit :=
  s ← e_state;
  let new_view := tc_view tc +w 1 in
  relay ← (if cs_current_view s <=? new_view then
             λ e, let '(p, b) := should_relay_tc (en_pacemaker e) tc in (en_set_pacemaker e p, Ok b)
           else mret false);
  when relay (e_emit (EBroadcast (TimeoutCert tc))) ;;
  when (cs_current_view s <? new_view) (advance_view tp (TrTimeoutCert tc)).

(** The power of the status senders; the sum wraps. *)
Definition status_power (vs : ValidatorSet) (senders : gset N) : N :=
  set_fold (λ v acc, acc +w power_of vs v) 0 senders.

Definition handle_status (locked_qc : option QuorumCertificate) (validator : ValidatorId) : ME unit :=
  e ← get_w;
  if cs_is_leader (en_state e) && bool_decide (cs_step (en_state e) = WaitingForStatus) then
    match locked_qc with
    | Some qc =>
        when ((0 <? agg_count (qc_aggregate_signature qc))%nat && verify_vote_qc e qc TVote)
          (e_mod_state (λ s, update_highest_qc s qc))
    | None => mret ()
    end ;;
    modify (λ e, en_set_status_senders e ({[validator]} ∪ en_status_senders e)) ;;
    e ← get_w;
    let vs := cs_validator_set (en_state e) in
    let total_power := status_power vs (en_status_senders e) +w
                         power_of vs (cs_validator_id (en_state e)) in
    when (quorum_threshold vs <=? total_power) tp
  else mret ().

Definition handle_evidence (proof : EquivocationProof) : ME unit :=
  e ← get_w;
  let chain := cs_chain_id_hash (en_state e) in
  match get_with_previous (cs_validator_set (en_state e)) (en_previous_epoch e)
          (ep_validator proof) with
  | None => mret ()
  | Some vi =>
      if bool_decide (ep_block_hash_a proof = ep_block_hash_b proof) then mret ()
      else if negb (evidence_signature_ok chain vi proof (ep_block_hash_a proof)
                      (ep_signature_a proof) (ep_extension_a proof)) ||
              negb (evidence_signature_ok chain vi proof (ep_block_hash_b proof)
                      (ep_signature_b proof) (ep_extension_b proof)) then mret ()
      else modify (λ e, en_set_evidence_store e
             ((λ ev, put_evidence ev proof) <$> en_evidence_store e))
  end.

Definition MAX_MSG_PER_SEC : N := 100.

(** The rate limiter: [true] when the message is over the sender's limit. *)
Definition rate_limited (sender : option ValidatorId) : ME bool :=
  match sender with
  | None => mret false
  | Some vid =>
      t ← now;
      e ← get_w;
      let '(start, count) := default (t, 0) (en_msg_rate_limiter e !! vid) in
      if 1 <=? (t - start) / 1000 then
        modify (λ e, en_set_msg_rate_limiter e (<[vid := (t, 1)]> (en_msg_rate_limiter e))) ;;
        mret false
      else
        let count := wrapping_add32 count 1 in
        modify (λ e, en_set_msg_rate_limiter e
          (<[vid := (start, count)]> (en_msg_rate_limiter e))) ;;
        mret (MAX_MSG_PER_SEC <? count)
  end.

Definition dispatch (msg : ConsensusMessage) : ME unit :=
  match msg with
  | Propose block justify double_cert _ ancestor_blocks =>
      handle_propose block justify double_cert ancestor_blocks
  | VoteMsg vote => handle_vote vote
  | Prepare certificate _ => handle_prepare certificate
  | Vote2Msg vote => handle_vote2 vote
  | Wish target_view validator highest_qc signature =>
      handle_wish target_view validator highest_qc signature
  | TimeoutCert tc => handle_timeout_cert tc
  | StatusCert locked_qc validator _ => handle_status locked_qc validator
  | Evidence proof => handle_evidence proof
  end.

Definition handle_message (sender : option ValidatorId) (msg : ConsensusMessage) : ME unit :=
  limited ← rate_limited sender;
  if limited : bool then mret ()
  else
    e ← get_w;
    if negb (verify_message e msg) then mret () else dispatch msg.

Definition handle_timeout : ME unit :=
  s ← e_state;
  if negb (0 <? power_of (cs_validator_set s) (cs_validator_id s)) then
    t ← now; modify (λ e, en_set_pacemaker e (on_timeout t (en_pacemaker e)))
  else
    wish ← vp (build_wish (cs_chain_id_hash s) (e_number (cs_current_epoch s)) (cs_current_view s)
                 (cs_validator_id s) (cs_highest_qc s));
    e_emit (EBroadcast wish) ;;
    tc ← match wish with
         | Wish target_view validator highest_qc signature =>
             e_add_wish target_view validator highest_qc signature
         | _ => mret None
         end;
    match tc with
    | Some tc =>
        e_emit (EBroadcast (TimeoutCert tc)) ;;
        advance_view tp (TrTimeoutCert tc)
    | None => t ← now; modify (λ e, en_set_pacemaker e (on_timeout t (en_pacemaker e)))
    end.

(** ** Start-up *)

Definition enter_genesis_view : ME unit :=
  e_mod_state (λ s, set_highest_qc s
    (Some (mkQC GENESIS_HASH 0 (agg_new (validator_count (cs_validator_set s)))
             (e_number (cs_current_epoch s))))) ;;
  vp (enter_view 1 TrGenesis) ;;
  t ← now;
  modify (λ e, en_set_pacemaker e (reset_timer t (en_pacemaker e))) ;;
  s ← e_state;
  when (cs_is_leader s)
    (e_mod_state (λ s, set_step s WaitingForStatus) ;; tp).

(** The part of [run] before the event loop; a divergence from the application
    exits the process. *)
Definition run_start : ME unit :=
  e ← get_w;
  let info := app_info (w_app (en_w e)) in
  let s := en_state e in
  if (0 <? ai_last_block_height info) &&
     (negb (ai_last_block_height info =? cs_last_committed_height s) ||
      negb (bool_decide (ai_last_block_app_hash info = cs_last_app_hash s))) then throw Halted
  else if cs_current_view s <=? 1 then enter_genesis_view
  else t ← now; modify (λ e, en_set_pacemaker e (reset_timer t (en_pacemaker e))).

(** ** The event loop *)

Inductive Input : Type :=
| InMessage (sender : option ValidatorId) (msg : ConsensusMessage)
| InTimeout.

Definition handle (i : Input) : ME unit :=
  match i with
  | InMessage sender msg => handle_message sender msg
  | InTimeout => handle_timeout
  end.

(** One turn of the loop: an error of a handler is logged and the loop goes on;
    a panic ends the process. *)
Inductive step : Eng → Eng → Prop :=
| step_ok i e e' : handle i e = (e', Ok ()) → step e e'
| step_err i e e' x : handle i e = (e', Err x) → x ≠ OutOfFuel → step e e'.
End Handlers.

(** [ConsensusEngine::new] *)
Definition engine_new (t : N) (w : World St App) (config : option PacemakerConfig)
    (evidence_store : option Ev) (pending_epoch previous_epoch : option Epoch) : Eng :=
  let pc := default PacemakerConfig_default config in
  mkEngine w vc_new (pm_with_config t pc) pc ∅ None pending_epoch evidence_store lt_new ∅
    previous_epoch.
End Engine.
