(* ===== verification/Sync.v ===== *)
(** * Block synchronisation ([hotmint-consensus/src/sync.rs])

    A node that is behind requests blocks from a peer and replays them: each
    block is authenticated, stored, executed and checkpointed.  The peer is a
    list of what [recv] returns within its timeout; the requests sent to it are
    recorded. *)

From S2P Require Import Prelude Types ValidatorSet Encoding Aggregate State BlockStore World.
From S2P Require Import Commit Engine.

(** ** Messages ([hotmint-types/src/sync.rs]) *)

Definition MAX_SYNC_BATCH : N := 100.

Inductive SyncRequest : Type :=
| GetBlocks (from_height to_height : Height)
| GetStatus
| GetSnapshots
| GetSnapshotChunk (height : Height) (chunk_index : N).

Record SnapshotInfo : Type := mkSnapshotInfo {
  si_height : Height;
  si_chunks : N;
  si_hash : bytes;
}.

Inductive SyncResponse : Type :=
| RespBlocks (blocks : list (Block * option QuorumCertificate))
| RespStatus (last_committed_height : Height) (current_view : ViewNumber) (epoch : EpochNumber)
| RespError
| RespSnapshots (l : list SnapshotInfo)
| RespSnapshotChunk (height : Height) (chunk_index : N) (data : bytes).

(** [timeout(SYNC_TIMEOUT, response_rx.recv())] *)
Inductive recv_result : Type :=
| Received (r : SyncResponse)
| Closed
| TimedOut.

Inductive sync_error : Type :=
| CommittedHeightOverflow | SyHeightDiscontinuity | MissingCommitted | ChainDiscontinuity
| SyncQcHashMismatch | SyncQcInvalid | MissingCommitQc | WrongProposer | SyncHashMismatch
| AppHashMismatch | SyncEvidence (e : evidence_error) | WalIntentFailed | WalDoneFailed
| AppRejected | SyncUpdates (e : vs_error) | SyncCommit (e : commit_error)
| ChannelClosed | PeerError | UnexpectedResponse | RequestTimedOut | SyncFuel.

(** ** Certificates *)

Record SyncVoteAggregate : Type := mkSyncVoteAggregate {
  sva_validator_set : ValidatorSet;
  sva_epoch : EpochNumber;
  sva_view : ViewNumber;
  sva_block_hash : BlockHash;
  sva_vote_type : VoteType;
  sva_aggregate_signature : AggregateSignature;
}.

Definition sync_verify_vote_aggregate `{Blake3, Verifier} (chain_id_hash : bytes)
    (a : SyncVoteAggregate) : bool :=
  let vs := sva_validator_set a in
  let agg := sva_aggregate_signature a in
  if negb (bool_decide (length (agg_signers agg) = validator_count vs)) then false
  else
    match
      walk_signers (vs_validators vs) (agg_signatures agg)
        (λ (_ : unit) (_ : nat) vi sig,
           let msg := vote_signing_bytes chain_id_hash (sva_epoch a) (sva_view a) (vi_id vi)
                        (sva_block_hash a) (sva_vote_type a) None in
           if verify (vi_public_key vi) msg sig then Some () else None)
        () 0 0 (agg_signers agg)
    with
    | Some (_, sig_idx) => bool_decide (sig_idx = length (agg_signatures agg)) && has_quorum vs agg
    | None => false
    end.

Definition verify_vote_qc `{Blake3, Verifier} (chain_id_hash : bytes) (current_epoch : Epoch)
    (qc : QuorumCertificate) : bool :=
  (qc_epoch qc =? e_number current_epoch) &&
  sync_verify_vote_aggregate chain_id_hash
    (mkSyncVoteAggregate (e_validator_set current_epoch) (qc_epoch qc) (qc_view qc)
       (qc_block_hash qc) TVote (qc_aggregate_signature qc)).

(** ** State *)

(** The borrowed variables: the store, the application and, of the consensus
    state, the epoch, the committed height, the application hash and the chain
    id; the pending and the previous epoch of the engine. *)
Record SyncState (St App : Type) : Type := mkSyncState {
  sy_world : World St App;
  sy_pending_epoch : option Epoch;
  sy_previous_epoch : option Epoch;
}.
Arguments mkSyncState {St App}.
Arguments sy_world {St App}.
Arguments sy_pending_epoch {St App}.
Arguments sy_previous_epoch {St App}.

Section Sync.
Context {St App : Type} `{!BlockStore St, !Application App}.
Context {B3 : Blake3} {Vf : Verifier}.
(** Whether the persistence and the log are present, and whether the n-th
    effect, a write to the log, succeeds. *)
Context (has_persistence has_wal : bool) (wal_ok : nat → bool).
Notation Sy := (SyncState St App).
Notation MS := (SM Sy sync_error).
Implicit Types s : Sy.

Definition sy_state s : ConsensusState := w_state (sy_world s).
Definition sy_height s : Height := cs_last_committed_height (sy_state s).
Definition sy_epoch s : Epoch := cs_current_epoch (sy_state s).
Definition sy_set_world s (w : World St App) : Sy :=
  mkSyncState w (sy_pending_epoch s) (sy_previous_epoch s).
Definition sy_set_pending s (p : option Epoch) : Sy :=
  mkSyncState (sy_world s) p (sy_previous_epoch s).
Definition sy_set_previous s (p : option Epoch) : Sy :=
  mkSyncState (sy_world s) (sy_pending_epoch s) p.

(** A computation on the world. *)
Definition in_world {A} (m : SM (World St App) commit_error A) : MS A := λ s,
  match m (sy_world s) with
  | (w, Ok a) => (sy_set_world s w, Ok a)
  | (w, Err e) => (sy_set_world s w, Err (SyncCommit e))
  | (w, Panic) => (sy_set_world s w, Panic)
  end.

(** [wal.log_commit_intent(h)] and [wal.log_commit_done(h)]; a failed
    write is taken to leave the log as it was ([Wal] has the torn writes). *)
Definition sync_wal (x : Effect) (e : sync_error) : MS unit :=
  when has_wal
    (s ← get_w;
     if wal_ok (length (w_trace (sy_world s))) then in_world (emit x) else throw e).

(** ** Authentication of a block *)

Definition check_certificate (chain_id_hash : bytes) (replay_epoch : Epoch) (block : Block)
    (qc : option QuorumCertificate) : res sync_error unit :=
  match qc with
  | Some cert =>
      if negb (bool_decide (qc_block_hash cert = b_hash block)) then Err SyncQcHashMismatch
      else if negb (verify_vote_qc chain_id_hash replay_epoch cert) then Err SyncQcInvalid
      else Ok ()
  | None => if 0 <? b_height block then Err MissingCommitQc else Ok ()
  end.

(** The checks that precede the first write, under the epoch the block is
    replayed in. *)
Definition check_block s (replay_epoch : Epoch) (block : Block) (qc : option QuorumCertificate)
    : res sync_error unit :=
  expected_height ← ok_or (checked_add64 (sy_height s) 1) CommittedHeightOverflow;
  guard_err (negb (b_height block =? expected_height)) SyHeightDiscontinuity ;;
  expected_parent ←
    (if sy_height s =? 0 then Ok GENESIS_HASH
     else b_hash <$> ok_or (get_block_by_height (w_store (sy_world s)) (sy_height s)) MissingCommitted);
  guard_err (negb (bool_decide (b_parent_hash block = expected_parent))) ChainDiscontinuity ;;
  check_certificate (cs_chain_id_hash (sy_state s)) replay_epoch block qc ;;
  guard_err (match leader_for_view (e_validator_set replay_epoch) (b_view block) with
             | Some expected_leader => negb (b_proposer block =? vi_id expected_leader)
             | None => false
             end) WrongProposer ;;
  guard_err (negb (bool_decide (b_hash block = compute_hash block))) SyncHashMismatch ;;
  guard_err (app_tracks_app_hash (w_app (sy_world s)) &&
             negb (bool_decide (b_app_hash block = cs_last_app_hash (sy_state s)))) AppHashMismatch ;;
  match validate_block_evidence block replay_epoch (sy_previous_epoch s) (cs_chain_id_hash (sy_state s)) with
  | Ok _ => Ok ()
  | Err e => Err (SyncEvidence e)
  | Panic => Panic
  end.

(** ** Replay *)

Definition activates (pending : option Epoch) (view : ViewNumber) : bool :=
  match pending with Some p => e_start_view p <=? view | None => false end.

Definition store_block (block : Block) (qc : option QuorumCertificate) (st : St) : St :=
  let st := put_block st block in
  match qc with Some q => put_commit_qc st (b_height block) q | None => st end.

Definition persist_sync_checkpoint (pending_epoch : option Epoch) : MS unit :=
  when has_persistence
    (s ← get_w;
     in_world (
       emit (ESaveLastCommittedHeight (sy_height s)) ;;
       emit (ESaveCurrentEpoch (sy_epoch s)) ;;
       emit (ESavePreviousEpoch (sy_previous_epoch s)) ;;
       emit (ESaveLastAppHash (cs_last_app_hash (sy_state s))) ;;
       emit (ESavePendingEpoch pending_epoch) ;;
       emit EPersistFlush)).

(** From the application's execution on. *)
Definition finish_block (block : Block) (pending_epoch : option Epoch) (ctx : BlockContext)
    : MS (option Epoch) :=
  response ← in_world (execute_committed_block block ctx);
  s ← get_w;
  let last_app_hash := if app_tracks_app_hash (w_app (sy_world s)) then ebr_app_hash response
                       else b_app_hash block in
  in_world (mod_state (λ c, set_last_app_hash c last_app_hash)) ;;
  pending_epoch ←
    (if bool_decide (ebr_validator_updates response = []) then mret pending_epoch
     else
       ep ← lift_res (chained_pending_epoch (sy_epoch s) pending_epoch (b_view block)
              (ebr_validator_updates response) SyncUpdates);
       mret (Some ep));
  in_world (mod_store (index_txs block)) ;;
  in_world (mod_store (λ st,
    match get_block_results st (b_height block) with
    | None => put_block_results st (b_height block) response
    | Some _ => st
    end)) ;;
  in_world (emit EStoreFlush) ;;
  in_world (mod_state (λ c, set_last_committed_height c (b_height block))) ;;
  modify (λ s, sy_set_pending s pending_epoch) ;;
  persist_sync_checkpoint pending_epoch ;;
  sync_wal (EWalDone (b_height block)) WalDoneFailed ;;
  mret pending_epoch.

(** One iteration of the loop of [replay_blocks]; the result is the loop's
    [pending_epoch]. *)
Definition replay_block (pending_epoch : option Epoch) (item : Block * option QuorumCertificate)
    : MS (option Epoch) :=
  let '(block, qc) := item in
  let activates_epoch := activates pending_epoch (b_view block) in
  s ← get_w;
  let replay_epoch := if activates_epoch then default (sy_epoch s) pending_epoch else sy_epoch s in
  lift_res (check_block s replay_epoch block qc) ;;
  in_world (mod_store (store_block block qc)) ;;
  in_world (emit EStoreFlush) ;;
  sync_wal (EWalIntent (b_height block)) WalIntentFailed ;;
  let ctx := commit_context block replay_epoch in
  ok ← in_world (call_app (λ a, app_validate_block a block ctx));
  if negb ok then throw AppRejected
  else
    (if activates_epoch then modify (λ s, sy_set_previous s (Some (sy_epoch s))) else mret ()) ;;
    in_world (mod_state (λ c, set_current_epoch c replay_epoch)) ;;
    finish_block block (if activates_epoch then None else pending_epoch) ctx.

Fixpoint replay_loop (pending_epoch : option Epoch) (blocks : list (Block * option QuorumCertificate))
    : MS (option Epoch) :=
  match blocks with
  | [] => mret pending_epoch
  | item :: rest => p ← replay_block pending_epoch item; replay_loop p rest
  end.

Definition replay_blocks (blocks : list (Block * option QuorumCertificate)) : MS (option Epoch) :=
  s ← get_w;
  p ← replay_loop (sy_pending_epoch s) blocks;
  modify (λ s, sy_set_pending s p) ;;
  mret p.

(** ** The exchange with a peer *)

(** [peer reqs n] is what the [n]-th [recv] yields after the requests [reqs];
    [send_ok n] says whether the channel takes the [n]-th request. *)
Context (peer : list SyncRequest → nat → recv_result) (send_ok : nat → bool).

Record SyncIO : Type := mkSyncIO {
  io_sync : Sy;
  io_requests : list SyncRequest;
  io_sent : nat;
  io_received : nat;
}.
Notation MIO := (SM SyncIO sync_error).

Definition send (r : SyncRequest) : MIO bool := λ io,
  if send_ok (io_sent io)
  then (mkSyncIO (io_sync io) (io_requests io ++ [r]) (S (io_sent io)) (io_received io), Ok true)
  else (mkSyncIO (io_sync io) (io_requests io) (S (io_sent io)) (io_received io), Ok false).

(** [request_tx.send(r).await.map_err(..)?] *)
Definition send_or_fail (r : SyncRequest) : MIO unit :=
  ok ← send r; if ok : bool then mret () else throw ChannelClosed.

Definition recv : MIO recv_result := λ io,
  (mkSyncIO (io_sync io) (io_requests io) (io_sent io) (S (io_received io)),
   Ok (peer (io_requests io) (io_received io))).

Definition in_sync {A} (m : MS A) : MIO A := λ io,
  let '(s, r) := m (io_sync io) in
  (mkSyncIO s (io_requests io) (io_sent io) (io_received io), r).

Definition max_snapshot (l : list SnapshotInfo) : Height :=
  foldr (λ i m, N.max (si_height i) m) 0 l.

(** Snapshots are only inspected: every path falls back to block sync. *)
Definition sync_via_snapshot : MIO bool :=
  send_or_fail GetSnapshots ;;
  r ← recv;
  match r with
  | Received (RespSnapshots snapshots) =>
      if bool_decide (snapshots = []) then mret false
      else
        io ← get_w;
        if max_snapshot snapshots <=? sy_height (io_sync io) then mret false else mret false
  | Received RespError => throw PeerError
  | Received _ => throw UnexpectedResponse
  | Closed => throw ChannelClosed
  | TimedOut => mret false
  end.

(** Wait for a batch. *)
Definition recv_blocks : MIO (list (Block * option QuorumCertificate)) :=
  r ← recv;
  match r with
  | Received (RespBlocks blocks) => mret blocks
  | Received RespError => throw PeerError
  | Received _ => throw UnexpectedResponse
  | Closed => throw ChannelClosed
  | TimedOut => throw RequestTimedOut
  end.

(** [min(from + MAX_SYNC_BATCH - 1, peer_status)] *)
Definition batch_end (from peer_status : Height) : Height :=
  N.min (wrapping_sub64 (from +w MAX_SYNC_BATCH) 1) peer_status.

(** The pipelined loop; each iteration commits at least one height, so the
    distance to the peer's height bounds the iterations. *)
Fixpoint sync_loop (fuel : nat) (peer_status first_from : Height) : MIO unit :=
  match fuel with
  | O => throw SyncFuel
  | S fuel =>
      blocks ← recv_blocks;
      if bool_decide (blocks = []) then mret ()
      else
        io ← get_w;
        let synced_through := sy_height (io_sync io) +w (N.of_nat (length blocks)) in
        let needs_more := synced_through <? peer_status in
        (if needs_more then
           let next_from := match last blocks with
                            | Some (b, _) => b_height b +w 1
                            | None => first_from
                            end in
           send (GetBlocks next_from (batch_end next_from peer_status)) ;; mret ()
         else mret ()) ;;
        p ← in_sync (replay_blocks blocks);
        match p with
        | Some epoch => in_sync (modify (λ s, sy_set_pending s (Some epoch)))
        | None => mret ()
        end ;;
        io ← get_w;
        if (peer_status <=? sy_height (io_sync io)) || negb needs_more then mret ()
        else sync_loop fuel peer_status first_from
  end.

Definition sync_to_tip : MIO unit :=
  send_or_fail GetStatus ;;
  r ← recv;
  match r with
  | Received (RespStatus peer_status _ _) =>
      io ← get_w;
      if peer_status <=? sy_height (io_sync io) then mret ()
      else
        let gap := saturating_sub peer_status (sy_height (io_sync io)) in
        (if MAX_SYNC_BATCH <? gap then try_ (E' := sync_error) sync_via_snapshot ;; mret () else mret ()) ;;
        io ← get_w;
        if peer_status <=? sy_height (io_sync io) then mret ()
        else
          let first_from := sy_height (io_sync io) +w 1 in
          send_or_fail (GetBlocks first_from (batch_end first_from peer_status)) ;;
          sync_loop (S (N.to_nat (peer_status - sy_height (io_sync io)))) peer_status first_from
  | Received RespError => throw PeerError
  | Received _ => throw UnexpectedResponse
  | Closed => throw ChannelClosed
  | TimedOut => mret ()
  end.

(** [query_peer_status]: [None] on any failure. *)
Definition query_peer_status : MIO (option Height) :=
  ok ← send GetStatus;
  if negb ok then mret None
  else
    r ← recv;
    mret (match r with Received (RespStatus h _ _) => Some h | _ => None end).
End Sync.

(** ** The responder ([hotmint/src/bin/node.rs])

    The status is that of the engine's watch channel, the snapshots and their
    chunks are the application's. *)
(** [ConsensusStatus] ([hotmint-api/src/rpc.rs]), which the node publishes. *)
Record ConsensusStatus : Type := mkConsensusStatus {
  st_current_view : ViewNumber;
  st_last_committed_height : Height;
  st_epoch_number : EpochNumber;
  st_validator_count : nat;
  st_epoch_start_view : ViewNumber;
}.

Section Responder.
Context {St : Type} `{!BlockStore St}.

Definition respond (store : St) (status : ConsensusStatus) (snapshots : list SnapshotInfo)
    (load_chunk : Height → N → bytes) (r : SyncRequest) : SyncResponse :=
  match r with
  | GetStatus => RespStatus (st_last_committed_height status) (st_current_view status)
                   (st_epoch_number status)
  | GetBlocks from_height to_height =>
      let clamped := N.min to_height (saturating_add64 from_height (MAX_SYNC_BATCH - 1)) in
      RespBlocks ((λ b, (b, get_commit_qc store (b_height b))) <$>
                    get_blocks_in_range store from_height clamped)
  | GetSnapshots => RespSnapshots snapshots
  | GetSnapshotChunk height chunk_index => RespSnapshotChunk height chunk_index (load_chunk height chunk_index)
  end.
End Responder.
