(* ===== verification/SyncSafety.v ===== *)
(** * Correctness of block synchronisation

    What a replay of blocks does on every outcome, its agreement with the live
    commit path of [Commit.v], and the exchange with a peer. *)

From S2P Require Import Prelude Types ValidatorSet Encoding Aggregate State BlockStore World.
From S2P Require Import Commit Engine Sync.

Lemma SM_bind_Ok {W E A B} (m : SM W E A) (k : A → SM W E B) w w' b :
  (m ≫= k) w = (w', Ok b) ↔ ∃ w1 a, m w = (w1, Ok a) ∧ k a w1 = (w', Ok b).
Proof.
  unfold mbind, SM_bind. destruct (m w) as [w1 [a|e|]]; split; try (by intros; simplify_eq).
  - eauto.
  - intros (?&?&[= <- <-]&?). done.
  - intros (?&?&?&?). simplify_eq.
  - intros (?&?&?&?). simplify_eq.
Qed.

Lemma SM_bind_run {W E A B} (m : SM W E A) (k : A → SM W E B) w w1 a :
  m w = (w1, Ok a) → (m ≫= k) w = k a w1.
Proof. intros Hm. unfold mbind, SM_bind. by rewrite Hm. Qed.

(** The blocks the application has committed, most recent first. *)
Definition applied (tr : list Effect) : list Block :=
  omap (λ x, match x with EAppCommit b => Some b | _ => None end) tr.

Lemma applied_app t1 t2 : applied (t1 ++ t2) = applied t1 ++ applied t2.
Proof. apply omap_app. Qed.

Lemma applied_block_effects b : applied (block_effects b) = [b].
Proof.
  unfold block_effects. simpl. f_equal. change (applied (reverse (EAppEvidence <$> b_evidence b)) = []).
  apply elem_of_nil_inv. intros c Hc. apply list_elem_of_omap in Hc as (x & Hx & E).
  rewrite elem_of_reverse in Hx. apply list_elem_of_fmap in Hx as (p & -> & _). done.
Qed.

Section Safety.
Context {St App : Type} `{!BlockStore St, !BlockStoreLaws St, !Application App}.
Context {B3 : Blake3} {Vf : Verifier}.
Context (has_persistence has_wal : bool) (wal_ok : nat → bool).
Notation Sy := (SyncState St App).
Notation replay_block := (replay_block has_persistence has_wal wal_ok).
Notation replay_loop := (replay_loop has_persistence has_wal wal_ok).
Notation replay_blocks := (replay_blocks has_persistence has_wal wal_ok).
Implicit Types s : Sy.

(** ** Rules *)

Lemma wp_in_world {A} (m : SM (World St App) commit_error A) (Q : Sy → res sync_error A → Prop) s :
  wp m (λ w r, Q (sy_set_world s w)
    match r with Ok a => Ok a | Err e => Err (SyncCommit e) | Panic => Panic end) (sy_world s) →
  wp (in_world m) Q s.
Proof. unfold wp, in_world. by destruct (m (sy_world s)) as [w [a|e|]]. Qed.

Lemma wp_sync_wal x e (Q : Sy → res sync_error unit → Prop) s :
  Q s (Ok ()) → Q (sy_set_world s (w_emit (sy_world s) x)) (Ok ()) → Q s (Err e) →
  wp (sync_wal has_wal wal_ok x e) Q s.
Proof.
  intros H1 H2 H3. unfold sync_wal, when. destruct has_wal; [|done].
  apply wp_bind, wp_get_w. by destruct (wal_ok _).
Qed.

Ltac sy_steps :=
  repeat (first [wp_step | lazymatch goal with |- wp (in_world _) _ _ => apply wp_in_world end];
          cbv beta iota zeta).

(** ** One block *)

(** The epoch a block is replayed in. *)
Definition replay_epoch s (b : Block) : Epoch :=
  if activates (sy_pending_epoch s) (b_view b) then default (sy_epoch s) (sy_pending_epoch s) else sy_epoch s.

(** The hash the next block must name as its parent. *)
Definition sy_tip s : option BlockHash :=
  if sy_height s =? 0 then Some GENESIS_HASH
  else b_hash <$> get_block_by_height (w_store (sy_world s)) (sy_height s).

(** The block is authentic and continues the chain. *)
Record authentic s (b : Block) (qc : option QuorumCertificate) : Prop := {
  au_height : b_height b = sy_height s + 1;
  au_bound : b_height b ≤ u64_max;
  au_parent : sy_tip s = Some (b_parent_hash b);
  au_hash : b_hash b = compute_hash b;
  au_cert : ∃ q, qc = Some q ∧ qc_block_hash q = b_hash b ∧
    verify_vote_qc (cs_chain_id_hash (sy_state s)) (replay_epoch s b) q = true;
  au_proposer : ∀ v, leader_for_view (e_validator_set (replay_epoch s b)) (b_view b) = Some v →
    b_proposer b = vi_id v;
  au_app_hash : app_tracks_app_hash (w_app (sy_world s)) = true →
    b_app_hash b = cs_last_app_hash (sy_state s);
  au_evidence : validate_block_evidence b (replay_epoch s b) (sy_previous_epoch s)
    (cs_chain_id_hash (sy_state s)) = Ok ();
}.

Lemma check_certificate_Ok chain ep b qc :
  0 < b_height b →
  check_certificate chain ep b qc = Ok () ↔
  ∃ q, qc = Some q ∧ qc_block_hash q = b_hash b ∧ verify_vote_qc chain ep q = true.
Proof.
  intros Hb. unfold check_certificate. destruct qc as [q|].
  - case_bool_decide as Hq; simpl.
    + destruct (verify_vote_qc chain ep q) eqn:Hv; simpl; split; try done; [by eauto|].
      intros (q' & [= <-] & _ & ?). congruence.
    + split; [done|]. by intros (q' & [= <-] & ? & _).
  - rewrite (proj2 (N.ltb_lt _ _) Hb). split; [done|]. by intros (q & ? & _).
Qed.

Lemma tip_Ok s h :
  (if sy_height s =? 0 then Ok GENESIS_HASH
   else b_hash <$> ok_or (get_block_by_height (w_store (sy_world s)) (sy_height s)) MissingCommitted) =
    Ok h ↔ sy_tip s = Some h.
Proof.
  unfold sy_tip. destruct (sy_height s =? 0); [naive_solver|].
  destruct (get_block_by_height _ _); simpl; naive_solver.
Qed.

Lemma guard_bind_Ok {E A} b (e : E) (k : res E A) u :
  (guard_err b e ;; k) = Ok u ↔ b = false ∧ k = Ok u.
Proof. destruct b; simpl; naive_solver. Qed.

(** [check_block] accepts exactly the authentic blocks. *)
Lemma check_block_Ok s b qc : check_block s (replay_epoch s b) b qc = Ok () ↔ authentic s b qc.
Proof.
  unfold check_block. split.
  - intros (n & [-> Hmax]%ok_or_Ok%checked_add64_Some & [Hh Hc]%guard_bind_Ok)%res_bind_Ok.
    apply res_bind_Ok in Hc as (tip & Htip%tip_Ok & [Hp Hc]%guard_bind_Ok).
    apply res_bind_Ok in Hc as ([] & Hcert & Hc). apply guard_bind_Ok in Hc as [Hl Hc].
    apply guard_bind_Ok in Hc as [Hhash Hc]. apply guard_bind_Ok in Hc as [Happ Hev]. bool_prop.
    apply check_certificate_Ok in Hcert; [|lia].
    split; try done; [lia|by rewrite Htip, Hp| | |].
    + intros v Ev. rewrite Ev in Hl. by bool_prop.
    + intros Ht. rewrite Ht in Happ. simpl in Happ. by bool_prop.
    + by destruct (validate_block_evidence _ _ _ _) as [[]| |].
  - intros [Hh Hmax Hp Hhash Hcert Hl Happ Hev].
    apply res_bind_Ok. exists (b_height b). split; [apply ok_or_Ok, checked_add64_Some; lia|].
    apply guard_bind_Ok. split; [by rewrite N.eqb_refl|].
    apply res_bind_Ok. exists (b_parent_hash b). split; [by apply tip_Ok|].
    apply guard_bind_Ok. split; [by rewrite bool_decide_true|].
    apply res_bind_Ok. exists (). split; [apply check_certificate_Ok; [lia|done]|].
    apply guard_bind_Ok. split.
    { destruct (leader_for_view _ _) as [v|]; [|done]. by rewrite (Hl v), N.eqb_refl. }
    apply guard_bind_Ok. split; [by rewrite bool_decide_true|].
    apply guard_bind_Ok. split; [|by rewrite Hev].
    destruct (app_tracks_app_hash _); [|done]. by rewrite (Happ eq_refl), bool_decide_true.
Qed.

(** ** The store *)

Definition record_results (b : Block) (resp : EndBlockResponse) (st : St) : St :=
  match get_block_results st (b_height b) with
  | None => put_block_results st (b_height b) resp
  | Some _ => st
  end.

Lemma record_results_frame b resp st :
  (st_ok st → st_ok (record_results b resp st)) ∧
  (∀ h, get_block (record_results b resp st) h = get_block st h) ∧
  (∀ n, get_block_by_height (record_results b resp st) n = get_block_by_height st n).
Proof.
  unfold record_results. destruct (get_block_results st (b_height b)); [done|].
  split_and!; intros; [by apply put_block_results_ok|apply get_put_block_results
    |apply by_height_put_block_results].
Qed.

Lemma index_txs_frame b st :
  (st_ok st → st_ok (index_txs b st)) ∧
  (∀ h, get_block (index_txs b st) h = get_block st h) ∧
  (∀ n, get_block_by_height (index_txs b st) n = get_block_by_height st n).
Proof.
  unfold index_txs. apply (enumerate_foldl_ind (λ t : St,
    (st_ok st → st_ok t) ∧ (∀ h, get_block t h = get_block st h) ∧
    (∀ n, get_block_by_height t n = get_block_by_height st n))); [done|].
  intros j t x _ (H1 & H2 & H3). split_and!; intros.
  - by apply put_tx_index_ok, H1.
  - by rewrite get_put_tx_index.
  - by rewrite by_height_put_tx_index.
Qed.

(** The store after a block was replayed. *)
Definition recorded (b : Block) (q : QuorumCertificate) (resp : EndBlockResponse) (st : St) : St :=
  record_results b resp (index_txs b (store_block b (Some q) st)).

(** Equal hashes mean equal heights, among the blocks of a list and the store. *)
Record coherent (st : St) (l : list Block) : Prop := {
  co_store : ∀ b b', b ∈ l → get_block st (b_hash b) = Some b' → b_height b' = b_height b;
  co_list : ∀ b b', b ∈ l → b' ∈ l → b_hash b = b_hash b' → b_height b = b_height b';
}.

Lemma store_block_get b qc st h :
  get_block (store_block b qc st) h = if decide (b_hash b = h) then Some b else get_block st h.
Proof. unfold store_block. destruct qc; rewrite ?get_put_commit_qc; apply get_put_block. Qed.

Lemma recorded_get b q resp st h :
  get_block (recorded b q resp st) h = if decide (b_hash b = h) then Some b else get_block st h.
Proof.
  unfold recorded. destruct (record_results_frame b resp (index_txs b (store_block b (Some q) st))) as (_ & -> & _).
  destruct (index_txs_frame b (store_block b (Some q) st)) as (_ & -> & _). apply store_block_get.
Qed.

Lemma recorded_ok b q resp st l :
  st_ok st → coherent st (b :: l) → qc_block_hash q = b_hash b →
  st_ok (recorded b q resp st) ∧ coherent (recorded b q resp st) l ∧
  get_block_by_height (recorded b q resp st) (b_height b) = Some b.
Proof.
  intros Hok [Hc1 Hc2] Hq.
  assert (st_ok (put_block st b)) as Hput by (apply put_block_ok; [done|intros; apply Hc1; [left|done]]).
  split_and!.
  - unfold recorded. apply record_results_frame, index_txs_frame. by apply put_commit_qc_ok.
  - split.
    + intros c c' Hc. rewrite recorded_get. case_decide as Hh; [intros [= <-]|intros; eapply Hc1; [by right|done]].
      symmetry. apply Hc2; [by right|left|done].
    + intros c c' Hin Hin'. apply Hc2; by right.
  - unfold recorded. destruct (record_results_frame b resp (index_txs b (store_block b (Some q) st))) as (_ & _ & ->).
    destruct (index_txs_frame b (store_block b (Some q) st)) as (_ & _ & ->). unfold store_block.
    apply by_height_put_commit_qc; [done|]. rewrite get_put_block, Hq. by rewrite decide_True.
Qed.

(** ** The effects of one block *)

(** Only the trace changed, by [tr]. *)
Definition traced s (tr : list Effect) : Sy :=
  mkSyncState (mkWorld (w_state (sy_world s)) (w_store (sy_world s)) (w_app (sy_world s))
    (w_ticks (sy_world s)) (tr ++ w_trace (sy_world s))) (sy_pending_epoch s) (sy_previous_epoch s).

(** No block was applied. *)
Definition quiet s s' : Prop := ∃ tr, applied tr = [] ∧ s' = traced s tr.

(** An entry of the log, when there is one. *)
Definition logged (x : Effect) : list Effect := if has_wal then [x] else [].

(** The checkpoint of a state, most recent write first: the committed height,
    the current and the previous epoch, the application hash and the pending
    epoch, made durable. *)
Definition checkpoint s (pending : option Epoch) : list Effect :=
  if has_persistence then
    [EPersistFlush; ESavePendingEpoch pending; ESaveLastAppHash (cs_last_app_hash (sy_state s));
     ESavePreviousEpoch (sy_previous_epoch s); ESaveCurrentEpoch (sy_epoch s);
     ESaveLastCommittedHeight (sy_height s)]
  else [].

Lemma applied_logged x : applied [x] = [] → applied (logged x) = [].
Proof. unfold logged. by destruct has_wal. Qed.

Lemma applied_checkpoint s p : applied (checkpoint s p) = [].
Proof. unfold checkpoint. by destruct has_persistence. Qed.

Lemma traced_nil s : traced s [] = s.
Proof. by destruct s as [[] ? ?]. Qed.

Lemma wp_wal_traced x e (Q : Sy → res sync_error unit → Prop) s :
  Q (traced s (logged x)) (Ok ()) → (has_wal = true → Q s (Err e)) →
  wp (sync_wal has_wal wal_ok x e) Q s.
Proof.
  unfold logged, sync_wal, when. intros HQ He. destruct has_wal; [|rewrite traced_nil in HQ; by apply wp_ret].
  apply wp_bind, wp_get_w. destruct (wal_ok _); [apply wp_in_world; wp_steps|apply wp_throw; auto].
  by destruct s as [[] ? ?].
Qed.

Lemma wp_persist_traced p (Q : Sy → res sync_error unit → Prop) s :
  Q (traced s (checkpoint s p)) (Ok ()) → wp (persist_sync_checkpoint has_persistence p) Q s.
Proof.
  unfold checkpoint, persist_sync_checkpoint, when. intros HQ.
  destruct has_persistence; [|rewrite traced_nil in HQ; by apply wp_ret].
  apply wp_bind, wp_get_w, wp_in_world. wp_steps. by destruct s as [[] ? ?].
Qed.

Lemma wp_wal_quiet x e (Q : Sy → res sync_error unit → Prop) s :
  applied [x] = [] → (∀ s', quiet s s' → Q s' (Ok ())) → Q s (Err e) →
  wp (sync_wal has_wal wal_ok x e) Q s.
Proof. intros Hx HQ He. apply wp_wal_traced; [|done]. apply HQ. eexists. split; [|done]. by apply applied_logged. Qed.

Lemma wp_persist_quiet p (Q : Sy → res sync_error unit → Prop) s :
  (∀ s', quiet s s' → Q s' (Ok ())) → wp (persist_sync_checkpoint has_persistence p) Q s.
Proof. intros HQ. apply wp_persist_traced, HQ. eexists. split; [apply applied_checkpoint|done]. Qed.

Definition trace_of s : list Effect := w_trace (sy_world s).
Definition store_of s : St := w_store (sy_world s).

(** [finish_block] ran to its end: what the application was asked and answered,
    what was recorded, and everything that was written, most recent first;
    [closed] tells whether the entry of the log could be closed. *)
Record finished (closed : bool) s (b : Block) (p : option Epoch) (ctx : BlockContext) s' : Prop := {
  fi_height : sy_height s' = b_height b;
  fi_epoch : sy_epoch s' = sy_epoch s;
  fi_previous : sy_previous_epoch s' = sy_previous_epoch s;
  fi_chain : cs_chain_id_hash (sy_state s') = cs_chain_id_hash (sy_state s);
  fi_run : ∃ resp, answered b ctx (w_app (sy_world s)) resp (w_app (sy_world s')) ∧
    (∀ act, schedules (b_view b) (ebr_validator_updates resp)
       (mkEpochs (sy_epoch s) (sy_previous_epoch s) p act)
       (mkEpochs (sy_epoch s) (sy_previous_epoch s) (sy_pending_epoch s') act)) ∧
    cs_last_app_hash (sy_state s') =
      (if app_tracks_app_hash (w_app (sy_world s')) then ebr_app_hash resp else b_app_hash b) ∧
    store_of s' = record_results b resp (index_txs b (store_of s));
  fi_trace : trace_of s' =
    (if closed then logged (EWalDone (b_height b)) else []) ++ checkpoint s' (sy_pending_epoch s') ++
    EStoreFlush :: block_effects b ++ trace_of s;
}.

Lemma finish_block_spec b p ctx s :
  wp (finish_block has_persistence has_wal wal_ok b p ctx) (λ s' r,
    match r with
    | Ok p' => finished true s b p ctx s' ∧ sy_pending_epoch s' = p'
    | Err e => (e = WalDoneFailed ∧ has_wal = true ∧ finished false s b p ctx s') ∨
        (sy_height s' = sy_height s ∧ trace_of s' = block_effects b ++ trace_of s ∧
         ∃ resp x, e = SyncUpdates x ∧ answered b ctx (w_app (sy_world s)) resp (w_app (sy_world s')) ∧
           ebr_validator_updates resp ≠ [] ∧
           try_apply_updates (e_validator_set (default (sy_epoch s) p)) (ebr_validator_updates resp) = Err x)
    | Panic => ∀ act, fatal b ctx (mkEpochs (sy_epoch s) (sy_previous_epoch s) p act) (w_app (sy_world s))
    end) s.
Proof.
  unfold finish_block. apply wp_bind, wp_in_world.
  eapply wp_mono; [apply execute_committed_block_calls|]. intros w [resp|e|]; [|done|].
  2:{ intros [_ Href] act. by left. }
  intros [(Hs & Hst & Ht & Htr) Hans]. apply wp_bind, wp_get_w. cbv beta zeta. apply wp_bind, wp_in_world. wp_steps.
  assert (sy_epoch (sy_set_world s w) = sy_epoch s) as Hep by (unfold sy_epoch, sy_state; simpl; by rewrite Hs).
  set (s1 := sy_set_world (sy_set_world s w) _).
  assert (wp (if bool_decide (ebr_validator_updates resp = []) then mret p
              else ep ← lift_res (chained_pending_epoch (sy_epoch (sy_set_world s w)) p (b_view b)
                     (ebr_validator_updates resp) SyncUpdates); mret (Some ep)) (λ t (r : res sync_error (option Epoch)),
    t = s1 ∧
    match r with
    | Ok p' => ∀ act, schedules (b_view b) (ebr_validator_updates resp)
        (mkEpochs (sy_epoch s) (sy_previous_epoch s) p act) (mkEpochs (sy_epoch s) (sy_previous_epoch s) p' act)
    | Err e => ∃ x, e = SyncUpdates x ∧ ebr_validator_updates resp ≠ [] ∧
        try_apply_updates (e_validator_set (default (sy_epoch s) p)) (ebr_validator_updates resp) = Err x
    | Panic => ebr_validator_updates resp ≠ [] ∧ u64_max < e_number (default (sy_epoch s) p) + 1
    end) s1) as Hp.
  { rewrite Hep. case_bool_decide as Hu; wp_steps; [split; [done|]; by constructor|].
    pose proof (λ act, chained_pending_epoch_spec (mkEpochs (sy_epoch s) (sy_previous_epoch s) p act)
      (b_view b) (ebr_validator_updates resp) SyncUpdates) as Hc. simpl in Hc.
    destruct (chained_pending_epoch _ _ _ _ _) as [ep|e|]; wp_steps; (split; [done|]).
    - intros act. destruct (Hc act) as (?&?&?&?). by apply schedules_next.
    - destruct (Hc None) as (x & -> & Hx). by exists x.
    - by destruct (Hc None). }
  eapply wp_mono; [exact Hp|]. intros t [p'|e|] [-> Hr].
  2:{ right. destruct Hr as (x & -> & Hu & Hx). unfold sy_height, sy_state, trace_of. simpl. rewrite Hs, Htr.
      split_and!; [done..|]. by exists resp, x. }
  2:{ intros act. right. by exists resp, (w_app w). }
  unfold s1. clear s1 Hp. sy_steps. apply wp_persist_traced. sy_steps. fold (record_results b resp).
  apply wp_wal_traced; [|intros Hwal; left; split; [done|split; [done|]]]; wp_steps; [split; [|done]|];
    (split; unfold sy_epoch, sy_state, sy_height, store_of, trace_of, checkpoint in *; simpl;
      rewrite ?Hs, ?Hst, ?Htr; try done; exists resp; split_and!; try done; by rewrite Hst).
Qed.

(** The application, which becomes [a], accepts the block in the context of its
    epoch. *)
Definition validated s (b : Block) (ctx : BlockContext) (a : App) : Prop :=
  context_of b (replay_epoch s b) ctx ∧ app_validate_block (w_app (sy_world s)) b ctx = (true, a).

Definition sy_epochs s : Epochs := mkEpochs (sy_epoch s) (sy_previous_epoch s) (sy_pending_epoch s) None.

(** A block went through its whole iteration: it is authentic; the scheduled
    epoch takes over when the block's view has reached it; the application
    validated, executed and committed the block in that epoch; the block, its
    certificate, transactions and results are stored; and the trace grew by
    exactly the store's flush, the opened entry of the log, the calls on the
    application, another flush, the checkpoint of the new state and the closed
    entry of the log. *)
Record block_done (closed : bool) s (b : Block) (q : QuorumCertificate) s' : Prop := {
  bd_authentic : authentic s b (Some q);
  bd_height : sy_height s' = b_height b;
  bd_epoch : sy_epoch s' = replay_epoch s b;
  bd_previous : sy_previous_epoch s' =
    if activates (sy_pending_epoch s) (b_view b) then Some (sy_epoch s) else sy_previous_epoch s;
  bd_chain : cs_chain_id_hash (sy_state s') = cs_chain_id_hash (sy_state s);
  bd_run : ∃ es1 es2 ctx a resp,
    starts (b_view b) (sy_epochs s) es1 ∧ ec_active es1 = replay_epoch s b ∧ validated s b ctx a ∧
    answered b ctx a resp (w_app (sy_world s')) ∧
    schedules (b_view b) (ebr_validator_updates resp) es1 es2 ∧
    sy_epoch s' = ec_active es2 ∧ sy_previous_epoch s' = ec_previous es2 ∧
    sy_pending_epoch s' = ec_pending es2 ∧
    cs_last_app_hash (sy_state s') =
      (if app_tracks_app_hash (w_app (sy_world s')) then ebr_app_hash resp else b_app_hash b) ∧
    store_of s' = recorded b q resp (store_of s);
  bd_trace : trace_of s' =
    (if closed then logged (EWalDone (b_height b)) else []) ++ checkpoint s' (sy_pending_epoch s') ++
    EStoreFlush :: block_effects b ++ logged (EWalIntent (b_height b)) ++ EStoreFlush :: trace_of s;
}.

Lemma bd_store closed s b q s' : block_done closed s b q s' →
  ∃ resp, store_of s' = recorded b q resp (store_of s).
Proof. intros Hd. destruct (bd_run _ _ _ _ _ Hd) as (?&?&?&?&resp&?&?&?&?&?&?&?&?&?&?). by exists resp. Qed.

Lemma bd_applied closed s b q s' : block_done closed s b q s' →
  applied (trace_of s') = b :: applied (trace_of s).
Proof.
  intros Hd. assert (∀ l, applied (EStoreFlush :: l) = applied l) as Hf by done.
  rewrite (bd_trace _ _ _ _ _ Hd), !applied_app, applied_checkpoint, Hf, !applied_app, applied_block_effects,
    applied_logged, Hf by done.
  destruct closed; by rewrite ?applied_logged.
Qed.

(** How an iteration fails: before any write, with the state unchanged; after
    the block was stored but not applied; or after it was applied, because its
    validator updates are refused. *)
Definition block_failed s (b : Block) (qc : option QuorumCertificate) (e : sync_error) s' : Prop :=
  sy_height s' = sy_height s ∧
  ((s' = s ∧ check_block s (replay_epoch s b) b qc = Err e) ∨
   (authentic s b qc ∧ (e = WalIntentFailed ∨ e = AppRejected) ∧
      applied (trace_of s') = applied (trace_of s)) ∨
   (authentic s b qc ∧ (∃ x, e = SyncUpdates x) ∧
      applied (trace_of s') = b :: applied (trace_of s))).

(** An iteration panics on an authentic block, when the application fails or the
    epoch numbers are exhausted. *)
Definition block_panics s (b : Block) (qc : option QuorumCertificate) : Prop :=
  authentic s b qc ∧
  ∃ es1 ctx a, starts (b_view b) (sy_epochs s) es1 ∧ validated s b ctx a ∧ fatal b ctx es1 a.

(** The epochs at the start of an iteration. *)
Definition started s (b : Block) : Epochs :=
  let act := activates (sy_pending_epoch s) (b_view b) in
  mkEpochs (replay_epoch s b) (if act then Some (sy_epoch s) else sy_previous_epoch s)
    (if act then None else sy_pending_epoch s) (if act then sy_pending_epoch s else None).

Lemma started_starts s b : starts (b_view b) (sy_epochs s) (started s b).
Proof.
  unfold started, replay_epoch, activates, sy_epochs. destruct (sy_pending_epoch s) as [p|].
  - destruct (N.leb_spec (e_start_view p) (b_view b)); [by constructor|]. apply starts_not. by intros p' [= <-].
  - by apply starts_not.
Qed.

Lemma bind_res_ind {E A B} (P : res E B → Prop) (m : res E A) (k : A → res E B) :
  m ≠ Panic → (∀ e, m = Err e → P (Err e)) → (∀ a, P (k a)) → P (m ≫= k).
Proof. destruct m; simpl; naive_solver. Qed.

Lemma validate_all_not_panic ps view ep prev chain : validate_all ps view ep prev chain ≠ Panic.
Proof.
  induction ps as [|p ps IH]; [done|]. cbn [validate_all]. unfold validate_evidence, get_with_previous.
  destruct (match get _ _ with Some v => Some v | None => _ end); simpl; [|done].
  repeat (case_match; simpl; try done).
Qed.

(** The checks of a block neither panic nor fail with an error of the loop or of
    the log. *)
Lemma check_block_total s ep b qc :
  check_block s ep b qc ≠ Err SyncFuel ∧ check_block s ep b qc ≠ Err WalDoneFailed ∧
  check_block s ep b qc ≠ Panic.
Proof.
  unfold check_block.
  repeat (apply (bind_res_ind (λ r, r ≠ Err SyncFuel ∧ r ≠ Err WalDoneFailed ∧ r ≠ Panic)); [| |intros ?]);
    try (unfold guard_err, ok_or, check_certificate; repeat case_match; by intros; simplify_eq).
  - intros e. destruct (sy_height s =? 0); [done|]. destruct (get_block_by_height _ _); simpl; by intros; simplify_eq.
  - pose proof (validate_all_not_panic (b_evidence b) (b_view b) ep (sy_previous_epoch s)
      (cs_chain_id_hash (sy_state s))) as Hv. unfold validate_block_evidence.
    by destruct (validate_all _ _ _ _ _).
Qed.

Lemma replay_block_spec b qc s :
  wp (replay_block (sy_pending_epoch s) (b, qc)) (λ s' r,
    match r with
    | Ok p' => (∃ q, qc = Some q ∧ block_done true s b q s') ∧ sy_pending_epoch s' = p'
    | Err e => (e = WalDoneFailed ∧ has_wal = true ∧ ∃ q, qc = Some q ∧ block_done false s b q s') ∨
        block_failed s b qc e s'
    | Panic => block_panics s b qc
    end) s.
Proof.
  unfold Sync.replay_block. sy_steps. fold (replay_epoch s b).
  pose proof (check_block_Ok s b qc) as Hc. pose proof (check_block_total s (replay_epoch s b) b qc) as (_ & _ & Hnp).
  destruct (check_block s (replay_epoch s b) b qc) as [[]|e|] eqn:Ec; [|right; split; [done|by left]|done].
  assert (authentic s b qc) as Ha by by apply Hc. clear Hc Hnp.
  destruct (au_cert _ _ _ Ha) as (q & -> & Hq & _).
  sy_steps. apply wp_wal_traced; [|intros _; right; split; [done|right; left; split_and!; [done|by left|done]]].
  sy_steps. match goal with H : app_validate_block _ _ _ = _ |- _ => rename H into Hv; simpl in Hv end.
  destruct a; cbn [negb].
  2:{ sy_steps. right. split; [done|]. right. left. split_and!; [done|by right|].
      unfold trace_of; simpl. by rewrite applied_app, applied_logged. }
  set (ctx := commit_context b (replay_epoch s b)).
  assert (validated s b ctx app) as Hval by (split; [by split|done]).
  match goal with |- wp (_ ≫= _) _ ?s2 => set (s1 := s2) end.
  sy_steps.
  match goal with |- wp ?m _ _ => assert (∃ f, m = modify f ∧
    ∀ t, f t = sy_set_previous t (if activates (sy_pending_epoch s) (b_view b) then Some (sy_epoch t) else sy_previous_epoch t))
    as (f & -> & Hf) end.
  { destruct (activates _ _); [by eexists|]. exists (λ t, t). split; [done|]. by intros []. }
  sy_steps. rewrite Hf. unfold s1; simpl.
  eapply wp_mono; [apply finish_block_spec|]. intros s' r Hr. cbv beta in Hr.
  pose proof (started_starts s b) as Hst.
  match type of Hr with context [finished true ?s3 b ?p3 _ s'] => assert (Hdone : ∀ closed,
    finished closed s3 b p3 ctx s' → block_done closed s b q s') end.
  { intros closed [H1 H2 H3 H4 (resp & H5 & H6 & H7 & H8) H9]. split; [done..| |done].
    exists (started s b), (mkEpochs (replay_epoch s b) (ec_previous (started s b)) (sy_pending_epoch s')
      (ec_activated (started s b))), ctx, app, resp. split_and!; try done. apply H6. }
  destruct r as [p'|e|]; [|destruct Hr as [(-> & Hwal & Hfin)|(Hh & Htr & resp & x & -> & _)]|].
  - destruct Hr as [Hfin Hp]. split; [|done]. exists q. split; [done|]. by apply Hdone.
  - left. split_and!; [done..|]. exists q. split; [done|]. by apply Hdone.
  - right. split; [done|]. right. right. split_and!; [done|by eauto|]. rewrite Htr, applied_app, applied_block_effects.
    unfold trace_of; simpl. by rewrite applied_app, applied_logged.
  - split; [done|]. exists (started s b), ctx, app. split_and!; [done..|]. apply Hr.
Qed.

(** ** A sequence of blocks *)

Inductive replayed : Sy → list (Block * option QuorumCertificate) → Sy → Prop :=
| replayed_nil s : replayed s [] s
| replayed_cons s b q s1 l s' :
    block_done true s b q s1 → sy_tip s1 = Some (b_hash b) → replayed s1 l s' →
    replayed s ((b, Some q) :: l) s'.

Lemma block_done_next closed s b q s1 l :
  st_ok (store_of s) → coherent (store_of s) (b :: l) → block_done closed s b q s1 →
  st_ok (store_of s1) ∧ coherent (store_of s1) l ∧ sy_tip s1 = Some (b_hash b).
Proof.
  intros Hok Hco Hd. destruct (bd_store _ _ _ _ _ Hd) as [resp Est].
  destruct (au_cert _ _ _ (bd_authentic _ _ _ _ _ Hd)) as (q' & [= <-] & Hq & _).
  destruct (recorded_ok b q resp (store_of s) l Hok Hco Hq) as (H1 & H2 & H3).
  rewrite <- Est in H1, H2, H3. split_and!; [done..|].
  unfold sy_tip. rewrite (bd_height _ _ _ _ _ Hd).
  rewrite (proj2 (N.eqb_neq _ _)) by (rewrite (au_height _ _ _ (bd_authentic _ _ _ _ _ Hd)); lia).
  unfold store_of in H3. by rewrite H3.
Qed.

(** Where a replay stopped: the next block went through its iteration except
    that its entry of the log could not be closed, or its iteration failed. *)
Definition stopped (l : list (Block * option QuorumCertificate)) (e : sync_error) s1 s' : Prop :=
  (e = WalDoneFailed ∧ has_wal = true ∧
     ∃ b q l', l = (b, Some q) :: l' ∧ block_done false s1 b q s' ∧ sy_tip s' = Some (b_hash b)) ∨
  (∃ b qc l', l = (b, qc) :: l' ∧ block_failed s1 b qc e s').

Lemma stopped_height l e s1 s' : stopped l e s1 s' →
  sy_height s' = sy_height s1 + match e with WalDoneFailed => 1 | _ => 0 end.
Proof.
  intros [(-> & _ & b & q & l' & _ & Hd & _)|(b & qc & l' & _ & Hh & Hf)].
  - rewrite (bd_height _ _ _ _ _ Hd), (au_height _ _ _ (bd_authentic _ _ _ _ _ Hd)). done.
  - assert (e ≠ WalDoneFailed) as He.
    { destruct Hf as [[_ Hc]|[(_ & [->| ->] & _)|(_ & [x ->] & _)]]; try done.
      intros ->. by destruct (check_block_total s1 (replay_epoch s1 b) b qc) as (_ & ? & _). }
    rewrite Hh. destruct e; by rewrite ?N.add_0_r.
Qed.

Definition replay_outcome s l s' (r : res sync_error (option Epoch)) : Prop :=
  match r with
  | Ok p => replayed s l s' ∧ sy_pending_epoch s' = p
  | Err e => ∃ l1 l2 s1, l = l1 ++ l2 ∧ replayed s l1 s1 ∧ stopped l2 e s1 s'
  | Panic => ∃ l1 b qc l2 s1, l = l1 ++ (b, qc) :: l2 ∧ replayed s l1 s1 ∧ block_panics s1 b qc
  end.

Lemma replay_loop_spec l : ∀ s,
  st_ok (store_of s) → coherent (store_of s) l.*1 →
  wp (replay_loop (sy_pending_epoch s) l) (replay_outcome s l) s.
Proof.
  induction l as [|[b qc] l IH]; intros s Hok Hco.
  { apply wp_ret. split; [constructor|done]. }
  cbn [Sync.replay_loop]. apply wp_bind. eapply wp_mono; [apply replay_block_spec|].
  intros s1 [p|e|].
  - intros [(q & -> & Hd) <-]. destruct (block_done_next _ _ _ _ _ l.*1 Hok Hco Hd) as (Hok1 & Hco1 & Htip).
    eapply wp_mono; [by apply IH|]. intros s' [p|e|].
    + intros [Hr Hp]. split; [by econstructor|done].
    + intros (l1 & l2 & s2 & -> & Hr & Hs). exists ((b, Some q) :: l1), l2, s2.
      split; [done|]. split; [by econstructor|done].
    + intros (l1 & c & qc & l2 & s2 & -> & Hr & Hs). exists ((b, Some q) :: l1), c, qc, l2, s2.
      split; [done|]. split; [by econstructor|done].
  - intros Hr. exists [], ((b, qc) :: l), s. split; [done|]. split; [constructor|].
    destruct Hr as [(-> & Hwal & q & -> & Hd)|Hf]; [|right; by eauto].
    destruct (block_done_next _ _ _ _ _ l.*1 Hok Hco Hd) as (_ & _ & Htip). left.
    split; [done|]. split; [done|]. by exists b, q, l.
  - intros Hp. exists [], b, qc, l, s. split; [done|]. split; [constructor|done].
Qed.

Lemma replayed_facts s l s' : replayed s l s' →
  sy_height s' = sy_height s + N.of_nat (length l) ∧
  applied (trace_of s') = reverse l.*1 ++ applied (trace_of s).
Proof.
  induction 1 as [s|s b q s1 l s' Hd Ht Hr [IH1 IH2]]; [simpl; split; [lia|done]|].
  rewrite IH1, IH2, (bd_height _ _ _ _ _ Hd), (bd_applied _ _ _ _ _ Hd).
  rewrite (au_height _ _ _ (bd_authentic _ _ _ _ _ Hd)). split; [simpl; lia|].
  rewrite fmap_cons, reverse_cons, <- app_assoc. done.
Qed.

Lemma replay_blocks_spec l s :
  st_ok (store_of s) → coherent (store_of s) l.*1 →
  wp (replay_blocks l) (replay_outcome s l) s.
Proof.
  intros Hok Hco. unfold Sync.replay_blocks. sy_steps. eapply wp_mono; [by apply replay_loop_spec|].
  intros s' [p|e|]; [|done..]. intros [Hr <-]. sy_steps.
  assert (sy_set_pending s' (sy_pending_epoch s') = s') as -> by by destruct s'. done.
Qed.

(** ** Agreement with the commit path *)

(** A computation whose result and effect on the application depend on the
    application alone. *)
Definition app_only {A} (m : SM (World St App) commit_error A) : Prop := ∀ w1 w2,
  w_app w1 = w_app w2 → (m w1).2 = (m w2).2 ∧ w_app (m w1).1 = w_app (m w2).1.

Lemma app_only_ret {A} (a : A) : app_only (mret a).
Proof. by intros w1 w2 E. Qed.
Lemma app_only_panic {A} : app_only (panic (A := A)).
Proof. by intros w1 w2 E. Qed.
Lemma app_only_emit x : app_only (emit x).
Proof. by intros w1 w2 E. Qed.
Lemma app_only_call {A} (f : App → A * App) : app_only (call_app f).
Proof. intros w1 w2 E. unfold call_app. rewrite E. by destruct (f (w_app w2)). Qed.
Lemma app_only_bind {A B} (m : SM (World St App) commit_error A) (k : A → SM (World St App) commit_error B) :
  app_only m → (∀ a, app_only (k a)) → app_only (m ≫= k).
Proof.
  intros Hm Hk w1 w2 E. destruct (Hm w1 w2 E) as [H1 H2]. unfold mbind, SM_bind.
  destruct (m w1) as [v1 r1], (m w2) as [v2 r2]. simpl in *. subst. by destruct r2; [apply Hk|..].
Qed.
Lemma app_only_for_each {A} (l : list A) m : (∀ x, app_only (m x)) → app_only (for_each l m).
Proof.
  intros Hm. induction l as [|x l IH]; [apply app_only_ret|]. cbn [for_each]. by apply app_only_bind.
Qed.

Lemma execute_app_only b ctx : app_only (execute_committed_block b ctx).
Proof.
  unfold execute_committed_block.
  repeat first [apply app_only_bind; [|intros ?] | apply app_only_for_each; intros ? | apply app_only_emit
    | apply app_only_call | case_match; [apply app_only_ret || idtac|apply app_only_panic]
    | case_match; [apply app_only_panic|]]; try apply app_only_ret; try apply app_only_panic.
Qed.

Lemma chained_error_irrelevant {E1 E2} cur pend view us (f : vs_error → E1) (g : vs_error → E2) ep :
  chained_pending_epoch cur pend view us f = Ok ep → chained_pending_epoch cur pend view us g = Ok ep.
Proof.
  unfold chained_pending_epoch. destruct pend; simpl; (destruct (try_apply_updates _ _); simpl; [|done..]);
    unfold EpochNumber_next, expect; (destruct (checked_add64 _ _); [|done]); by intros [= <-].
Qed.

(** The pending epoch after a block with the response [resp]. *)
Definition next_pending (active : Epoch) (pending : option Epoch) (b : Block) (resp : EndBlockResponse)
    (p' : option Epoch) : Prop :=
  if bool_decide (ebr_validator_updates resp = []) then p' = pending
  else ∃ ep, chained_pending_epoch active pending (b_view b) (ebr_validator_updates resp) SyncUpdates = Ok ep ∧
         p' = Some ep.

(** What the application and the epochs see of a successful iteration. *)
Definition iteration s (p : option Epoch) (b : Block) s' (p' : option Epoch) : Prop :=
  let act := activates p (b_view b) in
  let re := if act then default (sy_epoch s) p else sy_epoch s in
  sy_epoch s' = re ∧
  sy_previous_epoch s' = (if act then Some (sy_epoch s) else sy_previous_epoch s) ∧
  sy_height s' = b_height b ∧
  ∀ w : World St App, w_app w = (app_validate_block (w_app (sy_world s)) b (commit_context b re)).2 →
    ∃ w' resp, execute_committed_block b (commit_context b re) w = (w', Ok resp) ∧
      w_app w' = w_app (sy_world s') ∧
      cs_last_app_hash (sy_state s') =
        (if app_tracks_app_hash (w_app w') then ebr_app_hash resp else b_app_hash b) ∧
      next_pending re (if act then None else p) b resp p'.

Lemma finish_block_runs b p ctx s :
  wp (finish_block has_persistence has_wal wal_ok b p ctx) (λ s' r, ∀ p', r = Ok p' →
    sy_epoch s' = sy_epoch s ∧ sy_previous_epoch s' = sy_previous_epoch s ∧ sy_height s' = b_height b ∧
    ∀ w : World St App, w_app w = w_app (sy_world s) →
      ∃ w' resp, execute_committed_block b ctx w = (w', Ok resp) ∧ w_app w' = w_app (sy_world s') ∧
        cs_last_app_hash (sy_state s') =
          (if app_tracks_app_hash (w_app w') then ebr_app_hash resp else b_app_hash b) ∧
        next_pending (sy_epoch s) p b resp p') s.
Proof.
  unfold finish_block. apply wp_bind, wp_in_world.
  pose proof (execute_committed_block_spec b ctx (sy_world s)) as Hx. unfold wp in Hx.
  assert (Hrun : ∀ w : World St App, w_app w = w_app (sy_world s) →
    (execute_committed_block b ctx w).2 = (execute_committed_block b ctx (sy_world s)).2 ∧
    w_app (execute_committed_block b ctx w).1 = w_app (execute_committed_block b ctx (sy_world s)).1)
    by (intros; by apply execute_app_only).
  unfold wp at 1. destruct (execute_committed_block b ctx (sy_world s)) as [w0 [resp|e|]]; simpl in Hx, Hrun |- *;
    [|done..].
  destruct Hx as (Hs & Hst & _). apply wp_bind, wp_get_w. cbv beta zeta. sy_steps.
  match goal with |- wp ?m _ _ => assert (wp m (λ t r, t = sy_set_world (sy_set_world s w0) (w_set_state w0
      (set_last_app_hash (w_state w0) (if app_tracks_app_hash (w_app w0) then ebr_app_hash resp else b_app_hash b))) ∧
      ∀ p', r = Ok p' → next_pending (sy_epoch s) p b resp p') 
    (sy_set_world (sy_set_world s w0) (w_set_state w0
      (set_last_app_hash (w_state w0) (if app_tracks_app_hash (w_app w0) then ebr_app_hash resp else b_app_hash b)))))
    as Hp end.
  { unfold next_pending. destruct (bool_decide (ebr_validator_updates resp = [])); sy_steps.
    { split; [done|]. intros p' Hp'. by injection Hp'. }
    assert (sy_epoch (sy_set_world s w0) = sy_epoch s) as -> by (unfold sy_epoch, sy_state; simpl; by rewrite Hs).
    destruct (chained_pending_epoch _ _ _ _ _) as [ep| |] eqn:Ec; sy_steps; (split; [done|]); [|done..].
    intros p' [= <-]. eauto. }
  eapply wp_mono; [exact Hp|]. intros t [p'|e|]; [|done..]. intros [-> Hnext]. specialize (Hnext p' eq_refl).
  sy_steps. apply wp_persist_quiet. intros s1 (tr1 & _ & ->). sy_steps.
  apply wp_wal_quiet; [done| |done]. intros s2 (tr2 & _ & ->). sy_steps. intros ? [= <-].
  split; [unfold sy_epoch, sy_state; simpl; by rewrite Hs|]. split; [done|]. split; [done|].
  intros w Hw. destruct (Hrun w Hw) as [E1 E2]. destruct (execute_committed_block b ctx w) as [w' r'].
  simpl in E1, E2. subst r'. exists w', resp. split; [done|]. simpl. rewrite E2. done.
Qed.

Lemma replay_block_runs p b qc s :
  wp (replay_block p (b, qc)) (λ s' r, ∀ p', r = Ok p' → iteration s p b s' p') s.
Proof.
  unfold Sync.replay_block, iteration. sy_steps.
  set (act := activates p (b_view b)). set (re := if act then default (sy_epoch s) p else sy_epoch s).
  destruct (check_block s re b qc) as [[]|e|]; [|done..]. sy_steps.
  apply wp_wal_quiet; [done| |done]. intros s1 (tr1 & _ & ->). sy_steps.
  match goal with H : app_validate_block _ _ _ = (a, app) |- _ => rename H into Hv end.
  destruct a; cbn [negb]; sy_steps; [|done].
  match goal with |- wp (if act then _ else _) _ ?s2 => set (s1 := s2) end.
  match goal with |- wp ?m _ _ => assert (∃ f, m = modify f ∧
    ∀ t, f t = sy_set_previous t (if act then Some (sy_epoch t) else sy_previous_epoch t)) as (f & -> & Hf) end.
  { destruct act; [by eexists|]. exists (λ t, t). split; [done|]. by intros []. }
  sy_steps. rewrite Hf. unfold s1; simpl.
  eapply wp_mono; [apply finish_block_runs|]. intros s' r Hr p' ->.
  destruct (Hr p' eq_refl) as (H1 & H2 & H3 & H4). split_and!; [done..|].
  intros w Hw. apply H4. simpl in Hv. rewrite Hv in Hw. done.
Qed.

(** Validating a block does not change the application. *)
Definition validation_pure : Prop :=
  ∀ (a : App) b ctx, (app_validate_block a b ctx).2 = a.

(** The loop of the commit path is where the replay is. *)
Record in_step (cur : Epoch) (l : CommitLoop) (wc : World St App) s (p : option Epoch) : Prop := {
  is_app : w_app wc = w_app (sy_world s);
  is_pending : cl_pending_epoch l = p;
  is_active : cl_active_epoch l = sy_epoch s;
  is_previous : cl_previous_epoch l = sy_previous_epoch s;
  is_activated : default cur (cl_activated_epoch l) = sy_epoch s;
}.

Lemma commit_one_in_step cur l wc s p b s' p' :
  validation_pure → in_step cur l wc s p → iteration s p b s' p' →
  e_start_view (sy_epoch s) ≤ b_view b →
  ∃ wc' l', commit_one l b wc = (wc', Ok l') ∧ in_step cur l' wc' s' p' ∧
    cl_last_app_hash l' = cs_last_app_hash (sy_state s') ∧
    cs_last_committed_height (w_state wc') = sy_height s' ∧
    e_start_view (sy_epoch s') ≤ b_view b.
Proof.
  intros Hpure [Ha Hp Hact Hprev Hd] (He & Hpr & Hh & Hrun) Hview.
  set (re := if activates p (b_view b) then default (sy_epoch s) p else sy_epoch s) in *.
  destruct (Hrun wc) as (w' & resp & Hex & Hw & Hah & Hnext); [by rewrite Hpure|].
  assert (Hl : let l1 := activate_pending l (b_view b) in
    cl_active_epoch l1 = re ∧ cl_pending_epoch l1 = (if activates p (b_view b) then None else p) ∧
    cl_previous_epoch l1 = (if activates p (b_view b) then Some (sy_epoch s) else sy_previous_epoch s) ∧
    default cur (cl_activated_epoch l1) = re ∧ e_start_view re ≤ b_view b).
  { unfold activate_pending, re, activates. rewrite Hp. destruct p as [e|]; [|by rewrite Hp].
    destruct (N.leb_spec (e_start_view e) (b_view b)); simpl; [by rewrite Hact|by rewrite Hp]. }
  destruct Hl as (L1 & L2 & L3 & L4 & L5).
  assert (context_epoch (activate_pending l (b_view b)) (b_view b) = re) as Hctx.
  { unfold context_epoch. rewrite L1. by rewrite (proj2 (N.ltb_ge _ _)). }
  unfold commit_one. rewrite Hctx. unfold mbind, SM_bind at 1. rewrite Hex. unfold gets.
  unfold next_pending in Hnext. destruct (bool_decide (ebr_validator_updates resp = [])).
  - eexists _, _. split; [reflexivity|]. split; [split|split_and!]; simpl; rewrite ?L1, ?L2, ?L3, ?L4, ?Hnext, ?He; done.
  - destruct Hnext as (ep & Hc & ->). apply (chained_error_irrelevant _ _ _ _ _ (InvalidUpdates (b_height b))) in Hc.
    rewrite L1, L2. unfold SM_bind, lift_res. rewrite Hc.
    eexists _, _. split; [reflexivity|]. split; [split|split_and!]; simpl; rewrite ?L1, ?L3, ?L4, ?He; done.
Qed.

(** Views that do not decrease, from a given one on. *)
Fixpoint ascending (v : ViewNumber) (l : list Block) : Prop :=
  match l with [] => True | b :: l => v ≤ b_view b ∧ ascending (b_view b) l end.

Lemma ascending_weaken v v' l : v ≤ v' → ascending v' l → ascending v l.
Proof. destruct l as [|b l]; [done|]. intros ? [? ?]. split; [lia|done]. Qed.

Lemma commit_loop_in_step cur blocks : ∀ l wc s p s' p',
  validation_pure → in_step cur l wc s p → replay_loop p blocks s = (s', Ok p') →
  ascending (e_start_view (sy_epoch s)) blocks.*1 →
  ∃ wc' l', commit_loop l blocks.*1 wc = (wc', Ok l') ∧ in_step cur l' wc' s' p' ∧
    (blocks ≠ [] → cl_last_app_hash l' = cs_last_app_hash (sy_state s') ∧
       cs_last_committed_height (w_state wc') = sy_height s').
Proof.
  induction blocks as [|[b qc] blocks IH]; intros l wc s p s' p' Hpure Hs Hr Hasc.
  { cbn in Hr. injection Hr as <- <-. by exists wc, l. }
  cbn [Sync.replay_loop] in Hr. apply SM_bind_Ok in Hr as (s1 & p1 & Hb & Hr). destruct Hasc as [Hv Hasc].
  pose proof (replay_block_runs p b qc s) as Hit. unfold wp in Hit. rewrite Hb in Hit.
  destruct (commit_one_in_step cur l wc s p b s1 p1 Hpure Hs (Hit p1 eq_refl) Hv)
    as (wc1 & l1 & Hc & Hs1 & Hah & Hh & Hv1).
  destruct (IH l1 wc1 s1 p1 s' p' Hpure Hs1 Hr) as (wc' & l' & Hc' & Hs' & Hlast);
    [by eapply ascending_weaken|].
  exists wc', l'. cbn [fmap list_fmap commit_loop]. change ((b, qc).1) with b. split.
  { unfold mbind, SM_bind. rewrite Hc. exact Hc'. }
  split; [done|]. intros _. destruct blocks as [|x blocks]; [|by apply Hlast].
  injection Hc' as <- <-. by injection Hr as <- <-.
Qed.

Lemma try_commit_loop dc cur prev pend (wc wc' : World St App) cr :
  try_commit dc cur prev pend wc = (wc', Ok cr) → cr_committed_blocks cr ≠ [] →
  ∃ l, commit_loop (mkCommitLoop pend None cur prev GENESIS_HASH []) (cr_committed_blocks cr) wc = (wc', Ok l) ∧
    cr_pending_epoch cr = cl_pending_epoch l ∧ cr_activated_epoch cr = cl_activated_epoch l ∧
    cr_last_app_hash cr = cl_last_app_hash l.
Proof.
  intros Ht Hne. unfold try_commit in Ht. apply SM_bind_Ok in Ht as (w1 & st & [= <- <-] & Ht).
  apply SM_bind_Ok in Ht as (w1 & c & [= <- <-] & Ht).
  apply SM_bind_Ok in Ht as (w1 & cb & Hcb & Ht). injection Hcb as <- _.
  destruct (b_height cb <=? _); [injection Ht as _ <-; done|].
  apply SM_bind_Ok in Ht as (w1 & bs & Hbs & Ht). injection Hbs as <- _.
  apply SM_bind_Ok in Ht as (w1 & l & Hl & Ht). injection Ht as <- <-. exists l. done.
Qed.

(** ** Runs of [replay_blocks] *)

Lemma replay_loop_heights l : ∀ s s' p,
  replay_loop (sy_pending_epoch s) l s = (s', Ok p) →
  sy_height s' = sy_height s + N.of_nat (length l) ∧ sy_pending_epoch s' = p ∧
  (∀ i b qc, l !! i = Some (b, qc) → b_height b = sy_height s + 1 + N.of_nat i).
Proof.
  induction l as [|[b qc] l IH]; intros s s' p Hr.
  { injection Hr as <- <-. split; [simpl; lia|done]. }
  cbn [Sync.replay_loop] in Hr. apply SM_bind_Ok in Hr as (s1 & p1 & Hb & Hr).
  pose proof (replay_block_spec b qc s) as Hd. unfold wp in Hd. rewrite Hb in Hd.
  destruct Hd as [(q & -> & Hd) Hp1]. simpl in Hp1. rewrite <- Hp1 in Hr.
  pose proof (au_height _ _ _ (bd_authentic _ _ _ _ _ Hd)) as Hh. pose proof (bd_height _ _ _ _ _ Hd) as Hh1. simpl in Hh1.
  destruct (IH _ _ _ Hr) as (H1 & H2 & H3). split_and!; [simpl; lia|done|].
  intros [|i] c qc' Hi; simpl in Hi; [simplify_eq; simpl; lia|]. rewrite (H3 _ _ _ Hi). lia.
Qed.

Lemma replay_blocks_loop l s s' p :
  replay_blocks l s = (s', Ok p) ↔ replay_loop (sy_pending_epoch s) l s = (s', Ok p).
Proof.
  unfold Sync.replay_blocks. rewrite SM_bind_Ok. split.
  - intros (s1 & a & [= <- <-] & Hr). apply SM_bind_Ok in Hr as (s2 & p2 & Hl & Hr). injection Hr as <- <-.
    destruct (replay_loop_heights _ _ _ _ Hl) as (_ & <- & _). by destruct s2.
  - intros Hl. exists s, s. split; [done|]. apply SM_bind_Ok. exists s', p. split; [done|].
    destruct (replay_loop_heights _ _ _ _ Hl) as (_ & <- & _). by destruct s'.
Qed.

Lemma replay_blocks_app l1 l2 s s' p :
  replay_blocks (l1 ++ l2) s = (s', Ok p) ↔
  ∃ s1 p1, replay_blocks l1 s = (s1, Ok p1) ∧ replay_blocks l2 s1 = (s', Ok p).
Proof.
  setoid_rewrite replay_blocks_loop.
  assert (Happ : ∀ l p0 s0, replay_loop p0 (l ++ l2) s0 = (s', Ok p) ↔
    ∃ s1 p1, replay_loop p0 l s0 = (s1, Ok p1) ∧ replay_loop p1 l2 s1 = (s', Ok p)).
  { induction l as [|x l IH]; intros p0 s0; cbn [app Sync.replay_loop].
    - split; [intros Hr; by exists s0, p0|]. by intros (? & ? & [= <- <-] & ?).
    - rewrite SM_bind_Ok. split.
      + intros (s1 & p1 & Hx & (s2 & p2 & Hl & Hr)%IH). exists s2, p2. split; [|done].
        apply SM_bind_Ok. eauto.
      + intros (s2 & p2 & (s1 & p1 & Hx & Hl)%SM_bind_Ok & Hr). exists s1, p1. split; [done|]. apply IH. eauto. }
  rewrite Happ. split; intros (s1 & p1 & H1 & H2); exists s1, p1; (split; [done|]);
    destruct (replay_loop_heights _ _ _ _ H1) as (_ & E & _); congruence.
Qed.

(** A replay never claims to have run out of fuel. *)
Lemma replay_blocks_not_fuel l s : (replay_blocks l s).2 ≠ Err SyncFuel.
Proof.
  assert (Hl : ∀ l s, wp (replay_loop (sy_pending_epoch s) l)
    (λ s' r, r ≠ Err SyncFuel ∧ ∀ p, r = Ok p → sy_pending_epoch s' = p) s).
  { clear l s. induction l as [|[b qc] l IH]; intros s.
    { apply wp_ret. split; [done|]. by intros p [= <-]. }
    cbn [Sync.replay_loop]. apply wp_bind. eapply wp_mono; [apply replay_block_spec|].
    intros s1 [p|e|]; [|split; [|done]|done].
    - intros [_ <-]. apply IH.
    - intros [= ->]. destruct H as [[? _]|(_ & [[_ Hc]|[(_ & [?|?] & _)|(_ & [x ?] & _)]])]; try done.
      by destruct (check_block_total s (replay_epoch s b) b qc). }
  pose proof (Hl l s) as H. unfold wp in H. unfold Sync.replay_blocks.
  unfold mbind, SM_bind, get_w, modify, mret, SM_ret.
  destruct (replay_loop (sy_pending_epoch s) l s) as [s' [p|e|]]; simpl in *; [done| |done].
  destruct H as [H _]. congruence.
Qed.

(** ** The exchange with a peer *)

Section Exchange.
Context (peer : list SyncRequest → nat → recv_result) (send_ok : nat → bool).
Notation sync_loop := (sync_loop has_persistence has_wal wal_ok peer send_ok).
Notation sync_to_tip := (sync_to_tip has_persistence has_wal wal_ok peer send_ok).
Notation sync_via_snapshot := (sync_via_snapshot (St := St) (App := App) peer send_ok).
Notation IO := (SyncIO (St := St) (App := App)).
Implicit Types io : IO.

Definition io_height io : Height := sy_height (io_sync io).

Lemma wp_send r (Q : IO → res sync_error bool → Prop) io :
  (∀ reqs b, Q (mkSyncIO (io_sync io) reqs (S (io_sent io)) (io_received io)) (Ok b)) →
  wp (send send_ok r) Q io.
Proof. intros HQ. unfold wp, send. destruct (send_ok _); apply HQ. Qed.

Lemma wp_send_or_fail r (Q : IO → res sync_error unit → Prop) io :
  (∀ reqs, Q (mkSyncIO (io_sync io) reqs (S (io_sent io)) (io_received io)) (Ok ())) →
  (∀ reqs, Q (mkSyncIO (io_sync io) reqs (S (io_sent io)) (io_received io)) (Err ChannelClosed)) →
  wp (send_or_fail send_ok r) Q io.
Proof. intros H1 H2. apply wp_bind, wp_send. intros reqs []; [apply H1|apply H2]. Qed.

Lemma wp_in_sync {A} (m : SM Sy sync_error A) (Q : IO → res sync_error A → Prop) io :
  wp m (λ s r, Q (mkSyncIO s (io_requests io) (io_sent io) (io_received io)) r) (io_sync io) →
  wp (in_sync m) Q io.
Proof. unfold wp, in_sync. by destruct (m (io_sync io)). Qed.

Lemma wp_recv (Q : IO → res sync_error recv_result → Prop) io :
  (∀ r, Q (mkSyncIO (io_sync io) (io_requests io) (io_sent io) (S (io_received io))) (Ok r)) →
  wp (recv peer) Q io.
Proof. intros HQ. apply HQ. Qed.

Lemma wp_recv_blocks (Q : IO → res sync_error _ → Prop) io :
  (∀ l, Q (mkSyncIO (io_sync io) (io_requests io) (io_sent io) (S (io_received io))) (Ok l)) →
  (∀ e, e ≠ SyncFuel → Q (mkSyncIO (io_sync io) (io_requests io) (io_sent io) (S (io_received io))) (Err e)) →
  wp (recv_blocks peer) Q io.
Proof.
  intros H1 H2. apply wp_bind, wp_recv. intros [[]| |]; sy_steps; (apply H1 || by apply H2).
Qed.

(** Whatever the peer does, the loop ends. *)
Lemma sync_loop_ends fuel tip ff : ∀ io,
  (N.to_nat (tip - io_height io) < fuel)%nat →
  wp (sync_loop fuel tip ff) (λ _ r, r ≠ Err SyncFuel) io.
Proof.
  induction fuel as [|fuel IH]; intros io Hf; [lia|]. cbn [Sync.sync_loop]. apply wp_bind, wp_recv_blocks.
  2:{ intros e He. congruence. }
  intros l. case_bool_decide as Hl; [by sy_steps|]. sy_steps.
  match goal with |- wp (if ?c then _ else _) _ _ => set (needs_more := c) end.
  match goal with |- wp ?m _ ?i => assert (∀ Q, (∀ reqs sent, Q (mkSyncIO (io_sync io) reqs sent (S (io_received io))) (Ok ())) →
    wp m Q i) as Hsend end.
  { intros Q HQ. destruct needs_more; [|apply wp_ret, HQ]. apply wp_bind, wp_send. intros reqs b. apply wp_ret, HQ. }
  apply Hsend. intros reqs sent. apply wp_bind, wp_in_sync.
  pose proof (replay_blocks_not_fuel l (io_sync io)) as Hnf. unfold wp at 1. simpl.
  destruct (replay_blocks l (io_sync io)) as [s1 [p|e|]] eqn:Er; simpl in *; [|congruence|done].
  apply replay_blocks_loop, replay_loop_heights in Er as (Hh & Hp & _).
  match goal with |- wp _ _ ?i => assert (∀ io', io_height io' = sy_height s1 →
    wp (if (tip <=? sy_height (io_sync io')) || negb needs_more then mret () else sync_loop fuel tip ff)
      (λ _ r, r ≠ Err SyncFuel) io') as Hcont end.
  { intros io' Hio. unfold io_height in Hio, Hf. destruct (N.leb_spec tip (sy_height (io_sync io'))); [by apply wp_ret|].
    destruct needs_more; [|by apply wp_ret]. simpl. apply IH. unfold io_height. rewrite Hio in *.
    destruct l; [done|]. simpl in Hh. lia. }
  destruct p; sy_steps; [apply wp_in_sync; sy_steps|]; by apply Hcont.
Qed.

Lemma sync_to_tip_ends io : (sync_to_tip io).2 ≠ Err SyncFuel.
Proof.
  change (wp sync_to_tip (λ _ r, r ≠ Err SyncFuel) io). unfold Sync.sync_to_tip.
  apply wp_bind, wp_send_or_fail; [|done]. intros reqs. apply wp_bind, wp_recv.
  intros [[l|tip v e| |sn|h i d]| |]; sy_steps; try done.
  destruct (tip <=? _); [by sy_steps|].
  assert (Hsnap : ∀ i0, wp sync_via_snapshot (λ i1 _, io_sync i1 = io_sync i0) i0).
  { intros i0. unfold Sync.sync_via_snapshot. apply wp_bind, wp_send_or_fail; [|done]. intros reqs'.
    apply wp_bind, wp_recv. intros [[]| |]; sy_steps; try done.
    case_bool_decide; sy_steps; [done|]. case_match; by sy_steps. }
  match goal with |- wp (_ ≫= _) _ ?i => assert (∀ i1, io_sync i1 = io_sync i →
    wp (io ← get_w;
        if tip <=? sy_height (io_sync io) then mret ()
        else
          let first_from := sy_height (io_sync io) +w 1 in
          send_or_fail send_ok (GetBlocks first_from (batch_end first_from tip)) ;;
          sync_loop (S (N.to_nat (tip - sy_height (io_sync io)))) tip first_from)
      (λ _ r, r ≠ Err SyncFuel) i1) as Hcont end.
  { intros i1 Hi1. sy_steps. destruct (tip <=? _); [by sy_steps|]. sy_steps. apply wp_send_or_fail; [|done].
    intros reqs'. apply sync_loop_ends. unfold io_height; simpl. lia. }
  apply wp_bind. case_match; [|by sy_steps; apply Hcont]. apply wp_bind, wp_try.
  eapply wp_mono; [apply Hsnap|]. intros i1 r Hi1. destruct r; sy_steps; [by apply Hcont..|done].
Qed.
End Exchange.

(** ** A peer that serves a chain *)

Section Honest.
Context {St' : Type} `{!BlockStore St'}.
Context (base : Height) (chain : list (Block * option QuorumCertificate)).
Let tip : Height := base + N.of_nat (length chain).

(** The store of the peer holds the chain above [base] with its certificates. *)
Record holds_chain (store : St') : Prop := {
  hc_range : ∀ from to, base < from → from ≤ to → to ≤ tip →
    get_blocks_in_range store from to =
    (take (N.to_nat (to - from + 1)) (drop (N.to_nat (from - base - 1)) chain)).*1;
  hc_qc : ∀ b qc, (b, qc) ∈ chain → get_commit_qc store (b_height b) = qc;
}.

Context (store : St') (Hstore : holds_chain store).
Context (status : ConsensusStatus) (snapshots : list SnapshotInfo) (load_chunk : Height → N → bytes).
Context (Hstatus : st_last_committed_height status = tip).

(** Requests are answered in order by the peer's responder. *)
Definition serving_peer (reqs : list SyncRequest) (n : nat) : recv_result :=
  match reqs !! n with
  | Some r => Received (respond store status snapshots load_chunk r)
  | None => TimedOut
  end.

Notation always := (λ _ : nat, true).
Notation sync_loop := (sync_loop has_persistence has_wal wal_ok serving_peer always).
Notation sync_to_tip := (sync_to_tip has_persistence has_wal wal_ok serving_peer always).
Notation IO := (SyncIO (St := St) (App := App)).
Implicit Types io : IO.

Context (Htip : tip + MAX_SYNC_BATCH ≤ u64_max).

Lemma with_certificates l :
  (∀ x, x ∈ l → x ∈ chain) → (λ b, (b, get_commit_qc store (b_height b))) <$> l.*1 = l.
Proof.
  intros Hl. rewrite <- list_fmap_compose. rewrite <- (list_fmap_id l) at 2. apply list_fmap_ext.
  intros i [b qc] Hi. simpl. f_equal. apply (hc_qc _ Hstore). by eapply Hl, list_elem_of_lookup_2.
Qed.

Lemma batch_served h :
  base ≤ h → h < tip →
  respond store status snapshots load_chunk (GetBlocks (h + 1) (batch_end (h + 1) tip)) =
    RespBlocks (take 100 (drop (N.to_nat (h - base)) chain)).
Proof.
  intros Hb Ht. unfold respond, batch_end, saturating_add64, MAX_SYNC_BATCH in *.
  rewrite wrapping_add64_small, wrapping_sub64_small by lia.
  replace (N.min (N.min (h + 1 + 100 - 1) tip) (N.min (h + 1 + (100 - 1)) u64_max))
    with (N.min (h + 100) tip) by lia.
  rewrite (hc_range _ Hstore) by lia. replace (h + 1 - base - 1) with (h - base) by lia.
  rewrite with_certificates.
  2:{ intros x Hx. apply elem_of_take in Hx as (i & Hi & _). rewrite lookup_drop in Hi.
      by eapply list_elem_of_lookup_2. }
  f_equal. set (rest := drop (N.to_nat (h - base)) chain).
  assert (N.of_nat (length rest) = tip - h) as Hr by (unfold rest, tip; rewrite length_drop; lia).
  destruct (decide (tip - h ≤ 100)).
  - rewrite !take_ge by lia. done.
  - f_equal. lia.
Qed.

(** The outstanding request is the one for the next batch. *)
Definition awaiting io : Prop :=
  io_requests io !! io_received io =
    Some (GetBlocks (io_height io + 1) (batch_end (io_height io + 1) tip)) ∧
  length (io_requests io) = S (io_received io).

Lemma sync_loop_catches_up fuel ff : ∀ io s' p,
  base ≤ io_height io → io_height io < tip → awaiting io →
  (N.to_nat (tip - io_height io) ≤ fuel)%nat →
  replay_blocks (drop (N.to_nat (io_height io - base)) chain) (io_sync io) = (s', Ok p) →
  ∃ io', sync_loop fuel tip ff io = (io', Ok ()) ∧ io_sync io' = s'.
Proof.
  induction fuel as [|fuel IH]; intros io s' p Hb Ht [Hreq Hlen] Hf Hr; [lia|].
  set (h := io_height io) in *. set (rest := drop (N.to_nat (h - base)) chain) in *.
  assert (Hrest : N.of_nat (length rest) = tip - h) by (unfold rest, tip; rewrite length_drop; lia).
  rewrite <- (take_drop 100 rest) in Hr. apply replay_blocks_app in Hr as (s1 & p1 & H1 & H2).
  set (blocks := take 100 rest) in *.
  assert (Hbl : N.of_nat (length blocks) = N.min 100 (tip - h)) by (unfold blocks; rewrite length_take; lia).
  pose proof H1 as Hh. apply replay_blocks_loop, replay_loop_heights in Hh as (Hh & Hp1 & Hbh).
  change (sy_height (io_sync io)) with h in Hh, Hbh. unfold MAX_SYNC_BATCH in Htip.
  set (io1 := mkSyncIO (io_sync io) (io_requests io) (io_sent io) (S (io_received io))).
  assert (Hrecv : recv_blocks serving_peer io = (io1, Ok blocks)).
  { unfold recv_blocks, recv, serving_peer, mbind, SM_bind. by rewrite Hreq, batch_served. }
  cbn [Sync.sync_loop]. rewrite (SM_bind_run _ _ _ _ _ Hrecv).
  rewrite bool_decide_false by (intros E; rewrite E in Hbl; simpl in Hbl; lia).
  rewrite (SM_bind_run get_w _ io1 io1 io1) by done. cbv zeta.
  change (sy_height (io_sync io1)) with h. rewrite wrapping_add64_small by lia.
  set (more := h + N.of_nat (length blocks) <? tip).
  set (next := GetBlocks (h + N.of_nat (length blocks) + 1) (batch_end (h + N.of_nat (length blocks) + 1) tip)).
  set (io2 := if more then mkSyncIO (io_sync io1) (io_requests io1 ++ [next]) (S (io_sent io1)) (io_received io1) else io1).
  match goal with |- context [if more then ?m else mret ()] =>
    assert ((if more then m else mret ()) io1 = (io2, Ok ())) as Hsend end.
  { unfold io2. destruct more eqn:Em; [|done]. destruct (last blocks) as [[bl ql]|] eqn:El.
    - rewrite last_lookup in El. pose proof (lookup_lt_Some _ _ _ El). rewrite (Hbh _ _ _ El).
      replace (h + 1 + N.of_nat (pred (length blocks))) with (h + N.of_nat (length blocks)) by lia.
      by rewrite wrapping_add64_small by lia.
    - apply last_None in El. rewrite El in Hbl. simpl in Hbl. lia. }
  rewrite (SM_bind_run _ _ _ _ _ Hsend).
  assert (Hio2 : io_sync io2 = io_sync io) by (unfold io2; by destruct more).
  set (io3 := mkSyncIO s1 (io_requests io2) (io_sent io2) (io_received io2)).
  rewrite (SM_bind_run _ _ io2 io3 p1) by (unfold in_sync; rewrite Hio2, H1; done).
  rewrite (SM_bind_run _ _ io3 io3 ()).
  2:{ destruct p1; [|done]. unfold in_sync, modify; simpl. unfold io3. do 2 f_equal.
      rewrite <- Hp1. by destruct s1. }
  rewrite (SM_bind_run get_w _ io3 io3 io3) by done. cbv zeta. change (sy_height (io_sync io3)) with (sy_height s1).
  rewrite Hh. unfold more. destruct (N.ltb_spec (h + N.of_nat (length blocks)) tip) as [Hm|Hm].
  - rewrite (proj2 (N.leb_gt _ _)) by done. simpl.
    assert (io_height io3 = h + N.of_nat (length blocks)) as Hio3 by done.
    apply (IH io3 s' p); rewrite ?Hio3; [lia|done| |lia|].
    + split; rewrite ?Hio3; unfold io3, io2, more; rewrite ?(proj2 (N.ltb_lt _ _) Hm); simpl.
      * rewrite lookup_app_r by lia. by replace (S (io_received io) - length (io_requests io))%nat with 0%nat by lia.
      * rewrite length_app. simpl. lia.
    + rewrite <- H2. f_equal. unfold rest. rewrite drop_drop. f_equal.
      assert (N.of_nat (length blocks) = 100) by lia. lia.
  - rewrite orb_true_r. exists io3. split; [done|]. simpl.
    assert (drop 100 rest = []) as E by (apply drop_ge; lia). rewrite E in H2.
    apply replay_blocks_loop in H2. by injection H2.
Qed.

Lemma sync_to_tip_catches_up s s' p :
  sy_height s = base → chain ≠ [] → replay_blocks chain s = (s', Ok p) →
  ∃ io', sync_to_tip (mkSyncIO s [] 0 0) = (io', Ok ()) ∧ io_sync io' = s'.
Proof.
  intros Hbase Hne Hr. assert (base < tip) as Hlt.
  { assert (length chain ≠ 0%nat) by (intros E; by apply nil_length_inv in E). unfold tip. lia. }
  unfold Sync.sync_to_tip. set (io1 := mkSyncIO s [GetStatus] 1 0).
  rewrite (SM_bind_run _ _ _ io1 ()) by done. set (io2 := mkSyncIO s [GetStatus] 1 1).
  rewrite (SM_bind_run (recv serving_peer) _ io1 io2 (Received (RespStatus tip (st_current_view status)
    (st_epoch_number status)))) by (rewrite <- Hstatus; done). cbv beta iota.
  rewrite (SM_bind_run get_w _ io2 io2 io2) by done. change (sy_height (io_sync io2)) with (sy_height s).
  rewrite Hbase, (proj2 (N.leb_gt _ _)) by done. cbv zeta.
  set (big := MAX_SYNC_BATCH <? saturating_sub tip base).
  set (io3 := if big then mkSyncIO s [GetStatus; GetSnapshots] 2 2 else io2).
  rewrite (SM_bind_run _ _ _ io3 ()).
  2:{ unfold io3. destruct big; [|done]. apply SM_bind_Ok. exists (mkSyncIO s [GetStatus; GetSnapshots] 2 2), (inl false).
      split; [|done]. unfold try_, Sync.sync_via_snapshot, send_or_fail, send, recv, mbind, SM_bind. simpl.
      case_bool_decide; [done|]. unfold get_w. simpl. by destruct (_ <=? _). }
  rewrite (SM_bind_run get_w _ io3 io3 io3) by done.
  assert (io_sync io3 = s) as Es by (unfold io3; by destruct big). rewrite Es, Hbase, (proj2 (N.leb_gt _ _)) by done.
  cbv zeta. rewrite wrapping_add64_small by (unfold MAX_SYNC_BATCH in Htip; lia).
  set (io4 := mkSyncIO s (io_requests io3 ++ [GetBlocks (base + 1) (batch_end (base + 1) tip)]) (S (io_sent io3))
    (io_received io3)).
  rewrite (SM_bind_run _ _ _ io4 ()) by (unfold io4; by rewrite <- Es).
  assert (io_height io4 = base) as Hh4 by done.
  apply (sync_loop_catches_up _ _ io4 s' p); rewrite ?Hh4; [done|done| |lia|].
  - split; rewrite ?Hh4; unfold io4, io3; by destruct big.
  - rewrite N.sub_diag. done.
Qed.
End Honest.

(** ** Properties *)

(** C21: Replaying blocks from a peer commits only authentic blocks: each one
    applied extends the chain of the store by one height and names the hash of
    the block before it, hashes to its own hash, is proposed by the leader of
    its view, carries the expected application hash and valid evidence, and is
    certified by a quorum of the epoch in force at its view.  Each is executed in
    the context of that epoch, stored with its certificate, and checkpointed:
    between the log entries that open and close it and after the application's
    commit, the height, the epochs, the application hash and the pending epoch of
    the new state are saved and made durable (when the node has a persistent
    store and a log).  On success exactly the given blocks were applied, in order.
    On failure the blocks before the failing one were applied and checkpointed
    and the committed height stands there; a block that fails authentication
    changes nothing, one that fails later is applied only when its validator
    updates are what is refused, and one whose log entry cannot be closed is
    applied and checkpointed all the same.  A replay panics only on an authentic
    block, when the application fails a call or the epoch numbers are
    exhausted. *)
Theorem replay_blocks_correct l s s' r :
  st_ok (store_of s) → coherent (store_of s) l.*1 → replay_blocks l s = (s', r) →
  match r with
  | Ok p => replayed s l s' ∧ sy_pending_epoch s' = p ∧
      sy_height s' = sy_height s + N.of_nat (length l) ∧
      applied (trace_of s') = reverse l.*1 ++ applied (trace_of s)
  | Err e => ∃ l1 l2 s1, l = l1 ++ l2 ∧ replayed s l1 s1 ∧ stopped l2 e s1 s' ∧
      sy_height s1 = sy_height s + N.of_nat (length l1) ∧
      sy_height s' = sy_height s1 + match e with WalDoneFailed => 1 | _ => 0 end
  | Panic => ∃ l1 b qc l2 s1, l = l1 ++ (b, qc) :: l2 ∧ replayed s l1 s1 ∧ block_panics s1 b qc
  end.
Proof.
  intros Hok Hco Hrun. pose proof (replay_blocks_spec l s Hok Hco) as H. unfold wp in H. rewrite Hrun in H.
  destruct r as [p|e|]; simpl in H; [| |done].
  - destruct H as [Hr Hp]. destruct (replayed_facts _ _ _ Hr). done.
  - destruct H as (l1 & l2 & s1 & Hl & Hr & Hs). exists l1, l2, s1. split_and!; [done..| |].
    + apply (replayed_facts _ _ _ Hr).
    + by apply stopped_height in Hs.
Qed.


(** C23: Synchronising with a peer always ends, whatever the peer sends; and with
    a peer whose responder serves its store, which holds a certified chain of
    blocks that can be replayed, the node reaches the peer's height, in the state
    that replaying the whole chain at once leads to, however the blocks are cut
    into batches. *)
Theorem sync_to_tip_live {St'} `{!BlockStore St'} chain s s' p
    (store : St') status snapshots load_chunk :
  chain ≠ [] → sy_height s + N.of_nat (length chain) + MAX_SYNC_BATCH ≤ u64_max →
  replay_blocks chain s = (s', Ok p) →
  holds_chain (sy_height s) chain store →
  st_last_committed_height status = sy_height s + N.of_nat (length chain) →
  (∀ peer send_ok (io : SyncIO (St := St) (App := App)),
     (sync_to_tip has_persistence has_wal wal_ok peer send_ok io).2 ≠ Err SyncFuel) ∧
  ∃ io', sync_to_tip has_persistence has_wal wal_ok (serving_peer store status snapshots load_chunk)
           (λ _, true) (mkSyncIO s [] 0 0) = (io', Ok ()) ∧
    io_sync io' = s' ∧ sy_height s' = st_last_committed_height status.
Proof.
  intros Hne Hmax Hr Hst Hstat. split; [apply sync_to_tip_ends|].
  destruct (sync_to_tip_catches_up (sy_height s) chain store Hst status snapshots load_chunk Hstat Hmax s s' p)
    as (io' & Hrun & Hs); [done..|].
  exists io'. split_and!; [done..|]. rewrite Hstat. apply replay_blocks_loop, replay_loop_heights in Hr. apply Hr.
Qed.
End Safety.

(** ** A chain of two blocks *)

#[local] Existing Instance blake3_pad.
#[local] Existing Instance sample_verifier.

Definition sync_block (n : N) (parent app_hash : BlockHash) : Block :=
  let b := mkBlock n parent n (match leader_for_view sample_set n with Some v => vi_id v | None => 0 end)
             n [] app_hash [] GENESIS_HASH in
  set_hash b (compute_hash b).
Definition sync_qc (b : Block) : QuorumCertificate :=
  mkQC (b_hash b) (b_view b) (sample_agg TVote (b_view b) (b_hash b)) 0.

Definition sync_block1 : Block := sync_block 1 GENESIS_HASH (zeros 31 ++ [x01]).
Definition sync_block2 : Block := sync_block 2 (b_hash sync_block1) (zeros 31 ++ [x02]).
Definition sync_chain : list (Block * option QuorumCertificate) :=
  [(sync_block1, Some (sync_qc sync_block1)); (sync_block2, Some (sync_qc sync_block2))].

Definition sync_start : SyncState MemoryBlockStore NoopApplication :=
  mkSyncState (mkWorld sample_state mem_new Noop 0 []) None None.

Notation sample_replay := (replay_blocks true true (λ _, true)).

Lemma sync_run_Ok : (sample_replay sync_chain sync_start).2 = Ok None.
Proof. vm_compute. reflexivity. Qed.

Definition sync_end : SyncState MemoryBlockStore NoopApplication :=
  (sample_replay sync_chain sync_start).1.

Lemma sync_run_eq : sample_replay sync_chain sync_start = (sync_end, Ok None).
Proof. unfold sync_end. rewrite <- sync_run_Ok. apply surjective_pairing. Qed.

Lemma sync_start_ok : st_ok (store_of sync_start).
Proof. apply mem_new_ok. Qed.

Lemma sync_start_coherent : coherent (store_of sync_start) sync_chain.*1.
Proof.
  split.
  - intros b b' Hb E. assert (b = sync_block1 ∨ b = sync_block2) as [-> | ->] by set_solver; vm_compute in E; done.
  - intros b b' Hb Hb' E.
    assert (b = sync_block1 ∨ b = sync_block2) as [-> | ->] by set_solver;
    assert (b' = sync_block1 ∨ b' = sync_block2) as [-> | ->] by set_solver; vm_compute in E; done.
Qed.

Lemma replay_blocks_correct_witness :
  ∃ s', sample_replay sync_chain sync_start = (s', Ok None) ∧
    sy_height s' = 2 ∧ applied (trace_of s') = [sync_block2; sync_block1].
Proof.
  exists sync_end. split; [exact sync_run_eq|].
  destruct (replay_blocks_correct true true (λ _, true) sync_chain sync_start sync_end (Ok None))
    as (_ & _ & Hh & Ha).
  - exact sync_start_ok.
  - exact sync_start_coherent.
  - exact sync_run_eq.
  - split; [exact Hh|exact Ha].
Defined.

(** The live node holds the two blocks and sees a double certificate of the
    second. *)
Definition live_start : World MemoryBlockStore NoopApplication :=
  mkWorld sample_state (put_block (put_block mem_new sync_block1) sync_block2) Noop 0 [].

Definition live_run : World MemoryBlockStore NoopApplication * res commit_error CommitResult :=
  try_commit (mkDC (sync_qc sync_block2) (sync_qc sync_block2) []) (sy_epoch sync_start)
    (sy_previous_epoch sync_start) (sy_pending_epoch sync_start) live_start.

Lemma live_run_Ok : match live_run.2 with Ok cr => cr_committed_blocks cr = sync_chain.*1 | _ => False end.
Proof. vm_compute. reflexivity. Qed.


(** The store of a node that committed the blocks one by one. *)
Definition peer_store : MemoryBlockStore :=
  put_commit_qc (put_block (put_commit_qc (put_block mem_new sync_block1) 1 (sync_qc sync_block1)) sync_block2)
    2 (sync_qc sync_block2).

Lemma peer_store_holds : holds_chain 0 sync_chain peer_store.
Proof.
  split.
  - intros from to Hf Ht Hmax. change (to ≤ 2) in Hmax.
    assert (from = 1 ∧ to = 1 ∨ from = 1 ∧ to = 2 ∨ from = 2 ∧ to = 2) as [[-> ->]|[[-> ->]|[-> ->]]] by lia;
      vm_compute; reflexivity.
  - intros b qc Hin. assert ((b, qc) = (sync_block1, Some (sync_qc sync_block1)) ∨
      (b, qc) = (sync_block2, Some (sync_qc sync_block2))) as [[= -> ->]|[= -> ->]] by set_solver;
      vm_compute; reflexivity.
Qed.

Lemma sync_to_tip_live_witness :
  ∃ io', sync_to_tip true true (λ _, true) (serving_peer peer_store (mkConsensusStatus 3 2 0 4 1) [] (λ _ _, []))
           (λ _, true) (mkSyncIO sync_start [] 0 0) = (io', Ok ()) ∧ sy_height (io_sync io') = 2.
Proof.
  destruct (sync_to_tip_live true true (λ _, true) sync_chain sync_start sync_end None peer_store
    (mkConsensusStatus 3 2 0 4 1) [] (λ _ _, [])) as [_ (io' & Hrun & Hs & Hh)].
  - discriminate.
  - vm_compute. discriminate.
  - exact sync_run_eq.
  - exact peer_store_holds.
  - reflexivity.
  - exists io'. split; [exact Hrun|]. rewrite Hs. exact Hh.
Defined.

(** A live node that commits two blocks by one double certificate keeps a
    certificate for the second only, and what its responder then serves is
    refused. *)
Lemma ancestor_cannot_be_synced :
  match live_run with
  | (wc', Ok cr) =>
      let store := record_committed cr (w_store wc') in
      get_commit_qc store 1 = None ∧
      match respond store (mkConsensusStatus 3 2 0 4 1) [] (λ _ _, []) (GetBlocks 1 2) with
      | RespBlocks l => l.*1 = [sync_block1; sync_block2] ∧ (sample_replay l sync_start).2 = Err MissingCommitQc
      | _ => False
      end
  | _ => False
  end.
Proof. vm_compute. done. Qed.

(** A node whose current epoch started after the view of the next block to
    commit commits that block live, in the previous epoch, but refuses it in a
    replay. *)
Lemma previous_epoch_block_refused :
  let epoch := mkEpoch 1 2 sample_set in
  let w := w_set_state live_start (set_current_epoch sample_state epoch) in
  (sample_replay [(sync_block1, Some (sync_qc sync_block1))]
     (mkSyncState w None (Some (Epoch_genesis sample_set)))).2 = Err SyncQcInvalid ∧
  match try_commit (mkDC (sync_qc sync_block1) (sync_qc sync_block1) []) epoch
          (Some (Epoch_genesis sample_set)) None w with
  | (_, Ok cr) => cr_committed_blocks cr = [sync_block1]
  | _ => False
  end.
Proof. vm_compute. done. Qed.
