(* ===== verification/Samples.v ===== *)
(** * A sample node

    A concrete hash, signature scheme, engine and run for the witnesses: node 5
    of the sample set votes on the first proposal and on its prepare
    certificate. *)

From S2P Require Import Prelude Types ValidatorSet Encoding Aggregate VoteCollector State Liveness.
From S2P Require Import BlockStore EvidenceStore World Persist Pacemaker Commit ViewProtocol Engine.

#[local] Instance sample_blake3 : Blake3.
Proof.
  refine {| blake3 := λ m, le_split 32 (foldl (λ a b, a * 257 + byte.unsigned b)%Z 0%Z m) |}.
  intros m. apply length_le_split.
Defined.
#[local] Existing Instance sample_verifier.
#[local] Instance sample_signer : Signer :=
  {| sign := sample_sign (x02 :: zeros 31); signer_public_key := x02 :: zeros 31;
     signer_validator_id := 5 |}.

Notation SampleEngine := (Engine MemoryBlockStore NoopApplication MemoryEvidenceStore).
Notation sample_clock := (λ _ : nat, 1000).
Notation sample_start := (run_start (St := MemoryBlockStore) (App := NoopApplication)
  (Ev := MemoryEvidenceStore) map_to_list true false (λ _ _, true) sample_clock sample_clock 10 3).
Notation sample_handle := (handle (St := MemoryBlockStore) (App := NoopApplication)
  (Ev := MemoryEvidenceStore) map_to_list true false (λ _ _, true) sample_clock sample_clock 10 3).

Definition sample_engine : SampleEngine :=
  engine_new 0 (mkWorld (restore_state 5 sample_set [] ∅) mem_new Noop 0 []) None
    (Some me_new) None None.

Definition sample_proposal_block : Block :=
  let b := mkBlock 1 GENESIS_HASH 1 3 500 [] GENESIS_HASH [] GENESIS_HASH in
  set_hash b (compute_hash b).

Definition sample_genesis_qc : QuorumCertificate := mkQC GENESIS_HASH 0 (agg_new 4) 0.

Definition sample_propose : ConsensusMessage :=
  Propose sample_proposal_block sample_genesis_qc None
    (sample_sign (x01 :: zeros 31)
       (payload_bytes (PProposal (zeros 32) 0 sample_proposal_block sample_genesis_qc))) [].

Definition sample_prepare_qc : QuorumCertificate :=
  mkQC (b_hash sample_proposal_block) 1 (sample_agg TVote 1 (b_hash sample_proposal_block)) 0.

Definition sample_prepare : ConsensusMessage :=
  Prepare sample_prepare_qc
    (sample_sign (x01 :: zeros 31) (payload_bytes (PPrepare (zeros 32) 0 sample_prepare_qc))).

Definition sample_e0 : SampleEngine := (sample_start sample_engine).1.
Definition sample_e1 : SampleEngine := (sample_handle (InMessage (Some 3) sample_propose) sample_e0).1.
Definition sample_e2 : SampleEngine := (sample_handle (InMessage (Some 3) sample_prepare) sample_e1).1.
Definition sample_trace : list Effect := w_trace (en_w sample_e2).

(** ** Numbers as bytes

    One byte for each bit, for the sample codecs. *)

Fixpoint pos_bits (p : positive) : bytes :=
  match p with xH => [] | xO p => x00 :: pos_bits p | xI p => x01 :: pos_bits p end.
Fixpoint bits_pos (l : bytes) : positive :=
  match l with [] => xH | x00 :: l => xO (bits_pos l) | _ :: l => xI (bits_pos l) end.

Lemma bits_pos_bits p : bits_pos (pos_bits p) = p.
Proof. induction p; simpl; congruence. Qed.
