(* ===== verification/Utxo.v ===== *)
(** * The UTXO chain ([examples/utxo-chain/src/])

    The application keeps a set of unspent outputs and executes transactions
    that spend some and create others.  The storage crate [vsdb] is a parameter:
    a versioned map read and written at its main branch ([VerMap]) and an index
    from slots to keys ([SlotDex]); so are [postcard] and the strict ed25519
    verification. *)

From S2P Require Import Prelude Types Codec World Commit.

(** ** Data ([utxo_types.rs]) *)

Record OutPoint : Type := mkOutPoint { op_txid : bytes; op_vout : N }.
Record TxOutput : Type := mkTxOutput { to_value : N; to_pubkey_hash : bytes }.
Record TxInput : Type := mkTxInput {
  ti_prev_out : OutPoint;
  ti_signature : bytes;
  ti_pubkey : bytes;
}.
Record UtxoTx : Type := mkUtxoTx { tx_inputs : list TxInput; tx_outputs : list TxOutput }.

#[global] Instance OutPoint_eq_dec : EqDecision OutPoint.
Proof. solve_decision. Defined.
#[global] Instance TxOutput_eq_dec : EqDecision TxOutput.
Proof. solve_decision. Defined.

(** [u32::to_be_bytes] and [from_be_bytes] *)
Definition u32_be (n : N) : bytes := reverse (u32_le n).
Definition be_u32 (bs : bytes) : N := le_u32 (reverse bs).
(** [u128::from_be_bytes] *)
Definition be_u128 (bs : bytes) : N := Z.to_N (LittleEndianList.le_combine (reverse bs)).

Definition to_key (o : OutPoint) : bytes := op_txid o ++ u32_be (op_vout o).
Definition from_key (key : bytes) : OutPoint :=
  mkOutPoint (take 32 key) (be_u32 (take 4 (drop 32 key))).

Definition unsigned_input (i : TxInput) : TxInput :=
  mkTxInput (ti_prev_out i) (zeros 64) (ti_pubkey i).

Section Types.
Context `{Blake3, !Postcard UtxoTx}.

Definition tx_encode (tx : UtxoTx) : bytes := default [] (pc_encode tx).
Definition tx_decode (bs : bytes) : option UtxoTx := pc_decode bs.

(** The bytes that [signing_hash] hashes: the transaction with every signature
    replaced by 64 zero bytes. *)
Definition signing_preimage (tx : UtxoTx) : bytes :=
  tx_encode (mkUtxoTx (unsigned_input <$> tx_inputs tx) (tx_outputs tx)).
Definition signing_hash (tx : UtxoTx) : bytes := blake3 (signing_preimage tx).
Definition txid (tx : UtxoTx) : bytes := signing_hash tx.

Definition hash_pubkey (pubkey : bytes) : bytes := blake3 pubkey.

Definition encode_payload (txs : list UtxoTx) : bytes :=
  foldl (λ payload tx,
    let bs := tx_encode tx in
    payload ++ u32_le (N.of_nat (length bs) mod (u32_max + 1)) ++ bs) [] txs.
End Types.

(** ** The storage crate *)

(** [VerMapWithProof] at its main branch.  [get] is [get(branch, key).ok().flatten()];
    [commit] tells whether it succeeded; proofs are of the crate's type
    [SmtProof] and have a byte encoding. *)
Class VerMap (M SmtProof : Type) : Type := {
  vm_new : M;
  vm_get : M → bytes → option TxOutput;
  vm_insert : M → bytes → TxOutput → M;
  vm_remove : M → bytes → M;
  vm_commit : M → bool * M;
  vm_merkle_root : M → option bytes * M;
  vm_prove_at : M → bytes → option SmtProof * M;
  smt_proof_to_bytes : SmtProof → option bytes;
  vm_contents : M → gmap bytes TxOutput;
  vm_contents_new : vm_contents vm_new = ∅;
  vm_get_contents : ∀ m k, vm_get m k = vm_contents m !! k;
  vm_insert_contents : ∀ m k v, vm_contents (vm_insert m k v) = <[k := v]> (vm_contents m);
  vm_remove_contents : ∀ m k, vm_contents (vm_remove m k) = delete k (vm_contents m);
  vm_commit_contents : ∀ m, vm_contents (vm_commit m).2 = vm_contents m;
  vm_root_contents : ∀ m, vm_contents (vm_merkle_root m).2 = vm_contents m;
  vm_prove_contents : ∀ m k, vm_contents (vm_prove_at m k).2 = vm_contents m;
}.

(** [SlotDex128]: keys filed under slots.  [iter] and [page] read one slot.  The
    index is created writable, the only case in which [remove] succeeds. *)
Class SlotDex (D : Type) : Type := {
  sd_new : D;
  sd_insert : D → N → bytes → D;
  sd_remove : D → N → bytes → D;
  sd_iter : D → N → list bytes;
  sd_page : D → N → N → N → list bytes;
  sd_contents : D → gset (N * bytes);
  sd_contents_new : sd_contents sd_new = ∅;
  sd_insert_contents : ∀ d s k, sd_contents (sd_insert d s k) = {[(s, k)]} ∪ sd_contents d;
  sd_remove_contents : ∀ d s k, sd_contents (sd_remove d s k) = sd_contents d ∖ {[(s, k)]};
  sd_iter_NoDup : ∀ d s, NoDup (sd_iter d s);
  sd_iter_contents : ∀ d s k, k ∈ sd_iter d s ↔ (s, k) ∈ sd_contents d;
  sd_page_contents : ∀ d s size index k, k ∈ sd_page d s size index → (s, k) ∈ sd_contents d;
}.

(** [VerifyingKey::from_bytes] and [verify_strict] *)
Class Ed25519Strict : Type := {
  verifying_key_ok : bytes → bool;
  verify_strict : bytes → bytes → bytes → bool;
}.

Section Utxo.
Context `{Blake3, !Postcard UtxoTx, !Postcard TxOutput, Ed25519Strict}.
Context {M SmtProof D : Type} `{!VerMap M SmtProof, !SlotDex D}.

(** ** The state ([utxo_state.rs]) *)

Definition addr_slot (pubkey_hash : bytes) : N := be_u128 (take 16 pubkey_hash).

Record UtxoState : Type := mkUtxoState {
  us_utxos : M;
  us_addr_index : D;
  us_total_supply : N;
}.

Definition UtxoState_new : UtxoState := mkUtxoState vm_new sd_new 0.

Definition get_utxo (s : UtxoState) (o : OutPoint) : option TxOutput := vm_get (us_utxos s) (to_key o).

(** One turn of the loop over the inputs: an input whose output is gone is
    skipped. *)
Definition spend_input (s : UtxoState) (i : TxInput) : UtxoState :=
  let key := to_key (ti_prev_out i) in
  match vm_get (us_utxos s) key with
  | Some spent => mkUtxoState (vm_remove (us_utxos s) key)
      (sd_remove (us_addr_index s) (addr_slot (to_pubkey_hash spent)) key)
      (saturating_sub (us_total_supply s) (to_value spent))
  | None => s
  end.

(** [vout as u32] *)
Definition output_key (id : bytes) (vout : nat) : bytes :=
  to_key (mkOutPoint id (N.of_nat vout mod (u32_max + 1))).

Definition create_output (id : bytes) (vout : nat) (s : UtxoState) (o : TxOutput) : UtxoState :=
  let key := output_key id vout in
  mkUtxoState (vm_insert (us_utxos s) key o)
    (sd_insert (us_addr_index s) (addr_slot (to_pubkey_hash o)) key)
    (saturating_add64 (us_total_supply s) (to_value o)).

(** The supply that the code keeps in a local variable is part of the state
    here; nothing else reads it before it is written back. *)
Definition apply_tx (s : UtxoState) (tx : UtxoTx) (id : bytes) : UtxoState :=
  enumerate_foldl (create_output id) 0 (foldl spend_input s (tx_inputs tx)) (tx_outputs tx).

Definition commit (s : UtxoState) : bool * UtxoState :=
  let '(ok, m) := vm_commit (us_utxos s) in
  (ok, mkUtxoState m (us_addr_index s) (us_total_supply s)).

Definition utxo_root (s : UtxoState) : option bytes * UtxoState :=
  let '(root, m) := vm_merkle_root (us_utxos s) in
  (root, mkUtxoState m (us_addr_index s) (us_total_supply s)).

Definition prove_utxo (s : UtxoState) (o : OutPoint) : option SmtProof * UtxoState :=
  let '(proof, m) := vm_prove_at (us_utxos s) (to_key o) in
  (proof, mkUtxoState m (us_addr_index s) (us_total_supply s)).

Definition insert_genesis_utxo (s : UtxoState) (id : bytes) (vout : N) (o : TxOutput) : UtxoState :=
  let key := to_key (mkOutPoint id vout) in
  mkUtxoState (vm_insert (us_utxos s) key o)
    (sd_insert (us_addr_index s) (addr_slot (to_pubkey_hash o)) key)
    (saturating_add64 (us_total_supply s) (to_value o)).

Definition get_utxos_by_address (s : UtxoState) (pubkey_hash : bytes) (page_index page_size : N)
    : list OutPoint :=
  from_key <$> sd_page (us_addr_index s) (addr_slot pubkey_hash) page_size page_index.

(** [sum()] of [u64] values *)
Definition get_balance (s : UtxoState) (pubkey_hash : bytes) : N :=
  foldl wrapping_add64 0
    (to_value <$> omap (vm_get (us_utxos s)) (sd_iter (us_addr_index s) (addr_slot pubkey_hash))).

(** ** The application ([utxo_app.rs]) *)

Record GenesisUtxo : Type := mkGenesisUtxo { gu_value : N; gu_pubkey_hash : bytes }.

Record UtxoConfig : Type := mkUtxoConfig {
  uc_genesis_utxos : list GenesisUtxo;
  uc_max_tx_inputs : N;
  uc_max_tx_outputs : N;
  uc_max_tx_size : N;
  uc_log_on_commit : bool;
}.

Definition UtxoConfig_default : UtxoConfig := mkUtxoConfig [] 256 256 102400 false.

Record UtxoApplication : Type := mkUtxoApplication { ua_state : UtxoState; ua_config : UtxoConfig }.

Definition genesis_txid (i : nat) : bytes := blake3 (u64_le (N.of_nat i)).

Definition UtxoApplication_new (config : UtxoConfig) : UtxoApplication :=
  let state := enumerate_foldl (λ i s alloc,
    insert_genesis_utxo s (genesis_txid i) 0 (mkTxOutput (gu_value alloc) (gu_pubkey_hash alloc)))
    0 UtxoState_new (uc_genesis_utxos config) in
  mkUtxoApplication (commit state).2 config.

(** [seen.insert(key)] is false for some input. *)
Fixpoint duplicate_input (seen : gset bytes) (inputs : list TxInput) : bool :=
  match inputs with
  | [] => false
  | i :: rest =>
      let key := to_key (ti_prev_out i) in
      bool_decide (key ∈ seen) || duplicate_input ({[key]} ∪ seen) rest
  end.

(** The loop of step 5; [None] is [return false]. *)
Fixpoint verify_inputs (s : UtxoState) (hash : bytes) (input_sum : N) (inputs : list TxInput) : option N :=
  match inputs with
  | [] => Some input_sum
  | i :: rest =>
      utxo ← get_utxo s (ti_prev_out i);
      if negb (bool_decide (hash_pubkey (ti_pubkey i) = to_pubkey_hash utxo)) then None
      else if negb (verifying_key_ok (ti_pubkey i)) then None
      else if negb (length (ti_signature i) =? 64)%nat then None
      else if negb (verify_strict (ti_pubkey i) hash (ti_signature i)) then None
      else sum ← checked_add64 input_sum (to_value utxo); verify_inputs s hash sum rest
  end.

Definition validate_decoded_tx (config : UtxoConfig) (tx : UtxoTx) (tx_bytes_len : N) (s : UtxoState)
    : bool :=
  let inputs := tx_inputs tx in
  let outputs := tx_outputs tx in
  if uc_max_tx_size config <? tx_bytes_len then false
  else if (length inputs =? 0)%nat || (length outputs =? 0)%nat then false
  else if uc_max_tx_inputs config <? N.of_nat (length inputs) then false
  else if uc_max_tx_outputs config <? N.of_nat (length outputs) then false
  else if existsb (λ o, to_value o =? 0) outputs then false
  else if duplicate_input ∅ inputs then false
  else
    match verify_inputs s (signing_hash tx) 0 inputs with
    | None => false
    | Some input_sum =>
        match checked_sum to_value 0 outputs with
        | None => false
        | Some output_sum => negb (input_sum <? output_sum)
        end
    end.

(** [validate_tx]: accepted with priority 0, or rejected. *)
Definition utxo_validate_tx (a : UtxoApplication) (tx_bytes : bytes) : TxValidationResult :=
  match tx_decode tx_bytes with
  | None => TxValidationResult_reject
  | Some tx =>
      if validate_decoded_tx (ua_config a) tx (N.of_nat (length tx_bytes)) (ua_state a)
      then TxValidationResult_accept 0 else TxValidationResult_reject
  end.

(** One turn of the loop of [execute_block]. *)
Definition execute_tx (config : UtxoConfig) (s : UtxoState) (tx_bytes : bytes) : UtxoState :=
  match tx_decode tx_bytes with
  | None => s
  | Some tx =>
      if negb (validate_decoded_tx config tx (N.of_nat (length tx_bytes)) s) then s
      else apply_tx s tx (txid tx)
  end.

Definition utxo_execute_block (a : UtxoApplication) (txs : list bytes)
    : option EndBlockResponse * UtxoApplication :=
  let config := ua_config a in
  let '(ok, s) := commit (foldl (execute_tx config) (ua_state a) txs) in
  if negb ok then (None, mkUtxoApplication s config)
  else (Some EndBlockResponse_default, mkUtxoApplication (utxo_root s).2 config).

(** [on_commit] only logs balances. *)
Definition utxo_on_commit (a : UtxoApplication) (block : Block) (ctx : BlockContext)
    : bool * UtxoApplication := (true, a).

(** [None] is [Err]. *)
Definition utxo_query (a : UtxoApplication) (path : string) (data : bytes)
    : option QueryResponse * UtxoApplication :=
  let s := ua_state a in
  let put s := mkUtxoApplication s (ua_config a) in
  let '(result, s) :=
    if String.eqb path "balance" && (length data =? 32)%nat then
      (Some (u64_le (get_balance s data)), s)
    else if String.eqb path "utxo" && (length data =? 36)%nat then
      match get_utxo s (from_key data) with
      | Some output => (Some (default [] (pc_encode output)), s)
      | None => (Some [], s)
      end
    else if String.eqb path "utxo_root" then
      let '(root, s) := utxo_root s in (Some (default [] root), s)
    else if String.eqb path "total_supply" then (Some (u64_le (us_total_supply s)), s)
    else if String.eqb path "prove" && (length data =? 36)%nat then
      match prove_utxo s (from_key data) with
      | (None, s) => (None, s)
      | (Some proof, s) => (smt_proof_to_bytes proof, s)
      end
    else (Some [], s) in
  ((λ data, mkQueryResponse data None 0) <$> result, put s).

#[global] Instance utxo_application : Application UtxoApplication := {|
  app_info _ := mkAppInfo 0 GENESIS_HASH;
  app_create_payload a _ := ([], a);
  app_validate_block a _ _ := (true, a);
  app_execute_block a txs _ := utxo_execute_block a txs;
  app_on_commit a block ctx := utxo_on_commit a block ctx;
  app_on_evidence a _ := (true, a);
  app_on_offline_validators a _ := (true, a);
  app_extend_vote a _ _ := (None, a);
  app_verify_vote_extension a _ _ _ := (true, a);
  app_tracks_app_hash _ := true;
  app_validate_tx a tx _ := (utxo_validate_tx a tx, a);
  app_query a path data := utxo_query a path data;
|}.

(** ** The demo application ([app.rs]) *)

Definition COIN : N := 100000000.

Section Demo.
(** [SigningKey]: its verifying key and its signatures. *)
Context {SigningKey : Type} (verifying_key : SigningKey → bytes) (key_sign : SigningKey → bytes → bytes).

Record DemoUtxoApp : Type := mkDemoUtxoApp {
  du_inner : UtxoApplication;
  du_alice_key : SigningKey;
  du_bob_pkh : bytes;
}.

Definition DemoUtxoApp_new (alice_key bob_key : SigningKey) : DemoUtxoApp :=
  let alice_pkh := hash_pubkey (verifying_key alice_key) in
  let bob_pkh := hash_pubkey (verifying_key bob_key) in
  let d := UtxoConfig_default in
  let config := mkUtxoConfig [mkGenesisUtxo (100 * COIN) alice_pkh; mkGenesisUtxo (100 * COIN) bob_pkh]
                  (uc_max_tx_inputs d) (uc_max_tx_outputs d) (uc_max_tx_size d) true in
  mkDemoUtxoApp (UtxoApplication_new config) alice_key bob_pkh.

(** The body of the loop at index [i]; [None] goes on to the next index. *)
Definition transfer_from (a : DemoUtxoApp) (i : nat) : option UtxoTx :=
  let alice_pk := verifying_key (du_alice_key a) in
  let alice_pkh := hash_pubkey alice_pk in
  let outpoint := mkOutPoint (genesis_txid i) 0 in
  utxo ← get_utxo (ua_state (du_inner a)) outpoint;
  if bool_decide (to_pubkey_hash utxo = alice_pkh) && (COIN <=? to_value utxo) then
    let outputs := [mkTxOutput COIN (du_bob_pkh a); mkTxOutput (to_value utxo - COIN) alice_pkh] in
    let outputs := filter (λ o, 0 < to_value o) outputs in
    let tx := mkUtxoTx [mkTxInput outpoint (zeros 64) alice_pk] outputs in
    Some (mkUtxoTx [mkTxInput outpoint (key_sign (du_alice_key a) (signing_hash tx)) alice_pk] outputs)
  else None.

Fixpoint scan_transfers (a : DemoUtxoApp) (indices : list nat) : option UtxoTx :=
  match indices with
  | [] => None
  | i :: rest => match transfer_from a i with Some tx => Some tx | None => scan_transfers a rest end
  end.

Definition build_transfer (a : DemoUtxoApp) : option UtxoTx :=
  match (utxo_query (du_inner a) "balance" (hash_pubkey (verifying_key (du_alice_key a)))).1 with
  | None => None
  | Some r => if (length (qr_data r) <? 8)%nat then None else scan_transfers a (seq 0 1000)
  end.

Definition demo_create_payload (a : DemoUtxoApp) : bytes :=
  match build_transfer a with Some tx => encode_payload [tx] | None => [] end.

Definition demo_execute_block (a : DemoUtxoApp) (txs : list bytes)
    : option EndBlockResponse * DemoUtxoApp :=
  let '(r, inner) := utxo_execute_block (du_inner a) txs in
  (r, mkDemoUtxoApp inner (du_alice_key a) (du_bob_pkh a)).
End Demo.
End Utxo.
