(* ===== verification/UtxoSafety.v ===== *)
(** * Correctness of the UTXO chain

    The stored state refines a finite map of unspent outputs.  Over any run of
    blocks the map holds exactly the outputs that were created and not spent,
    every output is spent at most once and with a signature of its owner, and
    the supply only shrinks by the fees. *)

From stdpp Require Import fin_maps.
From S2P Require Import Prelude Types ValidatorSet Codec Aggregate State BlockStore World Commit Samples Utxo.

(** ** Sums over finite maps *)

Notation Ledger := (gmap bytes TxOutput).

Definition value_sum (L : Ledger) : N := sumN (λ e, to_value e.2) (map_to_list L).

Lemma value_sum_empty : value_sum ∅ = 0.
Proof. unfold value_sum. by rewrite map_to_list_empty. Qed.

Lemma value_sum_insert L k o : L !! k = None → value_sum (<[k := o]> L) = to_value o + value_sum L.
Proof. intros Hk. unfold value_sum. by rewrite (sumN_perm _ _ _ (map_to_list_insert L k o Hk)). Qed.

Lemma value_sum_delete L k o : L !! k = Some o → value_sum L = to_value o + value_sum (delete k L).
Proof. intros Hk. unfold value_sum. by rewrite <- (sumN_perm _ _ _ (map_to_list_delete L k o Hk)). Qed.

Lemma value_sum_lookup L k o : L !! k = Some o → to_value o ≤ value_sum L.
Proof. intros Hk. rewrite (value_sum_delete L k o Hk). lia. Qed.

(** ** Keys *)

Lemma length_u32_be n : length (u32_be n) = 4%nat.
Proof. unfold u32_be. by rewrite length_reverse, length_u32_le. Qed.

Lemma be_u32_u32_be n : n ≤ u32_max → be_u32 (u32_be n) = n.
Proof. intros Hn. unfold be_u32, u32_be. rewrite reverse_involutive. by apply le_u32_u32_le. Qed.

Lemma u32_be_be_u32 bs : length bs = 4%nat → u32_be (be_u32 bs) = bs.
Proof.
  intros Hl. unfold be_u32, u32_be. rewrite u32_le_le_u32 by by rewrite length_reverse.
  apply reverse_involutive.
Qed.

(** An [OutPoint] of the program: 32 bytes and a [u32]. *)
Definition outpoint_ok (o : OutPoint) : Prop := length (op_txid o) = 32%nat ∧ op_vout o ≤ u32_max.

Lemma from_key_to_key o : outpoint_ok o → from_key (to_key o) = o.
Proof.
  intros [Hl Hv]. destruct o as [id v]. unfold from_key, to_key. simpl in *.
  rewrite take_app_length', drop_app_length' by done.
  rewrite take_ge by by rewrite length_u32_be. by rewrite be_u32_u32_be.
Qed.

Lemma to_key_from_key key : length key = 36%nat → to_key (from_key key) = key ∧ outpoint_ok (from_key key).
Proof.
  intros Hl. unfold from_key, to_key, outpoint_ok. simpl.
  assert (length (take 4 (drop 32 key)) = 4%nat) as H4 by (rewrite length_take, length_drop; lia).
  rewrite u32_be_be_u32 by done. rewrite (take_ge (drop 32 key)) by (rewrite length_drop; lia).
  rewrite take_drop, length_take. split_and!; [done|lia|].
  rewrite (take_ge (drop 32 key)) in H4 by (rewrite length_drop; lia).
  unfold be_u32. apply le_u32_bound. by rewrite length_reverse.
Qed.

Lemma output_key_inj id id' v v' :
  length id = 32%nat → length id' = 32%nat → N.of_nat v ≤ u32_max → N.of_nat v' ≤ u32_max →
  output_key id v = output_key id' v' → id = id' ∧ v = v'.
Proof.
  intros Hi Hi' Hv Hv' E. unfold output_key in E. rewrite !N.mod_small in E by lia.
  apply (f_equal from_key) in E. rewrite !from_key_to_key in E by done.
  injection E as -> E. split; [done|lia].
Qed.

Section Safety.
Context `{Blake3, !Postcard UtxoTx, !Postcard TxOutput, Ed25519Strict}.
Context {M SmtProof D : Type} `{!VerMap M SmtProof, !SlotDex D}.
Notation State := (UtxoState (M := M) (D := D)).
Implicit Types (s : State) (L : Ledger) (tx : UtxoTx).

Definition contents s : Ledger := vm_contents (us_utxos s).

(** ** The invariant of the state *)

(** The supply is the sum of the unspent values and fits in a [u64], and the
    address index files exactly the unspent keys, each under its owner. *)
Record state_ok s : Prop := {
  so_supply : us_total_supply s = value_sum (contents s);
  so_bound : value_sum (contents s) ≤ u64_max;
  so_index : ∀ slot k, (slot, k) ∈ sd_contents (us_addr_index s) ↔
    ∃ o, contents s !! k = Some o ∧ slot = addr_slot (to_pubkey_hash o);
}.

Lemma get_utxo_contents s o : get_utxo s o = contents s !! to_key o.
Proof. apply vm_get_contents. Qed.

Lemma new_state_ok : state_ok UtxoState_new.
Proof.
  split; unfold contents; simpl; rewrite ?vm_contents_new, ?value_sum_empty; [done|done|].
  intros slot k. rewrite sd_contents_new. split; [set_solver|]. intros (o&Ho&_). by rewrite lookup_empty in Ho.
Qed.

Lemma spend_input_contents s i :
  contents (spend_input s i) = delete (to_key (ti_prev_out i)) (contents s).
Proof.
  unfold spend_input. destruct (vm_get _ _) as [o|] eqn:E; unfold contents; simpl.
  - apply vm_remove_contents.
  - rewrite vm_get_contents in E. by rewrite delete_id.
Qed.

Lemma spend_input_ok s i : state_ok s → state_ok (spend_input s i).
Proof.
  intros [Hs Hb Hi]. pose proof (spend_input_contents s i) as Hc. revert Hc.
  unfold spend_input. destruct (vm_get _ _) as [o|] eqn:E; [|done].
  rewrite vm_get_contents in E. set (k := to_key _) in *. intros Hc.
  pose proof (value_sum_delete _ _ _ E) as Hv. fold (contents s) in Hv.
  split; rewrite Hc; simpl.
  - unfold saturating_sub. lia.
  - lia.
  - intros slot k'. rewrite sd_remove_contents, elem_of_difference, elem_of_singleton, Hi.
    split.
    + intros [(o'&Ho'&->) Hne]. exists o'. split; [|done]. apply lookup_delete_Some. split; [|done].
      intros <-. apply Hne. unfold contents in Ho'. rewrite E in Ho'. by simplify_eq.
    + intros (o'&[Hne Ho']%lookup_delete_Some&->). split; [by exists o'|]. naive_solver.
Qed.

(** Filing a new key: [create_output] and [insert_genesis_utxo]. *)
Definition file_output (key : bytes) (o : TxOutput) s : State :=
  mkUtxoState (vm_insert (us_utxos s) key o)
    (sd_insert (us_addr_index s) (addr_slot (to_pubkey_hash o)) key)
    (saturating_add64 (us_total_supply s) (to_value o)).

Lemma file_output_contents key o s : contents (file_output key o s) = <[key := o]> (contents s).
Proof. apply vm_insert_contents. Qed.

Lemma file_output_ok key o s :
  state_ok s → contents s !! key = None → value_sum (contents s) + to_value o ≤ u64_max →
  state_ok (file_output key o s).
Proof.
  intros [Hs Hb Hi] Hk Hv. split; rewrite file_output_contents, ?value_sum_insert by done; simpl.
  - unfold saturating_add64. lia.
  - lia.
  - intros slot k. rewrite sd_insert_contents, elem_of_union, elem_of_singleton, Hi. split.
    + intros [[= -> ->]|(o'&Ho'&->)]; [exists o; by rewrite lookup_insert_eq|].
      exists o'. split; [|done]. rewrite lookup_insert_ne; [done|]. congruence.
    + intros (o'&Ho'&->). apply lookup_insert_Some in Ho' as [[<- <-]|[Hne Ho']]; [by left|].
      right. by exists o'.
Qed.

(** Steps that only touch the storage crate's bookkeeping. *)
Lemma state_ok_ext s s' :
  contents s' = contents s → us_addr_index s' = us_addr_index s →
  us_total_supply s' = us_total_supply s → state_ok s → state_ok s'.
Proof. intros Hc Hx Hs [H1 H2 H3]. split; rewrite ?Hc, ?Hx, ?Hs; done. Qed.

Lemma commit_frame s :
  contents (commit s).2 = contents s ∧ us_addr_index (commit s).2 = us_addr_index s ∧
  us_total_supply (commit s).2 = us_total_supply s.
Proof.
  unfold commit, contents. pose proof (vm_commit_contents (us_utxos s)) as Hc.
  by destruct (vm_commit (us_utxos s)) as [ok m].
Qed.

Lemma root_frame s :
  contents (utxo_root s).2 = contents s ∧ us_addr_index (utxo_root s).2 = us_addr_index s ∧
  us_total_supply (utxo_root s).2 = us_total_supply s.
Proof.
  unfold utxo_root, contents. pose proof (vm_root_contents (us_utxos s)) as Hc.
  by destruct (vm_merkle_root (us_utxos s)) as [r m].
Qed.

(** ** Transactions on the abstract ledger *)

Definition input_key (i : TxInput) : bytes := to_key (ti_prev_out i).
Definition input_keys tx : list bytes := input_key <$> tx_inputs tx.

(** The outputs that a transaction creates, with their keys. *)
Definition created_by tx : list (bytes * TxOutput) :=
  imap (λ v o, (output_key (txid tx) v, o)) (tx_outputs tx).

Definition ledger_apply L tx : Ledger :=
  list_to_map (created_by tx) ∪ filter (λ e, e.1 ∉ input_keys tx) L.

Definition input_value L (i : TxInput) : N := from_option to_value 0 (L !! input_key i).
Definition inputs_value L tx : N := sumN (input_value L) (tx_inputs tx).
Definition outputs_value tx : N := sumN to_value (tx_outputs tx).

(** The input names an output of the ledger and is signed by its owner. *)
Definition authorised L (hash : bytes) (i : TxInput) : Prop :=
  ∃ o, L !! input_key i = Some o ∧ hash_pubkey (ti_pubkey i) = to_pubkey_hash o ∧
    verifying_key_ok (ti_pubkey i) = true ∧ length (ti_signature i) = 64%nat ∧
    verify_strict (ti_pubkey i) hash (ti_signature i) = true.

Record valid_tx (config : UtxoConfig) L tx (size : N) : Prop := {
  vt_size : size ≤ uc_max_tx_size config;
  vt_inputs : 1 ≤ N.of_nat (length (tx_inputs tx)) ≤ uc_max_tx_inputs config;
  vt_outputs : 1 ≤ N.of_nat (length (tx_outputs tx)) ≤ uc_max_tx_outputs config;
  vt_nonzero : Forall (λ o, to_value o ≠ 0) (tx_outputs tx);
  vt_nodup : NoDup (input_keys tx);
  vt_authorised : Forall (authorised L (signing_hash tx)) (tx_inputs tx);
  vt_balance : outputs_value tx ≤ inputs_value L tx;
  vt_bound : inputs_value L tx ≤ u64_max;
}.

Lemma duplicate_input_spec seen inputs :
  duplicate_input seen inputs = false ↔
    NoDup (input_key <$> inputs) ∧ ∀ k, k ∈ input_key <$> inputs → k ∉ seen.
Proof.
  revert seen. induction inputs as [|i rest IH]; intros seen; cbn [duplicate_input].
  { split; [|done]. intros _. split; [constructor|]. intros k Hk. by apply elem_of_nil in Hk. }
  rewrite orb_false_iff, bool_decide_eq_false, IH, fmap_cons, NoDup_cons.
  setoid_rewrite elem_of_cons. unfold input_key at 1 3. split.
  - intros (Hi&Hn&Hs). split_and!; [|done|].
    + intros Hk. apply (Hs _ Hk). set_solver.
    + intros k [->|Hk]; [done|]. specialize (Hs k Hk). set_solver.
  - intros ((Hi&Hn)&Hs). split_and!; [by apply Hs; left|done|].
    intros k Hk [->%elem_of_singleton|Hk']%elem_of_union; [done|]. by apply (Hs k); [right|].
Qed.

Lemma verify_inputs_Some s hash acc inputs sum :
  verify_inputs s hash acc inputs = Some sum ↔
    Forall (authorised (contents s) hash) inputs ∧
    sum = acc + sumN (input_value (contents s)) inputs ∧ (inputs ≠ [] → sum ≤ u64_max).
Proof.
  revert acc. induction inputs as [|i rest IH]; intros acc; cbn [verify_inputs].
  { rewrite sumN_nil. split; [intros [= <-]|]; [split_and!; [constructor|lia|done]|].
    intros (_&->&_). f_equal. lia. }
  rewrite Forall_cons, sumN_cons. unfold authorised at 1, input_value at 1, input_key.
  rewrite get_utxo_contents. destruct (contents s !! _) as [o|]; cbn [mbind option_bind from_option].
  2: { split; [done|]. intros (((o&?&_)&_)&_). done. }
  destruct (bool_decide_reflect (hash_pubkey (ti_pubkey i) = to_pubkey_hash o)) as [Hp|Hp]; cbn [negb].
  2: { split; [done|]. intros (((o'&[= <-]&?&_)&_)&_). done. }
  destruct (verifying_key_ok (ti_pubkey i)) eqn:Hvk; cbn [negb].
  2: { split; [done|]. intros (((o'&[= <-]&_&?&_)&_)&_). done. }
  destruct (Nat.eqb_spec (length (ti_signature i)) 64) as [Hl|Hl]; cbn [negb].
  2: { split; [done|]. intros (((o'&[= <-]&_&_&?&_)&_)&_). done. }
  destruct (verify_strict (ti_pubkey i) hash (ti_signature i)) eqn:Hv; cbn [negb].
  2: { split; [done|]. intros (((o'&[= <-]&_&_&_&?)&_)&_). congruence. }
  destruct (checked_add64 acc (to_value o)) as [acc'|] eqn:Ea; cbn [mbind option_bind].
  - apply checked_add64_Some in Ea as [-> Hb]. rewrite IH. split.
    + intros (Hf&->&Hr). split_and!; [|done|lia|]. { by exists o. }
      intros _. destruct rest; [rewrite sumN_nil; lia|by apply Hr].
    + intros ((_&Hf)&->&Hr). split_and!; [done|lia|]. intros _. by apply Hr.
  - apply checked_add64_None in Ea. split; [done|]. intros ((_&_)&->&Hr).
    specialize (Hr ltac:(done)). lia.
Qed.

Lemma checked_sum_value {A} (f : A → N) l acc t : checked_sum f acc l = Some t → t = acc + sumN f l.
Proof.
  revert acc. induction l as [|x l IH]; intros acc; cbn [checked_sum].
  { intros [= <-]. rewrite sumN_nil. lia. }
  destruct (checked_add64 acc (f x)) as [a|] eqn:Ea; cbn [mbind option_bind]; [|done].
  apply checked_add64_Some in Ea as [-> _]. intros ->%IH. rewrite sumN_cons. lia.
Qed.

Lemma existsb_zero outputs :
  existsb (λ o, to_value o =? 0) outputs = false ↔ Forall (λ o, to_value o ≠ 0) outputs.
Proof.
  induction outputs as [|o rest IH]; simpl; [by split; constructor|].
  by rewrite orb_false_iff, N.eqb_neq, Forall_cons, IH.
Qed.

(** Validation accepts exactly the valid transactions. *)
Lemma validate_decoded_tx_iff config tx size s :
  validate_decoded_tx config tx size s = true ↔ valid_tx config (contents s) tx size.
Proof.
  unfold validate_decoded_tx.
  destruct (N.ltb_spec (uc_max_tx_size config) size) as [?|Hs]; [split; [done|intros []; lia]|].
  destruct (Nat.eqb_spec (length (tx_inputs tx)) 0) as [?|Hi]; simpl; [split; [done|intros []; lia]|].
  destruct (Nat.eqb_spec (length (tx_outputs tx)) 0) as [?|Ho]; [split; [done|intros []; lia]|].
  destruct (N.ltb_spec (uc_max_tx_inputs config) (N.of_nat (length (tx_inputs tx)))) as [?|Him];
    [split; [done|intros []; lia]|].
  destruct (N.ltb_spec (uc_max_tx_outputs config) (N.of_nat (length (tx_outputs tx)))) as [?|Hom];
    [split; [done|intros []; lia]|].
  destruct (existsb _ _) eqn:Hz.
  { split; [done|]. intros [_ _ _ Hnz _ _ _ _]. apply existsb_zero in Hnz. congruence. }
  apply existsb_zero in Hz.
  destruct (duplicate_input ∅ (tx_inputs tx)) eqn:Hd.
  { split; [done|]. intros [_ _ _ _ Hnd _ _ _]. apply (not_false_iff_true _) in Hd. destruct Hd.
    apply duplicate_input_spec. split; [done|set_solver]. }
  apply duplicate_input_spec in Hd as [Hd _].
  assert (tx_inputs tx ≠ []) as Hne by (intros E; by rewrite E in Hi).
  destruct (verify_inputs s (signing_hash tx) 0 (tx_inputs tx)) as [sum|] eqn:Hv.
  2: { split; [done|]. intros [_ _ _ _ _ Ha _ Hb].
       assert (verify_inputs s (signing_hash tx) 0 (tx_inputs tx) = Some (0 + inputs_value (contents s) tx))
         as Hv' by (apply verify_inputs_Some; split_and!; [done|done|intros _; lia]). congruence. }
  apply verify_inputs_Some in Hv as (Ha&->&Hb). specialize (Hb Hne).
  destruct (checked_sum to_value 0 (tx_outputs tx)) as [t|] eqn:Ht.
  - apply checked_sum_value in Ht as ->. rewrite negb_true_iff, N.ltb_ge. split.
    + intros Hle. split; try done; [lia..| |]; unfold inputs_value, outputs_value; lia.
    + intros [_ _ _ _ _ _ Hbal _]. unfold inputs_value, outputs_value in Hbal. lia.
  - split; [done|]. intros [_ _ _ _ _ _ Hbal _]. unfold inputs_value, outputs_value in Hbal.
    rewrite checked_sum_Some in Ht by lia. done.
Qed.

(** *** Applying a transaction *)

Lemma spend_contents s inputs :
  contents (foldl spend_input s inputs) = filter (λ e, e.1 ∉ input_key <$> inputs) (contents s).
Proof.
  revert s. induction inputs as [|i rest IH]; intros s; simpl.
  { symmetry. apply map_filter_id. intros. apply not_elem_of_nil. }
  rewrite IH, spend_input_contents. apply map_eq. intros k. apply option_eq. intros o.
  rewrite !map_lookup_filter_Some, lookup_delete_Some. simpl. rewrite not_elem_of_cons.
  unfold input_key at 3. naive_solver.
Qed.

Lemma spend_ok s inputs : state_ok s → state_ok (foldl spend_input s inputs).
Proof. revert s. induction inputs as [|i rest IH]; intros s Hs; simpl; [done|]. by apply IH, spend_input_ok. Qed.

(** Outputs at fresh keys, one after the other. *)
Definition file_outputs (entries : list (bytes * TxOutput)) s : State :=
  foldl (λ s e, file_output e.1 e.2 s) s entries.

Lemma file_outputs_contents entries s :
  NoDup entries.*1 → contents (file_outputs entries s) = list_to_map entries ∪ contents s.
Proof.
  revert s. induction entries as [|[k o] rest IH]; intros s; cbn [file_outputs foldl fmap list_fmap fst snd].
  { intros _. simpl. by rewrite (left_id_L ∅ (∪)). }
  intros [Hni Hnd]%NoDup_cons. unfold file_outputs in IH. rewrite IH, file_output_contents by done.
  cbn [list_to_map foldr]. rewrite <- insert_union_l. simpl.
  rewrite insert_union_r; [done|]. by apply not_elem_of_list_to_map_1.
Qed.

Lemma file_outputs_ok entries s :
  NoDup entries.*1 → (∀ k, k ∈ entries.*1 → contents s !! k = None) →
  state_ok s → value_sum (contents s) + sumN (λ e, to_value e.2) entries ≤ u64_max →
  state_ok (file_outputs entries s) ∧
  value_sum (contents (file_outputs entries s)) =
    value_sum (contents s) + sumN (λ e, to_value e.2) entries.
Proof.
  revert s. induction entries as [|[k o] rest IH]; intros s; cbn [file_outputs foldl fmap list_fmap fst snd].
  { intros _ _. by rewrite sumN_nil, N.add_0_r. }
  intros [Hni Hnd]%NoDup_cons Hf Hs Hb. assert (contents s !! k = None) as Hk by (apply Hf; left).
  rewrite sumN_cons in *. cbn [snd] in *.
  destruct (IH (file_output k o s) Hnd) as [Hok Hv].
  - intros k' Hk'. rewrite file_output_contents, lookup_insert_ne; [apply Hf; by right|]. congruence.
  - apply file_output_ok; [done..|lia].
  - rewrite file_output_contents, value_sum_insert by done. lia.
  - rewrite file_output_contents, value_sum_insert in Hv by done.
    split; [done|]. unfold file_outputs in Hv. rewrite Hv. lia.
Qed.

Lemma enumerate_files {A} (f : nat → State → A → State) (key : nat → bytes) (out : A → TxOutput) i s l :
  (∀ i s a, f i s a = file_output (key i) (out a) s) →
  enumerate_foldl f i s l = file_outputs (imap (λ v a, (key (i + v)%nat, out a)) l) s.
Proof.
  intros Hfile. revert i s. induction l as [|a l IH]; intros i s; cbn [enumerate_foldl imap]; [done|].
  rewrite IH, Hfile, Nat.add_0_r. unfold file_outputs. cbn [foldl fst snd]. f_equal.
  apply imap_ext. intros v x _. simpl. do 2 f_equal. lia.
Qed.

Lemma sumN_imap {A B} (f : A → N) (g : nat → B → A) (h : B → N) l :
  (∀ i b, f (g i b) = h b) → sumN f (imap g l) = sumN h l.
Proof.
  intros Hfg. revert g Hfg. induction l as [|b l IH]; intros g Hfg; cbn [imap]; [done|].
  rewrite !sumN_cons, Hfg. f_equal. apply IH. intros i b'. apply Hfg.
Qed.

Lemma spent_value L inputs :
  NoDup (input_key <$> inputs) →
  value_sum L = sumN (input_value L) inputs + value_sum (filter (λ e, e.1 ∉ input_key <$> inputs) L).
Proof.
  revert L. induction inputs as [|i rest IH]; intros L; cbn [fmap list_fmap].
  { intros _. rewrite sumN_nil, N.add_0_l. f_equal. symmetry. apply map_filter_id.
    intros. apply not_elem_of_nil. }
  rewrite NoDup_cons. intros [Hni Hnd]. rewrite sumN_cons.
  assert (filter (λ e, e.1 ∉ input_key i :: (input_key <$> rest)) L =
          filter (λ e, e.1 ∉ input_key <$> rest) (delete (input_key i) L)) as ->.
  { apply map_eq. intros k. apply option_eq. intros o.
    rewrite !map_lookup_filter_Some, lookup_delete_Some. simpl. rewrite not_elem_of_cons. naive_solver. }
  assert (sumN (input_value L) rest = sumN (input_value (delete (input_key i) L)) rest) as ->.
  { apply sumN_ext. intros j Hj. unfold input_value. rewrite lookup_delete_ne; [done|].
    intros E. apply Hni. rewrite E. by apply list_elem_of_fmap_2. }
  rewrite <- N.add_assoc, <- IH by done. unfold input_value.
  destruct (L !! input_key i) as [o|] eqn:E; simpl; [by apply value_sum_delete|]. by rewrite delete_id.
Qed.

Lemma txid_length tx : length (txid tx) = 32%nat.
Proof. apply blake3_length. Qed.

Lemma created_by_keys tx k :
  k ∈ (created_by tx).*1 ↔ ∃ v, (v < length (tx_outputs tx))%nat ∧ k = output_key (txid tx) v.
Proof.
  unfold created_by. rewrite fmap_imap, elem_of_lookup_imap. simpl. split.
  - intros (v&o&->&Hv). exists v. split; [by eapply lookup_lt_Some|done].
  - intros (v&Hv&->). destruct (lookup_lt_is_Some_2 _ _ Hv) as [o Ho]. by exists v, o.
Qed.

Lemma created_by_NoDup tx :
  N.of_nat (length (tx_outputs tx)) ≤ u32_max + 1 → NoDup (created_by tx).*1.
Proof.
  intros Hl. unfold created_by. rewrite fmap_imap. apply NoDup_alt. intros a b k.
  rewrite !list_lookup_imap. intros Ha Hb. apply fmap_Some in Ha as (oa&Ha&->).
  apply fmap_Some in Hb as (ob&Hb&E). apply lookup_lt_Some in Ha, Hb. simpl in E.
  apply output_key_inj in E as [_ E]; [done|apply txid_length..|lia|lia].
Qed.

Lemma elem_of_created_by tx k o :
  (k, o) ∈ created_by tx ↔ ∃ v, tx_outputs tx !! v = Some o ∧ k = output_key (txid tx) v.
Proof. unfold created_by. rewrite elem_of_lookup_imap. naive_solver. Qed.

Lemma apply_tx_files s tx :
  apply_tx s tx (txid tx) = file_outputs (created_by tx) (foldl spend_input s (tx_inputs tx)).
Proof. unfold apply_tx. by rewrite (enumerate_files _ (output_key (txid tx)) id). Qed.

Lemma apply_tx_contents s tx :
  N.of_nat (length (tx_outputs tx)) ≤ u32_max + 1 →
  contents (apply_tx s tx (txid tx)) = ledger_apply (contents s) tx.
Proof.
  intros Hl. rewrite apply_tx_files, file_outputs_contents, spend_contents; [done|].
  by apply created_by_NoDup.
Qed.

(** Executing a valid transaction whose outputs are new keeps the invariant,
    and the supply shrinks by the fee. *)
Lemma apply_tx_ok config size s tx :
  valid_tx config (contents s) tx size → uc_max_tx_outputs config ≤ u32_max + 1 →
  (∀ k, k ∈ (created_by tx).*1 → contents s !! k = None) → state_ok s →
  state_ok (apply_tx s tx (txid tx)) ∧
  value_sum (contents (apply_tx s tx (txid tx))) + (inputs_value (contents s) tx - outputs_value tx) =
    value_sum (contents s).
Proof.
  intros Hv Hmax Hf Hok. rewrite apply_tx_files.
  pose proof (spent_value (contents s) (tx_inputs tx) (vt_nodup _ _ _ _ Hv)) as Hsum.
  pose proof (vt_balance _ _ _ _ Hv) as Hbal. pose proof (so_bound _ Hok) as Hb.
  assert (sumN (λ e, to_value e.2) (created_by tx) = outputs_value tx) as Ho by by apply sumN_imap.
  unfold inputs_value in *. rewrite <- spend_contents in Hsum.
  destruct (file_outputs_ok (created_by tx) (foldl spend_input s (tx_inputs tx))) as [Hok' Hv'].
  - apply created_by_NoDup. pose proof (vt_outputs _ _ _ _ Hv). lia.
  - intros k Hk. rewrite spend_contents. apply map_lookup_filter_None_2. left. by apply Hf.
  - by apply spend_ok.
  - lia.
  - split; [done|]. rewrite Hv'. lia.
Qed.

(** ** Execution on the abstract ledger *)

(** Executing the transactions of a block one after the other: bytes that do
    not decode and transactions that are not valid are skipped. *)
Inductive ledger_exec (config : UtxoConfig) : Ledger → list bytes → Ledger → Prop :=
| exec_nil L : ledger_exec config L [] L
| exec_undecodable L bs rest L' :
    tx_decode bs = None → ledger_exec config L rest L' → ledger_exec config L (bs :: rest) L'
| exec_invalid L bs tx rest L' :
    tx_decode bs = Some tx → ¬ valid_tx config L tx (N.of_nat (length bs)) →
    ledger_exec config L rest L' → ledger_exec config L (bs :: rest) L'
| exec_valid L bs tx rest L' :
    tx_decode bs = Some tx → valid_tx config L tx (N.of_nat (length bs)) →
    ledger_exec config (ledger_apply L tx) rest L' → ledger_exec config L (bs :: rest) L'.

Lemma ledger_exec_det config L txs L1 L2 :
  ledger_exec config L txs L1 → ledger_exec config L txs L2 → L1 = L2.
Proof.
  intros HE. revert L2. induction HE; intros L2; inversion 1; simplify_eq; auto; congruence.
Qed.

Lemma ledger_exec_app config L txs L1 txs' L2 :
  ledger_exec config L txs L1 → ledger_exec config L1 txs' L2 → ledger_exec config L (txs ++ txs') L2.
Proof. intros HE ?. induction HE; simpl; eauto using ledger_exec. Qed.

Lemma execute_txs_refines config s txs :
  uc_max_tx_outputs config ≤ u32_max + 1 →
  ledger_exec config (contents s) txs (contents (foldl (execute_tx config) s txs)).
Proof.
  intros Hmax. revert s. induction txs as [|bs rest IH]; intros s; cbn [foldl]; [constructor|].
  unfold execute_tx at 2. destruct (tx_decode bs) as [tx|] eqn:Ed; [|by apply exec_undecodable].
  destruct (validate_decoded_tx _ _ _ _) eqn:Hv; cbn [negb].
  - apply validate_decoded_tx_iff in Hv. apply (exec_valid _ _ _ tx); [done..|].
    rewrite <- apply_tx_contents; [apply IH|]. pose proof (vt_outputs _ _ _ _ Hv). lia.
  - apply (exec_invalid _ _ _ tx); [done| |apply IH]. rewrite <- validate_decoded_tx_iff. congruence.
Qed.

(** ** Histories *)

Section History.
Context (config : UtxoConfig).

Definition genesis_entries : list (bytes * TxOutput) :=
  imap (λ i alloc, (to_key (mkOutPoint (genesis_txid i) 0),
                    mkTxOutput (gu_value alloc) (gu_pubkey_hash alloc))) (uc_genesis_utxos config).
Definition genesis_total : N := sumN gu_value (uc_genesis_utxos config).

(** What a history of executed transactions created, spent and left. *)
Definition created (hist : list UtxoTx) : list (bytes * TxOutput) :=
  genesis_entries ++ mjoin (created_by <$> hist).
Definition spent (hist : list UtxoTx) : list bytes := mjoin (input_keys <$> hist).
Definition unspent (hist : list UtxoTx) : Ledger :=
  filter (λ e, e.1 ∉ spent hist) (list_to_map (created hist)).

Definition fee (pre : list UtxoTx) tx : N := inputs_value (unspent pre) tx - outputs_value tx.
Fixpoint fees_from (pre hist : list UtxoTx) : N :=
  match hist with [] => 0 | tx :: rest => fee pre tx + fees_from (pre ++ [tx]) rest end.

(** Every transaction of the history was valid on what its predecessors left. *)
Definition history_valid (hist : list UtxoTx) : Prop :=
  ∀ pre tx post, hist = pre ++ tx :: post → ∃ size, valid_tx config (unspent pre) tx size.

Lemma created_snoc hist tx : created (hist ++ [tx]) = created hist ++ created_by tx.
Proof. unfold created. rewrite fmap_app, join_app. simpl. by rewrite app_nil_r, app_assoc. Qed.

Lemma spent_snoc hist tx : spent (hist ++ [tx]) = spent hist ++ input_keys tx.
Proof. unfold spent. rewrite fmap_app, join_app. simpl. by rewrite app_nil_r. Qed.

Lemma fees_snoc pre hist tx : fees_from pre (hist ++ [tx]) = fees_from pre hist + fee (pre ++ hist) tx.
Proof.
  revert pre. induction hist as [|t hist IH]; intros pre; simpl.
  - rewrite app_nil_r. lia.
  - rewrite IH, <- app_assoc. simpl. lia.
Qed.

Lemma history_valid_snoc hist tx size :
  history_valid hist → valid_tx config (unspent hist) tx size → history_valid (hist ++ [tx]).
Proof.
  intros Hh Hv pre t post E. destruct (decide (post = [])) as [->|Hne].
  - apply app_inj_tail in E as [<- <-]. by exists size.
  - destruct (exists_last Hne) as (post'&t'&->). rewrite app_comm_cons, app_assoc in E.
    apply app_inj_tail in E as [-> _]. by eapply Hh.
Qed.

(** With distinct created keys the map is the list. *)
Lemma unspent_lookup hist k o :
  NoDup (created hist).*1 →
  unspent hist !! k = Some o ↔ (k, o) ∈ created hist ∧ k ∉ spent hist.
Proof.
  intros Hnd. unfold unspent. rewrite map_lookup_filter_Some. simpl.
  by rewrite <- elem_of_list_to_map by done.
Qed.

Record history_inv (hist : list UtxoTx) s : Prop := {
  hi_ok : state_ok s;
  hi_contents : contents s = unspent hist;
  hi_created : NoDup (created hist).*1;
  hi_spent : NoDup (spent hist);
  hi_spent_created : spent hist ⊆ (created hist).*1;
  hi_valid : history_valid hist;
  hi_supply : value_sum (contents s) + fees_from [] hist = genesis_total;
}.

(** *** Transaction ids are never reused

    The laws that the argument needs of [postcard] on transactions: encoding
    succeeds, and a transaction with an input takes more than 8 bytes, since the
    id it spends alone is written as 32 bytes. *)
Hypothesis encodes : ∀ tx, is_Some (pc_encode tx).
Hypothesis encoding_long : ∀ tx bs, tx_inputs tx ≠ [] → pc_encode tx = Some bs → (8 < length bs)%nat.

(** The hash has no collision among the preimages [P] of a run. *)
Context (P : bytes → Prop).
Hypothesis collision_free : ∀ x y, P x → P y → blake3 x = blake3 y → x = y.
Hypothesis genesis_P : ∀ i, (i < length (uc_genesis_utxos config))%nat → P (u64_le (N.of_nat i)).
Hypothesis max_outputs : uc_max_tx_outputs config ≤ u32_max + 1.

Lemma preimage_inputs tx tx' : signing_preimage tx = signing_preimage tx' → input_keys tx = input_keys tx'.
Proof.
  unfold signing_preimage, tx_encode.
  destruct (encodes (mkUtxoTx (unsigned_input <$> tx_inputs tx) (tx_outputs tx))) as [b Hb].
  destruct (encodes (mkUtxoTx (unsigned_input <$> tx_inputs tx') (tx_outputs tx'))) as [b' Hb'].
  rewrite Hb, Hb'. simpl. intros ->. apply pc_decode_encode in Hb, Hb'. rewrite Hb in Hb'.
  injection Hb' as E _. unfold input_keys.
  assert (∀ l : list TxInput, input_key <$> l = input_key <$> (unsigned_input <$> l)) as Hu.
  { intros l. induction l as [|i l IH]; [done|]. rewrite !fmap_cons. by f_equal. }
  by rewrite (Hu (tx_inputs tx)), (Hu (tx_inputs tx')), E.
Qed.

Lemma preimage_not_genesis tx i : tx_inputs tx ≠ [] → signing_preimage tx ≠ u64_le i.
Proof.
  intros Hne E. unfold signing_preimage, tx_encode in E.
  destruct (encodes (mkUtxoTx (unsigned_input <$> tx_inputs tx) (tx_outputs tx))) as [b Hb].
  rewrite Hb in E. simpl in E. subst b. apply encoding_long in Hb; [|by destruct (tx_inputs tx)].
  rewrite length_u64_le in Hb. lia.
Qed.

Lemma valid_inputs_present L tx size k :
  valid_tx config L tx size → k ∈ input_keys tx → is_Some (L !! k).
Proof.
  intros Hv (i&->&Hi)%list_elem_of_fmap. pose proof (vt_authorised _ _ _ _ Hv) as Ha.
  rewrite Forall_forall in Ha. destruct (Ha i Hi) as (o&Ho&_). by exists o.
Qed.

Lemma genesis_key id : to_key (mkOutPoint id 0) = output_key id 0.
Proof. done. Qed.

Lemma created_key hist k :
  k ∈ (created hist).*1 →
  (∃ i, (i < length (uc_genesis_utxos config))%nat ∧ k = output_key (genesis_txid i) 0) ∨
  (∃ t v, t ∈ hist ∧ (v < length (tx_outputs t))%nat ∧ k = output_key (txid t) v).
Proof.
  unfold created. rewrite fmap_app, elem_of_app. intros [Hk|Hk]; [left|right].
  - unfold genesis_entries in Hk. rewrite fmap_imap in Hk. apply elem_of_lookup_imap in Hk as (i&a&->&Hi).
    exists i. split; [by eapply lookup_lt_Some|done].
  - apply list_elem_of_fmap in Hk as (e&->&He). apply list_elem_of_join in He as (l&He&Hl).
    apply list_elem_of_fmap in Hl as (t&->&Ht).
    assert (e.1 ∈ (created_by t).*1) as (v&Hv&E)%created_by_keys by by apply list_elem_of_fmap_2.
    by exists t, v.
Qed.

Lemma valid_vout L tx size v :
  valid_tx config L tx size → (v < length (tx_outputs tx))%nat → N.of_nat v ≤ u32_max.
Proof. intros Hv Hlt. pose proof (vt_outputs _ _ _ _ Hv). lia. Qed.

(** A valid transaction creates keys that never existed. *)
Lemma created_fresh hist s tx size :
  history_inv hist s → (∀ t, t ∈ hist → P (signing_preimage t)) → P (signing_preimage tx) →
  valid_tx config (contents s) tx size →
  ∀ k, k ∈ (created_by tx).*1 → k ∉ (created hist).*1.
Proof.
  intros Hi HP Htx Hv k (v&Hlt&->)%created_by_keys.
  assert (tx_inputs tx ≠ []) as Hne.
  { intros E. pose proof (vt_inputs _ _ _ _ Hv) as Hin. rewrite E in Hin. simpl in Hin. lia. }
  intros [(i&Hil&E)|(t&v'&Ht&Hlt'&E)]%created_key.
  - apply output_key_inj in E as [E _];
      [|apply txid_length|apply blake3_length|by eapply valid_vout|lia].
    apply collision_free in E; [|done|by apply genesis_P]. by apply preimage_not_genesis in E.
  - destruct (list_elem_of_split _ _ Ht) as (pre&post&Eh).
    destruct (hi_valid _ _ Hi _ _ _ Eh) as [size' Hv'].
    apply output_key_inj in E as [E _];
      [|apply txid_length..|exact (valid_vout _ _ _ _ Hv Hlt)|exact (valid_vout _ _ _ _ Hv' Hlt')].
    apply collision_free in E; [|done|by apply HP]. apply preimage_inputs in E.
    destruct (input_keys tx) as [|k ks] eqn:Ek.
    { unfold input_keys in Ek. by apply fmap_nil_inv in Ek. }
    destruct (valid_inputs_present _ _ _ k Hv) as [o Ho]; [rewrite Ek; left|].
    rewrite (hi_contents _ _ Hi), unspent_lookup in Ho by apply (hi_created _ _ Hi).
    destruct Ho as [_ Hns]. apply Hns. unfold spent. apply list_elem_of_join.
    exists (input_keys t). split; [rewrite <- E; left|]. by apply list_elem_of_fmap_2.
Qed.

Lemma unspent_snoc hist tx size :
  NoDup (created (hist ++ [tx])).*1 → spent hist ⊆ (created hist).*1 →
  valid_tx config (unspent hist) tx size →
  ledger_apply (unspent hist) tx = unspent (hist ++ [tx]).
Proof.
  intros Hnd Hsub Hv.
  assert (Hnd' := Hnd). rewrite created_snoc, fmap_app in Hnd'. apply NoDup_app in Hnd' as (Hnh&Hdis&Hnt).
  assert (∀ k, k ∈ input_keys tx → k ∈ (created hist).*1) as Hin.
  { intros k Hk. destruct (valid_inputs_present _ _ _ _ Hv Hk) as [o Ho].
    apply unspent_lookup in Ho as [Ho _]; [|done]. apply (list_elem_of_fmap_2 fst) in Ho. done. }
  apply map_eq. intros k. apply option_eq. intros o. rewrite unspent_lookup by done.
  unfold ledger_apply. rewrite lookup_union_Some_raw, map_lookup_filter_Some, unspent_lookup by done.
  rewrite <- elem_of_list_to_map, <- not_elem_of_list_to_map by done.
  rewrite created_snoc, spent_snoc, !elem_of_app. simpl. split.
  - intros [Hk|(Hnk&(Hk&Hs)&Hi)]; [|naive_solver]. split; [by right|].
    apply (list_elem_of_fmap_2 fst) in Hk. simpl in Hk. intros [Hs|Hs]; (eapply Hdis; [|exact Hk]); auto.
  - intros [[Hk|Hk] Hs]; [right|by left]. apply Decidable.not_or in Hs as [? ?]. split_and!; [|done..].
    apply (list_elem_of_fmap_2 fst) in Hk. simpl in Hk. by apply Hdis.
Qed.

Lemma history_step hist s tx size :
  history_inv hist s → (∀ t, t ∈ hist → P (signing_preimage t)) → P (signing_preimage tx) →
  valid_tx config (contents s) tx size → history_inv (hist ++ [tx]) (apply_tx s tx (txid tx)).
Proof.
  intros Hi HP Htx Hv. pose proof (created_fresh _ _ _ _ Hi HP Htx Hv) as Hf.
  destruct Hi as [Hok Hc Hnd Hsp Hsub Hvalid Hsum].
  assert (NoDup (created (hist ++ [tx])).*1) as Hnd'.
  { rewrite created_snoc, fmap_app. apply NoDup_app. split_and!; [done|naive_solver|].
    apply created_by_NoDup. pose proof (vt_outputs _ _ _ _ Hv). lia. }
  destruct (apply_tx_ok config size s tx Hv max_outputs) as [Hok' Hval]; [|done|].
  { intros k Hk. rewrite Hc. apply eq_None_not_Some. intros [o Ho].
    apply unspent_lookup in Ho as [Ho _]; [|done]. apply (list_elem_of_fmap_2 fst) in Ho.
    by apply (Hf k Hk). }
  assert (contents (apply_tx s tx (txid tx)) = ledger_apply (contents s) tx) as Hc'.
  { apply apply_tx_contents. pose proof (vt_outputs _ _ _ _ Hv). lia. }
  rewrite Hc in Hv, Hc', Hval.
  assert (∀ k, k ∈ input_keys tx → k ∈ (created hist).*1 ∧ k ∉ spent hist) as Hin.
  { intros k Hk. destruct (valid_inputs_present _ _ _ _ Hv Hk) as [o Ho].
    apply unspent_lookup in Ho as [Ho ?]; [|done]. by apply (list_elem_of_fmap_2 fst) in Ho. }
  split; [done| |done| | | |].
  - rewrite Hc'. by eapply unspent_snoc.
  - rewrite spent_snoc. apply NoDup_app. split_and!; [done| |apply (vt_nodup _ _ _ _ Hv)].
    intros k Hk Hk'. by apply Hin in Hk' as [_ ?].
  - rewrite spent_snoc, created_snoc, fmap_app. intros k [Hk|Hk]%elem_of_app; apply elem_of_app; left.
    + by apply Hsub.
    + by apply Hin.
  - by eapply history_valid_snoc.
  - rewrite fees_snoc. simpl. unfold fee. rewrite Hc in Hsum. lia.
Qed.

(** *** Runs *)

Lemma history_inv_ext hist s s' :
  contents s' = contents s → us_addr_index s' = us_addr_index s →
  us_total_supply s' = us_total_supply s → history_inv hist s → history_inv hist s'.
Proof.
  intros Hc Hx Hs [H1 H2 H3 H4 H5 H6 H7]. split; rewrite ?Hc; try done. by eapply state_ok_ext.
Qed.

(** The transactions of a block that are executed. *)
Fixpoint accepted s (txs : list bytes) : list UtxoTx :=
  match txs with
  | [] => []
  | bs :: rest =>
      match tx_decode bs with
      | Some tx =>
          if validate_decoded_tx config tx (N.of_nat (length bs)) s
          then tx :: accepted (apply_tx s tx (txid tx)) rest else accepted s rest
      | None => accepted s rest
      end
  end.

Lemma history_txs hist s txs :
  history_inv hist s → (∀ t, t ∈ hist → P (signing_preimage t)) →
  (∀ bs t, bs ∈ txs → tx_decode bs = Some t → P (signing_preimage t)) →
  history_inv (hist ++ accepted s txs) (foldl (execute_tx config) s txs) ∧
  (∀ t, t ∈ hist ++ accepted s txs → P (signing_preimage t)).
Proof.
  revert hist s. induction txs as [|bs rest IH]; intros hist s Hi HP Hd; cbn [accepted foldl].
  { by rewrite app_nil_r. }
  assert (∀ b t, b ∈ rest → tx_decode b = Some t → P (signing_preimage t)) as Hd'.
  { intros b t Hb. apply Hd. by right. }
  unfold execute_tx at 2. destruct (tx_decode bs) as [tx|] eqn:Ed; [|by apply IH].
  destruct (validate_decoded_tx _ _ _ _) eqn:Hv; cbn [negb]; [|by apply IH].
  apply validate_decoded_tx_iff in Hv.
  assert (P (signing_preimage tx)) as Htx by (apply (Hd bs); [left|done]).
  rewrite cons_middle, app_assoc. apply IH; [by eapply history_step| |done].
  intros t [Ht|Ht]%elem_of_app; [by apply HP|]. by apply list_elem_of_singleton in Ht as ->.
Qed.

Hypothesis genesis_count : N.of_nat (length (uc_genesis_utxos config)) ≤ u64_max.
Hypothesis genesis_fits : genesis_total ≤ u64_max.

Lemma utxo_genesis_inv :
  history_inv [] (ua_state (UtxoApplication_new (M := M) (D := D) config)).
Proof.
  unfold UtxoApplication_new. simpl.
  rewrite (enumerate_files _ (λ i, to_key (mkOutPoint (genesis_txid i) 0))
             (λ g, mkTxOutput (gu_value g) (gu_pubkey_hash g))) by done.
  change (imap _ (uc_genesis_utxos config)) with genesis_entries.
  set (s := file_outputs genesis_entries UtxoState_new).
  assert (NoDup genesis_entries.*1) as Hnd.
  { unfold genesis_entries. rewrite fmap_imap. apply NoDup_alt. intros a b k.
    rewrite !list_lookup_imap. intros Ha Hb. apply fmap_Some in Ha as (oa&Ha&->).
    apply fmap_Some in Hb as (ob&Hb&E). apply lookup_lt_Some in Ha, Hb. simpl in E.
    rewrite !genesis_key in E. apply output_key_inj in E as [E _]; [|apply blake3_length..|lia|lia].
    apply collision_free, u64_le_inj in E; [lia|lia|lia|by apply genesis_P..]. }
  assert (contents UtxoState_new = ∅) as Hnew by apply vm_contents_new.
  pose proof (file_outputs_contents genesis_entries UtxoState_new Hnd) as Hc.
  assert (sumN (λ e, to_value e.2) genesis_entries = genesis_total) as Hg by by apply sumN_imap.
  destruct (file_outputs_ok genesis_entries UtxoState_new Hnd) as [Hok Hv];
    [intros k _; by rewrite Hnew|apply new_state_ok|by rewrite Hnew, value_sum_empty, Hg|].
  rewrite Hnew, value_sum_empty, N.add_0_l, Hg in Hv.
  destruct (commit_frame s) as (Ec&Ex&Es).
  assert (created [] = genesis_entries) as Hcr by apply app_nil_r.
  apply (history_inv_ext _ s); [done..|]. split; rewrite ?Hcr; try done.
  - unfold s. rewrite Hc, Hnew, (right_id_L ∅ (∪)). unfold unspent. rewrite Hcr. symmetry.
    apply map_filter_id. intros. apply not_elem_of_nil.
  - constructor.
  - intros k Hk. by apply elem_of_nil in Hk.
  - intros pre tx post E. by destruct pre.
  - simpl. fold s in Hv. lia.
Qed.
End History.

(** ** Runs of blocks *)

Definition run_block (a : UtxoApplication (M := M) (D := D)) (txs : list bytes) : UtxoApplication :=
  (utxo_execute_block a txs).2.
Definition run_blocks (a : UtxoApplication (M := M) (D := D)) (blocks : list (list bytes)) :=
  foldl run_block a blocks.

(** The transactions that a run executes, in order. *)
Fixpoint history (a : UtxoApplication (M := M) (D := D)) (blocks : list (list bytes)) : list UtxoTx :=
  match blocks with
  | [] => []
  | txs :: rest => accepted (ua_config a) (ua_state a) txs ++ history (run_block a txs) rest
  end.

(** The bytes whose hashes become transaction ids in a run. *)
Definition hashed (config : UtxoConfig) (blocks : list (list bytes)) : list bytes :=
  ((λ i, u64_le (N.of_nat i)) <$> seq 0 (length (uc_genesis_utxos config))) ++
  (signing_preimage <$> omap tx_decode (mjoin blocks)).

Definition collision_free (l : list bytes) : Prop :=
  ∀ x y, x ∈ l → y ∈ l → blake3 x = blake3 y → x = y.

(** What the documentation of [postcard] says of transactions. *)
Definition postcard_tx_laws : Prop :=
  (∀ tx, is_Some (pc_encode tx)) ∧
  (∀ tx bs, tx_inputs tx ≠ [] → pc_encode tx = Some bs → (8 < length bs)%nat).

Record config_ok (config : UtxoConfig) : Prop := {
  co_outputs : uc_max_tx_outputs config ≤ u32_max + 1;
  co_count : N.of_nat (length (uc_genesis_utxos config)) ≤ u64_max;
  co_fits : genesis_total config ≤ u64_max;
}.

Lemma run_block_state a txs :
  ua_config (run_block a txs) = ua_config a ∧
  ∃ s, s = foldl (execute_tx (ua_config a)) (ua_state a) txs ∧
    contents (ua_state (run_block a txs)) = contents s ∧
    us_addr_index (ua_state (run_block a txs)) = us_addr_index s ∧
    us_total_supply (ua_state (run_block a txs)) = us_total_supply s.
Proof.
  unfold run_block, utxo_execute_block. set (s := foldl _ _ _).
  destruct (commit_frame s) as (Hc&Hx&Hs). destruct (commit s) as [[] s']; simpl in *.
  - destruct (root_frame s') as (Hc'&Hx'&Hs'). split; [done|]. exists s. split_and!; congruence.
  - split; [done|]. by exists s.
Qed.

Lemma run_blocks_inv config (P : bytes → Prop) hist a blocks :
  postcard_tx_laws → (∀ x y, P x → P y → blake3 x = blake3 y → x = y) → config_ok config →
  (∀ i, (i < length (uc_genesis_utxos config))%nat → P (u64_le (N.of_nat i))) →
  ua_config a = config → history_inv config hist (ua_state a) →
  (∀ t, t ∈ hist → P (signing_preimage t)) →
  (∀ bs t, bs ∈ mjoin blocks → tx_decode bs = Some t → P (signing_preimage t)) →
  history_inv config (hist ++ history a blocks) (ua_state (run_blocks a blocks)).
Proof.
  intros [He Hl] Hcf Hok Hg. revert hist a.
  induction blocks as [|txs rest IH]; intros hist a <- Hi HP Hd; cbn [history run_blocks foldl].
  { by rewrite app_nil_r. }
  destruct (run_block_state a txs) as (Hc&s&->&Hs1&Hs2&Hs3).
  destruct (history_txs (ua_config a) He Hl P Hcf Hg (co_outputs _ Hok) hist (ua_state a) txs)
    as [Hi' HP']; [done|done| |].
  { intros bs t Hbs. apply Hd. simpl. apply elem_of_app. by left. }
  rewrite app_assoc. apply IH; [done|by eapply history_inv_ext|done|].
  intros bs t Hbs. apply Hd. simpl. apply elem_of_app. by right.
Qed.

(** ** Queries *)

Lemma addr_slot_eq p q :
  length p = 32%nat → length q = 32%nat → addr_slot p = addr_slot q ↔ take 16 p = take 16 q.
Proof.
  intros Hp Hq. unfold addr_slot, be_u128. split; [|congruence]. intros E.
  assert (length (reverse (take 16 p)) = 16%nat ∧ length (reverse (take 16 q)) = 16%nat) as [Lp Lq].
  { by rewrite !length_reverse, !length_take, Hp, Hq. }
  apply Z2N.inj in E; [|apply LittleEndianList.le_combine_bound..].
  apply (inj reverse). rewrite <- (LittleEndianList.split_le_combine (reverse (take 16 p))).
  rewrite <- (LittleEndianList.split_le_combine (reverse (take 16 q))). by rewrite Lp, Lq, E.
Qed.

Lemma sumN_omap {A B} (f : A → option B) (g : B → N) l :
  sumN id (g <$> omap f l) = sumN (λ x, from_option g 0 (f x)) l.
Proof.
  induction l as [|x l IH]; [done|]. rewrite sumN_cons, <- IH. cbn [omap list_omap].
  destruct (f x) as [b|]; [by rewrite fmap_cons, sumN_cons|done].
Qed.

(** The outputs filed under the slot of an address. *)
Definition slot_outputs L (pubkey_hash : bytes) : Ledger :=
  filter (λ e, addr_slot (to_pubkey_hash e.2) = addr_slot pubkey_hash) L.

Lemma value_sum_filter_le L (Q : bytes * TxOutput → Prop) `{∀ e, Decision (Q e)} :
  value_sum (filter Q L) ≤ value_sum L.
Proof.
  induction L as [|k o L Hk IH] using map_ind.
  { by rewrite map_filter_empty, value_sum_empty. }
  destruct (decide (Q (k, o))).
  - rewrite map_filter_insert_True by done.
    rewrite !value_sum_insert by (done || apply map_lookup_filter_None_2; by left). lia.
  - rewrite map_filter_insert_False, delete_id, value_sum_insert by done. lia.
Qed.

Lemma value_sum_keys L : value_sum L = sumN (λ k, from_option to_value 0 (L !! k)) (map_to_list L).*1.
Proof.
  unfold value_sum.
  assert (∀ l, (∀ e, e ∈ l → L !! e.1 = Some e.2) →
    sumN (λ e, to_value e.2) l = sumN (λ k, from_option to_value 0 (L !! k)) l.*1) as Hl.
  { induction l as [|e l IH]; intros Hin; [done|]. rewrite fmap_cons, !sumN_cons.
    rewrite (Hin e) by left. simpl. f_equal. apply IH. intros e' He. apply Hin. by right. }
  apply Hl. intros [k o] He. by apply elem_of_map_to_list in He.
Qed.

Lemma get_balance_value s pubkey_hash :
  state_ok s → get_balance s pubkey_hash = value_sum (slot_outputs (contents s) pubkey_hash).
Proof.
  intros [Hs Hb Hi]. set (F := slot_outputs (contents s) pubkey_hash).
  assert (sd_iter (us_addr_index s) (addr_slot pubkey_hash) ≡ₚ (map_to_list F).*1) as Hperm.
  { apply NoDup_Permutation; [apply sd_iter_NoDup|apply NoDup_fst_map_to_list|]. intros k.
    rewrite sd_iter_contents, Hi, list_elem_of_fmap. split.
    - intros (o&Ho&E). exists (k, o). split; [done|]. by apply elem_of_map_to_list, map_lookup_filter_Some.
    - intros ([k' o]&->&[Ho E]%elem_of_map_to_list%map_lookup_filter_Some). by exists o. }
  assert (sumN id (to_value <$> omap (vm_get (us_utxos s))
            (sd_iter (us_addr_index s) (addr_slot pubkey_hash))) = value_sum F) as E.
  { rewrite sumN_omap, (sumN_perm _ _ _ Hperm), value_sum_keys. apply sumN_ext.
    intros k ([k' o]&->&Hk)%list_elem_of_fmap. apply elem_of_map_to_list in Hk. simpl.
    rewrite Hk, vm_get_contents. apply map_lookup_filter_Some in Hk as [Hk _].
    unfold contents in Hk. by rewrite Hk. }
  unfold get_balance. rewrite (foldl_wrapping_sum id), E; [lia|].
  pose proof (value_sum_filter_le (contents s)
    (λ e, addr_slot (to_pubkey_hash e.2) = addr_slot pubkey_hash)) as Hle. fold (slot_outputs (contents s) pubkey_hash) F in Hle. lia.
Qed.

(** Queries do not change the ledger. *)
Lemma utxo_query_frame a path data :
  let a' := (utxo_query a path data).2 in
  ua_config a' = ua_config a ∧ contents (ua_state a') = contents (ua_state a) ∧
  us_addr_index (ua_state a') = us_addr_index (ua_state a) ∧
  us_total_supply (ua_state a') = us_total_supply (ua_state a).
Proof.
  unfold utxo_query. set (s := ua_state a).
  assert (contents (prove_utxo s (from_key data)).2 = contents s ∧
          us_addr_index (prove_utxo s (from_key data)).2 = us_addr_index s ∧
          us_total_supply (prove_utxo s (from_key data)).2 = us_total_supply s) as Hp.
  { unfold prove_utxo, contents. pose proof (vm_prove_contents (us_utxos s) (to_key (from_key data))).
    by destruct (vm_prove_at _ _). }
  pose proof (root_frame s) as Hr.
  repeat case_match; simplify_eq/=; try done.
Qed.

Lemma accepted_decoded config s txs t : t ∈ accepted config s txs → t ∈ omap tx_decode txs.
Proof.
  revert s. induction txs as [|bs rest IH]; intros s; cbn [accepted omap list_omap]; [done|].
  destruct (tx_decode bs) as [tx|]; [|apply IH]. destruct (validate_decoded_tx _ _ _ _).
  - intros [->|Ht]%elem_of_cons; [left|right; by eapply IH].
  - intros Ht. right. by eapply IH.
Qed.

Lemma history_decoded a blocks t : t ∈ history a blocks → t ∈ omap tx_decode (mjoin blocks).
Proof.
  revert a. induction blocks as [|txs rest IH]; intros a; cbn [history]; [done|].
  change (mjoin (txs :: rest)) with (txs ++ mjoin rest). rewrite omap_app, !elem_of_app.
  intros [Ht|Ht]; [left; by eapply accepted_decoded|right; by eapply IH].
Qed.

Lemma run_history config blocks :
  postcard_tx_laws → config_ok config → collision_free (hashed config blocks) →
  history_inv config (history (UtxoApplication_new config) blocks)
    (ua_state (run_blocks (UtxoApplication_new config) blocks)).
Proof.
  intros Hpc Hok Hcf.
  assert (∀ i, (i < length (uc_genesis_utxos config))%nat → u64_le (N.of_nat i) ∈ hashed config blocks) as Hg.
  { intros i Hi. apply elem_of_app. left. apply list_elem_of_fmap. exists i. split; [done|].
    apply elem_of_seq. lia. }
  apply (run_blocks_inv config (.∈ hashed config blocks) []); try done.
  - destruct Hpc as [He Hl]. apply (utxo_genesis_inv config (.∈ hashed config blocks)); try done; apply Hok.
  - intros t Ht. by apply elem_of_nil in Ht.
  - intros bs t Hbs Hd. apply elem_of_app. right. apply list_elem_of_fmap_2, list_elem_of_omap. by exists bs.
Qed.

(** The keys of the ledger are those of outpoints. *)
Lemma history_key_length config hist s k o :
  history_inv config hist s → contents s !! k = Some o → length k = 36%nat.
Proof.
  intros Hi Hk. rewrite (hi_contents _ _ _ Hi), unspent_lookup in Hk by apply (hi_created _ _ _ Hi).
  destruct Hk as [Hk _]. apply (list_elem_of_fmap_2 fst) in Hk. simpl in Hk.
  apply created_key in Hk as [(i&_&->)|(t&v&_&_&->)]; unfold output_key, to_key; simpl;
    rewrite length_app, length_u32_be; [unfold genesis_txid; by rewrite blake3_length|by rewrite txid_length].
Qed.

(** ** Properties *)

(** C27: From the genesis allocation on, over any blocks of arbitrary bytes, the
    stored set holds exactly the outputs that the executed transactions and
    the genesis created and that none of them spent; every output is spent at
    most once and only after it was created; each executed transaction was
    valid on what its predecessors left, in particular each of its inputs
    carries a signature of the owner of the output it spends and it creates no
    value; and the recorded supply is the sum of the unspent values, which is
    the genesis total less the fees.  The hash is assumed to have no collision
    among the ids of the run. *)
Theorem utxo_ledger_correct config blocks :
  postcard_tx_laws → config_ok config → collision_free (hashed config blocks) →
  let a := UtxoApplication_new (M := M) (D := D) config in
  let s := ua_state (run_blocks a blocks) in
  let hist := history a blocks in
  (∀ o out, get_utxo s o = Some out ↔
     (to_key o, out) ∈ created config hist ∧ to_key o ∉ spent hist) ∧
  NoDup (created config hist).*1 ∧ NoDup (spent hist) ∧ spent hist ⊆ (created config hist).*1 ∧
  history_valid config hist ∧
  us_total_supply s = value_sum (contents s) ∧
  us_total_supply s + fees_from config [] hist = genesis_total config.
Proof.
  intros Hpc Hok Hcf a s hist. pose proof (run_history config blocks Hpc Hok Hcf) as Hi.
  fold a s hist in Hi. destruct Hi as [[Hs Hb Hx] Hc Hnd Hsp Hsub Hval Hsum].
  split_and!; try done; [|by rewrite Hs].
  intros o out. rewrite get_utxo_contents, Hc. by apply unspent_lookup.
Qed.

(** The queries report the ledger and do not change it.  After any run, the
    balance of an address is the sum of the unspent outputs whose owner shares
    the first 16 bytes of the address, hence of its own when no other owner
    does, and the sum does not overflow; the supply and the output of a key are
    reported as stored; every listed outpoint is unspent. *)
Lemma utxo_queries_correct config blocks pubkey_hash :
  postcard_tx_laws → config_ok config → collision_free (hashed config blocks) →
  length pubkey_hash = 32%nat →
  let a := run_blocks (UtxoApplication_new (M := M) (D := D) config) blocks in
  let s := ua_state a in
  let data path key := qr_data <$> (utxo_query a path key).1 in
  data "balance"%string pubkey_hash =
    Some (u64_le (value_sum (filter (λ e, addr_slot (to_pubkey_hash e.2) = addr_slot pubkey_hash) (contents s)))) ∧
  value_sum (filter (λ e, addr_slot (to_pubkey_hash e.2) = addr_slot pubkey_hash) (contents s)) ≤
    us_total_supply s ≤ u64_max ∧
  (∀ out, length (to_pubkey_hash out) = 32%nat →
     addr_slot (to_pubkey_hash out) = addr_slot pubkey_hash ↔
     take 16 (to_pubkey_hash out) = take 16 pubkey_hash) ∧
  data "total_supply"%string [] = Some (u64_le (value_sum (contents s))) ∧
  (∀ o, outpoint_ok o → data "utxo"%string (to_key o) =
     Some (match get_utxo s o with Some out => default [] (pc_encode out) | None => [] end)) ∧
  (∀ o index size, o ∈ get_utxos_by_address s pubkey_hash index size →
     ∃ out, get_utxo s o = Some out ∧ addr_slot (to_pubkey_hash out) = addr_slot pubkey_hash) ∧
  (∀ path key, let a' := (utxo_query a path key).2 in
     contents (ua_state a') = contents s ∧ us_total_supply (ua_state a') = us_total_supply s).
Proof.
  intros Hpc Hok Hcf Hl a s data. pose proof (run_history config blocks Hpc Hok Hcf) as Hi.
  fold a s in Hi. pose proof (hi_ok _ _ _ Hi) as [Hs Hb Hx].
  split_and!.
  - unfold data, utxo_query. rewrite Hl. fold s. simpl. do 2 f_equal. by apply get_balance_value.
  - rewrite Hs. apply value_sum_filter_le.
  - lia.
  - intros out Ho. by apply addr_slot_eq.
  - unfold data, utxo_query. simpl. do 2 f_equal. exact Hs.
  - intros o Ho. unfold data, utxo_query. simpl. fold s.
    assert (length (to_key o) = 36%nat) as -> by (destruct Ho; unfold to_key; rewrite length_app, length_u32_be; lia).
    simpl. rewrite from_key_to_key by done. by destruct (get_utxo s o).
  - intros o index size (k&->&Hk)%list_elem_of_fmap. apply sd_page_contents, Hx in Hk as (out&Hout&E).
    exists out. split; [|done]. rewrite get_utxo_contents.
    by rewrite (proj1 (to_key_from_key k (history_key_length _ _ _ _ _ Hi Hout))).
  - intros path key. destruct (utxo_query_frame a path key) as (_&Hc&_&Ht). done.
Qed.

(** Admission to the mempool: exactly the valid transactions, at priority 0. *)
Lemma utxo_validate_tx_iff a bs :
  utxo_validate_tx a bs = TxValidationResult_accept 0 ↔
    ∃ tx, tx_decode bs = Some tx ∧
      valid_tx (ua_config a) (contents (ua_state a)) tx (N.of_nat (length bs)).
Proof.
  unfold utxo_validate_tx. destruct (tx_decode bs) as [tx|]; [|naive_solver]. split.
  - intros E. exists tx. split; [done|]. apply validate_decoded_tx_iff. by case_match.
  - intros (tx'&[= <-]&Hv%validate_decoded_tx_iff). by rewrite Hv.
Qed.

(** *** Execution by the commit of the engine *)

Section Commit.
Context {St : Type} `{!BlockStore St}.
Notation App := (UtxoApplication (M := M) (D := D)).
Implicit Types (w : World St App).

Definition payload_txs (b : Block) : list bytes := decode_payload (b_payload b).

Lemma evidence_loop_utxo l w :
  wp (for_each l (λ proof,
        emit (EAppEvidence proof) ;;
        ok ← call_app (λ a, app_on_evidence a proof);
        if ok : bool then mret () else panic))
    (λ w' (_ : res commit_error unit), w_app w' = w_app w) w.
Proof.
  revert w. induction l as [|p l IH]; intros w; cbn [for_each]; wp_steps; [done|]. simplify_eq/=. wp_steps.
  eapply wp_mono; [apply IH|]. done.
Qed.

Lemma execute_committed_block_utxo b ctx w :
  wp (execute_committed_block b ctx)
    (λ w' r, is_ok r = true → w_app w' = run_block (w_app w) (payload_txs b)) w.
Proof.
  unfold execute_committed_block. wp_steps. eapply wp_mono; [apply evidence_loop_utxo|].
  intros w1 [[]|e|] Hw1; [|done..]. wp_steps. simpl in *. rewrite Hw1 in *.
  destruct a as [resp|]; wp_steps; [|done]. unfold utxo_on_commit in *. simplify_eq/=.
  wp_steps. intros _. unfold run_block, payload_txs.
  by match goal with E : utxo_execute_block _ _ = _ |- _ => rewrite E end.
Qed.

Lemma commit_loop_utxo l blocks w :
  wp (commit_loop l blocks)
    (λ w' r, is_ok r = true → w_app w' = run_blocks (w_app w) (payload_txs <$> blocks)) w.
Proof.
  revert l w. induction blocks as [|b blocks IH]; intros l w; cbn [commit_loop]; wp_steps; [done|].
  assert (wp (commit_one l b)
    (λ w' r, is_ok r = true → w_app w' = run_block (w_app w) (payload_txs b)) w) as Hone.
  { unfold commit_one. wp_steps. eapply wp_mono; [apply execute_committed_block_utxo|].
    intros w1 [resp|e|] Hw1; [|done..]. specialize (Hw1 eq_refl). wp_steps.
    case_bool_decide; wp_steps; [done|]. destruct (chained_pending_epoch _ _ _ _ _); wp_steps; done. }
  eapply wp_mono; [exact Hone|]. cbv beta. intros w1 [l'|e|] Hw1; [|done..].
  eapply wp_mono; [apply IH|]. cbv beta. intros w2 r Hr Hok. rewrite (Hr Hok), (Hw1 eq_refl). done.
Qed.

Lemma try_commit_utxo dc cur prev pend w w' cr :
  try_commit dc cur prev pend w = (w', Ok cr) →
  w_app w' = run_blocks (w_app w) (payload_txs <$> cr_committed_blocks cr).
Proof.
  intros E.
  assert (wp (try_commit dc cur prev pend)
    (λ w' r, match r with
             | Ok cr => w_app w' = run_blocks (w_app w) (payload_txs <$> cr_committed_blocks cr)
             | _ => True
             end) w) as Hwp.
  2: { unfold wp in Hwp. by rewrite E in Hwp. }
  unfold try_commit. wp_steps. destruct (ok_or _ _) as [cb|e|]; wp_steps; [|done..].
  case_match; wp_steps; [done|]. destruct (collect_chain _ _ _ _ _) as [l|e|]; wp_steps; [|done..].
  eapply wp_mono; [apply commit_loop_utxo|]. cbv beta. intros w1 [l'|e|] Hw1; [|done..].
  wp_steps. by apply Hw1.
Qed.

Lemma run_blocks_exec a blocks :
  uc_max_tx_outputs (ua_config a) ≤ u32_max + 1 →
  ua_config (run_blocks a blocks) = ua_config a ∧
  ledger_exec (ua_config a) (contents (ua_state a)) (mjoin blocks) (contents (ua_state (run_blocks a blocks))).
Proof.
  revert a. induction blocks as [|txs rest IH]; intros a Hmax; cbn [run_blocks foldl]; [split; [done|constructor]|].
  destruct (run_block_state a txs) as (Hc&s&->&Hs&_). destruct (IH (run_block a txs)) as [IHc IHx]; [by rewrite Hc|].
  rewrite Hc in IHc, IHx. split; [done|]. rewrite Hs in IHx. simpl.
  eapply ledger_exec_app; [|done]. by apply execute_txs_refines.
Qed.
End Commit.

(** C28: Composition with the engine: when a commit succeeds, the application is
    the one that executed the payloads of the committed blocks in order, and
    its unspent outputs are the unique result of executing their transactions
    one after the other on the abstract ledger, skipping what does not decode
    or is not valid.  So nodes that commit the same blocks from the same
    ledger hold the same ledger, whatever the storage below. *)
Theorem commit_executes_ledger {St : Type} `{!BlockStore St} dc cur prev pend
    (w w' : World St (UtxoApplication (M := M) (D := D))) cr :
  uc_max_tx_outputs (ua_config (w_app w)) ≤ u32_max + 1 →
  try_commit dc cur prev pend w = (w', Ok cr) →
  let config := ua_config (w_app w) in
  let txs := mjoin (payload_txs <$> cr_committed_blocks cr) in
  w_app w' = run_blocks (w_app w) (payload_txs <$> cr_committed_blocks cr) ∧
  ua_config (w_app w') = config ∧
  ∀ L, ledger_exec config (contents (ua_state (w_app w))) txs L ↔ L = contents (ua_state (w_app w')).
Proof.
  intros Hmax E config txs. pose proof (try_commit_utxo _ _ _ _ _ _ _ E) as Ha. rewrite Ha.
  destruct (run_blocks_exec (w_app w) (payload_txs <$> cr_committed_blocks cr) Hmax) as [Hc Hx].
  split_and!; [done..|]. intros L. split; [|by intros ->]. intros HL. by eapply ledger_exec_det.
Qed.

(** ** The demo application *)

Section Demo.
Context {SigningKey : Type} (verifying_key : SigningKey → bytes) (key_sign : SigningKey → bytes → bytes).

(** The demo looks for money only in the genesis outputs: once the one of Alice
    is spent, it builds no further transfer, although the change of the first
    transfer is hers. *)
Lemma demo_pays_once alice bob blocks :
  let demo := DemoUtxoApp_new (M := M) (D := D) verifying_key alice bob in
  let config := ua_config (du_inner demo) in
  postcard_tx_laws →
  collision_free (((λ i, u64_le (N.of_nat i)) <$> seq 0 1000) ++ hashed config blocks) →
  hash_pubkey (verifying_key alice) ≠ hash_pubkey (verifying_key bob) →
  output_key (genesis_txid 0) 0 ∈ spent (history (du_inner demo) blocks) →
  build_transfer verifying_key key_sign
    (mkDemoUtxoApp (run_blocks (du_inner demo) blocks) alice (du_bob_pkh demo)) = None.
Proof.
  intros demo config Hpc Hcf Hne Hsp.
  assert (config_ok config) as Hok by (split; by vm_compute).
  assert (collision_free (hashed config blocks)) as Hcf'.
  { intros x y Hx Hy. apply Hcf; apply elem_of_app; by right. }
  pose proof (run_history config blocks Hpc Hok Hcf') as Hi.
  unfold build_transfer. simpl du_inner.
  destruct (utxo_query _ _ _).1 as [r|]; [|done]. case_match; [done|].
  assert (∀ i, (i < 1000)%nat → transfer_from verifying_key key_sign
    (mkDemoUtxoApp (run_blocks (du_inner demo) blocks) alice (du_bob_pkh demo)) i = None) as Hnone.
  2: { assert (∀ l, Forall (λ i, (i < 1000)%nat) l → scan_transfers verifying_key key_sign
         (mkDemoUtxoApp (run_blocks (du_inner demo) blocks) alice (du_bob_pkh demo)) l = None) as Hscan.
       { induction 1 as [|i l Hlt Hl IH]; cbn [scan_transfers]; [done|]. by rewrite Hnone. }
       apply Hscan, Forall_forall. intros i Hin%elem_of_seq. lia. }
  intros i Hlt. unfold transfer_from. cbn [du_inner du_alice_key].
  rewrite get_utxo_contents. change (UtxoApplication_new config) with (du_inner demo) in Hi.
  destruct (contents _ !! _) as [out|] eqn:Ho; cbn [mbind option_bind]; [|done].
  rewrite (hi_contents _ _ _ Hi), unspent_lookup in Ho by apply (hi_created _ _ _ Hi).
  destruct Ho as [Hcr Hns]. rewrite genesis_key in *.
  assert (i ≠ 0%nat) as Hi0 by (intros ->; done).
  destruct (decide (i = 1%nat)) as [->|Hi1].
  - assert (out = mkTxOutput (100 * COIN) (hash_pubkey (verifying_key bob))) as ->.
    { assert (∀ o, (output_key (genesis_txid 1) 0, o) ∈ created config (history (du_inner demo) blocks) →
        (list_to_map (created config (history (du_inner demo) blocks)) : Ledger)
          !! output_key (genesis_txid 1) 0 = Some o) as Hm
        by (intros o Hin; apply elem_of_list_to_map_1; [apply (hi_created _ _ _ Hi)|done]).
      apply (inj Some). rewrite <- (Hm _ Hcr). apply Hm, elem_of_app. left. right. left. }
    simpl. by rewrite bool_decide_false.
  - exfalso. assert (u64_le (N.of_nat i) ∈ ((λ i, u64_le (N.of_nat i)) <$> seq 0 1000)) as Hin.
    { apply list_elem_of_fmap. exists i. split; [done|]. apply elem_of_seq. lia. }
    apply (list_elem_of_fmap_2 fst), created_key in Hcr as [(j&Hj&E)|(t&v&Ht&Hv&E)]; cbn [fst] in E.
    + apply output_key_inj in E as [E _]; [|apply blake3_length..|lia|lia].
      apply Hcf, u64_le_inj in E; [unfold config in Hj; simpl in Hj; lia|unfold u64_max; lia| | |].
      * unfold config in Hj. simpl in Hj. unfold u64_max. lia.
      * apply elem_of_app. by left.
      * apply elem_of_app. left. apply list_elem_of_fmap. exists j. split; [done|]. apply elem_of_seq.
        unfold config in Hj. simpl in Hj. lia.
    + destruct (list_elem_of_split _ _ Ht) as (pre&post&Eh).
      destruct (hi_valid _ _ _ Hi _ _ _ Eh) as [size Hvt].
      apply output_key_inj in E as [E _];
        [|apply blake3_length|apply txid_length|lia|exact (valid_vout _ (co_outputs _ Hok) _ _ _ _ Hvt Hv)].
      apply Hcf in E; [|apply elem_of_app; by left|].
      * symmetry in E. destruct Hpc as [He Hl]. apply (preimage_not_genesis config) in E; [done..|].
        intros En. pose proof (vt_inputs _ _ _ _ Hvt) as Hin'. rewrite En in Hin'. simpl in Hin'. lia.
      * apply elem_of_app. right. apply elem_of_app. right. apply list_elem_of_fmap_2.
        by apply history_decoded in Ht.
Qed.
End Demo.
End Safety.

(** ** Instances

    Maps and sets as storage, a codec that marks each byte of a field and ends
    it, a hash that keeps the last 32 bytes, and signatures that repeat the
    signed hash. *)

#[local] Instance tail_blake3 : Blake3.
Proof.
  refine {| blake3 m := take 32 (reverse m ++ zeros 32) |}.
  intros m. rewrite length_take, length_app. change (length (zeros 32)) with 32%nat. lia.
Defined.

#[local] Instance sample_vermap : VerMap Ledger bytes.
Proof.
  refine {| vm_new := ∅; vm_get m k := m !! k; vm_insert m k v := <[k := v]> m; vm_remove m k := delete k m;
            vm_commit m := (true, m); vm_merkle_root m := (Some [], m); vm_prove_at m k := (Some k, m);
            smt_proof_to_bytes p := Some p; vm_contents m := m |}; done.
Defined.

#[local] Instance sample_slotdex : SlotDex (gset (N * bytes)).
Proof.
  refine {| sd_new := ∅; sd_insert d s k := {[(s, k)]} ∪ d; sd_remove d s k := d ∖ {[(s, k)]};
            sd_iter d s := (elements (filter (λ e, e.1 = s) d)).*2;
            sd_page d s size index :=
              take (N.to_nat size) (drop (N.to_nat (index * size)) (elements (filter (λ e, e.1 = s) d)).*2);
            sd_contents d := d |}; try done.
  - intros d s. apply NoDup_fmap_2_strong; [|apply NoDup_elements].
    intros [s1 k1] [s2 k2]. rewrite !elem_of_elements, !elem_of_filter. simpl. naive_solver.
  - intros d s k. rewrite list_elem_of_fmap. setoid_rewrite elem_of_elements.
    setoid_rewrite elem_of_filter. split; [intros ([s' k']&->&<-&?); done|]. intros Hin. by exists (s, k).
  - intros d s size index k Hk.
    assert (k ∈ (elements (filter (λ e, e.1 = s) d)).*2) as Hk'.
    { eapply elem_of_submseteq; [exact Hk|]. apply sublist_submseteq.
      etrans; [apply sublist_take|apply sublist_drop]. }
    apply list_elem_of_fmap in Hk' as ([s' k']&->&Hk'%elem_of_elements%elem_of_filter). naive_solver.
Defined.

#[local] Instance sample_strict : Ed25519Strict :=
  {| verifying_key_ok _ := true; verify_strict _ hash sig := bool_decide (sig = hash ++ hash) |}.

(** A field: each byte after a mark, and an end mark. *)
Definition put_bytes (bs : bytes) : bytes := mjoin ((λ b, [x01; b]) <$> bs) ++ [x00].
Fixpoint get_bytes (l : bytes) : option (bytes * bytes) :=
  match l with
  | x01 :: b :: rest => '(bs, rest) ← get_bytes rest; Some (b :: bs, rest)
  | x00 :: rest => Some ([], rest)
  | _ => None
  end.

Lemma get_put_bytes bs rest : get_bytes (put_bytes bs ++ rest) = Some (bs, rest).
Proof. induction bs as [|b bs IH]; [done|]. change (put_bytes (b :: bs)) with (x01 :: b :: put_bytes bs). simpl. by rewrite IH. Qed.

Definition put_N (n : N) : bytes := put_bytes (pos_bits (N.succ_pos n)).
Definition get_N (l : bytes) : option (N * bytes) :=
  '(bs, rest) ← get_bytes l; Some (Pos.pred_N (bits_pos bs), rest).

Lemma get_put_N n rest : get_N (put_N n ++ rest) = Some (n, rest).
Proof.
  unfold get_N, put_N. rewrite get_put_bytes. simpl. do 2 f_equal.
  rewrite bits_pos_bits.
  apply N.pos_pred_succ.
Qed.

(** A list: a mark before each element, and an end mark. *)
Definition put_list {A} (put : A → bytes) (l : list A) : bytes :=
  mjoin ((λ a, x01 :: put a) <$> l) ++ [x00].
Fixpoint get_list {A} (get : bytes → option (A * bytes)) (fuel : nat) (l : bytes) : option (list A * bytes) :=
  match fuel, l with
  | S fuel, x01 :: rest =>
      '(a, rest) ← get rest; '(l, rest) ← get_list get fuel rest; Some (a :: l, rest)
  | _, x00 :: rest => Some ([], rest)
  | _, _ => None
  end.

Lemma get_put_list {A} (put : A → bytes) get l fuel rest :
  (∀ a rest, get (put a ++ rest) = Some (a, rest)) → (length l ≤ fuel)%nat →
  get_list get fuel (put_list put l ++ rest) = Some (l, rest).
Proof.
  intros Hg. revert fuel. induction l as [|a l IH]; intros fuel Hf; [by destruct fuel|].
  destruct fuel as [|fuel]; [simpl in Hf; lia|].
  assert (put_list put (a :: l) = x01 :: put a ++ put_list put l) as ->.
  { unfold put_list. rewrite fmap_cons. cbn [mjoin list_join]. by rewrite <- app_assoc. }
  cbn [app get_list]. rewrite <- app_assoc, Hg. cbn [mbind option_bind].
  rewrite IH by (simpl in Hf; lia). done.
Qed.

Definition put_input (i : TxInput) : bytes :=
  put_bytes (op_txid (ti_prev_out i)) ++ put_N (op_vout (ti_prev_out i)) ++
  put_bytes (ti_signature i) ++ put_bytes (ti_pubkey i).
Definition get_input (l : bytes) : option (TxInput * bytes) :=
  '(id, l) ← get_bytes l; '(vout, l) ← get_N l; '(sig, l) ← get_bytes l; '(pk, l) ← get_bytes l;
  Some (mkTxInput (mkOutPoint id vout) sig pk, l).

Definition put_output (o : TxOutput) : bytes := put_bytes (to_pubkey_hash o) ++ put_N (to_value o).
Definition get_output (l : bytes) : option (TxOutput * bytes) :=
  '(pkh, l) ← get_bytes l; '(v, l) ← get_N l; Some (mkTxOutput v pkh, l).

Lemma get_put_input i rest : get_input (put_input i ++ rest) = Some (i, rest).
Proof.
  unfold get_input, put_input. destruct i as [[id v] sig pk]. simpl.
  by rewrite <- !app_assoc, get_put_bytes; simpl; rewrite get_put_N; simpl;
    rewrite get_put_bytes; simpl; rewrite get_put_bytes.
Qed.

Lemma get_put_output o rest : get_output (put_output o ++ rest) = Some (o, rest).
Proof.
  unfold get_output, put_output. destruct o as [v pkh]. simpl.
  by rewrite <- app_assoc, get_put_bytes; simpl; rewrite get_put_N.
Qed.

#[local] Instance sample_output_codec : Postcard TxOutput.
Proof.
  refine {| pc_encode o := Some (put_output o); pc_decode l := fst <$> get_output l |}.
  intros o raw. intros [= <-]. by rewrite <- (app_nil_r (put_output o)), get_put_output.
Defined.

Definition put_tx (tx : UtxoTx) : bytes :=
  zeros 9 ++ put_list put_input (tx_inputs tx) ++ put_list put_output (tx_outputs tx).
Definition get_tx (l : bytes) : option UtxoTx :=
  '(ins, rest) ← get_list get_input (length l) (drop 9 l);
  '(outs, rest) ← get_list get_output (length l) rest;
  match rest with [] => Some (mkUtxoTx ins outs) | _ => None end.

Lemma length_put_list {A} (put : A → bytes) l : (length l < length (put_list put l))%nat.
Proof.
  unfold put_list. rewrite length_app. cbn [length].
  induction l as [|a l IH]; [simpl; lia|].
  rewrite fmap_cons. change (mjoin (?b :: ?bs)) with (b ++ mjoin bs). rewrite length_app. cbn [length]. lia.
Qed.

#[local] Instance sample_tx_codec : Postcard UtxoTx.
Proof.
  refine {| pc_encode tx := Some (put_tx tx); pc_decode := get_tx |}.
  intros [ins outs] raw [= <-]. unfold get_tx. change (drop 9 (put_tx (mkUtxoTx ins outs))) with
    (put_list put_input ins ++ put_list put_output outs).
  assert (length ins ≤ length (put_tx (mkUtxoTx ins outs)) ∧ length outs ≤ length (put_tx (mkUtxoTx ins outs)))%nat as [Hi Ho].
  { unfold put_tx. rewrite !length_app. simpl. pose proof (length_put_list put_input ins).
    pose proof (length_put_list put_output outs). lia. }
  rewrite get_put_list by (done || apply get_put_input). cbn [mbind option_bind].
  rewrite <- (app_nil_r (put_list put_output outs)), get_put_list by (done || apply get_put_output). done.
Defined.

Lemma sample_codec_laws : postcard_tx_laws.
Proof.
  split; [by eauto|]. intros tx bs _ [= <-]. unfold put_tx. rewrite length_app.
  change (length (zeros 9)) with 9%nat. pose proof (length_put_list put_input (tx_inputs tx)).
  rewrite length_app. lia.
Qed.

(** Two allocations; a transfer with change and a fee, a second spending of the
    same output, and a transfer of the received output. *)
Definition sample_address (b : byte) : bytes := hash_pubkey [b].
Definition sample_config : UtxoConfig :=
  mkUtxoConfig [mkGenesisUtxo 100 (sample_address x01); mkGenesisUtxo 50 (sample_address x02)]
    256 256 102400 false.

Definition sample_spend (prev : OutPoint) (owner : byte) (outs : list TxOutput) : UtxoTx :=
  let unsigned := mkUtxoTx [mkTxInput prev [] [owner]] outs in
  let hash := signing_hash unsigned in
  mkUtxoTx [mkTxInput prev (hash ++ hash) [owner]] outs.

Definition sample_tx1 : UtxoTx :=
  sample_spend (mkOutPoint (genesis_txid 0) 0) x01
    [mkTxOutput 60 (sample_address x02); mkTxOutput 30 (sample_address x01)].
Definition sample_tx2 : UtxoTx :=
  sample_spend (mkOutPoint (genesis_txid 0) 0) x01 [mkTxOutput 100 (sample_address x01)].
Definition sample_tx3 : UtxoTx :=
  sample_spend (mkOutPoint (txid sample_tx1) 0) x02 [mkTxOutput 60 (sample_address x01)].

Definition sample_blocks : list (list bytes) := [[put_tx sample_tx1; put_tx sample_tx2]; [[x02]; put_tx sample_tx3]].

Definition sample_app : UtxoApplication (M := Ledger) (D := gset (N * bytes)) :=
  UtxoApplication_new sample_config.

Lemma sample_collision_free : collision_free (hashed sample_config sample_blocks).
Proof.
  assert (NoDup (blake3 <$> hashed sample_config sample_blocks)) as Hn
    by (apply (bool_decide_unpack _); by vm_compute).
  intros x y [i Hi]%list_elem_of_lookup [j Hj]%list_elem_of_lookup E.
  assert (i = j) as ->; [|congruence]. rewrite NoDup_alt in Hn. apply (Hn i j (blake3 x)).
  - by rewrite list_lookup_fmap, Hi.
  - by rewrite list_lookup_fmap, Hj, E.
Qed.

Lemma sample_config_ok : config_ok sample_config.
Proof. split; by vm_compute. Qed.

Lemma utxo_ledger_correct_witness :
  us_total_supply (ua_state (run_blocks sample_app sample_blocks)) = 140 ∧
  history sample_app sample_blocks = [sample_tx1; sample_tx3] ∧
  NoDup (spent (history sample_app sample_blocks)) ∧
  us_total_supply (ua_state (run_blocks sample_app sample_blocks)) +
    fees_from sample_config [] (history sample_app sample_blocks) = genesis_total sample_config.
Proof.
  split; [by vm_compute|]. split; [by vm_compute|].
  destruct (utxo_ledger_correct (M := Ledger) (D := gset (N * bytes)) sample_config sample_blocks
    sample_codec_laws sample_config_ok sample_collision_free) as (_&_&Hn&_&_&_&Hs).
  split; [exact Hn|exact Hs].
Defined.

Lemma sample_queries :
  get_balance (ua_state (run_blocks sample_app sample_blocks)) (sample_address x01) = 90 ∧
  value_sum (filter (λ e, addr_slot (to_pubkey_hash e.2) = addr_slot (sample_address x01))
    (contents (ua_state (run_blocks sample_app sample_blocks)))) ≤
  us_total_supply (ua_state (run_blocks sample_app sample_blocks)).
Proof.
  split; [by vm_compute|].
  destruct (utxo_queries_correct (M := Ledger) (D := gset (N * bytes)) sample_config sample_blocks
    (sample_address x01) sample_codec_laws sample_config_ok sample_collision_free eq_refl) as (_&[Hle _]&_).
  exact Hle.
Defined.

(** The first transfer in the payload of the first block above genesis. *)
Definition sample_utxo_block : Block :=
  mkBlock 1 GENESIS_HASH 3 3 9 (encode_payload [sample_tx1; sample_tx2]) GENESIS_HASH [] (x01 :: zeros 31).
Definition sample_utxo_world : World MemoryBlockStore (UtxoApplication (M := Ledger) (D := gset (N * bytes))) :=
  mkWorld sample_state (put_block mem_new sample_utxo_block) sample_app 0 [].
Definition sample_utxo_dc : DoubleCertificate :=
  mkDC (mkQC (x01 :: zeros 31) 3 (mkAgg [] []) 0) (mkQC (x01 :: zeros 31) 3 (mkAgg [] []) 0) [].
Definition sample_utxo_commit := try_commit sample_utxo_dc (Epoch_genesis sample_set) None None sample_utxo_world.

Lemma commit_executes_ledger_witness :
  ∃ w' cr, sample_utxo_commit = (w', Ok cr) ∧ us_total_supply (ua_state (w_app w')) = 140 ∧
    ∀ L, ledger_exec sample_config (contents (ua_state sample_app))
      (mjoin (payload_txs <$> cr_committed_blocks cr)) L ↔ L = contents (ua_state (w_app w')).
Proof.
  assert (is_ok sample_utxo_commit.2 = true) as Hok by (vm_compute; reflexivity).
  assert (us_total_supply (ua_state (w_app sample_utxo_commit.1)) = 140) as Hs by (vm_compute; reflexivity).
  destruct sample_utxo_commit as [w' [cr|e|]] eqn:E; [|discriminate Hok..].
  exists w', cr. split; [reflexivity|]. split; [exact Hs|].
  destruct (commit_executes_ledger sample_utxo_dc (Epoch_genesis sample_set) None None sample_utxo_world
              w' cr ltac:(vm_compute; discriminate) E) as (_&_&HL).
  exact HL.
Defined.
