(* ===== verification/Abci.v ===== *)
(** * The ABCI bridge ([hotmint-abci], [hotmint-abci-proto])

    An application in another process is driven over a socket: the client turns
    each call of the [Application] trait into a request, the server dispatches
    it to a handler and returns the response.  Requests and responses are
    protobuf messages in length-prefixed frames.  The wire encoding of the
    [prost] crate is a parameter; the messages are those of
    [hotmint-abci-proto/proto/abci.proto]. *)

From S2P Require Import Prelude Types ValidatorSet World Sync.

(** ** Messages ([abci.proto]) *)

Record PbEquivocationProof : Type := mkPbEquivocationProof {
  pb_eq_validator : N;
  pb_eq_view : N;
  pb_eq_vote_type : N;
  pb_eq_block_hash_a : bytes;
  pb_eq_signature_a : bytes;
  pb_eq_block_hash_b : bytes;
  pb_eq_signature_b : bytes;
  pb_eq_epoch : N;
  pb_eq_extension_a : bytes;
  pb_eq_extension_b : bytes;
  pb_eq_has_extension_a : bool;
  pb_eq_has_extension_b : bool;
}.

Record PbBlock : Type := mkPbBlock {
  pb_bl_height : N;
  pb_bl_parent_hash : bytes;
  pb_bl_view : N;
  pb_bl_proposer : N;
  pb_bl_timestamp : N;
  pb_bl_payload : bytes;
  pb_bl_hash : bytes;
  pb_bl_app_hash : bytes;
  pb_bl_evidence : list PbEquivocationProof;
}.

Record PbTxContext : Type := mkPbTxContext { pb_tc_height : N; pb_tc_epoch : N }.
Record PbValidatorInfo : Type := mkPbValidatorInfo { pb_vi_id : N; pb_vi_public_key : bytes; pb_vi_power : N }.
Record PbValidatorSet : Type := mkPbValidatorSet { pb_vs_validators : list PbValidatorInfo; pb_vs_total_power : N }.
Record PbVoteExtension : Type := mkPbVoteExtension { pb_ve_validator_id : N; pb_ve_data : bytes }.

Record PbBlockContext : Type := mkPbBlockContext {
  pb_bc_height : N;
  pb_bc_view : N;
  pb_bc_proposer : N;
  pb_bc_epoch : N;
  pb_bc_epoch_start_view : N;
  pb_bc_validator_set : option PbValidatorSet;
  pb_bc_vote_extensions : list PbVoteExtension;
  pb_bc_timestamp : N;
}.

Record PbValidatorUpdate : Type := mkPbValidatorUpdate { pb_vu_id : N; pb_vu_public_key : bytes; pb_vu_power : N }.
Record PbEventAttribute : Type := mkPbEventAttribute { pb_ea_key : string; pb_ea_value : string }.
Record PbEvent : Type := mkPbEvent { pb_ev_type : string; pb_ev_attributes : list PbEventAttribute }.
Record PbEndBlockResponse : Type := mkPbEndBlockResponse {
  pb_eb_validator_updates : list PbValidatorUpdate;
  pb_eb_events : list PbEvent;
  pb_eb_app_hash : bytes;
}.
Record PbOfflineEvidence : Type := mkPbOfflineEvidence {
  pb_of_validator : N;
  pb_of_missed_commits : N;
  pb_of_total_commits : N;
  pb_of_evidence_height : N;
}.
Record PbSnapshotInfo : Type := mkPbSnapshotInfo { pb_sn_height : N; pb_sn_chunks : N; pb_sn_hash : bytes }.
Record PbAppInfo : Type := mkPbAppInfo { pb_ai_last_block_height : N; pb_ai_last_block_app_hash : bytes }.

(** The [oneof] of a request and of a response, with the fields of the wrapper
    messages as arguments; a message field may be absent. *)
Inductive PbRequest : Type :=
| PbReqCreatePayload (ctx : PbBlockContext)
| PbReqValidateBlock (block : option PbBlock) (ctx : option PbBlockContext)
| PbReqValidateTx (tx : bytes) (ctx : option PbTxContext)
| PbReqExecuteBlock (txs : list bytes) (ctx : option PbBlockContext)
| PbReqOnCommit (block : option PbBlock) (ctx : option PbBlockContext)
| PbReqOnEvidence (proof : PbEquivocationProof)
| PbReqQuery (path : string) (data : bytes)
| PbReqInfo
| PbReqInitChain (app_state : bytes)
| PbReqOnOfflineValidators (offline : list PbOfflineEvidence)
| PbReqExtendVote (block : option PbBlock) (ctx : option PbBlockContext)
| PbReqVerifyVoteExtension (extension block_hash : bytes) (validator : N)
| PbReqListSnapshots
| PbReqLoadSnapshotChunk (height chunk_index : N)
| PbReqOfferSnapshot (snapshot : option PbSnapshotInfo)
| PbReqApplySnapshotChunk (chunk : bytes) (chunk_index : N)
| PbReqTracksAppHash.

Inductive PbResponse : Type :=
| PbRespCreatePayload (payload : bytes)
| PbRespValidateBlock (ok : bool)
| PbRespValidateTx (ok : bool) (priority gas_wanted : N)
| PbRespExecuteBlock (result : option PbEndBlockResponse) (error : string)
| PbRespOnCommit (error : string)
| PbRespOnEvidence (error : string)
| PbRespQuery (data : bytes) (error : string) (proof : bytes) (height : N)
| PbRespInfo (info : option PbAppInfo)
| PbRespInitChain (app_hash : bytes) (error : string)
| PbRespOnOfflineValidators (error : string)
| PbRespExtendVote (extension : bytes) (has_extension : bool)
| PbRespVerifyVoteExtension (ok : bool)
| PbRespListSnapshots (snapshots : list PbSnapshotInfo)
| PbRespLoadSnapshotChunk (data : bytes)
| PbRespOfferSnapshot (result : N)
| PbRespApplySnapshotChunk (result : N)
| PbRespTracksAppHash (tracks : bool).

(** [prost]: encoding of the two top-level messages, whose [oneof] may be unset. *)
Class Prost : Type := {
  encode_request_to_vec : option PbRequest → bytes;
  request_decode : bytes → option (option PbRequest);
  encode_response_to_vec : option PbResponse → bytes;
  response_decode : bytes → option (option PbResponse);
  request_decode_encode : ∀ r, request_decode (encode_request_to_vec r) = Some r;
  response_decode_encode : ∀ r, response_decode (encode_response_to_vec r) = Some r;
}.

Inductive DecodeError : Type := Protobuf | InvalidMessage.

(** ** Conversions ([convert.rs]) *)

Definition bytes_to_array_32 (bs : bytes) : res DecodeError bytes :=
  if (length bs =? 32)%nat then Ok bs else Err InvalidMessage.
Definition bytes_to_hash (bs : bytes) : res DecodeError BlockHash := bytes_to_array_32 bs.
Definition bytes_to_public_key (bs : bytes) : res DecodeError PublicKey := bytes_to_array_32 bs.
Definition bytes_to_signature (bs : bytes) : res DecodeError Signature :=
  if negb (length bs =? 64)%nat then Err InvalidMessage else Ok bs.

(** [into_iter().map(TryInto::try_into).collect::<Result<_, _>>()] *)
Fixpoint try_collect {A B} (f : A → res DecodeError B) (l : list A) : res DecodeError (list B) :=
  match l with
  | [] => Ok []
  | a :: rest => b ← f a; bs ← try_collect f rest; Ok (b :: bs)
  end.

Definition proof_to_pb (e : EquivocationProof) : PbEquivocationProof :=
  mkPbEquivocationProof (ep_validator e) (ep_view e)
    (match ep_vote_type e with TVote => 0 | TVote2 => 1 end)
    (ep_block_hash_a e) (ep_signature_a e) (ep_block_hash_b e) (ep_signature_b e) (ep_epoch e)
    (default [] (ep_extension_a e)) (default [] (ep_extension_b e))
    (bool_decide (is_Some (ep_extension_a e))) (bool_decide (is_Some (ep_extension_b e))).

Definition proof_from_pb (e : PbEquivocationProof) : res DecodeError EquivocationProof :=
  vote_type ← (if pb_eq_vote_type e =? 0 then Ok TVote
               else if pb_eq_vote_type e =? 1 then Ok TVote2 else Err InvalidMessage);
  block_hash_a ← bytes_to_hash (pb_eq_block_hash_a e);
  signature_a ← bytes_to_signature (pb_eq_signature_a e);
  block_hash_b ← bytes_to_hash (pb_eq_block_hash_b e);
  signature_b ← bytes_to_signature (pb_eq_signature_b e);
  Ok (mkEquivocationProof (pb_eq_validator e) (pb_eq_view e) vote_type (pb_eq_epoch e)
        block_hash_a signature_a (if pb_eq_has_extension_a e then Some (pb_eq_extension_a e) else None)
        block_hash_b signature_b (if pb_eq_has_extension_b e then Some (pb_eq_extension_b e) else None)).

Definition block_to_pb (b : Block) : PbBlock :=
  mkPbBlock (b_height b) (b_parent_hash b) (b_view b) (b_proposer b) (b_timestamp b) (b_payload b)
    (b_hash b) (b_app_hash b) (proof_to_pb <$> b_evidence b).

Definition block_from_pb (b : PbBlock) : res DecodeError Block :=
  parent_hash ← bytes_to_hash (pb_bl_parent_hash b);
  app_hash ← bytes_to_hash (pb_bl_app_hash b);
  evidence ← try_collect proof_from_pb (pb_bl_evidence b);
  hash ← bytes_to_hash (pb_bl_hash b);
  Ok (mkBlock (pb_bl_height b) parent_hash (pb_bl_view b) (pb_bl_proposer b) (pb_bl_timestamp b)
        (pb_bl_payload b) app_hash evidence hash).

Definition tx_context_to_pb (c : TxContext) : PbTxContext := mkPbTxContext (txc_height c) (txc_epoch c).
Definition tx_context_from_pb (c : PbTxContext) : TxContext := mkTxContext (pb_tc_height c) (pb_tc_epoch c).

Definition validator_to_pb (v : ValidatorInfo) : PbValidatorInfo :=
  mkPbValidatorInfo (vi_id v) (vi_public_key v) (vi_power v).
Definition validator_from_pb (v : PbValidatorInfo) : res DecodeError ValidatorInfo :=
  public_key ← bytes_to_public_key (pb_vi_public_key v);
  Ok (mkValidatorInfo (pb_vi_id v) public_key (pb_vi_power v)).

Definition set_to_pb (vs : ValidatorSet) : PbValidatorSet :=
  mkPbValidatorSet (validator_to_pb <$> vs_validators vs) (vs_total_power vs).
Definition set_from_pb (vs : PbValidatorSet) : res DecodeError ValidatorSet :=
  infos ← try_collect validator_from_pb (pb_vs_validators vs);
  match try_new infos with Ok vs => Ok vs | Err _ => Err InvalidMessage | Panic => Panic end.

Definition context_to_pb (c : BlockContext) : PbBlockContext :=
  mkPbBlockContext (bc_height c) (bc_view c) (bc_proposer c) (bc_epoch c) (bc_epoch_start_view c)
    (Some (set_to_pb (bc_validator_set c)))
    ((λ '(id, data), mkPbVoteExtension id data) <$> bc_vote_extensions c) (bc_timestamp c).
Definition context_from_pb (c : PbBlockContext) : res DecodeError BlockContext :=
  vs ← ok_or (pb_bc_validator_set c) InvalidMessage;
  vs ← set_from_pb vs;
  Ok (mkBlockContext (pb_bc_height c) (pb_bc_view c) (pb_bc_proposer c) (pb_bc_epoch c)
        (pb_bc_epoch_start_view c) vs (pb_bc_timestamp c)
        ((λ ve, (pb_ve_validator_id ve, pb_ve_data ve)) <$> pb_bc_vote_extensions c)).

Definition update_to_pb (u : ValidatorUpdate) : PbValidatorUpdate :=
  mkPbValidatorUpdate (vu_id u) (vu_public_key u) (vu_power u).
Definition update_from_pb (u : PbValidatorUpdate) : res DecodeError ValidatorUpdate :=
  public_key ← bytes_to_public_key (pb_vu_public_key u);
  Ok (mkValidatorUpdate (pb_vu_id u) public_key (pb_vu_power u)).

Definition attribute_to_pb (a : EventAttribute) : PbEventAttribute := mkPbEventAttribute (ea_key a) (ea_value a).
Definition attribute_from_pb (a : PbEventAttribute) : EventAttribute := mkEventAttribute (pb_ea_key a) (pb_ea_value a).
Definition event_to_pb (e : Event) : PbEvent := mkPbEvent (ev_type e) (attribute_to_pb <$> ev_attributes e).
Definition event_from_pb (e : PbEvent) : Event := mkEvent (pb_ev_type e) (attribute_from_pb <$> pb_ev_attributes e).

Definition end_block_to_pb (r : EndBlockResponse) : PbEndBlockResponse :=
  mkPbEndBlockResponse (update_to_pb <$> ebr_validator_updates r) (event_to_pb <$> ebr_events r) (ebr_app_hash r).
Definition end_block_from_pb (r : PbEndBlockResponse) : res DecodeError EndBlockResponse :=
  updates ← try_collect update_from_pb (pb_eb_validator_updates r);
  app_hash ← bytes_to_hash (pb_eb_app_hash r);
  Ok (mkEndBlockResponse updates (event_from_pb <$> pb_eb_events r) app_hash).

Definition snapshot_to_pb (s : SnapshotInfo) : PbSnapshotInfo := mkPbSnapshotInfo (si_height s) (si_chunks s) (si_hash s).
Definition snapshot_from_pb (s : PbSnapshotInfo) : res DecodeError SnapshotInfo :=
  hash ← bytes_to_array_32 (pb_sn_hash s);
  Ok (mkSnapshotInfo (pb_sn_height s) (pb_sn_chunks s) hash).

(** ** Requests and responses ([protocol.rs]) *)

Inductive SnapshotOfferResult : Type := OfferAccept | OfferReject | OfferAbort.
Inductive ChunkApplyResult : Type := ApplyAccept | ApplyRetry | ApplyAbort.

(** [OwnedBlockContext] has the fields of [BlockContext]. *)
Inductive Request : Type :=
| ReqInfo
| ReqInitChain (app_state : bytes)
| ReqCreatePayload (ctx : BlockContext)
| ReqValidateBlock (block : Block) (ctx : BlockContext)
| ReqValidateTx (tx : bytes) (ctx : option TxContext)
| ReqExecuteBlock (txs : list bytes) (ctx : BlockContext)
| ReqOnCommit (block : Block) (ctx : BlockContext)
| ReqOnEvidence (proof : EquivocationProof)
| ReqOnOfflineValidators (offline : list OfflineEvidence)
| ReqExtendVote (block : Block) (ctx : BlockContext)
| ReqVerifyVoteExtension (extension : bytes) (block_hash : BlockHash) (validator : ValidatorId)
| ReqQuery (path : string) (data : bytes)
| ReqListSnapshots
| ReqLoadSnapshotChunk (height : Height) (chunk_index : N)
| ReqOfferSnapshot (snapshot : SnapshotInfo)
| ReqApplySnapshotChunk (chunk : bytes) (chunk_index : N)
| ReqTracksAppHash.

(** [Result<A, String>]: [inl] is [Ok]. *)
Notation app_result A := (A + string)%type.

Inductive Response : Type :=
| AnsInfo (info : AppInfo)
| AnsInitChain (r : app_result BlockHash)
| AnsCreatePayload (payload : bytes)
| AnsValidateBlock (ok : bool)
| AnsValidateTx (ok : bool) (priority gas_wanted : N)
| AnsExecuteBlock (r : app_result EndBlockResponse)
| AnsOnCommit (r : app_result unit)
| AnsOnEvidence (r : app_result unit)
| AnsOnOfflineValidators (r : app_result unit)
| AnsExtendVote (extension : option bytes)
| AnsVerifyVoteExtension (ok : bool)
| AnsQuery (r : app_result QueryResponse)
| AnsListSnapshots (snapshots : list SnapshotInfo)
| AnsLoadSnapshotChunk (data : bytes)
| AnsOfferSnapshot (r : SnapshotOfferResult)
| AnsApplySnapshotChunk (r : ChunkApplyResult)
| AnsTracksAppHash (tracks : bool).

Definition app_info_to_proto (i : AppInfo) : PbAppInfo :=
  mkPbAppInfo (ai_last_block_height i) (ai_last_block_app_hash i).
Definition app_info_from_proto (i : PbAppInfo) : res DecodeError AppInfo :=
  hash ← bytes_to_array_32 (pb_ai_last_block_app_hash i);
  Ok (mkAppInfo (pb_ai_last_block_height i) hash).

Definition offline_evidence_to_proto (e : OfflineEvidence) : PbOfflineEvidence :=
  mkPbOfflineEvidence (oe_validator e) (oe_missed_commits e) (oe_total_commits e) (oe_evidence_height e).
Definition offline_evidence_from_proto (e : PbOfflineEvidence) : res DecodeError OfflineEvidence :=
  Ok (mkOfflineEvidence (pb_of_validator e) (pb_of_missed_commits e) (pb_of_total_commits e)
        (pb_of_evidence_height e)).

Definition snapshot_offer_to_code (r : SnapshotOfferResult) : N :=
  match r with OfferAccept => 0 | OfferReject => 1 | OfferAbort => 2 end.
Definition snapshot_offer_from_code (code : N) : res DecodeError SnapshotOfferResult :=
  if code =? 0 then Ok OfferAccept else if code =? 1 then Ok OfferReject
  else if code =? 2 then Ok OfferAbort else Err InvalidMessage.
Definition chunk_apply_to_code (r : ChunkApplyResult) : N :=
  match r with ApplyAccept => 0 | ApplyRetry => 1 | ApplyAbort => 2 end.
Definition chunk_apply_from_code (code : N) : res DecodeError ChunkApplyResult :=
  if code =? 0 then Ok ApplyAccept else if code =? 1 then Ok ApplyRetry
  else if code =? 2 then Ok ApplyAbort else Err InvalidMessage.

(** An empty [error] means success on the wire. *)
Definition encode_app_error {A} (r : app_result A) : string :=
  match r with
  | inl _ => ""
  | inr msg => if String.eqb msg "" then "unspecified application error" else msg
  end.
Definition decode_app_error {A} (error : string) (ok : A) : app_result A :=
  if String.eqb error "" then inl ok else inr error.

Definition request_to_pb (r : Request) : PbRequest :=
  match r with
  | ReqInfo => PbReqInfo
  | ReqInitChain app_state => PbReqInitChain app_state
  | ReqCreatePayload ctx => PbReqCreatePayload (context_to_pb ctx)
  | ReqValidateBlock block ctx => PbReqValidateBlock (Some (block_to_pb block)) (Some (context_to_pb ctx))
  | ReqValidateTx tx ctx => PbReqValidateTx tx (tx_context_to_pb <$> ctx)
  | ReqExecuteBlock txs ctx => PbReqExecuteBlock txs (Some (context_to_pb ctx))
  | ReqOnCommit block ctx => PbReqOnCommit (Some (block_to_pb block)) (Some (context_to_pb ctx))
  | ReqOnEvidence proof => PbReqOnEvidence (proof_to_pb proof)
  | ReqOnOfflineValidators offline => PbReqOnOfflineValidators (offline_evidence_to_proto <$> offline)
  | ReqExtendVote block ctx => PbReqExtendVote (Some (block_to_pb block)) (Some (context_to_pb ctx))
  | ReqVerifyVoteExtension extension block_hash validator =>
      PbReqVerifyVoteExtension extension block_hash validator
  | ReqQuery path data => PbReqQuery path data
  | ReqListSnapshots => PbReqListSnapshots
  | ReqLoadSnapshotChunk height chunk_index => PbReqLoadSnapshotChunk height chunk_index
  | ReqOfferSnapshot snapshot => PbReqOfferSnapshot (Some (snapshot_to_pb snapshot))
  | ReqApplySnapshotChunk chunk chunk_index => PbReqApplySnapshotChunk chunk chunk_index
  | ReqTracksAppHash => PbReqTracksAppHash
  end.

Definition block_and_context (block : option PbBlock) (ctx : option PbBlockContext)
    : res DecodeError (Block * BlockContext) :=
  b ← ok_or block InvalidMessage; b ← block_from_pb b;
  c ← ok_or ctx InvalidMessage; c ← context_from_pb c;
  Ok (b, c).

Definition request_from_pb (r : PbRequest) : res DecodeError Request :=
  match r with
  | PbReqInfo => Ok ReqInfo
  | PbReqInitChain app_state => Ok (ReqInitChain app_state)
  | PbReqCreatePayload ctx => c ← context_from_pb ctx; Ok (ReqCreatePayload c)
  | PbReqValidateBlock block ctx => '(b, c) ← block_and_context block ctx; Ok (ReqValidateBlock b c)
  | PbReqValidateTx tx ctx => Ok (ReqValidateTx tx (tx_context_from_pb <$> ctx))
  | PbReqExecuteBlock txs ctx =>
      c ← ok_or ctx InvalidMessage; c ← context_from_pb c; Ok (ReqExecuteBlock txs c)
  | PbReqOnCommit block ctx => '(b, c) ← block_and_context block ctx; Ok (ReqOnCommit b c)
  | PbReqOnEvidence proof => p ← proof_from_pb proof; Ok (ReqOnEvidence p)
  | PbReqOnOfflineValidators offline =>
      l ← try_collect offline_evidence_from_proto offline; Ok (ReqOnOfflineValidators l)
  | PbReqExtendVote block ctx => '(b, c) ← block_and_context block ctx; Ok (ReqExtendVote b c)
  | PbReqVerifyVoteExtension extension block_hash validator =>
      h ← bytes_to_array_32 block_hash; Ok (ReqVerifyVoteExtension extension h validator)
  | PbReqQuery path data => Ok (ReqQuery path data)
  | PbReqListSnapshots => Ok ReqListSnapshots
  | PbReqLoadSnapshotChunk height chunk_index => Ok (ReqLoadSnapshotChunk height chunk_index)
  | PbReqOfferSnapshot snapshot =>
      s ← ok_or snapshot InvalidMessage; s ← snapshot_from_pb s; Ok (ReqOfferSnapshot s)
  | PbReqApplySnapshotChunk chunk chunk_index => Ok (ReqApplySnapshotChunk chunk chunk_index)
  | PbReqTracksAppHash => Ok ReqTracksAppHash
  end.

Definition ok_of {A} (r : app_result A) : option A := match r with inl a => Some a | inr _ => None end.

Definition response_to_pb (r : Response) : PbResponse :=
  match r with
  | AnsInfo info => PbRespInfo (Some (app_info_to_proto info))
  | AnsInitChain r => PbRespInitChain (default [] (ok_of r)) (encode_app_error r)
  | AnsCreatePayload payload => PbRespCreatePayload payload
  | AnsValidateBlock ok => PbRespValidateBlock ok
  | AnsValidateTx ok priority gas_wanted => PbRespValidateTx ok priority gas_wanted
  | AnsExecuteBlock r => PbRespExecuteBlock (end_block_to_pb <$> ok_of r) (encode_app_error r)
  | AnsOnCommit r => PbRespOnCommit (encode_app_error r)
  | AnsOnEvidence r => PbRespOnEvidence (encode_app_error r)
  | AnsOnOfflineValidators r => PbRespOnOfflineValidators (encode_app_error r)
  | AnsExtendVote extension => PbRespExtendVote (default [] extension) (bool_decide (is_Some extension))
  | AnsVerifyVoteExtension ok => PbRespVerifyVoteExtension ok
  | AnsQuery r =>
      PbRespQuery (default [] (qr_data <$> ok_of r)) (encode_app_error r)
        (default [] (ok_of r ≫= qr_proof)) (default 0 (qr_height <$> ok_of r))
  | AnsListSnapshots snapshots => PbRespListSnapshots (snapshot_to_pb <$> snapshots)
  | AnsLoadSnapshotChunk data => PbRespLoadSnapshotChunk data
  | AnsOfferSnapshot r => PbRespOfferSnapshot (snapshot_offer_to_code r)
  | AnsApplySnapshotChunk r => PbRespApplySnapshotChunk (chunk_apply_to_code r)
  | AnsTracksAppHash tracks => PbRespTracksAppHash tracks
  end.

Definition response_from_pb (r : PbResponse) : res DecodeError Response :=
  match r with
  | PbRespInfo info => i ← ok_or info InvalidMessage; i ← app_info_from_proto i; Ok (AnsInfo i)
  | PbRespInitChain app_hash error =>
      if String.eqb error "" then h ← bytes_to_array_32 app_hash; Ok (AnsInitChain (inl h))
      else Ok (AnsInitChain (inr error))
  | PbRespCreatePayload payload => Ok (AnsCreatePayload payload)
  | PbRespValidateBlock ok => Ok (AnsValidateBlock ok)
  | PbRespValidateTx ok priority gas_wanted => Ok (AnsValidateTx ok priority gas_wanted)
  | PbRespExecuteBlock result error =>
      if String.eqb error "" then
        e ← ok_or result InvalidMessage; e ← end_block_from_pb e; Ok (AnsExecuteBlock (inl e))
      else Ok (AnsExecuteBlock (inr error))
  | PbRespOnCommit error => Ok (AnsOnCommit (decode_app_error error ()))
  | PbRespOnEvidence error => Ok (AnsOnEvidence (decode_app_error error ()))
  | PbRespOnOfflineValidators error => Ok (AnsOnOfflineValidators (decode_app_error error ()))
  | PbRespExtendVote extension has_extension =>
      Ok (AnsExtendVote (if has_extension : bool then Some extension else None))
  | PbRespVerifyVoteExtension ok => Ok (AnsVerifyVoteExtension ok)
  | PbRespQuery data error proof height =>
      Ok (AnsQuery (decode_app_error error
        (mkQueryResponse data (if (length proof =? 0)%nat then None else Some proof) height)))
  | PbRespListSnapshots snapshots => l ← try_collect snapshot_from_pb snapshots; Ok (AnsListSnapshots l)
  | PbRespLoadSnapshotChunk data => Ok (AnsLoadSnapshotChunk data)
  | PbRespOfferSnapshot result => r ← snapshot_offer_from_code result; Ok (AnsOfferSnapshot r)
  | PbRespApplySnapshotChunk result => r ← chunk_apply_from_code result; Ok (AnsApplySnapshotChunk r)
  | PbRespTracksAppHash tracks => Ok (AnsTracksAppHash tracks)
  end.

Section Wire.
Context `{Prost}.

Definition encode_request (r : Request) : bytes := encode_request_to_vec (Some (request_to_pb r)).
Definition decode_request (buf : bytes) : res DecodeError Request :=
  proto ← ok_or (request_decode buf) Protobuf;
  r ← ok_or proto InvalidMessage;
  request_from_pb r.
Definition encode_response (r : Response) : bytes := encode_response_to_vec (Some (response_to_pb r)).
Definition decode_response (buf : bytes) : res DecodeError Response :=
  proto ← ok_or (response_decode buf) Protobuf;
  r ← ok_or proto InvalidMessage;
  response_from_pb r.
End Wire.

(** ** Frames: a length and the payload *)

Definition MAX_FRAME_SIZE : N := 64 * 1024 * 1024.

(** The bytes written; [None] when the payload is too large. *)
Definition write_frame (payload : bytes) : option bytes :=
  if MAX_FRAME_SIZE <? N.of_nat (length payload) then None
  else Some (u32_le (N.of_nat (length payload) mod (u32_max + 1)) ++ payload).

(** The first frame of a stream and what follows it; [None] at the end of the
    stream, inside a frame, or when the length is too large. *)
Definition read_frame (stream : bytes) : option (bytes * bytes) :=
  if (length stream <? 4)%nat then None
  else
    let len := le_u32 (take 4 stream) in
    let rest := drop 4 stream in
    if MAX_FRAME_SIZE <? len then None
    else if N.of_nat (length rest) <? len then None
    else Some (take (N.to_nat len) rest, drop (N.to_nat len) rest).

(** ** The server ([server.rs]) *)

(** [ApplicationHandler]: each call may change the state of the application. *)
Class ApplicationHandler (A : Type) : Type := {
  h_info : A → AppInfo * A;
  h_init_chain : A → bytes → app_result BlockHash * A;
  h_create_payload : A → BlockContext → bytes * A;
  h_validate_block : A → Block → BlockContext → bool * A;
  h_validate_tx : A → bytes → option TxContext → (bool * N * N) * A;
  h_execute_block : A → list bytes → BlockContext → app_result EndBlockResponse * A;
  h_on_commit : A → Block → BlockContext → app_result unit * A;
  h_on_evidence : A → EquivocationProof → app_result unit * A;
  h_on_offline_validators : A → list OfflineEvidence → app_result unit * A;
  h_extend_vote : A → Block → BlockContext → option bytes * A;
  h_verify_vote_extension : A → bytes → BlockHash → ValidatorId → bool * A;
  h_query : A → string → bytes → app_result QueryResponse * A;
  h_list_snapshots : A → list SnapshotInfo * A;
  h_load_snapshot_chunk : A → Height → N → bytes * A;
  h_offer_snapshot : A → SnapshotInfo → SnapshotOfferResult * A;
  h_apply_snapshot_chunk : A → bytes → N → ChunkApplyResult * A;
  h_tracks_app_hash : A → bool * A;
}.

Section Server.
Context `{Prost} {A : Type} `{!ApplicationHandler A}.

Definition answer {X} (f : X → Response) (r : X * A) : Response * A := (f r.1, r.2).

Definition dispatch (h : A) (req : Request) : Response * A :=
  match req with
  | ReqInfo => answer AnsInfo (h_info h)
  | ReqInitChain app_state => answer AnsInitChain (h_init_chain h app_state)
  | ReqCreatePayload ctx => answer AnsCreatePayload (h_create_payload h ctx)
  | ReqValidateBlock block ctx => answer AnsValidateBlock (h_validate_block h block ctx)
  | ReqValidateTx tx ctx =>
      answer (λ '(ok, priority, gas_wanted), AnsValidateTx ok priority gas_wanted) (h_validate_tx h tx ctx)
  | ReqExecuteBlock txs ctx => answer AnsExecuteBlock (h_execute_block h txs ctx)
  | ReqOnCommit block ctx => answer AnsOnCommit (h_on_commit h block ctx)
  | ReqOnEvidence proof => answer AnsOnEvidence (h_on_evidence h proof)
  | ReqOnOfflineValidators offline => answer AnsOnOfflineValidators (h_on_offline_validators h offline)
  | ReqExtendVote block ctx => answer AnsExtendVote (h_extend_vote h block ctx)
  | ReqVerifyVoteExtension extension block_hash validator =>
      answer AnsVerifyVoteExtension (h_verify_vote_extension h extension block_hash validator)
  | ReqQuery path data => answer AnsQuery (h_query h path data)
  | ReqListSnapshots => answer AnsListSnapshots (h_list_snapshots h)
  | ReqLoadSnapshotChunk height chunk_index =>
      answer AnsLoadSnapshotChunk (h_load_snapshot_chunk h height chunk_index)
  | ReqOfferSnapshot snapshot => answer AnsOfferSnapshot (h_offer_snapshot h snapshot)
  | ReqApplySnapshotChunk chunk chunk_index =>
      answer AnsApplySnapshotChunk (h_apply_snapshot_chunk h chunk chunk_index)
  | ReqTracksAppHash => answer AnsTracksAppHash (h_tracks_app_hash h)
  end.

(** One turn of the loop after a frame is read: the bytes written back, [None]
    when the loop ends, and the application. *)
Definition serve_frame (h : A) (frame : bytes) : option bytes * A :=
  match decode_request frame with
  | Ok req =>
      let '(resp, h) := dispatch h req in
      (write_frame (encode_response resp), h)
  | _ => (None, h)
  end.

(** The loop of a connection on what the client sent: the bytes sent back and
    the application at the end.  A turn consumes at least four bytes, so the
    length of the stream is fuel enough. *)
Fixpoint handle_connection (fuel : nat) (h : A) (stream : bytes) : bytes * A :=
  match fuel with
  | O => ([], h)
  | S fuel =>
      match read_frame stream with
      | None => ([], h)
      | Some (frame, rest) =>
          match serve_frame h frame with
          | (None, h) => ([], h)
          | (Some out, h) => let '(outs, h) := handle_connection fuel h rest in (out ++ outs, h)
          end
      end
  end.
End Server.

(** ** The client ([client.rs]) *)

Definition is_commit_path (r : Request) : bool :=
  match r with ReqExecuteBlock _ _ | ReqOnCommit _ _ | ReqOnEvidence _ => true | _ => false end.

Definition may_retry_after_write (r : Request) : bool :=
  match r with
  | ReqInfo | ReqValidateBlock _ _ | ReqValidateTx _ _ | ReqVerifyVoteExtension _ _ _
  | ReqQuery _ _ | ReqListSnapshots | ReqLoadSnapshotChunk _ _ | ReqTracksAppHash => true
  | _ => false
  end.

Inductive CallFailure : Type :=
| FailConnect
| FailWrite (bytes_written : N)
| FailRead.

(** *** The socket

    What the operating system does during one attempt.  [at_write] is the number
    of bytes written when writing fails.  [at_server] tells whether the server
    serves what it received; serving it later, on an abandoned connection, has
    the same effect on the application.  A reply that comes after the deadline
    stays in the socket. *)
Inductive read_outcome : Type := ReadOk | ReadTimeout | ReadBroken.

Record Attempt : Type := mkAttempt {
  at_setopt : bool;
  at_connect : bool;
  at_write : option N;
  at_server : bool;
  at_read : read_outcome;
}.
Definition Attempt_ok : Attempt := mkAttempt true true None true ReadOk.

(** A connection: the bytes the server has received and not read, the bytes it
    has sent and the client has not read, and whether the server still reads. *)
Record Conn : Type := mkConn { cn_received : bytes; cn_unread : bytes; cn_open : bool }.

Section Client.
Context `{Prost} {A : Type} `{!ApplicationHandler A}.

(** [cl_served] lists the requests served so far, the last one first. *)
Record Client : Type := mkClient {
  cl_conn : option Conn;
  cl_tracks_app_hash_cache : option bool;
  cl_handler : A;
  cl_served : list Request;
  cl_attempts : list Attempt;
}.

Definition Client_new (h : A) (attempts : list Attempt) : Client := mkClient None None h [] attempts.

Definition set_conn (c : Client) (conn : option Conn) : Client :=
  mkClient conn (cl_tracks_app_hash_cache c) (cl_handler c) (cl_served c) (cl_attempts c).
Definition set_cache (c : Client) (cache : option bool) : Client :=
  mkClient (cl_conn c) cache (cl_handler c) (cl_served c) (cl_attempts c).

(** The next attempt; the socket works once the list is used up. *)
Definition next_attempt (c : Client) : Attempt * Client :=
  match cl_attempts c with
  | [] => (Attempt_ok, c)
  | a :: rest => (a, mkClient (cl_conn c) (cl_tracks_app_hash_cache c) (cl_handler c) (cl_served c) rest)
  end.
Definition peek_attempt (c : Client) : Attempt := default Attempt_ok (head (cl_attempts c)).

(** The server reads the frames it has received, as [handle_connection] does. *)
Fixpoint serve_received (fuel : nat) (h : A) (served : list Request) (cn : Conn)
    : A * list Request * Conn :=
  match fuel with
  | O => (h, served, cn)
  | S fuel =>
      if negb (cn_open cn) then (h, served, cn)
      else
        match read_frame (cn_received cn) with
        | None => (h, served, cn)
        | Some (frame, rest) =>
            let served := match decode_request frame with Ok req => req :: served | _ => served end in
            match serve_frame h frame with
            | (None, h) => (h, served, mkConn rest (cn_unread cn) false)
            | (Some out, h) => serve_received fuel h served (mkConn rest (cn_unread cn ++ out) true)
            end
        end
  end.

(** The bytes [bs] arrive, and the server may run.  What an abandoned connection
    has delivered is served by then or not at all. *)
Definition deliver (a : Attempt) (bs : bytes) (cn : Conn) (c : Client) : Client :=
  let cn := mkConn (cn_received cn ++ bs) (cn_unread cn) (cn_open cn) in
  if at_server a then
    let '(h, served, cn) := serve_received (length (cn_received cn)) (cl_handler c) (cl_served c) cn in
    mkClient (Some cn) (cl_tracks_app_hash_cache c) h served (cl_attempts c)
  else set_conn c (Some cn).

(** [call_once]: connect if needed, write the frame, read the reply. *)
Definition call_once (payload : bytes) (c : Client) : res CallFailure bytes * Client :=
  let '(a, c) := next_attempt c in
  let conn := match cl_conn c with
              | Some cn => Some cn
              | None => if at_connect a && at_setopt a then Some (mkConn [] [] true) else None
              end in
  match conn with
  | None => (Err FailConnect, c)
  | Some cn =>
      match write_frame payload with
      | None => (Err (FailWrite 0), set_conn c (Some cn))
      | Some frame =>
          match at_write a with
          | Some n =>
              let n := N.min n (N.of_nat (length frame)) in
              (Err (FailWrite n), deliver a (take (N.to_nat n) frame) cn c)
          | None =>
              let c := deliver a frame cn c in
              match cl_conn c with
              | None => (Err FailRead, c)
              | Some cn =>
                  match at_read a with
                  | ReadTimeout => (Err FailRead, c)
                  | ReadBroken => (Err FailRead, set_conn c (Some (mkConn (cn_received cn) (cn_unread cn) false)))
                  | ReadOk =>
                      match read_frame (cn_unread cn) with
                      | None => (Err FailRead, c)
                      | Some (reply, rest) => (Ok reply, set_conn c (Some (mkConn (cn_received cn) rest (cn_open cn))))
                      end
                  end
              end
          end
      end
  end.

(** [call]; [None] is [Err].  A failed second attempt returns at once, and
    leaves its connection in place. *)
Definition call (req : Request) (c : Client) : option Response * Client :=
  let payload := encode_request req in
  if bool_decide (is_Some (cl_conn c)) && negb (at_setopt (peek_attempt c)) then (None, (next_attempt c).2)
  else
    let '(reply, c) :=
      match call_once payload c with
      | (Ok bs, c) => (Some bs, c)
      | (Err (FailWrite 0), c) =>
          let '(r, c) := call_once payload (set_conn c None) in
          (match r with Ok bs => Some bs | _ => None end, c)
      | (Err FailRead, c) =>
          if may_retry_after_write req then
            let '(r, c) := call_once payload (set_conn c None) in
            (match r with Ok bs => Some bs | _ => None end, c)
          else (None, set_conn c None)
      | (_, c) => (None, set_conn c None)
      end in
    match reply with
    | None => (None, c)
    | Some bs => (match decode_response bs with Ok resp => Some resp | _ => None end, c)
    end.

(** *** The [Application] methods

    [None] is [Err]; a failure is replaced by a refusal where the trait has no
    error.  [info] panics on a failure. *)

Definition ipc_info (c : Client) : res unit AppInfo * Client :=
  match call ReqInfo c with
  | (Some (AnsInfo info), c) => (Ok info, c)
  | (_, c) => (Panic, c)
  end.

Definition ipc_init_chain (c : Client) (app_state : bytes) : option BlockHash * Client :=
  match call (ReqInitChain app_state) c with
  | (Some (AnsInitChain r), c) => (ok_of r, c)
  | (_, c) => (None, c)
  end.

Definition ipc_create_payload (c : Client) (ctx : BlockContext) : bytes * Client :=
  match call (ReqCreatePayload ctx) c with
  | (Some (AnsCreatePayload payload), c) => (payload, c)
  | (_, c) => ([], c)
  end.

Definition ipc_validate_block (c : Client) (block : Block) (ctx : BlockContext) : bool * Client :=
  match call (ReqValidateBlock block ctx) c with
  | (Some (AnsValidateBlock ok), c) => (ok, c)
  | (_, c) => (false, set_conn c None)
  end.

Definition ipc_validate_tx (c : Client) (tx : bytes) (ctx : option TxContext) : TxValidationResult * Client :=
  match call (ReqValidateTx tx ctx) c with
  | (Some (AnsValidateTx ok priority gas_wanted), c) => (mkTxValidationResult ok priority gas_wanted, c)
  | (_, c) => (TxValidationResult_reject, c)
  end.

Definition ipc_execute_block (c : Client) (txs : list bytes) (ctx : BlockContext)
    : option EndBlockResponse * Client :=
  match call (ReqExecuteBlock txs ctx) c with
  | (Some (AnsExecuteBlock r), c) => (ok_of r, c)
  | (_, c) => (None, c)
  end.

Definition ipc_on_commit (c : Client) (block : Block) (ctx : BlockContext) : option unit * Client :=
  match call (ReqOnCommit block ctx) c with
  | (Some (AnsOnCommit r), c) => (ok_of r, c)
  | (_, c) => (None, c)
  end.

Definition ipc_on_evidence (c : Client) (proof : EquivocationProof) : option unit * Client :=
  match call (ReqOnEvidence proof) c with
  | (Some (AnsOnEvidence r), c) => (ok_of r, c)
  | (_, c) => (None, c)
  end.

Definition ipc_on_offline_validators (c : Client) (offline : list OfflineEvidence) : option unit * Client :=
  match call (ReqOnOfflineValidators offline) c with
  | (Some (AnsOnOfflineValidators r), c) => (ok_of r, c)
  | (_, c) => (None, c)
  end.

Definition ipc_extend_vote (c : Client) (block : Block) (ctx : BlockContext) : option bytes * Client :=
  match call (ReqExtendVote block ctx) c with
  | (Some (AnsExtendVote extension), c) => (extension, c)
  | (_, c) => (None, c)
  end.

Definition ipc_verify_vote_extension (c : Client) (extension : bytes) (block_hash : BlockHash)
    (validator : ValidatorId) : bool * Client :=
  match call (ReqVerifyVoteExtension extension block_hash validator) c with
  | (Some (AnsVerifyVoteExtension ok), c) => (ok, c)
  | (_, c) => (false, c)
  end.

Definition ipc_query (c : Client) (path : string) (data : bytes) : option QueryResponse * Client :=
  match call (ReqQuery path data) c with
  | (Some (AnsQuery r), c) => (ok_of r, c)
  | (_, c) => (None, c)
  end.

Definition ipc_list_snapshots (c : Client) : list SnapshotInfo * Client :=
  match call ReqListSnapshots c with
  | (Some (AnsListSnapshots snapshots), c) => (snapshots, c)
  | (_, c) => ([], c)
  end.

Definition ipc_load_snapshot_chunk (c : Client) (height : Height) (chunk_index : N) : bytes * Client :=
  match call (ReqLoadSnapshotChunk height chunk_index) c with
  | (Some (AnsLoadSnapshotChunk data), c) => (data, c)
  | (_, c) => ([], c)
  end.

Definition ipc_offer_snapshot (c : Client) (snapshot : SnapshotInfo) : SnapshotOfferResult * Client :=
  match call (ReqOfferSnapshot snapshot) c with
  | (Some (AnsOfferSnapshot r), c) => (r, c)
  | (_, c) => (OfferAbort, c)
  end.

Definition ipc_apply_snapshot_chunk (c : Client) (chunk : bytes) (chunk_index : N)
    : ChunkApplyResult * Client :=
  match call (ReqApplySnapshotChunk chunk chunk_index) c with
  | (Some (AnsApplySnapshotChunk r), c) => (r, c)
  | (_, c) => (ApplyAbort, c)
  end.

(** Only an answer is cached. *)
Definition ipc_tracks_app_hash (c : Client) : bool * Client :=
  match cl_tracks_app_hash_cache c with
  | Some cached => (cached, c)
  | None =>
      match call ReqTracksAppHash c with
      | (Some (AnsTracksAppHash tracks), c) => (tracks, set_cache c (Some tracks))
      | (_, c) => (true, c)
      end
  end.
End Client.
