(* ===== verification/AbciSamples.v ===== *)
(** * A concrete protobuf codec and application for the ABCI bridge

    The witnesses of [AbciSafety] run the bridge with a codec that meets the
    laws of [Prost] - messages are countable, and their codes are written bit by
    bit - and with a small application. *)

From S2P Require Import Prelude Types ValidatorSet World Sync Samples Abci.

(** ** Messages are countable *)

#[local] Instance PbEquivocationProof_eq_dec : EqDecision PbEquivocationProof.
Proof. solve_decision. Defined.
#[local] Instance PbEquivocationProof_countable : Countable PbEquivocationProof.
Proof.
  refine (inj_countable' (λ r, (pb_eq_validator r, pb_eq_view r, pb_eq_vote_type r, pb_eq_block_hash_a r, pb_eq_signature_a r, pb_eq_block_hash_b r, pb_eq_signature_b r, pb_eq_epoch r, pb_eq_extension_a r, pb_eq_extension_b r, pb_eq_has_extension_a r, pb_eq_has_extension_b r))
            (λ '(x0, x1, x2, x3, x4, x5, x6, x7, x8, x9, x10, x11), mkPbEquivocationProof x0 x1 x2 x3 x4 x5 x6 x7 x8 x9 x10 x11) _). by intros [].
Defined.
#[local] Instance PbBlock_eq_dec : EqDecision PbBlock.
Proof. solve_decision. Defined.
#[local] Instance PbBlock_countable : Countable PbBlock.
Proof.
  refine (inj_countable' (λ r, (pb_bl_height r, pb_bl_parent_hash r, pb_bl_view r, pb_bl_proposer r, pb_bl_timestamp r, pb_bl_payload r, pb_bl_hash r, pb_bl_app_hash r, pb_bl_evidence r))
            (λ '(x0, x1, x2, x3, x4, x5, x6, x7, x8), mkPbBlock x0 x1 x2 x3 x4 x5 x6 x7 x8) _). by intros [].
Defined.
#[local] Instance PbTxContext_eq_dec : EqDecision PbTxContext.
Proof. solve_decision. Defined.
#[local] Instance PbTxContext_countable : Countable PbTxContext.
Proof.
  refine (inj_countable' (λ r, (pb_tc_height r, pb_tc_epoch r))
            (λ '(x0, x1), mkPbTxContext x0 x1) _). by intros [].
Defined.
#[local] Instance PbValidatorInfo_eq_dec : EqDecision PbValidatorInfo.
Proof. solve_decision. Defined.
#[local] Instance PbValidatorInfo_countable : Countable PbValidatorInfo.
Proof.
  refine (inj_countable' (λ r, (pb_vi_id r, pb_vi_public_key r, pb_vi_power r))
            (λ '(x0, x1, x2), mkPbValidatorInfo x0 x1 x2) _). by intros [].
Defined.
#[local] Instance PbValidatorSet_eq_dec : EqDecision PbValidatorSet.
Proof. solve_decision. Defined.
#[local] Instance PbValidatorSet_countable : Countable PbValidatorSet.
Proof.
  refine (inj_countable' (λ r, (pb_vs_validators r, pb_vs_total_power r))
            (λ '(x0, x1), mkPbValidatorSet x0 x1) _). by intros [].
Defined.
#[local] Instance PbVoteExtension_eq_dec : EqDecision PbVoteExtension.
Proof. solve_decision. Defined.
#[local] Instance PbVoteExtension_countable : Countable PbVoteExtension.
Proof.
  refine (inj_countable' (λ r, (pb_ve_validator_id r, pb_ve_data r))
            (λ '(x0, x1), mkPbVoteExtension x0 x1) _). by intros [].
Defined.
#[local] Instance PbBlockContext_eq_dec : EqDecision PbBlockContext.
Proof. solve_decision. Defined.
#[local] Instance PbBlockContext_countable : Countable PbBlockContext.
Proof.
  refine (inj_countable' (λ r, (pb_bc_height r, pb_bc_view r, pb_bc_proposer r, pb_bc_epoch r, pb_bc_epoch_start_view r, pb_bc_validator_set r, pb_bc_vote_extensions r, pb_bc_timestamp r))
            (λ '(x0, x1, x2, x3, x4, x5, x6, x7), mkPbBlockContext x0 x1 x2 x3 x4 x5 x6 x7) _). by intros [].
Defined.
#[local] Instance PbValidatorUpdate_eq_dec : EqDecision PbValidatorUpdate.
Proof. solve_decision. Defined.
#[local] Instance PbValidatorUpdate_countable : Countable PbValidatorUpdate.
Proof.
  refine (inj_countable' (λ r, (pb_vu_id r, pb_vu_public_key r, pb_vu_power r))
            (λ '(x0, x1, x2), mkPbValidatorUpdate x0 x1 x2) _). by intros [].
Defined.
#[local] Instance PbEventAttribute_eq_dec : EqDecision PbEventAttribute.
Proof. solve_decision. Defined.
#[local] Instance PbEventAttribute_countable : Countable PbEventAttribute.
Proof.
  refine (inj_countable' (λ r, (pb_ea_key r, pb_ea_value r))
            (λ '(x0, x1), mkPbEventAttribute x0 x1) _). by intros [].
Defined.
#[local] Instance PbEvent_eq_dec : EqDecision PbEvent.
Proof. solve_decision. Defined.
#[local] Instance PbEvent_countable : Countable PbEvent.
Proof.
  refine (inj_countable' (λ r, (pb_ev_type r, pb_ev_attributes r))
            (λ '(x0, x1), mkPbEvent x0 x1) _). by intros [].
Defined.
#[local] Instance PbEndBlockResponse_eq_dec : EqDecision PbEndBlockResponse.
Proof. solve_decision. Defined.
#[local] Instance PbEndBlockResponse_countable : Countable PbEndBlockResponse.
Proof.
  refine (inj_countable' (λ r, (pb_eb_validator_updates r, pb_eb_events r, pb_eb_app_hash r))
            (λ '(x0, x1, x2), mkPbEndBlockResponse x0 x1 x2) _). by intros [].
Defined.
#[local] Instance PbOfflineEvidence_eq_dec : EqDecision PbOfflineEvidence.
Proof. solve_decision. Defined.
#[local] Instance PbOfflineEvidence_countable : Countable PbOfflineEvidence.
Proof.
  refine (inj_countable' (λ r, (pb_of_validator r, pb_of_missed_commits r, pb_of_total_commits r, pb_of_evidence_height r))
            (λ '(x0, x1, x2, x3), mkPbOfflineEvidence x0 x1 x2 x3) _). by intros [].
Defined.
#[local] Instance PbSnapshotInfo_eq_dec : EqDecision PbSnapshotInfo.
Proof. solve_decision. Defined.
#[local] Instance PbSnapshotInfo_countable : Countable PbSnapshotInfo.
Proof.
  refine (inj_countable' (λ r, (pb_sn_height r, pb_sn_chunks r, pb_sn_hash r))
            (λ '(x0, x1, x2), mkPbSnapshotInfo x0 x1 x2) _). by intros [].
Defined.
#[local] Instance PbAppInfo_eq_dec : EqDecision PbAppInfo.
Proof. solve_decision. Defined.
#[local] Instance PbAppInfo_countable : Countable PbAppInfo.
Proof.
  refine (inj_countable' (λ r, (pb_ai_last_block_height r, pb_ai_last_block_app_hash r))
            (λ '(x0, x1), mkPbAppInfo x0 x1) _). by intros [].
Defined.
#[local] Instance PbRequest_eq_dec : EqDecision PbRequest.
Proof. solve_decision. Defined.
#[local] Instance PbRequest_countable : Countable PbRequest.
Proof.
  refine (inj_countable' (λ r, match r with
  | PbReqCreatePayload y0 => (inl y0)
  | PbReqValidateBlock y0 y1 => (inr (inl (y0, y1)))
  | PbReqValidateTx y0 y1 => (inr (inr (inl (y0, y1))))
  | PbReqExecuteBlock y0 y1 => (inr (inr (inr (inl (y0, y1)))))
  | PbReqOnCommit y0 y1 => (inr (inr (inr (inr (inl (y0, y1))))))
  | PbReqOnEvidence y0 => (inr (inr (inr (inr (inr (inl y0))))))
  | PbReqQuery y0 y1 => (inr (inr (inr (inr (inr (inr (inl (y0, y1))))))))
  | PbReqInfo => (inr (inr (inr (inr (inr (inr (inr (inl ()))))))))
  | PbReqInitChain y0 => (inr (inr (inr (inr (inr (inr (inr (inr (inl y0)))))))))
  | PbReqOnOfflineValidators y0 => (inr (inr (inr (inr (inr (inr (inr (inr (inr (inl y0))))))))))
  | PbReqExtendVote y0 y1 => (inr (inr (inr (inr (inr (inr (inr (inr (inr (inr (inl (y0, y1))))))))))))
  | PbReqVerifyVoteExtension y0 y1 y2 => (inr (inr (inr (inr (inr (inr (inr (inr (inr (inr (inr (inl (y0, y1, y2)))))))))))))
  | PbReqListSnapshots => (inr (inr (inr (inr (inr (inr (inr (inr (inr (inr (inr (inr (inl ())))))))))))))
  | PbReqLoadSnapshotChunk y0 y1 => (inr (inr (inr (inr (inr (inr (inr (inr (inr (inr (inr (inr (inr (inl (y0, y1)))))))))))))))
  | PbReqOfferSnapshot y0 => (inr (inr (inr (inr (inr (inr (inr (inr (inr (inr (inr (inr (inr (inr (inl y0)))))))))))))))
  | PbReqApplySnapshotChunk y0 y1 => (inr (inr (inr (inr (inr (inr (inr (inr (inr (inr (inr (inr (inr (inr (inr (inl (y0, y1)))))))))))))))))
  | PbReqTracksAppHash => (inr (inr (inr (inr (inr (inr (inr (inr (inr (inr (inr (inr (inr (inr (inr (inr ()))))))))))))))))
  end)
  (λ s, match s with
  | (inl y0) => PbReqCreatePayload y0
  | (inr (inl (y0, y1))) => PbReqValidateBlock y0 y1
  | (inr (inr (inl (y0, y1)))) => PbReqValidateTx y0 y1
  | (inr (inr (inr (inl (y0, y1))))) => PbReqExecuteBlock y0 y1
  | (inr (inr (inr (inr (inl (y0, y1)))))) => PbReqOnCommit y0 y1
  | (inr (inr (inr (inr (inr (inl y0)))))) => PbReqOnEvidence y0
  | (inr (inr (inr (inr (inr (inr (inl (y0, y1)))))))) => PbReqQuery y0 y1
  | (inr (inr (inr (inr (inr (inr (inr (inl ())))))))) => PbReqInfo
  | (inr (inr (inr (inr (inr (inr (inr (inr (inl y0))))))))) => PbReqInitChain y0
  | (inr (inr (inr (inr (inr (inr (inr (inr (inr (inl y0)))))))))) => PbReqOnOfflineValidators y0
  | (inr (inr (inr (inr (inr (inr (inr (inr (inr (inr (inl (y0, y1)))))))))))) => PbReqExtendVote y0 y1
  | (inr (inr (inr (inr (inr (inr (inr (inr (inr (inr (inr (inl (y0, y1, y2))))))))))))) => PbReqVerifyVoteExtension y0 y1 y2
  | (inr (inr (inr (inr (inr (inr (inr (inr (inr (inr (inr (inr (inl ()))))))))))))) => PbReqListSnapshots
  | (inr (inr (inr (inr (inr (inr (inr (inr (inr (inr (inr (inr (inr (inl (y0, y1))))))))))))))) => PbReqLoadSnapshotChunk y0 y1
  | (inr (inr (inr (inr (inr (inr (inr (inr (inr (inr (inr (inr (inr (inr (inl y0))))))))))))))) => PbReqOfferSnapshot y0
  | (inr (inr (inr (inr (inr (inr (inr (inr (inr (inr (inr (inr (inr (inr (inr (inl (y0, y1))))))))))))))))) => PbReqApplySnapshotChunk y0 y1
  | (inr (inr (inr (inr (inr (inr (inr (inr (inr (inr (inr (inr (inr (inr (inr (inr ())))))))))))))))) => PbReqTracksAppHash
  end) _). by intros [].
Defined.
#[local] Instance PbResponse_eq_dec : EqDecision PbResponse.
Proof. solve_decision. Defined.
#[local] Instance PbResponse_countable : Countable PbResponse.
Proof.
  refine (inj_countable' (λ r, match r with
  | PbRespCreatePayload y0 => (inl y0)
  | PbRespValidateBlock y0 => (inr (inl y0))
  | PbRespValidateTx y0 y1 y2 => (inr (inr (inl (y0, y1, y2))))
  | PbRespExecuteBlock y0 y1 => (inr (inr (inr (inl (y0, y1)))))
  | PbRespOnCommit y0 => (inr (inr (inr (inr (inl y0)))))
  | PbRespOnEvidence y0 => (inr (inr (inr (inr (inr (inl y0))))))
  | PbRespQuery y0 y1 y2 y3 => (inr (inr (inr (inr (inr (inr (inl (y0, y1, y2, y3))))))))
  | PbRespInfo y0 => (inr (inr (inr (inr (inr (inr (inr (inl y0))))))))
  | PbRespInitChain y0 y1 => (inr (inr (inr (inr (inr (inr (inr (inr (inl (y0, y1))))))))))
  | PbRespOnOfflineValidators y0 => (inr (inr (inr (inr (inr (inr (inr (inr (inr (inl y0))))))))))
  | PbRespExtendVote y0 y1 => (inr (inr (inr (inr (inr (inr (inr (inr (inr (inr (inl (y0, y1))))))))))))
  | PbRespVerifyVoteExtension y0 => (inr (inr (inr (inr (inr (inr (inr (inr (inr (inr (inr (inl y0))))))))))))
  | PbRespListSnapshots y0 => (inr (inr (inr (inr (inr (inr (inr (inr (inr (inr (inr (inr (inl y0)))))))))))))
  | PbRespLoadSnapshotChunk y0 => (inr (inr (inr (inr (inr (inr (inr (inr (inr (inr (inr (inr (inr (inl y0))))))))))))))
  | PbRespOfferSnapshot y0 => (inr (inr (inr (inr (inr (inr (inr (inr (inr (inr (inr (inr (inr (inr (inl y0)))))))))))))))
  | PbRespApplySnapshotChunk y0 => (inr (inr (inr (inr (inr (inr (inr (inr (inr (inr (inr (inr (inr (inr (inr (inl y0))))))))))))))))
  | PbRespTracksAppHash y0 => (inr (inr (inr (inr (inr (inr (inr (inr (inr (inr (inr (inr (inr (inr (inr (inr y0))))))))))))))))
  end)
  (λ s, match s with
  | (inl y0) => PbRespCreatePayload y0
  | (inr (inl y0)) => PbRespValidateBlock y0
  | (inr (inr (inl (y0, y1, y2)))) => PbRespValidateTx y0 y1 y2
  | (inr (inr (inr (inl (y0, y1))))) => PbRespExecuteBlock y0 y1
  | (inr (inr (inr (inr (inl y0))))) => PbRespOnCommit y0
  | (inr (inr (inr (inr (inr (inl y0)))))) => PbRespOnEvidence y0
  | (inr (inr (inr (inr (inr (inr (inl (y0, y1, y2, y3)))))))) => PbRespQuery y0 y1 y2 y3
  | (inr (inr (inr (inr (inr (inr (inr (inl y0)))))))) => PbRespInfo y0
  | (inr (inr (inr (inr (inr (inr (inr (inr (inl (y0, y1)))))))))) => PbRespInitChain y0 y1
  | (inr (inr (inr (inr (inr (inr (inr (inr (inr (inl y0)))))))))) => PbRespOnOfflineValidators y0
  | (inr (inr (inr (inr (inr (inr (inr (inr (inr (inr (inl (y0, y1)))))))))))) => PbRespExtendVote y0 y1
  | (inr (inr (inr (inr (inr (inr (inr (inr (inr (inr (inr (inl y0)))))))))))) => PbRespVerifyVoteExtension y0
  | (inr (inr (inr (inr (inr (inr (inr (inr (inr (inr (inr (inr (inl y0))))))))))))) => PbRespListSnapshots y0
  | (inr (inr (inr (inr (inr (inr (inr (inr (inr (inr (inr (inr (inr (inl y0)))))))))))))) => PbRespLoadSnapshotChunk y0
  | (inr (inr (inr (inr (inr (inr (inr (inr (inr (inr (inr (inr (inr (inr (inl y0))))))))))))))) => PbRespOfferSnapshot y0
  | (inr (inr (inr (inr (inr (inr (inr (inr (inr (inr (inr (inr (inr (inr (inr (inl y0)))))))))))))))) => PbRespApplySnapshotChunk y0
  | (inr (inr (inr (inr (inr (inr (inr (inr (inr (inr (inr (inr (inr (inr (inr (inr y0)))))))))))))))) => PbRespTracksAppHash y0
  end) _). by intros [].
Defined.

(** ** The codec *)

Section Bits.
Context {T : Type} `{Countable T}.

Definition to_bits (m : T) : bytes := pos_bits (encode m).
Definition of_bits (bs : bytes) : option T := decode (bits_pos bs).

Lemma of_to_bits m : of_bits (to_bits m) = Some m.
Proof. unfold of_bits, to_bits. by rewrite bits_pos_bits, decode_encode. Qed.
End Bits.

#[export] Instance sample_prost : Prost := {|
  encode_request_to_vec := to_bits;
  request_decode := of_bits;
  encode_response_to_vec := to_bits;
  response_decode := of_bits;
  request_decode_encode := of_to_bits;
  response_decode_encode := of_to_bits;
|}.

(** ** The application

    A counter of executed blocks, whose transaction check accepts only the
    one-byte transaction [x01]. *)
#[export] Instance sample_handler : ApplicationHandler N := {|
  h_info h := (mkAppInfo h (replicate 32 x00), h);
  h_init_chain h _ := (inl (replicate 32 x00), h);
  h_create_payload h _ := ([], h);
  h_validate_block h _ _ := (true, h);
  h_validate_tx h tx _ := ((bool_decide (tx = [x01]), 0, 0), h);
  h_execute_block h _ _ := (inr "", h + 1);
  h_on_commit h _ _ := (inl tt, h);
  h_on_evidence h _ := (inl tt, h);
  h_on_offline_validators h _ := (inl tt, h);
  h_extend_vote h _ _ := (None, h);
  h_verify_vote_extension h _ _ _ := (true, h);
  h_query h _ _ := (inr "no such path", h);
  h_list_snapshots h := ([], h);
  h_load_snapshot_chunk h _ _ := ([], h);
  h_offer_snapshot h _ := (OfferReject, h);
  h_apply_snapshot_chunk h _ _ := (ApplyAbort, h);
  h_tracks_app_hash h := (true, h);
|}.
