(* ===== verification/AbciSafety.v ===== *)
(** * Correctness of the ABCI bridge

    The wire format is faithful and admits only well-formed data; a call reaches
    the application at most once unless it may be repeated, whatever the socket
    does; and on a working socket the bridge is transparent. *)

From S2P Require Import Prelude Types ValidatorSet World Sync Abci AbciSamples.

(** ** Well-formed messages *)

Record proof_ok (e : EquivocationProof) : Prop := {
  po_hash_a : length (ep_block_hash_a e) = 32%nat;
  po_signature_a : length (ep_signature_a e) = 64%nat;
  po_hash_b : length (ep_block_hash_b e) = 32%nat;
  po_signature_b : length (ep_signature_b e) = 64%nat;
}.

Record block_lengths (b : Block) : Prop := {
  bl_parent : length (b_parent_hash b) = 32%nat;
  bl_app : length (b_app_hash b) = 32%nat;
  bl_proofs : Forall proof_ok (b_evidence b);
  bl_hash : length (b_hash b) = 32%nat;
}.

Definition context_ok (c : BlockContext) : Prop := vs_wf (bc_validator_set c).

Definition request_ok (r : Request) : Prop :=
  match r with
  | ReqCreatePayload ctx | ReqExecuteBlock _ ctx => context_ok ctx
  | ReqValidateBlock block ctx | ReqOnCommit block ctx | ReqExtendVote block ctx =>
      block_lengths block ∧ context_ok ctx
  | ReqOnEvidence proof => proof_ok proof
  | ReqVerifyVoteExtension _ block_hash _ => length block_hash = 32%nat
  | ReqOfferSnapshot snapshot => length (si_hash snapshot) = 32%nat
  | _ => True
  end.

Record end_block_ok (r : EndBlockResponse) : Prop := {
  eo_keys : Forall (λ u, length (vu_public_key u) = 32%nat) (ebr_validator_updates r);
  eo_hash : length (ebr_app_hash r) = 32%nat;
}.

Definition response_ok (r : Response) : Prop :=
  match r with
  | AnsInfo info => length (ai_last_block_app_hash info) = 32%nat
  | AnsInitChain (inl h) => length h = 32%nat
  | AnsExecuteBlock (inl e) => end_block_ok e
  | AnsListSnapshots l => Forall (λ s, length (si_hash s) = 32%nat) l
  | _ => True
  end.

(** What the wire does not distinguish: an empty error text, and an empty proof. *)
Definition wire_error {A} (r : app_result A) : app_result A :=
  match r with inl a => inl a | inr _ => inr (encode_app_error r) end.
Definition wire_query (q : QueryResponse) : QueryResponse :=
  mkQueryResponse (qr_data q) (match qr_proof q with Some [] => None | p => p end) (qr_height q).
Definition wire (r : Response) : Response :=
  match r with
  | AnsInitChain r => AnsInitChain (wire_error r)
  | AnsExecuteBlock r => AnsExecuteBlock (wire_error r)
  | AnsOnCommit r => AnsOnCommit (wire_error r)
  | AnsOnEvidence r => AnsOnEvidence (wire_error r)
  | AnsOnOfflineValidators r => AnsOnOfflineValidators (wire_error r)
  | AnsQuery (inl q) => AnsQuery (inl (wire_query q))
  | AnsQuery r => AnsQuery (wire_error r)
  | r => r
  end.

(** ** Conversions *)

Lemma bytes_to_array_32_Ok bs h : bytes_to_array_32 bs = Ok h ↔ h = bs ∧ length bs = 32%nat.
Proof. unfold bytes_to_array_32. destruct (Nat.eqb_spec (length bs) 32); naive_solver. Qed.

Lemma bytes_to_signature_Ok bs h : bytes_to_signature bs = Ok h ↔ h = bs ∧ length bs = 64%nat.
Proof. unfold bytes_to_signature. destruct (Nat.eqb_spec (length bs) 64); naive_solver. Qed.

Lemma try_collect_fmap {X Y} (f : Y → res DecodeError X) (g : X → Y) (P : X → Prop) l :
  (∀ x, P x → f (g x) = Ok x) → Forall P l → try_collect f (g <$> l) = Ok l.
Proof.
  intros Hfg. induction 1 as [|x l Hx Hl IH]; [done|]. rewrite fmap_cons. cbn [try_collect].
  rewrite Hfg by done. cbn [mbind res_bind]. by rewrite IH.
Qed.

Lemma try_collect_Forall {X Y} (f : Y → res DecodeError X) (P : X → Prop) l k :
  (∀ y x, f y = Ok x → P x) → try_collect f l = Ok k → Forall P k.
Proof.
  intros Hf. revert k. induction l as [|y l IH]; intros k; cbn [try_collect].
  { intros [= <-]. constructor. }
  intros (x&Hx&(xs&Hxs&[= <-])%res_bind_Ok)%res_bind_Ok. constructor; eauto.
Qed.

Lemma proof_from_to e : proof_ok e → proof_from_pb (proof_to_pb e) = Ok e.
Proof.
  intros [Ha Hsa Hb Hsb]. destruct e as [v w t ep ha sa xa hb sb xb]. unfold proof_from_pb. simpl in *.
  assert ((if match t with TVote => 0 | TVote2 => 1 end =? 0 then Ok (E := DecodeError) TVote
           else if match t with TVote => 0 | TVote2 => 1 end =? 1 then Ok TVote2
           else Err InvalidMessage) = Ok t) as -> by by destruct t.
  simpl. unfold bytes_to_hash.
  rewrite (proj2 (bytes_to_array_32_Ok ha ha)) by done. simpl.
  rewrite (proj2 (bytes_to_signature_Ok sa sa)) by done. simpl.
  rewrite (proj2 (bytes_to_array_32_Ok hb hb)) by done. simpl.
  rewrite (proj2 (bytes_to_signature_Ok sb sb)) by done. simpl.
  by destruct xa, xb.
Qed.

Lemma proof_from_ok p e : proof_from_pb p = Ok e → proof_ok e.
Proof.
  unfold proof_from_pb. intros (t&_&(ha&[-> ?]%bytes_to_array_32_Ok&(sa&[-> ?]%bytes_to_signature_Ok&
    (hb&[-> ?]%bytes_to_array_32_Ok&(sb&[-> ?]%bytes_to_signature_Ok&[= <-])%res_bind_Ok)%res_bind_Ok)
    %res_bind_Ok)%res_bind_Ok)%res_bind_Ok. by split.
Qed.

Lemma block_from_to b : block_lengths b → block_from_pb (block_to_pb b) = Ok b.
Proof.
  intros [Hp Ha He Hh]. destruct b as [h ph v p t pl ah ev hs]. unfold block_from_pb, bytes_to_hash. simpl in *.
  rewrite (proj2 (bytes_to_array_32_Ok ph ph)) by done. simpl.
  rewrite (proj2 (bytes_to_array_32_Ok ah ah)) by done. simpl.
  rewrite (try_collect_fmap _ _ proof_ok) by (done || apply proof_from_to). simpl.
  by rewrite (proj2 (bytes_to_array_32_Ok hs hs)).
Qed.

Lemma block_from_ok p b : block_from_pb p = Ok b → block_lengths b.
Proof.
  unfold block_from_pb. intros (ph&[-> ?]%bytes_to_array_32_Ok&(ah&[-> ?]%bytes_to_array_32_Ok&
    (ev&Hev&(h&[-> ?]%bytes_to_array_32_Ok&[= <-])%res_bind_Ok)%res_bind_Ok)%res_bind_Ok)%res_bind_Ok.
  split; simpl; try done. eapply try_collect_Forall; [|done]. apply proof_from_ok.
Qed.

Lemma set_from_to vs : vs_wf vs → set_from_pb (set_to_pb vs) = Ok vs.
Proof.
  intros [Hi Ht Hx]. unfold set_from_pb. simpl.
  rewrite (try_collect_fmap _ _ (λ v, length (vi_public_key v) = 32%nat)); [| |apply (iw_key_len _ Hi)].
  - simpl. destruct vs as [l t x]. simpl in *. subst.
    by rewrite (proj2 (try_new_Ok l (mkValidatorSet l (total l) (build_index l)))).
  - intros [id k p] Hk. unfold validator_from_pb. simpl in *. unfold bytes_to_public_key.
    by rewrite (proj2 (bytes_to_array_32_Ok k k)).
Qed.

Lemma set_from_ok p vs : set_from_pb p = Ok vs → vs_wf vs.
Proof.
  unfold set_from_pb. intros (infos&_&E)%res_bind_Ok. destruct (try_new infos) eqn:En; simplify_eq.
  by eapply try_new_wf.
Qed.

Lemma context_from_to c : context_ok c → context_from_pb (context_to_pb c) = Ok c.
Proof.
  intros Hc. unfold context_from_pb. simpl. rewrite set_from_to by done. simpl.
  destruct c as [h v p e es vs t ve]. simpl. do 2 f_equal.
  clear Hc. induction ve as [|[id d] ve IH]; [done|]. rewrite !fmap_cons. by f_equal.
Qed.

Lemma context_from_ok p c : context_from_pb p = Ok c → context_ok c.
Proof.
  unfold context_from_pb. intros (vs&_&(vs'&Hvs&[= <-])%res_bind_Ok)%res_bind_Ok. by eapply set_from_ok.
Qed.

Lemma end_block_from_to r : end_block_ok r → end_block_from_pb (end_block_to_pb r) = Ok r.
Proof.
  intros [Hk Hh]. unfold end_block_from_pb. simpl.
  rewrite (try_collect_fmap _ _ (λ u, length (vu_public_key u) = 32%nat)); [| |done].
  - simpl. unfold bytes_to_hash. destruct r as [us evs h]. simpl in *.
    rewrite (proj2 (bytes_to_array_32_Ok h h)) by done. simpl. do 2 f_equal.
    clear Hk Hh. induction evs as [|[ty ats] evs IH]; [done|]. rewrite !fmap_cons. f_equal; [|done].
    unfold event_from_pb, event_to_pb. simpl. f_equal.
    induction ats as [|[k v] ats IHa]; [done|]. rewrite !fmap_cons. by f_equal.
  - intros [id k p] Hu. unfold update_from_pb, bytes_to_public_key. simpl in *.
    by rewrite (proj2 (bytes_to_array_32_Ok k k)).
Qed.

Lemma end_block_from_ok p r : end_block_from_pb p = Ok r → end_block_ok r.
Proof.
  unfold end_block_from_pb. intros (us&Hus&(h&[-> ?]%bytes_to_array_32_Ok&[= <-])%res_bind_Ok)%res_bind_Ok.
  split; simpl; [|done]. eapply try_collect_Forall; [|done]. intros u u'. unfold update_from_pb.
  intros (k&[-> ?]%bytes_to_array_32_Ok&[= <-])%res_bind_Ok. done.
Qed.

Lemma snapshot_from_to s : length (si_hash s) = 32%nat → snapshot_from_pb (snapshot_to_pb s) = Ok s.
Proof.
  intros Hl. destruct s as [h c hs]. unfold snapshot_from_pb. simpl in *.
  by rewrite (proj2 (bytes_to_array_32_Ok hs hs)).
Qed.

Lemma snapshot_from_ok p s : snapshot_from_pb p = Ok s → length (si_hash s) = 32%nat.
Proof. unfold snapshot_from_pb. by intros (h&[-> ?]%bytes_to_array_32_Ok&[= <-])%res_bind_Ok. Qed.

(** ** The wire *)

Section Wire.
Context `{Prost}.

Lemma block_and_context_from_to b c :
  block_lengths b → context_ok c →
  block_and_context (Some (block_to_pb b)) (Some (context_to_pb c)) = Ok (b, c).
Proof.
  intros Hb Hc. unfold block_and_context. simpl. rewrite block_from_to by done. simpl.
  by rewrite context_from_to.
Qed.

Lemma block_and_context_ok b c b' c' :
  block_and_context b c = Ok (b', c') → block_lengths b' ∧ context_ok c'.
Proof.
  unfold block_and_context. intros (pb&_&(b1&Hb&(pc&_&(c1&Hc&[= <- <-])%res_bind_Ok)%res_bind_Ok)
    %res_bind_Ok)%res_bind_Ok. eauto using block_from_ok, context_from_ok.
Qed.

Lemma decode_encode_request r : request_ok r → decode_request (encode_request r) = Ok r.
Proof.
  intros Hr. unfold decode_request, encode_request. rewrite request_decode_encode. simpl.
  destruct r; simpl in *; try done.
  - by rewrite context_from_to.
  - destruct Hr. by rewrite block_and_context_from_to.
  - by destruct ctx as [[]|].
  - by rewrite context_from_to.
  - destruct Hr. by rewrite block_and_context_from_to.
  - by rewrite proof_from_to.
  - rewrite (try_collect_fmap _ _ (λ _, True)); [done| |by apply Forall_true]. by intros [].
  - destruct Hr. by rewrite block_and_context_from_to.
  - by rewrite (proj2 (bytes_to_array_32_Ok block_hash block_hash)).
  - by rewrite snapshot_from_to.
Qed.

Lemma decode_request_ok buf r : decode_request buf = Ok r → request_ok r.
Proof.
  unfold decode_request. intros (o&_&(p&_&E)%res_bind_Ok)%res_bind_Ok.
  destruct p; simpl in E; try (by simplify_eq).
  - apply res_bind_Ok in E as (c&Hc&[= <-]). by eapply context_from_ok.
  - apply res_bind_Ok in E as ([b c]&Hb&[= <-]). by eapply block_and_context_ok.
  - apply res_bind_Ok in E as (c&_&(c'&Hc&[= <-])%res_bind_Ok). by eapply context_from_ok.
  - apply res_bind_Ok in E as ([b c]&Hb&[= <-]). by eapply block_and_context_ok.
  - apply res_bind_Ok in E as (q&Hq&[= <-]). by eapply proof_from_ok.
  - apply res_bind_Ok in E as (l&_&[= <-]). done.
  - apply res_bind_Ok in E as ([b c]&Hb&[= <-]). by eapply block_and_context_ok.
  - apply res_bind_Ok in E as (h&[-> ?]%bytes_to_array_32_Ok&[= <-]). done.
  - apply res_bind_Ok in E as (s&_&(s'&Hs&[= <-])%res_bind_Ok). by eapply snapshot_from_ok.
Qed.

Lemma encode_app_error_Err {X} msg : encode_app_error (inr msg : app_result X) ≠ "".
Proof. simpl. destruct (String.eqb_spec msg ""); done. Qed.

Lemma decode_app_error_wire (r : app_result unit) :
  decode_app_error (encode_app_error r) () = wire_error r.
Proof.
  unfold decode_app_error. destruct r as [[]|msg]; [done|].
  pose proof (encode_app_error_Err (X := unit) msg) as Hne.
  destruct (String.eqb_spec (encode_app_error (inr msg : app_result unit)) ""); done.
Qed.

Lemma decode_encode_response r : response_ok r → decode_response (encode_response r) = Ok (wire r).
Proof.
  intros Hr. unfold decode_response, encode_response. rewrite response_decode_encode. cbn [ok_or mbind res_bind].
  destruct r; cbn [response_to_pb response_from_pb wire]; try done.
  - destruct info as [h hs]. simpl in *. unfold app_info_from_proto. simpl.
    by rewrite (proj2 (bytes_to_array_32_Ok hs hs)).
  - destruct r as [h|msg].
    + simpl in *. by rewrite (proj2 (bytes_to_array_32_Ok h h)).
    + pose proof (encode_app_error_Err (X := BlockHash) msg) as Hne.
      by destruct (String.eqb_spec (encode_app_error (inr msg : app_result BlockHash)) "").
  - destruct r as [e|msg].
    + simpl in *. by rewrite end_block_from_to.
    + pose proof (encode_app_error_Err (X := EndBlockResponse) msg) as Hne.
      by destruct (String.eqb_spec (encode_app_error (inr msg : app_result EndBlockResponse)) "").
  - by rewrite decode_app_error_wire.
  - by rewrite decode_app_error_wire.
  - by rewrite decode_app_error_wire.
  - by destruct extension.
  - destruct r as [q|msg].
    + unfold decode_app_error, wire_query. simpl. destruct q as [d [[|]|] h]; done.
    + pose proof (encode_app_error_Err (X := QueryResponse) msg) as Hne. unfold decode_app_error.
      by destruct (String.eqb_spec (encode_app_error (inr msg : app_result QueryResponse)) "").
  - rewrite (try_collect_fmap _ _ (λ s, length (si_hash s) = 32%nat)); [done| |done].
    apply snapshot_from_to.
  - by destruct r.
  - by destruct r.
Qed.

Lemma decode_response_ok buf r : decode_response buf = Ok r → response_ok r.
Proof.
  unfold decode_response. intros (o&_&(p&_&E)%res_bind_Ok)%res_bind_Ok.
  destruct p; cbn [response_from_pb] in E; try (by simplify_eq).
  - destruct (String.eqb error ""); [|by simplify_eq].
    apply res_bind_Ok in E as (e&_&(e'&He&[= <-])%res_bind_Ok). by eapply end_block_from_ok.
  - apply res_bind_Ok in E as (i&_&(i'&(h&[-> ?]%bytes_to_array_32_Ok&[= <-])%res_bind_Ok&[= <-])%res_bind_Ok).
    done.
  - destruct (String.eqb error ""); [|by simplify_eq].
    apply res_bind_Ok in E as (h&[-> ?]%bytes_to_array_32_Ok&[= <-]). done.
  - apply res_bind_Ok in E as (l&Hl&[= <-]). simpl. eapply try_collect_Forall; [|done]. apply snapshot_from_ok.
  - apply res_bind_Ok in E as (r'&_&[= <-]). done.
  - apply res_bind_Ok in E as (r'&_&[= <-]). done.
Qed.
End Wire.

(** ** Frames *)

Lemma write_frame_Some p bs :
  write_frame p = Some bs ↔
    N.of_nat (length p) ≤ MAX_FRAME_SIZE ∧ bs = u32_le (N.of_nat (length p)) ++ p.
Proof.
  unfold write_frame. destruct (N.ltb_spec MAX_FRAME_SIZE (N.of_nat (length p))) as [Hlt|Hle].
  - split; [done|]. intros [? _]. lia.
  - rewrite N.mod_small by (unfold MAX_FRAME_SIZE, u32_max in *; lia). naive_solver.
Qed.

Lemma read_write_frame p bs rest :
  write_frame p = Some bs → read_frame (bs ++ rest) = Some (p, rest).
Proof.
  intros [Hle ->]%write_frame_Some. unfold read_frame. rewrite <- app_assoc.
  rewrite length_app, length_u32_le. destruct (Nat.ltb_spec (4 + length (p ++ rest)) 4); [lia|].
  rewrite take_app_length' by by rewrite length_u32_le. rewrite drop_app_length' by by rewrite length_u32_le.
  rewrite le_u32_u32_le by (unfold MAX_FRAME_SIZE, u32_max in *; lia).
  destruct (N.ltb_spec MAX_FRAME_SIZE (N.of_nat (length p))); [lia|].
  rewrite length_app. destruct (N.ltb_spec (N.of_nat (length p + length rest)) (N.of_nat (length p))); [lia|].
  rewrite Nat2N.id, take_app_length, drop_app_length. done.
Qed.

(** A frame that was not written completely is not read. *)
Lemma read_frame_partial p bs n :
  write_frame p = Some bs → (n < length bs)%nat → read_frame (take n bs) = None.
Proof.
  intros [Hle ->]%write_frame_Some. rewrite length_app, length_u32_le. intros Hn. unfold read_frame.
  rewrite length_take, length_app, length_u32_le.
  destruct (Nat.ltb_spec (n `min` (4 + length p)) 4) as [?|H4]; [done|].
  rewrite take_take, Nat.min_l by lia. rewrite take_app_length' by by rewrite length_u32_le.
  rewrite le_u32_u32_le by (unfold MAX_FRAME_SIZE, u32_max in *; lia).
  destruct (N.ltb_spec MAX_FRAME_SIZE (N.of_nat (length p))); [done|].
  rewrite length_drop, length_take, length_app, length_u32_le.
  destruct (N.ltb_spec (N.of_nat (n `min` (4 + length p) - 4)) (N.of_nat (length p))); [done|lia].
Qed.

(** ** Serving *)

Section Serving.
Context `{Prost} {A : Type} `{!ApplicationHandler A}.
Implicit Types (c : Client (A := A)) (h : A) (req : Request).

(** What serving a request does to the application. *)
Definition served_by h req : A := (dispatch h req).2.

Lemma serve_frame_request h req :
  request_ok req →
  serve_frame h (encode_request req) = (write_frame (encode_response (dispatch h req).1), served_by h req).
Proof.
  intros Hr. unfold serve_frame, served_by. rewrite decode_encode_request by done. by destruct (dispatch h req).
Qed.

(** The model of the server behind the client is [handle_connection]. *)
Lemma serve_received_connection fuel h served received unread :
  let '(h', _, cn) := serve_received fuel h served (mkConn received unread true) in
  (cn_unread cn, h') = (unread ++ (handle_connection fuel h received).1, (handle_connection fuel h received).2).
Proof.
  revert h served received unread. induction fuel as [|fuel IH]; intros h served received unread;
    cbn [serve_received handle_connection cn_open cn_received cn_unread negb].
  { by rewrite app_nil_r. }
  destruct (read_frame received) as [[frame rest]|]; [|by rewrite app_nil_r].
  destruct (serve_frame h frame) as [[out|] h1]; [|by rewrite app_nil_r].
  set (served' := match decode_request frame with Ok req => req :: served | _ => served end).
  specialize (IH h1 served' rest (unread ++ out)).
  destruct (serve_received fuel h1 served' _) as [[h2 s2] cn]. injection IH as -> ->.
  destruct (handle_connection fuel h1 rest) as [outs h3]. simpl. by rewrite app_assoc.
Qed.

(** No request is in flight: there is no connection, or an idle one. *)
Definition idle : Conn := mkConn [] [] true.
Definition clean c : Prop := cl_conn c = None ∨ cl_conn c = Some idle.

Lemma serve_received_nothing fuel h served cn :
  read_frame (cn_received cn) = None → serve_received fuel h served cn = (h, served, cn).
Proof. intros E. destruct fuel; simpl; [done|]. rewrite E. by destruct (cn_open cn). Qed.

Lemma serve_received_one h served req frame :
  request_ok req → write_frame (encode_request req) = Some frame →
  serve_received (length frame) h served (mkConn frame [] true) =
    (served_by h req, req :: served,
     match write_frame (encode_response (dispatch h req).1) with
     | Some out => mkConn [] out true
     | None => mkConn [] [] false
     end).
Proof.
  intros Hr Hf. assert (∃ n, length frame = S n) as [n ->].
  { apply write_frame_Some in Hf as [_ ->]. rewrite length_app, length_u32_le. simpl. by eexists. }
  cbn [serve_received cn_open cn_received cn_unread negb].
  rewrite <- (app_nil_r frame), (read_write_frame _ _ _ Hf), serve_frame_request by done.
  rewrite decode_encode_request by done.
  destruct (write_frame (encode_response (dispatch h req).1)) as [out|]; [|done].
  by rewrite serve_received_nothing.
Qed.

(** *** One attempt *)

(** What one attempt did: nothing, or it had the request served once. *)
Definition nothing_served c c' : Prop := cl_served c' = cl_served c ∧ cl_handler c' = cl_handler c.
Definition served_once req c c' : Prop :=
  cl_served c' = req :: cl_served c ∧ cl_handler c' = served_by (cl_handler c) req.

Lemma next_attempt_frame c :
  let '(_, c') := next_attempt c in
  cl_conn c' = cl_conn c ∧ cl_served c' = cl_served c ∧ cl_handler c' = cl_handler c.
Proof. unfold next_attempt. by destruct (cl_attempts c). Qed.

Lemma deliver_spec a req frame n c :
  request_ok req → write_frame (encode_request req) = Some frame → (n ≤ length frame)%nat →
  let c' := deliver a (take n frame) idle c in
  (nothing_served c c' ∧ cl_conn c' = Some (mkConn (take n frame) [] true)) ∨
  (n = length frame ∧ served_once req c c' ∧
   cl_conn c' = Some (match write_frame (encode_response (dispatch (cl_handler c) req).1) with
                      | Some out => mkConn [] out true
                      | None => mkConn [] [] false
                      end)).
Proof.
  intros Hr Hf Hn. unfold deliver, idle. cbn [cn_received cn_unread cn_open app].
  destruct (at_server a); [|by left].
  destruct (decide (n = length frame)) as [->|Hne].
  - rewrite take_ge by done. right. rewrite (serve_received_one _ _ req) by done. done.
  - left. rewrite serve_received_nothing; [done|]. simpl. eapply read_frame_partial; [done|lia].
Qed.

Lemma call_once_spec req c :
  clean c → request_ok req →
  let '(r, c') := call_once (encode_request req) c in
  match r with
  | Ok bs => served_once req c c' ∧ cl_conn c' = Some idle ∧
      bs = encode_response (dispatch (cl_handler c) req).1
  | Err (FailWrite 0) | Err FailConnect => nothing_served c c'
  | Err _ => nothing_served c c' ∨ served_once req c c'
  | Panic => False
  end.
Proof.
  intros Hcl Hr. unfold call_once. pose proof (next_attempt_frame c) as Hn.
  destruct (next_attempt c) as [a c1]. destruct Hn as (Hcn&Hs&Hh).
  assert (match cl_conn c1 with
          | Some cn => Some cn
          | None => if at_connect a && at_setopt a then Some (mkConn [] [] true) else None
          end = None ∨
          match cl_conn c1 with
          | Some cn => Some cn
          | None => if at_connect a && at_setopt a then Some (mkConn [] [] true) else None
          end = Some idle) as [-> | ->].
  { rewrite Hcn. destruct Hcl as [-> | ->]; [|by right]. destruct (_ && _); [by right|by left]. }
  { by split. }
  destruct (write_frame (encode_request req)) as [frame|] eqn:Hf; [|by split].
  assert (∀ c', nothing_served c1 c' → nothing_served c c') as Hno.
  { intros c' [E1 E2]. split; congruence. }
  assert (∀ c', served_once req c1 c' → served_once req c c') as Hone.
  { intros c' [E1 E2]. split; congruence. }
  destruct (at_write a) as [n|].
  - pose proof (deliver_spec a req frame (N.to_nat (N.min n (N.of_nat (length frame)))) c1 Hr Hf ltac:(lia)) as Hd.
    destruct (N.min n (N.of_nat (length frame))) as [|q] eqn:En.
    + destruct Hd as [[Hd _]|[Hl _]]; [by apply Hno|]. apply write_frame_Some in Hf as [_ ->].
      rewrite length_app, length_u32_le in Hl. simpl in Hl. lia.
    + destruct Hd as [[Hd _]|(_&Hd&_)]; [left; by apply Hno|right; by apply Hone].
  - pose proof (deliver_spec a req frame (length frame) c1 Hr Hf ltac:(lia)) as Hd.
    rewrite take_ge in Hd by done. set (c2 := deliver a frame idle c1) in *.
    destruct Hd as [[Hd Hc2]|(_&Hd&Hc2)]; rewrite Hc2.
    + destruct (at_read a); cbn [cn_unread]; [|left; by apply Hno..].
      change (read_frame []) with (@None (bytes * bytes)). left. by apply Hno.
    + destruct (at_read a); [|right; by apply Hone..]. rewrite Hh in Hc2 |- *.
      destruct (write_frame (encode_response (dispatch (cl_handler c) req).1)) as [out|] eqn:Ho.
      * cbn [cn_unread]. rewrite <- (app_nil_r out), (read_write_frame _ _ _ Ho).
        split_and!; [|done|done]. by apply Hone.
      * change (read_frame (cn_unread (mkConn [] [] false))) with (@None (bytes * bytes)).
        right. by apply Hone.
Qed.

(** *** A call *)

Definition served_times (n : nat) req c c' : Prop :=
  cl_served c' = replicate n req ++ cl_served c ∧
  cl_handler c' = Nat.iter n (λ h, served_by h req) (cl_handler c).

Lemma served_times_0 req c c' : nothing_served c c' → served_times 0 req c c'.
Proof. done. Qed.
Lemma served_times_1 req c c' : served_once req c c' → served_times 1 req c c'.
Proof. done. Qed.

Lemma served_times_app m n req c1 c2 c3 :
  served_times m req c1 c2 → served_times n req c2 c3 → served_times (n + m) req c1 c3.
Proof.
  intros [H1 H2] [H3 H4]. split.
  - by rewrite H3, H1, app_assoc, <- replicate_add.
  - by rewrite H4, H2, <- Nat.iter_add.
Qed.

Lemma set_conn_times n req c conn c' : served_times n req (set_conn c conn) c' ↔ served_times n req c c'.
Proof. done. Qed.
Lemma times_set_conn n req c conn c' : served_times n req c c' → served_times n req c (set_conn c' conn).
Proof. done. Qed.

(** The second attempt, on a new connection. *)
Lemma retry_spec req c :
  request_ok req →
  let '(r, c') := call_once (encode_request req) (set_conn c None) in
  ∃ n, (n ≤ 1)%nat ∧ served_times n req c c' ∧
    ∀ bs, r = Ok bs → n = 1%nat ∧ cl_conn c' = Some idle ∧
      bs = encode_response (dispatch (cl_handler c) req).1.
Proof.
  intros Hr. pose proof (call_once_spec req (set_conn c None) ltac:(by left) Hr) as Hs.
  destruct (call_once _ _) as [[bs|[|[|q]|]|] c'].
  - destruct Hs as (Hs&Hi&->). exists 1%nat. split_and!; [done|by apply served_times_1|]. by intros bs [= <-].
  - exists 0%nat. split_and!; [lia|by apply served_times_0|done].
  - exists 0%nat. split_and!; [lia|by apply served_times_0|done].
  - destruct Hs as [Hs|Hs]; [exists 0%nat|exists 1%nat]; (split_and!; [lia|done|done]).
  - destruct Hs as [Hs|Hs]; [exists 0%nat|exists 1%nat]; (split_and!; [lia|done|done]).
  - done.
Qed.

(** The outcome of a call: how often the request was served, and what a reply
    says. *)
Definition call_post req c (r : option Response) c' : Prop :=
  ∃ n, (n ≤ (if may_retry_after_write req then 2 else 1))%nat ∧ served_times n req c c' ∧
    ∀ resp, r = Some resp →
      (1 ≤ n)%nat ∧ cl_conn c' = Some idle ∧
      decode_response (encode_response
        (dispatch (Nat.iter (n - 1) (λ h, served_by h req) (cl_handler c)) req).1) = Ok resp.

Lemma call_post_none n req c c' :
  (n ≤ 1)%nat → served_times n req c c' → call_post req c None c'.
Proof. intros Hn Ht. exists n. split_and!; [destruct (may_retry_after_write req); lia|done..]. Qed.

Lemma call_post_some n req c c' bs :
  (1 ≤ n ≤ (if may_retry_after_write req then 2 else 1))%nat → served_times n req c c' →
  cl_conn c' = Some idle →
  bs = encode_response (dispatch (Nat.iter (n - 1) (λ h, served_by h req) (cl_handler c)) req).1 →
  call_post req c (match decode_response bs with Ok resp => Some resp | _ => None end) c'.
Proof.
  intros Hn Ht Hi ->. exists n. split_and!; [lia|done|]. intros resp E. split_and!; [lia|done|].
  by case_match; simplify_eq.
Qed.

Lemma second_attempt req c c1 :
  request_ok req → nothing_served c c1 ∨ (may_retry_after_write req = true ∧ served_once req c c1) →
  let '(r, c') :=
    let '(reply, c') :=
      let '(r, c') := call_once (encode_request req) (set_conn c1 None) in
      (match r with Ok bs => Some bs | _ => None end, c') in
    match reply with
    | None => (None, c')
    | Some bs => (match decode_response bs with Ok resp => Some resp | _ => None end, c')
    end in
  call_post req c r c'.
Proof.
  intros Hr Hc1. pose proof (retry_spec req c1 Hr) as Hrt.
  destruct (call_once _ (set_conn c1 None)) as [r c']. destruct Hrt as (n&Hn&Hst&Hok).
  assert (∃ m, (n + m ≤ (if may_retry_after_write req then 2 else 1))%nat ∧ served_times (n + m) req c c' ∧
            cl_handler c1 = Nat.iter m (λ h, served_by h req) (cl_handler c)) as (m&Hm&Ht&Hh).
  { destruct Hc1 as [Hc1|[Hm Hc1]]; [exists 0%nat|exists 1%nat].
    - split; [destruct (may_retry_after_write req); lia|].
      split; [eapply served_times_app; [by apply served_times_0|done]|]. apply Hc1.
    - rewrite Hm. split; [lia|]. split; [eapply served_times_app; [by apply served_times_1|done]|]. apply Hc1. }
  destruct r as [bs|e|]; [|by exists (n + m)%nat..].
  destruct (Hok bs eq_refl) as (->&Hi&->). apply (call_post_some (1 + m)); [lia|done|done|].
  rewrite Hh. by replace (1 + m - 1)%nat with m by lia.
Qed.

Lemma call_spec req c :
  clean c → request_ok req → let '(r, c') := call req c in call_post req c r c'.
Proof.
  intros Hcl Hr. unfold call. destruct (bool_decide _ && _).
  { pose proof (next_attempt_frame c) as Hn. destruct (next_attempt c) as [a c1]. destruct Hn as (_&Hs&Hh).
    by apply (call_post_none 0); [lia|]. }
  pose proof (call_once_spec req c Hcl Hr) as Hs.
  destruct (call_once (encode_request req) c) as [[bs|[|[|q]|]|] c1].
  - destruct Hs as (Hs&Hi&->). apply (call_post_some 1); [destruct (may_retry_after_write req); lia|done..].
  - by apply (call_post_none 0); [lia|].
  - apply second_attempt; [done|by left].
  - destruct Hs as [Hs|Hs]; [by apply (call_post_none 0); [lia|]|by apply (call_post_none 1)].
  - destruct (may_retry_after_write req) eqn:Hm.
    + apply second_attempt; [done|]. destruct Hs; [by left|by right].
    + destruct Hs as [Hs|Hs]; [by apply (call_post_none 0); [lia|]|by apply (call_post_none 1)].
  - done.
Qed.

Lemma commit_path_not_retried req : is_commit_path req = true → may_retry_after_write req = false.
Proof. by destruct req. Qed.

(** *** A working socket *)

(** The request and its response are well-formed and fit in frames. *)
Record bridgeable c req : Prop := {
  br_request : request_ok req;
  br_response : response_ok (dispatch (cl_handler c) req).1;
  br_request_fits : N.of_nat (length (encode_request req)) ≤ MAX_FRAME_SIZE;
  br_response_fits : N.of_nat (length (encode_response (dispatch (cl_handler c) req).1)) ≤ MAX_FRAME_SIZE;
}.

(** The client after a served request. *)
Definition after c req : Client :=
  mkClient (Some idle) (cl_tracks_app_hash_cache c) (served_by (cl_handler c) req) (req :: cl_served c) [].

Lemma call_works req c :
  clean c → cl_attempts c = [] → bridgeable c req →
  call req c = (Some (wire (dispatch (cl_handler c) req).1), after c req).
Proof.
  intros Hcl Hat [Hr Ha Hf Hg].
  assert (write_frame (encode_request req) = Some (u32_le (N.of_nat (length (encode_request req))) ++ encode_request req))
    as Hw by by apply write_frame_Some.
  set (frame := u32_le _ ++ encode_request req) in Hw.
  assert (∃ out, write_frame (encode_response (dispatch (cl_handler c) req).1) = Some out) as [out Ho].
  { eexists. by apply write_frame_Some. }
  assert (call_once (encode_request req) c =
    (Ok (encode_response (dispatch (cl_handler c) req).1), after c req)) as E.
  { unfold call_once, next_attempt. rewrite Hat. cbn [at_connect at_setopt Attempt_ok andb].
    assert (match cl_conn c with Some cn => Some cn | None => Some (mkConn [] [] true) end = Some idle) as ->
      by by destruct Hcl as [-> | ->].
    rewrite Hw. cbn [at_write Attempt_ok]. unfold deliver, idle. cbn [at_server Attempt_ok cn_received cn_unread cn_open app].
    rewrite (serve_received_one _ _ req), Ho by done. cbn [cl_conn at_read Attempt_ok cn_unread].
    rewrite <- (app_nil_r out), (read_write_frame _ _ _ Ho). unfold after, set_conn. simpl. by rewrite Hat. }
  unfold call. rewrite E. unfold peek_attempt. rewrite Hat, andb_false_r. by rewrite decode_encode_response.
Qed.

(** ** Properties *)

(** What reaches the application is well-typed and is what was sent: any
    bytes that the server accepts decode to a request with 32-byte hashes,
    64-byte signatures and a well-formed validator set, and any bytes that the
    client accepts to a response with 32-byte hashes and keys; a well-formed
    request decodes to itself, and a well-formed response to itself up to an
    empty error text, which becomes a non-empty one so that a failure stays a
    failure, and an empty proof, which becomes none. *)
Lemma wire_well_typed :
  (∀ buf r, decode_request buf = Ok r → request_ok r) ∧
  (∀ buf r, decode_response buf = Ok r → response_ok r) ∧
  (∀ r, request_ok r → decode_request (encode_request r) = Ok r) ∧
  (∀ r, response_ok r → decode_response (encode_response r) = Ok (wire r)) ∧
  (∀ {X} (r : app_result X), ok_of (wire_error r) = ok_of r) ∧
  (∀ p bs rest, write_frame p = Some bs → read_frame (bs ++ rest) = Some (p, rest)).
Proof.
  split_and!.
  - apply decode_request_ok.
  - apply decode_response_ok.
  - apply decode_encode_request.
  - apply decode_encode_response.
  - by intros X [].
  - intros p bs rest. apply read_write_frame.
Qed.

(** C29: A call on a connection with nothing in flight (none yet, or an idle
    one).  Whatever the socket does during the call - failing to connect, writing
    part of the request, losing or delaying the reply, breaking - the
    application serves the request at most once, or at most twice when the
    request may be repeated, which no request of the commit path may; and when
    the call returns a response, it is the application's response to this
    request, in the state it was in when it last served it, and the connection is
    again left without anything in flight.  A call whose second attempt fails can
    leave a reply in flight, which [stale_reply] follows into the next call. *)
Theorem call_served_at_most_once req c r c' :
  clean c → request_ok req → call req c = (r, c') →
  ∃ n, (n ≤ (if may_retry_after_write req then 2 else 1))%nat ∧
    (is_commit_path req = true → (n ≤ 1)%nat) ∧
    cl_served c' = replicate n req ++ cl_served c ∧
    cl_handler c' = Nat.iter n (λ h, (dispatch h req).2) (cl_handler c) ∧
    ∀ resp, r = Some resp → ∃ m, n = S m ∧ clean c' ∧
      let sent := (dispatch (Nat.iter m (λ h, (dispatch h req).2) (cl_handler c)) req).1 in
      decode_response (encode_response sent) = Ok resp ∧ (response_ok sent → resp = wire sent).
Proof.
  intros Hcl Hr E. pose proof (call_spec req c Hcl Hr) as Hc. rewrite E in Hc.
  destruct Hc as (n&Hn&[Hs Hh]&Hok). exists n. split_and!; [done| |done..|].
  { intros Hp. by rewrite commit_path_not_retried in Hn. }
  intros resp Hresp. destruct (Hok resp Hresp) as (H1&Hi&Hd). exists (n - 1)%nat.
  split; [lia|]. split; [by right|]. split; [done|].
  intros Ha. rewrite decode_encode_response in Hd by done. by simplify_eq.
Qed.

(** C30: On a working socket the bridge is transparent: each method of the client
    returns what the application's own method returns, and leaves the
    application in the same state; a query response loses only an empty proof. *)
Theorem bridge_transparent c :
  clean c → cl_attempts c = [] → cl_tracks_app_hash_cache c = None →
  let h := cl_handler c in
  let good := bridgeable c in
  (good ReqInfo → ipc_info c = (Ok (h_info h).1, after c ReqInfo)) ∧
  (∀ s, good (ReqInitChain s) → ipc_init_chain c s = (ok_of (h_init_chain h s).1, after c (ReqInitChain s))) ∧
  (∀ x, good (ReqCreatePayload x) → ipc_create_payload c x = ((h_create_payload h x).1, after c (ReqCreatePayload x))) ∧
  (∀ b x, good (ReqValidateBlock b x) →
     ipc_validate_block c b x = ((h_validate_block h b x).1, after c (ReqValidateBlock b x))) ∧
  (∀ t x, good (ReqValidateTx t x) →
     let '(ok, priority, gas) := (h_validate_tx h t x).1 in
     ipc_validate_tx c t x = (mkTxValidationResult ok priority gas, after c (ReqValidateTx t x))) ∧
  (∀ txs x, good (ReqExecuteBlock txs x) →
     ipc_execute_block c txs x = (ok_of (h_execute_block h txs x).1, after c (ReqExecuteBlock txs x))) ∧
  (∀ b x, good (ReqOnCommit b x) → ipc_on_commit c b x = (ok_of (h_on_commit h b x).1, after c (ReqOnCommit b x))) ∧
  (∀ p, good (ReqOnEvidence p) → ipc_on_evidence c p = (ok_of (h_on_evidence h p).1, after c (ReqOnEvidence p))) ∧
  (∀ l, good (ReqOnOfflineValidators l) →
     ipc_on_offline_validators c l = (ok_of (h_on_offline_validators h l).1, after c (ReqOnOfflineValidators l))) ∧
  (∀ b x, good (ReqExtendVote b x) → ipc_extend_vote c b x = ((h_extend_vote h b x).1, after c (ReqExtendVote b x))) ∧
  (∀ e bh v, good (ReqVerifyVoteExtension e bh v) →
     ipc_verify_vote_extension c e bh v = ((h_verify_vote_extension h e bh v).1, after c (ReqVerifyVoteExtension e bh v))) ∧
  (∀ p d, good (ReqQuery p d) → ipc_query c p d = (wire_query <$> ok_of (h_query h p d).1, after c (ReqQuery p d))) ∧
  (good ReqListSnapshots → ipc_list_snapshots c = ((h_list_snapshots h).1, after c ReqListSnapshots)) ∧
  (∀ y i, good (ReqLoadSnapshotChunk y i) →
     ipc_load_snapshot_chunk c y i = ((h_load_snapshot_chunk h y i).1, after c (ReqLoadSnapshotChunk y i))) ∧
  (∀ s, good (ReqOfferSnapshot s) → ipc_offer_snapshot c s = ((h_offer_snapshot h s).1, after c (ReqOfferSnapshot s))) ∧
  (∀ k i, good (ReqApplySnapshotChunk k i) →
     ipc_apply_snapshot_chunk c k i = ((h_apply_snapshot_chunk h k i).1, after c (ReqApplySnapshotChunk k i))) ∧
  (good ReqTracksAppHash → ipc_tracks_app_hash c =
     ((h_tracks_app_hash h).1, set_cache (after c ReqTracksAppHash) (Some (h_tracks_app_hash h).1))).
Proof.
  intros Hcl Hat Hca h good. unfold good.
  split_and!; intros;
    unfold ipc_info, ipc_init_chain, ipc_create_payload, ipc_validate_block, ipc_validate_tx,
      ipc_execute_block, ipc_on_commit, ipc_on_evidence, ipc_on_offline_validators, ipc_extend_vote,
      ipc_verify_vote_extension, ipc_query, ipc_list_snapshots, ipc_load_snapshot_chunk,
      ipc_offer_snapshot, ipc_apply_snapshot_chunk, ipc_tracks_app_hash;
    rewrite ?Hca; try (rewrite call_works by done); fold h; simpl.
  all: try done.
  all: try (match goal with |- context [wire_error ?r] => by destruct r end).
  by destruct (h_validate_tx h t x) as [[[ok pr] gas] h'].
Qed.
End Serving.

(** ** Witnesses *)

(** The application answers, but too late. *)
Definition late_reply : Attempt := mkAttempt true true None true ReadTimeout.

Lemma wire_well_typed_witness :
  decode_request (encode_request (ReqOfferSnapshot (mkSnapshotInfo 7 2 (replicate 32 x01)))) =
    Ok (ReqOfferSnapshot (mkSnapshotInfo 7 2 (replicate 32 x01))) ∧
  decode_response (encode_response (AnsOnCommit (inr ""))) = Ok (AnsOnCommit (inr "unspecified application error")).
Proof.
  destruct wire_well_typed as (_&_&Hr&Ha&_). split; [by apply Hr|by apply Ha].
Defined.

(** The reply to the first attempt comes too late, and the second one works. *)
Lemma call_served_at_most_once_witness :
  let c := Client_new 7 [late_reply] in
  (call ReqTracksAppHash c).1 = Some (AnsTracksAppHash true) ∧
  ∃ n, (n ≤ 2)%nat ∧ cl_served (call ReqTracksAppHash c).2 = replicate n ReqTracksAppHash ++ [].
Proof.
  intros c.
  assert (call ReqTracksAppHash c = (Some (AnsTracksAppHash true), (call ReqTracksAppHash c).2)) as E
    by by vm_compute.
  split; [by rewrite E|].
  destruct (call_served_at_most_once ReqTracksAppHash c _ _ (or_introl eq_refl) I E) as (n&Hn&_&Hs&_).
  exists n. split; [exact Hn|exact Hs].
Defined.

Lemma bridge_transparent_witness :
  let c := Client_new 7 [] in
  ipc_tracks_app_hash c = (true, set_cache (after c ReqTracksAppHash) (Some true)) ∧
  ipc_validate_tx c [x01] None = (mkTxValidationResult true 0 0, after c (ReqValidateTx [x01] None)).
Proof.
  intros c.
  destruct (bridge_transparent c (or_introl eq_refl) eq_refl eq_refl)
    as (_&_&_&_&Ht&_&_&_&_&_&_&_&_&_&_&_&Hh).
  split; [apply Hh|apply Ht]; by split.
Defined.

(** A second attempt that fails after writing leaves its connection in place, so
    a late reply answers the next request: the application accepts [x01] only,
    and the client reports its verdict on [x01] as the verdict on [x02]. *)
Lemma stale_reply :
  let c := (ipc_validate_tx (Client_new 7 [late_reply; late_reply]) [x01] None).2 in
  (h_validate_tx (cl_handler c) [x02] None).1 = (false, 0, 0) ∧
  (ipc_validate_tx c [x02] None).1 = mkTxValidationResult true 0 0.
Proof. by vm_compute. Qed.
