(* ===== verification/Rpc.v ===== *)
(** * The RPC API ([hotmint-api])

    Clients send one JSON request per line over TCP, or one per HTTP body, and
    subscribe to chain events over a WebSocket.  A request passes the rate limit
    of its IP address and is answered from the node's store, mempool, application
    and light client.  The JSON parser is a parameter; a response is the value
    that is serialised. *)

From stdpp Require Import pretty.
From S2P Require Import Prelude Types ValidatorSet Encoding Aggregate Light BlockStore World Commit Mempool Sync.

(** ** Hexadecimal text *)

Definition hex_char (n : N) : Ascii.ascii :=
  Ascii.ascii_of_N (if n <? 10 then 48 + n else 87 + n).

Fixpoint hex_encode (bs : bytes) : string :=
  match bs with
  | [] => ""
  | b :: bs =>
      let n := Byte.to_N b in
      String (hex_char (n / 16)) (String (hex_char (n mod 16)) (hex_encode bs))
  end.

(** [char::to_digit(16)] *)
Definition hex_digit (c : Ascii.ascii) : option N :=
  let n := Ascii.N_of_ascii c in
  if (48 <=? n) && (n <=? 57) then Some (n - 48)
  else if (97 <=? n) && (n <=? 102) then Some (n - 87)
  else if (65 <=? n) && (n <=? 70) then Some (n - 55)
  else None.

(** [u8::from_str_radix(.., 16)] on two characters; a leading [+] (43) is a sign. *)
Definition u8_from_hex (a b : Ascii.ascii) : option byte :=
  if Ascii.N_of_ascii a =? 43 then lo ← hex_digit b; Byte.of_N lo
  else hi ← hex_digit a; lo ← hex_digit b; Byte.of_N (hi * 16 + lo).

Fixpoint is_ascii (s : string) : bool :=
  match s with
  | EmptyString => true
  | String c s => (Ascii.N_of_ascii c <? 128) && is_ascii s
  end.

Fixpoint hex_pairs (s : string) : option bytes :=
  match s with
  | String a (String b s) => x ← u8_from_hex a b; rest ← hex_pairs s; Some (x :: rest)
  | _ => Some []
  end.

Definition hex_decode (s : string) : option bytes :=
  if negb (is_ascii s) || negb (Nat.even (String.length s)) then None else hex_pairs s.

Definition hex_to_block_hash (s : string) : option BlockHash :=
  bs ← hex_decode s;
  if negb (length bs =? 32)%nat then None else Some bs.

(** ** Requests and responses ([types.rs]) *)

(** [serde_json::Value]; [VNumber] is a number that fits a [u64]. *)
Inductive Value : Type :=
| VNull
| VBool (b : bool)
| VNumber (n : N)
| VOtherNumber
| VString (s : string)
| VArray (l : list Value)
| VObject (fields : list (string * Value)).

Definition as_str (v : Value) : option string := match v with VString s => Some s | _ => None end.
Definition as_u64 (v : Value) : option N := match v with VNumber n => Some n | _ => None end.
Definition value_get (key : string) (v : Value) : option Value :=
  match v with
  | VObject fields => snd <$> List.find (λ f, String.eqb f.1 key) fields
  | _ => None
  end.

Record RpcRequest : Type := mkRpcRequest {
  rq_method : string;
  rq_params : Value;
  rq_id : N;
}.

Record StatusInfo : Type := mkStatusInfo {
  si_validator_id : N;
  si_current_view : N;
  si_last_committed_height : N;
  si_epoch : N;
  si_validator_count : nat;
  si_mempool_size : nat;
}.
Record BlockInfo : Type := mkBlockInfo {
  bi_height : N;
  bi_hash : string;
  bi_parent_hash : string;
  bi_view : N;
  bi_proposer : N;
  bi_payload_size : nat;
}.
Record ValidatorInfoResponse : Type := mkValidatorInfoResponse {
  vr_id : N;
  vr_power : N;
  vr_public_key : string;
}.
Record EpochInfo : Type := mkEpochInfo { ei_number : N; ei_start_view : N; ei_validator_count : nat }.
Record HeaderInfo : Type := mkHeaderInfo {
  hi_height : N;
  hi_hash : string;
  hi_parent_hash : string;
  hi_view : N;
  hi_proposer : N;
  hi_app_hash : string;
}.
Record CommitQcInfo : Type := mkCommitQcInfo {
  ci_block_hash : string;
  ci_view : N;
  ci_signer_count : nat;
  ci_epoch : N;
}.
Record TxInfo : Type := mkTxInfo { ti_tx_hash : string; ti_height : N; ti_index : N; ti_data : string }.
Record QueryResponseInfo : Type := mkQueryResponseInfo {
  qi_data : string;
  qi_proof : option string;
  qi_height : N;
}.
Record VerifyHeaderResult : Type := mkVerifyHeaderResult { vh_valid : bool; vh_error : option string }.
Record EventInfo : Type := mkEventInfo { evi_type : string; evi_attributes : list (string * string) }.
Record BlockResultsInfo : Type := mkBlockResultsInfo {
  bri_height : N;
  bri_tx_hashes : list string;
  bri_events : list EventInfo;
  bri_app_hash : string;
}.

(** The values that are serialised into [result]. *)
Inductive RpcResult : Type :=
| RStatus (info : StatusInfo)
| RTx (accepted : bool)
| RBlock (info : BlockInfo)
| RValidators (l : list ValidatorInfoResponse)
| REpoch (info : EpochInfo)
| RPeers (l : list (ValidatorId * string))
| RHeader (info : HeaderInfo)
| RCommitQc (info : CommitQcInfo)
| RTxInfo (info : TxInfo)
| RBlockResults (info : BlockResultsInfo)
| RQuery (info : QueryResponseInfo)
| RVerify (r : VerifyHeaderResult).

Record RpcError : Type := mkRpcError { er_code : Z; er_message : string }.
Record RpcResponse : Type := mkRpcResponse {
  rp_result : option RpcResult;
  rp_error : option RpcError;
  rp_id : N;
}.

Definition rpc_ok (id : N) (r : RpcResult) : RpcResponse := mkRpcResponse (Some r) None id.
Definition rpc_err (id : N) (code : Z) (message : string) : RpcResponse :=
  mkRpcResponse None (Some (mkRpcError code message)) id.

(** [serde_json]: the request of a line or body, and the two typed parameters of
    [verify_header]; [None] is an error. *)
Class SerdeJson : Type := {
  parse_request : bytes → option RpcRequest;
  header_from_value : Value → option BlockHeader;
  qc_from_value : Value → option QuorumCertificate;
}.

(** ** Rate limits

    An [Instant] is a number of nanoseconds; [duration_since] saturates at 0. *)

Definition NANOS : N := 1000000000.
Definition TX_RATE_LIMIT_PER_SEC : N := 100.
Definition QUERY_RATE_LIMIT_PER_SEC : N := 50.
Definition IP_LIMITER_PRUNE_INTERVAL : N := 60 * NANOS.
Definition MAX_IP_LIMITER_ENTRIES : N := 100000.

Record TxRateLimiter : Type := mkTxRateLimiter {
  tl_tokens : N;
  tl_max_tokens : N;
  tl_last_refill : N;
}.

Definition TxRateLimiter_new (now rate_per_sec : N) : TxRateLimiter :=
  mkTxRateLimiter rate_per_sec rate_per_sec now.

Definition bucket_allow (now : N) (b : TxRateLimiter) : bool * TxRateLimiter :=
  let elapsed := now - tl_last_refill b in
  let b := if NANOS <=? elapsed then mkTxRateLimiter (tl_max_tokens b) (tl_max_tokens b) now else b in
  if 0 <? tl_tokens b
  then (true, mkTxRateLimiter (tl_tokens b - 1) (tl_max_tokens b) (tl_last_refill b))
  else (false, b).

Section Limiter.
Context {IpAddr : Type} `{Countable IpAddr}.

Record PerIpRateLimiter : Type := mkPerIpRateLimiter {
  pl_buckets : gmap IpAddr TxRateLimiter;
  pl_rate_per_sec : N;
  pl_last_prune : N;
}.

Definition limiter_with_rate (now rate_per_sec : N) : PerIpRateLimiter :=
  mkPerIpRateLimiter ∅ rate_per_sec now.

Definition maybe_prune (now : N) (l : PerIpRateLimiter) : PerIpRateLimiter :=
  if now - pl_last_prune l <? IP_LIMITER_PRUNE_INTERVAL then l
  else mkPerIpRateLimiter
         (filter (λ kv, now - tl_last_refill kv.2 < 30 * NANOS) (pl_buckets l))
         (pl_rate_per_sec l) now.

(** The three readings of the clock: in [maybe_prune], for a new bucket, and in
    the bucket. *)
Record Readings : Type := mkReadings { t_prune : N; t_new : N; t_allow : N }.

Definition limiter_allow (t : Readings) (ip : IpAddr) (l : PerIpRateLimiter)
    : bool * PerIpRateLimiter :=
  let l := maybe_prune (t_prune t) l in
  let known := pl_buckets l !! ip in
  if negb (bool_decide (is_Some known)) && (MAX_IP_LIMITER_ENTRIES <=? N.of_nat (size (pl_buckets l)))
  then (false, l)
  else
    let bucket := default (TxRateLimiter_new (t_new t) (pl_rate_per_sec l)) known in
    let '(ok, bucket) := bucket_allow (t_allow t) bucket in
    (ok, mkPerIpRateLimiter (<[ip := bucket]> (pl_buckets l)) (pl_rate_per_sec l) (pl_last_prune l)).
End Limiter.
Arguments PerIpRateLimiter IpAddr {_ _}.

(** ** The request handler *)

Section Rpc.
Context {IpAddr : Type} `{Countable IpAddr}.
Context {St App : Type} `{!BlockStore St, !Application App}.
Context `{Blake3, Verifier, SerdeJson}.

(** The shared state with the two limiters; [rs_broadcast] lists the
    transactions handed to the network sink, the last one first.  [rs_sink] says
    whether a sink is configured. *)
Record RpcState : Type := mkRpcState {
  rs_validator_id : N;
  rs_mempool : Mempool;
  rs_status : ConsensusStatus;
  rs_store : St;
  rs_peer_info : list (ValidatorId * string);
  rs_validator_set : list ValidatorInfoResponse;
  rs_app : option App;
  rs_query_app : option App;
  rs_sink : bool;
  rs_broadcast : list bytes;
  rs_chain_id_hash : bytes;
  rs_ip_limiter : PerIpRateLimiter IpAddr;
  rs_query_limiter : PerIpRateLimiter IpAddr;
}.

Implicit Types s : RpcState.

Definition with_limiters s (ip query : PerIpRateLimiter IpAddr) : RpcState :=
  mkRpcState (rs_validator_id s) (rs_mempool s) (rs_status s) (rs_store s) (rs_peer_info s)
    (rs_validator_set s) (rs_app s) (rs_query_app s) (rs_sink s) (rs_broadcast s)
    (rs_chain_id_hash s) ip query.
Definition with_apps s (app query_app : option App) : RpcState :=
  mkRpcState (rs_validator_id s) (rs_mempool s) (rs_status s) (rs_store s) (rs_peer_info s)
    (rs_validator_set s) app query_app (rs_sink s) (rs_broadcast s)
    (rs_chain_id_hash s) (rs_ip_limiter s) (rs_query_limiter s).
Definition with_mempool s (p : Mempool) (sent : list bytes) : RpcState :=
  mkRpcState (rs_validator_id s) p (rs_status s) (rs_store s) (rs_peer_info s)
    (rs_validator_set s) (rs_app s) (rs_query_app s) (rs_sink s) sent
    (rs_chain_id_hash s) (rs_ip_limiter s) (rs_query_limiter s).

(** What a request meets: the clock readings of the two limiters, whether a
    permit of the semaphore is free, whether the blocking task completes, and
    whether the response can be written. *)
Record ReqEnv : Type := mkReqEnv {
  re_ip : Readings;
  re_query : Readings;
  re_permit : bool;
  re_task : bool;
  re_write : bool;
}.

Definition block_to_info (block : Block) : BlockInfo :=
  mkBlockInfo (b_height block) (hex_encode (b_hash block)) (hex_encode (b_parent_hash block))
    (b_view block) (b_proposer block) (length (b_payload block)).

(** [req.params.get("height").and_then(|v| v.as_u64())], or its error. *)
Definition height_param (req : RpcRequest) : option N := value_get "height" (rq_params req) ≫= as_u64.
Definition missing_height (req : RpcRequest) : RpcResponse :=
  rpc_err (rq_id req) (-32602) "missing or invalid 'height' parameter".

Definition rpc_status (req : RpcRequest) s : RpcResponse :=
  let st := rs_status s in
  rpc_ok (rq_id req) (RStatus (mkStatusInfo (rs_validator_id s) (st_current_view st) (st_last_committed_height st)
    (st_epoch_number st) (st_validator_count st) (mp_size (rs_mempool s)))).

(** The tail of [submit_tx]: admission and gossip. *)
Definition admit_tx (req : RpcRequest) (tx : bytes) (priority gas_wanted : N) s : RpcResponse * RpcState :=
  let '(pool, accepted) := add_tx_with_gas (rs_mempool s) tx priority gas_wanted in
  let sent := if accepted && rs_sink s then tx :: rs_broadcast s else rs_broadcast s in
  (rpc_ok (rq_id req) (RTx accepted), with_mempool s pool sent).

Definition handle_submit_tx (env : ReqEnv) (req : RpcRequest) s : RpcResponse * RpcState :=
  let id := rq_id req in
  match as_str (rq_params req) with
  | None => (rpc_err id (-32602) "params must be a hex string", s)
  | Some tx_hex =>
      if String.eqb tx_hex "" then (rpc_err id (-32602) "empty transaction", s)
      else
        match hex_decode tx_hex with
        | None | Some [] => (rpc_err id (-32602) "invalid hex", s)
        | Some tx =>
            match rs_app s with
            | None => admit_tx req tx 0 0 s
            | Some app =>
                if negb (re_permit env) then (rpc_err id (-32000) "too many concurrent validations", s)
                else
                  let '(result, app) := app_validate_tx app tx None in
                  let s := with_apps s (Some app) (rs_query_app s) in
                  if negb (re_task env) then (rpc_err id (-32603) "internal error", s)
                  else if negb (tvr_valid result)
                  then (rpc_err id (-32602) "transaction validation failed", s)
                  else admit_tx req tx (tvr_priority result) (tvr_gas_wanted result) s
            end
        end
  end.

Definition handle_get_block (req : RpcRequest) s : RpcResponse :=
  match height_param req with
  | None => missing_height req
  | Some height =>
      match get_block_by_height (rs_store s) height with
      | Some block => rpc_ok (rq_id req) (RBlock (block_to_info block))
      | None => rpc_err (rq_id req) (-32602) ("block at height " +:+ pretty height +:+ " not found")
      end
  end.

Definition handle_get_block_by_hash (req : RpcRequest) s : RpcResponse :=
  match hex_to_block_hash (default "" (as_str (rq_params req))) with
  | Some hash =>
      match get_block (rs_store s) hash with
      | Some block => rpc_ok (rq_id req) (RBlock (block_to_info block))
      | None => rpc_err (rq_id req) (-32602) "block not found"
      end
  | None => rpc_err (rq_id req) (-32602) "invalid hash hex"
  end.

Definition handle_get_epoch (req : RpcRequest) s : RpcResponse :=
  let st := rs_status s in
  rpc_ok (rq_id req) (REpoch (mkEpochInfo (st_epoch_number st) (st_epoch_start_view st)
    (st_validator_count st))).

Definition handle_get_header (req : RpcRequest) s : RpcResponse :=
  match height_param req with
  | None => missing_height req
  | Some height =>
      match get_block_by_height (rs_store s) height with
      | Some b =>
          rpc_ok (rq_id req) (RHeader (mkHeaderInfo (b_height b) (hex_encode (b_hash b))
            (hex_encode (b_parent_hash b)) (b_view b) (b_proposer b) (hex_encode (b_app_hash b))))
      | None => rpc_err (rq_id req) (-32602) ("block at height " +:+ pretty height +:+ " not found")
      end
  end.

Definition handle_get_commit_qc (req : RpcRequest) s : RpcResponse :=
  match height_param req with
  | None => missing_height req
  | Some height =>
      match get_commit_qc (rs_store s) height with
      | Some qc =>
          rpc_ok (rq_id req) (RCommitQc (mkCommitQcInfo (hex_encode (qc_block_hash qc)) (qc_view qc)
            (agg_count (qc_aggregate_signature qc)) (qc_epoch qc)))
      | None => rpc_err (rq_id req) (-32602) ("commit QC at height " +:+ pretty height +:+ " not found")
      end
  end.

Definition handle_get_tx (req : RpcRequest) s : RpcResponse :=
  let id := rq_id req in
  match as_str (rq_params req) with
  | None | Some "" => rpc_err id (-32602) "params must be a hex-encoded tx hash"
  | Some hash_hex =>
      match hex_to_block_hash hash_hex with
      | None => rpc_err id (-32602) "invalid tx hash (expected 32-byte hex)"
      | Some hash =>
          match get_tx_location (rs_store s) hash with
          | Some (height, index) =>
              match get_block_by_height (rs_store s) height with
              | Some block =>
                  match decode_payload (b_payload block) !! N.to_nat index with
                  | Some tx => rpc_ok id (RTxInfo (mkTxInfo hash_hex height index (hex_encode tx)))
                  | None => rpc_err id (-32602) "tx index out of range in block"
                  end
              | None => rpc_err id (-32602) ("block at height " +:+ pretty height +:+ " not found")
              end
          | None => rpc_err id (-32602) "transaction not found"
          end
      end
  end.

Definition event_to_info (e : Event) : EventInfo :=
  mkEventInfo (ev_type e) ((λ a, (ea_key a, ea_value a)) <$> ev_attributes e).

Definition handle_get_block_results (req : RpcRequest) s : RpcResponse :=
  match height_param req with
  | None => missing_height req
  | Some height =>
      match get_block_results (rs_store s) height with
      | Some results =>
          let tx_hashes :=
            match get_block_by_height (rs_store s) height with
            | Some block => (λ tx, hex_encode (blake3 tx)) <$> decode_payload (b_payload block)
            | None => []
            end in
          rpc_ok (rq_id req) (RBlockResults (mkBlockResultsInfo height tx_hashes
            (event_to_info <$> ebr_events results) (hex_encode (ebr_app_hash results))))
      | None =>
          rpc_err (rq_id req) (-32602) ("block results at height " +:+ pretty height +:+ " not found")
      end
  end.

Definition query_response_info (r : QueryResponse) : QueryResponseInfo :=
  mkQueryResponseInfo (hex_encode (qr_data r)) (hex_encode <$> qr_proof r) (qr_height r).

(** The answer to a query once the application has returned. *)
Definition query_answer (env : ReqEnv) (id : N) (r : option QueryResponse) : RpcResponse :=
  if negb (re_task env) then rpc_err id (-32603) "query task failed"
  else match r with
       | Some resp => rpc_ok id (RQuery (query_response_info resp))
       | None => rpc_err id (-32602) "query failed"
       end.

Definition handle_query (env : ReqEnv) (ip : IpAddr) (req : RpcRequest) s : RpcResponse * RpcState :=
  let id := rq_id req in
  let '(allowed, limiter) := limiter_allow (re_query env) ip (rs_query_limiter s) in
  let s := with_limiters s (rs_ip_limiter s) limiter in
  if negb allowed then (rpc_err id (-32000) "rate limit exceeded for query", s)
  else
    match value_get "path" (rq_params req) ≫= as_str with
    | None => (rpc_err id (-32602) "missing 'path' parameter", s)
    | Some path =>
        match hex_decode (default "" (value_get "data" (rq_params req) ≫= as_str)) with
        | None => (rpc_err id (-32602) "invalid hex in 'data' parameter", s)
        | Some data =>
            let busy := (rpc_err id (-32000) "too many concurrent queries", s) in
            match rs_query_app s, rs_app s with
            | Some app, _ =>
                if negb (re_permit env) then busy
                else
                  let '(r, app) := app_query app path data in
                  (query_answer env id r, with_apps s (rs_app s) (Some app))
            | None, Some app =>
                if negb (re_permit env) then busy
                else
                  let '(r, app) := app_query app path data in
                  (query_answer env id r, with_apps s (Some app) None)
            | None, None => (rpc_err id (-32602) "no application available for queries", s)
            end
        end
    end.

(** The validator set of the light client, from the published one; a key that
    is not 32 bytes of hexadecimal becomes zeros. *)
Definition published_validator (v : ValidatorInfoResponse) : ValidatorInfo :=
  let bs := default [] (hex_decode (vr_public_key v)) in
  mkValidatorInfo (vr_id v) (if (length bs =? 32)%nat then bs else zeros 32) (vr_power v).

Definition verify_result (id : N) (valid : bool) (error : option string) : RpcResponse :=
  rpc_ok id (RVerify (mkVerifyHeaderResult valid error)).

(** The block that a header after the last commit must extend. *)
Definition trusted_hash s : option BlockHash :=
  if st_last_committed_height (rs_status s) =? 0 then Some GENESIS_HASH
  else b_hash <$> get_block_by_height (rs_store s) (st_last_committed_height (rs_status s)).

Definition handle_verify_header (req : RpcRequest) s : res unit RpcResponse :=
  let id := rq_id req in
  match value_get "header" (rq_params req), value_get "qc" (rq_params req) with
  | None, _ => Ok (rpc_err id (-32602) "missing 'header' parameter")
  | _, None => Ok (rpc_err id (-32602) "missing 'qc' parameter")
  | Some header_val, Some qc_val =>
      match header_from_value header_val, qc_from_value qc_val with
      | None, _ => Ok (rpc_err id (-32602) "invalid header")
      | _, None => Ok (rpc_err id (-32602) "invalid qc")
      | Some header, Some qc =>
          match ValidatorSet.new (published_validator <$> rs_validator_set s) with
          | Ok vs =>
              if bh_height header <=? st_last_committed_height (rs_status s) then
                match get_commit_qc (rs_store s) (bh_height header) with
                | Some stored =>
                    if bool_decide (qc_block_hash stored = bh_hash header)
                    then Ok (verify_result id true None)
                    else Ok (verify_result id false (Some "header does not match the committed chain"))
                | None => Ok (verify_result id false (Some "header does not match the committed chain"))
                end
              else
                match trusted_hash s with
                | None => Ok (rpc_err id (-32603) "trusted checkpoint block unavailable")
                | Some hash =>
                    let lc := lc_new_with_trusted_hash vs (st_last_committed_height (rs_status s)) hash (rs_chain_id_hash s) in
                    match (verify_header lc header qc).2 with
                    | Ok _ => Ok (verify_result id true None)
                    | _ => Ok (verify_result id false (Some "verification failed"))
                    end
                end
          | _ => Panic
          end
      end
  end.

(** [handle_request] after the rate limit. *)
Definition handle_method (env : ReqEnv) (ip : IpAddr) (req : RpcRequest) s
    : res unit RpcResponse * RpcState :=
  let m := rq_method req in
  let read r := (Ok r, s) in
  let write (x : RpcResponse * RpcState) : res unit RpcResponse * RpcState := (Ok x.1, x.2) in
  if String.eqb m "status" then read (rpc_status req s)
  else if String.eqb m "submit_tx" then write (handle_submit_tx env req s)
  else if String.eqb m "get_block" then read (handle_get_block req s)
  else if String.eqb m "get_block_by_hash" then read (handle_get_block_by_hash req s)
  else if String.eqb m "get_validators" then read (rpc_ok (rq_id req) (RValidators (rs_validator_set s)))
  else if String.eqb m "get_epoch" then read (handle_get_epoch req s)
  else if String.eqb m "get_peers" then read (rpc_ok (rq_id req) (RPeers (rs_peer_info s)))
  else if String.eqb m "get_header" then read (handle_get_header req s)
  else if String.eqb m "get_commit_qc" then read (handle_get_commit_qc req s)
  else if String.eqb m "get_tx" then read (handle_get_tx req s)
  else if String.eqb m "get_block_results" then read (handle_get_block_results req s)
  else if String.eqb m "query" then write (handle_query env ip req s)
  else if String.eqb m "verify_header" then (handle_verify_header req s, s)
  else read (rpc_err (rq_id req) (-32601) ("unknown method: " +:+ m)).

Definition handle_request (env : ReqEnv) (ip : IpAddr) (line : bytes) s
    : res unit RpcResponse * RpcState :=
  match parse_request line with
  | None => (Ok (rpc_err 0 (-32700) "parse error"), s)
  | Some req =>
      let '(allowed, limiter) := limiter_allow (re_ip env) ip (rs_ip_limiter s) in
      let s := with_limiters s limiter (rs_query_limiter s) in
      if negb allowed then (Ok (rpc_err (rq_id req) (-32000) "rate limit exceeded"), s)
      else handle_method env ip req s
  end.

(** ** Lines of a connection *)

Definition MAX_LINE_BYTES : N := 1048576.
Definition NEWLINE : byte := Byte.x0a.

(** [available.iter().position(|&b| b == b'\n')] *)
Fixpoint newline_position (bs : bytes) : option nat :=
  match bs with
  | [] => None
  | b :: bs => if bool_decide (b = NEWLINE) then Some O else S <$> newline_position bs
  end.

(** What [consume] leaves of the buffer; an empty buffer is filled again. *)
Definition unconsumed (rest : bytes) (reader : list (option bytes)) : list (option bytes) :=
  match rest with [] => reader | _ => Some rest :: reader end.

(** The reader is the list of what [fill_buf] returns; the end of the stream is
    an empty buffer or the end of the list.  [None] is an error, or a call that does not return within the read
    timeout.  [Err] is either of them, or a line that is too long. *)
Fixpoint read_line_limited (max_bytes : N) (buf : bytes) (reader : list (option bytes))
    : res unit (option bytes) * list (option bytes) :=
  match reader with
  | [] => (Ok (match buf with [] => None | _ => Some buf end), [])
  | None :: _ => (Err (), reader)
  | Some available :: rest =>
      if bool_decide (available = []) then (Ok (match buf with [] => None | _ => Some buf end), [])
      else
        match newline_position available with
        | Some pos =>
            if max_bytes - N.of_nat (length buf) <? N.of_nat pos then (Err (), reader)
            else (Ok (Some (buf ++ take pos available)), unconsumed (drop (S pos) available) rest)
        | None =>
            if max_bytes - N.of_nat (length buf) <? N.of_nat (length available) then (Err (), reader)
            else read_line_limited max_bytes (buf ++ available) rest
        end
  end.

(** The loop of a connection: the responses written, and the state.  [env n] is
    what the [n]-th request meets. *)
Fixpoint serve_connection (fuel : nat) (env : nat → ReqEnv) (n : nat) (ip : IpAddr)
    (reader : list (option bytes)) s : option (list RpcResponse * RpcState) :=
  match fuel with
  | O => None
  | S fuel =>
      match read_line_limited MAX_LINE_BYTES [] reader with
      | (Ok (Some line), reader) =>
          match handle_request (env n) ip line s with
          | (Ok response, s) =>
              if negb (re_write (env n)) then Some ([], s)
              else
                '(rest, s) ← serve_connection fuel env (S n) ip reader s; Some (response :: rest, s)
          | (_, s) => Some ([], s)
          end
      | _ => Some ([], s)
      end
  end.
End Rpc.

(** ** Events over WebSockets ([http_rpc.rs]) *)

Inductive ChainEvent : Type :=
| NewBlock (height : N) (hash : string) (view proposer timestamp : N)
| TxCommitted (tx_hash : string) (height : N)
| EpochChange (epoch start_view : N) (validator_count : nat).

Record SubscribeFilter : Type := mkSubscribeFilter {
  sf_event_types : list string;
  sf_min_height : option N;
  sf_max_height : option N;
  sf_tx_hash : option string;
}.
Definition SubscribeFilter_default : SubscribeFilter := mkSubscribeFilter [] None None None.

Definition event_type (e : ChainEvent) : string :=
  match e with
  | NewBlock _ _ _ _ _ => "NewBlock"
  | TxCommitted _ _ => "TxCommitted"
  | EpochChange _ _ _ => "EpochChange"
  end.
Definition event_height (e : ChainEvent) : option N :=
  match e with
  | NewBlock height _ _ _ _ | TxCommitted _ height => Some height
  | _ => None
  end.

Definition filter_matches (f : SubscribeFilter) (e : ChainEvent) : bool :=
  if negb (bool_decide (sf_event_types f = [])) &&
     negb (existsb (λ t, String.eqb t (event_type e)) (sf_event_types f)) then false
  else if match event_height e, sf_min_height f with Some h, Some min => h <? min | _, _ => false end
  then false
  else if match event_height e, sf_max_height f with Some h, Some max => max <? h | _, _ => false end
  then false
  else
    match sf_tx_hash f, e with
    | Some filter_hash, TxCommitted tx_hash _ => String.eqb tx_hash filter_hash
    | Some _, _ => false
    | None, _ => true
    end.

Definition MAX_WS_CONNECTIONS : N := 1024.
Definition MAX_FILTER_EVENT_TYPES : nat := 16.
Definition MAX_FILTER_STRING_LEN : nat := 128.

Definition filter_bounded (f : SubscribeFilter) : bool :=
  (length (sf_event_types f) <=? MAX_FILTER_EVENT_TYPES)%nat &&
  forallb (λ t, (String.length t <=? MAX_FILTER_STRING_LEN)%nat) (sf_event_types f) &&
  match sf_tx_hash f with Some h => (String.length h <=? MAX_FILTER_STRING_LEN)%nat | None => true end.

(** What a WebSocket handler meets: an event, a lagging receiver, a text (the
    filter it parses to), any other message, and the end of either side. *)
Inductive WsInput : Type :=
| WsEvent (e : ChainEvent) (sent : bool)
| WsLagged
| WsClosed
| WsText (f : option SubscribeFilter)
| WsOther
| WsEnd.

(** [handle_ws]: the events sent to the client. *)
Fixpoint handle_ws (f : SubscribeFilter) (inputs : list WsInput) : list ChainEvent :=
  match inputs with
  | [] => []
  | WsEvent e sent :: inputs =>
      if negb (filter_matches f e) then handle_ws f inputs
      else if sent then e :: handle_ws f inputs else []
  | WsText (Some f') :: inputs => handle_ws (if filter_bounded f' then f' else f) inputs
  | (WsLagged | WsText None | WsOther) :: inputs => handle_ws f inputs
  | (WsClosed | WsEnd) :: _ => []
  end.

Section Ws.
Context {IpAddr : Type} `{Countable IpAddr}.

(** The atomic counter, with the handlers that have incremented it: those that
    own a connection, and those about to decrement it again. *)
Record WsCount : Type := mkWsCount { ws_connection_count : N; ws_open : N; ws_refused : N }.

Inductive WsStep : Type :=
| WsUpgrade (t : Readings) (ip : IpAddr)
| WsRefuse
| WsDrop.

(** [ws_upgrade_handler] up to the [fetch_add], the [fetch_sub] of a refusal, and
    that of [WsCountGuard::drop] or of a failed upgrade. *)
Definition ws_step (x : WsStep) (w : WsCount * PerIpRateLimiter IpAddr)
    : WsCount * PerIpRateLimiter IpAddr :=
  let '(c, l) := w in
  match x with
  | WsUpgrade t ip =>
      let '(allowed, l) := limiter_allow t ip l in
      if negb allowed then (c, l)
      else if MAX_WS_CONNECTIONS <=? ws_connection_count c
      then (mkWsCount (ws_connection_count c +w 1) (ws_open c) (ws_refused c + 1), l)
      else (mkWsCount (ws_connection_count c +w 1) (ws_open c + 1) (ws_refused c), l)
  | WsRefuse =>
      if 0 <? ws_refused c
      then (mkWsCount (wrapping_sub64 (ws_connection_count c) 1) (ws_open c) (ws_refused c - 1), l) else w
  | WsDrop =>
      if 0 <? ws_open c
      then (mkWsCount (wrapping_sub64 (ws_connection_count c) 1) (ws_open c - 1) (ws_refused c), l) else w
  end.
End Ws.
