(* ===== verification/RpcSafety.v ===== *)
(** * Correctness of the RPC API

    Hexadecimal text is read back; a connection answers exactly the lines of its
    stream, however the bytes arrive; the rate limits hold over any run; a
    request changes nothing but the limiters, the application and, when it
    submits a transaction, the mempool; and a committed transaction is found by
    its hash. *)

From stdpp Require Import pretty.
From S2P Require Import Prelude Types ValidatorSet Encoding Aggregate Light BlockStore VsdbStore World Commit Mempool.
From S2P Require Import Engine Sync Rpc.

(** ** Hexadecimal text *)

Lemma u8_from_hex_char b :
  u8_from_hex (hex_char (Byte.to_N b / 16)) (hex_char (Byte.to_N b mod 16)) = Some b ∧
  (Ascii.N_of_ascii (hex_char (Byte.to_N b / 16)) <? 128) = true ∧
  (Ascii.N_of_ascii (hex_char (Byte.to_N b mod 16)) <? 128) = true.
Proof. destruct b; vm_compute; auto. Qed.

Lemma hex_decode_encode bs : hex_decode (hex_encode bs) = Some bs.
Proof.
  assert (is_ascii (hex_encode bs) = true ∧ Nat.even (String.length (hex_encode bs)) = true ∧
          hex_pairs (hex_encode bs) = Some bs) as (Ha&He&Hp).
  { induction bs as [|b bs (Ha&He&Hp)]; [done|]. destruct (u8_from_hex_char b) as (Hb&H1&H2).
    cbn [hex_encode is_ascii hex_pairs String.length Nat.even].
    rewrite H1, H2, Ha, Hb, He. simpl. by rewrite Hp. }
  unfold hex_decode. by rewrite Ha, He.
Qed.

Lemma hex_encode_inj a b : hex_encode a = hex_encode b → a = b.
Proof. intros E. apply (f_equal hex_decode) in E. rewrite !hex_decode_encode in E. by simplify_eq. Qed.

Lemma hex_to_block_hash_encode h : length h = 32%nat → hex_to_block_hash (hex_encode h) = Some h.
Proof. intros Hl. unfold hex_to_block_hash. by rewrite hex_decode_encode; simpl; rewrite Hl. Qed.

(** A sign is read as a digit: text that is not hexadecimal is accepted. *)
Lemma hex_decode_accepts_sign : hex_decode "+f" = Some [Byte.x0f].
Proof. reflexivity. Qed.

(** ** Lines *)

Lemma newline_position_app bs k :
  newline_position (bs ++ k) =
    match newline_position bs with
    | Some pos => Some pos
    | None => Nat.add (length bs) <$> newline_position k
    end.
Proof.
  induction bs as [|b bs IH]; simpl; [by destruct (newline_position k)|].
  case_bool_decide; [done|]. rewrite IH. destruct (newline_position bs), (newline_position k); done.
Qed.

Lemma newline_position_bound bs pos : newline_position bs = Some pos → (pos < length bs)%nat.
Proof.
  revert pos. induction bs as [|b bs IH]; intros pos; simpl; [done|].
  case_bool_decide; [intros [= <-]; lia|]. destruct (newline_position bs) as [p|]; [|done].
  intros [= <-]. specialize (IH p eq_refl). lia.
Qed.

(** The bytes a reader delivers, and whether it comes to the end of the stream,
    which an empty buffer is. *)
Fixpoint stream (reader : list (option bytes)) : bytes * bool :=
  match reader with
  | [] => ([], true)
  | None :: _ => ([], false)
  | Some [] :: _ => ([], true)
  | Some bs :: reader => let '(rest, eof) := stream reader in (bs ++ rest, eof)
  end.

Lemma stream_unconsumed bs reader :
  stream (unconsumed bs reader) = (bs ++ (stream reader).1, (stream reader).2).
Proof. destruct bs; simpl; by destruct (stream reader). Qed.

(** One line, from the bytes of the stream alone. *)
Lemma read_line_spec max buf reader :
  newline_position buf = None → N.of_nat (length buf) ≤ max →
  let '(rest, eof) := stream reader in
  let all := buf ++ rest in
  let '(r, reader') := read_line_limited max buf reader in
  match newline_position all with
  | Some pos =>
      if max <? N.of_nat pos then r = Err ()
      else r = Ok (Some (take pos all)) ∧ stream reader' = (drop (S pos) all, eof)
  | None =>
      if (max <? N.of_nat (length all)) || negb eof then r = Err ()
      else r = Ok (match all with [] => None | _ => Some all end) ∧ reader' = []
  end.
Proof.
  revert buf. induction reader as [|[available|] reader IH]; intros buf Hn Hb; cbn zeta.
  { simpl. rewrite app_nil_r, Hn. destruct (N.ltb_spec max (N.of_nat (length buf))); [lia|done]. }
  2:{ simpl. rewrite app_nil_r, Hn. by rewrite orb_true_r. }
  destruct (decide (available = [])) as [->|Hne].
  { simpl. rewrite app_nil_r, Hn. destruct (N.ltb_spec max (N.of_nat (length buf))); [lia|done]. }
  cbn [read_line_limited]. rewrite bool_decide_false by done. specialize (IH (buf ++ available)).
  replace (stream (Some available :: reader)) with (available ++ (stream reader).1, (stream reader).2)
    by (simpl; destruct available; [done|by destruct (stream reader)]).
  destruct (stream reader) as [rest eof] eqn:Es. cbn [fst snd].
  rewrite newline_position_app, Hn. destruct (newline_position available) as [pos|] eqn:E.
  - rewrite newline_position_app, E. simpl.
    destruct (N.ltb_spec (max - N.of_nat (length buf)) (N.of_nat pos)), (N.ltb_spec max (N.of_nat (length buf + pos)));
      try lia; [done|].
    apply newline_position_bound in E. split.
    + rewrite (app_assoc buf), take_app_le by (rewrite length_app; lia).
      by rewrite take_app_add.
    + rewrite stream_unconsumed, Es. simpl. f_equal. rewrite (app_assoc buf).
      rewrite drop_app_le by (rewrite length_app; lia). f_equal.
      replace (S (length buf + pos)) with (length buf + S pos)%nat by lia. by rewrite drop_app_add.
  - destruct (N.ltb_spec (max - N.of_nat (length buf)) (N.of_nat (length available))).
    + clear IH. rewrite newline_position_app, E. rewrite !length_app.
      destruct (newline_position rest) as [p|]; simpl; case_match eqn:El; try done;
        [|apply orb_false_iff in El as [El _]]; apply N.ltb_ge in El; lia.
    + rewrite length_app in IH. rewrite newline_position_app, Hn, E in IH.
      specialize (IH eq_refl ltac:(lia)). cbn zeta in IH. rewrite <- app_assoc in IH.
      destruct (read_line_limited max (buf ++ available) reader) as [r reader'].
      rewrite newline_position_app, Hn in IH. exact IH.
Qed.

(** The lines of a stream; at its end the last one may lack its newline. *)
Fixpoint lines_from (eof : bool) (acc bs : bytes) : list bytes :=
  match bs with
  | [] => if eof then match acc with [] => [] | _ => [acc] end else []
  | b :: bs =>
      if bool_decide (b = NEWLINE) then acc :: lines_from eof [] bs else lines_from eof (acc ++ [b]) bs
  end.

(** The lines before the first one that is too long. *)
Fixpoint short_lines (max : N) (lines : list bytes) : list bytes :=
  match lines with
  | [] => []
  | line :: lines => if max <? N.of_nat (length line) then [] else line :: short_lines max lines
  end.

Lemma lines_from_newline eof acc bs :
  lines_from eof acc bs =
    match newline_position bs with
    | Some pos => (acc ++ take pos bs) :: lines_from eof [] (drop (S pos) bs)
    | None => if eof then match acc ++ bs with [] => [] | _ => [acc ++ bs] end else []
    end.
Proof.
  revert acc. induction bs as [|b bs IH]; intros acc; simpl; [by rewrite app_nil_r|].
  case_bool_decide; [by rewrite take_0, app_nil_r, drop_0|]. rewrite IH.
  destruct (newline_position bs) as [pos|]; simpl; by rewrite <- app_assoc.
Qed.

(** The lines that a connection serves. *)
Definition served_lines (reader : list (option bytes)) : list bytes :=
  let '(bs, eof) := stream reader in short_lines MAX_LINE_BYTES (lines_from eof [] bs).

(** ** Rate limits *)

Definition ordered (t0 : N) (t : Readings) : Prop := t0 ≤ t_prune t ∧ t_prune t ≤ t_new t ∧ t_new t ≤ t_allow t.

(** The call falls in the second from [w] on. *)
Definition in_second (w : N) (t : Readings) : bool := (w <=? t_allow t) && (t_allow t <? w + NANOS).

Lemma in_second_late w t : w + NANOS ≤ t_allow t → in_second w t = false.
Proof. intros Ht. unfold in_second. destruct (N.ltb_spec (t_allow t) (w + NANOS)); [lia|]. apply andb_false_r. Qed.

Lemma in_second_early w t : t_allow t < w → in_second w t = false.
Proof. intros Ht. unfold in_second. by destruct (N.leb_spec w (t_allow t)); [lia|]. Qed.

Section Rate.
Context {IpAddr : Type} `{Countable IpAddr} (ip : IpAddr) (w : N).

Implicit Types (l : PerIpRateLimiter IpAddr) (x : IpAddr).

(** The calls of a limiter, with the readings of the clock in order. *)
Fixpoint timed (t0 : N) (calls : list (Readings * IpAddr)) : Prop :=
  match calls with
  | [] => True
  | (t, _) :: calls => ordered t0 t ∧ timed (t_allow t) calls
  end.

(** How often [ip] is allowed in the second from [w] on. *)
Definition counts (t : Readings) (x : IpAddr) (ok : bool) : N :=
  if ok && bool_decide (x = ip) && in_second w t then 1 else 0.

Fixpoint allowed (calls : list (Readings * IpAddr)) (l : PerIpRateLimiter IpAddr) : N :=
  match calls with
  | [] => 0
  | (t, x) :: calls => let '(ok, l) := limiter_allow t x l in counts t x ok + allowed calls l
  end.

(** One call, as seen from the bucket of [ip]. *)
Inductive bucket_step (rate : N) (t : Readings) : option TxRateLimiter → option TxRateLimiter → N → Prop :=
| step_other ob : bucket_step rate t ob ob 0
| step_pruned b :
    30 * NANOS ≤ t_prune t - tl_last_refill b → bucket_step rate t (Some b) None 0
| step_spent b ok b' :
    bucket_allow (t_allow t) b = (ok, b') → bucket_step rate t (Some b) (Some b') (counts t ip ok)
| step_fresh ob ok b' :
    (ob = None ∨ ∃ b, ob = Some b ∧ 30 * NANOS ≤ t_prune t - tl_last_refill b) →
    bucket_allow (t_allow t) (TxRateLimiter_new (t_new t) rate) = (ok, b') →
    bucket_step rate t ob (Some b') (counts t ip ok).

Lemma counts_other t x ok : x ≠ ip → counts t x ok = 0.
Proof. intros Hx. unfold counts. rewrite (bool_decide_false (x = ip)), andb_false_r by done. done. Qed.

Lemma counts_refused t x : counts t x false = 0.
Proof. done. Qed.

Lemma maybe_prune_lookup t l x :
  pl_rate_per_sec (maybe_prune t l) = pl_rate_per_sec l ∧
  (pl_buckets (maybe_prune t l) !! x = pl_buckets l !! x ∨
   ∃ b, pl_buckets l !! x = Some b ∧ pl_buckets (maybe_prune t l) !! x = None ∧
        30 * NANOS ≤ t - tl_last_refill b).
Proof.
  unfold maybe_prune. case_match; [by auto|]. split; [done|]. cbn [pl_buckets].
  rewrite map_lookup_filter. destruct (pl_buckets l !! x) as [b|]; simpl; [|by left].
  case_guard as Hg; simpl; [by left|]. right. exists b. split_and!; [done..|]. simpl in Hg. lia.
Qed.

Lemma limiter_allow_step t x l :
  let '(ok, l') := limiter_allow t x l in
  pl_rate_per_sec l' = pl_rate_per_sec l ∧
  bucket_step (pl_rate_per_sec l) t (pl_buckets l !! ip) (pl_buckets l' !! ip) (counts t x ok).
Proof.
  unfold limiter_allow. destruct (maybe_prune_lookup (t_prune t) l ip) as [Hr Hp].
  set (l1 := maybe_prune (t_prune t) l) in *.
  assert (bucket_step (pl_rate_per_sec l) t (pl_buckets l !! ip) (pl_buckets l1 !! ip) 0) as Hkeep.
  { destruct Hp as [-> | (b&->&->&?)]; by constructor. }
  destruct (negb _ && _); [by rewrite counts_refused|]. rewrite Hr.
  destruct (decide (x = ip)) as [->|Hx].
  - destruct (bucket_allow (t_allow t) _) as [ok b'] eqn:Eb. cbn [pl_rate_per_sec pl_buckets].
    split; [done|]. rewrite lookup_insert_eq.
    destruct (pl_buckets l1 !! ip) as [b|] eqn:E1; simpl in Eb.
    + destruct Hp as [<- | (b0&_&?&_)]; [by constructor|done].
    + constructor; [|done]. destruct Hp as [<- | (b0&->&_&?)]; [by left|right; by exists b0].
  - destruct (bucket_allow (t_allow t) _) as [ok b'] eqn:Eb. cbn [pl_rate_per_sec pl_buckets].
    split; [done|]. by rewrite lookup_insert_ne, counts_other.
Qed.

(** What a bucket can still give in the second from [w] on, once it has begun. *)
Definition remaining (rate : N) (ob : option TxRateLimiter) : N :=
  match ob with
  | Some b => if w <=? tl_last_refill b then tl_tokens b else tl_tokens b + rate
  | None => rate
  end.

Definition bucket_ok (rate : N) (ob : option TxRateLimiter) : Prop :=
  ∀ b, ob = Some b → tl_tokens b ≤ rate ∧ tl_max_tokens b = rate.

Lemma bucket_step_ok rate t ob ob' n : bucket_step rate t ob ob' n → bucket_ok rate ob → bucket_ok rate ob'.
Proof.
  intros Hs Hb. destruct Hs as [ob|b ?|b ok b' E|ob ok b' _ E]; [done|intros ? [=]|..].
  - destruct (Hb b eq_refl) as [H1 H2]. intros ? [= <-]. unfold bucket_allow in E.
    repeat case_match; simplify_eq/=; bool_prop; lia.
  - intros ? [= <-]. unfold bucket_allow in E. repeat case_match; simplify_eq/=; bool_prop; lia.
Qed.

Lemma bucket_step_remaining rate t ob ob' n :
  bucket_step rate t ob ob' n → bucket_ok rate ob →
  w ≤ t_prune t → t_prune t ≤ t_new t → t_new t ≤ t_allow t → t_allow t < w + NANOS →
  n + remaining rate ob' ≤ remaining rate ob.
Proof.
  intros Hs Hb Hw H1 H2 H3. destruct Hs as [ob|b Ho|b ok b' E|ob ok b' Ho E].
  - lia.
  - simpl. case_match; bool_prop; unfold NANOS in *; lia.
  - destruct (Hb b eq_refl) as [Hm Hx]. unfold bucket_allow in E. unfold counts, remaining, in_second.
    rewrite (bool_decide_true (ip = ip)) by done.
    repeat case_match; simplify_eq/=; bool_prop; unfold NANOS in *; try lia.
  - assert (rate ≤ remaining rate ob) as Hr.
    { clear E. destruct Ho as [->|(b&->&Ho)]; simpl; [done|]. case_match; bool_prop; unfold NANOS in *; lia. }
    unfold bucket_allow, TxRateLimiter_new in E. unfold counts, in_second. rewrite (bool_decide_true (ip = ip)) by done.
    unfold remaining at 1. repeat case_match; simplify_eq/=; bool_prop; unfold NANOS in *; try lia.
Qed.

Lemma allowed_outside calls l t0 : timed t0 calls → w + NANOS ≤ t0 → allowed calls l = 0.
Proof.
  revert l t0. induction calls as [|[t x] calls IH]; intros l t0 Ht Hw; [done|].
  destruct Ht as [(H1&H2&H3) Ht]. simpl. destruct (limiter_allow t x l) as [ok l'].
  rewrite (IH l' _ Ht) by lia. unfold counts. by rewrite in_second_late, andb_false_r by lia.
Qed.

Lemma allowed_inside calls l t0 :
  timed t0 calls → w ≤ t0 → bucket_ok (pl_rate_per_sec l) (pl_buckets l !! ip) →
  allowed calls l ≤ remaining (pl_rate_per_sec l) (pl_buckets l !! ip).
Proof.
  revert l t0. induction calls as [|[t x] calls IH]; intros l t0 Ht Hw Hb; simpl; [lia|].
  pose proof (allowed_outside ((t, x) :: calls) l (w + NANOS)) as Hout. simpl in Hout.
  destruct Ht as [(H1&H2&H3) Ht]. pose proof (limiter_allow_step t x l) as Hs.
  destruct (limiter_allow t x l) as [ok l']. destruct Hs as [Hr Hs].
  destruct (N.ltb_spec (t_allow t) (w + NANOS)) as [Hin|Hin].
  - specialize (IH l' _ Ht ltac:(lia)). rewrite Hr in IH.
    specialize (IH (bucket_step_ok _ _ _ _ _ Hs Hb)).
    pose proof (bucket_step_remaining _ _ _ _ _ Hs Hb ltac:(lia) H2 H3 Hin). lia.
  - rewrite (allowed_outside calls l' _ Ht) by done. unfold counts.
    rewrite in_second_late, andb_false_r by done. lia.
Qed.

Lemma bucket_step_after rate t ob ob' n :
  bucket_step rate t ob ob' n → bucket_ok rate ob → n + remaining rate ob' ≤ 2 * rate.
Proof.
  intros Hs Hb. pose proof (bucket_step_ok _ _ _ _ _ Hs Hb) as Hb'.
  assert (remaining rate ob' ≤ 2 * rate) as Hle.
  { destruct ob' as [b|]; simpl; [|lia]. destruct (Hb' b eq_refl). case_match; lia. }
  destruct Hs as [ob|b _|b ok b' E|ob ok b' _ E]; [lia..| |].
  - destruct (Hb b eq_refl) as [Hm Hx]. unfold counts, bucket_allow in *. unfold remaining in *.
    repeat case_match; simplify_eq/=; bool_prop; try lia.
  - unfold counts, bucket_allow, TxRateLimiter_new in *. unfold remaining in *.
    repeat case_match; simplify_eq/=; bool_prop; try lia.
Qed.

(** At most twice the rate in any second, wherever it starts. *)
Lemma allowed_bounded calls l t0 :
  timed t0 calls → bucket_ok (pl_rate_per_sec l) (pl_buckets l !! ip) →
  allowed calls l ≤ 2 * pl_rate_per_sec l.
Proof.
  revert l t0. induction calls as [|[t x] calls IH]; intros l t0 Ht Hb; simpl; [lia|].
  destruct Ht as [(H1&H2&H3) Ht]. pose proof (limiter_allow_step t x l) as Hs.
  destruct (limiter_allow t x l) as [ok l']. destruct Hs as [Hr Hs].
  pose proof (bucket_step_ok _ _ _ _ _ Hs Hb) as Hb'.
  destruct (N.leb_spec w (t_allow t)) as [Hw|Hw].
  - pose proof (allowed_inside calls l' _ Ht Hw) as Hi. rewrite Hr in Hi. specialize (Hi Hb').
    pose proof (bucket_step_after _ _ _ _ _ Hs Hb). lia.
  - specialize (IH l' _ Ht). rewrite Hr in IH. specialize (IH Hb'). unfold counts.
    rewrite in_second_early, andb_false_r by done. lia.
Qed.
End Rate.

(** ** The transaction index *)

Section Index.
Context {St : Type} `{!BlockStore St, !BlockStoreLaws St, !TxIndexLaws St} `{Blake3}.

Implicit Types st : St.

(** The index knows a transaction with hash [x] in one of the blocks. *)
Definition located (blocks : list Block) st (x : bytes) : Prop :=
  ∃ b i tx, b ∈ blocks ∧ get_tx_location st x = Some (b_height b, N.of_nat i) ∧
    decode_payload (b_payload b) !! i = Some tx ∧ blake3 tx = x.

Definition has_tx (x : bytes) (b : Block) : Prop := ∃ tx, tx ∈ decode_payload (b_payload b) ∧ blake3 tx = x.

Lemma index_fold (b : Block) (x : bytes) (pre txs : list bytes) st :
  decode_payload (b_payload b) = pre ++ txs → N.of_nat (length (pre ++ txs)) ≤ u32_max →
  let st' := enumerate_foldl (λ i s tx, put_tx_index s (blake3 tx) (b_height b)
                                 (N.of_nat i mod (u32_max + 1))) (length pre) st txs in
  (get_tx_location st' x = get_tx_location st x ∧ ∀ tx, tx ∈ txs → blake3 tx ≠ x) ∨
  (∃ i tx, get_tx_location st' x = Some (b_height b, N.of_nat i) ∧
     decode_payload (b_payload b) !! i = Some tx ∧ blake3 tx = x).
Proof.
  revert pre st. induction txs as [|tx txs IH]; intros pre st Hd Hlen; cbn [enumerate_foldl].
  { left. split; [done|]. by intros tx ?%elem_of_nil. }
  rewrite cons_middle, app_assoc in Hd, Hlen.
  specialize (IH (pre ++ [tx]) (put_tx_index st (blake3 tx) (b_height b) (N.of_nat (length pre) mod (u32_max + 1)))
    Hd Hlen).
  rewrite length_app, Nat.add_1_r in IH. destruct IH as [[Hs Hn]|Hl]; [|by right].
  rewrite Hs, tx_put_tx_index. case_decide as E.
  - right. exists (length pre), tx. split_and!; [|by rewrite Hd, lookup_app_l, lookup_app_r, Nat.sub_diag by (rewrite ?length_app; simpl; lia)|done].
    rewrite !length_app in Hlen. rewrite N.mod_small by (simpl in Hlen; lia). done.
  - left. split; [done|]. intros tx' [->|?]%elem_of_cons; [done|auto].
Qed.

Definition indexable (b : Block) : Prop := N.of_nat (length (decode_payload (b_payload b))) ≤ u32_max.

Lemma index_txs_located blocks b st x :
  b ∈ blocks → indexable b → has_tx x b ∨ located blocks st x → located blocks (index_txs b st) x.
Proof.
  intros Hb Hi Hx. destruct (index_fold b x [] (decode_payload (b_payload b)) st eq_refl Hi)
    as [[Hs Hn]|(i&tx&Hl&Hd&Ht)]; [|by exists b, i, tx].
  destruct Hx as [(tx&Htx&<-)|(b'&i&tx&?&?&?&?)]; [by destruct (Hn tx Htx)|].
  exists b', i, tx. split_and!; try done. etrans; [exact Hs|done].
Qed.

(** The blocks are the store's blocks at their heights. *)
Record in_store (blocks : list Block) st : Prop := {
  is_ok : st_ok st;
  is_pinned : ∀ b, b ∈ blocks → get_block_by_height st (b_height b) = Some b;
}.

Lemma index_txs_in_store blocks b st : in_store blocks st → in_store blocks (index_txs b st).
Proof.
  intros Hs. unfold index_txs. apply enumerate_foldl_ind; [done|]. intros i s tx _ [Hok Hp].
  split; [by apply put_tx_index_ok|]. intros b' Hb'. rewrite by_height_put_tx_index. auto.
Qed.

Lemma commit_qc_in_store blocks b q st :
  b ∈ blocks → qc_block_hash q = b_hash b → in_store blocks st → in_store blocks (put_commit_qc st (b_height b) q).
Proof.
  intros Hb Hq [Hok Hp]. split; [by apply put_commit_qc_ok|]. intros b' Hb'.
  destruct (decide (b_height b = b_height b')) as [E|E].
  - assert (b' = b) as -> by (pose proof (Hp b Hb) as H1; rewrite E, (Hp b' Hb') in H1; by simplify_eq).
    apply by_height_put_commit_qc; [done|]. rewrite Hq. by apply (by_height_get st (b_height b)), Hp.
  - rewrite by_height_put_commit_qc_ne by done. auto.
Qed.

Lemma record_committed_located r st x :
  in_store (cr_committed_blocks r) st → Forall indexable (cr_committed_blocks r) →
  Exists (has_tx x) (cr_committed_blocks r) →
  in_store (cr_committed_blocks r) (record_committed r st) ∧
  located (cr_committed_blocks r) (record_committed r st) x.
Proof.
  intros Hs Hi Hx. unfold record_committed. set (blocks := cr_committed_blocks r) in *. 
  assert (∀ todo j s, todo ⊆ blocks → in_store blocks s → Exists (has_tx x) todo ∨ located blocks s x →
    let s' := enumerate_foldl (λ i s block,
      let s := if bool_decide (qc_block_hash (cr_commit_qc r) = b_hash block)
               then put_commit_qc s (b_height block) (cr_commit_qc r) else s in
      let s := index_txs block s in
      match cr_block_responses r !! i with
      | Some resp => put_block_results s (b_height block) resp
      | None => s
      end) j s todo in in_store blocks s' ∧ located blocks s' x) as Hfold.
  2:{ apply Hfold; [done..|by left]. }
  induction todo as [|b todo IH]; intros j s Hsub Hst Hor; cbn [enumerate_foldl].
  { split; [done|]. destruct Hor as [Hn|?]; [by apply Exists_nil in Hn|done]. }
  assert (b ∈ blocks) as Hb by (apply Hsub; left). apply IH; [set_solver| |]; cbn zeta.
  all: set (s1 := if bool_decide _ then _ else s).
  all: assert (in_store blocks s1 ∧ ∀ y, get_tx_location s1 y = get_tx_location s y) as [Hs1 Hl1].
  1,3: unfold s1; case_bool_decide; [split; [by apply commit_qc_in_store|intros; apply tx_put_commit_qc]|done].
  - apply (index_txs_in_store _ b) in Hs1. case_match; [|done]. destruct Hs1 as [Hok Hp].
    split; [by apply put_block_results_ok|]. intros b' Hb'. rewrite by_height_put_block_results. auto.
  - assert (Exists (has_tx x) todo ∨ located blocks (index_txs b s1) x) as [?|Hl].
    { assert (indexable b) as Hib by (by eapply Forall_forall in Hi).
      rewrite Exists_cons in Hor. destruct Hor as [[Hh|?]|Hl]; [right|by left|right].
      - apply index_txs_located; [done..|by left].
      - apply index_txs_located; [done..|right].
        destruct Hl as (b'&i&tx&?&E&?&?). exists b', i, tx. by rewrite Hl1. }
    { by left. }
    right. case_match; [|done]. destruct Hl as (b'&i&tx&?&E&?&?). exists b', i, tx. by rewrite tx_put_block_results.
Qed.
End Index.

(** ** WebSocket subscriptions *)

(** The events a filter lets through. *)
Lemma filter_matches_iff f e :
  filter_matches f e = true ↔
    (sf_event_types f = [] ∨ event_type e ∈ sf_event_types f) ∧
    (∀ h, event_height e = Some h → default 0 (sf_min_height f) ≤ h) ∧
    (∀ h max, event_height e = Some h → sf_max_height f = Some max → h ≤ max) ∧
    (∀ x, sf_tx_hash f = Some x → ∃ h, e = TxCommitted x h).
Proof.
  assert (negb (bool_decide (sf_event_types f = [])) &&
     negb (existsb (λ t, String.eqb t (event_type e)) (sf_event_types f)) = false ↔
     sf_event_types f = [] ∨ event_type e ∈ sf_event_types f) as Ht.
  { rewrite andb_false_iff, !negb_false_iff, bool_decide_eq_true, existsb_exists.
    setoid_rewrite String.eqb_eq. setoid_rewrite <- list_elem_of_In. naive_solver. }
  unfold filter_matches. destruct (negb _ && _); [split; [done|intros [?%Ht _]; done]|].
  rewrite <- Ht. destruct (event_height e) as [h|] eqn:Eh, (sf_min_height f) as [mn|], (sf_max_height f) as [mx|];
    simpl; repeat match goal with |- context [?a <? ?b] => destruct (N.ltb_spec a b) end;
    try (split; [done|intros (_&Hmin&Hmax&_);
      first [specialize (Hmin _ eq_refl); lia|specialize (Hmax _ _ eq_refl eq_refl); lia]]).
  all: destruct (sf_tx_hash f) as [x|], e as [| |]; simplify_eq/=; rewrite ?String.eqb_eq; naive_solver lia.
Qed.

(** ** WebSocket connections *)

Section Ws.
Context {IpAddr : Type} `{Countable IpAddr}.

Record ws_ok (c : WsCount) : Prop := {
  wo_count : ws_connection_count c = ws_open c + ws_refused c;
  wo_open : ws_open c ≤ MAX_WS_CONNECTIONS;
}.

Lemma ws_step_ok (x : WsStep) (w : WsCount * PerIpRateLimiter IpAddr) :
  ws_ok w.1 → ws_connection_count w.1 < u64_max →
  ws_ok (ws_step x w).1 ∧ ws_connection_count (ws_step x w).1 ≤ ws_connection_count w.1 + 1.
Proof.
  destruct w as [[n o r] l]. intros [Hc Ho] Hb. simpl in *. destruct x as [t ip| |].
  - destruct (limiter_allow t ip l) as [[] l']; simpl; [|by split; [split|lia]].
    destruct (N.leb_spec MAX_WS_CONNECTIONS n); simpl; rewrite wrapping_add64_small by lia;
      (split; [split; simpl; lia|lia]).
  - destruct (N.ltb_spec 0 r); simpl; [|by split; [split|lia]].
    rewrite wrapping_sub64_small by lia. split; [split; simpl; lia|lia].
  - destruct (N.ltb_spec 0 o); simpl; [|by split; [split|lia]].
    rewrite wrapping_sub64_small by lia. split; [split; simpl; lia|lia].
Qed.

(** Over any interleaving of the handlers' atomic steps, at most 1024 connections
    are open, and the counter is never below their number. *)
Lemma ws_connections_bounded (xs : list WsStep) (l : PerIpRateLimiter IpAddr) :
  N.of_nat (length xs) < u64_max →
  let c := (foldl (λ w x, ws_step x w) (mkWsCount 0 0 0, l) xs).1 in
  ws_open c ≤ MAX_WS_CONNECTIONS ∧ ws_connection_count c = ws_open c + ws_refused c.
Proof.
  intros Hl. assert (∀ n, n = length xs → ws_ok (foldl (λ w x, ws_step x w) (mkWsCount 0 0 0, l) xs).1 ∧
    ws_connection_count (foldl (λ w x, ws_step x w) (mkWsCount 0 0 0, l) xs).1 ≤ N.of_nat (length xs)) as Hi.
  { intros n _. induction xs as [|x xs IH] using rev_ind; [by split; [split|]|].
    rewrite length_app in *. simpl in *. destruct IH as [Ho Hc]; [lia|]. rewrite foldl_snoc.
    destruct (ws_step_ok x _ Ho ltac:(lia)) as [Ho' Hc']. split; [done|]. lia. }
  destruct (Hi _ eq_refl) as [[] _]. done.
Qed.
End Ws.

Section Rpc.
Context {IpAddr : Type} `{Countable IpAddr}.
Context {St App : Type} `{!BlockStore St, !Application App}.
Context `{Blake3, Verifier, SerdeJson}.

Notation RpcState := (RpcState (IpAddr := IpAddr) (St := St) (App := App)).
Implicit Types s : RpcState.

(** ** Connections *)

(** The requests of the lines, one after the other, until one panics or its
    response cannot be written. *)
Fixpoint serve_lines (env : nat → ReqEnv) (n : nat) (ip : IpAddr) (lines : list bytes) s
    : list RpcResponse * RpcState :=
  match lines with
  | [] => ([], s)
  | line :: lines =>
      match handle_request (env n) ip line s with
      | (Ok response, s) =>
          if negb (re_write (env n)) then ([], s)
          else let '(rest, s) := serve_lines env (S n) ip lines s in (response :: rest, s)
      | (_, s) => ([], s)
      end
  end.

Lemma serve_connection_lines fuel env n ip reader s :
  (length (stream reader).1 < fuel)%nat →
  serve_connection fuel env n ip reader s = Some (serve_lines env n ip (served_lines reader) s).
Proof.
  revert n reader s. induction fuel as [|fuel IH]; intros n reader s Hf; [lia|]. cbn [serve_connection].
  pose proof (read_line_spec MAX_LINE_BYTES [] reader eq_refl ltac:(simpl; lia)) as Hl.
  unfold served_lines. destruct (stream reader) as [bs eof] eqn:Es. cbn zeta in Hl.
  rewrite app_nil_l in Hl. rewrite lines_from_newline. cbn [fst] in Hf.
  destruct (read_line_limited MAX_LINE_BYTES [] reader) as [r reader'].
  destruct (newline_position bs) as [pos|] eqn:E.
  - pose proof (newline_position_bound _ _ E) as Hp. cbn [app short_lines]. rewrite length_take_le by lia.
    destruct (MAX_LINE_BYTES <? N.of_nat pos); [by subst|]. destruct Hl as [-> Hr].
    cbn [serve_lines]. destruct (handle_request (env n) ip _ s) as [[resp|[]|] s1]; [|done..].
    destruct (re_write (env n)); cbn [negb]; [|done].
    rewrite IH by (rewrite Hr; cbn [fst]; rewrite length_drop; lia). unfold served_lines. rewrite Hr.
    cbn [mbind option_bind]. by destruct (serve_lines env (S n) ip _ s1).
  - cbn [app]. destruct eof; [|by rewrite orb_true_r in Hl; subst r]. rewrite orb_false_r in Hl.
    destruct bs as [|b all]; [by destruct Hl as [-> ->]|].
    cbn [short_lines]. destruct (MAX_LINE_BYTES <? N.of_nat (length (b :: all))); [by subst|].
    destruct Hl as [-> ->]. cbn [serve_lines].
    destruct (handle_request (env n) ip _ s) as [[resp|[]|] s1]; [|done..].
    destruct (re_write (env n)); cbn [negb]; [|done]. rewrite IH by (simpl in *; lia). done.
Qed.

(** ** Effects of a request *)

(** What no request changes. *)
Record same_node s s' : Prop := {
  sn_store : rs_store s' = rs_store s;
  sn_status : rs_status s' = rs_status s;
  sn_validators : rs_validator_set s' = rs_validator_set s;
  sn_peers : rs_peer_info s' = rs_peer_info s;
  sn_sink : rs_sink s' = rs_sink s;
  sn_chain : rs_chain_id_hash s' = rs_chain_id_hash s;
}.

(** What only an accepted transaction changes. *)
Record same_pool s s' : Prop := {
  sp_mempool : rs_mempool s' = rs_mempool s;
  sp_broadcast : rs_broadcast s' = rs_broadcast s;
}.

(** The transaction that a request asks to admit, after validation. *)
Definition submits (env : ReqEnv) (req : RpcRequest) s (tx : bytes) (priority gas : N) : Prop :=
  rq_method req = "submit_tx" ∧
  (∃ tx_hex, rq_params req = VString tx_hex ∧ hex_decode tx_hex = Some tx) ∧ tx ≠ [] ∧
  match rs_app s with
  | None => priority = 0 ∧ gas = 0
  | Some app =>
      re_permit env = true ∧ re_task env = true ∧
      (app_validate_tx app tx None).1 = mkTxValidationResult true priority gas
  end.

(** What becomes of the pool and of the gossip. *)
Definition admitted s s' (tx : bytes) (priority gas : N) : Prop :=
  rs_broadcast s' = (if rs_sink s then [tx] else []) ++ rs_broadcast s ∧
  ∀ x, x ∈ mp_entries (rs_mempool s') ↔
    x = mkTxEntry tx priority gas (hash_tx tx) ∨
    x ∈ mp_entries (rs_mempool s) ∧ te_hash x ≠ hash_tx tx ∧ ¬ evicted (rs_mempool s) tx x.

(** The outcome of a request that is to be accepted exactly for the transactions
    of [accepts]. *)
Record effects (id : N) (accepts : bytes → N → N → Prop) s (r : RpcResponse) s' : Prop := {
  ef_node : same_node s s';
  ef_pool : pool_ok (rs_mempool s');
  ef_id : rp_id r = id;
  ef_shape : rp_error r = None ↔ is_Some (rp_result r);
  ef_accepted : ∀ tx priority gas, accepts tx priority gas →
    rp_result r = Some (RTx true) ∧ admitted s s' tx priority gas;
  ef_refused : (¬ ∃ tx priority gas, accepts tx priority gas) →
    rp_result r ≠ Some (RTx true) ∧ same_pool s s';
}.

Lemma effects_none accepts s id r s' :
  pool_ok (rs_mempool s) → (∀ tx priority gas, ¬ accepts tx priority gas) →
  rp_id r = id → (rp_error r = None ↔ is_Some (rp_result r)) → rp_result r ≠ Some (RTx true) →
  same_node s s' → same_pool s s' → effects id accepts s r s'.
Proof.
  intros Hp Hn Hi Hs Hr Hsn Hsp. split; try done.
  - by rewrite (sp_mempool _ _ Hsp).
  - intros tx pr gas Ha. by destruct (Hn _ _ _ Ha).
Qed.

Lemma effects_err accepts s id code m s' :
  pool_ok (rs_mempool s) → (∀ tx priority gas, ¬ accepts tx priority gas) →
  same_node s s' → same_pool s s' → effects id accepts s (rpc_err id code m) s'.
Proof. intros. apply effects_none; try done. simpl. by split; [|intros []]. Qed.

Lemma same_node_refl s : same_node s s.
Proof. by split. Qed.
Lemma same_pool_refl s : same_pool s s.
Proof. by split. Qed.

Lemma admit_tx_effects req tx priority gas s0 s (accepts : bytes → N → N → Prop) :
  pool_ok (rs_mempool s) → same_node s0 s → same_pool s0 s → 
  (∀ tx' pr' gas', accepts tx' pr' gas' ↔
     tx' = tx ∧ pr' = priority ∧ gas' = gas ∧ admissible (rs_mempool s0) tx' pr') →
  let '(r, s') := admit_tx req tx priority gas s in effects (rq_id req) accepts s0 r s'.
Proof.
  intros Hp Hn [Hpm Hpb] Hacc. unfold admit_tx.
  pose proof (add_tx_spec (rs_mempool s) tx priority gas Hp) as Ha. cbn zeta in Ha.
  destruct (add_tx_with_gas (rs_mempool s) tx priority gas) as [p ok].
  destruct Ha as (Hok&_&_&Hiff&Hno&Hin). rewrite Hpm in Hiff, Hno. split; simpl.
  - destruct Hn. by split.
  - done.
  - done.
  - by split.
  - intros tx' pr' gas' (->&->&->&Had)%Hacc. apply Hiff in Had as ->. split; [done|]. split; simpl.
    + rewrite (sn_sink _ _ Hn), Hpb. by destruct (rs_sink s0).
    + rewrite Hpm in Hin. by apply Hin.
  - intros Hna. destruct ok.
    { destruct Hna. exists tx, priority, gas. apply Hacc. split_and!; [done..|]. by apply Hiff. }
    split; [done|]. split; simpl; auto.
Qed.

Lemma hex_decode_nonempty tx_hex tx : hex_decode tx_hex = Some tx → tx ≠ [] → String.eqb tx_hex "" = false.
Proof. intros Hd Hne. destruct (String.eqb_spec tx_hex "") as [->|]; [|done]. vm_compute in Hd. by simplify_eq. Qed.

Definition accepts env req s tx priority gas : Prop :=
  submits env req s tx priority gas ∧ admissible (rs_mempool s) tx priority.

Lemma handle_submit_tx_effects env req s :
  rq_method req = "submit_tx" → pool_ok (rs_mempool s) →
  let '(r, s') := handle_submit_tx env req s in effects (rq_id req) (accepts env req s) s r s'.
Proof.
  intros Hm Hp. unfold handle_submit_tx.
  destruct (as_str (rq_params req)) as [tx_hex|] eqn:Ea.
  2:{ apply effects_err; [done| |by split..]. intros tx pr gas [(_&(h&Hh&_)&_) _]. by rewrite Hh in Ea. }
  assert (rq_params req = VString tx_hex) as Hv by (by destruct (rq_params req); simplify_eq/=).
  assert (∀ tx pr gas, submits env req s tx pr gas → hex_decode tx_hex = Some tx ∧ tx ≠ []) as Hu.
  { intros tx pr gas (_&(h&Hh&Hd)&Hne&_). rewrite Hv in Hh. by simplify_eq. }
  destruct (String.eqb tx_hex "") eqn:Ee.
  { apply effects_err; [done| |by split..]. intros tx pr gas [(Hd&Hne)%Hu _].
    by rewrite (hex_decode_nonempty _ _ Hd Hne) in Ee. }
  destruct (hex_decode tx_hex) as [[|b tx']|] eqn:Ed.
  1,3: apply effects_err; [done| |by split..]; intros tx pr gas [(Hd&Hne)%Hu _]; by simplify_eq.
  set (tx := b :: tx') in *.
  assert (∀ tx2 pr gas, submits env req s tx2 pr gas ↔ tx2 = tx ∧ match rs_app s with
    | None => pr = 0 ∧ gas = 0
    | Some app => re_permit env = true ∧ re_task env = true ∧
        (app_validate_tx app tx None).1 = mkTxValidationResult true pr gas end) as Hsub.
  { intros tx2 pr gas. split.
    - intros Hs. destruct (Hu _ _ _ Hs) as [Hd _]. simplify_eq. split; [done|apply Hs].
    - intros [-> Hr]. split; [done|]. split; [by exists tx_hex|]. done. }
  destruct (rs_app s) as [app|] eqn:Eapp.
  - destruct (re_permit env) eqn:Epm; cbn [negb].
    2:{ apply effects_err; [done| |by split..]. intros tx2 pr gas [(_&?&_)%Hsub _]. done. }
    destruct (app_validate_tx app tx None) as [[valid pr gas] app'] eqn:Ev. cbn [fst] in Hsub.
    destruct (re_task env) eqn:Etk; cbn [negb].
    2:{ apply effects_err; [done| |by split..]. intros tx2 p2 g2 [(_&_&?&_)%Hsub _]. done. }
    cbn [tvr_valid tvr_priority tvr_gas_wanted]. destruct valid; cbn [negb].
    2:{ apply effects_err; [done| |by split..]. intros tx2 p2 g2 [(_&_&_&?)%Hsub _]. done. }
    apply admit_tx_effects; [done|by split..|]. intros tx2 p2 g2. unfold accepts. rewrite Hsub. naive_solver.
  - apply admit_tx_effects; [done|by split..|]. intros tx2 p2 g2. unfold accepts. rewrite Hsub. naive_solver.
Qed.

(** A response of a method that only reads. *)
Definition reads (id : N) (r : RpcResponse) : Prop :=
  rp_id r = id ∧ (rp_error r = None ↔ is_Some (rp_result r)) ∧ rp_result r ≠ Some (RTx true).

Lemma reads_ok id x : x ≠ RTx true → reads id (rpc_ok id x).
Proof. intros Hx. split_and!; [done| |simpl; congruence]. by split. Qed.
Lemma reads_err id code m : reads id (rpc_err id code m).
Proof. split_and!; [done| |done]. simpl. by split; [|intros []]. Qed.

Ltac reads_tac := repeat (case_match; simplify_eq/=); (apply reads_err || by apply reads_ok).

Lemma read_handlers_read req s :
  reads (rq_id req) (rpc_status req s) ∧ reads (rq_id req) (handle_get_block req s) ∧
  reads (rq_id req) (handle_get_block_by_hash req s) ∧ reads (rq_id req) (handle_get_epoch req s) ∧
  reads (rq_id req) (handle_get_header req s) ∧ reads (rq_id req) (handle_get_commit_qc req s) ∧
  reads (rq_id req) (handle_get_tx req s) ∧ reads (rq_id req) (handle_get_block_results req s) ∧
  (∀ r, handle_verify_header req s = Ok r → reads (rq_id req) r).
Proof.
  unfold rpc_status, handle_get_block, handle_get_block_by_hash, handle_get_epoch, handle_get_header,
    handle_get_commit_qc, handle_get_tx, handle_get_block_results, handle_verify_header, missing_height, verify_result.
  split_and!; [reads_tac..|]. intros r Hr. reads_tac.
Qed.

Lemma handle_query_reads env ip req s :
  let '(r, s') := handle_query env ip req s in
  reads (rq_id req) r ∧ same_node s s' ∧ same_pool s s'.
Proof.
  unfold handle_query, query_answer.
  repeat (case_match; simplify_eq/=); (split; [apply reads_err || by apply reads_ok|by split; split]).
Qed.

Lemma effects_reads accepts s id r s' :
  pool_ok (rs_mempool s) → (∀ tx priority gas, ¬ accepts tx priority gas) →
  reads id r → same_node s s' → same_pool s s' → effects id accepts s r s'.
Proof. intros Hp Hn (Hi&Hs&Hr) Hsn Hsp. by apply effects_none. Qed.

(** Also a request that panics leaves the node as it is. *)
Definition outcome (id : N) (accepts : bytes → N → N → Prop) s (x : res unit RpcResponse * RpcState) : Prop :=
  match x with
  | (Ok resp, s') => effects id accepts s resp s'
  | (_, s') => same_node s s' ∧ same_pool s s'
  end.

Ltac branch := lazymatch goal with |- outcome _ _ _ (if ?b then _ else _) => destruct b end.

Lemma handle_method_outcome env ip req s :
  pool_ok (rs_mempool s) → outcome (rq_id req) (accepts env req s) s (handle_method env ip req s).
Proof.
  intros Hp. unfold handle_method.
  destruct (read_handlers_read req s) as (R1&R2&R3&R4&R5&R6&R7&R8&R9).
  pose proof (handle_query_reads env ip req s) as Rq.
  assert (rq_method req ≠ "submit_tx" → ∀ r, reads (rq_id req) r →
    effects (rq_id req) (accepts env req s) s r s) as Hread.
  { intros Hm r Hr. apply effects_reads; [done| |done|by split..]. by intros tx pr gas [(?&_) _]. }
  destruct (String.eqb_spec (rq_method req) "submit_tx") as [Em|Em].
  { rewrite Em. simpl. pose proof (handle_submit_tx_effects env req s Em Hp) as Hs.
    by destruct (handle_submit_tx env req s). }
  repeat (branch; [by apply Hread; auto using reads_ok, reads_err|]).
  branch.
  { destruct (handle_query env ip req s) as [r s']. destruct Rq as (Hr&Hn&Hs). simpl.
    apply effects_reads; try done. by intros tx pr gas [(?&_) _]. }
  branch.
  { destruct (handle_verify_header req s) as [r|[]|]; simpl; [by apply Hread; auto|by split; split..]. }
  apply Hread; auto using reads_err.
Qed.

Lemma outcome_limiters id acc s ip query x :
  outcome id acc (with_limiters s ip query) x → outcome id acc s x.
Proof.
  destruct x as [[resp|[]|] s']; simpl; [|by intros [[] []]; split; split..].
  intros [[] Hp Hi Hs Ha Hr]. split; [by split|done..| |].
  - intros tx pr gas Hx. destruct (Ha _ _ _ Hx) as [? []]. done.
  - intros Hx. destruct (Hr Hx) as [? []]. by split.
Qed.

(** What a request may do, by what it parses to and by its rate limit. *)
Definition request_accepts env (ip : IpAddr) (line : bytes) s (tx : bytes) (priority gas : N) : Prop :=
  ∃ req, parse_request line = Some req ∧ (limiter_allow (re_ip env) ip (rs_ip_limiter s)).1 = true ∧
    accepts env req s tx priority gas.

Definition request_id (line : bytes) : N :=
  match parse_request line with Some req => rq_id req | None => 0 end.

Lemma effects_accepts id acc acc' s r s' :
  (∀ tx pr gas, acc tx pr gas ↔ acc' tx pr gas) → effects id acc s r s' → effects id acc' s r s'.
Proof.
  intros Ha [E1 E2 E3 E4 E5 E6]. split; try done.
  - intros tx pr gas Hx. by apply E5, Ha.
  - intros Hx. apply E6. intros (tx&pr&gas&Hy). apply Hx. exists tx, pr, gas. by apply Ha.
Qed.

Lemma handle_request_outcome env ip line s :
  pool_ok (rs_mempool s) →
  outcome (request_id line) (request_accepts env ip line s) s (handle_request env ip line s).
Proof.
  intros Hp. unfold handle_request, request_id. destruct (parse_request line) as [req|] eqn:Ep.
  2:{ apply effects_err; [done| |by split..]. intros tx pr gas (req&E&_). congruence. }
  destruct (limiter_allow (re_ip env) ip (rs_ip_limiter s)) as [ok l] eqn:El.
  destruct ok; cbn [negb].
  2:{ apply effects_err; [done| |by split..]. intros tx pr gas (req'&_&E&_). by rewrite El in E. }
  pose proof (handle_method_outcome env ip req (with_limiters s l (rs_query_limiter s)) Hp) as Ho.
  apply outcome_limiters in Ho.
  destruct (handle_method env ip req _) as [[resp|[]|] s']; simpl in *; [|done..].
  eapply effects_accepts; [|exact Ho]. intros tx pr gas. unfold request_accepts.
  rewrite Ep, El. split; [intros Ha; by exists req|]. by intros (req'&[= <-]&_&Ha).
Qed.

(** ** Rates over a run *)

(** A run of requests, with what each meets. *)
Notation request := (ReqEnv * IpAddr * bytes)%type.

Fixpoint rpc_log (reqs : list request) s : list (request * res unit RpcResponse) :=
  match reqs with
  | [] => []
  | (env, ip, line) :: reqs =>
      let '(r, s) := handle_request env ip line s in ((env, ip, line), r) :: rpc_log reqs s
  end.

(** The readings of a run come in order. *)
Fixpoint clocked (t0 : N) (reqs : list request) : Prop :=
  match reqs with
  | [] => True
  | (env, _, _) :: reqs =>
      ordered t0 (re_ip env) ∧ ordered (t_allow (re_ip env)) (re_query env) ∧
      clocked (t_allow (re_query env)) reqs
  end.

Definition rate_limited (r : res unit RpcResponse) : bool :=
  match r with
  | Ok resp =>
      match rp_error resp with
      | Some e => (er_code e =? -32000)%Z && String.eqb (er_message e) "rate limit exceeded"
      | None => false
      end
  | _ => false
  end.

Definition is_query_answer (r : res unit RpcResponse) : bool :=
  match r with Ok (mkRpcResponse (Some (RQuery _)) _ _) => true | _ => false end.

(** The parsed requests of [ip] that pass the limit, and its queries that the
    application answers, in the second from [w] on. *)
Definition served (ip : IpAddr) (w : N) (log : list (request * res unit RpcResponse)) : N :=
  sumN (λ '((env, x, line), r),
    if bool_decide (is_Some (parse_request line)) && negb (rate_limited r) && bool_decide (x = ip) &&
       in_second w (re_ip env) then 1 else 0) log.
Definition queried (ip : IpAddr) (w : N) (log : list (request * res unit RpcResponse)) : N :=
  sumN (λ '((env, x, line), r),
    if is_query_answer r && bool_decide (x = ip) && in_second w (re_query env) then 1 else 0) log.

(** The calls of the two limiters along a run. *)
Definition ip_calls (reqs : list request) : list (Readings * IpAddr) :=
  omap (λ '(env, x, line), if parse_request line is Some _ then Some (re_ip env, x) else None) reqs.

Definition query_call (env : ReqEnv) (x : IpAddr) (line : bytes) s : option (Readings * IpAddr) :=
  match parse_request line with
  | Some req =>
      if (limiter_allow (re_ip env) x (rs_ip_limiter s)).1 && String.eqb (rq_method req) "query"
      then Some (re_query env, x) else None
  | None => None
  end.
Fixpoint query_calls (reqs : list request) s : list (Readings * IpAddr) :=
  match reqs with
  | [] => []
  | (env, x, line) :: reqs =>
      let rest := query_calls reqs (handle_request env x line s).2 in
      match query_call env x line s with Some c => c :: rest | None => rest end
  end.

Lemma handle_submit_tx_limiters env req s :
  let '(r, s') := handle_submit_tx env req s in
  rs_ip_limiter s' = rs_ip_limiter s ∧ rs_query_limiter s' = rs_query_limiter s ∧ is_query_answer (Ok r) = false.
Proof. unfold handle_submit_tx, admit_tx. repeat (case_match; simplify_eq/=; try done). Qed.

Lemma handle_query_limiters env ip req s :
  let '(r, s') := handle_query env ip req s in
  rs_ip_limiter s' = rs_ip_limiter s ∧
  rs_query_limiter s' = (limiter_allow (re_query env) ip (rs_query_limiter s)).2 ∧
  (is_query_answer (Ok r) = true → (limiter_allow (re_query env) ip (rs_query_limiter s)).1 = true).
Proof.
  unfold handle_query. destruct (limiter_allow (re_query env) ip (rs_query_limiter s)) as [[] l]; cbn [negb].
  2: done.
  repeat (case_match; simplify_eq/=; try done).
Qed.

Lemma read_handlers_no_query req s :
  is_query_answer (Ok (rpc_status req s)) = false ∧ is_query_answer (Ok (handle_get_block req s)) = false ∧
  is_query_answer (Ok (handle_get_block_by_hash req s)) = false ∧
  is_query_answer (Ok (handle_get_epoch req s)) = false ∧ is_query_answer (Ok (handle_get_header req s)) = false ∧
  is_query_answer (Ok (handle_get_commit_qc req s)) = false ∧ is_query_answer (Ok (handle_get_tx req s)) = false ∧
  is_query_answer (Ok (handle_get_block_results req s)) = false ∧
  is_query_answer (handle_verify_header req s) = false.
Proof.
  unfold rpc_status, handle_get_block, handle_get_block_by_hash, handle_get_epoch, handle_get_header,
    handle_get_commit_qc, handle_get_tx, handle_get_block_results, handle_verify_header.
  split_and!; try done; repeat (case_match; simplify_eq/=; try done).
Qed.

Ltac pick := lazymatch goal with |- let '(_, _) := (if ?b then _ else _) in _ => destruct b end.

Lemma handle_method_limiters env ip req s :
  let '(r, s') := handle_method env ip req s in
  let '(ok, l) := limiter_allow (re_query env) ip (rs_query_limiter s) in
  rs_ip_limiter s' = rs_ip_limiter s ∧
  if String.eqb (rq_method req) "query"
  then rs_query_limiter s' = l ∧ (is_query_answer r = true → ok = true)
  else rs_query_limiter s' = rs_query_limiter s ∧ is_query_answer r = false.
Proof.
  destruct (read_handlers_no_query req s) as (R1&R2&R3&R4&R5&R6&R7&R8&R9).
  pose proof (handle_query_limiters env ip req s) as Rq. pose proof (handle_submit_tx_limiters env req s) as Rs.
  destruct (limiter_allow (re_query env) ip (rs_query_limiter s)) as [ok l]. unfold handle_method.
  destruct (String.eqb_spec (rq_method req) "query") as [->|Hq].
  { simpl. destruct (handle_query env ip req s) as [r s']. destruct Rq as (H1'&H2'&H3'). done. }
  pick; [done|]. pick; [by destruct (handle_submit_tx env req s) as [r s'] |].
  repeat (pick; [done|]). done.
Qed.

Lemma handle_request_limiters env x line s :
  let '(r, s') := handle_request env x line s in
  rs_ip_limiter s' =
    (if parse_request line is Some _ then (limiter_allow (re_ip env) x (rs_ip_limiter s)).2 else rs_ip_limiter s) ∧
  (is_Some (parse_request line) → rate_limited r = false →
     (limiter_allow (re_ip env) x (rs_ip_limiter s)).1 = true) ∧
  match query_call env x line s with
  | Some (t, y) =>
      rs_query_limiter s' = (limiter_allow t y (rs_query_limiter s)).2 ∧ t = re_query env ∧ y = x ∧
      (is_query_answer r = true → (limiter_allow t y (rs_query_limiter s)).1 = true)
  | None => rs_query_limiter s' = rs_query_limiter s ∧ is_query_answer r = false
  end.
Proof.
  unfold handle_request, query_call. destruct (parse_request line) as [req|].
  2:{ split_and!; [done|by intros []|done..]. }
  destruct (limiter_allow (re_ip env) x (rs_ip_limiter s)) as [[] l]; cbn [negb fst snd andb].
  2:{ split_and!; [done|by intros|done..]. }
  pose proof (handle_method_limiters env x req (with_limiters s l (rs_query_limiter s))) as Hm.
  cbn [with_limiters rs_query_limiter rs_ip_limiter] in Hm.
  destruct (handle_method env x req _) as [r s'].
  destruct (limiter_allow (re_query env) x (rs_query_limiter s)) as [ok l'] eqn:El.
  destruct Hm as [Hi Hq]. split; [done|]. split; [done|].
  destruct (String.eqb (rq_method req) "query"); [|done]. rewrite El. by destruct Hq.
Qed.

Lemma served_allowed ip w reqs s :
  served ip w (rpc_log reqs s) ≤ allowed ip w (ip_calls reqs) (rs_ip_limiter s).
Proof.
  revert s. induction reqs as [|[[env x] line] reqs IH]; intros s; [done|].
  cbn [rpc_log]. pose proof (handle_request_limiters env x line s) as Hr.
  destruct (handle_request env x line s) as [r s']. destruct Hr as (Hl&Ha&_). specialize (IH s').
  unfold served in *. rewrite sumN_cons. cbn [ip_calls omap list_omap].
  destruct (parse_request line) as [req|]; rewrite Hl in IH.
  2:{ rewrite bool_decide_false by (by intros [? [=]]). exact IH. }
  cbn [allowed]. destruct (limiter_allow (re_ip env) x (rs_ip_limiter s)) as [ok l]. cbn [snd fst] in *.
  fold (ip_calls reqs). rewrite bool_decide_true by done. cbn [andb]. unfold counts.
  destruct (rate_limited r); cbn [negb andb]; [lia|]. rewrite Ha by done. cbn [andb]. lia.
Qed.

Lemma queried_allowed ip w reqs s :
  queried ip w (rpc_log reqs s) ≤ allowed ip w (query_calls reqs s) (rs_query_limiter s).
Proof.
  revert s. induction reqs as [|[[env x] line] reqs IH]; intros s; [done|].
  cbn [rpc_log query_calls]. pose proof (handle_request_limiters env x line s) as Hr.
  destruct (handle_request env x line s) as [r s']. destruct Hr as (_&_&Hq). specialize (IH s').
  unfold queried in *. rewrite sumN_cons. cbn [snd].
  destruct (query_call env x line s) as [[t y]|]; cbn zeta.
  - destruct Hq as (Hl&->&->&Ha). rewrite Hl in IH. cbn [allowed].
    destruct (limiter_allow (re_query env) x (rs_query_limiter s)) as [ok l]. cbn [snd fst] in *.
    unfold counts. destruct (is_query_answer r); cbn [andb]; [rewrite Ha by done; cbn [andb]|]; lia.
  - destruct Hq as [Hl ->]. rewrite Hl in IH. cbn [andb]. lia.
Qed.

Lemma timed_mono t0 t1 (calls : list (Readings * IpAddr)) : t1 ≤ t0 → timed t0 calls → timed t1 calls.
Proof. destruct calls as [|[t x] calls]; simpl; [done|]. unfold ordered. intros ? [(?&?&?) ?]. split_and!; try done; lia. Qed.

Lemma ip_calls_timed t0 reqs : clocked t0 reqs → timed t0 (ip_calls reqs).
Proof.
  revert t0. induction reqs as [|[[env x] line] reqs IH]; intros t0; [done|]. cbn [clocked].
  intros (Hi&Hq&Hc). apply IH in Hc. cbn [ip_calls omap list_omap]. unfold ordered in *.
  destruct (parse_request line); fold (ip_calls reqs).
  - split; [done|]. eapply timed_mono; [|exact Hc]. lia.
  - eapply timed_mono; [|exact Hc]. lia.
Qed.

Lemma query_calls_timed t0 reqs s : clocked t0 reqs → timed t0 (query_calls reqs s).
Proof.
  revert t0 s. induction reqs as [|[[env x] line] reqs IH]; intros t0 s; [done|]. cbn [clocked query_calls].
  intros (Hi&Hq&Hc). specialize (IH _ (handle_request env x line s).2 Hc). unfold query_call, ordered in *.
  repeat case_match; simplify_eq; cbn [timed]; try (split; [unfold ordered; lia|done]);
    (eapply timed_mono; [|exact IH]; lia).
Qed.

(** ** Properties *)

(** C34: A connection ends, and serves exactly the lines of its stream: with fuel
    for one turn per byte the loop returns, with the responses to the lines up
    to the first one over the size limit - the last one may lack its newline if
    the stream ends, but not if it stalls - whatever the chunks in which the
    bytes arrive. *)
Theorem connection_terminates fuel env ip reader s :
  (length (stream reader).1 < fuel)%nat →
  serve_connection fuel env 0 ip reader s = Some (serve_lines env 0 ip (served_lines reader) s).
Proof. apply serve_connection_lines. Qed.

(** C31: What a request does.  It leaves the store, the status, the validators and
    the peers alone; its response carries the id of the request and either a
    result or an error.  A transaction is admitted exactly when the request is a
    submission within the rate limit, of non-empty hexadecimal text, that the
    application validates and the mempool admits at the priority it was given;
    then it joins the mempool and is handed to the network once.  Otherwise the
    mempool and the gossip stay as they are. *)
Theorem request_effects env ip line s :
  pool_ok (rs_mempool s) →
  match handle_request env ip line s with
  | (Ok resp, s') =>
      same_node s s' ∧ pool_ok (rs_mempool s') ∧ rp_id resp = request_id line ∧
      (rp_error resp = None ↔ is_Some (rp_result resp)) ∧
      (∀ tx priority gas, request_accepts env ip line s tx priority gas →
         rp_result resp = Some (RTx true) ∧ admitted s s' tx priority gas) ∧
      ((¬ ∃ tx priority gas, request_accepts env ip line s tx priority gas) →
         rp_result resp ≠ Some (RTx true) ∧ same_pool s s')
  | (_, s') => same_node s s' ∧ same_pool s s'
  end.
Proof.
  intros Hp. pose proof (handle_request_outcome env ip line s Hp) as Ho.
  destruct (handle_request env ip line s) as [[resp|[]|] s']; [|done..]. by destruct Ho.
Qed.

(** C33: The rate limits hold over any run of requests, from any addresses: in no
    second are more than twice the hundred requests of one address served, nor
    more than twice fifty of its queries answered by the application. *)
Theorem rate_bounded ip w reqs s t0 t1 :
  rs_ip_limiter s = limiter_with_rate t1 TX_RATE_LIMIT_PER_SEC →
  rs_query_limiter s = limiter_with_rate t1 QUERY_RATE_LIMIT_PER_SEC → clocked t0 reqs →
  served ip w (rpc_log reqs s) ≤ 2 * TX_RATE_LIMIT_PER_SEC ∧
  queried ip w (rpc_log reqs s) ≤ 2 * QUERY_RATE_LIMIT_PER_SEC.
Proof.
  intros Hi Hq Hc. split.
  - etrans; [apply served_allowed|]. rewrite Hi.
    apply (allowed_bounded ip w _ (limiter_with_rate t1 TX_RATE_LIMIT_PER_SEC) t0); [by apply ip_calls_timed|done].
  - etrans; [apply queried_allowed|]. rewrite Hq.
    apply (allowed_bounded ip w _ (limiter_with_rate t1 QUERY_RATE_LIMIT_PER_SEC) t0); [by apply query_calls_timed|done].
Qed.

(** C32: A committed transaction is found by its hash: when the engine has
    recorded a commit whose blocks are the store's blocks at their heights,
    [get_tx] with the hash of a transaction of these blocks answers with the
    place and the bytes of a transaction of these blocks that has this hash.
    [index_follows_height] shows that the condition on the store is needed. *)
Theorem committed_tx_found `{!BlockStoreLaws St, !TxIndexLaws St} r st s id b tx :
  in_store (cr_committed_blocks r) st → Forall indexable (cr_committed_blocks r) →
  rs_store s = record_committed r st → b ∈ cr_committed_blocks r → tx ∈ decode_payload (b_payload b) →
  ∃ b' i tx', b' ∈ cr_committed_blocks r ∧ decode_payload (b_payload b') !! i = Some tx' ∧ blake3 tx' = blake3 tx ∧
    handle_get_tx (mkRpcRequest "get_tx" (VString (hex_encode (blake3 tx))) id) s =
      rpc_ok id (RTxInfo (mkTxInfo (hex_encode (blake3 tx)) (b_height b') (N.of_nat i) (hex_encode tx'))).
Proof.
  intros Hs Hi Hst Hb Ht.
  destruct (record_committed_located r st (blake3 tx) Hs Hi) as [[_ Hp] (b'&i&tx'&Hb'&Hl&Hd&Hx)].
  { apply Exists_exists. exists b. split; [done|]. by exists tx. }
  exists b', i, tx'. split_and!; [done..|]. unfold handle_get_tx. cbn [rq_params rq_id as_str].
  assert (hex_to_block_hash (hex_encode (blake3 tx)) = Some (blake3 tx)) as Hh
    by apply hex_to_block_hash_encode, blake3_length.
  destruct (hex_encode (blake3 tx)) as [|c t] eqn:E.
  { apply (f_equal hex_decode) in E. rewrite hex_decode_encode in E.
    pose proof (blake3_length tx) as Hlen. vm_compute in E. simplify_eq. }
  rewrite Hh, Hst, Hl. rewrite (Hp b' Hb'), Nat2N.id, Hd. done.
Qed.
End Rpc.

(** ** Witnesses *)

#[local] Existing Instance blake3_pad.
#[local] Existing Instance sample_verifier.
#[local] Existing Instance gmap_mapx.
#[local] Existing Instance gmap_mapx_ord.

(** A parser of three requests, by the first byte of the line. *)
#[local] Instance sample_serde : SerdeJson := {|
  parse_request line :=
    match line with
    | x01 :: _ => Some (mkRpcRequest "submit_tx" (VString "ff01") 7)
    | x02 :: _ => Some (mkRpcRequest "query" (VObject [("path", VString "balance")]) 8)
    | x00 :: _ => Some (mkRpcRequest "status" VNull 9)
    | _ => None
    end;
  header_from_value _ := None;
  qc_from_value _ := None;
|}.

Notation SampleStore := (VsdbBlockStore (MB := gmap bytes Block) (MH := gmap N bytes)
  (MQ := gmap N QuorumCertificate) (MT := gmap bytes (N * N)) (MR := gmap N EndBlockResponse)).
Notation SampleRpc := (RpcState (IpAddr := N) (St := SampleStore) (App := NoopApplication)).

Definition sample_rpc (st : SampleStore) : SampleRpc :=
  mkRpcState 0 (mp_new 2 8) (mkConsensusStatus 3 1 0 4 1) st [] [] (Some Noop) None true [] (zeros 32)
    (limiter_with_rate 0 TX_RATE_LIMIT_PER_SEC) (limiter_with_rate 0 QUERY_RATE_LIMIT_PER_SEC).

(** The [n]-th request, [n] nanoseconds after the start. *)
Definition sample_env (n : nat) : ReqEnv :=
  let t := mkReadings (N.of_nat n) (N.of_nat n) (N.of_nat n) in mkReqEnv t t true true true.

(** A submission in two chunks, and a status request without its newline. *)
Lemma connection_terminates_witness :
  serve_connection 5 sample_env 0 1 [Some [x01]; Some [NEWLINE; x00]] (sample_rpc vs_new) =
    Some (serve_lines sample_env 0 1 [[x01]; [x00]] (sample_rpc vs_new)).
Proof.
  etrans; [apply connection_terminates; simpl; lia|]. reflexivity.
Defined.

Lemma request_effects_witness :
  match handle_request (sample_env 0) 1 [x01] (sample_rpc vs_new) with
  | (Ok resp, s') => rp_result resp = Some (RTx true) ∧ rs_broadcast s' = [[Byte.xff; x01]]
  | _ => False
  end.
Proof.
  pose proof (request_effects (sample_env 0) 1 [x01] (sample_rpc vs_new) (mp_new_ok 2 8)) as Hr.
  assert (request_accepts (sample_env 0) 1 [x01] (sample_rpc vs_new) [Byte.xff; x01] 0 0) as Ha.
  { eexists. split; [reflexivity|]. split; [vm_compute; reflexivity|]. split.
    - split; [done|]. split; [by exists "ff01"|]. done.
    - split; [done|]. split; [simpl; lia|]. simpl. rewrite lookup_empty. left. simpl. lia. }
  assert ((handle_request (sample_env 0) 1 [x01] (sample_rpc vs_new)).1 = Ok (rpc_ok 7 (RTx true))) as E
    by (vm_compute; reflexivity).
  destruct (handle_request (sample_env 0) 1 [x01] (sample_rpc vs_new)) as [r s']. cbn [fst] in E. subst r.
  destruct Hr as (_&_&_&_&Hacc&_). destruct (Hacc _ _ _ Ha) as [Hres [Hb _]]. by split.
Defined.

Definition sample_reqs : list (ReqEnv * N * bytes) :=
  [(sample_env 0, 1, [x01]); (sample_env 1, 1, [x02]); (sample_env 2, 2, [x00])].

Lemma rate_bounded_witness :
  served 1 0 (rpc_log sample_reqs (sample_rpc vs_new)) = 2 ∧
  queried 1 0 (rpc_log sample_reqs (sample_rpc vs_new)) = 1 ∧
  served 1 0 (rpc_log sample_reqs (sample_rpc vs_new)) ≤ 2 * TX_RATE_LIMIT_PER_SEC.
Proof.
  split; [vm_compute; reflexivity|]. split; [vm_compute; reflexivity|].
  assert (clocked 0 sample_reqs) as Hc by (simpl; unfold ordered; simpl; lia).
  destruct (rate_bounded 1 0 sample_reqs (sample_rpc vs_new) 0 0 eq_refl eq_refl Hc) as [Hs _]. exact Hs.
Defined.

(** Blocks at heights 1 and 2, and another block at height 1; each carries one
    transaction. *)
Definition tx_block (height : Height) (hash parent tx : byte) : Block :=
  mkBlock height (parent :: zeros 31) height 0 0 [x01; x00; x00; x00; tx] GENESIS_HASH [] (hash :: zeros 31).
Definition sample_b1 : Block := tx_block 1 Byte.x11 x00 Byte.xaa.
Definition sample_b2 : Block := tx_block 2 Byte.x12 Byte.x11 Byte.xbb.
Definition sample_fork : Block := tx_block 1 Byte.x21 x00 Byte.xcc.
Definition sample_commit : CommitResult :=
  mkCommitResult [sample_b1; sample_b2]
    (mkQC (b_hash sample_b2) 2 (mkAgg [] []) 0) None None GENESIS_HASH [].

Definition sample_store (blocks : list Block) : SampleStore := foldl put_block vs_new blocks.

Lemma sample_in_store : in_store [sample_b1; sample_b2] (sample_store [sample_b1; sample_b2]).
Proof.
  split.
  - apply put_block_ok; [apply put_block_ok; [exact mem_new_ok|]|]; intros b'; vm_compute; discriminate.
  - intros b [->|[->|[]%elem_of_nil]%elem_of_cons]%elem_of_cons; vm_compute; reflexivity.
Qed.

Lemma committed_tx_found_witness :
  ∃ b i tx, decode_payload (b_payload b) !! i = Some tx ∧ blake3 tx = blake3 [Byte.xaa] ∧
    handle_get_tx (mkRpcRequest "get_tx" (VString (hex_encode (blake3 [Byte.xaa]))) 1)
      (sample_rpc (record_committed sample_commit (sample_store [sample_b1; sample_b2]))) =
      rpc_ok 1 (RTxInfo (mkTxInfo (hex_encode (blake3 [Byte.xaa])) (b_height b) (N.of_nat i) (hex_encode tx))).
Proof.
  destruct (committed_tx_found sample_commit (sample_store [sample_b1; sample_b2])
    (sample_rpc (record_committed sample_commit (sample_store [sample_b1; sample_b2]))) 1 sample_b1 [Byte.xaa]
    sample_in_store) as (b&i&tx&_&Hd&Hx&Hr).
  - repeat constructor; vm_compute; discriminate.
  - reflexivity.
  - left.
  - vm_compute. left.
  - exists b, i, tx. split; [exact Hd|]. split; [exact Hx|exact Hr].
Defined.

(** The index names a height, and only the certified block of a commit is pinned
    to its height.  A block of another branch that is stored between the two
    keeps the height of the first, and [get_tx] answers with its transaction. *)
Lemma index_follows_height :
  let st := record_committed sample_commit (sample_store [sample_b1; sample_fork; sample_b2]) in
  handle_get_tx (mkRpcRequest "get_tx" (VString (hex_encode (blake3 [Byte.xaa]))) 1) (sample_rpc st) =
    rpc_ok 1 (RTxInfo (mkTxInfo (hex_encode (blake3 [Byte.xaa])) 1 0 (hex_encode [Byte.xcc]))).
Proof. vm_compute. reflexivity. Qed.
