(* ===== verification/TimeoutCert.v ===== *)
(** * Timeout certificates

    What [verify_tc] of the engine accepts, and that the certificates the
    pacemaker forms from verified wishes are accepted. *)

From S2P Require Import Prelude Types ValidatorSet Encoding Aggregate VoteCollector State Liveness.
From S2P Require Import BlockStore EvidenceStore World Pacemaker Commit ViewProtocol Engine Samples.

(** ** Power along the signers *)

Section Power.
Context (l : list ValidatorInfo) (check : nat → ValidatorInfo → Signature → bool).
Context (f : ValidatorInfo → N).

Lemma fold_entries_power acc entries a :
  fold_entries l (λ p i vi s, if check i vi s then Some (p +w f vi) else None) acc entries = Some a ↔
  (∀ i s, (i, s) ∈ entries → ∃ vi, l !! i = Some vi ∧ check i vi s = true) ∧
  a = foldl (λ p vi, p +w f vi) acc (omap (l !!.) entries.*1).
Proof.
  revert acc a. induction entries as [|[i s] entries IH]; intros acc a; csimpl.
  { split; [|naive_solver]. intros [= <-]. split; [|done]. intros i s Hin.
    by apply not_elem_of_nil in Hin. }
  split.
  - intros H. destruct (l !! i) as [vi|] eqn:Hi; simpl in H; [|done].
    destruct (check i vi s) eqn:Hc; simpl in H; [|done]. apply IH in H as [Ha ->].
    split; [|done]. intros j t [[= -> ->]|Hin]%elem_of_cons; [by eauto|by apply Ha].
  - intros [Ha ->]. destruct (Ha i s) as (vi&Hi&Hc); [left|]. rewrite Hi. simpl. rewrite Hc. simpl.
    apply IH. split; [|done]. intros. apply Ha. by right.
Qed.

End Power.

Lemma sumN_positions l i (signers : list bool) :
  sumN vi_power (omap (l !!.) (positions i signers)) = sumN bit_power (zip (drop i l) signers).
Proof.
  revert i. induction signers as [|b signers IH]; intros i; simpl.
  { by rewrite zip_with_nil_r. }
  destruct (l !! i) as [vi|] eqn:Hi.
  - rewrite (drop_S l vi i) by done. simpl. unfold bit_power at 1. simpl.
    rewrite <- IH. destruct b; csimpl; [by rewrite Hi|done].
  - pose proof Hi as Hge%lookup_ge_None. specialize (IH (S i)).
    rewrite !drop_ge in * by lia. destruct b; csimpl; rewrite ?Hi; done.
Qed.

(** ** [verify_tc] *)

Section VerifyTc.
Context {St App Ev : Type} `{!BlockStore St, !Application App, !EvidenceStore Ev}.
Context {B3 : Blake3} {Vf : Verifier}.
Implicit Types e : Engine St App Ev.

(** A wish of a member for [target], with the certificate it reports: the
    signature is over the current or the previous epoch, and the certificate is
    the genesis one or verifies. *)
Definition wish_valid e (target : ViewNumber) (vi : ValidatorInfo) (hqc : option QuorumCertificate)
    (sig : Signature) : Prop :=
  (∀ qc, hqc = Some qc → verify_justify_qc e qc = true) ∧
  verify_any_epoch e (vi_public_key vi)
    (λ epoch, PWish (cs_chain_id_hash (en_state e)) epoch target hqc) sig = true.

Definition wish_check e (tc : TimeoutCertificate) (target : ViewNumber) (i : nat)
    (vi : ValidatorInfo) (sig : Signature) : bool :=
  let hqc := mjoin (tc_highest_qcs tc !! i) in
  match hqc with Some qc => verify_justify_qc e qc | None => true end &&
  verify_any_epoch e (vi_public_key vi)
    (λ epoch, PWish (cs_chain_id_hash (en_state e)) epoch target hqc) sig.

Lemma tc_step_check e tc vs target p i vi sig :
  tc_step e tc vs target p i vi sig =
  if wish_check e tc target i vi sig then Some (p +w power_of vs (vi_id vi)) else None.
Proof.
  unfold tc_step, wish_check. destruct (mjoin _) as [qc|]; simpl; [|done].
  by destruct (verify_justify_qc e qc); simpl.
Qed.

Lemma wish_check_valid e tc target i vi sig :
  wish_check e tc target i vi sig = true ↔
  wish_valid e target vi (mjoin (tc_highest_qcs tc !! i)) sig.
Proof.
  unfold wish_check, wish_valid. rewrite andb_true_iff.
  destruct (mjoin _) as [qc|]; naive_solver.
Qed.

Record tc_valid e (vs : ValidatorSet) (tc : TimeoutCertificate) : Prop := {
  tv_view : tc_view tc < u64_max;
  tv_signers : length (agg_signers (tc_aggregate_signature tc)) = validator_count vs;
  tv_qcs : length (tc_highest_qcs tc) = validator_count vs;
  tv_aligned : aligned (tc_aggregate_signature tc);
  tv_wishes : ∀ i s, (i, s) ∈ agg_entries (tc_aggregate_signature tc) →
    ∃ vi, vs_validators vs !! i = Some vi ∧
      wish_valid e (tc_view tc + 1) vi (mjoin (tc_highest_qcs tc !! i)) s;
  tv_quorum : quorum_threshold vs ≤
    power_where (signed_by vs (tc_aggregate_signature tc)) (vs_validators vs);
}.

(** The power that the loop accumulates, when it reaches the end. *)
Notation tc_power vs agg :=
  (foldl (λ p vi, p +w power_of vs (vi_id vi)) 0
     (omap (vs_validators vs !!.) (agg_entries agg).*1)).

Lemma tc_fold e tc vs target a :
  fold_entries (vs_validators vs) (tc_step e tc vs target) 0
    (agg_entries (tc_aggregate_signature tc)) = Some a ↔
  (∀ i s, (i, s) ∈ agg_entries (tc_aggregate_signature tc) →
     ∃ vi, vs_validators vs !! i = Some vi ∧
       wish_valid e target vi (mjoin (tc_highest_qcs tc !! i)) s) ∧
  a = tc_power vs (tc_aggregate_signature tc).
Proof.
  pose proof (fold_entries_power (vs_validators vs) (wish_check e tc target)
    (λ vi, power_of vs (vi_id vi)) 0 (agg_entries (tc_aggregate_signature tc)) a) as Hf.
  setoid_rewrite wish_check_valid in Hf. rewrite <- Hf.
  erewrite fold_entries_ext; [done|]. intros. by rewrite tc_step_check.
Qed.

Lemma sumN_power_of vs k :
  vs_wf vs → (∀ vi, vi ∈ k → vi ∈ vs_validators vs) →
  sumN (λ vi, power_of vs (vi_id vi)) k = sumN vi_power k.
Proof.
  intros Hwf. induction k as [|vi k IH]; intros Hk; simpl; [done|].
  rewrite (power_of_lookup vs Hwf) by (apply Hk; left). rewrite IH; [done|].
  intros. apply Hk. by right.
Qed.

Lemma tc_power_where vs agg :
  vs_wf vs → aligned agg → tc_power vs agg = power_where (signed_by vs agg) (vs_validators vs).
Proof.
  intros Hwf Ha. rewrite (agg_entries_fst agg Ha), signed_power_where by done.
  pose proof (sumN_positions (vs_validators vs) 0 (agg_signers agg)) as Hs. rewrite drop_0 in Hs.
  assert (sumN (λ vi, power_of vs (vi_id vi))
            (omap (vs_validators vs !!.) (positions 0 (agg_signers agg))) =
          sumN bit_power (zip (vs_validators vs) (agg_signers agg))) as E.
  { rewrite sumN_power_of; [done..|]. intros vi Hin. apply list_elem_of_omap in Hin as (i&_&Hi).
    by eapply list_elem_of_lookup_2. }
  rewrite foldl_wrapping_sum, E, N.add_0_l; [done|].
  rewrite E, N.add_0_l, <- (signed_power_where vs agg Hwf).
  etrans; [apply power_where_le|apply Hwf].
Qed.

Lemma verify_tc_iff e tc vs : vs_wf vs → verify_tc e tc vs = true ↔ tc_valid e vs tc.
Proof.
  intros Hwf. unfold verify_tc. set (agg := tc_aggregate_signature tc).
  destruct (checked_add64 (tc_view tc) 1) as [target|] eqn:Hc.
  2: { apply checked_add64_None in Hc. split; [done|]. intros []. lia. }
  apply checked_add64_Some in Hc as [-> Hv].
  case_bool_decide as H1; cbn [negb]; [|by split; [|intros []]].
  case_bool_decide as H2; cbn [negb]; [|by split; [|intros []]].
  pose proof (tc_fold e tc vs (tc_view tc + 1)) as Hfold. fold agg in Hfold.
  pose proof (λ a, walk_signers_aligned (vs_validators vs) agg
                     (tc_step e tc vs (tc_view tc + 1)) 0 a) as Hw.
  assert (tc_valid e vs tc → walk_signers (vs_validators vs) (agg_signatures agg)
            (tc_step e tc vs (tc_view tc + 1)) 0 0 0 (agg_signers agg) =
          Some (tc_power vs agg, length (agg_signatures agg))) as Hval.
  { intros [_ _ _ Ha Hwi _]. apply Hw. split; [done|]. by apply Hfold. }
  destruct (walk_signers _ _ _ _ _ _ _) as [[power n]|].
  - case_bool_decide as Hn; cbn [negb].
    + subst n. destruct (Hw power) as [[Ha Hf%Hfold] _]; [done|]. destruct Hf as [Hv' ->].
      rewrite N.leb_le, tc_power_where by done. split; [|by intros []].
      intros Hq. split; try done. lia.
    + split; [done|]. intros [= _ ?]%Hval. done.
  - split; [done|]. by intros ?%Hval.
Qed.

(** ** Certificates the pacemaker forms *)

Lemma formed_tc_valid e vs p target id hqc sig p' tc :
  vs_wf vs → pm_inv p → 1 ≤ target → target ≤ u64_max →
  (∀ x vi, x ∈ default [] (pm_wishes p !! target) ++ [(id, hqc, sig)] →
     get vs x.1.1 = Some vi → wish_valid e target vi x.1.2 x.2) →
  add_wish p vs target id hqc sig = (p', Some tc) → tc_valid e vs tc.
Proof.
  intros Hwf Hinv H1 Hmax Hx Hadd. apply add_wish_spec in Hadd as (_&_&_&Htw&Hq); [|done..].
  destruct Htw as [Hv Ha Hs Hqs He Hr]. assert (tc_view tc = target - 1) as Hv'.
  { rewrite Hv. unfold saturating_sub. lia. }
  split; try done.
  - lia.
  - intros i s Hin. rewrite He in Hin. apply list_elem_of_omap in Hin as (x&Hin&Hwe).
    unfold wish_entry in Hwe. destruct (index_of vs x.1.1) as [j|] eqn:Hj; simplify_eq/=.
    rewrite (Hr x i Hin Hj). apply (index_of_spec vs Hwf) in Hj as (vi&Hi&Hid).
    exists vi. split; [done|]. replace (tc_view tc + 1) with target by lia.
    apply (Hx x vi Hin). apply (get_spec vs Hwf). split; [by eapply list_elem_of_lookup_2|done].
  - etrans; [exact Hq|]. apply power_where_mono. intros vi Hvi Hw. bool_prop.
    unfold wishers in Hw. apply list_elem_of_fmap in Hw as (x&Hid&Hin).
    unfold signed_by. apply list_elem_of_lookup in Hvi as [i Hi].
    pose proof (index_of_lookup vs Hwf i vi Hi) as Hix. rewrite Hix. apply bool_decide_eq_true.
    apply (agg_entries_signer _ i x.2). rewrite He. apply list_elem_of_omap.
    exists x. split; [done|]. unfold wish_entry. by rewrite <- Hid, Hix.
Qed.

(** ** Properties *)

(** [verify_tc] accepts a timeout certificate exactly when its view is not
    the last one, it has one signer bit and one reported certificate per
    validator and one signature per set bit, every set bit's signature is that
    validator's wish for the next view with the certificate reported for it, for
    the current or the previous epoch, every reported certificate of a signer is
    the genesis one or verifies, and the signers hold a quorum of the power. *)
Lemma verify_tc_correct e tc vs :
  vs_wf vs →
  verify_tc e tc vs = true ↔
    tc_view tc < u64_max ∧
    length (agg_signers (tc_aggregate_signature tc)) = validator_count vs ∧
    length (tc_highest_qcs tc) = validator_count vs ∧
    aligned (tc_aggregate_signature tc) ∧
    (∀ i s, (i, s) ∈ agg_entries (tc_aggregate_signature tc) →
       ∃ vi, vs_validators vs !! i = Some vi ∧
         wish_valid e (tc_view tc + 1) vi (mjoin (tc_highest_qcs tc !! i)) s) ∧
    quorum_threshold vs ≤
      power_where (signed_by vs (tc_aggregate_signature tc)) (vs_validators vs).
Proof.
  intros Hwf. rewrite verify_tc_iff by done. split; [by intros []|].
  intros (?&?&?&?&?&?). by split.
Qed.

(** A timeout certificate that [add_wish] forms from wishes whose signatures
    and reported certificates verify is for the view before the wished one and
    passes the verification every node applies to a received certificate. *)
Lemma formed_tc_verifies e p target id hqc sig p' tc :
  let vs := cs_validator_set (en_state e) in
  vs_wf vs → pm_inv p → 1 ≤ target → target ≤ u64_max →
  (∀ x vi, x ∈ default [] (pm_wishes p !! target) ++ [(id, hqc, sig)] →
     get vs x.1.1 = Some vi → wish_valid e target vi x.1.2 x.2) →
  add_wish p vs target id hqc sig = (p', Some tc) →
  tc_view tc + 1 = target ∧ verify_message e (TimeoutCert tc) = true.
Proof.
  intros vs Hwf Hinv H1 Hmax Hx Hadd.
  pose proof (formed_tc_valid e vs p target id hqc sig p' tc Hwf Hinv H1 Hmax Hx Hadd) as Hv.
  apply add_wish_spec in Hadd as (_&_&_&[Ht _ _ _ _ _]&_); [|done..].
  unfold saturating_sub in Ht. split; [lia|].
  apply verify_tc_iff in Hv as Hvt; [|done]. unfold verify_message, msg_view.
  rewrite (proj2 (checked_add64_Some (tc_view tc) 1 target)) by lia. simpl.
  fold vs. rewrite Hvt. by destruct (target <? _).
Qed.
End VerifyTc.

(** ** Witnesses *)

#[local] Existing Instance sample_blake3.
#[local] Existing Instance sample_verifier.

Definition sample_wish (vi : ValidatorInfo) : wish :=
  (vi_id vi, Some sample_genesis_qc,
   sample_sign (vi_public_key vi)
     (payload_bytes (PWish (zeros 32) 0 2 (Some sample_genesis_qc)))).

Definition sample_pacemaker : Pacemaker :=
  set_wishes (pm_with_config 0 PacemakerConfig_default)
    {[2 := sample_wish <$> [mkValidatorInfo 5 (x02 :: zeros 31) 3;
                            mkValidatorInfo 3 (x01 :: zeros 31) 2]]}.

Definition sample_last_wish : wish := sample_wish (mkValidatorInfo 9 (x00 :: x01 :: zeros 30) 4).

Definition sample_tc_out : Pacemaker * option TimeoutCertificate :=
  add_wish sample_pacemaker sample_set 2 9 (Some sample_genesis_qc) sample_last_wish.2.

Lemma sample_wishes_valid (vi : ValidatorInfo) :
  vi ∈ sample_infos → wish_valid sample_engine 2 vi (Some sample_genesis_qc) (sample_wish vi).2.
Proof.
  intros Hvi. split; [intros qc [= <-]; vm_compute; reflexivity|]. unfold sample_infos in Hvi.
  repeat (apply elem_of_cons in Hvi as [->|Hvi]; [vm_compute; reflexivity|]).
  by apply not_elem_of_nil in Hvi.
Qed.

Lemma sample_pm_inv : pm_inv sample_pacemaker.
Proof.
  intros v l. unfold sample_pacemaker. simpl. rewrite lookup_singleton_Some. intros [_ <-].
  apply (bool_decide_unpack _). vm_compute. exact I.
Qed.

Definition sample_tc : TimeoutCertificate := default (mkTC 0 (agg_new 0) []) sample_tc_out.2.

Lemma sample_tc_formed : sample_tc_out = (sample_tc_out.1, Some sample_tc).
Proof.
  assert (bool_decide (is_Some sample_tc_out.2) = true) as H by (vm_compute; reflexivity).
  apply bool_decide_eq_true in H as [tc E]. unfold sample_tc.
  destruct sample_tc_out as [p o]. simpl in *. by subst o.
Qed.

Lemma sample_bucket_valid x vi :
  x ∈ default [] (pm_wishes sample_pacemaker !! 2) ++ [(9, Some sample_genesis_qc, sample_last_wish.2)] →
  get sample_set x.1.1 = Some vi → wish_valid sample_engine 2 vi x.1.2 x.2.
Proof.
  assert (∀ w, w ∈ sample_infos → get sample_set (vi_id w) = Some vi →
            wish_valid sample_engine 2 vi (Some sample_genesis_qc) (sample_wish w).2) as Hw.
  { intros w Hin Hg. assert (w = vi) as ->; [|by apply sample_wishes_valid].
    apply (get_spec _ sample_set_wf) in Hg as [Hvi E].
    apply list_elem_of_lookup in Hin as [i Hi], Hvi as [j Hj].
    pose proof (id_inj _ sample_set_wf i j w vi Hi Hj (eq_sym E)) as <-.
    change (vs_validators sample_set) with sample_infos in Hj. congruence. }
  intros [Hx|Hx]%elem_of_app.
  - unfold sample_pacemaker in Hx. simpl in Hx. rewrite lookup_singleton_eq in Hx. simpl in Hx.
    apply elem_of_cons in Hx as [->|Hx]; [apply (Hw (mkValidatorInfo 5 (x02 :: zeros 31) 3)); set_solver|].
    apply list_elem_of_singleton in Hx as ->.
    apply (Hw (mkValidatorInfo 3 (x01 :: zeros 31) 2)). set_solver.
  - apply list_elem_of_singleton in Hx as ->.
    apply (Hw (mkValidatorInfo 9 (x00 :: x01 :: zeros 30) 4)). set_solver.
Qed.

Lemma verify_tc_correct_witness :
  verify_tc sample_engine sample_tc sample_set = true ∧
  quorum_threshold sample_set ≤
    power_where (signed_by sample_set (tc_aggregate_signature sample_tc)) (vs_validators sample_set).
Proof.
  assert (verify_tc sample_engine sample_tc sample_set = true) as Hv by (vm_compute; reflexivity).
  split; [exact Hv|].
  apply (verify_tc_correct sample_engine sample_tc sample_set sample_set_wf) in Hv
    as (_&_&_&_&_&Hq).
  exact Hq.
Defined.

Lemma formed_tc_verifies_witness :
  tc_view sample_tc + 1 = 2 ∧ verify_message sample_engine (TimeoutCert sample_tc) = true.
Proof.
  apply (formed_tc_verifies sample_engine sample_pacemaker 2 9 (Some sample_genesis_qc)
           sample_last_wish.2 sample_tc_out.1 sample_tc).
  - apply sample_set_wf.
  - apply sample_pm_inv.
  - lia.
  - vm_compute. discriminate.
  - apply sample_bucket_valid.
  - apply sample_tc_formed.
Defined.
