(* ===== verification/Relay.v ===== *)
(** * Relay verification ([verify_relay_sender] of [hotmint-consensus/src/engine.rs])

    Before a node forwards a consensus message it checks the signature of the
    message's author against the validator set of the current epoch.  The check
    is compared with the full one of the engine. *)

From S2P Require Import Prelude Types ValidatorSet Encoding Aggregate VoteCollector State.
From S2P Require Import BlockStore EvidenceStore World Engine TimeoutCert Samples.

Section Relay.
Context {B3 : Blake3} {Vf : Verifier}.
Implicit Types (keys : gmap N bytes) (ordered : list N).

(** The loop over the signer bits of a timeout certificate; [None] is
    [return false].  The code's [sig_idx] and [verified_count] always agree. *)
Fixpoint relay_tc_loop keys ordered (tc : TimeoutCertificate) (chain_id_hash : bytes)
    (epoch : EpochNumber) (target_view : ViewNumber) (i sig_idx : nat) (signers : list bool)
    : option nat :=
  match signers with
  | [] => Some sig_idx
  | false :: rest => relay_tc_loop keys ordered tc chain_id_hash epoch target_view (S i) sig_idx rest
  | true :: rest =>
      vid ← ordered !! i;
      pk ← keys !! vid;
      let hqc := mjoin (tc_highest_qcs tc !! i) in
      sig ← agg_signatures (tc_aggregate_signature tc) !! sig_idx;
      if verify pk (wish_signing_bytes chain_id_hash epoch target_view hqc) sig
      then relay_tc_loop keys ordered tc chain_id_hash epoch target_view (S i) (S sig_idx) rest
      else None
  end.

Definition verify_relay_sender (sender : ValidatorId) (msg : ConsensusMessage) keys ordered
    (leader_for_view : option ValidatorId) (chain_id_hash : bytes) (epoch : EpochNumber) : bool :=
  match msg with
  | Propose block justify _ signature _ =>
      match keys !! b_proposer block with
      | None => false
      | Some pk => verify pk (proposal_signing_bytes chain_id_hash epoch block justify) signature
      end
  | VoteMsg vote | Vote2Msg vote =>
      if negb (v_epoch vote =? epoch) then false
      else
        match keys !! v_validator vote with
        | None => false
        | Some pk =>
            verify pk (vote_signing_bytes chain_id_hash (v_epoch vote) (v_view vote)
                         (v_validator vote) (v_block_hash vote) (v_vote_type vote)
                         (v_extension vote)) (v_signature vote)
        end
  | Prepare certificate signature =>
      if match leader_for_view with Some leader => negb (sender =? leader) | None => false end
      then false
      else
        match keys !! sender with
        | None => false
        | Some pk => verify pk (prepare_signing_bytes chain_id_hash epoch certificate) signature
        end
  | Wish target_view validator highest_qc signature =>
      match keys !! validator with
      | None => false
      | Some pk => verify pk (wish_signing_bytes chain_id_hash epoch target_view highest_qc) signature
      end
  | TimeoutCert tc =>
      match checked_add64 (tc_view tc) 1 with
      | None => false
      | Some target_view =>
          let n := length ordered in
          let agg := tc_aggregate_signature tc in
          if (n =? 0)%nat || negb (length (agg_signers agg) =? n)%nat then false
          else
            match relay_tc_loop keys ordered tc chain_id_hash epoch target_view 0 0 (agg_signers agg) with
            | None => false
            | Some count =>
                if negb (count =? length (agg_signatures agg))%nat then false
                else (n * 2 <? count * 3)%nat
            end
      end
  | StatusCert _ validator _ => match keys !! validator with Some _ => true | None => false end
  | Evidence _ => match keys !! sender with Some _ => true | None => false end
  end.

(** ** What the check establishes *)

(** The tables of the service follow a validator set. *)
Definition keys_of (vs : ValidatorSet) : gmap N bytes :=
  collect_map ((λ v, (vi_id v, vi_public_key v)) <$> vs_validators vs).
Definition ids_of (vs : ValidatorSet) : list N := vi_id <$> vs_validators vs.

Lemma collect_map_NoDup (l : list (N * bytes)) : NoDup l.*1 → collect_map l = list_to_map l.
Proof.
  assert (∀ m : gmap N bytes, NoDup l.*1 → (∀ k, k ∈ l.*1 → m !! k = None) →
    foldl (λ m '(k, x), <[k := x]> m) m l = (list_to_map l : gmap N bytes) ∪ m) as Hg.
  { induction l as [|[k x] l IH]; intros m; csimpl; [by rewrite (left_id_L ∅ (∪))|].
    intros [Hk Hnd]%NoDup_cons Hm. rewrite IH; [| done|].
    - rewrite <- insert_union_l. symmetry. apply insert_union_r. by apply not_elem_of_list_to_map.
    - intros j Hj. rewrite lookup_insert_ne by (intros ->; done). apply Hm. by right. }
  intros Hnd. unfold collect_map. rewrite Hg by done. by rewrite (right_id_L ∅ (∪)).
Qed.

Context (vs : ValidatorSet) (Hwf : vs_wf vs).

Lemma keys_of_list_to_map :
  keys_of vs = list_to_map ((λ v, (vi_id v, vi_public_key v)) <$> vs_validators vs).
Proof. apply collect_map_NoDup. rewrite <- list_fmap_compose. apply Hwf. Qed.

Lemma keys_of_lookup id : keys_of vs !! id = vi_public_key <$> get vs id.
Proof.
  rewrite keys_of_list_to_map. destruct (get vs id) as [v|] eqn:E; simpl.
  - apply (get_spec vs Hwf) in E as [Hin <-]. apply elem_of_list_to_map.
    + rewrite <- list_fmap_compose. apply Hwf.
    + apply list_elem_of_fmap. by exists v.
  - apply not_elem_of_list_to_map. rewrite <- list_fmap_compose. intros Hin.
    apply list_elem_of_fmap in Hin as (v & -> & Hv). by apply (get_None vs Hwf) with (v := v) in E.
Qed.

Lemma keys_of_Some id pk :
  keys_of vs !! id = Some pk ↔ ∃ v, get vs id = Some v ∧ vi_public_key v = pk.
Proof. rewrite keys_of_lookup, fmap_Some. naive_solver. Qed.

(** The loop is the engine's walk over the signers, with the wish signature
    under one epoch as the check. *)
Lemma relay_tc_loop_walk tc chain epoch target i k signers :
  relay_tc_loop (keys_of vs) (ids_of vs) tc chain epoch target i k signers =
  snd <$> walk_signers (vs_validators vs) (agg_signatures (tc_aggregate_signature tc))
    (λ (_ : unit) i vi s,
       if verify (vi_public_key vi)
            (wish_signing_bytes chain epoch target (mjoin (tc_highest_qcs tc !! i))) s
       then Some () else None) () i k signers.
Proof.
  revert i k. induction signers as [|[] signers IH]; intros i k; simpl; [done| |apply IH].
  assert (ids_of vs !! i = vi_id <$> vs_validators vs !! i) as -> by apply list_lookup_fmap.
  destruct (vs_validators vs !! i) as [v|] eqn:Hi; simpl; [|done].
  rewrite keys_of_lookup. rewrite (proj2 (get_spec vs Hwf (vi_id v) v)).
  2: { split; [|done]. by apply list_elem_of_lookup_2 in Hi. }
  simpl. destruct (_ !! k) as [s|]; simpl; [|done].
  destruct (verify _ _ _); simpl; [apply IH|done].
Qed.

(** The authors whose signature a message shows, per kind of message. *)
Definition author_signed (chain : bytes) (epoch : EpochNumber) (sender : ValidatorId)
    (msg : ConsensusMessage) : Prop :=
  let signed id payload sig := ∃ v, get vs id = Some v ∧ verify (vi_public_key v) payload sig = true in
  match msg with
  | Propose block justify _ signature _ =>
      signed (b_proposer block) (proposal_signing_bytes chain epoch block justify) signature
  | VoteMsg vote | Vote2Msg vote =>
      v_epoch vote = epoch ∧
      signed (v_validator vote)
        (vote_signing_bytes chain epoch (v_view vote) (v_validator vote) (v_block_hash vote)
           (v_vote_type vote) (v_extension vote)) (v_signature vote)
  | Prepare certificate signature =>
      (∃ l, leader_for_view vs (qc_view certificate) = Some l ∧ vi_id l = sender) ∧
      signed sender (prepare_signing_bytes chain epoch certificate) signature
  | Wish target_view validator highest_qc signature =>
      signed validator (wish_signing_bytes chain epoch target_view highest_qc) signature
  | TimeoutCert tc =>
      let agg := tc_aggregate_signature tc in
      tc_view tc < u64_max ∧ length (agg_signers agg) = validator_count vs ∧ aligned agg ∧
      (∀ i s, (i, s) ∈ agg_entries agg → ∃ v, vs_validators vs !! i = Some v ∧
         verify (vi_public_key v)
           (wish_signing_bytes chain epoch (tc_view tc + 1) (mjoin (tc_highest_qcs tc !! i))) s = true) ∧
      (2 * validator_count vs < 3 * agg_count agg)%nat
  | StatusCert _ validator _ => is_Some (get vs validator)
  | Evidence _ => is_Some (get vs sender)
  end.

Lemma signed_iff id payload sig :
  match keys_of vs !! id with Some pk => verify pk payload sig | None => false end = true ↔
  ∃ v, get vs id = Some v ∧ verify (vi_public_key v) payload sig = true.
Proof. rewrite keys_of_lookup. destruct (get vs id) as [v|]; simpl; naive_solver. Qed.

Lemma known_iff id :
  match keys_of vs !! id with Some _ => true | None => false end = true ↔ is_Some (get vs id).
Proof.
  rewrite keys_of_lookup. destruct (get vs id); simpl; [by eauto|].
  split; [done|]. by intros [? ?].
Qed.

Lemma relay_tc_iff tc chain epoch target :
  relay_tc_loop (keys_of vs) (ids_of vs) tc chain epoch target 0 0
    (agg_signers (tc_aggregate_signature tc)) =
    Some (length (agg_signatures (tc_aggregate_signature tc))) ↔
  aligned (tc_aggregate_signature tc) ∧
  ∀ i s, (i, s) ∈ agg_entries (tc_aggregate_signature tc) → ∃ v, vs_validators vs !! i = Some v ∧
    verify (vi_public_key v)
      (wish_signing_bytes chain epoch target (mjoin (tc_highest_qcs tc !! i))) s = true.
Proof.
  rewrite relay_tc_loop_walk, <- fold_entries_check, <- walk_signers_aligned.
  destruct (walk_signers _ _ _ _ _ _ _) as [[[] n]|]; simpl; naive_solver.
Qed.

Lemma relay_tc_verified tc chain epoch sender leader :
  verify_relay_sender sender (TimeoutCert tc) (keys_of vs) (ids_of vs) leader chain epoch = true ↔
  author_signed chain epoch sender (TimeoutCert tc).
Proof.
  assert (length (ids_of vs) = validator_count vs) as Hids by apply length_fmap.
  cbn [verify_relay_sender author_signed]. rewrite Hids.
  destruct (checked_add64 (tc_view tc) 1) as [target|] eqn:Hc.
  2: { apply checked_add64_None in Hc. split; [done|]. intros (? & _). lia. }
  apply checked_add64_Some in Hc as [-> Hv].
  destruct (Nat.eqb_spec (validator_count vs) 0) as [H0|H0]; cbn [orb].
  { split; [done|]. intros (_ & Hl & _ & _ & Hn). rewrite <- Hl in Hn. unfold agg_count, count_true in Hn.
    pose proof (length_filter (λ b, b = true) (agg_signers (tc_aggregate_signature tc))). lia. }
  destruct (Nat.eqb_spec (length (agg_signers (tc_aggregate_signature tc))) (validator_count vs)) as [Hl|Hl];
    cbn [negb]; [|split; [done|by intros (_ & ? & _)]].
  pose proof (relay_tc_iff tc chain epoch (tc_view tc + 1)) as Hr.
  destruct (relay_tc_loop _ _ _ _ _ _ _ _ _) as [c|].
  2: { split; [done|]. intros (_ & _ & Ha & Hs & _). by destruct Hr as [_ Hr]; discriminate (Hr (conj Ha Hs)). }
  destruct (Nat.eqb_spec c (length (agg_signatures (tc_aggregate_signature tc)))) as [->|Hne]; cbn [negb].
  - destruct Hr as [[Ha Hs] _]; [done|]. rewrite Nat.ltb_lt. unfold aligned in Ha. rewrite Ha.
    split; [|intros (_ & _ & _ & _ & ?); lia]. intros. split_and!; [lia|done|done|done|lia].
  - split; [done|]. intros (_ & _ & Ha & Hs & _). destruct Hr as [_ Hr].
    injection (Hr (conj Ha Hs)). lia.
Qed.

Lemma leader_id_of view :
  (vi_id <$> leader_for_view vs view = None ∧ vs_validators vs = []) ∨
  ∃ l, leader_for_view vs view = Some l.
Proof.
  destruct (decide (vs_validators vs = [])) as [E|E].
  - left. unfold leader_for_view. by rewrite bool_decide_true.
  - right. destruct (leader_for_view_slot vs Hwf view E) as (_ & l & Hl & _). eauto.
Qed.

(** What [verify_relay_sender] accepts, given the tables of a validator set and
    the leader of a certificate's view. *)
Lemma verify_relay_sender_iff sender msg chain epoch :
  verify_relay_sender sender msg (keys_of vs) (ids_of vs)
    (match msg with Prepare c _ => vi_id <$> leader_for_view vs (qc_view c) | _ => None end)
    chain epoch = true ↔
  author_signed chain epoch sender msg.
Proof.
  destruct msg as [b j d s a|v|c s|v|t val q s|tc|q val s|p]; [..|apply relay_tc_verified| |];
    cbn [verify_relay_sender author_signed]; try apply signed_iff; try apply known_iff.
  - destruct (N.eqb_spec (v_epoch v) epoch) as [<-|]; cbn [negb]; [|naive_solver].
    rewrite signed_iff. naive_solver.
  - rewrite <- signed_iff. destruct (leader_id_of (qc_view c)) as [[-> Hnil]|(l & Hl)].
    + rewrite keys_of_lookup. assert (get vs sender = None) as ->; [|naive_solver].
      apply (get_None vs Hwf). rewrite Hnil. intros ? []%not_elem_of_nil.
    + rewrite Hl. simpl. destruct (N.eqb_spec sender (vi_id l)) as [->|Hne]; simpl; [|naive_solver].
      split; [|naive_solver]. intros Hv. split; [|done]. by exists l.
  - destruct (N.eqb_spec (v_epoch v) epoch) as [<-|]; cbn [negb]; [|naive_solver].
    rewrite signed_iff. naive_solver.
Qed.
End Relay.

(** ** The relay and the engine *)

Section Compare.
Context {St App Ev : Type} `{!BlockStore St, !Application App, !EvidenceStore Ev}.
Context {B3 : Blake3} {Vf : Verifier}.
Implicit Types e : Engine St App Ev.

Lemma verify_any_epoch_current e pk payload sig :
  en_previous_epoch e = None →
  verify_any_epoch e pk payload sig =
    verify pk (payload_bytes (payload (e_number (cs_current_epoch (en_state e))))) sig.
Proof.
  intros Hp. unfold verify_any_epoch, verification_epochs. rewrite Hp. simpl.
  rewrite orb_false_r. apply orb_diag.
Qed.

(** Who may send the message on: a prepare comes from the leader of its view, a
    timeout certificate has more than two thirds of the validators by number,
    and evidence comes from a validator. *)
Definition relayable (vs : ValidatorSet) (sender : ValidatorId) (msg : ConsensusMessage) : Prop :=
  match msg with
  | Prepare c _ => ∃ l, leader_for_view vs (qc_view c) = Some l ∧ vi_id l = sender
  | TimeoutCert tc => (2 * validator_count vs < 3 * agg_count (tc_aggregate_signature tc))%nat
  | Evidence _ => is_Some (get vs sender)
  | _ => True
  end.

(** Outside an epoch change, a message that the engine accepts passes the
    relay's check. *)
Lemma accepted_author_signed e sender msg :
  let s := en_state e in
  vs_wf (cs_validator_set s) → en_previous_epoch e = None →
  verify_message_body e msg = true → relayable (cs_validator_set s) sender msg →
  author_signed (cs_validator_set s) (cs_chain_id_hash s) (e_number (cs_current_epoch s)) sender msg.
Proof.
  intros s Hwf Hp. assert (∀ v, v = e_number (cs_current_epoch s) ∨ validator_set_for_epoch e v = None) as Hve.
  { intros v. unfold validator_set_for_epoch. fold s. rewrite Hp. destruct (N.eqb_spec v (e_number (cs_current_epoch s))); auto. }
  destruct msg as [b j d sg a|v|c sg|v|t val q sg|tc|q val sg|p]; cbn [verify_message_body relayable author_signed];
    fold s; [| | | | |..|done].
  - destruct (get _ _) as [vi|]; [|done]. rewrite verify_any_epoch_current by done.
    destruct (verify _ _ _) eqn:Hv; cbn [negb]; [|done]. intros _ _. by exists vi.
  - destruct (Hve (v_epoch v)) as [E| ->]; [|done]. unfold validator_set_for_epoch. fold s. rewrite E, N.eqb_refl.
    destruct (get _ _) as [vi|]; [|done]. destruct (_ && _); [done|]. intros Hv _. split; [done|]. by exists vi.
  - destruct (leader_for_view _ _) as [l|] eqn:Hl; [|done]. rewrite verify_any_epoch_current by done.
    destruct (verify _ _ _) eqn:Hv; cbn [negb]; [|done]. intros _ (l' & [= <-] & <-). split; [by exists l|].
    exists l. split; [|done]. apply (get_spec _ Hwf). split; [|done]. by eapply leader_elem.
  - destruct (Hve (v_epoch v)) as [E| ->]; [|done]. unfold validator_set_for_epoch. fold s. rewrite E, N.eqb_refl.
    destruct (get _ _) as [vi|]; [|done]. destruct (_ && _); [done|]. intros Hv _. split; [done|]. by exists vi.
  - unfold Commit.get_with_previous. rewrite Hp.
    destruct (get _ val) as [vi|] eqn:Hg; [|done]. rewrite verify_any_epoch_current by done.
    intros Hv _. by exists vi.
  - rewrite Hp. destruct (verify_tc e tc (cs_validator_set s)) eqn:Htc; [|done]. intros _ Hn.
    apply verify_tc_iff in Htc as [T1 T2 _ T4 T5 _]; [|done]. split_and!; [done..| |done].
    intros i sg Hin. destruct (T5 i sg Hin) as (vi & Hi & _ & Hv). exists vi. split; [done|].
    by rewrite verify_any_epoch_current in Hv.
  - destruct (get _ _) as [vi|]; [|done]. eauto.
Qed.
End Compare.

(** ** A timeout certificate that is not relayed *)

#[local] Existing Instance sample_blake3.
#[local] Existing Instance sample_verifier.

(** Signed by the two heaviest of four validators, which hold a quorum. *)
Definition heavy_tc : TimeoutCertificate :=
  mkTC 1 (mkAgg [false; false; true; true]
            ((λ v, sample_sign (vi_public_key v) (wish_signing_bytes (zeros 32) 0 2 None)) <$> drop 2 sample_infos))
    [None; None; None; None].

(** The relay counts validators where the engine counts power: a certificate
    that the engine accepts is not forwarded. *)
Lemma heavy_tc_not_relayed sender :
  verify_message_body sample_e0 (TimeoutCert heavy_tc) = true ∧
  verify_relay_sender sender (TimeoutCert heavy_tc) (keys_of sample_set) (ids_of sample_set) None
    (zeros 32) 0 = false.
Proof. split; vm_compute; reflexivity. Qed.
