(* ===== verification/Network.v ===== *)
(** * The network service ([hotmint-network/src/service.rs])

    The service around the peer-to-peer library: routing between validators and
    peers, admission of connections and streams, ingress limits, relay with
    deduplication, mempool gossip, block sync transport and peer exchange.  Each
    event of its loop is a function on the state of the service; what it hands
    to the library and to the channels of the node is recorded in order, most
    recent first.  The library ([litep2p]) is a parameter; an event comes with
    the readings of the clocks, the draw of the random generator, and whether
    the channel it may write to has room. *)

From S2P Require Import Prelude Types ValidatorSet Encoding Codec PeerBook.
From S2P Require Import Engine Sync Relay.

(** [litep2p]: printing and parsing of peer ids and addresses, and the peer id
    of an ed25519 key. *)
Class Litep2p (PeerId : Type) : Type := {
  peer_to_string : PeerId → string;
  peer_parse : string → option PeerId;
  peer_of_key : PublicKey → option PeerId;
  addr_parse : string → option string;        (* parsed, and printed again *)
  addr_push_p2p : string → PeerId → string;
}.

Definition MAX_CONSENSUS_INGRESS_BYTES_PER_SEC : N := 32 * 1024 * 1024.
Definition MAX_TX_BYTES_PER_SEC : N := 4 * 1024 * 1024.

(** Instants are in nanoseconds. *)
Definition SEC : N := 1000000000.

(** ** The map between validators and peers *)

Record PeerMap (PeerId : Type) `{Countable PeerId} : Type := mkPeerMap {
  validator_to_peer : gmap N PeerId;
  peer_to_validator : gmap PeerId N;
}.
Arguments mkPeerMap {PeerId _ _}.
Arguments validator_to_peer {PeerId _ _}.
Arguments peer_to_validator {PeerId _ _}.

Section PeerMap.
Context {PeerId : Type} `{Countable PeerId}.
Implicit Types m : PeerMap PeerId.

Definition pm_new : PeerMap PeerId := mkPeerMap ∅ ∅.

Definition pm_insert m (vid : ValidatorId) (pid : PeerId) : PeerMap PeerId :=
  let p2v := match validator_to_peer m !! vid with
             | Some old_pid => delete old_pid (peer_to_validator m)
             | None => peer_to_validator m
             end in
  let v2p := <[vid := pid]> (validator_to_peer m) in
  let v2p := match p2v !! pid with
             | Some old_vid => if old_vid =? vid then v2p else delete old_vid v2p
             | None => v2p
             end in
  mkPeerMap v2p (<[pid := vid]> p2v).

Definition pm_remove m (vid : ValidatorId) : PeerMap PeerId * option PeerId :=
  match validator_to_peer m !! vid with
  | Some pid => (mkPeerMap (delete vid (validator_to_peer m)) (delete pid (peer_to_validator m)), Some pid)
  | None => (m, None)
  end.
End PeerMap.

(** ** Events and effects *)

Inductive NetCommand (PeerId : Type) : Type :=
| CmdBroadcast (bs : bytes)
| CmdSendTo (target : ValidatorId) (bs : bytes)
| CmdSyncRequest (peer : PeerId) (bs : bytes)
| CmdSyncRespond (request_id : N) (bs : bytes)
| CmdBroadcastTx (bs : bytes).
Arguments CmdBroadcast {PeerId}.
Arguments CmdSendTo {PeerId}.
Arguments CmdSyncRequest {PeerId}.
Arguments CmdSyncRespond {PeerId}.
Arguments CmdBroadcastTx {PeerId}.

Inductive NotificationEvent (PeerId : Type) : Type :=
| ValidateSubstream (peer : PeerId) (handshake : bytes)
| NotificationStreamOpened (peer : PeerId)
| NotificationStreamClosed (peer : PeerId)
| NotificationReceived (peer : PeerId) (notification : bytes)
| NotificationStreamOpenFailure (peer : PeerId).
Arguments ValidateSubstream {PeerId}.
Arguments NotificationStreamOpened {PeerId}.
Arguments NotificationStreamClosed {PeerId}.
Arguments NotificationReceived {PeerId}.
Arguments NotificationStreamOpenFailure {PeerId}.

Inductive RequestResponseEvent (PeerId : Type) : Type :=
| RequestReceived (peer : PeerId) (request_id : N) (request : bytes)
| ResponseReceived (response : bytes)
| RequestFailed (peer : PeerId).
Arguments RequestReceived {PeerId}.
Arguments ResponseReceived {PeerId}.
Arguments RequestFailed {PeerId}.

Inductive Litep2pEvent (PeerId : Type) : Type :=
| ConnectionEstablished (peer : PeerId)
| ConnectionClosed (peer : PeerId)
| DialFailure
| OtherEvent.
Arguments ConnectionEstablished {PeerId}.
Arguments ConnectionClosed {PeerId}.
Arguments DialFailure {PeerId}.
Arguments OtherEvent {PeerId}.

(** The handles of the library, one per protocol. *)
Inductive Protocol : Type := PNotif | PMempool | PReqResp | PSync | PPex.

Inductive NetEffect (PeerId : Type) : Type :=
(* channels of the node *)
| ToEngine (sender : ValidatorId) (msg : ConsensusMessage)
| ToSyncResponder (request_id : N) (peer : PeerId) (request : SyncRequest)
| ToSyncRequester (response : SyncResponse)
| ToMempool (tx : bytes)
| ConnectedCount (n : N)
| NotifConnectedCount (n : N)
| PeerInfos (l : list (ValidatorId * string))
(* the library *)
| Notify (protocol : Protocol) (peer : PeerId) (bs : bytes)
| Validation (protocol : Protocol) (peer : PeerId) (accept : bool)
| OpenSubstream (protocol : Protocol) (peer : PeerId)
| SendRequest (protocol : Protocol) (peer : PeerId) (bs : bytes)
| SendResponse (protocol : Protocol) (request_id : N) (bs : bytes)
| RejectRequest (protocol : Protocol) (request_id : N)
| AddKnownAddress (peer : PeerId) (addrs : list string)
| DialAddress (addr : string)
(* the file of the peer book *)
| SaveBook (book : PeerBook).
Arguments ToEngine {PeerId}.
Arguments ToSyncResponder {PeerId}.
Arguments ToSyncRequester {PeerId}.
Arguments ToMempool {PeerId}.
Arguments ConnectedCount {PeerId}.
Arguments NotifConnectedCount {PeerId}.
Arguments PeerInfos {PeerId}.
Arguments Notify {PeerId}.
Arguments Validation {PeerId}.
Arguments OpenSubstream {PeerId}.
Arguments SendRequest {PeerId}.
Arguments SendResponse {PeerId}.
Arguments RejectRequest {PeerId}.
Arguments AddKnownAddress {PeerId}.
Arguments DialAddress {PeerId}.
Arguments SaveBook {PeerId}.

(** What the environment of one event provides. *)
Record Env : Type := mkEnv {
  env_now : N;                                       (* [Instant::now()] *)
  env_secs : N;                                      (* [now_secs()] *)
  env_room : bool;                                   (* the result of [try_send] *)
  env_shuffle : list PeerInfo → list PeerInfo;
  env_index : nat → nat;                             (* [random_range(0..n)] *)
}.

(** ** The service *)

Section Network.
Context {PeerId : Type} `{Countable PeerId, !Litep2p PeerId}.
Context {B3 : Blake3} {Vf : Verifier} {Zs : Zstd}.
Context `{!Postcard ConsensusMessage, !Postcard SyncRequest, !Postcard SyncResponse}.
Context `{!Postcard PexRequest, !Postcard PexResponse}.
(** Iteration over a [HashSet] of peers. *)
Context (iter : gset PeerId → list PeerId).

Record NetworkService : Type := mkNet {
  ns_peer_map : PeerMap PeerId;
  ns_peer_book : PeerBook;
  ns_pex_config : PexConfig;
  ns_persistent_peers : gmap N PeerId;
  ns_initial_dial_addresses : list string;
  ns_relay_consensus : bool;
  ns_validator_keys : gmap N bytes;
  ns_validator_ids_ordered : list N;
  ns_current_validator_set : ValidatorSet;
  ns_chain_id_hash : bytes;
  ns_current_epoch : EpochNumber;
  ns_notif_connected_peers : gset PeerId;
  ns_connected_peers : gset PeerId;
  ns_seen_active : gset bytes;
  ns_seen_backup : gset bytes;
  ns_consensus_peer_rate : gmap PeerId (N * N);
  ns_pex_rate_limit : gmap PeerId N;
  ns_mempool_seen_active : gset bytes;
  ns_mempool_seen_backup : gset bytes;
  ns_mempool_notif_connected_peers : gset PeerId;
  ns_mempool_peer_rate : gmap PeerId (N * N);
  ns_out : list (NetEffect PeerId);
}.

Implicit Types s : NetworkService.

Definition set_peer_map s (x : PeerMap PeerId) : NetworkService :=
  mkNet x (ns_peer_book s) (ns_pex_config s) (ns_persistent_peers s) (ns_initial_dial_addresses s)
    (ns_relay_consensus s) (ns_validator_keys s) (ns_validator_ids_ordered s)
    (ns_current_validator_set s) (ns_chain_id_hash s) (ns_current_epoch s) (ns_notif_connected_peers
    s) (ns_connected_peers s) (ns_seen_active s) (ns_seen_backup s) (ns_consensus_peer_rate s)
    (ns_pex_rate_limit s) (ns_mempool_seen_active s) (ns_mempool_seen_backup s)
    (ns_mempool_notif_connected_peers s) (ns_mempool_peer_rate s) (ns_out s).
Definition set_peer_book s (x : PeerBook) : NetworkService :=
  mkNet (ns_peer_map s) x (ns_pex_config s) (ns_persistent_peers s) (ns_initial_dial_addresses s)
    (ns_relay_consensus s) (ns_validator_keys s) (ns_validator_ids_ordered s)
    (ns_current_validator_set s) (ns_chain_id_hash s) (ns_current_epoch s) (ns_notif_connected_peers
    s) (ns_connected_peers s) (ns_seen_active s) (ns_seen_backup s) (ns_consensus_peer_rate s)
    (ns_pex_rate_limit s) (ns_mempool_seen_active s) (ns_mempool_seen_backup s)
    (ns_mempool_notif_connected_peers s) (ns_mempool_peer_rate s) (ns_out s).
Definition set_persistent_peers s (x : gmap N PeerId) : NetworkService :=
  mkNet (ns_peer_map s) (ns_peer_book s) (ns_pex_config s) x (ns_initial_dial_addresses s)
    (ns_relay_consensus s) (ns_validator_keys s) (ns_validator_ids_ordered s)
    (ns_current_validator_set s) (ns_chain_id_hash s) (ns_current_epoch s) (ns_notif_connected_peers
    s) (ns_connected_peers s) (ns_seen_active s) (ns_seen_backup s) (ns_consensus_peer_rate s)
    (ns_pex_rate_limit s) (ns_mempool_seen_active s) (ns_mempool_seen_backup s)
    (ns_mempool_notif_connected_peers s) (ns_mempool_peer_rate s) (ns_out s).
Definition set_initial_dial_addresses s (x : list string) : NetworkService :=
  mkNet (ns_peer_map s) (ns_peer_book s) (ns_pex_config s) (ns_persistent_peers s) x
    (ns_relay_consensus s) (ns_validator_keys s) (ns_validator_ids_ordered s)
    (ns_current_validator_set s) (ns_chain_id_hash s) (ns_current_epoch s) (ns_notif_connected_peers
    s) (ns_connected_peers s) (ns_seen_active s) (ns_seen_backup s) (ns_consensus_peer_rate s)
    (ns_pex_rate_limit s) (ns_mempool_seen_active s) (ns_mempool_seen_backup s)
    (ns_mempool_notif_connected_peers s) (ns_mempool_peer_rate s) (ns_out s).
Definition set_validator_keys s (x : gmap N bytes) : NetworkService :=
  mkNet (ns_peer_map s) (ns_peer_book s) (ns_pex_config s) (ns_persistent_peers s)
    (ns_initial_dial_addresses s) (ns_relay_consensus s) x (ns_validator_ids_ordered s)
    (ns_current_validator_set s) (ns_chain_id_hash s) (ns_current_epoch s) (ns_notif_connected_peers
    s) (ns_connected_peers s) (ns_seen_active s) (ns_seen_backup s) (ns_consensus_peer_rate s)
    (ns_pex_rate_limit s) (ns_mempool_seen_active s) (ns_mempool_seen_backup s)
    (ns_mempool_notif_connected_peers s) (ns_mempool_peer_rate s) (ns_out s).
Definition set_validator_ids_ordered s (x : list N) : NetworkService :=
  mkNet (ns_peer_map s) (ns_peer_book s) (ns_pex_config s) (ns_persistent_peers s)
    (ns_initial_dial_addresses s) (ns_relay_consensus s) (ns_validator_keys s) x
    (ns_current_validator_set s) (ns_chain_id_hash s) (ns_current_epoch s) (ns_notif_connected_peers
    s) (ns_connected_peers s) (ns_seen_active s) (ns_seen_backup s) (ns_consensus_peer_rate s)
    (ns_pex_rate_limit s) (ns_mempool_seen_active s) (ns_mempool_seen_backup s)
    (ns_mempool_notif_connected_peers s) (ns_mempool_peer_rate s) (ns_out s).
Definition set_current_validator_set s (x : ValidatorSet) : NetworkService :=
  mkNet (ns_peer_map s) (ns_peer_book s) (ns_pex_config s) (ns_persistent_peers s)
    (ns_initial_dial_addresses s) (ns_relay_consensus s) (ns_validator_keys s)
    (ns_validator_ids_ordered s) x (ns_chain_id_hash s) (ns_current_epoch s)
    (ns_notif_connected_peers s) (ns_connected_peers s) (ns_seen_active s) (ns_seen_backup s)
    (ns_consensus_peer_rate s) (ns_pex_rate_limit s) (ns_mempool_seen_active s)
    (ns_mempool_seen_backup s) (ns_mempool_notif_connected_peers s) (ns_mempool_peer_rate s) (ns_out
    s).
Definition set_current_epoch s (x : EpochNumber) : NetworkService :=
  mkNet (ns_peer_map s) (ns_peer_book s) (ns_pex_config s) (ns_persistent_peers s)
    (ns_initial_dial_addresses s) (ns_relay_consensus s) (ns_validator_keys s)
    (ns_validator_ids_ordered s) (ns_current_validator_set s) (ns_chain_id_hash s) x
    (ns_notif_connected_peers s) (ns_connected_peers s) (ns_seen_active s) (ns_seen_backup s)
    (ns_consensus_peer_rate s) (ns_pex_rate_limit s) (ns_mempool_seen_active s)
    (ns_mempool_seen_backup s) (ns_mempool_notif_connected_peers s) (ns_mempool_peer_rate s) (ns_out
    s).
Definition set_notif_connected_peers s (x : gset PeerId) : NetworkService :=
  mkNet (ns_peer_map s) (ns_peer_book s) (ns_pex_config s) (ns_persistent_peers s)
    (ns_initial_dial_addresses s) (ns_relay_consensus s) (ns_validator_keys s)
    (ns_validator_ids_ordered s) (ns_current_validator_set s) (ns_chain_id_hash s) (ns_current_epoch
    s) x (ns_connected_peers s) (ns_seen_active s) (ns_seen_backup s) (ns_consensus_peer_rate s)
    (ns_pex_rate_limit s) (ns_mempool_seen_active s) (ns_mempool_seen_backup s)
    (ns_mempool_notif_connected_peers s) (ns_mempool_peer_rate s) (ns_out s).
Definition set_connected_peers s (x : gset PeerId) : NetworkService :=
  mkNet (ns_peer_map s) (ns_peer_book s) (ns_pex_config s) (ns_persistent_peers s)
    (ns_initial_dial_addresses s) (ns_relay_consensus s) (ns_validator_keys s)
    (ns_validator_ids_ordered s) (ns_current_validator_set s) (ns_chain_id_hash s) (ns_current_epoch
    s) (ns_notif_connected_peers s) x (ns_seen_active s) (ns_seen_backup s) (ns_consensus_peer_rate
    s) (ns_pex_rate_limit s) (ns_mempool_seen_active s) (ns_mempool_seen_backup s)
    (ns_mempool_notif_connected_peers s) (ns_mempool_peer_rate s) (ns_out s).
Definition set_seen_active s (x : gset bytes) : NetworkService :=
  mkNet (ns_peer_map s) (ns_peer_book s) (ns_pex_config s) (ns_persistent_peers s)
    (ns_initial_dial_addresses s) (ns_relay_consensus s) (ns_validator_keys s)
    (ns_validator_ids_ordered s) (ns_current_validator_set s) (ns_chain_id_hash s) (ns_current_epoch
    s) (ns_notif_connected_peers s) (ns_connected_peers s) x (ns_seen_backup s)
    (ns_consensus_peer_rate s) (ns_pex_rate_limit s) (ns_mempool_seen_active s)
    (ns_mempool_seen_backup s) (ns_mempool_notif_connected_peers s) (ns_mempool_peer_rate s) (ns_out
    s).
Definition set_seen_backup s (x : gset bytes) : NetworkService :=
  mkNet (ns_peer_map s) (ns_peer_book s) (ns_pex_config s) (ns_persistent_peers s)
    (ns_initial_dial_addresses s) (ns_relay_consensus s) (ns_validator_keys s)
    (ns_validator_ids_ordered s) (ns_current_validator_set s) (ns_chain_id_hash s) (ns_current_epoch
    s) (ns_notif_connected_peers s) (ns_connected_peers s) (ns_seen_active s) x
    (ns_consensus_peer_rate s) (ns_pex_rate_limit s) (ns_mempool_seen_active s)
    (ns_mempool_seen_backup s) (ns_mempool_notif_connected_peers s) (ns_mempool_peer_rate s) (ns_out
    s).
Definition set_consensus_peer_rate s (x : gmap PeerId (N * N)) : NetworkService :=
  mkNet (ns_peer_map s) (ns_peer_book s) (ns_pex_config s) (ns_persistent_peers s)
    (ns_initial_dial_addresses s) (ns_relay_consensus s) (ns_validator_keys s)
    (ns_validator_ids_ordered s) (ns_current_validator_set s) (ns_chain_id_hash s) (ns_current_epoch
    s) (ns_notif_connected_peers s) (ns_connected_peers s) (ns_seen_active s) (ns_seen_backup s) x
    (ns_pex_rate_limit s) (ns_mempool_seen_active s) (ns_mempool_seen_backup s)
    (ns_mempool_notif_connected_peers s) (ns_mempool_peer_rate s) (ns_out s).
Definition set_pex_rate_limit s (x : gmap PeerId N) : NetworkService :=
  mkNet (ns_peer_map s) (ns_peer_book s) (ns_pex_config s) (ns_persistent_peers s)
    (ns_initial_dial_addresses s) (ns_relay_consensus s) (ns_validator_keys s)
    (ns_validator_ids_ordered s) (ns_current_validator_set s) (ns_chain_id_hash s) (ns_current_epoch
    s) (ns_notif_connected_peers s) (ns_connected_peers s) (ns_seen_active s) (ns_seen_backup s)
    (ns_consensus_peer_rate s) x (ns_mempool_seen_active s) (ns_mempool_seen_backup s)
    (ns_mempool_notif_connected_peers s) (ns_mempool_peer_rate s) (ns_out s).
Definition set_mempool_seen_active s (x : gset bytes) : NetworkService :=
  mkNet (ns_peer_map s) (ns_peer_book s) (ns_pex_config s) (ns_persistent_peers s)
    (ns_initial_dial_addresses s) (ns_relay_consensus s) (ns_validator_keys s)
    (ns_validator_ids_ordered s) (ns_current_validator_set s) (ns_chain_id_hash s) (ns_current_epoch
    s) (ns_notif_connected_peers s) (ns_connected_peers s) (ns_seen_active s) (ns_seen_backup s)
    (ns_consensus_peer_rate s) (ns_pex_rate_limit s) x (ns_mempool_seen_backup s)
    (ns_mempool_notif_connected_peers s) (ns_mempool_peer_rate s) (ns_out s).
Definition set_mempool_seen_backup s (x : gset bytes) : NetworkService :=
  mkNet (ns_peer_map s) (ns_peer_book s) (ns_pex_config s) (ns_persistent_peers s)
    (ns_initial_dial_addresses s) (ns_relay_consensus s) (ns_validator_keys s)
    (ns_validator_ids_ordered s) (ns_current_validator_set s) (ns_chain_id_hash s) (ns_current_epoch
    s) (ns_notif_connected_peers s) (ns_connected_peers s) (ns_seen_active s) (ns_seen_backup s)
    (ns_consensus_peer_rate s) (ns_pex_rate_limit s) (ns_mempool_seen_active s) x
    (ns_mempool_notif_connected_peers s) (ns_mempool_peer_rate s) (ns_out s).
Definition set_mempool_notif_connected_peers s (x : gset PeerId) : NetworkService :=
  mkNet (ns_peer_map s) (ns_peer_book s) (ns_pex_config s) (ns_persistent_peers s)
    (ns_initial_dial_addresses s) (ns_relay_consensus s) (ns_validator_keys s)
    (ns_validator_ids_ordered s) (ns_current_validator_set s) (ns_chain_id_hash s) (ns_current_epoch
    s) (ns_notif_connected_peers s) (ns_connected_peers s) (ns_seen_active s) (ns_seen_backup s)
    (ns_consensus_peer_rate s) (ns_pex_rate_limit s) (ns_mempool_seen_active s)
    (ns_mempool_seen_backup s) x (ns_mempool_peer_rate s) (ns_out s).
Definition set_mempool_peer_rate s (x : gmap PeerId (N * N)) : NetworkService :=
  mkNet (ns_peer_map s) (ns_peer_book s) (ns_pex_config s) (ns_persistent_peers s)
    (ns_initial_dial_addresses s) (ns_relay_consensus s) (ns_validator_keys s)
    (ns_validator_ids_ordered s) (ns_current_validator_set s) (ns_chain_id_hash s) (ns_current_epoch
    s) (ns_notif_connected_peers s) (ns_connected_peers s) (ns_seen_active s) (ns_seen_backup s)
    (ns_consensus_peer_rate s) (ns_pex_rate_limit s) (ns_mempool_seen_active s)
    (ns_mempool_seen_backup s) (ns_mempool_notif_connected_peers s) x (ns_out s).
Definition set_out s (x : list (NetEffect PeerId)) : NetworkService :=
  mkNet (ns_peer_map s) (ns_peer_book s) (ns_pex_config s) (ns_persistent_peers s)
    (ns_initial_dial_addresses s) (ns_relay_consensus s) (ns_validator_keys s)
    (ns_validator_ids_ordered s) (ns_current_validator_set s) (ns_chain_id_hash s) (ns_current_epoch
    s) (ns_notif_connected_peers s) (ns_connected_peers s) (ns_seen_active s) (ns_seen_backup s)
    (ns_consensus_peer_rate s) (ns_pex_rate_limit s) (ns_mempool_seen_active s)
    (ns_mempool_seen_backup s) (ns_mempool_notif_connected_peers s) (ns_mempool_peer_rate s) x.

Definition net_emit (x : NetEffect PeerId) s : NetworkService := set_out s (x :: ns_out s).

(** [for peer in peers { handle.send(peer, bytes) }] *)
Definition notify_all (protocol : Protocol) (peers : list PeerId) (bs : bytes) s : NetworkService :=
  foldl (λ s p, net_emit (Notify protocol p bs) s) s peers.

Definition len {A} (l : list A) : N := N.of_nat (length l).
Definition count (ps : gset PeerId) : N := N.of_nat (size ps).

(** *** Creation *)

Record NetworkConfig : Type := mkNetworkConfig {
  nc_peer_map : PeerMap PeerId;
  nc_known_addresses : list (PeerId * list string);
  nc_peer_book : PeerBook;
  nc_pex_config : PexConfig;
  nc_relay_consensus : bool;
  nc_initial_validator_set : ValidatorSet;
  nc_chain_id_hash : bytes;
}.

Definition peer_infos (m : PeerMap PeerId) : list (ValidatorId * string) :=
  (λ '(vid, pid), (vid, peer_to_string pid)) <$> map_to_list (validator_to_peer m).

Definition create (config : NetworkConfig) : NetworkService :=
  let vs := nc_initial_validator_set config in
  mkNet (nc_peer_map config) (nc_peer_book config) (nc_pex_config config)
    (validator_to_peer (nc_peer_map config))
    (mjoin ((λ '(pid, addrs), (λ addr, addr_push_p2p addr pid) <$> addrs) <$> nc_known_addresses config))
    (nc_relay_consensus config) (keys_of vs) (ids_of vs) vs (nc_chain_id_hash config) 0
    ∅ ∅ ∅ ∅ ∅ ∅ ∅ ∅ ∅ ∅ [PeerInfos (peer_infos (nc_peer_map config))].

(** The start of [run]: dial the persistent peers. *)
Definition run_dial s : NetworkService :=
  foldl (λ s addr, net_emit (DialAddress addr) s) (set_initial_dial_addresses s [])
    (ns_initial_dial_addresses s).

(** *** Consensus ingress *)

Definition check_consensus_ingress_budget (now : N) (peer : PeerId) (bs : N) s
    : NetworkService * bool :=
  let entry := default (now, 0) (ns_consensus_peer_rate s !! peer) in
  let entry := if SEC <=? now - entry.1 then (now, 0) else entry in
  let put entry := set_consensus_peer_rate s (<[peer := entry]> (ns_consensus_peer_rate s)) in
  match checked_add64 entry.2 bs with
  | Some total =>
      if total <=? MAX_CONSENSUS_INGRESS_BYTES_PER_SEC then (put (entry.1, total), true)
      else (put entry, false)
  | None => (put entry, false)
  end.

Definition has_key s (vid : ValidatorId) : bool := bool_decide (is_Some (ns_validator_keys s !! vid)).

Definition should_accept_consensus_from_peer s (sender : ValidatorId) (msg : ConsensusMessage) : bool :=
  match msg with
  | Propose block _ _ _ _ => has_key s (b_proposer block)
  | VoteMsg vote | Vote2Msg vote => has_key s (v_validator vote)
  | Wish _ validator _ _ => has_key s validator
  | StatusCert _ validator _ => (validator =? sender) && has_key s validator
  | Prepare _ _ | TimeoutCert _ | Evidence _ => true
  end.

Definition should_relay_consensus_message s (sender : ValidatorId) (msg : ConsensusMessage) : bool :=
  match msg with
  | StatusCert _ _ _ => false
  | _ =>
      let leader := match msg with
                    | Prepare certificate _ =>
                        vi_id <$> leader_for_view (ns_current_validator_set s) (qc_view certificate)
                    | _ => None
                    end in
      verify_relay_sender sender msg (ns_validator_keys s) (ns_validator_ids_ordered s) leader
        (ns_chain_id_hash s) (ns_current_epoch s)
  end.

(** *** Relay with two-set deduplication *)

Definition RELAY_SEEN : N := 10000.

Definition seen s (hash : bytes) : bool :=
  bool_decide (hash ∈ ns_seen_active s) || bool_decide (hash ∈ ns_seen_backup s).

(** [seen_active.insert], then the rotation when the active set is full. *)
Definition record_seen (hash : bytes) s : NetworkService :=
  set_seen_active s ({[hash]} ∪ ns_seen_active s).

Definition rotate_seen s : NetworkService :=
  if RELAY_SEEN <? N.of_nat (size (ns_seen_active s))
  then set_seen_active (set_seen_backup s (ns_seen_active s)) ∅ else s.

Definition relay_consensus_message (from_peer : PeerId) (msg : ConsensusMessage) s : NetworkService :=
  match pc_encode msg with
  | None => s
  | Some canonical_identity =>
      let msg_hash := blake3 canonical_identity in
      if seen s msg_hash then s
      else
        match encode msg with
        | Ok raw =>
            let s := record_seen msg_hash s in
            let others := filter (λ other, other ≠ from_peer) (iter (ns_notif_connected_peers s)) in
            rotate_seen (notify_all PNotif others raw s)
        | _ => s
        end
  end.

Definition score (peer : PeerId) (delta : Z) s : NetworkService :=
  set_peer_book s (adjust_score (ns_peer_book s) (peer_to_string peer) delta).

Definition is_validator s (peer : PeerId) : bool :=
  bool_decide (is_Some (peer_to_validator (ns_peer_map s) !! peer)).
Definition is_connected s (peer : PeerId) : bool := bool_decide (peer ∈ ns_connected_peers s).

Definition handle_notification_event (env : Env) (ev : NotificationEvent PeerId) s : NetworkService :=
  match ev with
  | ValidateSubstream peer handshake =>
      net_emit (Validation PNotif peer (bool_decide (handshake = ns_chain_id_hash s))) s
  | NotificationStreamOpened peer =>
      if negb (is_validator s peer) && negb (is_connected s peer) then s
      else
        let s := set_notif_connected_peers s ({[peer]} ∪ ns_notif_connected_peers s) in
        net_emit (NotifConnectedCount (count (ns_notif_connected_peers s))) s
  | NotificationStreamClosed peer =>
      let s := set_notif_connected_peers s (ns_notif_connected_peers s ∖ {[peer]}) in
      net_emit (NotifConnectedCount (count (ns_notif_connected_peers s))) s
  | NotificationReceived peer notification =>
      match peer_to_validator (ns_peer_map s) !! peer with
      | None => s
      | Some sender =>
          let '(s, within) := check_consensus_ingress_budget (env_now env) peer (len notification) s in
          if negb within then s
          else
            match decode notification with
            | Ok msg =>
                if negb (should_accept_consensus_from_peer s sender msg) then s
                else
                  let s := if env_room env then net_emit (ToEngine sender msg) s else s in
                  if ns_relay_consensus s && should_relay_consensus_message s sender msg
                  then score peer 1 (relay_consensus_message peer msg s)
                  else s
            | _ => score peer (-10) s
            end
      end
  | NotificationStreamOpenFailure _ => s
  end.

(** *** Requests *)

Definition handle_reqresp_event (env : Env) (ev : RequestResponseEvent PeerId) s : NetworkService :=
  match ev with
  | RequestReceived peer request_id request =>
      let reject s := net_emit (RejectRequest PReqResp request_id) s in
      match peer_to_validator (ns_peer_map s) !! peer with
      | None => reject s
      | Some sender =>
          let '(s, within) := check_consensus_ingress_budget (env_now env) peer (len request) s in
          if negb within then reject s
          else
            match decode request with
            | Ok msg =>
                if negb (should_accept_consensus_from_peer s sender msg) then reject s
                else if negb (env_room env) then reject s
                else net_emit (SendResponse PReqResp request_id []) (net_emit (ToEngine sender msg) s)
            | _ => reject s
            end
      end
  | ResponseReceived _ | RequestFailed _ => s
  end.

Definition handle_sync_event (env : Env) (ev : RequestResponseEvent PeerId) s : NetworkService :=
  match ev with
  | RequestReceived peer request_id request =>
      let reject s := net_emit (RejectRequest PSync request_id) s in
      if negb (bool_decide (peer ∈ ns_notif_connected_peers s)) then reject s
      else
        let '(s, within) := check_consensus_ingress_budget (env_now env) peer (len request) s in
        if negb within then reject s
        else
          match decode request with
          | Ok req => if env_room env then net_emit (ToSyncResponder request_id peer req) s else reject s
          | _ =>
              let s := score peer (-5) s in
              match encode RespError with
              | Ok bs => net_emit (SendResponse PSync request_id bs) s
              | _ => reject s
              end
          end
  | ResponseReceived response =>
      match decode response with
      | Ok resp => if env_room env then net_emit (ToSyncRequester resp) s else s
      | _ => s
      end
  | RequestFailed _ => if env_room env then net_emit (ToSyncRequester RespError) s else s
  end.

(** *** Peer exchange *)

Definition pex_peers (env : Env) s (peer : PeerId) : list PeerInfo :=
  filter (λ p, pi_peer_id p ∉ px_private_peer_ids (ns_pex_config s))
    (filter (λ p, pi_peer_id p ≠ peer_to_string peer)
       (get_random_peers (env_shuffle env) (ns_peer_book s)
          (px_max_peers_per_response (ns_pex_config s)))).

(** A claim of the validator role is kept only when the claimed validator is
    routed to this peer. *)
Definition advertised_role s (peer : PeerId) (role : PeerRole) (validator_id : option N)
    : PeerRole * option N :=
  match role, validator_id with
  | RoleValidator, Some vid =>
      if bool_decide (validator_to_peer (ns_peer_map s) !! vid = Some peer)
      then (RoleValidator, Some vid) else (RoleFullnode, None)
  | _, _ => (RoleFullnode, None)
  end.

Definition handle_pex_request (env : Env) (peer : PeerId) (request_id : N) (request : bytes) s
    : NetworkService :=
  let reject s := net_emit (RejectRequest PPex request_id) s in
  let respond r s := match pc_encode r with
                     | Some bs => net_emit (SendResponse PPex request_id bs) s
                     | None => s
                     end in
  if negb (is_validator s peer) && negb (is_connected s peer) then reject s
  else if match ns_pex_rate_limit s !! peer with
          | Some last => env_now env - last <? 10 * SEC
          | None => false
          end then reject s
  else
    let s := set_pex_rate_limit s (<[peer := env_now env]> (ns_pex_rate_limit s)) in
    match pc_decode request with
    | Some GetPeers => respond (PexPeers (pex_peers env s peer)) s
    | Some (Advertise role validator_id addresses) =>
        if bool_decide (role = RoleValidator) && bool_decide (validator_id = None) then reject s
        else
          let '(role, validator_id) := advertised_role s peer role validator_id in
          let info := PeerInfo_new (peer_to_string peer) role (omap addr_parse (take 8 addresses))
                        (env_secs env) in
          let info := match validator_id with Some vid => with_validator info vid | None => info end in
          respond PexAck (set_peer_book s (add_peer (ns_peer_book s) info))
    | None => reject s
    end.

Definition handle_pex_event (env : Env) (ev : RequestResponseEvent PeerId) s : NetworkService :=
  match ev with
  | RequestReceived peer request_id request => handle_pex_request env peer request_id request s
  | ResponseReceived response =>
      match pc_decode response with
      | Some (PexPeers peers) =>
          set_peer_book s
            (foldl (λ book p, if is_banned p then book else add_peer book p) (ns_peer_book s) peers)
      | _ => s
      end
  | RequestFailed _ => s
  end.

(** *** Maintenance *)

(** Redial the persistent peers that are not connected. *)
Definition redial s : NetworkService :=
  let to_dial :=
    omap (λ pid, info ← ns_peer_book s !! peer_to_string pid;
                 Some (pid, omap addr_parse (pi_addresses info)))
      (filter (λ pid, pid ∉ ns_connected_peers s) ((map_to_list (ns_persistent_peers s)).*2)) in
  foldl (λ s '(pid, addrs),
    match addrs with
    | [] => s
    | addr :: _ => net_emit (DialAddress (addr_push_p2p addr pid)) (net_emit (AddKnownAddress pid addrs) s)
    end) s to_dial.

(** Learn addresses from the book below four fifths of the connection limit. *)
Definition fill_connections (env : Env) s : NetworkService :=
  if count (ns_connected_peers s) <? (px_max_peers (ns_pex_config s) * 4) mod (u64_max + 1) / 5 then
    foldl (λ s peer,
      match peer_parse (pi_peer_id peer) with
      | Some pid =>
          if is_connected s pid then s
          else match omap addr_parse (pi_addresses peer) with
               | [] => s
               | addrs => net_emit (AddKnownAddress pid addrs) s
               end
      | None => s
      end) s (get_random_peers (env_shuffle env) (ns_peer_book s) 5)
  else s.

Definition run_maintenance (env : Env) s : NetworkService :=
  let s := fill_connections env (redial s) in
  let s := set_peer_book s (prune_stale (ns_peer_book s) (env_secs env) 86400) in
  let s := net_emit (SaveBook (ns_peer_book s)) s in
  set_pex_rate_limit s (filter (λ '(_, last), env_now env < last + 60 * SEC) (ns_pex_rate_limit s)).

Definition run_pex_round (env : Env) s : NetworkService :=
  let peers := iter (ns_connected_peers s) in
  match peers !! env_index env (length peers), pc_encode GetPeers with
  | Some target, Some bs => net_emit (SendRequest PPex target bs) s
  | _, _ => s
  end.

(** *** Connections *)

Definition remove_mempool_peer (peer : PeerId) s : NetworkService :=
  set_mempool_peer_rate
    (set_mempool_notif_connected_peers s (ns_mempool_notif_connected_peers s ∖ {[peer]}))
    (delete peer (ns_mempool_peer_rate s)).

Definition pick_non_validator_to_evict s : option PeerId :=
  snd <$> list_find (λ p, is_validator s p = false) (iter (ns_connected_peers s)).

Definition evict (peer : PeerId) s : NetworkService :=
  let s := set_connected_peers s (ns_connected_peers s ∖ {[peer]}) in
  let s := set_notif_connected_peers s (ns_notif_connected_peers s ∖ {[peer]}) in
  let s := set_consensus_peer_rate s (delete peer (ns_consensus_peer_rate s)) in
  remove_mempool_peer peer s.

Definition handle_litep2p_event (env : Env) (ev : Litep2pEvent PeerId) s : NetworkService :=
  match ev with
  | ConnectionEstablished peer =>
      let full := px_max_peers (ns_pex_config s) <=? count (ns_connected_peers s) in
      if negb (is_validator s peer) && full then s
      else
        let s := if is_validator s peer && full then
                   match pick_non_validator_to_evict s with Some p => evict p s | None => s end
                 else s in
        let s := set_connected_peers s ({[peer]} ∪ ns_connected_peers s) in
        let s := net_emit (ConnectedCount (count (ns_connected_peers s))) s in
        let s := net_emit (OpenSubstream PMempool peer) (net_emit (OpenSubstream PNotif peer) s) in
        match ns_peer_book s !! peer_to_string peer with
        | Some info =>
            set_peer_book s (<[peer_to_string peer := touch info (env_secs env)]> (ns_peer_book s))
        | None => s
        end
  | ConnectionClosed peer =>
      let s := set_connected_peers s (ns_connected_peers s ∖ {[peer]}) in
      let s := net_emit (ConnectedCount (count (ns_connected_peers s))) s in
      let s := set_consensus_peer_rate s (delete peer (ns_consensus_peer_rate s)) in
      let was := bool_decide (peer ∈ ns_notif_connected_peers s) in
      let s := set_notif_connected_peers s (ns_notif_connected_peers s ∖ {[peer]}) in
      let s := if was then net_emit (NotifConnectedCount (count (ns_notif_connected_peers s))) s else s in
      remove_mempool_peer peer s
  | DialFailure | OtherEvent => s
  end.

Definition update_peer_info s : NetworkService := net_emit (PeerInfos (peer_infos (ns_peer_map s))) s.

(** *** Commands of the node *)

Definition handle_command (cmd : NetCommand PeerId) s : NetworkService :=
  match cmd with
  | CmdBroadcast bs =>
      let broadcast s := notify_all PNotif (iter (ns_notif_connected_peers s)) bs s in
      match decode bs with
      | Ok msg =>
          match pc_encode (T := ConsensusMessage) msg with
          | Some identity => broadcast (rotate_seen (record_seen (blake3 identity) s))
          | None => s
          end
      | _ => broadcast s
      end
  | CmdSendTo target bs =>
      match validator_to_peer (ns_peer_map s) !! target with
      | Some peer_id => net_emit (SendRequest PReqResp peer_id bs) s
      | None => s
      end
  | CmdSyncRequest peer_id bs => net_emit (SendRequest PSync peer_id bs) s
  | CmdSyncRespond request_id bs => net_emit (SendResponse PSync request_id bs) s
  | CmdBroadcastTx bs => notify_all PMempool (iter (ns_mempool_notif_connected_peers s)) bs s
  end.

(** *** Mempool gossip *)

Definition MEMPOOL_SEEN : N := 100000.

(** The byte budget of a peer: the limit is not checked on the first message of
    a window. *)
Definition check_mempool_budget (now : N) (peer : PeerId) (bs : N) s : NetworkService * bool :=
  let entry := default (now, 0) (ns_mempool_peer_rate s !! peer) in
  let put entry := set_mempool_peer_rate s (<[peer := entry]> (ns_mempool_peer_rate s)) in
  if 1 <=? (now - entry.1) / SEC then (put (now, bs), true)
  else
    let total := entry.2 +w bs in
    (put (entry.1, total), total <=? MAX_TX_BYTES_PER_SEC).

Definition record_tx (hash : bytes) s : NetworkService :=
  let s := set_mempool_seen_active s ({[hash]} ∪ ns_mempool_seen_active s) in
  if MEMPOOL_SEEN <? N.of_nat (size (ns_mempool_seen_active s)) then
    let s' := set_mempool_seen_backup s (ns_mempool_seen_active s) in
    set_mempool_seen_active s' ∅
  else s.

Definition handle_mempool_notification_event (env : Env) (ev : NotificationEvent PeerId) s
    : NetworkService :=
  match ev with
  | ValidateSubstream peer handshake =>
      net_emit (Validation PMempool peer (bool_decide (handshake = ns_chain_id_hash s))) s
  | NotificationStreamOpened peer =>
      if negb (is_connected s peer) && negb (is_validator s peer) then s
      else set_mempool_notif_connected_peers s ({[peer]} ∪ ns_mempool_notif_connected_peers s)
  | NotificationStreamClosed peer => remove_mempool_peer peer s
  | NotificationReceived peer notification =>
      if negb (bool_decide (peer ∈ ns_mempool_notif_connected_peers s)) then s
      else
        let '(s, within) := check_mempool_budget (env_now env) peer (len notification) s in
        if negb within then s
        else
          let hash := blake3 notification in
          if bool_decide (hash ∈ ns_mempool_seen_active s) || bool_decide (hash ∈ ns_mempool_seen_backup s)
          then s
          else if env_room env then record_tx hash (net_emit (ToMempool notification) s) else s
  | NotificationStreamOpenFailure _ => s
  end.

(** *** Epoch changes *)

Definition reroute s (m : PeerMap PeerId) (v : ValidatorInfo) : PeerMap PeerId :=
  if bool_decide (is_Some (validator_to_peer m !! vi_id v)) &&
     bool_decide (ns_validator_keys s !! vi_id v = Some (vi_public_key v)) then m
  else match peer_of_key (vi_public_key v) with
       | Some peer_id => pm_insert m (vi_id v) peer_id
       | None => m
       end.

Definition handle_epoch_change (new_set : ValidatorSet) s : NetworkService :=
  let m := foldl (reroute s) (ns_peer_map s) (vs_validators new_set) in
  let to_remove := filter (λ vid, vid ∉ ids_of new_set) ((map_to_list (validator_to_peer m)).*1) in
  let m := foldl (λ m vid, (pm_remove m vid).1) m to_remove in
  let s := set_peer_map s m in
  let s := set_validator_ids_ordered s (ids_of new_set) in
  let s := set_validator_keys s (keys_of new_set) in
  let s := set_current_validator_set s new_set in
  let s := set_persistent_peers s (validator_to_peer (ns_peer_map s)) in
  update_peer_info s.

(** *** The event loop *)

Inductive NetEvent : Type :=
| NotifEvent (ev : NotificationEvent PeerId)
| MempoolEvent (ev : NotificationEvent PeerId)
| ReqRespEvent (ev : RequestResponseEvent PeerId)
| SyncEvent (ev : RequestResponseEvent PeerId)
| PexEvent (ev : RequestResponseEvent PeerId)
| TransportEvent (ev : Litep2pEvent PeerId)
| Command (cmd : NetCommand PeerId)
| EpochUpdate (value : option (EpochNumber * ValidatorSet))
| MaintenanceTick
| PexTick.

Definition net_step (env : Env) (ev : NetEvent) s : NetworkService :=
  match ev with
  | NotifEvent ev => handle_notification_event env ev s
  | MempoolEvent ev => handle_mempool_notification_event env ev s
  | ReqRespEvent ev => handle_reqresp_event env ev s
  | SyncEvent ev => handle_sync_event env ev s
  | PexEvent ev => handle_pex_event env ev s
  | TransportEvent ev => handle_litep2p_event env ev s
  | Command cmd => handle_command cmd s
  | EpochUpdate (Some (epoch_number, validators)) =>
      handle_epoch_change validators (set_current_epoch s epoch_number)
  | EpochUpdate None => s
  | MaintenanceTick => run_maintenance env s
  | PexTick => if px_enabled (ns_pex_config s) then run_pex_round env s else s
  end.

Definition net_run (evs : list (Env * NetEvent)) s : NetworkService :=
  foldl (λ s '(env, ev), net_step env ev s) s evs.

(** *** The sink of the engine ([Litep2pNetworkSink])

    The command that each call enqueues; [None] when the encoding fails. *)
Definition sink_command {T} `{!Postcard T} (cmd : bytes → NetCommand PeerId) (value : T)
    : option (NetCommand PeerId) :=
  match encode value with Ok bs => Some (cmd bs) | _ => None end.

Definition sink_broadcast (msg : ConsensusMessage) : option (NetCommand PeerId) :=
  sink_command CmdBroadcast msg.
Definition sink_send_to (target : ValidatorId) (msg : ConsensusMessage) : option (NetCommand PeerId) :=
  sink_command (CmdSendTo target) msg.
Definition sink_broadcast_evidence (proof : EquivocationProof) : option (NetCommand PeerId) :=
  sink_command CmdBroadcast (Evidence proof).
Definition send_sync_request (peer : PeerId) (request : SyncRequest) : option (NetCommand PeerId) :=
  sink_command (CmdSyncRequest peer) request.
Definition send_sync_response (request_id : N) (response : SyncResponse) : option (NetCommand PeerId) :=
  sink_command (CmdSyncRespond request_id) response.
Definition sink_broadcast_tx (tx_bytes : bytes) : NetCommand PeerId := CmdBroadcastTx tx_bytes.

(** [on_epoch_change] publishes on a watch channel, which the loop reads. *)
Definition sink_on_epoch_change (epoch : EpochNumber) (new_validator_set : ValidatorSet) : NetEvent :=
  EpochUpdate (Some (epoch, new_validator_set)).
End Network.
