(* ===== verification/NetworkSafety.v ===== *)
(** * Correctness of the network service

    The invariant of the service over every run, the routing of validators, the
    ingress limit, deduplicated relay, the delivery of broadcasts and the peer
    exchange. *)

From S2P Require Import Prelude Types ValidatorSet Encoding Aggregate Codec PeerBook.
From S2P Require Import State BlockStore EvidenceStore World Engine Sync Samples Relay Network.

(** ** The peer map is one-to-one *)

Section PeerMapProofs.
Context {PeerId : Type} `{Countable PeerId}.
Implicit Types m : PeerMap PeerId.

Definition pm_ok m : Prop :=
  ∀ v p, validator_to_peer m !! v = Some p ↔ peer_to_validator m !! p = Some v.

Lemma pm_new_ok : pm_ok pm_new.
Proof. intros v p. simpl. by rewrite !lookup_empty. Qed.

(** What a validator is routed to after [insert]: the new peer for [vid]; nobody
    else keeps that peer. *)
Lemma pm_insert_lookup m vid pid v p :
  pm_ok m →
  validator_to_peer (pm_insert m vid pid) !! v = Some p ↔
    (v = vid ∧ p = pid) ∨ (v ≠ vid ∧ p ≠ pid ∧ validator_to_peer m !! v = Some p).
Proof.
  intros Hok. unfold pm_insert. simpl. set (p2v := match _ !! vid with Some _ => _ | None => _ end).
  assert (∀ u, p2v !! pid = Some u → u ≠ vid → validator_to_peer m !! u = Some pid) as Hsome.
  { intros u Hu Hne. apply Hok. unfold p2v in Hu. destruct (validator_to_peer m !! vid) as [old|]; [|done].
    by apply lookup_delete_Some in Hu as [_ ?]. }
  assert (p2v !! pid = None → ∀ u, u ≠ vid → validator_to_peer m !! u ≠ Some pid) as Hnone.
  { intros Hn u Hne Hu. apply Hok in Hu as Hu'. unfold p2v in Hn.
    destruct (validator_to_peer m !! vid) as [old|] eqn:Ho; [|congruence].
    apply lookup_delete_None in Hn as [-> |Hn]; [|congruence]. apply Hok in Ho. congruence. }
  destruct (p2v !! pid) as [u|] eqn:Hp.
  - destruct (N.eqb_spec u vid) as [-> |Hne].
    + rewrite lookup_insert_Some. split; [|naive_solver]. intros [[<- <-]|[Hv Hp']]; [by left|].
      right. split_and!; [done| |done]. intros ->. apply Hok in Hp' as Hq. unfold p2v in Hp.
      destruct (validator_to_peer m !! vid) as [old|]; [apply lookup_delete_Some in Hp as [_ Hp]|]; congruence.
    + rewrite lookup_delete_Some, lookup_insert_Some. specialize (Hsome u eq_refl Hne). split.
      * intros [Hu [[<- <-]|[Hv Hp']]]; [by left|]. right. split_and!; [done| |done]. intros ->.
        apply Hok in Hp' as ?. apply Hok in Hsome. congruence.
      * intros [[-> ->]|(Hv & Hp' & Hl)]; [naive_solver|]. split; [|naive_solver]. intros ->. congruence.
  - rewrite lookup_insert_Some. split; [|naive_solver]. intros [[<- <-]|[Hv Hp']]; [by left|].
    right. split_and!; [done| |done]. intros ->. by apply (Hnone eq_refl v).
Qed.

Lemma pm_insert_reverse m vid pid v p :
  pm_ok m →
  peer_to_validator (pm_insert m vid pid) !! p = Some v ↔
    (v = vid ∧ p = pid) ∨ (v ≠ vid ∧ p ≠ pid ∧ validator_to_peer m !! v = Some p).
Proof.
  intros Hok. unfold pm_insert. simpl. rewrite lookup_insert_Some.
  destruct (validator_to_peer m !! vid) as [old|] eqn:Ho.
  - rewrite lookup_delete_Some, <- (Hok v p). apply Hok in Ho as Ho'. split.
    + intros [[<- <-]|(Hp & Hold & Hl)]; [by left|]. right. split_and!; [|done|done]. intros ->. congruence.
    + intros [[-> ->]|(Hv & Hp & Hl)]; [by left|]. right. split_and!; [done| |done]. intros ->.
      apply Hok in Hl. congruence.
  - rewrite <- (Hok v p). split; [|naive_solver]. intros [[<- <-]|[Hp Hl]]; [by left|].
    right. split_and!; [|done|done]. intros ->. congruence.
Qed.

Lemma pm_insert_ok m vid pid : pm_ok m → pm_ok (pm_insert m vid pid).
Proof. intros Hok v p. by rewrite pm_insert_lookup, pm_insert_reverse. Qed.

Lemma pm_remove_lookup m vid :
  validator_to_peer (pm_remove m vid).1 = delete vid (validator_to_peer m).
Proof.
  unfold pm_remove. destruct (validator_to_peer m !! vid) as [p|] eqn:E; [done|]. simpl.
  by rewrite delete_id.
Qed.

Lemma pm_remove_ok m vid : pm_ok m → pm_ok (pm_remove m vid).1.
Proof.
  intros Hok v p. unfold pm_remove. destruct (validator_to_peer m !! vid) as [q|] eqn:E; [|apply Hok].
  simpl. rewrite !lookup_delete_Some, (Hok v p). apply Hok in E as E'. split; intros [Hne Hl]; (split; [|done]).
  - intros ->. congruence.
  - intros ->. apply Hok in Hl. congruence.
Qed.
End PeerMapProofs.

Create HintDb net.

Section NetworkProofs.
Context {PeerId : Type} `{Countable PeerId, !Litep2p PeerId}.
Context {B3 : Blake3} {Vf : Verifier} {Zs : Zstd}.
Context `{!Postcard ConsensusMessage, !Postcard SyncRequest, !Postcard SyncResponse}.
Context `{!Postcard PexRequest, !Postcard PexResponse}.
Context (iter : gset PeerId → list PeerId).
Notation Net := (NetworkService (PeerId := PeerId)).
Notation step := (net_step iter).
Notation run := (net_run iter).
Implicit Types (s : Net) (msg : ConsensusMessage).

(** ** Loops that only emit effects *)

Lemma foldl_out {A} (f : Net → A → Net) l s :
  (∀ s x, ∃ o, f s x = set_out s o) → ∃ o, foldl f s l = set_out s o.
Proof.
  intros Hf. revert s. induction l as [|x l IH]; intros s; simpl; [exists (ns_out s); by destruct s|].
  destruct (Hf s x) as [o ->]. destruct (IH (set_out s o)) as [o' ->]. by exists o'.
Qed.

Lemma set_out_id s : s = set_out s (ns_out s).
Proof. by destruct s. Qed.

Lemma notify_all_out protocol peers bs s :
  notify_all protocol peers bs s =
    set_out s (reverse ((λ p, Notify protocol p bs) <$> peers) ++ ns_out s).
Proof.
  unfold notify_all. revert s. induction peers as [|p peers IH]; intros s; simpl; [by destruct s|].
  rewrite IH. simpl. by rewrite reverse_cons, <- (assoc_L (++)).
Qed.

Lemma redial_out s : ∃ o, redial s = set_out s o.
Proof. apply foldl_out. intros s' [pid [|a l]]; eexists; [apply set_out_id|done]. Qed.

Lemma fill_connections_out env s : ∃ o, fill_connections env s = set_out s o.
Proof.
  unfold fill_connections. case_match; [|eexists; apply set_out_id]. apply foldl_out. intros s' p.
  destruct (peer_parse _); [|eexists; apply set_out_id].
  destruct (is_connected _ _); [eexists; apply set_out_id|].
  destruct (omap _ _); [eexists; apply set_out_id|by eexists].
Qed.

Lemma run_dial_out s : ∃ o, run_dial s = set_out (set_initial_dial_addresses s []) o.
Proof. apply foldl_out. intros s' a. by eexists. Qed.

(** ** The invariant *)

Record net_inv s : Prop := {
  ni_map : pm_ok (ns_peer_map s);
  ni_keys : ns_validator_keys s = keys_of (ns_current_validator_set s);
  ni_ids : ns_validator_ids_ordered s = ids_of (ns_current_validator_set s);
  ni_active : N.of_nat (size (ns_seen_active s)) ≤ RELAY_SEEN;
  ni_backup : N.of_nat (size (ns_seen_backup s)) ≤ RELAY_SEEN + 1;
  ni_tx_active : N.of_nat (size (ns_mempool_seen_active s)) ≤ MEMPOOL_SEEN;
  ni_tx_backup : N.of_nat (size (ns_mempool_seen_backup s)) ≤ MEMPOOL_SEEN + 1;
  ni_rate : ∀ p t b, ns_consensus_peer_rate s !! p = Some (t, b) →
    b ≤ MAX_CONSENSUS_INGRESS_BYTES_PER_SEC;
  ni_tx_rate : dom (ns_mempool_peer_rate s) ⊆ ns_mempool_notif_connected_peers s;
  ni_book : book_ok (ns_peer_book s);
}.

Lemma size_insert_le (X : gset bytes) h : (size ({[h]} ∪ X) ≤ S (size X))%nat.
Proof. pose proof (size_union_alt {[h]} X). pose proof (subseteq_size (X ∖ {[h]}) X). rewrite size_singleton in *. set_solver by lia. Qed.

(** The updates that the handlers are made of. *)
Lemma inv_out s o : net_inv s → net_inv (set_out s o).
Proof. by intros []. Qed.
Lemma inv_emit s x : net_inv s → net_inv (net_emit x s).
Proof. apply inv_out. Qed.
Lemma inv_book s b : book_ok b → net_inv s → net_inv (set_peer_book s b).
Proof. by intros ? []. Qed.
Lemma inv_connected s c : net_inv s → net_inv (set_connected_peers s c).
Proof. by intros []. Qed.
Lemma inv_notif s c : net_inv s → net_inv (set_notif_connected_peers s c).
Proof. by intros []. Qed.
Lemma inv_pex s c : net_inv s → net_inv (set_pex_rate_limit s c).
Proof. by intros []. Qed.
Lemma inv_epoch_number s c : net_inv s → net_inv (set_current_epoch s c).
Proof. by intros []. Qed.
Lemma inv_score s p d : net_inv s → net_inv (score p d s).
Proof. intros Hi. apply inv_book; [|done]. apply adjust_score_ok, Hi. Qed.
Lemma inv_notify s protocol l bs : net_inv s → net_inv (notify_all protocol l bs s).
Proof. rewrite notify_all_out. apply inv_out. Qed.
Lemma inv_rate_delete s p : net_inv s → net_inv (set_consensus_peer_rate s (delete p (ns_consensus_peer_rate s))).
Proof.
  intros []. constructor; try done. simpl. intros q t b. rewrite lookup_delete_Some. naive_solver.
Qed.
Lemma inv_remove_mempool s p : net_inv s → net_inv (remove_mempool_peer p s).
Proof. intros []. constructor; try done. simpl. rewrite dom_delete_L. set_solver. Qed.
Lemma inv_add_mempool s p :
  net_inv s → net_inv (set_mempool_notif_connected_peers s ({[p]} ∪ ns_mempool_notif_connected_peers s)).
Proof. intros []. constructor; try done. simpl. set_solver. Qed.

Lemma inv_seen s h x :
  net_inv s → net_inv (rotate_seen (set_out (record_seen h s) x)).
Proof.
  intros Hi. pose proof (size_insert_le (ns_seen_active s) h) as Hsz. destruct Hi.
  unfold rotate_seen, record_seen. simpl.
  destruct (N.ltb_spec RELAY_SEEN (N.of_nat (size ({[h]} ∪ ns_seen_active s)))) as [Hlt|Hge];
    constructor; simpl; try done; try rewrite size_empty; unfold RELAY_SEEN in *; try lia.
Qed.

Lemma inv_tx s h : net_inv s → net_inv (record_tx h s).
Proof.
  intros Hi. pose proof (size_insert_le (ns_mempool_seen_active s) h) as Hsz. destruct Hi.
  unfold record_tx. simpl.
  destruct (N.ltb_spec MEMPOOL_SEEN (N.of_nat (size ({[h]} ∪ ns_mempool_seen_active s)))) as [Hlt|Hge];
    constructor; simpl; try done; try rewrite size_empty; unfold MEMPOOL_SEEN in *; try lia.
Qed.

Lemma inv_budget s now p bs : net_inv s → net_inv (check_consensus_ingress_budget now p bs s).1.
Proof.
  intros Hi. unfold check_consensus_ingress_budget.
  set (e := if SEC <=? _ then _ else _).
  assert (e.2 ≤ MAX_CONSENSUS_INGRESS_BYTES_PER_SEC) as He.
  { unfold e. destruct (ns_consensus_peer_rate s !! p) as [[t b]|] eqn:E; simpl.
    - case_match; [done|]. simpl. by eapply ni_rate.
    - by case_match. }
  assert (∀ x, x.2 ≤ MAX_CONSENSUS_INGRESS_BYTES_PER_SEC →
    net_inv (set_consensus_peer_rate s (<[p := x]> (ns_consensus_peer_rate s)))) as Hput.
  { intros [t b] Hx. destruct Hi. constructor; try done. simpl. intros q t' b'.
    rewrite lookup_insert_Some. naive_solver. }
  destruct (checked_add64 e.2 bs) as [total|]; [|by apply Hput].
  destruct (N.leb_spec total MAX_CONSENSUS_INGRESS_BYTES_PER_SEC); by apply Hput.
Qed.

Lemma inv_mempool_budget s now p bs :
  p ∈ ns_mempool_notif_connected_peers s → net_inv s → net_inv (check_mempool_budget now p bs s).1.
Proof.
  intros Hp Hi. unfold check_mempool_budget.
  case_match; destruct Hi; constructor; simpl; try done; rewrite dom_insert_L; set_solver.
Qed.

(** ** Epoch changes *)

Lemma reroute_all_ok s m l : pm_ok m → pm_ok (foldl (reroute s) m l).
Proof.
  revert m. induction l as [|v l IH]; intros m Hm; simpl; [done|]. apply IH. unfold reroute.
  case_match; [done|]. destruct (peer_of_key _); [by apply pm_insert_ok|done].
Qed.

Lemma remove_all_ok (m : PeerMap PeerId) l : pm_ok m → pm_ok (foldl (λ m vid, (pm_remove m vid).1) m l).
Proof. revert m. induction l as [|v l IH]; intros m Hm; simpl; [done|]. by apply IH, pm_remove_ok. Qed.

Lemma remove_all_lookup (m : PeerMap PeerId) l v p :
  validator_to_peer (foldl (λ m vid, (pm_remove m vid).1) m l) !! v = Some p ↔
    v ∉ l ∧ validator_to_peer m !! v = Some p.
Proof.
  revert m. induction l as [|u l IH]; intros m; simpl; [set_solver|].
  rewrite IH, pm_remove_lookup, lookup_delete_Some. set_solver.
Qed.

Definition routed (vs : ValidatorSet) (vid : ValidatorId) (p : PeerId) : Prop :=
  ∃ v, v ∈ vs_validators vs ∧ vi_id v = vid ∧ peer_of_key (vi_public_key v) = Some p.

(** Every routed validator is routed to the peer of its key. *)
Definition routes_ok s : Prop :=
  ∀ vid pk p, ns_validator_keys s !! vid = Some pk →
    validator_to_peer (ns_peer_map s) !! vid = Some p → peer_of_key pk = Some p.

(** The keys of the set are ed25519 keys with distinct peer ids. *)
Definition keys_valid (vs : ValidatorSet) : Prop :=
  (∀ v, v ∈ vs_validators vs → is_Some (peer_of_key (vi_public_key v))) ∧
  (∀ v w, v ∈ vs_validators vs → w ∈ vs_validators vs →
     peer_of_key (vi_public_key v) = peer_of_key (vi_public_key w) → vi_public_key v = vi_public_key w).

Lemma key_id_inj vs v w :
  vs_wf vs → v ∈ vs_validators vs → w ∈ vs_validators vs → vi_public_key v = vi_public_key w → v = w.
Proof.
  intros [[_ Hk _ _ _] _ _] Hv Hw E. apply list_elem_of_lookup in Hv as [i Hi], Hw as [j Hj].
  assert (i = j) as ->; [|congruence].
  apply (NoDup_lookup _ _ _ (vi_public_key v) Hk); rewrite list_lookup_fmap, ?Hi, ?Hj; simpl; congruence.
Qed.

(** The rerouting loop: processed validators are routed to the peer of their
    key, and the others keep their old peer at most. *)
Lemma reroute_spec s vs done_ rest m :
  vs_wf vs → keys_valid vs → routes_ok s → vs_validators vs = done_ ++ rest → pm_ok m →
  (∀ v, v ∈ done_ → validator_to_peer m !! vi_id v = peer_of_key (vi_public_key v)) →
  (∀ vid p, vid ∉ vi_id <$> done_ → validator_to_peer m !! vid = Some p →
     validator_to_peer (ns_peer_map s) !! vid = Some p) →
  ∀ v, v ∈ vs_validators vs →
    validator_to_peer (foldl (reroute s) m rest) !! vi_id v = peer_of_key (vi_public_key v).
Proof.
  intros Hwf [Hval Hinj] Hroutes. revert done_ m. induction rest as [|w rest IH]; intros done_ m Hl Hm Hdone Hold.
  { simpl. rewrite Hl, app_nil_r. apply Hdone. }
  simpl. pose proof (iw_ids _ (vw_infos _ Hwf)) as Hnd. rewrite Hl in Hnd.
  rewrite fmap_app in Hnd. simpl in Hnd. apply NoDup_app in Hnd as (_ & Hdisj & [Hw _]%NoDup_cons).
  assert (w ∈ vs_validators vs) as Hin by (rewrite Hl; set_solver).
  assert (vi_id w ∉ vi_id <$> done_) as Hwd. { intros Hx. apply (Hdisj _ Hx). left. }
  apply (IH (done_ ++ [w])); clear IH.
  - by rewrite Hl, <- (assoc_L (++)).
  - unfold reroute. case_match; [done|]. destruct (peer_of_key _); [by apply pm_insert_ok|done].
  - intros v Hv. unfold reroute. destruct (Hval w Hin) as [p Hp]. rewrite Hp.
    apply elem_of_app in Hv as [Hv|Hv].
    + assert (v ∈ vs_validators vs) as Hvin by (rewrite Hl; set_solver). destruct (Hval v Hvin) as [q Hq].
      case_match; [by apply Hdone|]. rewrite Hq. apply pm_insert_lookup; [done|]. right.
      specialize (Hdone v Hv). rewrite Hq in Hdone. split_and!; [|intros ->|done].
      * intros E. apply Hwd. rewrite <- E. by apply list_elem_of_fmap_2.
      * assert (vi_public_key v = vi_public_key w) as E by (apply Hinj; congruence).
        apply (key_id_inj vs) in E as ->; [|done..]. by apply Hwd, list_elem_of_fmap_2.
    + apply list_elem_of_singleton in Hv as ->. rewrite Hp. case_match eqn:Hc.
      * bool_prop. match goal with H : is_Some _ |- _ => destruct H as [q Hq] end.
        rewrite Hq. rewrite <- Hp. symmetry. eapply Hroutes; [done|]. by apply Hold.
      * apply pm_insert_lookup; [done|]. by left.
  - intros vid q Hnin Hlk. rewrite fmap_app in Hnin. apply Hold; [set_solver|]. unfold reroute in Hlk.
    case_match; [done|]. destruct (peer_of_key _); [|done]. apply pm_insert_lookup in Hlk; [|done]. set_solver.
Qed.

Lemma epoch_change_map s vs :
  pm_ok (ns_peer_map s) → pm_ok (ns_peer_map (handle_epoch_change vs s)).
Proof. intros Hm. simpl. by apply remove_all_ok, reroute_all_ok. Qed.

Lemma epoch_change_routes s vs vid p :
  pm_ok (ns_peer_map s) → routes_ok s → vs_wf vs → keys_valid vs →
  validator_to_peer (ns_peer_map (handle_epoch_change vs s)) !! vid = Some p ↔ routed vs vid p.
Proof.
  intros Hm Hr Hwf Hk. simpl. set (m := foldl (reroute s) _ _).
  assert (∀ v, v ∈ vs_validators vs → validator_to_peer m !! vi_id v = peer_of_key (vi_public_key v)) as Hs.
  { apply (reroute_spec s vs []); [done..| |done]. set_solver. }
  rewrite remove_all_lookup. rewrite list_elem_of_filter. unfold routed, ids_of. split.
  - intros [Hnin Hl]. destruct (decide (vid ∈ vi_id <$> vs_validators vs)) as [Hin|Hout].
    + apply list_elem_of_fmap in Hin as (v & -> & Hv). exists v. split_and!; [done..|]. by rewrite <- Hs.
    + exfalso. apply Hnin. split; [done|]. apply list_elem_of_fmap. exists (vid, p).
      split; [done|]. by apply elem_of_map_to_list.
  - intros (v & Hv & <- & Hp). split; [|by rewrite Hs]. intros [Hnin _]. apply Hnin. by apply list_elem_of_fmap_2.
Qed.

Lemma inv_epoch_change s vs : net_inv s → net_inv (handle_epoch_change vs s).
Proof. intros Hi. pose proof (epoch_change_map s vs (ni_map _ Hi)). by destruct Hi. Qed.

(** ** Every event keeps the invariant *)

#[local] Hint Resolve inv_out inv_emit inv_score inv_notify inv_connected inv_notif inv_pex inv_rate_delete
  inv_remove_mempool inv_add_mempool inv_tx inv_epoch_number inv_epoch_change : net.

Lemma inv_rotate_record s h : net_inv s → net_inv (rotate_seen (record_seen h s)).
Proof. intros Hi. rewrite (set_out_id (record_seen h s)). by apply inv_seen. Qed.

Lemma inv_relay s p msg : net_inv s → net_inv (relay_consensus_message iter p msg s).
Proof.
  intros Hi. unfold relay_consensus_message. destruct (pc_encode msg); [|done].
  destruct (seen s _); [done|]. destruct (encode msg); [|done..]. rewrite notify_all_out. by apply inv_seen.
Qed.

Lemma inv_notification env ev s : net_inv s → net_inv (handle_notification_event iter env ev s).
Proof.
  intros Hi. destruct ev as [p h|p|p|p n|p]; simpl; auto with net.
  - destruct (_ && _); auto with net.
  - destruct (_ !! p) as [sender|]; [|done].
    pose proof (inv_budget s (env_now env) p (len n) Hi) as Hb.
    destruct (check_consensus_ingress_budget _ _ _ _) as [s1 []]; simpl in *; [|done].
    destruct (decode n) as [msg|e|]; auto with net. destruct (should_accept_consensus_from_peer _ _ _); [|done].
    simpl. set (s2 := if env_room env then _ else _).
    assert (net_inv s2) as H2 by (unfold s2; destruct (env_room env); auto with net).
    destruct (_ && _); [|done]. auto using inv_relay with net.
Qed.

Lemma inv_reqresp env ev s : net_inv s → net_inv (handle_reqresp_event env ev s).
Proof.
  intros Hi. destruct ev as [p id r|r|p]; simpl; [|done..].
  destruct (_ !! p) as [sender|]; [|auto with net].
  pose proof (inv_budget s (env_now env) p (len r) Hi) as Hb.
  destruct (check_consensus_ingress_budget _ _ _ _) as [s1 []]; simpl in *; auto with net.
  destruct (decode r) as [msg|e|]; auto with net.
  destruct (should_accept_consensus_from_peer _ _ _), (env_room env); simpl; auto with net.
Qed.

Lemma inv_sync env ev s : net_inv s → net_inv (handle_sync_event env ev s).
Proof.
  intros Hi. destruct ev as [p id r|r|p]; simpl.
  - case_bool_decide; simpl; [|auto with net].
    pose proof (inv_budget s (env_now env) p (len r) Hi) as Hb.
    destruct (check_consensus_ingress_budget _ _ _ _) as [s1 []]; simpl in *; auto with net.
    destruct (decode r) as [req|e|]; [destruct (env_room env); auto with net|..];
      destruct (encode _) as [bs| |]; auto with net.
  - destruct (decode r) as [resp| |]; [|done..]. destruct (env_room env); auto with net.
  - destruct (env_room env); auto with net.
Qed.

Lemma inv_pex_event env ev s : net_inv s → net_inv (handle_pex_event env ev s).
Proof.
  intros Hi. destruct ev as [p id r|r|p]; simpl; [|destruct (pc_decode r) as [[l|]|]; [|done..]|done].
  - unfold handle_pex_request. destruct (_ && _); [auto with net|].
    destruct (match ns_pex_rate_limit s !! p with Some _ => _ | None => _ end); [auto with net|].
    destruct (pc_decode r) as [[|role vid l]|]; [|destruct (_ && _)|];
      [destruct (pc_encode _); auto with net|auto with net| |auto with net].
    destruct (advertised_role _ _ _ _) as [role' vid'].
    set (info := match vid' with Some _ => _ | None => _ end).
    assert (net_inv (set_peer_book (set_pex_rate_limit s (<[p:=env_now env]> (ns_pex_rate_limit s)))
      (add_peer (ns_peer_book s) info))) as H1.
    { apply inv_book; [|auto with net]. apply add_peer_ok, Hi. }
    destruct (pc_encode _); [by apply inv_emit|done].
  - apply inv_book; [|done]. pose proof (ni_book _ Hi) as Hb. revert Hb. generalize (ns_peer_book s).
    induction l as [|p l IH]; intros b Hb; simpl; [done|]. apply IH. destruct (is_banned p); [done|].
    by apply add_peer_ok.
Qed.

Lemma inv_transport env ev s : net_inv s → net_inv (handle_litep2p_event iter env ev s).
Proof.
  intros Hi. destruct ev as [p|p| |]; unfold handle_litep2p_event; [|..|done|done].
  - cbv zeta. destruct (negb _ && _); [done|].
    set (s1 := if is_validator s p && _ then _ else _).
    assert (net_inv s1) as H1.
    { unfold s1. destruct (_ && _); [|done]. destruct (pick_non_validator_to_evict iter s); [|done].
      unfold evict. auto 10 with net. }
    clearbody s1. set (s2 := net_emit (OpenSubstream PMempool p) _). assert (net_inv s2) as H2 by (unfold s2; auto 10 with net).
    clearbody s2. destruct (ns_peer_book s2 !! peer_to_string p) as [info|] eqn:E; [|done].
    apply inv_book; [|done]. intros k q. rewrite lookup_insert_Some. intros [[<- <-]|[_ Hq]].
    + simpl. by apply (ni_book _ H2) in E.
    + by apply (ni_book _ H2).
  - case_bool_decide; auto 10 with net.
Qed.

Lemma inv_mempool env ev s : net_inv s → net_inv (handle_mempool_notification_event env ev s).
Proof.
  intros Hi. destruct ev as [p h|p|p|p n|p]; simpl; auto with net.
  - destruct (_ && _); auto with net.
  - case_bool_decide as Hp; simpl; [|done].
    pose proof (inv_mempool_budget s (env_now env) p (len n) Hp Hi) as Hb.
    destruct (check_mempool_budget _ _ _ _) as [s1 []]; simpl in *; [|done].
    destruct (_ || _); [done|]. destruct (env_room env); auto with net.
Qed.

Lemma step_inv env ev s : net_inv s → net_inv (step env ev s).
Proof.
  intros Hi. destruct ev as [ev|ev|ev|ev|ev|ev|cmd|[[n vs]|]| |]; simpl;
    auto using inv_notification, inv_mempool, inv_reqresp, inv_sync, inv_pex_event, inv_transport with net.
  - destruct cmd as [bs|v bs|p bs|id bs|bs]; simpl; auto with net.
    + destruct (decode bs) as [msg| |]; auto with net. destruct (pc_encode msg); auto using inv_rotate_record with net.
    + destruct (_ !! v); auto with net.
  - unfold run_maintenance. destruct (redial_out s) as [o ->].
    destruct (fill_connections_out env (set_out s o)) as [o' ->]. apply inv_pex, inv_emit, inv_book.
    + apply prune_stale_ok, Hi.
    + auto with net.
  - destruct (px_enabled _); [|done]. unfold run_pex_round.
    destruct (_ !! _); [|done]. destruct (pc_encode _); auto with net.
Qed.

Lemma run_inv evs s : net_inv s → net_inv (run evs s).
Proof.
  revert s. induction evs as [|[env ev] evs IH]; intros s Hi; [done|]. apply (IH (step env ev s)). by apply step_inv.
Qed.

Lemma create_inv config :
  pm_ok (nc_peer_map config) → book_ok (nc_peer_book config) → net_inv (create config).
Proof. intros Hm Hb. constructor; simpl; try done; rewrite ?size_empty; try done. all: try (intros; by rewrite lookup_empty in *). Qed.

(** ** Frames

    A projection of the state that the outputs, the peer book, the ingress
    budget and the peer exchange limit do not touch is not touched by the
    request handlers, the peer exchange and the maintenance either. *)

Section Frame.
Context {X : Type} (view : Net → X).
Context (view_out : ∀ s o, view (set_out s o) = view s).
Context (view_book : ∀ s b, view (set_peer_book s b) = view s).
Context (view_rate : ∀ s r, view (set_consensus_peer_rate s r) = view s).
Context (view_pex : ∀ s r, view (set_pex_rate_limit s r) = view s).

Lemma emit_frame s x : view (net_emit x s) = view s.
Proof using view_out. apply view_out. Qed.

Lemma budget_frame now p bs s : view (check_consensus_ingress_budget now p bs s).1 = view s.
Proof using view_rate. unfold check_consensus_ingress_budget. destruct (checked_add64 _ _); [case_match|]; apply view_rate. Qed.

Lemma notify_frame protocol l bs s : view (notify_all protocol l bs s) = view s.
Proof using view_out. rewrite notify_all_out. apply view_out. Qed.

Lemma reqresp_frame env ev s : view (handle_reqresp_event env ev s) = view s.
Proof using view_out view_rate.
  destruct ev as [p id r|r|p]; simpl; [|done..]. destruct (_ !! p) as [sender|]; [|apply view_out].
  pose proof (budget_frame (env_now env) p (len r) s) as Hv.
  destruct (check_consensus_ingress_budget _ _ _ _) as [s1 []]; simpl in *; [|by rewrite emit_frame].
  destruct (decode r) as [msg| |]; [|by rewrite emit_frame..].
  destruct (should_accept_consensus_from_peer _ _ _), (env_room env); simpl; by rewrite !emit_frame.
Qed.

Lemma sync_frame env ev s : view (handle_sync_event env ev s) = view s.
Proof using view_out view_rate view_book.
  destruct ev as [p id r|r|p]; simpl.
  - case_bool_decide; simpl; [|apply view_out]. pose proof (budget_frame (env_now env) p (len r) s) as Hv.
    destruct (check_consensus_ingress_budget _ _ _ _) as [s1 []]; simpl in *; [|by rewrite emit_frame].
    destruct (decode r) as [req| |]; [destruct (env_room env); by rewrite emit_frame|..];
      destruct (encode _); rewrite emit_frame; unfold score; by rewrite view_book.
  - destruct (decode r); [destruct (env_room env); [apply view_out|done]|done..].
  - destruct (env_room env); [apply view_out|done].
Qed.

Lemma pex_frame env ev s : view (handle_pex_event env ev s) = view s.
Proof using view_out view_book view_pex.
  destruct ev as [p id r|r|p]; simpl; [|destruct (pc_decode r) as [[]|]; [apply view_book|done..]|done].
  unfold handle_pex_request. destruct (_ && _); [apply view_out|].
  destruct (match ns_pex_rate_limit s !! p with Some _ => _ | None => _ end); [apply view_out|].
  destruct (pc_decode r) as [[|role vid l]|];
    [destruct (pc_encode _); by rewrite ?emit_frame, view_pex| |by rewrite emit_frame, view_pex].
  destruct (_ && _); [by rewrite emit_frame, view_pex|]. destruct (advertised_role _ _ _ _).
  destruct (pc_encode _); by rewrite ?emit_frame, view_book, view_pex.
Qed.

Lemma maintenance_frame env s : view (run_maintenance env s) = view s.
Proof using view_out view_book view_pex.
  unfold run_maintenance. destruct (redial_out s) as [o ->].
  destruct (fill_connections_out env (set_out s o)) as [o' ->].
  by rewrite view_pex, emit_frame, view_book, !view_out.
Qed.

Lemma pex_round_frame env s : view (run_pex_round iter env s) = view s.
Proof using view_out. unfold run_pex_round. destruct (_ !! _); [|done]. destruct (pc_encode _); [apply view_out|done]. Qed.
End Frame.

(** ** Admission of connections and streams

    The part of the state that decides who is connected. *)

Definition conn_view s :=
  (ns_peer_map s, ns_pex_config s, ns_connected_peers s, ns_notif_connected_peers s,
   ns_mempool_notif_connected_peers s).

Lemma rotate_view s : conn_view (rotate_seen s) = conn_view s.
Proof. unfold rotate_seen. by case_match. Qed.

Lemma relay_view p msg s : conn_view (relay_consensus_message iter p msg s) = conn_view s.
Proof.
  unfold relay_consensus_message. destruct (pc_encode msg); [|done]. destruct (seen _ _); [done|].
  destruct (encode msg); [|done..]. by rewrite rotate_view, notify_frame.
Qed.

Lemma received_view env p n s :
  conn_view (handle_notification_event iter env (NotificationReceived p n) s) = conn_view s.
Proof.
  simpl. destruct (_ !! p) as [sender|]; [|done]. pose proof (budget_frame conn_view (λ _ _, eq_refl) (env_now env) p (len n) s) as Hv.
  destruct (check_consensus_ingress_budget _ _ _ _) as [s1 []]; simpl in *; [|done].
  destruct (decode n) as [msg| |]; [|done..]. destruct (should_accept_consensus_from_peer _ _ _); [|done].
  simpl. destruct (env_room env); (destruct (_ && _); [unfold score; simpl|done]).
  - transitivity (conn_view (relay_consensus_message iter p msg (net_emit (ToEngine sender msg) s1))); [done|].
    by rewrite relay_view.
  - transitivity (conn_view (relay_consensus_message iter p msg s1)); [done|]. by rewrite relay_view.
Qed.

Lemma mempool_received_view env p n s :
  conn_view (handle_mempool_notification_event env (NotificationReceived p n) s) = conn_view s.
Proof.
  simpl. case_bool_decide; simpl; [|done]. unfold check_mempool_budget.
  destruct (1 <=? _); simpl; [|destruct (_ <=? _); [simpl|done]]; (destruct (_ || _); [done|]);
    destruct (env_room env); [|done|..|done]; unfold record_tx; by case_match.
Qed.

(** The events that decide who is connected. *)
Definition admits (ev : NetEvent (PeerId := PeerId)) : bool :=
  match ev with
  | NotifEvent (NotificationStreamOpened _ | NotificationStreamClosed _)
  | MempoolEvent (NotificationStreamOpened _ | NotificationStreamClosed _)
  | TransportEvent _ | EpochUpdate (Some _) => true
  | _ => false
  end.

Lemma step_view env ev s : admits ev = false → conn_view (step env ev s) = conn_view s.
Proof.
  destruct ev as [[]|[]|ev|ev|ev|ev|cmd|[[]|]| |]; intros Hev; try done; unfold net_step;
    auto using received_view, mempool_received_view, reqresp_frame, sync_frame, pex_frame, maintenance_frame.
  - destruct cmd as [bs|v bs|p bs|id bs|bs]; simpl; auto using notify_frame.
    + destruct (decode bs) as [msg| |]; auto using notify_frame. destruct (pc_encode msg); [|done].
      by rewrite notify_frame, rotate_view.
    + by destruct (_ !! v).
  - destruct (px_enabled _); auto using pex_round_frame.
Qed.

(** Within the limit unless only validators are connected, and streams only for
    connected peers and validators. *)
Record admission s : Prop := {
  ad_limit : count (ns_connected_peers s) ≤ px_max_peers (ns_pex_config s) ∨
    ∀ p, p ∈ ns_connected_peers s → is_validator s p = true;
  ad_streams : ∀ p, p ∈ ns_notif_connected_peers s ∪ ns_mempool_notif_connected_peers s →
    p ∈ ns_connected_peers s ∨ is_validator s p = true;
}.

Lemma admission_view s s' : conn_view s' = conn_view s → admission s → admission s'.
Proof. intros E [H1 H2]. unfold conn_view in E. injection E as E1 E2 E3 E4 E5.
  constructor; unfold is_validator; rewrite ?E1, ?E2, ?E3, ?E4, ?E5; done. Qed.

Context (iter_perm : ∀ X, iter X ≡ₚ elements X).

Lemma pick_evict_spec s :
  match pick_non_validator_to_evict iter s with
  | Some p => p ∈ ns_connected_peers s ∧ is_validator s p = false
  | None => ∀ p, p ∈ ns_connected_peers s → is_validator s p = true
  end.
Proof.
  unfold pick_non_validator_to_evict. destruct (list_find _ _) as [[i p]|] eqn:E; simpl.
  - apply list_find_Some in E as (Hi & Hp & _). split; [|done]. apply list_elem_of_lookup_2 in Hi.
    rewrite iter_perm in Hi. by apply elem_of_elements.
  - intros p Hp. apply list_find_None in E. rewrite Forall_forall in E.
    destruct (is_validator s p) eqn:Hv; [done|]. exfalso. eapply E; [|done]. rewrite iter_perm. by apply elem_of_elements.
Qed.

Lemma count_insert (X : gset PeerId) p : count ({[p]} ∪ X) ≤ count X + 1.
Proof. unfold count. pose proof (size_union_alt {[p]} X). pose proof (subseteq_size (X ∖ {[p]}) X). rewrite size_singleton in *. set_solver by lia. Qed.

Lemma count_remove (X : gset PeerId) p : p ∈ X → count (X ∖ {[p]}) + 1 = count X.
Proof.
  intros Hp. unfold count. assert (X = {[p]} ∪ X ∖ {[p]}) as E by (apply set_eq; intros; destruct (decide (x = p)); set_solver).
  assert (size X = size ({[p]} ∪ X ∖ {[p]})) as E' by (by f_equal).
  rewrite size_union, size_singleton in E' by set_solver. lia.
Qed.

Lemma count_mono (X Y : gset PeerId) : X ⊆ Y → count X ≤ count Y.
Proof. intros HX. unfold count. pose proof (subseteq_size X Y HX). lia. Qed.

Lemma touch_view k f s :
  conn_view match ns_peer_book s !! k with
            | Some info => set_peer_book s (<[k := f info]> (ns_peer_book s))
            | None => s
            end = conn_view s.
Proof. by destruct (ns_peer_book s !! k). Qed.

(** A connection of a validator is always admitted; when the table is full it
    takes the place of a non-validator, if there is one. *)
Lemma established_spec env p s :
  let s' := handle_litep2p_event iter env (ConnectionEstablished p) s in
  (is_validator s p = true → p ∈ ns_connected_peers s') ∧
  (admission s → admission s').
Proof.
  unfold handle_litep2p_event. cbv zeta.
  set (full := px_max_peers (ns_pex_config s) <=? count (ns_connected_peers s)).
  set (s1 := if is_validator s p && full then _ else s).
  set (s2 := net_emit (OpenSubstream PMempool p) _).
  set (s3 := match ns_peer_book s2 !! _ with Some _ => _ | None => s2 end).
  assert (conn_view s3 = conn_view s2) as E by apply (touch_view _ (λ info, touch info (env_secs env))). clearbody s3.
  assert (p ∈ ns_connected_peers s3 ∧ (admission s2 → admission s3)) as [Hp3 Ha3].
  { split; [|by apply admission_view]. unfold conn_view in E. injection E as _ _ -> _ _.
    unfold s2. simpl. set_solver. }
  destruct (is_validator s p) eqn:Hv; cbn [negb andb] in *.
  - split; [done|]. intros [Hl Hst]. apply Ha3.
    destruct full eqn:Hf; unfold full in Hf; bool_prop.
    + pose proof (pick_evict_spec s) as Hpick. unfold s2, s1.
      destruct (pick_non_validator_to_evict iter s) as [q|].
      * destruct Hpick as [Hq Hnv]. assert (q ≠ p) as Hqp by (intros ->; congruence).
        assert (count (ns_connected_peers s) ≤ px_max_peers (ns_pex_config s)) as Hle.
        { destruct Hl as [?|Hall]; [done|]. by rewrite (Hall q Hq) in Hnv. }
        constructor; simpl.
        -- left. etrans; [apply count_insert|]. by rewrite (count_remove _ _ Hq).
        -- intros r Hr. unfold is_validator. simpl. destruct (decide (r = p)) as [->|]; [set_solver|].
           destruct (Hst r) as [?|?]; [set_solver|set_solver|by right].
      * constructor; simpl; unfold is_validator; simpl.
        -- right. intros r [->%elem_of_singleton|Hr]%elem_of_union; [done|by apply Hpick].
        -- intros r Hr. destruct (Hst r Hr); [left; set_solver|by right].
    + assert (s1 = s) as E1 by done. clearbody s1. subst s1. constructor; simpl; unfold is_validator; simpl.
      * left. etrans; [apply count_insert|lia].
      * intros r Hr. destruct (Hst r Hr); [left; set_solver|by right].
  - split; [done|]. intros [Hl Hst]. destruct full eqn:Hf; [by constructor|]. unfold full in Hf. bool_prop. apply Ha3.
    assert (s1 = s) as E1 by done. clearbody s1. subst s1. constructor; simpl; unfold is_validator; simpl.
    + left. etrans; [apply count_insert|lia].
    + intros r Hr. destruct (Hst r Hr); [left; set_solver|by right].
Qed.

Lemma step_admission env ev s :
  (∀ v, ev ≠ EpochUpdate (Some v)) → admission s → admission (step env ev s).
Proof.
  intros Hne Ha. destruct (admits ev) eqn:Hev; [|by eapply admission_view; [by apply step_view|]].
  destruct ev as [[]|[]|ev|ev|ev|[p|p| |]|cmd|[v|]| |]; try done; simpl.
  - destruct (negb _ && _) eqn:E; [done|]. destruct Ha as [Hl Hst]. constructor; simpl; [done|].
    unfold is_validator in *. simpl. intros r Hr. destruct (decide (r = peer)) as [->|].
    + apply andb_false_iff in E as [E|E]; apply negb_false_iff in E; [by right|left]. by apply bool_decide_eq_true in E.
    + apply Hst. set_solver.
  - destruct Ha as [Hl Hst]. constructor; simpl; [done|]. intros r Hr. apply Hst. set_solver.
  - destruct (negb _ && _) eqn:E; [done|]. destruct Ha as [Hl Hst]. constructor; simpl; [done|].
    unfold is_validator in *. simpl. intros r Hr. destruct (decide (r = peer)) as [->|].
    + apply andb_false_iff in E as [E|E]; apply negb_false_iff in E; [left|by right]. by apply bool_decide_eq_true in E.
    + apply Hst. set_solver.
  - destruct Ha as [Hl Hst]. constructor; simpl; [done|]. intros r Hr. apply Hst. set_solver.
  - by apply established_spec.
  - destruct Ha as [Hl Hst]. set (s' := remove_mempool_peer p _).
    assert (conn_view s' = (ns_peer_map s, ns_pex_config s, ns_connected_peers s ∖ {[p]},
      ns_notif_connected_peers s ∖ {[p]}, ns_mempool_notif_connected_peers s ∖ {[p]})) as E
      by (unfold s'; by case_bool_decide).
    clearbody s'. unfold conn_view in E. injection E as E1 E2 E3 E4 E5.
    constructor; unfold is_validator in *; rewrite ?E1, ?E2, ?E3, ?E4, ?E5.
    + destruct Hl as [Hl|Hl]; [left|right; intros r [Hr _]%elem_of_difference; by apply Hl].
      etrans; [|exact Hl]. apply count_mono. apply subseteq_difference_l. done.
    + intros r Hr. rewrite <- difference_union_distr_l_L in Hr. apply elem_of_difference in Hr as [Hr Hp].
      destruct (Hst r Hr); [left; by apply elem_of_difference|by right].
  - by destruct (Hne v).
Qed.

(** ** Deduplication *)

Definition seen_view s := (ns_seen_active s, ns_seen_backup s).

Definition remember h s : Net := rotate_seen (record_seen h s).

Lemma remember_view h s s' : seen_view s = seen_view s' → seen_view (remember h s) = seen_view (remember h s').
Proof.
  unfold seen_view, remember, rotate_seen, record_seen. simpl. intros [= E1 E2]. rewrite E1.
  case_match; simpl; congruence.
Qed.

Lemma relay_seen p msg s :
  seen_view (relay_consensus_message iter p msg s) = seen_view s ∨
  ∃ h, seen_view (relay_consensus_message iter p msg s) = seen_view (remember h s).
Proof.
  unfold relay_consensus_message. destruct (pc_encode msg) as [id|]; [|by left]. destruct (seen _ _); [by left|].
  destruct (encode msg); [|by left..]. right. exists (blake3 id). rewrite notify_all_out.
  unfold seen_view, remember, rotate_seen. simpl. by case_match.
Qed.

Lemma step_seen env ev s :
  seen_view (step env ev s) = seen_view s ∨ ∃ h, seen_view (step env ev s) = seen_view (remember h s).
Proof.
  destruct ev as [[p hs|p|p|p n|p]|[p hs|p|p|p n|p]|ev|ev|ev|[p|p| |]|cmd|[[? ?]|]| |];
    unfold net_step; try (by left);
    try (left; by auto using reqresp_frame, sync_frame, pex_frame, maintenance_frame);
    unfold handle_notification_event, handle_mempool_notification_event, handle_litep2p_event.
  - destruct (_ && _); by left.
  - destruct (_ !! p) as [sender|]; [|by left].
    pose proof (budget_frame seen_view (λ _ _, eq_refl) (env_now env) p (len n) s) as Hv.
    destruct (check_consensus_ingress_budget _ _ _ _) as [s1 []]; simpl in *; [|by left].
    destruct (decode n) as [msg| |]; [|by left..]. destruct (should_accept_consensus_from_peer _ _ _); [|by left].
    simpl. set (s2 := if env_room env then _ else _). assert (seen_view s2 = seen_view s) as H2
      by (unfold s2; by destruct (env_room env)). clearbody s2.
    destruct (_ && _); [|by left]. unfold score.
    destruct (relay_seen p msg s2) as [E|(h & E)]; [left|right; exists h].
    + by transitivity (seen_view (relay_consensus_message iter p msg s2)); [|rewrite E].
    + transitivity (seen_view (relay_consensus_message iter p msg s2)); [done|]. rewrite E. by apply remember_view.
  - destruct (_ && _); by left.
  - case_bool_decide; simpl; [|by left]. unfold check_mempool_budget.
    destruct (1 <=? _); simpl; [|destruct (_ <=? _); [simpl|by left]]; (destruct (_ || _); [by left|]);
    destruct (env_room env); [|by left|..|by left]; unfold record_tx; (case_match; by left).
  - left. destruct (negb _ && _); [done|]. destruct (is_validator s p && _).
    + by destruct (pick_non_validator_to_evict iter s); simpl; destruct (_ !! peer_to_string p).
    + by destruct (_ !! peer_to_string p).
  - left. by case_bool_decide.
  - destruct cmd as [bs|v bs|p bs|id bs|bs]; simpl; auto using notify_frame.
    + destruct (decode bs) as [msg| |]; auto using notify_frame. destruct (pc_encode msg) as [id|]; [|by left].
      right. exists (blake3 id). by rewrite notify_frame.
    + left. by destruct (_ !! v).
  - left. destruct (px_enabled _); [|done]. by apply pex_round_frame.
Qed.

(** [h] is in the active set, or in the backup set with room for [k] more
    entries before the next rotation. *)
Definition fresh (h : bytes) (k : N) s : Prop :=
  h ∈ ns_seen_active s ∨ (h ∈ ns_seen_backup s ∧ N.of_nat (size (ns_seen_active s)) + k ≤ RELAY_SEEN).

Lemma fresh_seen h k s : fresh h k s → seen s h = true.
Proof. unfold fresh, seen. rewrite orb_true_iff, !bool_decide_eq_true. naive_solver. Qed.

Lemma fresh_view h k s s' : seen_view s = seen_view s' → fresh h k s → fresh h k s'.
Proof. unfold seen_view, fresh. by intros [= -> ->]. Qed.

Lemma remember_fresh h s : fresh h RELAY_SEEN (remember h s).
Proof.
  unfold fresh, remember, rotate_seen, record_seen. simpl. case_match; simpl; [right|left; set_solver].
  split; [set_solver|done].
Qed.

Lemma remember_other h h' k s : k ≤ RELAY_SEEN → fresh h (k + 1) s → fresh h k (remember h' s).
Proof.
  intros Hk. unfold fresh, remember, rotate_seen, record_seen. simpl.
  pose proof (size_insert_le (ns_seen_active s) h').
  destruct (N.ltb_spec RELAY_SEEN (N.of_nat (size ({[h']} ∪ ns_seen_active s)))) as [Hlt|Hge]; simpl.
  - intros [Hh|[Hh Hs]]; [right; split; [set_solver|done]|lia].
  - intros [Hh|[Hh Hs]]; [left; set_solver|right; split; [done|lia]].
Qed.

Lemma run_fresh h evs k s :
  k + N.of_nat (length evs) ≤ RELAY_SEEN → fresh h (k + N.of_nat (length evs)) s → fresh h k (run evs s).
Proof.
  revert s. induction evs as [|[env ev] evs IH]; intros s Hk Hf; simpl in *.
  { by rewrite N.add_0_r in Hf. }
  apply (IH (step env ev s)); [lia|]. destruct (step_seen env ev s) as [E|(h' & E)]; symmetry in E;
    eapply fresh_view; [exact E| |exact E|].
  - destruct Hf as [?|[? ?]]; [by left|right]. split; [done|lia].
  - apply remember_other; [lia|].
    replace (k + N.of_nat (length evs) + 1) with (k + N.of_nat (S (length evs))) by lia. done.
Qed.

Lemma relay_when_seen p msg id s :
  pc_encode msg = Some id → seen s (blake3 id) = true → relay_consensus_message iter p msg s = s.
Proof. intros Hid Hs. unfold relay_consensus_message. by rewrite Hid, Hs. Qed.

(** The first relay sends the message to every other peer with an open stream. *)
Lemma relay_when_new p msg id raw s :
  pc_encode msg = Some id → encode msg = Ok raw → seen s (blake3 id) = false →
  let s' := relay_consensus_message iter p msg s in
  fresh (blake3 id) RELAY_SEEN s' ∧
  ∃ out, ns_out s' = out ++ ns_out s ∧
    out ≡ₚ (λ q, Notify PNotif q raw) <$> elements (ns_notif_connected_peers s ∖ {[p]}).
Proof.
  intros Hid Hraw Hs. unfold relay_consensus_message. rewrite Hid, Hs, Hraw. cbv zeta. split.
  - eapply fresh_view; [|apply (remember_fresh (blake3 id) s)]. rewrite notify_all_out.
    unfold seen_view, remember, rotate_seen. simpl. by case_match.
  - rewrite notify_all_out. exists (reverse ((λ q, Notify PNotif q raw) <$> filter (λ other, other ≠ p) (iter (ns_notif_connected_peers s)))).
    split; [unfold rotate_seen; by case_match|]. rewrite reverse_Permutation. apply fmap_Permutation.
    rewrite iter_perm. apply NoDup_Permutation; [apply NoDup_filter, NoDup_elements|apply NoDup_elements|].
    intros q. rewrite list_elem_of_filter, !elem_of_elements. set_solver.
Qed.

(** ** The ingress limit *)

(** The peer and the size of what an event asks the budget for. *)
Definition ingress_request s (ev : NetEvent (PeerId := PeerId)) : option (PeerId * N) :=
  match ev with
  | NotifEvent (NotificationReceived p bs) | ReqRespEvent (RequestReceived p _ bs) =>
      if is_validator s p then Some (p, len bs) else None
  | SyncEvent (RequestReceived p _ bs) =>
      if bool_decide (p ∈ ns_notif_connected_peers s) then Some (p, len bs) else None
  | _ => None
  end.

(** What the budget lets through along a run: time, peer and size. *)
Definition ingress env ev s : list (N * PeerId * N) :=
  match ingress_request s ev with
  | Some (p, b) => if (check_consensus_ingress_budget (env_now env) p b s).2 then [(env_now env, p, b)] else []
  | None => []
  end.

Fixpoint ingress_log (evs : list (Env * NetEvent)) s : list (N * PeerId * N) :=
  match evs with
  | [] => []
  | (env, ev) :: evs => ingress env ev s ++ ingress_log evs (step env ev s)
  end.

Definition transport (ev : NetEvent (PeerId := PeerId)) : bool :=
  match ev with TransportEvent _ => true | _ => false end.

Lemma relay_rate p msg s : ns_consensus_peer_rate (relay_consensus_message iter p msg s) = ns_consensus_peer_rate s.
Proof.
  unfold relay_consensus_message. destruct (pc_encode msg); [|done]. destruct (seen _ _); [done|].
  destruct (encode msg); [|done..]. rewrite notify_all_out. unfold rotate_seen. by case_match.
Qed.

Lemma step_rate env ev s :
  transport ev = false →
  ns_consensus_peer_rate (step env ev s) =
    match ingress_request s ev with
    | Some (p, b) => ns_consensus_peer_rate (check_consensus_ingress_budget (env_now env) p b s).1
    | None => ns_consensus_peer_rate s
    end.
Proof.
  destruct ev as [[p hs|p|p|p n|p]|[p hs|p|p|p n|p]|[p id r|r|p]|[p id r|r|p]|ev|ev|cmd|[[? ?]|]| |];
    intros Ht; try done; unfold net_step;
    try (by auto using pex_frame, maintenance_frame); cbn [ingress_request].
  - simpl. by destruct (_ && _).
  - unfold handle_notification_event, is_validator. destruct (_ !! p) as [sender|]; simpl; [|done].
    destruct (check_consensus_ingress_budget _ _ _ _) as [s1 []]; simpl in *; [|done].
    destruct (decode n) as [msg| |]; [|done..]. destruct (should_accept_consensus_from_peer _ _ _); [|done].
    simpl. destruct (env_room env); (destruct (_ && _); [|done]); unfold score; simpl; by rewrite relay_rate.
  - simpl. by destruct (_ && _).
  - simpl. case_bool_decide; simpl; [|done]. unfold check_mempool_budget.
    destruct (1 <=? _); simpl; [|destruct (_ <=? _); [simpl|done]]; (destruct (_ || _); [done|]);
    destruct (env_room env); [|done|..|done]; unfold record_tx; by case_match.
  - unfold handle_reqresp_event, is_validator. destruct (_ !! p) as [sender|]; simpl; [|done].
    destruct (check_consensus_ingress_budget _ _ _ _) as [s1 []]; simpl in *; [|done].
    destruct (decode r) as [msg| |]; [|done..]. by destruct (should_accept_consensus_from_peer _ _ _), (env_room env).
  - unfold handle_sync_event. case_bool_decide; simpl; [|done].
    destruct (check_consensus_ingress_budget _ _ _ _) as [s1 []]; simpl in *; [|done].
    destruct (decode r) as [req| |]; [by destruct (env_room env)|..]; by destruct (encode _).
  - simpl. destruct (decode r); [by destruct (env_room env)|done..].
  - simpl. by destruct (env_room env).
  - destruct cmd as [bs|v bs|p bs|id bs|bs]; simpl; rewrite ?notify_all_out; try done.
    + destruct (decode bs) as [msg| |]; rewrite ?notify_all_out; try done. destruct (pc_encode msg); [|done].
      rewrite notify_all_out. unfold rotate_seen. by case_match.
    + by destruct (_ !! v).
  - destruct (px_enabled _); [|done]. unfold run_pex_round. destruct (_ !! _); [|done]. by destruct (pc_encode _).
Qed.

(** The entry of one peer. *)
Lemma budget_entry now p b q s :
  let r := check_consensus_ingress_budget now p b s in
  let e := ns_consensus_peer_rate s !! p in
  (q ≠ p → ns_consensus_peer_rate r.1 !! q = ns_consensus_peer_rate s !! q) ∧
  ∃ w u, (match e with
          | Some (w0, u0) => if SEC <=? now - w0 then w = now ∧ u = 0 else w = w0 ∧ u = u0
          | None => w = now ∧ u = 0
          end) ∧
  if r.2 then u + b ≤ MAX_CONSENSUS_INGRESS_BYTES_PER_SEC ∧ ns_consensus_peer_rate r.1 !! p = Some (w, u + b)
  else ns_consensus_peer_rate r.1 !! p = Some (w, u).
Proof.
  unfold check_consensus_ingress_budget. cbv zeta. set (en := if SEC <=? _ then _ else _). split.
  - intros Hq. destruct (checked_add64 _ _); [case_match|]; simpl; by rewrite lookup_insert_ne.
  - exists en.1, en.2. split.
    + unfold en. destruct (ns_consensus_peer_rate s !! p) as [[w0 u0]|]; simpl; case_match; done.
    + destruct (checked_add64 en.2 b) as [total|] eqn:E; [apply checked_add64_Some in E as [-> _];
        destruct (en.2 + b <=? MAX_CONSENSUS_INGRESS_BYTES_PER_SEC) eqn:Hl|];
        simpl; rewrite lookup_insert_eq; bool_prop; try done; by destruct en.
Qed.

(** The bytes of [p] that a log shows in [[t, t + SEC)]. *)
Definition bytes_in (p : PeerId) (t : N) (log : list (N * PeerId * N)) : N :=
  sumN (λ x, x.2) (filter (λ x, x.1.2 = p ∧ t ≤ x.1.1 < t + SEC) log).

Lemma bytes_in_app p t l k : bytes_in p t (l ++ k) = bytes_in p t l + bytes_in p t k.
Proof. unfold bytes_in. by rewrite filter_app, sumN_app. Qed.

Lemma bytes_in_one p t x : bytes_in p t [x] = if decide (x.1.2 = p ∧ t ≤ x.1.1 < t + SEC) then x.2 else 0.
Proof. unfold bytes_in. rewrite filter_cons, filter_nil. case_decide; simpl; lia. Qed.

Notation LIMIT := MAX_CONSENSUS_INGRESS_BYTES_PER_SEC.

(** How one event moves the entry of [p]: [(w, u)] is the window the event falls
    into, and what it lets through is added to [u]. *)
Lemma step_entry env ev p s :
  transport ev = false →
  ns_consensus_peer_rate (step env ev s) !! p = ns_consensus_peer_rate s !! p ∧
    (∀ t, bytes_in p t (ingress env ev s) = 0) ∨
  ∃ w u b, (match ns_consensus_peer_rate s !! p with
            | Some (w0, u0) => if SEC <=? env_now env - w0 then w = env_now env ∧ u = 0 else w = w0 ∧ u = u0
            | None => w = env_now env ∧ u = 0
            end) ∧
    ns_consensus_peer_rate (step env ev s) !! p = Some (w, u + b) ∧ (u ≤ LIMIT → u + b ≤ LIMIT) ∧
    ∀ t, bytes_in p t (ingress env ev s) = if decide (t ≤ env_now env < t + SEC) then b else 0.
Proof.
  intros Ht. unfold ingress. rewrite (step_rate env ev s Ht).
  destruct (ingress_request s ev) as [[q b]|]; [|by left].
  destruct (budget_entry (env_now env) q b p s) as (Hother & w & u & Hw & Hb).
  destruct (decide (p = q)) as [->|Hne].
  - right. destruct (check_consensus_ingress_budget _ _ _ _).2 eqn:Hr.
    + exists w, u, b. destruct Hb as [Hle ->]. split_and!; [done|done|done|]. intros t.
      rewrite bytes_in_one. simpl. repeat case_decide; naive_solver.
    + exists w, u, 0. rewrite N.add_0_r. split_and!; [done|done|done|]. intros t. by case_decide.
  - left. split; [by apply Hother|]. intros t. case_match; [|done]. rewrite bytes_in_one. simpl.
    rewrite decide_False; [done|naive_solver].
Qed.

Implicit Types evs : list (Env * NetEvent (PeerId := PeerId)).

(** Clock readings that do not go back and stay at [t] or above. *)
Fixpoint timed (t : N) evs : Prop :=
  match evs with
  | [] => True
  | (env, ev) :: evs => t ≤ env_now env ∧ timed (env_now env) evs
  end.

Lemma timed_weaken t t' evs : t' ≤ t → timed t evs → timed t' evs.
Proof. destruct evs as [|[env ev] evs]; simpl; [done|]. intros ? [? ?]. split; [lia|done]. Qed.

(** Within the window of an entry only what the entry leaves fits. *)
Lemma window_rest p evs t w u s :
  timed t evs → w ≤ t → Forall (λ x, transport x.2 = false) evs →
  ns_consensus_peer_rate s !! p = Some (w, u) → u ≤ LIMIT →
  ∀ t0, t0 ≤ w → bytes_in p t0 (ingress_log evs s) ≤ LIMIT - u.
Proof.
  intros Htm Hwt Htr He Hu t0 Ht0. revert t s u Htm Hwt He Hu.
  induction evs as [|[env ev] evs IH]; intros t s u Htm Hwt He Hu; simpl in *; [unfold bytes_in; simpl; lia|].
  destruct Htm as [Hle Htm]. apply Forall_cons in Htr as [Hev Htr]. rewrite bytes_in_app.
  destruct (step_entry env ev p s Hev) as [[Hs Hz]|(w' & u' & b & Hw & Hs & Hb & Hin)].
  - rewrite Hz. rewrite He in Hs. specialize (IH Htr (env_now env) (step env ev s) u Htm ltac:(lia) Hs Hu). lia.
  - rewrite He in Hw. rewrite Hin. destruct (N.leb_spec SEC (env_now env - w)) as [Hnew|Hold].
    + (* a later window: nothing of it is before [t0 + SEC] *)
      rewrite decide_False by lia. rewrite N.add_0_l.
      assert (∀ evs t s, timed t evs → t0 + SEC ≤ t → bytes_in p t0 (ingress_log evs s) = 0) as Hlate.
      { clear. induction evs as [|[env ev] evs IH]; intros t s Htm Ht; simpl in *; [done|].
        destruct Htm as [H1 H2]. rewrite bytes_in_app, (IH _ _ H2) by lia. unfold ingress.
        destruct (ingress_request s ev) as [[q b]|]; [|done]. case_match; [|done]. rewrite bytes_in_one. simpl.
        by rewrite decide_False by lia. }
      rewrite (Hlate evs (env_now env) (step env ev s) Htm) by lia. lia.
    + destruct Hw as [-> ->]. specialize (Hb Hu).
      specialize (IH Htr (env_now env) (step env ev s) (u + b) Htm ltac:(lia) Hs Hb). case_decide; lia.
Qed.

Lemma two_windows p t evs s :
  timed t evs → Forall (λ x, transport x.2 = false) evs →
  (∀ w u, ns_consensus_peer_rate s !! p = Some (w, u) → u ≤ LIMIT) →
  bytes_in p t (ingress_log evs s) ≤ 2 * LIMIT -
    match ns_consensus_peer_rate s !! p with Some (w, u) => u | None => 0 end.
Proof.
  intros Htm. assert (∃ t1, t ≤ t1 ∧ timed t1 evs) as (t1 & Ht1 & Htm1) by (by exists t). clear Htm.
  revert t1 Ht1 s Htm1. induction evs as [|[env ev] evs IH]; intros t1 Ht1 s Htm Htr Hinv; simpl in *.
  { unfold bytes_in. simpl. lia. }
  destruct Htm as [Hle Htm]. apply Forall_cons in Htr as [Hev Htr]. rewrite bytes_in_app.
  destruct (step_entry env ev p s Hev) as [[Hs Hz]|(w' & u' & b & Hw & Hs & Hb & Hin)].
  - rewrite Hz, <- Hs. apply (IH (env_now env)); [lia|done|done|]. by rewrite Hs.
  - rewrite Hin. assert (∀ u, u' = u → u ≤ LIMIT → b + bytes_in p t (ingress_log evs (step env ev s)) ≤ 2 * LIMIT - u) as Hsame.
    { intros u -> Hu. specialize (IH (env_now env) ltac:(lia) (step env ev s) Htm Htr). rewrite Hs in IH.
      specialize (Hb Hu). assert (u + b ≤ LIMIT) as Hb' by done. ospecialize (IH _).
      { intros ? ? [= <- <-]. done. } lia. }
    assert (w' = env_now env → u' = 0 → b + bytes_in p t (ingress_log evs (step env ev s)) ≤ LIMIT) as Hfresh.
    { intros -> ->. simpl in *. specialize (Hb ltac:(done)).
      pose proof (window_rest p evs (env_now env) (env_now env) b (step env ev s) Htm ltac:(lia) Htr Hs Hb t ltac:(lia)). lia. }
    assert ((if decide (t ≤ env_now env < t + SEC) then b else 0) ≤ b) as Hdec by (case_decide; lia).
    destruct (ns_consensus_peer_rate s !! p) as [[w0 u0]|] eqn:He.
    + specialize (Hinv w0 u0 eq_refl). destruct (SEC <=? env_now env - w0); destruct Hw as [-> ->].
      * specialize (Hfresh eq_refl eq_refl). lia.
      * specialize (Hsame u0 eq_refl Hinv). lia.
    + destruct Hw as [-> ->]. specialize (Hfresh eq_refl eq_refl). lia.
Qed.

Lemma ingress_any p t t1 evs s :
  timed t1 evs → Forall (λ x, transport x.2 = false) evs → net_inv s →
  bytes_in p t (ingress_log evs s) ≤ 2 * LIMIT.
Proof.
  revert t1 s. induction evs as [|[env ev] evs IH]; intros t1 s Htm Htr Hi; [done|].
  destruct (N.le_gt_cases t (env_now env)) as [Hle|Hgt].
  - etrans; [apply two_windows; [|done|]|lia].
    + by destruct Htm.
    + intros w u. by apply ni_rate.
  - simpl in *. destruct Htm as [_ Htm]. apply Forall_cons in Htr as [Hev Htr]. rewrite bytes_in_app.
    specialize (IH (env_now env) (step env ev s) Htm Htr (step_inv env ev s Hi)).
    destruct (step_entry env ev p s Hev) as [[_ Hz]|(w & u & b & _ & _ & _ & Hin)].
    + by rewrite Hz.
    + rewrite Hin. rewrite decide_False by lia. done.
Qed.

(** ** Relay decisions *)

Lemma should_relay_iff s sender msg :
  net_inv s → vs_wf (ns_current_validator_set s) →
  should_relay_consensus_message s sender msg = true ↔
    (∀ q v sig, msg ≠ StatusCert q v sig) ∧
    author_signed (ns_current_validator_set s) (ns_chain_id_hash s) (ns_current_epoch s) sender msg.
Proof.
  intros Hi Hwf. rewrite <- verify_relay_sender_iff by done. unfold should_relay_consensus_message.
  rewrite (ni_keys _ Hi), (ni_ids _ Hi). destruct msg; naive_solver.
Qed.

(** ** Peer exchange requests *)

Lemma pex_peers_elem env s peer p :
  (∀ l, env_shuffle env l ≡ₚ l) → p ∈ pex_peers env s peer →
  (∃ k, ns_peer_book s !! k = Some p) ∧ is_banned p = false ∧
  pi_peer_id p ≠ peer_to_string peer ∧ pi_peer_id p ∉ px_private_peer_ids (ns_pex_config s).
Proof.
  intros Hsh Hin. unfold pex_peers in Hin. apply list_elem_of_filter in Hin as [Hpriv Hin].
  apply list_elem_of_filter in Hin as [Hself Hin]. apply get_random_peers_elem in Hin as [? ?]; [|done]. done.
Qed.

Lemma pex_peers_length env s peer :
  N.of_nat (length (pex_peers env s peer)) ≤ px_max_peers_per_response (ns_pex_config s).
Proof.
  unfold pex_peers. etrans; [|apply (get_random_peers_length (env_shuffle env) (ns_peer_book s))].
  pose proof (length_filter (λ p, pi_peer_id p ∉ px_private_peer_ids (ns_pex_config s))
    (filter (λ p, pi_peer_id p ≠ peer_to_string peer)
       (get_random_peers (env_shuffle env) (ns_peer_book s) (px_max_peers_per_response (ns_pex_config s))))) as H1.
  pose proof (length_filter (λ p, pi_peer_id p ≠ peer_to_string peer)
       (get_random_peers (env_shuffle env) (ns_peer_book s) (px_max_peers_per_response (ns_pex_config s)))) as H2.
  lia.
Qed.

(** The entry that an advertisement may write. *)
Definition advertised s (peer : PeerId) (info : PeerInfo) : Prop :=
  pi_peer_id info = peer_to_string peer ∧ (length (pi_addresses info) ≤ 8)%nat ∧
  match pi_role info with
  | RoleValidator => ∃ vid, pi_validator_id info = Some vid ∧
      validator_to_peer (ns_peer_map s) !! vid = Some peer
  | RoleFullnode => pi_validator_id info = None
  end.

Lemma length_omap_le {A B} (f : A → option B) l : (length (omap f l) ≤ length l)%nat.
Proof. induction l as [|x l IH]; csimpl; [done|]. destruct (f x); simpl; lia. Qed.

Lemma advertise_entry s peer role vid addrs now :
  let '(role', vid') := advertised_role s peer role vid in
  let info := PeerInfo_new (peer_to_string peer) role' (omap addr_parse (take 8 addrs)) now in
  advertised s peer (match vid' with Some v => with_validator info v | None => info end).
Proof.
  unfold advertised_role. assert (length (omap addr_parse (take 8 addrs)) ≤ 8)%nat as Hl.
  { pose proof (length_omap_le addr_parse (take 8 addrs)). rewrite length_take in *. lia. }
  destruct role, vid as [v|]; try done. case_bool_decide; [|done]. split_and!; [done..|]. simpl. eauto.
Qed.

(** ** Delivery *)

Lemma accept_after_budget now p b s sender msg :
  should_accept_consensus_from_peer (check_consensus_ingress_budget now p b s).1 sender msg =
  should_accept_consensus_from_peer s sender msg.
Proof.
  assert (∀ v, has_key (check_consensus_ingress_budget now p b s).1 v = has_key s v) as Hk.
  { intros v. unfold has_key. by rewrite (budget_frame ns_validator_keys (λ _ _, eq_refl)). }
  destruct msg; simpl; by rewrite ?Hk.
Qed.

(** What a step adds to the outputs. *)
Definition emits s s' (x : NetEffect PeerId) : Prop := ∃ out, ns_out s' = out ++ ns_out s ∧ x ∈ out.

Lemma relay_emits p msg s : ∃ out, ns_out (relay_consensus_message iter p msg s) = out ++ ns_out s.
Proof.
  unfold relay_consensus_message. destruct (pc_encode msg); [|by exists []]. destruct (seen _ _); [by exists []|].
  destruct (encode msg); [|by exists []..]. rewrite notify_all_out. unfold rotate_seen. by case_match; eexists.
Qed.

Lemma notification_delivers env p frame s sender msg :
  peer_to_validator (ns_peer_map s) !! p = Some sender →
  (check_consensus_ingress_budget (env_now env) p (len frame) s).2 = true →
  decode frame = Ok msg → should_accept_consensus_from_peer s sender msg = true → env_room env = true →
  emits s (step env (NotifEvent (NotificationReceived p frame)) s) (ToEngine sender msg).
Proof.
  intros Hp Hb Hd Ha Hroom. unfold net_step, handle_notification_event. rewrite Hp.
  pose proof (accept_after_budget (env_now env) p (len frame) s sender msg) as Ha'. rewrite Ha in Ha'.
  pose proof (budget_frame ns_out (λ _ _, eq_refl) (env_now env) p (len frame) s) as Ho.
  destruct (check_consensus_ingress_budget _ _ _ _) as [s1 []]; simpl in *; [|done].
  rewrite Hd, Ha', Hroom. simpl. destruct (_ && _).
  - destruct (relay_emits p msg (net_emit (ToEngine sender msg) s1)) as [out Hout].
    exists (out ++ [ToEngine sender msg]). unfold score. simpl. rewrite Hout. simpl. rewrite Ho, <- (assoc_L (++)).
    split; [done|set_solver].
  - exists [ToEngine sender msg]. simpl. rewrite Ho. set_solver.
Qed.

Lemma request_delivers env p id frame s sender msg :
  peer_to_validator (ns_peer_map s) !! p = Some sender →
  (check_consensus_ingress_budget (env_now env) p (len frame) s).2 = true →
  decode frame = Ok msg → should_accept_consensus_from_peer s sender msg = true → env_room env = true →
  emits s (step env (ReqRespEvent (RequestReceived p id frame)) s) (ToEngine sender msg).
Proof.
  intros Hp Hb Hd Ha Hroom. unfold net_step, handle_reqresp_event. rewrite Hp.
  pose proof (accept_after_budget (env_now env) p (len frame) s sender msg) as Ha'. rewrite Ha in Ha'.
  pose proof (budget_frame ns_out (λ _ _, eq_refl) (env_now env) p (len frame) s) as Ho.
  destruct (check_consensus_ingress_budget _ _ _ _) as [s1 []]; simpl in *; [|done].
  rewrite Hd, Ha', Hroom. simpl. exists [SendResponse PReqResp id []; ToEngine sender msg]. simpl. rewrite Ho.
  set_solver.
Qed.

Lemma broadcast_notifies env frame s p :
  (∀ msg, decode (T := ConsensusMessage) frame = Ok msg → is_Some (pc_encode msg)) →
  p ∈ ns_notif_connected_peers s →
  emits s (step env (Command (CmdBroadcast frame)) s) (Notify PNotif p frame).
Proof.
  intros Henc Hp. simpl.
  assert (∀ s', conn_view s' = conn_view s → ns_out s' = ns_out s →
    emits s (notify_all PNotif (iter (ns_notif_connected_peers s')) frame s') (Notify PNotif p frame)) as Hall.
  { intros s' Hv Ho. unfold conn_view in Hv. injection Hv as _ _ _ Hv _. rewrite notify_all_out. eexists.
    simpl. rewrite Ho. split; [done|]. rewrite elem_of_reverse, Hv. apply list_elem_of_fmap. exists p. split; [done|].
    rewrite iter_perm. by apply elem_of_elements. }
  destruct (decode frame) as [msg| |] eqn:Hd; [|by apply Hall..].
  destruct (Henc msg eq_refl) as [id ->]. apply Hall; [by rewrite rotate_view|]. unfold rotate_seen. by case_match.
Qed.

Lemma emits_inv s s' l x : ns_out s' = l ++ ns_out s → emits s s' x → x ∈ l.
Proof. intros Hl (out & Ho & Hin). rewrite Hl in Ho. by apply app_inv_tail in Ho as ->. Qed.

(** The outcomes of a peer exchange request. *)
Definition pex_rejected env peer s : Prop :=
  (is_validator s peer = false ∧ is_connected s peer = false) ∨
  ∃ last, ns_pex_rate_limit s !! peer = Some last ∧ env_now env - last < 10 * SEC.

Lemma pex_request_cases env peer id request s :
  let s' := handle_pex_request env peer id request s in
  let s0 := set_pex_rate_limit s (<[peer := env_now env]> (ns_pex_rate_limit s)) in
  (pex_rejected env peer s ∧ s' = net_emit (RejectRequest PPex id) s) ∨
  (¬ pex_rejected env peer s ∧
    (s' = net_emit (RejectRequest PPex id) s0 ∨ s' = s0 ∨
     (∃ bs, pc_encode (PexPeers (pex_peers env s peer)) = Some bs ∧ s' = net_emit (SendResponse PPex id bs) s0) ∨
     ∃ info, advertised s peer info ∧
       (s' = set_peer_book s0 (add_peer (ns_peer_book s) info) ∨
        ∃ bs, pc_encode PexAck = Some bs ∧
          s' = net_emit (SendResponse PPex id bs) (set_peer_book s0 (add_peer (ns_peer_book s) info))))).
Proof.
  unfold handle_pex_request. cbv zeta. set (s0 := set_pex_rate_limit s _).
  destruct (negb (is_validator s peer) && negb (is_connected s peer)) eqn:Hk.
  { left. bool_prop. split; [left|]; done. }
  assert (¬ (is_validator s peer = false ∧ is_connected s peer = false)) as Hk'.
  { intros [E1 E2]. by rewrite E1, E2 in Hk. }
  destruct (match ns_pex_rate_limit s !! peer with Some _ => _ | None => _ end) eqn:Hr.
  { left. destruct (ns_pex_rate_limit s !! peer) as [last|] eqn:E; [|done]. bool_prop. split; [right|]; eauto. }
  right. split.
  { intros [?|(last & E & Hlt)]; [done|]. rewrite E in Hr. bool_prop. lia. }
  destruct (pc_decode request) as [[|role vid addrs]|]; [..|by left].
  - right. destruct (pc_encode (PexPeers (pex_peers env s0 peer))) as [bs|] eqn:E; [|by left]. right. left. by exists bs.
  - destruct (bool_decide (role = RoleValidator) && bool_decide (vid = None)); [by left|]. right. right. right.
    pose proof (advertise_entry s peer role vid addrs (env_secs env)) as Ha.
    change (advertised_role s0 peer role vid) with (advertised_role s peer role vid).
    destruct (advertised_role s peer role vid) as [role' vid']. eexists. split; [exact Ha|].
    destruct (pc_encode PexAck) as [bs|]; [right; by exists bs|by left].
Qed.

(** The notifications among the outputs. *)
Definition notified s : list (NetEffect PeerId) :=
  List.filter (λ x, match x with Notify _ _ _ => true | _ => false end) (ns_out s).

Lemma received_again env q frame msg id s :
  pc_encode msg = Some id → decode frame = Ok msg → seen s (blake3 id) = true →
  notified (step env (NotifEvent (NotificationReceived q frame)) s) = notified s.
Proof.
  intros Hid Hd Hs. unfold net_step, handle_notification_event. destruct (_ !! q) as [sender|]; [|done].
  pose proof (budget_frame seen_view (λ _ _, eq_refl) (env_now env) q (len frame) s) as Hv.
  pose proof (budget_frame ns_out (λ _ _, eq_refl) (env_now env) q (len frame) s) as Ho.
  destruct (check_consensus_ingress_budget _ _ _ _) as [s1 []]; cbn [negb fst] in *; [|unfold notified; by rewrite Ho].
  rewrite Hd. assert (notified s1 = notified s) as H1 by (unfold notified; by rewrite Ho).
  destruct (should_accept_consensus_from_peer _ _ _); cbn [negb]; [|done].
  set (s2 := if env_room env then _ else _). assert (notified s2 = notified s ∧ seen_view s2 = seen_view s) as [H2 Hv2]
    by (unfold s2; by destruct (env_room env)). clearbody s2. destruct (_ && _); [|done].
  rewrite (relay_when_seen q msg id s2); [exact H2|done|]. unfold seen, seen_view in *. by injection Hv2 as -> ->.
Qed.

(** ** Properties *)

(** C24: Over every run of events the service keeps its invariant: the map between
    validators and peers is one-to-one in both directions, the tables used to
    check relayed messages are those of the current validator set, the sets of
    seen hashes hold at most 10,001 and 100,001 entries, no peer has more than
    the budget of a window charged to it, only peers with a mempool stream have a
    mempool rate entry, and the peer book files every peer under its own id; a
    validator that connects is always admitted.  Over every run in which the
    validator set does not change, the connection limit is exceeded only when
    every connected peer is a validator, and streams are kept only for connected
    peers and validators. *)
Theorem network_invariant config evs :
  pm_ok (nc_peer_map config) → book_ok (nc_peer_book config) →
  let s := run evs (run_dial (create config)) in
  net_inv s ∧
  (Forall (λ x, ∀ v, x.2 ≠ EpochUpdate (Some v)) evs → admission s) ∧
  (∀ env p, is_validator s p = true →
     p ∈ ns_connected_peers (step env (TransportEvent (ConnectionEstablished p)) s)).
Proof.
  intros Hm Hb s. destruct (run_dial_out (create config)) as [o Hd].
  assert (net_inv (run_dial (create config))) as H0.
  { rewrite Hd. apply inv_out. destruct (create_inv config Hm Hb). by constructor. }
  split_and!; [by apply run_inv| |].
  - assert (admission (run_dial (create config))) as Ha.
    { rewrite Hd. constructor; simpl; [right; set_solver|]. set_solver. }
    unfold s. revert Ha. generalize (run_dial (create config)).
    induction evs as [|[env ev] evs IH]; intros s0 Ha Hne; [done|]. apply Forall_cons in Hne as [Hev Hne].
    apply (IH (step env ev s0)); [|done]. by apply step_admission.
  - intros env p Hv. by apply established_spec.
Qed.

(** An epoch change reroutes the node: when the keys of the new set are ed25519
    keys with distinct peer ids, exactly the validators of the new set are routed,
    each to the peer of its key, also when a validator keeps its id and changes
    its key or two validators exchange keys; messages to a validator go to that
    peer, the peers to reconnect to are these, and relayed messages are checked
    against the new set and epoch. *)
Lemma epoch_change_reroutes env s epoch vs :
  net_inv s → routes_ok s → vs_wf vs → keys_valid vs →
  let s' := step env (EpochUpdate (Some (epoch, vs))) s in
  (∀ vid p, validator_to_peer (ns_peer_map s') !! vid = Some p ↔ routed vs vid p) ∧
  (∀ vid p, peer_to_validator (ns_peer_map s') !! p = Some vid ↔ routed vs vid p) ∧
  ns_persistent_peers s' = validator_to_peer (ns_peer_map s') ∧
  (∀ vid p bs env', routed vs vid p →
     emits s' (step env' (Command (CmdSendTo vid bs)) s') (SendRequest PReqResp p bs)) ∧
  ns_current_epoch s' = epoch ∧ ns_current_validator_set s' = vs ∧ net_inv s' ∧ routes_ok s'.
Proof.
  clear iter_perm. intros Hi Hr Hwf Hk s'. set (s0 := set_current_epoch s epoch).
  assert (net_inv s0 ∧ routes_ok s0) as [Hi0 Hr0] by (split; [by apply inv_epoch_number|done]).
  assert (∀ vid p, validator_to_peer (ns_peer_map s') !! vid = Some p ↔ routed vs vid p) as Hv2p.
  { intros. apply (epoch_change_routes s0); [apply Hi0|done..]. }
  assert (net_inv s') as Hi' by (by apply inv_epoch_change).
  split_and!; [done| |done| |done|done|done|].
  - intros vid p. rewrite <- (ni_map _ Hi' vid p). apply Hv2p.
  - intros vid p bs env' Hrt%Hv2p. exists [SendRequest PReqResp p bs]. unfold net_step, handle_command. rewrite Hrt.
    set_solver.
  - intros vid pk p Hkey Hl. apply Hv2p in Hl as (v & Hv & <- & Hp). rewrite (ni_keys _ Hi') in Hkey.
    change (ns_current_validator_set s') with vs in Hkey. apply (keys_of_Some vs Hwf) in Hkey as (v' & Hg & <-).
    apply (get_spec vs Hwf) in Hg as [Hv' Hid]. assert (v' = v) as ->; [|done].
    assert (get vs (vi_id v) = Some v ∧ get vs (vi_id v) = Some v') as [? ?] by (by rewrite !(get_spec vs Hwf)).
    congruence.
Qed.

(** C25: A consensus message is forwarded to every other peer with an open stream
    the first time, and not again: once it was forwarded, or broadcast by the node
    itself, receiving it again within the next 10,000 events notifies nobody,
    whichever peer it comes from and however the sets of seen hashes rotate. *)
Theorem relayed_once p msg id raw s evs :
  pc_encode msg = Some id → encode msg = Ok raw → N.of_nat (length evs) ≤ RELAY_SEEN →
  (seen s (blake3 id) = false →
     ∃ out, ns_out (relay_consensus_message iter p msg s) = out ++ ns_out s ∧
       out ≡ₚ (λ q, Notify PNotif q raw) <$> elements (ns_notif_connected_peers s ∖ {[p]})) ∧
  (∀ s1, (seen s (blake3 id) = false ∧ s1 = relay_consensus_message iter p msg s) ∨
         (∃ env frame, decode frame = Ok msg ∧ s1 = step env (Command (CmdBroadcast frame)) s) →
     ∀ q env frame, decode frame = Ok msg →
       notified (step env (NotifEvent (NotificationReceived q frame)) (run evs s1)) = notified (run evs s1)).
Proof.
  intros Hid Hraw Hevs. split; [by intros Hs; apply (relay_when_new p msg id raw s)|].
  intros s1 Hs1 q env' frame' Hd'. apply (received_again env' q frame' msg id); [done..|]. apply (fresh_seen _ 0). apply run_fresh; [lia|].
  assert (fresh (blake3 id) RELAY_SEEN s1) as Hf.
  { destruct Hs1 as [[Hs ->]|(env & frame & Hd & ->)]; [by apply (relay_when_new p msg id raw s)|].
    simpl. rewrite Hd, Hid. eapply fresh_view; [|apply (remember_fresh (blake3 id) s)]. by rewrite notify_frame. }
  destruct Hf as [?|[? ?]]; [by left|right; split; [done|lia]].
Qed.

(** The messages of one peer that pass the ingress limit, over the consensus
    notifications, the consensus requests and the sync requests together, never
    exceed twice the per-second budget in any second, whatever other peers send,
    as long as connections are not closed. *)
Lemma ingress_bounded p t evs s t0 :
  net_inv s → timed t0 evs → Forall (λ x, transport x.2 = false) evs →
  bytes_in p t (ingress_log evs s) ≤ 2 * MAX_CONSENSUS_INGRESS_BYTES_PER_SEC.
Proof. clear iter_perm. intros Hi Htm Htr. by apply (ingress_any p t t0). Qed.

(** C26: The relay forwards exactly the messages, other than status certificates,
    whose author's signature is valid under the current validator set and epoch;
    and when the engine runs in the same epoch, no epoch change being in flight,
    every message that the engine accepts is forwarded, if a prepare comes from
    the leader of its view, evidence from a validator, and a timeout certificate
    carries more than two thirds of the validators by number. *)
Theorem relay_agrees_with_engine {St App Ev} `{!BlockStore St, !Application App, !EvidenceStore Ev}
    s (e : Engine St App Ev) sender msg :
  net_inv s → vs_wf (ns_current_validator_set s) →
  cs_validator_set (en_state e) = ns_current_validator_set s →
  cs_chain_id_hash (en_state e) = ns_chain_id_hash s →
  e_number (cs_current_epoch (en_state e)) = ns_current_epoch s → en_previous_epoch e = None →
  (should_relay_consensus_message s sender msg = true ↔
     (∀ q v sig, msg ≠ StatusCert q v sig) ∧
     author_signed (ns_current_validator_set s) (ns_chain_id_hash s) (ns_current_epoch s) sender msg) ∧
  (verify_message_body e msg = true → relayable (ns_current_validator_set s) sender msg →
   (∀ q v sig, msg ≠ StatusCert q v sig) → should_relay_consensus_message s sender msg = true).
Proof.
  clear iter_perm. intros Hi Hwf Hvs Hch Hep Hprev. pose proof (should_relay_iff s sender msg Hi Hwf) as Hiff.
  split; [done|]. intros Hv Hr Hns. apply Hiff. split; [done|].
  rewrite <- Hvs, <- Hch, <- Hep in *. by apply accepted_author_signed.
Qed.

(** A broadcast reaches the engine of the receiver unchanged: the frame that the
    sink hands to the service is sent to every peer with an open stream, and a
    node that receives it from the sender's peer, which it maps to a validator,
    within the ingress limit and with room in its queue, passes the same message
    to its engine; the same holds for a message sent to one validator.  The
    message's encoding is at most 16 MiB. *)
Lemma broadcast_is_delivered msg raw cmd sA envA p sB envB q sender :
  pc_encode msg = Some raw → N.of_nat (length raw) ≤ MAX_DECOMPRESSED_SIZE →
  sink_broadcast msg = Some cmd → p ∈ ns_notif_connected_peers sA →
  peer_to_validator (ns_peer_map sB) !! q = Some sender →
  should_accept_consensus_from_peer sB sender msg = true → env_room envB = true →
  ∃ frame, cmd = CmdBroadcast frame ∧ decode frame = Ok msg ∧
    emits sA (step envA (Command cmd) sA) (Notify PNotif p frame) ∧
    (∀ target, sink_send_to (PeerId := PeerId) target msg = Some (CmdSendTo target frame)) ∧
    ((check_consensus_ingress_budget (env_now envB) q (len frame) sB).2 = true →
     emits sB (step envB (NotifEvent (NotificationReceived q frame)) sB) (ToEngine sender msg) ∧
     ∀ id, emits sB (step envB (ReqRespEvent (RequestReceived q id frame)) sB) (ToEngine sender msg)).
Proof.
  intros Hraw Hsize Hcmd Hp Hq Ha Hroom. unfold sink_broadcast, sink_command in Hcmd.
  destruct (encode msg) as [frame| |] eqn:Hf; [|done..]. injection Hcmd as <-.
  assert (decode frame = Ok msg) as Hd.
  { rewrite (decode_encode msg raw frame Hraw Hf). by destruct (N.leb_spec (N.of_nat (length raw)) MAX_DECOMPRESSED_SIZE); [|lia]. }
  exists frame. split_and!; [done|done| | |].
  - apply broadcast_notifies; [|done]. intros msg' Hd'. rewrite Hd in Hd'. injection Hd' as <-. by eauto.
  - intros target. unfold sink_send_to, sink_command. by rewrite Hf.
  - intros Hb. split; [by apply notification_delivers|]. intros id. by apply request_delivers.
Qed.

(** A peer exchange request is answered only for known peers and at most once
    in ten seconds.  The answer lists at most the configured number of peers of the
    book, none of them banned, private or the asker itself; an advertisement
    changes only the entry of its sender, which is recorded as a validator only
    when that validator is routed to it, with at most eight addresses. *)
Lemma pex_request_correct env peer id request s :
  (∀ l, env_shuffle env l ≡ₚ l) →
  let s' := step env (PexEvent (RequestReceived peer id request)) s in
  (pex_rejected env peer s → ns_out s' = RejectRequest PPex id :: ns_out s ∧ ns_peer_book s' = ns_peer_book s) ∧
  (¬ pex_rejected env peer s → ns_pex_rate_limit s' !! peer = Some (env_now env)) ∧
  (ns_peer_book s' = ns_peer_book s ∨
     ∃ info, advertised s peer info ∧ ns_peer_book s' = <[peer_to_string peer := info]> (ns_peer_book s)) ∧
  (∀ bs, emits s s' (SendResponse PPex id bs) → pc_encode PexAck = Some bs ∨
     ∃ l, pc_encode (PexPeers l) = Some bs ∧
       N.of_nat (length l) ≤ px_max_peers_per_response (ns_pex_config s) ∧
       ∀ p, p ∈ l → (∃ k, ns_peer_book s !! k = Some p) ∧ is_banned p = false ∧
         pi_peer_id p ≠ peer_to_string peer ∧ pi_peer_id p ∉ px_private_peer_ids (ns_pex_config s)).
Proof.
  clear iter_perm. intros Hsh s'. destruct (pex_request_cases env peer id request s) as [[Hrej Hs]|[Hnot Hs]].
  - change (handle_pex_request env peer id request s) with s' in Hs. rewrite Hs.
    split_and!; [done|intros Hn; by destruct (Hn Hrej)|by left|]. intros bs Hin%(emits_inv _ _ [RejectRequest PPex id]); [set_solver|done].
  - change (handle_pex_request env peer id request s) with s' in Hs.
    destruct Hs as [->|[->|[(bs & Hbs & ->)|(info & Hinfo & Hs)]]].
    + split_and!; [intros Hr; by destruct (Hnot Hr)| |by left|]; [intros _; apply lookup_insert_eq|].
      intros bs Hin%(emits_inv _ _ [RejectRequest PPex id]); [set_solver|done].
    + split_and!; [intros Hr; by destruct (Hnot Hr)| |by left|]; [intros _; apply lookup_insert_eq|].
      intros bs Hin%(emits_inv _ _ []); [set_solver|done].
    + split_and!; [intros Hr; by destruct (Hnot Hr)| |by left|]; [intros _; apply lookup_insert_eq|].
      intros bs' Hin%(emits_inv _ _ [SendResponse PPex id bs]); [|done].
      apply list_elem_of_singleton in Hin as [= ->]. right. eexists. split; [done|].
      split; [apply pex_peers_length|]. intros p Hp. by apply (pex_peers_elem env).
    + assert (ns_pex_rate_limit s' !! peer = Some (env_now env) ∧
        ns_peer_book s' = <[peer_to_string peer := info]> (ns_peer_book s)) as [Hl Hb].
      { destruct Hinfo as [Hid _]. unfold add_peer in Hs. rewrite Hid in Hs.
        destruct Hs as [->|(bs & _ & ->)]; (split; [apply lookup_insert_eq|done]). }
      split_and!; [intros Hr; by destruct (Hnot Hr)|done|right; by exists info|].
      destruct Hs as [->|(bs & Hbs & ->)]; intros bs' Hin.
      * apply (emits_inv _ _ []) in Hin; [set_solver|done].
      * apply (emits_inv _ _ [SendResponse PPex id bs]) in Hin; [|done].
        apply list_elem_of_singleton in Hin as [= ->]. by left.
Qed.
End NetworkProofs.

(** ** A concrete network

    Peer ids are numbers, frames carry wishes without a certificate. *)

#[local] Existing Instance sample_blake3.
#[local] Existing Instance sample_verifier.

#[local] Instance sample_litep2p : Litep2p N := {|
  peer_to_string p := String (Ascii.ascii_of_N p) EmptyString;
  peer_parse str := match str with String a EmptyString => Some (Ascii.N_of_ascii a) | _ => None end;
  peer_of_key pk := Some (le_u64 pk);
  addr_parse := Some;
  addr_push_p2p a p := String.append a (String (Ascii.ascii_of_N p) EmptyString);
|}.

#[local] Instance sample_zstd : Zstd.
Proof.
  refine {| zstd_encode_all := Some;
            zstd_read_take n c := Some (if N.of_nat (length c) <=? n then c else take (N.to_nat n) c) |}.
  - intros raw c n [= ->] Hn. by destruct (N.leb_spec (N.of_nat (length c)) n); [|lia].
  - intros raw c n [= ->] Hn. destruct (N.leb_spec (N.of_nat (length c)) n); [lia|].
    eexists. split; [done|]. rewrite length_take. lia.
Defined.

#[local] Instance sample_msg_codec : Postcard ConsensusMessage.
Proof.
  refine {| pc_encode m := match m with
                           | Wish t v None [] =>
                               if (t <=? u64_max) && (v <=? u64_max) then Some (u64_le t ++ u64_le v) else None
                           | _ => None
                           end;
            pc_decode bs := if (length bs =? 16)%nat
                            then Some (Wish (le_u64 (take 8 bs)) (le_u64 (drop 8 bs)) None []) else None |}.
  intros m raw. destruct m as [| | | |t v [q|] [|]| | |]; try done.
  destruct (_ && _) eqn:E; [|done]. bool_prop. intros Hr. apply (inj Some) in Hr as <-.
  rewrite length_app, !length_u64_le. change (8 + 8 =? 16)%nat with true. cbv iota. f_equal. f_equal.
  - rewrite take_app_length' by (by rewrite length_u64_le). by apply le_u64_u64_le.
  - rewrite drop_app_length' by (by rewrite length_u64_le). by apply le_u64_u64_le.
Defined.

#[local] Instance sample_sync_request_codec : Postcard SyncRequest.
Proof. by refine {| pc_encode _ := None; pc_decode _ := None |}. Defined.
#[local] Instance sample_sync_response_codec : Postcard SyncResponse.
Proof. by refine {| pc_encode _ := None; pc_decode _ := None |}. Defined.

#[local] Instance sample_pex_request_codec : Postcard PexRequest.
Proof.
  refine {| pc_encode r := match r with
                           | GetPeers => Some []
                           | Advertise RoleFullnode None [] => Some [x01]
                           | _ => None
                           end;
            pc_decode bs := match bs with [] => Some GetPeers | _ => Some (Advertise RoleFullnode None []) end |}.
  intros [|[] [|] [|]] raw; naive_solver.
Defined.
#[local] Instance sample_pex_response_codec : Postcard PexResponse.
Proof.
  refine {| pc_encode r := match r with PexAck => Some [] | _ => None end; pc_decode _ := Some PexAck |}.
  by intros [] raw.
Defined.

Notation sample_iter := (elements (C := gset N)).
Definition sample_env (now : N) : Env := mkEnv now now true (λ l, l) (λ _, 0%nat).

Definition sample_routes : PeerMap N :=
  foldl (λ m v, pm_insert m (vi_id v) (le_u64 (vi_public_key v))) pm_new sample_infos.

Lemma sample_routes_ok : pm_ok sample_routes.
Proof. unfold sample_routes, sample_infos. simpl. repeat apply pm_insert_ok. apply pm_new_ok. Qed.

Definition sample_config : NetworkConfig :=
  mkNetworkConfig sample_routes [] ∅ PexConfig_default true sample_set (zeros 32).

Notation sample_run := (net_run (PeerId := N) sample_iter).
Definition sample_net : NetworkService (PeerId := N) := run_dial (create sample_config).
Definition sample_frame : bytes := TAG_RAW :: u64_le 7 ++ u64_le 5.
Definition sample_wish_msg : ConsensusMessage := Wish 7 5 None [].

(** Peer 2 of validator 5 connects, opens a stream and sends a wish; peer 1 of
    validator 3 opens one too. *)
Definition sample_events : list (Env * NetEvent (PeerId := N)) :=
  [(sample_env 1, TransportEvent (ConnectionEstablished 2));
   (sample_env 2, NotifEvent (NotificationStreamOpened 2));
   (sample_env 3, NotifEvent (NotificationStreamOpened 1));
   (sample_env 4, NotifEvent (NotificationReceived 2 sample_frame))].

Lemma sample_net_inv : net_inv sample_net.
Proof.
  unfold sample_net. destruct (run_dial_out (create sample_config)) as [o ->]. apply inv_out.
  destruct (create_inv sample_config sample_routes_ok); [done|]. by constructor.
Qed.

Definition delivered (s : NetworkService (PeerId := N)) : list (ValidatorId * ConsensusMessage) :=
  omap (λ x, match x with ToEngine v m => Some (v, m) | _ => None end) (ns_out s).

Notation iter_elements := (λ X : gset N, reflexivity (elements X)).

Lemma network_invariant_witness :
  pm_ok sample_routes ∧
  let s := sample_run sample_events sample_net in
  admission s ∧ ns_connected_peers s = {[2]} ∧ delivered s = [(5, sample_wish_msg)].
Proof.
  split; [apply sample_routes_ok|].
  destruct (network_invariant sample_iter iter_elements sample_config sample_events
    sample_routes_ok ltac:(done)) as (_ & Ha & _).
  split_and!; [apply Ha; repeat constructor; discriminate|vm_compute; reflexivity|vm_compute; reflexivity].
Defined.

Lemma sample_keys_valid : keys_valid (PeerId := N) sample_set.
Proof.
  split; [by eexists|]. intros v w Hv Hw [= E].
  pose proof (iw_key_len _ (vw_infos _ sample_set_wf)) as Hl. rewrite Forall_forall in Hl.
  assert (le_combine (vi_public_key v) = le_combine (vi_public_key w)) as E'.
  { unfold le_u64 in E. pose proof (le_combine_bound (vi_public_key v)). pose proof (le_combine_bound (vi_public_key w)). lia. }
  rewrite <- (split_le_combine (vi_public_key v)), <- (split_le_combine (vi_public_key w)).
  rewrite E'. f_equal. by rewrite (Hl v Hv), (Hl w Hw).
Qed.

(** From a service without routes to the routes of the sample set. *)
Lemma epoch_change_reroutes_witness :
  let s := create (mkNetworkConfig pm_new [] ∅ PexConfig_default true sample_set (zeros 32)) in
  net_inv s ∧ routes_ok s ∧
  let s' := net_step sample_iter (sample_env 1) (EpochUpdate (Some (1, sample_set))) s in
  ns_current_epoch s' = 1 ∧ validator_to_peer (ns_peer_map s') !! 9 = Some 256 ∧ routed sample_set 9 256.
Proof.
  assert (net_inv (create (mkNetworkConfig (PeerId := N) pm_new [] ∅ PexConfig_default true sample_set (zeros 32)))) as Hi
    by (by apply create_inv; [apply pm_new_ok|]).
  assert (routes_ok (create (mkNetworkConfig (PeerId := N) pm_new [] ∅ PexConfig_default true sample_set (zeros 32)))) as Hr
    by (intros vid pk p _ Hp; simpl in Hp; by rewrite lookup_empty in Hp).
  destruct (epoch_change_reroutes sample_iter (sample_env 1) _ 1 sample_set Hi Hr sample_set_wf sample_keys_valid)
    as (Hv & _ & _ & _ & He & _).
  cbv zeta. split_and!; [done|done|done|vm_compute; reflexivity|]. apply Hv. vm_compute. reflexivity.
Defined.

Lemma relayed_once_witness :
  pc_encode sample_wish_msg = Some (u64_le 7 ++ u64_le 5) ∧
  let s := relay_consensus_message sample_iter 2 sample_wish_msg (sample_run (take 3 sample_events) sample_net) in
  notified s = [Notify PNotif 1 sample_frame] ∧
  notified (net_step sample_iter (sample_env 9) (NotifEvent (NotificationReceived 1 sample_frame)) (sample_run [] s)) =
    notified (sample_run [] s).
Proof.
  assert (pc_encode sample_wish_msg = Some (u64_le 7 ++ u64_le 5)) as Hid by (vm_compute; reflexivity).
  split; [done|]. cbv zeta. split; [vm_compute; reflexivity|].
  assert (encode sample_wish_msg = Ok sample_frame) as Hraw by (vm_compute; reflexivity).
  assert (seen (sample_run (take 3 sample_events) sample_net) (blake3 (u64_le 7 ++ u64_le 5)) = false) as Hnew
    by (vm_compute; reflexivity).
  assert (decode sample_frame = Ok sample_wish_msg) as Hd by (vm_compute; reflexivity).
  destruct (relayed_once sample_iter iter_elements 2 sample_wish_msg (u64_le 7 ++ u64_le 5) sample_frame
    (sample_run (take 3 sample_events) sample_net) [] Hid Hraw ltac:(done)) as [_ Hr].
  exact (Hr _ (or_introl (conj Hnew eq_refl)) 1 (sample_env 9) sample_frame Hd).
Defined.

Lemma ingress_bounded_witness :
  bytes_in 2 0 (ingress_log sample_iter (drop 1 sample_events) sample_net) = 17 ∧
  bytes_in 2 0 (ingress_log sample_iter (drop 1 sample_events) sample_net) ≤
    2 * MAX_CONSENSUS_INGRESS_BYTES_PER_SEC.
Proof.
  split; [vm_compute; reflexivity|]. apply (ingress_bounded sample_iter 2 0 _ _ 0).
  - apply sample_net_inv.
  - simpl. lia.
  - repeat constructor.
Defined.

Lemma relay_agrees_with_engine_witness :
  verify_message_body sample_e0 sample_propose = true ∧
  should_relay_consensus_message sample_net 3 sample_propose = true.
Proof.
  assert (verify_message_body sample_e0 sample_propose = true) as Hv by (vm_compute; reflexivity).
  split; [done|].
  apply (relay_agrees_with_engine sample_net sample_e0 3 sample_propose).
  - apply sample_net_inv.
  - apply sample_set_wf.
  - vm_compute. reflexivity.
  - vm_compute. reflexivity.
  - vm_compute. reflexivity.
  - vm_compute. reflexivity.
  - done.
  - exact I.
  - discriminate.
Defined.

(** The receiver maps peer 2 to validator 5. *)
Lemma broadcast_is_delivered_witness :
  ∃ frame, decode frame = Ok sample_wish_msg ∧
    emits sample_net (net_step sample_iter (sample_env 9) (NotifEvent (NotificationReceived 2 frame)) sample_net)
      (ToEngine 5 sample_wish_msg).
Proof.
  destruct (broadcast_is_delivered sample_iter iter_elements sample_wish_msg (u64_le 7 ++ u64_le 5)
    (CmdBroadcast sample_frame) (sample_run (take 3 sample_events) sample_net) (sample_env 8) 1
    sample_net (sample_env 9) 2 5) as (frame & Hc & Hd & _ & _ & Hin).
  - vm_compute. reflexivity.
  - vm_compute. discriminate.
  - vm_compute. reflexivity.
  - apply (bool_decide_unpack _). vm_compute. exact I.
  - vm_compute. reflexivity.
  - vm_compute. reflexivity.
  - reflexivity.
  - injection Hc as <-. exists sample_frame. split; [done|].
    assert ((check_consensus_ingress_budget (env_now (sample_env 9)) 2 (len sample_frame) sample_net).2 = true) as Hb
      by (vm_compute; reflexivity).
    exact (proj1 (Hin Hb)).
Defined.

(** ** Bans do not survive the peer exchange *)

Definition banned_info : PeerInfo := mkPeerInfo (peer_to_string 2) RoleFullnode None [] 0 (-100).
Definition banned_net : NetworkService (PeerId := N) :=
  set_peer_book sample_net {[peer_to_string 2 := banned_info]}.

Lemma pex_request_correct_witness :
  pex_rejected (sample_env 1) 99 banned_net ∧
  ns_out (net_step sample_iter (sample_env 1) (PexEvent (RequestReceived 99 4 [])) banned_net) =
    RejectRequest PPex 4 :: ns_out banned_net.
Proof.
  assert (pex_rejected (sample_env 1) 99 banned_net) as Hr by (left; split; vm_compute; reflexivity).
  split; [done|]. by apply (pex_request_correct sample_iter (sample_env 1) 99 4 [] banned_net (λ l, reflexivity l)).
Defined.

(** A banned peer that advertises itself starts over with a score of zero. *)
Lemma advertise_clears_ban :
  is_banned <$> ns_peer_book banned_net !! peer_to_string 2 = Some true ∧
  is_banned <$> ns_peer_book (net_step sample_iter (sample_env 1)
    (PexEvent (RequestReceived 2 4 [x01])) banned_net) !! peer_to_string 2 = Some false.
Proof. split; vm_compute; reflexivity. Qed.

(** A peer list replaces entries of the book, also by forged validators: a codec
    that carries one such list. *)
Lemma pex_response_overwrites `{!Postcard PexResponse} (response : bytes) info s :
  pc_decode response = Some (PexPeers [info]) → is_banned info = false →
  ns_peer_book (net_step sample_iter (sample_env 1) (PexEvent (ResponseReceived response)) s) !! pi_peer_id info =
    Some info.
Proof. intros Hd Hb. simpl. rewrite Hd. simpl. rewrite Hb. apply lookup_insert_eq. Qed.
