(* ===== verification/Startup.v ===== *)
(** * Starting a node ([run_node] of [hotmint/src/bin/node.rs], steps 14 and 15)

    Before the engine runs, the node synchronises with its peers in turn; after a
    failure it asks the log of commits whether the application was left in the
    middle of a block.  Then it takes over the synchronised state, writes it back
    and continues from the view after that of the last committed block. *)

From S2P Require Import Prelude Types ValidatorSet Encoding Wal Aggregate State BlockStore World Persist Commit Sync SyncSafety Samples.

(** ** Synchronisation with the peers in turn *)

(** The operations on the log in a trace, the oldest first. *)
Definition as_wal_op (x : Effect) : option wal_op :=
  match x with
  | EWalIntent h => Some (OpIntent h)
  | EWalDone h => Some (OpDone h)
  | _ => None
  end.
Definition wal_ops (tr : list Effect) : list wal_op := reverse (omap as_wal_op tr).

Inductive startup_error : Type :=
| StartupWal (e : wal_error)
| StartupPartial (target : Height) (e : sync_error).

Section Startup.
Context {St App : Type} `{!BlockStore St, !Application App, !WalCodec}.
Context {B3 : Blake3} {Vf : Verifier}.
Context (wal_ok : nat → bool).
Notation Sy := (SyncState St App).

(** A peer: what it answers, and whether the channel takes a request. *)
Definition SyncPeer : Type := (list SyncRequest → nat → recv_result) * (nat → bool).

(** The loop over the peers; [f] is the log file, to which the operations of an
    attempt are applied before it is reconciled. *)
Fixpoint startup_sync (peers : list SyncPeer) (f : File) (s : Sy) : File * Sy * res startup_error unit :=
  match peers with
  | [] => (f, s, Ok ())
  | (peer, send_ok) :: peers =>
      let '(io, r) := sync_to_tip true true wal_ok peer send_ok (mkSyncIO s [] 0 0) in
      let s' := io_sync io in
      let news := take (length (w_trace (sy_world s')) - length (w_trace (sy_world s))) (w_trace (sy_world s')) in
      let f := exec_ops f (wal_ops news) in
      match r with
      | Ok _ => (f, s', Ok ())
      | Panic => (f, s', Panic)
      | Err e =>
          match reconcile_with_committed_height f (sy_height s') with
          | Err e => (f, s', Err (StartupWal e))
          | Panic => (f, s', Panic)
          | Ok (NeedsReplay target, f) => (f, s', Err (StartupPartial target e))
          | Ok (Clean, f) => startup_sync peers f s'
          end
      end
  end.

(** ** Taking over the synchronised state *)

(** The view after that of the last committed block. *)
Definition synced_view (store : St) (height : Height) : ViewNumber :=
  match get_block_by_height store height with
  | Some b => b_view b +w 1
  | None => height +w 1
  end.

Definition resume (store : St) (state : ConsensusState) (height : Height) (epoch : Epoch)
    (app_hash : BlockHash) : ConsensusState :=
  let state := set_last_committed_height state height in
  let state := set_current_epoch state epoch in
  let state := set_validator_set state (e_validator_set epoch) in
  let state := set_last_app_hash state app_hash in
  if (0 <? height) && (cs_current_view state <? synced_view store height)
  then set_current_view state (synced_view store height) else state.

(** The records written back, the last call first. *)
Definition write_back (state : ConsensusState) (pending previous : option Epoch) : list Effect :=
  [EPersistFlush; ESavePreviousEpoch previous; ESavePendingEpoch pending;
   ESaveLastAppHash (cs_last_app_hash state); ESaveCurrentEpoch (cs_current_epoch state);
   ESaveLastCommittedHeight (cs_last_committed_height state); ESaveCurrentView (cs_current_view state)].
End Startup.

(** ** Marks in a trace *)

(** The heights of the blocks the application was asked to execute, the last
    one first. *)
Definition executed (tr : list Effect) : list Height :=
  omap (λ x, match x with EAppExecute b => Some (b_height b) | _ => None end) tr.

(** The heights above [h0], up to [h0 + n], the highest first. *)
Fixpoint upto (h0 : Height) (n : nat) : list Height :=
  match n with O => [] | S n => h0 + N.of_nat (S n) :: upto h0 n end.

Lemma upto_step h0 h : h0 ≤ h → upto h0 (N.to_nat (h + 1 - h0)) = h + 1 :: upto h0 (N.to_nat (h - h0)).
Proof.
  intros Hh. replace (N.to_nat (h + 1 - h0)) with (S (N.to_nat (h - h0))) by lia. simpl. f_equal. lia.
Qed.

Lemma evidence_unmarked b tr :
  executed (reverse (EAppEvidence <$> b_evidence b) ++ tr) = executed tr ∧
  wal_ops (reverse (EAppEvidence <$> b_evidence b) ++ tr) = wal_ops tr.
Proof.
  unfold executed, wal_ops. rewrite !omap_app.
  assert (∀ {A} (f : Effect → option A), (∀ p, f (EAppEvidence p) = None) →
    omap f (reverse (EAppEvidence <$> b_evidence b)) = []) as Hn.
  { intros A f Hf. apply elem_of_nil_inv. intros c Hc. apply list_elem_of_omap in Hc as (x & Hx & E).
    rewrite elem_of_reverse in Hx. apply list_elem_of_fmap in Hx as (p & -> & _). congruence. }
  by rewrite !Hn.
Qed.

Lemma block_effects_marks b tr :
  executed (block_effects b ++ tr) = b_height b :: executed tr ∧ wal_ops (block_effects b ++ tr) = wal_ops tr.
Proof.
  unfold block_effects. destruct (evidence_unmarked b tr) as [E1 E2].
  split; [simpl; f_equal; apply E1|apply E2].
Qed.

Lemma wal_ops_app t1 t2 : wal_ops (t1 ++ t2) = wal_ops t2 ++ wal_ops t1.
Proof. unfold wal_ops. by rewrite omap_app, reverse_app. Qed.

Lemma covered_mono h h' r : h ≤ h' → covered (Some h) r = Clean → covered (Some h') r = Clean.
Proof. intros Hh. destruct r as [|t]; simpl; [done|]. repeat case_match; rewrite ?N.leb_le, ?N.leb_gt in *; done || lia. Qed.

(** ** One attempt *)

Section Attempt.
Context {St App : Type} `{!BlockStore St, !BlockStoreLaws St, !Application App}.
Context {B3 : Blake3} {Vf : Verifier}.
Context (wal_ok : nat → bool) (h0 h1 : Height) (tr0 : list Effect) (Hle : h0 ≤ h1).
Notation Sy := (SyncState St App).
Implicit Types s : Sy.

(** What holds throughout an attempt that starts at the height [h1] with the
    trace [tr0]; the node was started at the height [h0]. *)
Record extends s : Prop := {
  ex_suffix : tr0 `suffix_of` trace_of s;
  ex_above : h1 ≤ sy_height s;
  ex_ops : Forall op_ok (wal_ops (trace_of s));
}.

(** Between two blocks: the blocks above [h0] up to the committed height have
    been executed, once each and in order, and the log asks for nothing. *)
Definition settled s : Prop := extends s ∧
  executed (trace_of s) = upto h0 (N.to_nat (sy_height s - h0)) ∧
  covered (Some (sy_height s)) (unfinished (wal_ops (trace_of s))) = Clean.

(** Within the next block: the log asks for it. *)
Definition within s : Prop := extends s ∧
  (executed (trace_of s) = upto h0 (N.to_nat (sy_height s - h0)) ∨
   executed (trace_of s) = sy_height s + 1 :: upto h0 (N.to_nat (sy_height s - h0))) ∧
  unfinished (wal_ops (trace_of s)) = NeedsReplay (sy_height s + 1).

(** Two states that differ only in what the marks do not show. *)
Definition same_marks s s' : Prop :=
  sy_height s' = sy_height s ∧ executed (trace_of s') = executed (trace_of s) ∧
  wal_ops (trace_of s') = wal_ops (trace_of s) ∧ trace_of s `suffix_of` trace_of s'.

Lemma extends_same s s' : same_marks s s' → extends s → extends s'.
Proof.
  intros (Hh & He & Hw & Hs) [H1 H2 H3]. split; [by etrans|by rewrite Hh|by rewrite Hw].
Qed.
Lemma settled_same s s' : same_marks s s' → settled s → settled s'.
Proof.
  intros Hm (Hx & H1 & H2). split; [by eapply extends_same|]. destruct Hm as (-> & -> & -> & _). done.
Qed.
Lemma within_same s s' : same_marks s s' → within s → within s'.
Proof.
  intros Hm (Hx & H1 & H2). split; [by eapply extends_same|]. destruct Hm as (-> & -> & -> & _). done.
Qed.

(** The intent of the next block is logged. *)
Lemma settled_intent s s' h :
  settled s → h = sy_height s + 1 → u64_ok h → sy_height s' = sy_height s →
  trace_of s' = EWalIntent h :: trace_of s → within s'.
Proof.
  intros ([H1 H2 H3] & He & _) -> Hok Hh Ht.
  assert (wal_ops (trace_of s') = wal_ops (trace_of s) ++ [OpIntent (sy_height s + 1)]) as Hw.
  { rewrite Ht. apply (wal_ops_app [EWalIntent (sy_height s + 1)]). }
  split_and!; [split| |].
  - rewrite Ht. by apply suffix_cons_r.
  - by rewrite Hh.
  - rewrite Hw. apply Forall_app. by rewrite Forall_singleton.
  - left. by rewrite Hh, Ht, <- He.
  - rewrite Hw, Hh. unfold unfinished. by rewrite last_snoc.
Qed.

(** The next block was executed. *)
Lemma within_executed s s' b tr :
  within s → executed (trace_of s) = upto h0 (N.to_nat (sy_height s - h0)) → b_height b = sy_height s + 1 →
  trace_of s' = tr ++ block_effects b ++ trace_of s → executed tr = [] → wal_ops tr = [] →
  (sy_height s' = sy_height s → within s') ∧ (sy_height s' = b_height b → settled s').
Proof.
  intros ([H1 H2 H3] & _ & Hun) He Hb Ht Htr Hw.
  destruct (block_effects_marks b (trace_of s)) as [E1 E2].
  assert (executed (trace_of s') = sy_height s + 1 :: upto h0 (N.to_nat (sy_height s - h0))) as Ex.
  { rewrite Ht. unfold executed at 1. rewrite omap_app. fold (executed tr) (executed (block_effects b ++ trace_of s)).
    by rewrite Htr, E1, Hb, He. }
  assert (wal_ops (trace_of s') = wal_ops (trace_of s)) as Ew by by rewrite Ht, wal_ops_app, Hw, app_nil_r.
  assert (tr0 `suffix_of` trace_of s') as Hsuf.
  { rewrite Ht, app_assoc. by apply suffix_app_r. }
  split; intros Hh; (split; [split; [done|rewrite Hh; lia|by rewrite Ew]|]); rewrite Ew, Ex, Hh.
  - split; [by right|done].
  - rewrite Hb, upto_step by lia. split; [done|]. rewrite Hun. simpl. by rewrite N.leb_refl.
Qed.

(** The end of the block is logged. *)
Lemma settled_done s s' h :
  settled s → u64_ok h → sy_height s' = sy_height s → trace_of s' = EWalDone h :: trace_of s → settled s'.
Proof.
  intros ([H1 H2 H3] & He & _) Hok Hh Ht.
  assert (wal_ops (trace_of s') = wal_ops (trace_of s) ++ [OpDone h]) as Hw.
  { rewrite Ht. apply (wal_ops_app [EWalDone h]). }
  split; [split|split].
  - rewrite Ht. by apply suffix_cons_r.
  - by rewrite Hh.
  - rewrite Hw. apply Forall_app. by rewrite Forall_singleton.
  - by rewrite Hh, Ht, <- He.
  - rewrite Hw. unfold unfinished. by rewrite last_snoc.
Qed.

Ltac sy_steps :=
  repeat (first [wp_step | lazymatch goal with |- wp (in_world _) _ _ => apply wp_in_world end];
          cbv beta iota zeta).

(** How a computation may end. *)
Definition ends_well {A} s (r : res sync_error A) : Prop :=
  match r with
  | Ok _ => settled s
  | Err _ => settled s ∨ within s
  | Panic => True
  end.

Lemma ends_well_impl {A B} s (r : res sync_error A) (r' : res sync_error B) :
  (∀ a, r = Ok a → ∃ b, r' = Ok b) → (∀ e, r = Err e → ∃ e', r' = Err e') → (r = Panic → r' = Panic) →
  ends_well s r → ends_well s r'.
Proof.
  intros H1 H2 H3. destruct r as [a|e|]; simpl.
  - destruct (H1 a eq_refl) as [b ->]. done.
  - destruct (H2 e eq_refl) as [b ->]. done.
  - by rewrite H3.
Qed.

Lemma wp_persist_marks p (Q : Sy → res sync_error unit → Prop) s :
  (∀ s', same_marks s s' → Q s' (Ok ())) → wp (persist_sync_checkpoint true p) Q s.
Proof.
  intros HQ. unfold persist_sync_checkpoint, when. apply wp_bind, wp_get_w, wp_in_world. wp_steps. apply HQ.
  split_and!; [done..|]. unfold trace_of; simpl. by repeat apply suffix_cons_r.
Qed.

Lemma finish_block_ends b p ctx s :
  within s → executed (trace_of s) = upto h0 (N.to_nat (sy_height s - h0)) →
  b_height b = sy_height s + 1 → u64_ok (b_height b) →
  wp (finish_block true true wal_ok b p ctx) ends_well s.
Proof.
  intros Hw He Hb Hok. unfold finish_block. apply wp_bind, wp_in_world.
  eapply wp_mono; [apply execute_committed_block_spec|]. intros w [resp|e|]; [|done..].
  intros (Hs & Hst & Ht & Htr). apply wp_bind, wp_get_w. cbv beta zeta. apply wp_bind, wp_in_world. wp_steps.
  match goal with |- wp ?m _ _ => assert (∃ r : res sync_error (option Epoch), m = lift_res r) as (r & ->) end.
  { case_bool_decide; [by exists (Ok p)|].
    exists (ep ← chained_pending_epoch (sy_epoch (sy_set_world s w)) p (b_view b) (ebr_validator_updates resp) SyncUpdates;
            Ok (Some ep)).
    unfold lift_res, mbind, SM_bind, mret, SM_ret, res_bind; by destruct (chained_pending_epoch _ _ _ _ _). }
  wp_steps. destruct r as [p'|e|]; [| |done].
  2:{ right. eapply (within_executed s _ b []); try done. unfold sy_height, sy_state; simpl. by rewrite Hs. }
  sy_steps. apply wp_persist_marks. intros s1 Hm1. sy_steps.
  assert (settled s1) as Hs1.
  { eapply settled_same; [done|]. eapply (within_executed s _ b [EStoreFlush]); try done.
    unfold trace_of; simpl. by rewrite Htr. }
  apply wp_sync_wal; [by sy_steps| |by left]. sy_steps. by eapply settled_done.
Qed.

Lemma wp_wal_present x e (Q : Sy → res sync_error unit → Prop) s :
  Q (sy_set_world s (w_emit (sy_world s) x)) (Ok ()) → Q s (Err e) → wp (sync_wal true wal_ok x e) Q s.
Proof. intros H1 H2. unfold sync_wal, when. apply wp_bind, wp_get_w. by destruct (wal_ok _). Qed.

Lemma replay_block_ends b qc s :
  settled s → wp (replay_block true true wal_ok (sy_pending_epoch s) (b, qc)) ends_well s.
Proof.
  intros Hs. unfold replay_block. sy_steps. fold (replay_epoch s b).
  pose proof (check_block_Ok s b qc) as Hc.
  destruct (check_block s (replay_epoch s b) b qc) as [[]|e|] eqn:Ec; [|by left|done].
  destruct (proj1 Hc eq_refl) as [Hh Hbd _ _ _ _ _ _]. clear Hc. sy_steps.
  match goal with |- wp _ _ ?t => set (s1 := t); assert (same_marks s s1) as Hm1 end.
  { split_and!; [done..|]. by apply suffix_cons_r. }
  assert (settled s1) as Hs1 by by eapply settled_same.
  apply wp_wal_present; [|by left].
  match goal with |- wp _ _ ?t => set (s2 := t) end.
  assert (within s2) as Hs2 by by apply (settled_intent s1 s2 (b_height b)).
  assert (executed (trace_of s2) = upto h0 (N.to_nat (sy_height s2 - h0))) as He2.
  { destruct Hs1 as (_ & He1 & _). exact He1. }
  assert (sy_height s2 = sy_height s) as Hh2 by done. clearbody s2. clear s1 Hm1 Hs1.
  sy_steps. destruct a; cbn [negb]; [|sy_steps; right; eapply within_same; [|done]; by split_and!].
  match goal with |- wp (_ ≫= _) _ ?t => set (s3 := t) end.
  assert (same_marks s2 s3) as Hm3 by by split_and!. sy_steps.
  match goal with |- wp ?m _ _ => assert (∃ f, m = modify f ∧ ∀ t, same_marks t (f t)) as (f & -> & Hf) end.
  { destruct (activates _ _); [eexists; split; [done|]|exists (λ t, t); split; [done|]]; intros t; by split_and!. }
  sy_steps. clearbody s3.
  match goal with |- wp _ _ ?t => assert (same_marks s2 t) as Hm4 end.
  { destruct Hm3 as (E1 & E2 & E3 & E4), (Hf s3) as (F1 & F2 & F3 & F4).
    split_and!; [by rewrite <- E1, <- F1|by rewrite <- E2, <- F2|by rewrite <- E3, <- F3|by etrans]. }
  apply finish_block_ends; [by eapply within_same|destruct Hm4 as (-> & -> & _); done
    |destruct Hm4 as (-> & _); by rewrite Hh2|done].
Qed.

Lemma replay_loop_ends l : ∀ s,
  settled s → wp (replay_loop true true wal_ok (sy_pending_epoch s) l) ends_well s.
Proof.
  induction l as [|[b qc] l IH]; intros s Hs; cbn [replay_loop]; [by apply wp_ret|].
  apply wp_bind. eapply wp_mono; [apply wp_and; [apply replay_block_ends|apply replay_block_spec]; done|].
  intros s1 [p|e|]; [|by intros []..]. intros [Hs1 [_ <-]]. by apply IH.
Qed.

Lemma replay_blocks_ends l s : settled s → wp (replay_blocks true true wal_ok l) ends_well s.
Proof.
  intros Hs. unfold replay_blocks. sy_steps. eapply wp_mono; [by apply replay_loop_ends|].
  intros s' [p|e|]; [|done..]. intros Hs'. sy_steps. eapply settled_same; [|done]. by split_and!.
Qed.

(** The exchange with a peer. *)
Section Exchange.
Context (peer : list SyncRequest → nat → recv_result) (send_ok : nat → bool).
Notation IO := (SyncIO (St := St) (App := App)).
Implicit Types io : IO.

Definition io_ends {A} io (r : res sync_error A) : Prop := ends_well (io_sync io) r.

Lemma recv_blocks_ends io : settled (io_sync io) → wp (recv_blocks peer) io_ends io.
Proof. intros Hs. apply wp_recv_blocks; [done|by left]. Qed.

Lemma sync_loop_settles fuel tip ff : ∀ io,
  settled (io_sync io) → wp (sync_loop true true wal_ok peer send_ok fuel tip ff) io_ends io.
Proof.
  induction fuel as [|fuel IH]; intros io Hs; [by left|]. cbn [sync_loop]. apply wp_bind, wp_recv_blocks; [|by left].
  intros l. case_bool_decide as Hl; [by sy_steps|]. sy_steps.
  match goal with |- wp (if ?c then _ else _) _ _ => set (needs_more := c) end.
  match goal with |- wp ?m _ ?i => assert (∀ Q, (∀ reqs sent, Q (mkSyncIO (io_sync io) reqs sent (S (io_received io))) (Ok ())) →
    wp m Q i) as Hsend end.
  { intros Q HQ. destruct needs_more; [|apply wp_ret, HQ]. apply wp_bind, wp_send. intros reqs b. apply wp_ret, HQ. }
  apply Hsend. intros reqs sent. apply wp_bind, wp_in_sync. eapply wp_mono; [by apply replay_blocks_ends|].
  intros s1 [p|e|] Hs1; [|done..]. simpl in Hs1.
  assert (∀ io', settled (io_sync io') →
    wp (io ← get_w; if (tip <=? sy_height (io_sync io)) || negb needs_more then mret ()
        else sync_loop true true wal_ok peer send_ok fuel tip ff) io_ends io') as Hcont.
  { intros io' Hio. sy_steps. destruct (_ || negb needs_more); [by apply wp_ret|by apply IH]. }
  apply wp_bind. destruct p; [apply wp_in_sync|]; sy_steps; apply Hcont; [|done].
  eapply settled_same; [|done]. by split_and!.
Qed.

Lemma snapshot_keeps io : wp (sync_via_snapshot peer send_ok) (λ i1 _, io_sync i1 = io_sync io) io.
Proof.
  unfold sync_via_snapshot. apply wp_bind, wp_send_or_fail; [|done]. intros reqs'.
  apply wp_bind, wp_recv. intros [[]| |]; sy_steps; try done.
  case_bool_decide; sy_steps; [done|]. case_match; by sy_steps.
Qed.

Lemma sync_to_tip_settles io :
  settled (io_sync io) → wp (sync_to_tip true true wal_ok peer send_ok) io_ends io.
Proof.
  intros Hs. unfold sync_to_tip. apply wp_bind, wp_send_or_fail; [|by left]. intros reqs. apply wp_bind, wp_recv.
  intros [[l|tip v e| |sn|h i d]| |]; sy_steps; try (by left); try done.
  destruct (tip <=? _); [by sy_steps|].
  assert (∀ i1, settled (io_sync i1) →
    wp (io ← get_w;
        if tip <=? sy_height (io_sync io) then mret ()
        else
          let first_from := sy_height (io_sync io) +w 1 in
          send_or_fail send_ok (GetBlocks first_from (batch_end first_from tip)) ;;
          sync_loop true true wal_ok peer send_ok (S (N.to_nat (tip - sy_height (io_sync io)))) tip first_from)
      io_ends i1) as Hcont.
  { intros i1 Hi1. sy_steps. destruct (tip <=? _); [by sy_steps|]. sy_steps. apply wp_send_or_fail; [|by left].
    intros reqs'. by apply sync_loop_settles. }
  apply wp_bind. case_match; [|by sy_steps; apply Hcont]. apply wp_bind, wp_try.
  eapply wp_mono; [apply snapshot_keeps|]. intros i1 r Hi1.
  destruct r; sy_steps; [apply Hcont; by rewrite Hi1..|done].
Qed.
End Exchange.
End Attempt.

(** ** All attempts *)

Section Safety.
Context {St App : Type} `{!BlockStore St, !BlockStoreLaws St, !Application App, !WalCodec}.
Context {B3 : Blake3} {Vf : Verifier}.
Notation Sy := (SyncState St App).
Implicit Types s : Sy.

Lemma exec_new_ops hs new :
  Forall op_ok (wal_ops new) →
  ∃ hs', exec_ops (at_end (intents hs)) (wal_ops new) = at_end (intents hs') ∧
    replay_of hs' = unfinished ((OpIntent <$> hs) ++ wal_ops new) ∧
    (Forall u64_ok hs → Forall u64_ok hs').
Proof.
  intros Hok. exists (foldl after_op hs (wal_ops new)). split_and!.
  - by apply exec_ops_intents.
  - by rewrite unfinished_spec.
  - intros Hhs. by apply after_ops_ok.
Qed.

Lemma unfinished_last os os' o : unfinished (os ++ os' ++ [o]) = unfinished [o].
Proof. unfold unfinished. by rewrite app_assoc, !last_snoc. Qed.

(** The verdict on the file is the one on the trace. *)
Lemma file_verdict hs (old new : list wal_op) h h' :
  h ≤ h' → covered (Some h) (replay_of hs) = Clean → covered (Some h) (unfinished old) = Clean →
  covered (Some h') (unfinished ((OpIntent <$> hs) ++ new)) = covered (Some h') (unfinished (old ++ new)).
Proof.
  intros Hh H1 H2. destruct new as [|o new _] using rev_ind.
  - rewrite !app_nil_r. rewrite (covered_mono h h' (unfinished old)) by done.
    rewrite <- (app_nil_r (OpIntent <$> hs)), unfinished_spec. by apply (covered_mono h h').
  - by rewrite !unfinished_last.
Qed.

(** The state between two attempts. *)
Record ready (h0 : Height) (hs : list Height) (f : File) s : Prop := {
  rd_file : f = at_end (intents hs);
  rd_width : Forall u64_ok hs;
  rd_clean : covered (Some (sy_height s)) (replay_of hs) = Clean;
  rd_above : h0 ≤ sy_height s;
  rd_settled : settled h0 (sy_height s) (trace_of s) s;
}.

(** After an attempt the file is the log of intents with the verdict of the
    trace. *)
Lemma attempt_file h0 hs f s s' :
  ready h0 hs f s → extends (sy_height s) (trace_of s) s' →
  ∃ hs', exec_ops f (wal_ops (take (length (trace_of s') - length (trace_of s)) (trace_of s'))) = at_end (intents hs') ∧
    Forall u64_ok hs' ∧
    covered (Some (sy_height s')) (replay_of hs') =
    covered (Some (sy_height s')) (unfinished (wal_ops (trace_of s'))).
Proof.
  intros [-> Hw Hc Ha (_ & _ & Hs)] [[new Hn] Hh Hok]. rewrite Hn in Hok |- *.
  rewrite length_app, Nat.add_sub, take_app_length. rewrite wal_ops_app in Hok |- *. apply Forall_app in Hok as [_ Hok].
  destruct (exec_new_ops hs new Hok) as (hs' & -> & E & Hhs'). exists hs'. split_and!; [done|by apply Hhs'|].
  rewrite E. by eapply file_verdict.
Qed.

Lemma settled_again h0 h1 tr s : settled h0 h1 tr s → settled h0 (sy_height s) (trace_of s) s.
Proof. intros ([H1 H2 H3] & He & Hc). by split_and!. Qed.

(** What the start leaves: with a verdict [r] on the log and the file [f]. *)
Definition start_ok (h0 : Height) (f : File) s (r : res startup_error unit) : Prop :=
  let blocks := upto h0 (N.to_nat (sy_height s - h0)) in
  h0 ≤ sy_height s ∧
  match r with
  | Ok _ => executed (trace_of s) = blocks ∧
      ∃ content, check_recovery_path (Some (f_bytes f)) (Some (sy_height s)) = Ok (Clean, content)
  | Err (StartupPartial target _) => target = sy_height s + 1 ∧
      (executed (trace_of s) = blocks ∨ executed (trace_of s) = target :: blocks) ∧
      ∃ content, check_recovery_path (Some (f_bytes f)) (Some (sy_height s)) = Ok (NeedsReplay target, content)
  | Err (StartupWal _) => False
  | Panic => True
  end.

Lemma check_at_end hs c :
  Forall u64_ok hs → check_recovery_path (Some (f_bytes (at_end (intents hs)))) c =
    Ok (covered c (replay_of hs), Some (intents (kept_intents c hs))).
Proof. apply check_recovery_intents. Qed.

(** The log after it was reconciled. *)
Lemma reconcile_at_end hs h :
  Forall u64_ok hs → ∃ hs', Forall u64_ok hs' ∧
    reconcile_with_committed_height (at_end (intents hs)) h =
      Ok (covered (Some h) (replay_of hs), at_end (intents hs')) ∧
    covered (Some h) (replay_of hs') = covered (Some h) (replay_of hs).
Proof.
  intros Hhs. exists (kept_intents (Some h) hs). unfold reconcile_with_committed_height.
  rewrite check_at_end by done. split_and!; [unfold kept_intents; by destruct (covered _ _)|done|].
  unfold kept_intents. destruct (covered (Some h) (replay_of hs)) eqn:Ec; [done|by rewrite Ec].
Qed.

Lemma startup_sync_spec wal_ok h0 peers : ∀ hs f s f' s' r,
  ready h0 hs f s → startup_sync wal_ok peers f s = (f', s', r) → r ≠ Panic → start_ok h0 f' s' r.
Proof.
  induction peers as [|[peer send_ok] peers IH]; intros hs f s f' s' r Hr E Hp; cbn [startup_sync] in E.
  { injection E as <- <- <-. destruct Hr as [-> Hw Hc Ha (_ & He & _)]. split_and!; [done..|].
    rewrite check_at_end, Hc by done. eauto. }
  pose proof (rd_above _ _ _ _ Hr) as Ha.
  pose proof (sync_to_tip_settles wal_ok h0 (sy_height s) (trace_of s) Ha peer send_ok
    (mkSyncIO s [] 0 0) (rd_settled _ _ _ _ Hr)) as Hio. unfold wp, io_ends in Hio.
  destruct (sync_to_tip true true wal_ok peer send_ok (mkSyncIO s [] 0 0)) as [io r1]. cbn [fst snd] in Hio.
  set (s1 := io_sync io) in *. fold (trace_of s1) (trace_of s) in E.
  assert (r1 = Panic ∨ extends (sy_height s) (trace_of s) s1) as [->|Hx]; [|by injection E as <- <- <-|].
  { destruct r1; [right; apply Hio|right; by destruct Hio as [[]|[]]|by left]. }
  destruct (attempt_file _ _ _ _ _ Hr Hx) as (hs1 & Ef & Hw1 & Ec1). rewrite Ef in E.
  pose proof (ex_above _ _ _ Hx) as Ha1.
  destruct r1 as [[]|e|]; [| |by injection E as <- <- <-].
  { injection E as <- <- <-. destruct Hio as (_ & He & Hc). split_and!; [lia|done|].
    rewrite check_at_end, Ec1, Hc by done. eauto. }
  destruct (reconcile_at_end hs1 (sy_height s1) Hw1) as (hs2 & Hw2 & Er & Ec2). rewrite Er, Ec1 in E.
  destruct Hio as [Hset|(_ & He & Hu)].
  - pose proof Hset as (_ & _ & Hc). rewrite Hc in E. eapply IH; [|done|done].
    split; [done|done|by rewrite Ec2, Ec1|lia|by eapply settled_again].
  - rewrite Hu in E. simpl in E. destruct (N.leb_spec (sy_height s1 + 1) (sy_height s1)); [lia|].
    injection E as <- <- <-. split_and!; [lia|done|done|]. rewrite check_at_end, Ec2, Ec1, Hu by done. simpl.
    destruct (N.leb_spec (sy_height s1 + 1) (sy_height s1)); [lia|]. eauto.
Qed.

(** C35: the synchronisation before the engine starts.  Whatever the peers send
    and whichever log writes fail, unless the application aborts the node: if the
    start goes on, the application was asked to execute exactly the blocks
    between the old and the new committed height, each once and in order, over
    all attempts together, and a check of the log finds no unfinished commit.
    Otherwise the start stops, because the application may have been left within
    the block after the committed height: no other block was begun, and the log
    keeps asking for that one.  The log itself is never found corrupt. *)
Theorem startup_sync_correct wal_ok peers hs s f' s' r :
  Forall u64_ok hs → covered (Some (sy_height s)) (replay_of hs) = Clean → trace_of s = [] →
  startup_sync wal_ok peers (wal_open (Some (intents hs))) s = (f', s', r) → r ≠ Panic →
  start_ok (sy_height s) f' s' r.
Proof.
  intros Hw Hc Ht Hr Hp. eapply startup_sync_spec; [|exact Hr|exact Hp].
  split; [by rewrite open_intents|done|done|done|].
  split; [split; [done|done|by rewrite Ht]|]. rewrite Ht, N.sub_diag. by destruct (sy_height s).
Qed.
End Safety.

(** ** The state written back *)

Section Durable.
Context {St : Type} `{!BlockStore St} {B3 : Blake3}.

(** What [write_back] leaves in the records. *)
Lemma written_back p0 state pending previous k :
  written p0 (write_back state pending previous) !! k =
    if decide (k = KEY_CURRENT_VIEW) then Some (SvView (cs_current_view state))
    else if decide (k = KEY_LAST_COMMITTED_HEIGHT) then Some (SvHeight (cs_last_committed_height state))
    else if decide (k = KEY_CURRENT_EPOCH) then Some (SvEpoch (cs_current_epoch state))
    else if decide (k = KEY_LAST_APP_HASH) then Some (SvAppHash (cs_last_app_hash state))
    else if decide (k = KEY_PENDING_EPOCH) then SvEpoch <$> pending
    else if decide (k = KEY_PREVIOUS_EPOCH) then SvEpoch <$> previous
    else p0 !! k.
Proof.
  unfold write_back. cbn [written persist_effect].
  unfold save_previous_epoch, save_pending_epoch, save_last_app_hash, save_current_epoch,
    save_last_committed_height, save_current_view.
  repeat case_decide; subst; destruct pending, previous; simpl;
    repeat first [rewrite lookup_insert_eq | rewrite lookup_delete_eq | rewrite lookup_insert_ne by done
                 | rewrite lookup_delete_ne by done]; done.
Qed.

Lemma load_written_back p0 state pending previous :
  let p := written p0 (write_back state pending previous) in
  load_current_view p = Some (cs_current_view state) ∧
  load_last_committed_height p = Some (cs_last_committed_height state) ∧
  load_current_epoch p = Some (cs_current_epoch state) ∧
  load_last_app_hash p = Some (cs_last_app_hash state) ∧
  load_pending_epoch p = pending ∧ load_previous_epoch p = previous ∧
  load_locked_qc p = load_locked_qc p0 ∧ load_highest_qc p = load_highest_qc p0 ∧
  (∀ t, load_last_vote p t = load_last_vote p0 t).
Proof.
  cbv zeta. unfold load_current_view, load_last_committed_height, load_current_epoch, load_last_app_hash,
    load_pending_epoch, load_previous_epoch, load_locked_qc, load_highest_qc, load_last_vote.
  split_and!; [| | | |destruct pending|destruct previous| | |intros []]; by rewrite written_back.
Qed.

(** The restored and the resumed state, field by field. *)
Lemma restore_state_fields vid vs chain_id p :
  restore_state vid vs chain_id p =
    mkConsensusState vid (default vs (e_validator_set <$> load_current_epoch p)) (blake3 chain_id)
      (default 0 (load_current_view p)) Replica Entered (load_locked_qc p) None (load_highest_qc p)
      (default 0 (load_last_committed_height p)) (default GENESIS_HASH (load_last_app_hash p))
      (default (Epoch_genesis vs) (load_current_epoch p)) []
      (load_last_vote p TVote) (load_last_vote p TVote2).
Proof.
  unfold restore_state. cbv zeta. generalize (load_last_vote p TVote) (load_last_vote p TVote2). intros v1 v2.
  destruct (load_current_view p); destruct (load_locked_qc p); destruct (load_highest_qc p);
    destruct (load_last_committed_height p); destruct (load_current_epoch p); destruct (load_last_app_hash p);
    reflexivity.
Qed.

Lemma resume_fields store s h epoch app_hash :
  resume store s h epoch app_hash =
    mkConsensusState (cs_validator_id s) (e_validator_set epoch) (cs_chain_id_hash s)
      (if 0 <? h then N.max (cs_current_view s) (synced_view store h) else cs_current_view s)
      (cs_role s) (cs_step s) (cs_locked_qc s) (cs_highest_double_cert s) (cs_highest_qc s)
      h app_hash epoch (cs_pending_vote_extensions s) (cs_last_vote1 s) (cs_last_vote2 s).
Proof.
  unfold resume. generalize (synced_view store h). intros v. destruct s. cbn.
  destruct (0 <? h); [|reflexivity]. cbn. destruct (N.ltb_spec cs_current_view v) as [Hl|Hl].
  - rewrite N.max_r by lia. reflexivity.
  - rewrite N.max_l by lia. reflexivity.
Qed.

(** C36: what step 15 writes back survives a crash.  Let a node restore its state
    from the records [p0], take over the synchronised height, epoch and
    application hash, and write back.  Whatever the crash after the final flush
    leaves, restoring again gives exactly the state the engine was started with,
    and the pending and previous epochs; the lock and the last votes are the ones
    the records held; and the view never falls behind the restored one and is
    beyond the view of the last committed block. *)
Theorem startup_durable vid vs chain_id store h epoch app_hash pending previous p0 p :
  let restored := restore_state vid vs chain_id p0 in
  let state := resume store restored h epoch app_hash in
  recovered p0 (write_back state pending previous) p →
  restore_state vid vs chain_id p = state ∧
  load_pending_epoch p = pending ∧ load_previous_epoch p = previous ∧
  cs_last_committed_height state = h ∧ cs_current_epoch state = epoch ∧
  cs_validator_set state = e_validator_set epoch ∧ cs_last_app_hash state = app_hash ∧
  cs_locked_qc state = cs_locked_qc restored ∧ (∀ t, last_vote state t = last_vote restored t) ∧
  cs_current_view restored ≤ cs_current_view state ∧
  (∀ b, 0 < h → get_block_by_height store h = Some b → b_view b < u64_max →
     b_view b < cs_current_view state).
Proof.
  intros restored state Hr.
  assert (p = written p0 (write_back state pending previous)) as -> by (by apply recovered_flushed in Hr).
  destruct (load_written_back p0 state pending previous) as (H1 & H2 & H3 & H4 & H5 & H6 & H7 & H8 & H9).
  assert (state = _) as Es by apply resume_fields.
  assert (restored = _) as Er by apply restore_state_fields.
  split_and!; [|done|done|by rewrite Es..| | |].
  - rewrite restore_state_fields, H1, H2, H3, H4, H7, H8, !H9, Es, Er. reflexivity.
  - intros t. rewrite Es. by destruct t.
  - rewrite Es. simpl. destruct (0 <? h); lia.
  - intros b Hh Hb Hv. rewrite Es. cbn [cs_current_view]. rewrite (proj2 (N.ltb_lt 0 h)) by done.
    unfold synced_view. rewrite Hb. rewrite wrapping_add64_small by lia. lia.
Qed.
End Durable.

(** ** A concrete start *)

#[local] Existing Instance blake3_pad.
#[local] Existing Instance sample_verifier.
#[local] Existing Instance sample_codec.

(** The first peer hangs up in the middle, the second one serves the chain. *)
Definition start_peers : list SyncPeer :=
  [(λ _ n, if (n =? 0)%nat then Received (RespStatus 2 3 0) else Closed, λ _, true);
   (serving_peer peer_store (mkConsensusStatus 3 2 0 4 1) [] (λ _ _, []), λ _, true)].

Definition start_run : File * SyncState MemoryBlockStore NoopApplication * res startup_error unit :=
  startup_sync (λ _, true) start_peers (wal_open (Some (intents []))) sync_start.

Lemma start_run_Ok : start_run.2 = Ok () ∧ sy_height start_run.1.2 = 2.
Proof. vm_compute. split; reflexivity. Qed.

Lemma startup_sync_correct_witness :
  executed (trace_of start_run.1.2) = [2; 1].
Proof.
  destruct start_run_Ok as [Hr Hh].
  destruct (startup_sync_correct (λ _, true) start_peers [] sync_start start_run.1.1 start_run.1.2 (Ok ()))
    as (_ & He & _).
  - constructor.
  - reflexivity.
  - reflexivity.
  - rewrite <- Hr. destruct start_run as [[f' s'] r] eqn:E. exact E.
  - discriminate.
  - rewrite He, Hh. reflexivity.
Defined.

Lemma startup_durable_witness :
  let restored := restore_state 0 sample_set [] ∅ in
  let state := resume peer_store restored 2 (Epoch_genesis sample_set) GENESIS_HASH in
  restore_state 0 sample_set [] (written ∅ (write_back state None None)) = state ∧ 2 < cs_current_view state.
Proof.
  intros restored state.
  destruct (startup_durable 0 sample_set [] peer_store 2 (Epoch_genesis sample_set) GENESIS_HASH None None ∅
    (written ∅ (write_back state None None))) as (H1 & _ & _ & _ & _ & _ & _ & _ & _ & _ & H2).
  - intros k. exists [], (write_back state None None).
    split; [reflexivity|]. split; [apply not_elem_of_nil|reflexivity].
  - split; [exact H1|]. apply (H2 sync_block2); [reflexivity|vm_compute; reflexivity|reflexivity].
Defined.
