(* ===== verification/Node.v ===== *)
(** * The node: configuration and start-up ([hotmint/src/config.rs] and [hotmint/src/bin/node.rs])

    A node directory is initialised with a key, a genesis document and a
    configuration; at the start the node finds its place in the genesis validator
    set, resolves its persistent peers and checks the pacemaker's parameters.
    While it runs it wraps the application to publish each commit, and feeds the
    mempool with gossip.  The [hex] crate, key generation and the network library's
    keys and addresses are parameters; a JSON or TOML file is the value that its
    text denotes. *)

From Stdlib Require Import Floats.SpecFloat.
From S2P Require Import Prelude Types ValidatorSet Encoding State BlockStore World Pacemaker Commit Mempool.
From S2P Require Import PeerBook Network Sync Rpc RpcSafety Samples.

(** The [hex] crate. *)
Class HexCrate : Type := {
  hexc_encode : bytes → string;
  hexc_decode : string → option bytes;
  hexc_decode_encode : ∀ bs, hexc_decode (hexc_encode bs) = Some bs;
}.

(** The network library's keys and addresses: whether a seed is a secret key, the
    peer id of a public key, and the parser of addresses. *)
Class L2pKeys (PeerId Multiaddr : Type) : Type := {
  l2p_secret : bytes → bool;
  l2p_peer_id : bytes → option PeerId;
  l2p_multiaddr : string → option Multiaddr;
}.

(** ** Configuration files *)

Inductive NodeMode : Type := Validator | Fullnode.
#[global] Instance NodeMode_eq_dec : EqDecision NodeMode.
Proof. solve_decision. Defined.

Record NodeModeConfig : Type := mkNodeModeConfig {
  nm_mode : NodeMode;
  nm_relay_consensus : bool;
  nm_relay_transactions : bool;
  nm_serve_rpc : bool;
  nm_serve_sync : bool;
}.
Definition NodeModeConfig_default : NodeModeConfig := mkNodeModeConfig Fullnode true true true true.

Record RpcConfig : Type := mkRpcConfig { rc_laddr : string; rc_http_laddr : string }.
Record P2pConfig : Type := mkP2pConfig {
  pc_laddr : string;
  p2p_persistent_peers : list string;
  p2p_private_peer_ids : list string;
}.
Record MempoolConfig : Type := mkMempoolConfig { mc_max_txs : N; mc_max_tx_bytes : N }.

(** [cfg_consensus] is the [ConsensusConfig], which has the pacemaker's fields. *)
Record NodeConfig : Type := mkNodeConfig {
  cfg_proxy_app : string;
  cfg_node : NodeModeConfig;
  cfg_rpc : RpcConfig;
  cfg_p2p : P2pConfig;
  cfg_pex : PexConfig;
  cfg_consensus : PacemakerConfig;
  cfg_mempool : MempoolConfig;
}.
Definition NodeConfig_default : NodeConfig :=
  mkNodeConfig "" NodeModeConfig_default (mkRpcConfig "127.0.0.1:20001" "")
    (mkP2pConfig "/ip4/0.0.0.0/tcp/20000" [] []) PexConfig_default
    (mkPacemakerConfig 2000 30000 f64_1_5) (mkMempoolConfig 10000 1048576).

Record GenesisValidator : Type := mkGenesisValidator {
  gv_id : N;
  gv_public_key : string;
  gv_power : N;
}.
Record GenesisDoc : Type := mkGenesisDoc {
  gd_chain_id : string;
  gd_validators : list GenesisValidator;
}.

Record PrivValidatorKey : Type := mkPrivValidatorKey {
  pk_validator_id : N;
  pk_public_key : string;
  pk_private_key : string;
}.
Record NodeKey : Type := mkNodeKey { nk_public_key : string; nk_private_key : string }.

Inductive start_error : Type :=
| ProxyAppMissing
| PrivateKeyHex
| PrivateKeyLength
| PrivateKeyInvalid
| PublicKeyHex
| GenesisEmpty
| GenesisInvalid (e : vs_error)
| GenesisDuplicateId (id : N)
| GenesisDuplicateKey (key : string)
| SentinelInGenesis
| NotInGenesis
| PeerFormat
| PeerId_invalid
| PeerAddress
| PeerNotInGenesis (id : N)
| PeerKey
| BaseTimeoutZero
| MaxTimeoutBelowBase
| BackoffMultiplier
| DirFailed
| KeyFileExists (path : string)
| WriteFailed (path : string).

Section Config.
Context {PeerId Multiaddr : Type} `{Countable PeerId, HexCrate, !L2pKeys PeerId Multiaddr}.

Definition decode_genesis_validator (v : GenesisValidator) : res start_error ValidatorInfo :=
  pk_bytes ← ok_or (hexc_decode (gv_public_key v)) PublicKeyHex;
  Ok (mkValidatorInfo (gv_id v) pk_bytes (gv_power v)).

Fixpoint decode_genesis_validators (l : list GenesisValidator) : res start_error (list ValidatorInfo) :=
  match l with
  | [] => Ok []
  | v :: l =>
      info ← decode_genesis_validator v; infos ← decode_genesis_validators l; Ok (info :: infos)
  end.

Definition to_validator_set (g : GenesisDoc) : res start_error ValidatorSet :=
  infos ← decode_genesis_validators (gd_validators g);
  if bool_decide (infos = []) then Err GenesisEmpty
  else match try_new infos with Ok vs => Ok vs | Err e => Err (GenesisInvalid e) | Panic => Panic end.

(** The seed of a key file: 32 bytes of hexadecimal. *)
Definition key_seed (private_key : string) : res start_error bytes :=
  bs ← ok_or (hexc_decode private_key) PrivateKeyHex;
  if (length bs =? 32)%nat then Ok bs else Err PrivateKeyLength.

Definition litep2p_keypair (private_key : string) : res start_error bytes :=
  seed ← key_seed private_key;
  if l2p_secret seed then Ok seed else Err PrivateKeyInvalid.

(** ** The identity of the node *)

Fixpoint check_unique (seen_ids : gset N) (seen_pks : gset string) (l : list GenesisValidator)
    : res start_error unit :=
  match l with
  | [] => Ok ()
  | v :: l =>
      if bool_decide (gv_id v ∈ seen_ids) then Err (GenesisDuplicateId (gv_id v))
      else if bool_decide (gv_public_key v ∈ seen_pks) then Err (GenesisDuplicateKey (gv_public_key v))
      else check_unique ({[gv_id v]} ∪ seen_ids) ({[gv_public_key v]} ∪ seen_pks) l
  end.

Definition SENTINEL : ValidatorId := u64_max.

Definition find_identity (mode : NodeMode) (our_pk_hex : string) (vs : ValidatorSet) (g : GenesisDoc)
    : res start_error ValidatorId :=
  if existsb (λ v, vi_id v =? SENTINEL) (vs_validators vs) then Err SentinelInGenesis
  else
    let genesis_validator := List.find (λ v, String.eqb (gv_public_key v) our_pk_hex) (gd_validators g) in
    match mode, genesis_validator with
    | Validator, None => Err NotInGenesis
    | Validator, Some v => Ok (gv_id v)
    | Fullnode, _ => Ok SENTINEL
    end.

(** The steps 1b to 4 of [run_node], on the loaded files: the seed of the signing
    key, the genesis set and the id. *)
Definition identify (config : NodeConfig) (key : PrivValidatorKey) (node_key : NodeKey) (g : GenesisDoc)
    : res start_error (bytes * ValidatorSet * ValidatorId) :=
  if bool_decide (nm_mode (cfg_node config) = Validator) && String.eqb (cfg_proxy_app config) ""
  then Err ProxyAppMissing
  else
    seed ← key_seed (pk_private_key key);
    _ ← litep2p_keypair (nk_private_key node_key);
    vs ← to_validator_set g;
    _ ← check_unique ∅ ∅ (gd_validators g);
    vid ← find_identity (nm_mode (cfg_node config)) (pk_public_key key) vs g;
    Ok (seed, vs, vid).

(** ** Persistent peers *)

(** [s.split_once('@')] *)
Fixpoint split_once_at (s : string) : option (string * string) :=
  match s with
  | EmptyString => None
  | String c s =>
      if Ascii.N_of_ascii c =? 64 then Some ("", s)
      else '(a, b) ← split_once_at s; Some (String c a, b)
  end.

(** [u64::from_str]: decimal digits after an optional [+] (43), within range. *)
Fixpoint parse_digits (acc : N) (s : string) : option N :=
  match s with
  | EmptyString => Some acc
  | String c s =>
      let d := Ascii.N_of_ascii c in
      if (48 <=? d) && (d <=? 57) && (acc * 10 + (d - 48) <=? u64_max)
      then parse_digits (acc * 10 + (d - 48)) s else None
  end.
Definition parse_u64 (s : string) : option N :=
  match s with
  | EmptyString => None
  | String c rest =>
      if Ascii.N_of_ascii c =? 43 then match rest with EmptyString => None | _ => parse_digits 0 rest end
      else parse_digits 0 s
  end.

(** The peer id of a genesis validator. *)
Definition genesis_peer (g : GenesisDoc) (vid : N) : res start_error PeerId :=
  gv ← ok_or (List.find (λ v, gv_id v =? vid) (gd_validators g)) (PeerNotInGenesis vid);
  pk_bytes ← ok_or (hexc_decode (gv_public_key gv)) PublicKeyHex;
  ok_or (l2p_peer_id pk_bytes) PeerKey.

(** The body of the loop on one entry. *)
Definition parse_peer (g : GenesisDoc) (entry : string) : res start_error (N * PeerId * Multiaddr) :=
  '(id_str, addr_str) ← ok_or (split_once_at entry) PeerFormat;
  vid ← ok_or (parse_u64 id_str) PeerId_invalid;
  addr ← ok_or (l2p_multiaddr addr_str) PeerAddress;
  peer_id ← genesis_peer g vid;
  Ok (vid, peer_id, addr).

Fixpoint parse_peers (g : GenesisDoc) (m : PeerMap PeerId) (known : list (PeerId * list Multiaddr))
    (peers : list string) : res start_error (PeerMap PeerId * list (PeerId * list Multiaddr)) :=
  match peers with
  | [] => Ok (m, known)
  | entry :: peers =>
      '(vid, peer_id, addr) ← parse_peer g entry;
      parse_peers g (pm_insert m vid peer_id) (known ++ [(peer_id, [addr])]) peers
  end.
Definition parse_persistent_peers (peers : list string) (g : GenesisDoc)
    : res start_error (PeerMap PeerId * list (PeerId * list Multiaddr)) :=
  parse_peers g pm_new [] peers.

(** The peers to synchronise with: entries that do not resolve are skipped. *)
Definition sync_peer (g : GenesisDoc) (entry : string) : option (ValidatorId * PeerId) :=
  '(id_str, _) ← split_once_at entry;
  vid ← parse_u64 id_str;
  match genesis_peer g vid with Ok peer_id => Some (vid, peer_id) | _ => None end.
Definition sync_peers (config : NodeConfig) (g : GenesisDoc) : list (ValidatorId * PeerId) :=
  omap (sync_peer g) (p2p_persistent_peers (cfg_p2p config)).

(** ** A new node directory *)

(** The files, by their names in the configuration directory; [FilePartial] is
    what a write that failed half-way leaves. *)
Inductive NodeFile : Type :=
| FilePrivKey (key : PrivValidatorKey)
| FileNodeKey (key : NodeKey)
| FileGenesis (g : GenesisDoc)
| FileConfig (c : NodeConfig)
| FilePartial.

(** What the file system does with a write. *)
Inductive WriteOutcome : Type := WriteDone | WriteRefused | WriteTorn.

Definition save_file (outcome : WriteOutcome) (path : string) (f : NodeFile)
    (fs : gmap string NodeFile) : res start_error unit * gmap string NodeFile :=
  match outcome with
  | WriteDone => (Ok (), <[path := f]> fs)
  | WriteRefused => (Err (WriteFailed path), fs)
  | WriteTorn => (Err (WriteFailed path), <[path := FilePartial]> fs)
  end.

Definition PRIV_KEY_PATH : string := "priv_validator_key.json".
Definition NODE_KEY_PATH : string := "node_key.json".
Definition GENESIS_PATH : string := "genesis.json".
Definition CONFIG_PATH : string := "config.toml".

(** [PrivValidatorKey::generate] on a generated key pair. *)
Definition generate_key (public private : bytes) : PrivValidatorKey :=
  mkPrivValidatorKey 0 (hexc_encode public) (hexc_encode private).

(** What a new directory holds, in the order of the writes. *)
Definition new_files (key : PrivValidatorKey) : list (string * NodeFile) :=
  [(PRIV_KEY_PATH, FilePrivKey key);
   (NODE_KEY_PATH, FileNodeKey (mkNodeKey (pk_public_key key) (pk_private_key key)));
   (GENESIS_PATH, FileGenesis (mkGenesisDoc "hotmint-localnet"
                     [mkGenesisValidator (pk_validator_id key) (pk_public_key key) 1]));
   (CONFIG_PATH, FileConfig NodeConfig_default)].

Fixpoint save_files (write : string → WriteOutcome) (files : list (string * NodeFile))
    (fs : gmap string NodeFile) : res start_error unit * gmap string NodeFile :=
  match files with
  | [] => (Ok (), fs)
  | (path, f) :: files =>
      match save_file (write path) path f fs with
      | (Ok _, fs) => save_files write files fs
      | r => r
      end
  end.

(** [dirs]: whether the directories can be created; [public], [private]: the
    generated key pair. *)
Definition init_node_dir (dirs : bool) (write : string → WriteOutcome) (public private : bytes)
    (fs : gmap string NodeFile) : res start_error unit * gmap string NodeFile :=
  if negb dirs then (Err DirFailed, fs)
  else if bool_decide (is_Some (fs !! PRIV_KEY_PATH)) then (Err (KeyFileExists PRIV_KEY_PATH), fs)
  else if bool_decide (is_Some (fs !! NODE_KEY_PATH)) then (Err (KeyFileExists NODE_KEY_PATH), fs)
  else save_files write (new_files (generate_key public private)) fs.

(** The files [run_node] loads, each in its format. *)
Definition load_files (fs : gmap string NodeFile)
    : option (NodeConfig * PrivValidatorKey * NodeKey * GenesisDoc) :=
  match fs !! CONFIG_PATH, fs !! PRIV_KEY_PATH, fs !! NODE_KEY_PATH, fs !! GENESIS_PATH with
  | Some (FileConfig c), Some (FilePrivKey k), Some (FileNodeKey n), Some (FileGenesis g) => Some (c, k, n, g)
  | _, _, _, _ => None
  end.

(** The overrides of the command line. *)
Definition override (proxy_app p2p_laddr rpc_laddr : option string) (c : NodeConfig) : NodeConfig :=
  mkNodeConfig (default (cfg_proxy_app c) proxy_app) (cfg_node c)
    (mkRpcConfig (default (rc_laddr (cfg_rpc c)) rpc_laddr) (rc_http_laddr (cfg_rpc c)))
    (mkP2pConfig (default (pc_laddr (cfg_p2p c)) p2p_laddr) (p2p_persistent_peers (cfg_p2p c))
       (p2p_private_peer_ids (cfg_p2p c)))
    (cfg_pex c) (cfg_consensus c) (cfg_mempool c).
End Config.

(** ** The pacemaker's parameters *)

(** The checks of the pacemaker's parameters before the engine is built. *)
Definition f64_finite (x : f64) : bool := match x with S754_finite _ _ _ | S754_zero _ => true | _ => false end.
Definition check_pacemaker (c : PacemakerConfig) : res start_error unit :=
  if pc_base_timeout_ms c =? 0 then Err BaseTimeoutZero
  else if pc_max_timeout_ms c <? pc_base_timeout_ms c then Err MaxTimeoutBelowBase
  else if negb (f64_finite (pc_backoff_multiplier c)) || SFltb (pc_backoff_multiplier c) (f64_of_N 1)
  then Err BackoffMultiplier
  else Ok ().

(** ** The running node *)

Section Running.
Context {App : Type} `{!Application App} `{Blake3, HexCrate}.

(** [AppWithStatus]: the inner application with what the node publishes;
    [aw_events] lists the events, the last one first, and [aw_rechecks] counts
    the rechecks of the mempool that are still to run in the background. *)
Record AppWithStatus : Type := mkAppWithStatus {
  aw_inner : App;
  aw_status : ConsensusStatus;
  aw_validators : list ValidatorInfoResponse;
  aw_epoch : Epoch;
  aw_mempool : Mempool;
  aw_events : list ChainEvent;
  aw_rechecks : nat;
}.

Implicit Types a : AppWithStatus.

Definition set_inner a (inner : App) : AppWithStatus :=
  mkAppWithStatus inner (aw_status a) (aw_validators a) (aw_epoch a) (aw_mempool a) (aw_events a) (aw_rechecks a).

Definition published_set (vs : ValidatorSet) : list ValidatorInfoResponse :=
  (λ v, mkValidatorInfoResponse (vi_id v) (vi_power v) (hexc_encode (vi_public_key v))) <$> vs_validators vs.

(** [BlockHash]'s [Display]: the first four bytes. *)
Definition display_hash (h : BlockHash) : string := hexc_encode (take 4 h).

Definition commit_events (block : Block) : list ChainEvent :=
  NewBlock (b_height block) (display_hash (b_hash block)) (b_view block) (b_proposer block) (b_timestamp block) ::
  ((λ tx, TxCommitted (hexc_encode (blake3 tx)) (b_height block)) <$> decode_payload (b_payload block)).

Definition aw_on_commit a (block : Block) (ctx : BlockContext) : bool * AppWithStatus :=
  let '(ok, inner) := app_on_commit (aw_inner a) block ctx in
  let a := set_inner a inner in
  if negb ok then (false, a)
  else
    let vs := bc_validator_set ctx in
    (true, mkAppWithStatus inner
       (mkConsensusStatus (bc_view ctx) (bc_height ctx) (bc_epoch ctx) (validator_count vs) (bc_epoch_start_view ctx))
       (published_set vs) (mkEpoch (bc_epoch ctx) (bc_epoch_start_view ctx) vs) (aw_mempool a)
       (reverse (commit_events block) ++ aw_events a) (S (aw_rechecks a))).

(** The background task of one commit; [answers] are those of the inner
    application while it runs. *)
Definition run_recheck (answers : bytes → TxValidationResult) a : AppWithStatus :=
  match aw_rechecks a with
  | O => a
  | S n =>
      let validator tx := if tvr_valid (answers tx)
                          then Some (tvr_priority (answers tx), tvr_gas_wanted (answers tx)) else None in
      mkAppWithStatus (aw_inner a) (aw_status a) (aw_validators a) (aw_epoch a)
        (recheck (aw_mempool a) validator) (aw_events a) n
  end.

Definition with_inner {X} (r : X * App) a : X * AppWithStatus := (r.1, set_inner a r.2).

#[global] Instance app_with_status : Application AppWithStatus := {|
  app_info a := app_info (aw_inner a);
  app_create_payload a ctx := with_inner (app_create_payload (aw_inner a) ctx) a;
  app_validate_block a block ctx := with_inner (app_validate_block (aw_inner a) block ctx) a;
  app_execute_block a txs ctx := with_inner (app_execute_block (aw_inner a) txs ctx) a;
  app_on_commit a block ctx := aw_on_commit a block ctx;
  app_on_evidence a proof := with_inner (app_on_evidence (aw_inner a) proof) a;
  app_on_offline_validators a offline := with_inner (app_on_offline_validators (aw_inner a) offline) a;
  app_extend_vote a block ctx := with_inner (app_extend_vote (aw_inner a) block ctx) a;
  app_verify_vote_extension a ext h v := with_inner (app_verify_vote_extension (aw_inner a) ext h v) a;
  app_tracks_app_hash a := app_tracks_app_hash (aw_inner a);
  app_validate_tx a tx ctx := with_inner (app_validate_tx (aw_inner a) tx ctx) a;
  app_query a path data := with_inner (app_query (aw_inner a) path data) a;
|}.

(** A transaction received by gossip; [task] says whether the validation task
    completes. *)
Definition gossip_tx (task : bool) (tx : bytes) a : AppWithStatus :=
  let '(result, a) := app_validate_tx a tx None in
  if negb task || negb (tvr_valid result) then a
  else mkAppWithStatus (aw_inner a) (aw_status a) (aw_validators a) (aw_epoch a)
         (add_tx_with_gas (aw_mempool a) tx (tvr_priority result) (tvr_gas_wanted result)).1
         (aw_events a) (aw_rechecks a).
End Running.
Arguments AppWithStatus : clear implicits.

(** [forward_chain_events]: what the receiver returns, until the channel closes. *)
Inductive Recv : Type := RecvEvent (e : ChainEvent) | RecvLagged | RecvClosed.
Fixpoint forward_chain_events (source : list Recv) : list ChainEvent :=
  match source with
  | [] | RecvClosed :: _ => []
  | RecvEvent e :: source => e :: forward_chain_events source
  | RecvLagged :: source => forward_chain_events source
  end.

(** ** The genesis set *)

Section ConfigFacts.
Context {PeerId Multiaddr : Type} `{Countable PeerId, HX : HexCrate, !L2pKeys PeerId Multiaddr}.
Implicit Types g : GenesisDoc.

(** The entry [i] of a set is the genesis validator [v]. *)
Definition decoded (v : GenesisValidator) (i : ValidatorInfo) : Prop :=
  vi_id i = gv_id v ∧ vi_power i = gv_power v ∧ hexc_decode (gv_public_key v) = Some (vi_public_key i).

Lemma decode_genesis_validator_Ok v i : decode_genesis_validator v = Ok i ↔ decoded v i.
Proof.
  unfold decode_genesis_validator, decoded. destruct (hexc_decode (gv_public_key v)) as [pk|]; simpl; [|naive_solver].
  destruct i. simpl. split; [intros [= <- <- <-]; done|]. by intros (-> & -> & [= ->]).
Qed.

Lemma decode_genesis_validators_Ok l infos : decode_genesis_validators l = Ok infos ↔ Forall2 decoded l infos.
Proof.
  revert infos. induction l as [|v l IH]; intros infos; simpl.
  - split; [by intros [= <-]|]. by intros ->%Forall2_nil_inv_l.
  - split.
    + intros (i & Hi%decode_genesis_validator_Ok & (infs & His%IH & [= <-])%res_bind_Ok)%res_bind_Ok. by constructor.
    + intros (i & infs & Hi%decode_genesis_validator_Ok & His%IH & ->)%Forall2_cons_inv_l.
      by rewrite Hi, His.
Qed.

Lemma to_validator_set_Ok g vs :
  to_validator_set g = Ok vs ↔
  ∃ infos, Forall2 decoded (gd_validators g) infos ∧ infos ≠ [] ∧ infos_wf infos ∧
    vs = mkValidatorSet infos (total infos) (build_index infos).
Proof.
  unfold to_validator_set. rewrite res_bind_Ok. setoid_rewrite decode_genesis_validators_Ok.
  f_equiv. intros infos. case_bool_decide as Hn; [naive_solver|].
  pose proof (try_new_Ok infos vs) as Ht. destruct (try_new infos) as [vs'|e|]; naive_solver.
Qed.

(** The keys of a well-formed set differ as strings, too. *)
Lemma decoded_keys_NoDup l infos :
  Forall2 decoded l infos → NoDup (vi_public_key <$> infos) → NoDup (gv_public_key <$> l).
Proof.
  intros Hd Hn. apply (NoDup_fmap_1 hexc_decode). rewrite <- list_fmap_compose.
  assert (hexc_decode ∘ gv_public_key <$> l = Some <$> (vi_public_key <$> infos)) as ->.
  { induction Hd as [|v i l infos (_ & _ & E) _ IH]; csimpl; [done|]. inversion Hn; subst. rewrite IH by done.
    by rewrite E. }
  by apply NoDup_fmap_2; [apply _|].
Qed.

Lemma decoded_ids l infos : Forall2 decoded l infos → vi_id <$> infos = gv_id <$> l.
Proof. induction 1 as [|v i l infos (E & _) _ IH]; csimpl; [done|]. by rewrite E, IH. Qed.

(** The second check for duplicates finds what the first one finds. *)
Lemma check_unique_Ok l ids pks :
  NoDup (gv_id <$> l) → NoDup (gv_public_key <$> l) →
  (∀ v, v ∈ l → gv_id v ∉ ids ∧ gv_public_key v ∉ pks) → check_unique ids pks l = Ok ().
Proof.
  revert ids pks. induction l as [|v l IH]; intros ids pks H1 H2 Hd; [done|]. csimpl in *.
  apply NoDup_cons in H1 as [Hi H1]. apply NoDup_cons in H2 as [Hk H2]. destruct (Hd v) as [Hv1 Hv2]; [by left|].
  rewrite !bool_decide_eq_false_2 by done. apply IH; [done..|]. intros w Hw. destruct (Hd w) as [Hw1 Hw2]; [by right|].
  split; (apply not_elem_of_union; split; [|done]); rewrite elem_of_singleton; intros E;
    [apply Hi|apply Hk]; rewrite <- E; by apply list_elem_of_fmap_2.
Qed.

(** [find] by a key that occurs once. *)
Lemma find_key l pk v :
  NoDup (gv_public_key <$> l) →
  List.find (λ v, String.eqb (gv_public_key v) pk) l = Some v ↔ v ∈ l ∧ gv_public_key v = pk.
Proof.
  induction l as [|w l IH]; intros Hn; csimpl in *; [split; [done|]; by intros [?%not_elem_of_nil _]|].
  apply NoDup_cons in Hn as [Hw Hn]. rewrite elem_of_cons.
  destruct (String.eqb_spec (gv_public_key w) pk) as [E|E].
  - split; [intros [= ->]; auto|]. intros [[->|Hin] Ev]; [done|]. exfalso. apply Hw. rewrite E, <- Ev.
    by apply list_elem_of_fmap_2.
  - rewrite IH by done. naive_solver.
Qed.

Lemma key_seed_Ok k seed : key_seed k = Ok seed ↔ hexc_decode k = Some seed ∧ length seed = 32%nat.
Proof.
  unfold key_seed. destruct (hexc_decode k) as [bs|]; simpl; [|naive_solver].
  destruct (Nat.eqb_spec (length bs) 32); naive_solver.
Qed.

Lemma litep2p_keypair_Ok k seed :
  litep2p_keypair k = Ok seed ↔ hexc_decode k = Some seed ∧ length seed = 32%nat ∧ l2p_secret seed = true.
Proof.
  unfold litep2p_keypair. rewrite res_bind_Ok. setoid_rewrite key_seed_Ok. split.
  - intros (s & [H1 H2] & E). destruct (l2p_secret s) eqn:Es; naive_solver.
  - intros (H1 & H2 & Hs). exists seed. by rewrite Hs.
Qed.

(** ** The identity *)

(** What a node that starts is: its keys, the genesis set and its id. *)
Record identity (config : NodeConfig) (key : PrivValidatorKey) (node_key : NodeKey) g
    (seed : bytes) (vs : ValidatorSet) (vid : ValidatorId) : Prop := {
  id_app : nm_mode (cfg_node config) = Validator → cfg_proxy_app config ≠ "";
  id_seed : hexc_decode (pk_private_key key) = Some seed ∧ length seed = 32%nat;
  id_node : ∃ ns, hexc_decode (nk_private_key node_key) = Some ns ∧ length ns = 32%nat ∧ l2p_secret ns = true;
  id_set : ∃ infos, Forall2 decoded (gd_validators g) infos ∧ infos ≠ [] ∧ infos_wf infos ∧
    vs = mkValidatorSet infos (total infos) (build_index infos);
  id_sentinel : SENTINEL ∉ gv_id <$> gd_validators g;
  id_mine : match nm_mode (cfg_node config) with
            | Validator => ∃ gv, gv ∈ gd_validators g ∧ gv_public_key gv = pk_public_key key ∧ gv_id gv = vid
            | Fullnode => vid = SENTINEL
            end;
}.

Lemma sentinel_absent (infos : list ValidatorInfo) :
  existsb (λ v, vi_id v =? SENTINEL) infos = false ↔ SENTINEL ∉ vi_id <$> infos.
Proof.
  induction infos as [|i infos IH]; csimpl; [split; [by intros _ ?%not_elem_of_nil|done]|].
  rewrite orb_false_iff, IH, not_elem_of_cons, N.eqb_neq. naive_solver.
Qed.

Lemma find_identity_Ok mode pk infos t im g vid :
  Forall2 decoded (gd_validators g) infos → NoDup (gv_public_key <$> gd_validators g) →
  find_identity mode pk (mkValidatorSet infos t im) g = Ok vid ↔
  SENTINEL ∉ gv_id <$> gd_validators g ∧
  match mode with
  | Validator => ∃ gv, gv ∈ gd_validators g ∧ gv_public_key gv = pk ∧ gv_id gv = vid
  | Fullnode => vid = SENTINEL
  end.
Proof.
  intros Hd Hn. rewrite <- (decoded_ids _ _ Hd), <- sentinel_absent. unfold find_identity. simpl.
  destruct (existsb _ infos); [naive_solver|]. pose proof (λ v, find_key (gd_validators g) pk v Hn) as Hf.
  destruct mode; [|naive_solver]. destruct (List.find _ _) as [v|].
  - destruct (proj1 (Hf v) eq_refl) as [H1 H2]. split; [intros [= <-]; eauto|].
    intros [_ (gv & Hgv & E & <-)]. destruct (Hf gv) as [_ H3]. by injection (H3 (conj Hgv E)) as ->.
  - split; [done|]. intros [_ (gv & Hgv & E & _)]. by discriminate (proj2 (Hf gv) (conj Hgv E)).
Qed.

Lemma identify_Ok config key node_key g seed vs vid :
  identify config key node_key g = Ok (seed, vs, vid) ↔ identity config key node_key g seed vs vid.
Proof.
  unfold identify. split.
  - destruct (bool_decide _ && _) eqn:Ea; [done|]. rewrite !res_bind_Ok.
    intros (sd & Hsd & (ns & Hns & (vs' & (infos & Hd & Hne & Hwf & ->)%to_validator_set_Ok & ([] & _ & (v & Hv & [= -> <- ->])%res_bind_Ok)%res_bind_Ok)%res_bind_Ok)%res_bind_Ok).
    apply key_seed_Ok in Hsd. apply litep2p_keypair_Ok in Hns.
    apply find_identity_Ok in Hv as [Hs Hm]; [|done|by eapply decoded_keys_NoDup; [|apply Hwf]].
    split; [|done|by eauto|by eauto|done|done].
    intros Em Ep. by rewrite Ep, bool_decide_eq_true_2 in Ea.
  - intros [Ha Hsd (ns & Hns) (infos & Hd & Hne & Hwf & ->) Hs Hm].
    destruct (bool_decide _ && _) eqn:Ea.
    { apply andb_true_iff in Ea as [?%bool_decide_eq_true ?%String.eqb_eq]. by destruct Ha. }
    assert (NoDup (gv_public_key <$> gd_validators g)) as Hn by (eapply decoded_keys_NoDup; [done|apply Hwf]).
    rewrite (proj2 (key_seed_Ok _ _) Hsd). simpl. rewrite (proj2 (litep2p_keypair_Ok _ _) Hns). simpl.
    rewrite (proj2 (to_validator_set_Ok g _)) by eauto 6. simpl. rewrite check_unique_Ok; [simpl| |done|].
    + rewrite (proj2 (find_identity_Ok _ _ infos _ _ g vid Hd Hn)) by done. done.
    + rewrite <- (decoded_ids _ _ Hd). apply Hwf.
    + intros v _. split; apply not_elem_of_empty.
Qed.

Lemma ok_or_total {E A} (o : option A) (e : E) : ok_or o e ≠ Panic.
Proof. by destruct o. Qed.
Lemma bind_total {E A B} (m : res E A) (k : A → res E B) :
  m ≠ Panic → (∀ a, k a ≠ Panic) → (m ≫= k) ≠ Panic.
Proof. intros Hm Hk. destruct m; simpl; [apply Hk|done|done]. Qed.

Lemma check_unique_total ids pks l : check_unique ids pks l ≠ Panic.
Proof. revert ids pks. induction l as [|v l IH]; intros ids pks; simpl; [done|]. repeat case_bool_decide; auto. Qed.

Lemma decode_genesis_validators_total l : decode_genesis_validators l ≠ Panic.
Proof.
  induction l as [|v l IH]; simpl; [done|]. apply bind_total; [|intros i; by apply bind_total].
  apply bind_total; [apply ok_or_total|done].
Qed.

Lemma identify_total config key node_key g : identify config key node_key g ≠ Panic.
Proof.
  unfold identify. destruct (_ && _); [done|].
  assert (∀ k, key_seed k ≠ Panic) as Hk.
  { intros k. apply bind_total; [apply ok_or_total|]. intros bs. by destruct (_ =? _)%nat. }
  apply bind_total; [apply Hk|]. intros sd.
  apply bind_total; [apply bind_total; [apply Hk|intros k; by destruct (l2p_secret k)]|]. intros ns.
  apply bind_total.
  { apply bind_total; [apply decode_genesis_validators_total|]. intros infos. case_bool_decide; [done|].
    pose proof (try_new_total infos). by destruct (try_new infos). }
  intros vs. apply bind_total; [apply check_unique_total|]. intros _. apply bind_total; [|done].
  unfold find_identity. by repeat case_match.
Qed.

(** C37: who a starting node is.  The steps from the loaded files to the validator
    id never panic, and succeed exactly when a validator has an application
    configured, both keys are 32-byte seeds, the genesis validators form a
    well-formed non-empty set without the sentinel id, and a validator's public
    key is the one of some genesis validator, whose id it then takes.  The id of
    a validator belongs to the entry of the set with its own key, and to no
    other key; the id of a fullnode is in no set, so that it never votes or
    leads.  (The second check for duplicates can never fail.) *)
Theorem identify_correct config key node_key g :
  identify config key node_key g ≠ Panic ∧
  ∀ seed vs vid,
    (identify config key node_key g = Ok (seed, vs, vid) ↔ identity config key node_key g seed vs vid) ∧
    (identify config key node_key g = Ok (seed, vs, vid) →
     vs_wf vs ∧
     match nm_mode (cfg_node config) with
     | Validator => ∃ info, get vs vid = Some info ∧ hexc_decode (pk_public_key key) = Some (vi_public_key info) ∧
         ∀ other, other ∈ vs_validators vs → vi_public_key other = vi_public_key info → other = info
     | Fullnode => get vs vid = None
     end).
Proof.
  split; [apply identify_total|]. intros seed vs vid. split; [apply identify_Ok|].
  intros [_ _ _ (infos & Hd & _ & Hwf & ->) Hs Hm]%identify_Ok.
  assert (vs_wf (mkValidatorSet infos (total infos) (build_index infos))) as Hvs by by constructor.
  split; [done|]. destruct (nm_mode _).
  - destruct Hm as (gv & [i Hi]%list_elem_of_lookup & <- & <-).
    destruct (Forall2_lookup_l _ _ _ _ _ Hd Hi) as (info & Hin & Eid & _ & Ek). exists info.
    rewrite get_spec by done. simpl. split_and!; [by eapply list_elem_of_lookup_2|done|done|].
    intros other [j Hj]%list_elem_of_lookup E. assert (j = i) as ->; [|congruence].
    eapply NoDup_lookup; [apply (iw_keys _ Hwf)|by rewrite list_lookup_fmap, Hj|by rewrite list_lookup_fmap, Hin, E].
  - subst vid. destruct (get _ SENTINEL) as [v|] eqn:Eg; [|done]. apply get_spec in Eg as [Hv Ev]; [|done].
    destruct Hs. rewrite <- (decoded_ids _ _ Hd), <- Ev. by apply list_elem_of_fmap_2.
Qed.

(** ** A new directory *)

Lemma save_files_Ok write files fs fs' :
  NoDup files.*1 → save_files write files fs = (Ok (), fs') → ∀ path f, (path, f) ∈ files → fs' !! path = Some f.
Proof.
  intros Hn. assert (∀ fs, save_files write files fs = (Ok (), fs') →
    (∀ path f, (path, f) ∈ files → fs' !! path = Some f) ∧
    (∀ path, path ∉ files.*1 → fs' !! path = fs !! path)) as Hg; [|intros E; by apply Hg in E as [? _]].
  clear fs. induction files as [|[p f] files IH]; intros fs E; simpl in E.
  { injection E as <-. split; [|done]. by intros ? ? ?%not_elem_of_nil. }
  apply NoDup_cons in Hn as [Hp Hn]. unfold save_file in E. destruct (write p); [|done..].
  apply IH in E as [H1 H2]; [|done]. split.
  - intros path f' [[= -> ->]|Hin]%elem_of_cons; [rewrite H2 by done; apply lookup_insert_eq|by apply H1].
  - intros path [Hne Hin]%not_elem_of_cons. rewrite H2 by done. by apply lookup_insert_ne.
Qed.

Lemma save_files_other write files fs path :
  path ∉ files.*1 → (save_files write files fs).2 !! path = fs !! path.
Proof.
  revert fs. induction files as [|[p f] files IH]; intros fs Hp; [done|]. apply not_elem_of_cons in Hp as [Hne Hp].
  simpl. unfold save_file. destruct (write p); simpl; [|done|by apply lookup_insert_ne].
  rewrite IH by done. by apply lookup_insert_ne.
Qed.

Definition new_genesis (public : bytes) : GenesisDoc :=
  mkGenesisDoc "hotmint-localnet" [mkGenesisValidator 0 (hexc_encode public) 1].
Definition new_infos (public : bytes) : list ValidatorInfo := [mkValidatorInfo 0 public 1].

Lemma new_genesis_decoded public : Forall2 decoded (gd_validators (new_genesis public)) (new_infos public).
Proof. constructor; [|constructor]. split_and!; [done..|]. apply hexc_decode_encode. Qed.

Lemma new_infos_wf public : length public = 32%nat → infos_wf (new_infos public).
Proof. intros Hl. split; [apply NoDup_singleton|apply NoDup_singleton|by constructor|done|done]. Qed.

(** The new files give every node its identity. *)
Lemma new_identity config public private :
  length public = 32%nat → length private = 32%nat → l2p_secret private = true →
  (nm_mode (cfg_node config) = Validator → cfg_proxy_app config ≠ "") →
  let key := generate_key public private in
  identity config key (mkNodeKey (pk_public_key key) (pk_private_key key)) (new_genesis public) private
    (mkValidatorSet (new_infos public) (total (new_infos public)) (build_index (new_infos public)))
    match nm_mode (cfg_node config) with Validator => 0 | Fullnode => SENTINEL end.
Proof.
  intros Hpub Hpriv Hsec Happ key. pose proof (hexc_decode_encode private) as Hd. split; [done|done| | | |].
  - exists private. done.
  - exists (new_infos public). split_and!; [apply new_genesis_decoded|done|by apply new_infos_wf|done].
  - simpl. by intros ?%list_elem_of_singleton.
  - destruct (nm_mode _); [|done]. eexists. split; [by left|done].
Qed.

(** C38: initialising a node directory.  Whatever the file system does, an existing
    validator or node key is left as it is.  When the initialisation succeeds,
    the files can be loaded, and the node starts from them: as they are, as a
    fullnode; with any configuration that makes it a validator and names an
    application, as the only validator of the genesis set, with the generated
    key.  The peer id that other nodes derive from the genesis document is the
    one of the node's own P2P key. *)
Theorem init_node_dir_correct dirs write public private fs :
  let '(r, fs') := init_node_dir dirs write public private fs in
  (∀ path f, path = PRIV_KEY_PATH ∨ path = NODE_KEY_PATH → fs !! path = Some f → fs' !! path = Some f) ∧
  (r = Ok () → length public = 32%nat → length private = 32%nat → l2p_secret private = true →
   ∃ key node_key g vs,
     load_files fs' = Some (NodeConfig_default, key, node_key, g) ∧
     identify NodeConfig_default key node_key g = Ok (private, vs, SENTINEL) ∧
     (∀ config, nm_mode (cfg_node config) = Validator → cfg_proxy_app config ≠ "" →
        identify config key node_key g = Ok (private, vs, 0)) ∧
     (hexc_decode (nk_public_key node_key) ≫= l2p_peer_id) = l2p_peer_id public ∧
     genesis_peer g 0 = ok_or (l2p_peer_id public) PeerKey).
Proof.
  unfold init_node_dir. destruct dirs; cbn [negb]; [|by split].
  destruct (bool_decide (is_Some (fs !! PRIV_KEY_PATH))) eqn:E1; [by split|].
  destruct (bool_decide (is_Some (fs !! NODE_KEY_PATH))) eqn:E2; [by split|].
  apply bool_decide_eq_false, eq_None_not_Some in E1, E2.
  destruct (save_files write (new_files (generate_key public private)) fs) as [r fs'] eqn:Es. split.
  { intros path f [-> | ->]; congruence. }
  intros -> Hpub Hpriv Hsec. set (key := generate_key public private) in *.
  exists key, (mkNodeKey (pk_public_key key) (pk_private_key key)), (new_genesis public),
    (mkValidatorSet (new_infos public) (total (new_infos public)) (build_index (new_infos public))).
  pose proof (save_files_Ok write (new_files key) fs fs') as Hf. split_and!.
  - unfold load_files. rewrite (Hf ltac:(by apply (bool_decide_unpack _)) Es CONFIG_PATH (FileConfig NodeConfig_default)),
      (Hf ltac:(by apply (bool_decide_unpack _)) Es PRIV_KEY_PATH (FilePrivKey key)),
      (Hf ltac:(by apply (bool_decide_unpack _)) Es NODE_KEY_PATH (FileNodeKey (mkNodeKey (pk_public_key key) (pk_private_key key)))),
      (Hf ltac:(by apply (bool_decide_unpack _)) Es GENESIS_PATH (FileGenesis (new_genesis public)));
      unfold new_files; set_solver.
  - apply identify_Ok. by apply (new_identity NodeConfig_default).
  - intros config Hm Ha. apply identify_Ok. pose proof (new_identity config public private Hpub Hpriv Hsec (λ _, Ha)) as Hi.
    simpl in Hi. by rewrite Hm in Hi.
  - simpl. by rewrite hexc_decode_encode.
  - unfold genesis_peer. simpl. by rewrite hexc_decode_encode.
Qed.

(** ** Persistent peers *)

Lemma parse_peers_Ok g peers : ∀ m known r,
  parse_peers g m known peers = Ok r ↔
  ∃ l, Forall2 (λ entry x, parse_peer g entry = Ok x) peers l ∧
    r = (foldl (λ m '(vid, pid, _), pm_insert m vid pid) m l, known ++ ((λ '(_, pid, addr), (pid, [addr])) <$> l)).
Proof.
  induction peers as [|entry peers IH]; intros m known r; simpl.
  - split; [intros [= <-]; exists []; by rewrite app_nil_r|]. intros (l & ->%Forall2_nil_inv_l & ->). simpl.
    by rewrite app_nil_r.
  - rewrite res_bind_Ok. split.
    + intros ([[vid pid] addr] & Hp & (l & Hl & ->)%IH). exists ((vid, pid, addr) :: l). split; [by constructor|].
      simpl. by rewrite <- app_assoc.
    + intros (l' & Hl & ->). apply Forall2_cons_inv_l in Hl as ([[vid pid] addr] & l & Hp & Hl & ->).
      exists (vid, pid, addr). split; [done|]. apply IH. exists l. split; [done|]. simpl. by rewrite <- app_assoc.
Qed.

Lemma sync_peer_parse g entry vid pid addr :
  parse_peer g entry = Ok (vid, pid, addr) → sync_peer g entry = Some (vid, pid).
Proof.
  unfold parse_peer, sync_peer. destruct (split_once_at entry) as [[i a]|]; simpl; [|done].
  destruct (parse_u64 i); simpl; [|done]. destruct (l2p_multiaddr a); simpl; [|done].
  destruct (genesis_peer g n); simpl; [|done..]. by intros [= -> -> _].
Qed.

(** Once the persistent peers are parsed, the node synchronises with all of them,
    in the order of the configuration. *)
Lemma sync_peers_all config g m known :
  parse_persistent_peers (p2p_persistent_peers (cfg_p2p config)) g = Ok (m, known) →
  (sync_peers config g).*2 = known.*1 ∧
  m = foldl (λ m '(vid, pid), pm_insert m vid pid) pm_new (sync_peers config g).
Proof.
  unfold parse_persistent_peers, sync_peers. intros (l & Hl & [= -> ->])%parse_peers_Ok.
  assert (omap (sync_peer g) (p2p_persistent_peers (cfg_p2p config)) = l.*1) as ->.
  { induction Hl as [|entry [[vid pid] addr] ps l Hp _ IH]; csimpl; [done|].
    by rewrite (sync_peer_parse _ _ _ _ _ Hp), IH. }
  split.
  - clear. induction l as [|[[vid pid] addr] l IH]; csimpl; [done|]. by rewrite IH.
  - generalize (pm_new (PeerId := PeerId)). clear. induction l as [|[[vid pid] addr] l IH]; intros m; csimpl; [done|].
    apply IH.
Qed.
End ConfigFacts.

(** ** The published state *)

Section RunningFacts.
Context {App : Type} `{!Application App} `{Blake3, HexCrate}.
Notation Aw := (AppWithStatus App).

(** The calls of the engine, of the RPC server and of the gossip. *)
Inductive AppCall : Type :=
| CallPayload (ctx : BlockContext)
| CallValidateBlock (b : Block) (ctx : BlockContext)
| CallExecute (txs : list bytes) (ctx : BlockContext)
| CallCommit (b : Block) (ctx : BlockContext)
| CallEvidence (p : EquivocationProof)
| CallOffline (l : list OfflineEvidence)
| CallExtend (b : Block) (ctx : BlockContext)
| CallVerifyExtension (ext : bytes) (h : BlockHash) (v : ValidatorId)
| CallValidateTx (tx : bytes) (ctx : option TxContext)
| CallQuery (path : string) (data : bytes).

Inductive AppReply : Type :=
| ReplyBytes (bs : bytes)
| ReplyBool (b : bool)
| ReplyEnd (r : option EndBlockResponse)
| ReplyExtension (e : option bytes)
| ReplyTx (r : TxValidationResult)
| ReplyQuery (r : option QueryResponse).

Definition app_call {A} `{!Application A} (c : AppCall) (a : A) : AppReply * A :=
  match c with
  | CallPayload ctx => prod_map ReplyBytes id (app_create_payload a ctx)
  | CallValidateBlock b ctx => prod_map ReplyBool id (app_validate_block a b ctx)
  | CallExecute txs ctx => prod_map ReplyEnd id (app_execute_block a txs ctx)
  | CallCommit b ctx => prod_map ReplyBool id (app_on_commit a b ctx)
  | CallEvidence p => prod_map ReplyBool id (app_on_evidence a p)
  | CallOffline l => prod_map ReplyBool id (app_on_offline_validators a l)
  | CallExtend b ctx => prod_map ReplyExtension id (app_extend_vote a b ctx)
  | CallVerifyExtension ext h v => prod_map ReplyBool id (app_verify_vote_extension a ext h v)
  | CallValidateTx tx ctx => prod_map ReplyTx id (app_validate_tx a tx ctx)
  | CallQuery path data => prod_map ReplyQuery id (app_query a path data)
  end.

Fixpoint app_calls {A} `{!Application A} (cs : list AppCall) (a : A) : list AppReply * A :=
  match cs with
  | [] => ([], a)
  | c :: cs => let '(r, a) := app_call c a in let '(rs, a) := app_calls cs a in (r :: rs, a)
  end.

(** The context of the last commit that succeeded. *)
Fixpoint last_commit (cs : list AppCall) (rs : list AppReply) (d : option BlockContext) : option BlockContext :=
  match cs, rs with
  | CallCommit _ ctx :: cs, ReplyBool true :: rs => last_commit cs rs (Some ctx)
  | _ :: cs, _ :: rs => last_commit cs rs d
  | _, _ => d
  end.

(** What is published for a context. *)
Definition publishes (ctx : BlockContext) (a : Aw) : Prop :=
  aw_status a = mkConsensusStatus (bc_view ctx) (bc_height ctx) (bc_epoch ctx)
                  (validator_count (bc_validator_set ctx)) (bc_epoch_start_view ctx) ∧
  aw_validators a = published_set (bc_validator_set ctx) ∧
  aw_epoch a = mkEpoch (bc_epoch ctx) (bc_epoch_start_view ctx) (bc_validator_set ctx).

Lemma app_call_inner c (a : Aw) :
  (app_call c a).1 = (app_call c (aw_inner a)).1 ∧ aw_inner (app_call c a).2 = (app_call c (aw_inner a)).2.
Proof.
  destruct c; simpl; try done. unfold aw_on_commit. destruct (app_on_commit (aw_inner a) b ctx) as [[] inner]; done.
Qed.

Lemma app_call_publishes c (a : Aw) d :
  (∀ ctx, d = Some ctx → publishes ctx a) → ∀ ctx, last_commit [c] [(app_call c a).1] d = Some ctx → publishes ctx (app_call c a).2.
Proof.
  intros Hd ctx. destruct c; simpl; try (intros E; by apply Hd in E).
  unfold aw_on_commit. destruct (app_on_commit (aw_inner a) b ctx0) as [[] inner]; simpl; [|intros E; by apply Hd in E].
  by intros [= ->].
Qed.

Lemma last_commit_cons c cs r rs d : last_commit (c :: cs) (r :: rs) d = last_commit cs rs (last_commit [c] [r] d).
Proof. destruct c, r; try done. by destruct b0. Qed.

(** The wrapped application answers every sequence of calls as the inner one
    does, and always publishes the last successful commit. *)
Lemma app_with_status_refines cs : ∀ (a : Aw) d,
  (∀ ctx, d = Some ctx → publishes ctx a) →
  let '(rs, a') := app_calls cs a in
  app_calls cs (aw_inner a) = (rs, aw_inner a') ∧
  (∀ ctx, last_commit cs rs d = Some ctx → publishes ctx a').
Proof.
  induction cs as [|c cs IH]; intros a d Hd; [done|]. cbn [app_calls].
  pose proof (app_call_inner c a) as [E1 E2]. pose proof (app_call_publishes c a d Hd) as Hp.
  destruct (app_call c a) as [r a1], (app_call c (aw_inner a)) as [r' inner1]. cbn [fst snd] in *. subst r' inner1.
  specialize (IH a1 _ Hp). destruct (app_calls cs a1) as [rs a2]. destruct IH as [-> Hl].
  split; [done|]. intros ctx. rewrite last_commit_cons. apply Hl.
Qed.
End RunningFacts.

(** ** A concrete node *)

(** The decoder and encoder of the RPC server are a [hex] crate. *)
#[local] Instance rpc_hex_crate : HexCrate := {|
  hexc_encode := hex_encode;
  hexc_decode := hex_decode;
  hexc_decode_encode := hex_decode_encode;
|}.

#[local] Instance sample_keys : L2pKeys bytes string := {|
  l2p_secret seed := true;
  l2p_peer_id pk := Some pk;
  l2p_multiaddr s := Some s;
|}.

Definition node_public : bytes := Byte.x2a :: zeros 31.
Definition node_config : NodeConfig :=
  override (Some "unix:///app.sock") None None
    (mkNodeConfig "" (mkNodeModeConfig Validator true true true true) (mkRpcConfig "127.0.0.1:20001" "")
       (mkP2pConfig "" [] []) PexConfig_default PacemakerConfig_default (mkMempoolConfig 100 1000)).

Lemma identify_correct_witness :
  ∃ info, get (mkValidatorSet (new_infos node_public) (total (new_infos node_public)) (build_index (new_infos node_public))) 0 = Some info ∧
    hexc_decode (pk_public_key (generate_key node_public node_public)) = Some (vi_public_key info).
Proof.
  destruct (identify_correct node_config (generate_key node_public node_public)
    (mkNodeKey (hex_encode node_public) (hex_encode node_public)) (new_genesis node_public)) as [_ H].
  destruct (H node_public (mkValidatorSet (new_infos node_public) (total (new_infos node_public)) (build_index (new_infos node_public))) 0) as [_ Hid].
  destruct Hid as [_ (info & Hg & Hk & _)].
  - vm_compute. reflexivity.
  - exists info. split; [exact Hg|exact Hk].
Defined.

Lemma init_node_dir_correct_witness :
  ∃ key node_key g vs,
    load_files (init_node_dir true (λ _, WriteDone) node_public node_public ∅).2 = Some (NodeConfig_default, key, node_key, g) ∧
    identify node_config key node_key g = Ok (node_public, vs, 0).
Proof.
  pose proof (init_node_dir_correct true (λ _, WriteDone) node_public node_public ∅) as H.
  destruct H as [_ H]. destruct H as (key & node_key & g & vs & Hl & _ & Hv & _).
  - reflexivity.
  - reflexivity.
  - reflexivity.
  - reflexivity.
  - exists key, node_key, g, vs. split; [exact Hl|]. apply Hv; [reflexivity|discriminate].
Defined.
