(* ===== verification/Cluster.v ===== *)
(** * Clusters ([hotmint-mgmt/src/cluster.rs], [examples/cluster-node])

    The management tool writes the home directories of a cluster: keys, one
    genesis document and configurations that name each other as persistent peers.
    The embedded node reads them.  The generated keys and what the file system
    does are parameters; a configuration is the value its text denotes. *)

From Stdlib Require Import Floats.SpecFloat.
From S2P Require Import Prelude Types ValidatorSet State Pacemaker Persist World PeerBook Network Rpc RpcSafety Samples Node.

(** ** Text *)

Definition digit (d : N) : Ascii.ascii := Ascii.ascii_of_N (48 + d).

(** [format!("{}", n)] of an integer of at most 20 digits *)
Fixpoint dec_go (fuel : nat) (n : N) (acc : string) : string :=
  match fuel with
  | O => acc
  | S fuel => if n <? 10 then String (digit n) acc else dec_go fuel (n / 10) (String (digit (n mod 10)) acc)
  end.
Definition dec (n : N) : string := dec_go 20 n "".

Fixpoint contains_char (c : N) (s : string) : bool :=
  match s with EmptyString => false | String a s => (Ascii.N_of_ascii a =? c) || contains_char c s end.

Definition COLON : N := 58.

(** [format_host_port]: an IPv6 address goes into brackets. *)
Definition format_host_port (host : string) (port : N) : string :=
  if contains_char COLON host && negb (String.prefix "[" host)
  then "[" +:+ host +:+ "]:" +:+ dec port
  else host +:+ ":" +:+ dec port.

(** ** The cluster's files *)

Record ValidatorEntry : Type := mkValidatorEntry {
  ve_id : N;
  ve_public_key : string;
  ve_peer_id : string;
  ve_home_dir : string;
  ve_p2p_port : N;
  ve_rpc_port : N;
}.
Record ClusterState : Type := mkClusterState {
  cl_chain_id : string;
  cl_validator_count : N;
  cl_bind_ip : string;
  cl_p2p_base_port : N;
  cl_rpc_base_port : N;
  cl_validators : list ValidatorEntry;
}.

(** The base directory: [cluster.json], whose content a torn write leaves
    unreadable, and the configuration directories. *)
Record ClusterDir : Type := mkClusterDir {
  cd_state : option (option ClusterState);
  cd_homes : gmap N (gmap string NodeFile);
}.

Inductive cluster_error : Type :=
| BadValidatorCount
| AlreadyInitialized
| ClusterDirFailed
| PortOverflow
| ClusterWriteFailed (e : start_error).

(** The configuration that the generated TOML text denotes, for a [bind_ip] that
    needs no quoting. *)
Definition generate_config (p2p_port rpc_port : N) (persistent_peers : list string) (bind_ip : string) : NodeConfig :=
  mkNodeConfig "" (mkNodeModeConfig Validator true true true true)
    (mkRpcConfig (format_host_port bind_ip rpc_port) "")
    (mkP2pConfig (if contains_char COLON bind_ip then "/ip6/::/tcp/" +:+ dec p2p_port
                  else "/ip4/0.0.0.0/tcp/" +:+ dec p2p_port) persistent_peers [])
    (mkPexConfig true 50 30 10 []) (mkPacemakerConfig 2000 30000 f64_1_5) (mkMempoolConfig 10000 1048576).

Definition u16_max : N := 65535.

(** [base.checked_add(id as u16)] *)
Definition port_of (base id : N) : option N :=
  let id := id mod (u16_max + 1) in if base + id <=? u16_max then Some (base + id) else None.

Section Init.
Context `{HexCrate}.
(** The [i]-th generated key pair; whether the directories can be created and
    what becomes of a write. *)
Context (public private : N → bytes) (base_dir_ok : bool) (home_ok : N → bool) (write : N → string → WriteOutcome).
Context (state_write : WriteOutcome).
Context (base_dir chain_id bind_ip : string) (p2p_base_port rpc_base_port : N).

Definition cluster_genesis (ids : list N) : GenesisDoc :=
  mkGenesisDoc chain_id ((λ id, mkGenesisValidator id (hexc_encode (public id)) 1) <$> ids).

Definition peer_address (port : N) : string :=
  "/" +:+ (if contains_char COLON bind_ip then "ip6" else "ip4") +:+ "/" +:+ bind_ip +:+ "/tcp/" +:+ dec port.

Fixpoint cluster_peers (ids : list N) : option (list string) :=
  match ids with
  | [] => Some []
  | id :: ids =>
      port ← port_of p2p_base_port id;
      rest ← cluster_peers ids;
      Some ((dec id +:+ "@" +:+ peer_address port) :: rest)
  end.

(** The body of the loop over the validators: the entry and the files. *)
Definition init_validator (g : GenesisDoc) (persistent_peers : list string) (id : N) (fs : gmap string NodeFile)
    : res cluster_error ValidatorEntry * gmap string NodeFile :=
  let pk_hex := hexc_encode (public id) in
  let sk_hex := hexc_encode (private id) in
  if negb (home_ok id) then (Err ClusterDirFailed, fs)
  else
    match save_files (write id)
            [(PRIV_KEY_PATH, FilePrivKey (mkPrivValidatorKey id pk_hex sk_hex));
             (NODE_KEY_PATH, FileNodeKey (mkNodeKey pk_hex sk_hex));
             (GENESIS_PATH, FileGenesis g)] fs with
    | (Ok _, fs) =>
        let peers_without_self := filter (λ p, negb (String.prefix (dec id +:+ "@") p)) persistent_peers in
        match port_of p2p_base_port id, port_of rpc_base_port id with
        | Some p2p_port, Some rpc_port =>
            match save_files (write id)
                    [(CONFIG_PATH, FileConfig (generate_config p2p_port rpc_port peers_without_self bind_ip))] fs with
            | (Ok _, fs) =>
                (Ok (mkValidatorEntry id pk_hex
                       ("(V" +:+ dec id +:+ ": " +:+ String.substring 0 16 pk_hex +:+ "...)")
                       (base_dir +:+ "/v" +:+ dec id) p2p_port rpc_port), fs)
            | (Err e, fs) => (Err (ClusterWriteFailed e), fs)
            | (Panic, fs) => (Panic, fs)
            end
        | _, _ => (Err PortOverflow, fs)
        end
    | (Err e, fs) => (Err (ClusterWriteFailed e), fs)
    | (Panic, fs) => (Panic, fs)
    end.

Fixpoint init_validators (g : GenesisDoc) (persistent_peers : list string) (ids : list N)
    (homes : gmap N (gmap string NodeFile)) : res cluster_error (list ValidatorEntry) * gmap N (gmap string NodeFile) :=
  match ids with
  | [] => (Ok [], homes)
  | id :: ids =>
      match init_validator g persistent_peers id (default ∅ (homes !! id)) with
      | (Ok entry, fs) =>
          match init_validators g persistent_peers ids (<[id := fs]> homes) with
          | (Ok entries, homes) => (Ok (entry :: entries), homes)
          | r => r
          end
      | (Err e, fs) => (Err e, <[id := fs]> homes)
      | (Panic, fs) => (Panic, <[id := fs]> homes)
      end
  end.

Definition init_cluster (validator_count : N) (d : ClusterDir) : res cluster_error unit * ClusterDir :=
  if (validator_count =? 0) || (u16_max + 1 <? validator_count) then (Err BadValidatorCount, d)
  else if bool_decide (is_Some (cd_state d)) then (Err AlreadyInitialized, d)
  else if negb base_dir_ok then (Err ClusterDirFailed, d)
  else
    let ids := seqN 0 validator_count in
    match cluster_peers ids with
    | None => (Err PortOverflow, d)
    | Some persistent_peers =>
        match init_validators (cluster_genesis ids) persistent_peers ids (cd_homes d) with
        | (Ok entries, homes) =>
            let state := mkClusterState chain_id validator_count bind_ip p2p_base_port rpc_base_port entries in
            match state_write with
            | WriteDone => (Ok (), mkClusterDir (Some (Some state)) homes)
            | WriteRefused => (Err (ClusterWriteFailed (WriteFailed "cluster.json")), mkClusterDir None homes)
            | WriteTorn => (Err (ClusterWriteFailed (WriteFailed "cluster.json")), mkClusterDir (Some None) homes)
            end
        | (Err e, homes) => (Err e, mkClusterDir None homes)
        | (Panic, homes) => (Panic, mkClusterDir None homes)
        end
    end.
End Init.

(** ** The embedded node ([cluster-node]) *)

Definition cluster_identify {PeerId Multiaddr} `{HexCrate, !L2pKeys PeerId Multiaddr} (key : PrivValidatorKey)
    (node_key : NodeKey) (g : GenesisDoc) : res start_error (bytes * ValidatorSet * ValidatorId) :=
  seed ← key_seed (pk_private_key key);
  _ ← litep2p_keypair (nk_private_key node_key);
  vs ← to_validator_set g;
  our_gv ← ok_or (List.find (λ v, String.eqb (gv_public_key v) (pk_public_key key)) (gd_validators g)) NotInGenesis;
  Ok (seed, vs, gv_id our_gv).

(** The state it restores. *)
Definition cluster_restore_state `{Blake3} (vid : ValidatorId) (vs : ValidatorSet) (chain_id : bytes)
    (p : PersistentConsensusState) : ConsensusState :=
  let state := with_chain_id vid vs chain_id in
  let state := match load_current_view p with Some v => set_current_view state v | None => state end in
  let state := match load_locked_qc p with Some q => set_locked_qc state (Some q) | None => state end in
  let state := match load_highest_qc p with Some q => set_highest_qc state (Some q) | None => state end in
  let state := match load_last_committed_height p with
               | Some h => set_last_committed_height state h
               | None => state
               end in
  match load_current_epoch p with
  | Some e => State.set_current_epoch (set_validator_set state (e_validator_set e)) e
  | None => state
  end.

(** ** Decimal text *)

Lemma N_of_digit d : d < 10 → Ascii.N_of_ascii (digit d) = 48 + d.
Proof. intros Hd. unfold digit. rewrite Ascii.N_ascii_embedding; [done|lia]. Qed.

Lemma parse_digit a d s :
  d < 10 → a * 10 + d ≤ u64_max → parse_digits a (String (digit d) s) = parse_digits (a * 10 + d) s.
Proof.
  intros Hd Ha. cbn [parse_digits]. rewrite N_of_digit by done. replace (48 + d - 48) with d by lia.
  rewrite (proj2 (N.leb_le 48 (48 + d))), (proj2 (N.leb_le (48 + d) 57)), (proj2 (N.leb_le _ u64_max)) by lia. done.
Qed.

Lemma parse_dec_go fuel n acc :
  n < 10 ^ N.of_nat fuel → n ≤ u64_max → (0 < fuel)%nat → parse_digits 0 (dec_go fuel n acc) = parse_digits n acc.
Proof.
  revert n acc. induction fuel as [|fuel IH]; intros n acc Hf Hn Hp; [lia|]. cbn [dec_go].
  pose proof (N.div_mod n 10 ltac:(lia)) as Hdm. pose proof (N.mod_lt n 10 ltac:(lia)) as Hm.
  destruct (N.ltb_spec n 10) as [Hl|Hl]; [by apply (parse_digit 0)|].
  rewrite Nat2N.inj_succ, N.pow_succ_r' in Hf.
  rewrite IH; [|apply N.Div0.div_lt_upper_bound; exact Hf|apply (N.le_trans _ n); [apply N.Div0.div_le_upper_bound; lia|done]|].
  - assert (n / 10 * 10 + n mod 10 = n) as E by lia. rewrite parse_digit; [by rewrite E|done|by rewrite E].
  - destruct fuel; [simpl in Hf; lia|lia].
Qed.

(** The text has only digits, and at least one. *)
Inductive digits : string → Prop :=
| digits_nil : digits ""
| digits_cons d s : d < 10 → digits s → digits (String (digit d) s).

Lemma dec_go_digits fuel n acc : digits acc → digits (dec_go fuel n acc).
Proof.
  revert n acc. induction fuel as [|fuel IH]; intros n acc Ha; [done|]. cbn [dec_go].
  destruct (N.ltb_spec n 10); [by constructor|]. apply IH. constructor; [apply N.mod_lt; lia|done].
Qed.

Lemma dec_digits n : digits (dec n).
Proof. apply dec_go_digits. constructor. Qed.

Lemma dec_go_nonempty fuel n acc : (0 < fuel)%nat ∨ acc ≠ "" → dec_go fuel n acc ≠ "".
Proof.
  revert n acc. induction fuel as [|fuel IH]; intros n acc Hf; [destruct Hf; [lia|done]|]. cbn [dec_go].
  destruct (n <? 10); [done|]. apply IH. by right.
Qed.

Lemma parse_dec n : n ≤ u64_max → parse_u64 (dec n) = Some n.
Proof.
  intros Hn. assert (parse_digits 0 (dec n) = Some n) as Hp.
  { unfold dec. rewrite parse_dec_go; [done| |done|lia]. eapply N.le_lt_trans; [done|reflexivity]. }
  pose proof (dec_go_nonempty 20 n "" (or_introl (Nat.lt_0_succ _))) as Hne. fold (dec n) in Hne.
  pose proof (dec_digits n) as Hd. revert Hp Hne Hd. generalize (dec n). intros s0 Hp Hne Hd.
  destruct Hd as [|d s Hd Hs]; [done|].
  cbn [parse_u64]. rewrite N_of_digit by done. destruct (N.eqb_spec (48 + d) 43); [lia|done].
Qed.

Lemma dec_inj m n : m ≤ u64_max → n ≤ u64_max → dec m = dec n → m = n.
Proof. intros Hm Hn E. pose proof (parse_dec m Hm) as H1. rewrite E, parse_dec in H1 by done. congruence. Qed.

Lemma split_digits s rest : digits s → split_once_at (s +:+ "@" +:+ rest) = Some (s, rest).
Proof.
  induction 1 as [|d s Hd Hs IH]; [done|].
  change (String (digit d) s +:+ "@" +:+ rest) with (String (digit d) (s +:+ "@" +:+ rest)). cbn [split_once_at].
  rewrite N_of_digit by done. destruct (N.eqb_spec (48 + d) 64); [lia|]. by rewrite IH.
Qed.

Lemma append_cons c s t : String c s +:+ t = String c (s +:+ t).
Proof. done. Qed.

Lemma prefix_cons a b s t : String.prefix (String a s) (String b t) = true ↔ a = b ∧ String.prefix s t = true.
Proof. cbn. destruct (Ascii.ascii_dec a b); naive_solver. Qed.

Lemma digit_not_at d : d < 10 → digit d ≠ Ascii.ascii_of_N 64.
Proof.
  intros Hd E. apply (f_equal Ascii.N_of_ascii) in E. rewrite N_of_digit in E by done.
  change (Ascii.N_of_ascii (Ascii.ascii_of_N 64)) with 64 in E. lia.
Qed.

Lemma prefix_digits s s' rest :
  digits s → digits s' → String.prefix (s +:+ "@") (s' +:+ "@" +:+ rest) = true → s = s'.
Proof.
  intros Hs. revert s'. induction Hs as [|d s Hd Hs IH]; intros s' Hs' E; destruct Hs' as [|d' s' Hd' Hs'].
  - done.
  - apply prefix_cons in E as [E _]. by destruct (digit_not_at d' Hd').
  - apply prefix_cons in E as [E _]. by destruct (digit_not_at d Hd).
  - rewrite !append_cons in E. apply prefix_cons in E as [-> E]. f_equal. by apply IH.
Qed.

(** Two entries start alike only if they have the same id. *)
Lemma prefix_entry i j rest :
  i ≤ u64_max → j ≤ u64_max → String.prefix (dec i +:+ "@") (dec j +:+ "@" +:+ rest) = bool_decide (i = j).
Proof.
  intros Hi Hj. case_bool_decide as E.
  - subst j. generalize (dec i). intros s. induction s as [|c s IH].
    + apply prefix_cons. by destruct rest.
    + rewrite !append_cons. by apply prefix_cons.
  - destruct (String.prefix _ _) eqn:Ep; [|done]. destruct E. apply dec_inj; [done..|].
    apply prefix_digits in Ep; [done|apply dec_digits..].
Qed.

(** ** The cluster *)

Lemma find_only {A} (f : A → bool) l x :
  x ∈ l → f x = true → (∀ y, y ∈ l → f y = true → y = x) → List.find f l = Some x.
Proof.
  induction l as [|a l IH]; intros Hin Hx Hu; [by apply not_elem_of_nil in Hin|]. simpl.
  destruct (f a) eqn:Ea; [by rewrite (Hu a) by (done || by left)|].
  apply IH; [|done|intros y Hy; apply Hu; by right]. apply elem_of_cons in Hin as [->|]; [congruence|done].
Qed.

Lemma NoDup_seqN s n : NoDup (seqN s n).
Proof. apply NoDup_fmap_2_strong; [intros x y _ _ E; lia|apply NoDup_seq]. Qed.

Lemma NoDup_fmap_on {A B} (f : A → B) l :
  (∀ x y, x ∈ l → y ∈ l → f x = f y → x = y) → NoDup l → NoDup (f <$> l).
Proof. intros Hf. by apply NoDup_fmap_2_strong. Qed.

Section Cluster.
Context {PeerId Multiaddr : Type} `{Countable PeerId, HX : HexCrate, !L2pKeys PeerId Multiaddr}.
Context (public private : N → bytes) (home_ok : N → bool) (write : N → string → WriteOutcome).
Context (base_dir chain_id bind_ip : string) (p2p_base_port rpc_base_port : N).
Context (n : N) (pid : N → PeerId).

(** What is used of key generation and of the network library. *)
Record cluster_keys : Prop := {
  ck_public i : i < n → length (public i) = 32%nat;
  ck_private i : i < n → length (private i) = 32%nat ∧ l2p_secret (private i) = true;
  ck_distinct i j : i < n → j < n → public i = public j → i = j;
  ck_peer i : i < n → l2p_peer_id (public i) = Some (pid i);
  ck_address port : port ≤ u16_max → is_Some (l2p_multiaddr (peer_address bind_ip port));
}.
Context (K : cluster_keys) (Hn : n ≤ u16_max + 1).

Notation genesis := (cluster_genesis public chain_id (seqN 0 n)).
Definition cluster_infos : list ValidatorInfo := (λ id, mkValidatorInfo id (public id) 1) <$> seqN 0 n.
Definition cluster_set : ValidatorSet :=
  mkValidatorSet cluster_infos (total cluster_infos) (build_index cluster_infos).

Lemma cluster_decoded : Forall2 decoded (gd_validators genesis) cluster_infos.
Proof.
  unfold cluster_infos. simpl. generalize (seqN 0 n). intros l.
  induction l as [|i l IH]; [constructor|]. csimpl. constructor; [|done]. split_and!; [done..|]. apply hexc_decode_encode.
Qed.

Lemma cluster_total : total cluster_infos = n.
Proof.
  assert (∀ l, total ((λ id, mkValidatorInfo id (public id) 1) <$> l) = N.of_nat (length l)) as Ht.
  { unfold total. intros l. induction l as [|i l IH]; csimpl; [done|]. rewrite IH. lia. }
  unfold cluster_infos. rewrite Ht, length_seqN. lia.
Qed.

Lemma elem_ids i : i ∈ seqN 0 n ↔ i < n.
Proof. rewrite elem_of_seqN. lia. Qed.

Lemma cluster_infos_wf : infos_wf cluster_infos.
Proof.
  split.
  - unfold cluster_infos. rewrite <- list_fmap_compose. apply NoDup_fmap_on; [done|apply NoDup_seqN].
  - unfold cluster_infos. rewrite <- list_fmap_compose. apply NoDup_fmap_on; [|apply NoDup_seqN].
    intros x y Hx%elem_ids Hy%elem_ids E. by apply (ck_distinct K).
  - apply Forall_fmap, Forall_forall. intros i Hi%elem_ids. by apply (ck_public K).
  - rewrite cluster_total. unfold u64_max, u16_max in *. lia.
  - rewrite cluster_total. intros Hne. destruct (decide (n = 0)) as [E|]; [|lia]. unfold cluster_infos in Hne. by rewrite E in Hne.
Qed.

Lemma cluster_genesis_peer j : j < n → genesis_peer genesis j = Ok (pid j).
Proof.
  intros Hj. unfold genesis_peer.
  rewrite (find_only _ _ (mkGenesisValidator j (hexc_encode (public j)) 1)).
  - simpl. rewrite hexc_decode_encode. simpl. by rewrite (ck_peer K).
  - simpl. apply list_elem_of_fmap. exists j. split; [done|by apply elem_ids].
  - apply N.eqb_refl.
  - intros y (i & -> & Hi)%list_elem_of_fmap E%N.eqb_eq. simpl in E. by subst.
Qed.

(** The entry of a validator in the lists of peers. *)
Definition entry_of (id : N) (p : string) : Prop :=
  ∃ port, port_of p2p_base_port id = Some port ∧ p = dec id +:+ "@" +:+ peer_address bind_ip port.

Lemma cluster_peers_entries l ps : cluster_peers bind_ip p2p_base_port l = Some ps → Forall2 entry_of l ps.
Proof.
  revert ps. induction l as [|i l IH]; intros ps E; simpl in E; [by injection E as <-|].
  apply bind_Some in E as (port & Hp & E). apply bind_Some in E as (rest & Hr & [= <-]).
  constructor; [by exists port|by apply IH].
Qed.

Lemma u16_u64 i : i < n → i ≤ u64_max.
Proof. unfold u16_max, u64_max in *. lia. Qed.

Lemma entry_parses j p : j < n → entry_of j p → ∃ addr, parse_peer genesis p = Ok (j, pid j, addr).
Proof.
  intros Hj (port & Hp & ->).
  assert (port ≤ u16_max) as Hport by (unfold port_of in Hp; case_match; [|done]; apply N.leb_le in H0; congruence).
  destruct (ck_address K port Hport) as [addr Ha]. exists addr.
  unfold parse_peer. rewrite split_digits by apply dec_digits. simpl. rewrite parse_dec by by apply u16_u64. simpl.
  rewrite Ha. simpl. by rewrite cluster_genesis_peer.
Qed.

(** A node's list is that of the others. *)
Lemma other_peers i l ps :
  i < n → (∀ j, j ∈ l → j < n) → Forall2 entry_of l ps →
  Forall2 entry_of (filter (λ j, j ≠ i) l) (filter (λ p, negb (String.prefix (dec i +:+ "@") p)) ps).
Proof.
  intros Hi Hl Hf. induction Hf as [|j p l ps Hjp Hf IH]; [constructor|].
  assert (String.prefix (dec i +:+ "@") p = bool_decide (i = j)) as E.
  { destruct Hjp as (port & _ & ->). apply prefix_entry; apply u16_u64; [done|apply Hl; by left]. }
  specialize (IH (λ k Hk, Hl k (list_elem_of_further _ _ _ Hk))). rewrite !filter_cons, E.
  destruct (decide (j ≠ i)) as [Hne|He]; [|apply dec_stable in He as ->].
  - rewrite bool_decide_eq_false_2 by done. by constructor.
  - by rewrite bool_decide_eq_true_2.
Qed.

(** The configuration of a node. *)
Definition node_config_of (peers : list string) (i p2p rpc : N) : NodeConfig :=
  generate_config p2p rpc (filter (λ p, negb (String.prefix (dec i +:+ "@") p)) peers) bind_ip.

(** What the home directory of a node holds in the end. *)
Definition home_ready (g : GenesisDoc) (peers : list string) (i : N) (entry : ValidatorEntry)
    (fs : gmap string NodeFile) : Prop :=
  ∃ p2p rpc, port_of p2p_base_port i = Some p2p ∧ port_of rpc_base_port i = Some rpc ∧
    ve_id entry = i ∧ ve_p2p_port entry = p2p ∧ ve_rpc_port entry = rpc ∧
    load_files fs = Some (node_config_of peers i p2p rpc,
      mkPrivValidatorKey i (hexc_encode (public i)) (hexc_encode (private i)),
      mkNodeKey (hexc_encode (public i)) (hexc_encode (private i)), g).

Lemma init_validator_Ok g peers i fs entry fs' :
  init_validator public private home_ok write base_dir bind_ip p2p_base_port rpc_base_port g peers i fs = (Ok entry, fs') →
  home_ready g peers i entry fs'.
Proof.
  unfold init_validator. destruct (home_ok i); cbn [negb]; [|done].
  destruct (save_files _ _ fs) as [[[]|e|] fs1] eqn:E1; [|done..].
  destruct (port_of p2p_base_port i) as [p2p|] eqn:Ep; [|done].
  destruct (port_of rpc_base_port i) as [rpc|] eqn:Er; [|done].
  destruct (save_files _ [_] fs1) as [[[]|e|] fs2] eqn:E2; [|done..]. intros [= <- <-].
  exists p2p, rpc. split_and!; try done. unfold load_files.
  assert (∀ path, path ≠ CONFIG_PATH → fs2 !! path = fs1 !! path) as Hfs.
  { intros path Hne. pose proof (save_files_other (write i) [(CONFIG_PATH, FileConfig (node_config_of peers i p2p rpc))] fs1 path) as Ho.
    unfold node_config_of in Ho. rewrite E2 in Ho. apply Ho. csimpl. by intros ?%list_elem_of_singleton. }
  eassert (NoDup _) as N1; [|pose proof (save_files_Ok _ _ _ _ N1 E1) as H1]; [by apply (bool_decide_unpack _)|].
  eassert (NoDup _) as N2; [|pose proof (save_files_Ok _ _ _ _ N2 E2) as H2]; [by apply (bool_decide_unpack _)|].
  rewrite (H2 CONFIG_PATH _ ltac:(by left)), !Hfs by done.
  rewrite (H1 PRIV_KEY_PATH _ ltac:(by left)), (H1 NODE_KEY_PATH _ ltac:(by right; left)),
    (H1 GENESIS_PATH _ ltac:(by right; right; left)). done.
Qed.

Lemma init_validators_Ok g peers l : ∀ homes entries homes',
  NoDup l →
  init_validators public private home_ok write base_dir bind_ip p2p_base_port rpc_base_port g peers l homes = (Ok entries, homes') →
  Forall2 (λ i entry, ∃ fs, homes' !! i = Some fs ∧ home_ready g peers i entry fs) l entries ∧
  (∀ i, i ∉ l → homes' !! i = homes !! i).
Proof.
  induction l as [|i l IH]; intros homes entries homes' Hnd E; cbn [init_validators] in E.
  { injection E as <- <-. done. }
  apply NoDup_cons in Hnd as [Hi Hnd].
  destruct (init_validator _ _ _ _ _ _ _ _ _ _ _ _) as [[entry|e|] fs] eqn:Ev; [|done..].
  destruct (init_validators _ _ _ _ _ _ _ _ _ _ l _) as [[es|e|] hs] eqn:Es; [|done..]. injection E as <- <-.
  apply IH in Es as [Hf Ho]; [|done]. split.
  - constructor; [|done]. exists fs. rewrite Ho, lookup_insert_eq by done. split; [done|]. by eapply init_validator_Ok.
  - intros j [Hj1 Hj2]%not_elem_of_cons. rewrite Ho by done. by apply lookup_insert_ne.
Qed.

(** The identity of each node. *)
Lemma cluster_identity i config :
  i < n → n ≠ 0 → nm_mode (cfg_node config) = Validator → cfg_proxy_app config ≠ "" →
  identity config (mkPrivValidatorKey i (hexc_encode (public i)) (hexc_encode (private i)))
    (mkNodeKey (hexc_encode (public i)) (hexc_encode (private i))) genesis (private i) cluster_set i.
Proof.
  intros Hi Hz Hm Ha. destruct (ck_private K i Hi) as [Hl Hs].
  pose proof (hexc_decode_encode (private i)) as Hd. split; [done|done| | | |].
  - exists (private i). done.
  - exists cluster_infos. split_and!; [apply cluster_decoded| |apply cluster_infos_wf|done].
    intros E. pose proof cluster_total as Ht. rewrite E in Ht. by destruct Hz.
  - rewrite <- (decoded_ids _ _ cluster_decoded). unfold cluster_infos. rewrite <- list_fmap_compose.
    intros (j & E & Hj%elem_ids)%list_elem_of_fmap. simpl in E.
    unfold SENTINEL, u16_max, u64_max in *. lia.
  - rewrite Hm. exists (mkGenesisValidator i (hexc_encode (public i)) 1). split; [|done]. simpl. apply list_elem_of_fmap. exists i. split; [done|by apply elem_ids].
Qed.

Lemma cluster_identify_of i config :
  identify config (mkPrivValidatorKey i (hexc_encode (public i)) (hexc_encode (private i)))
    (mkNodeKey (hexc_encode (public i)) (hexc_encode (private i))) genesis = Ok (private i, cluster_set, i) →
  nm_mode (cfg_node config) = Validator →
  cluster_identify (mkPrivValidatorKey i (hexc_encode (public i)) (hexc_encode (private i)))
    (mkNodeKey (hexc_encode (public i)) (hexc_encode (private i))) genesis = Ok (private i, cluster_set, i).
Proof.
  unfold identify, cluster_identify. intros Hid Hm. rewrite Hm in Hid. destruct (_ && _); [done|].
  apply res_bind_Ok in Hid as (sd & -> & Hid). apply res_bind_Ok in Hid as (ns & -> & Hid).
  apply res_bind_Ok in Hid as (vs & -> & Hid). apply res_bind_Ok in Hid as (u & _ & Hid).
  apply res_bind_Ok in Hid as (v & Hv & [= -> -> ->]). unfold find_identity in Hv.
  destruct (existsb _ _); [done|]. simpl in Hv |- *. destruct (List.find _ _) as [gv|]; [|done]. simpl.
  by injection Hv as ->.
Qed.

(** The peers of a node are all the others. *)
Lemma cluster_node_peers peers i p2p rpc :
  i < n → cluster_peers bind_ip p2p_base_port (seqN 0 n) = Some peers →
  let config := node_config_of peers i p2p rpc in
  ∃ m known, parse_persistent_peers (p2p_persistent_peers (cfg_p2p config)) genesis = Ok (m, known) ∧
    sync_peers config genesis = (λ j, (j, pid j)) <$> filter (λ j, j ≠ i) (seqN 0 n).
Proof.
  intros Hi Hp config. apply cluster_peers_entries in Hp.
  apply (other_peers i) in Hp; [|done|intros j; apply elem_ids].
  assert (∀ j, j ∈ filter (λ j, j ≠ i) (seqN 0 n) → j < n) as Hj
    by (intros j [_ Hj]%list_elem_of_filter; by apply elem_ids).
  unfold parse_persistent_peers, sync_peers. simpl. revert Hp Hj.
  generalize (filter (λ j, j ≠ i) (seqN 0 n)) (filter (λ p, negb (String.prefix (dec i +:+ "@") p)) peers).
  intros l ps Hp Hj.
  assert (∃ xs, Forall2 (λ entry x, parse_peer genesis entry = Ok x) ps xs ∧
    omap (sync_peer genesis) ps = (λ j, (j, pid j)) <$> l) as (xs & Hxs & Hs).
  { induction Hp as [|j p l ps He Hp IH]; [by exists []|].
    destruct IH as (xs & Hxs & Hs); [intros k Hk; apply Hj; by right|].
    destruct (entry_parses j p) as [addr Ha]; [apply Hj; by left|done|].
    exists ((j, pid j, addr) :: xs). split; [by constructor|]. csimpl.
    by rewrite (sync_peer_parse _ _ _ _ _ Ha), Hs. }
  eexists _, _. split; [|done]. apply parse_peers_Ok. exists xs. done.
Qed.
End Cluster.

(** C39: an initialised cluster can run.  When the initialisation succeeds with
    distinct well-formed keys, every node finds its files; it starts, as the
    embedded node or as a validator node with an application, under the id of its
    directory, with its own key and the same set of validators, each of power
    one; its persistent peers resolve to all the other validators, under the peer
    ids of their node keys; and its ports are its own. *)
Theorem init_cluster_correct {PeerId Multiaddr : Type} `{Countable PeerId, HX : HexCrate, !L2pKeys PeerId Multiaddr}
    public private base_dir_ok home_ok write state_write base_dir chain_id bind_ip p2p_base_port rpc_base_port
    n (pid : N → PeerId) d d' :
  cluster_keys public private bind_ip n pid →
  init_cluster public private base_dir_ok home_ok write state_write base_dir chain_id bind_ip
    p2p_base_port rpc_base_port n d = (Ok (), d') →
  let g := cluster_genesis public chain_id (seqN 0 n) in
  let vs := cluster_set public n in
  vs_wf vs ∧ vs_total_power vs = n ∧
  ∃ state, cd_state d' = Some (Some state) ∧ ve_id <$> cl_validators state = seqN 0 n ∧
  ∀ i, i < n → ∃ config key node_key m known,
    (cd_homes d' !! i) ≫= load_files = Some (config, key, node_key, g) ∧
    cluster_identify key node_key g = Ok (private i, vs, i) ∧
    (∀ app, app ≠ "" → identify (override (Some app) None None config) key node_key g = Ok (private i, vs, i)) ∧
    parse_persistent_peers (p2p_persistent_peers (cfg_p2p config)) g = Ok (m, known) ∧
    sync_peers config g = (λ j, (j, pid j)) <$> filter (λ j, j ≠ i) (seqN 0 n) ∧
    (hexc_decode (nk_public_key node_key) ≫= l2p_peer_id) = Some (pid i) ∧
    ∃ entry, cl_validators state !! N.to_nat i = Some entry ∧
      ve_p2p_port entry = p2p_base_port + i ∧ ve_rpc_port entry = rpc_base_port + i ∧
      ve_p2p_port entry ≤ u16_max ∧ ve_rpc_port entry ≤ u16_max.
Proof.
  intros K. unfold init_cluster.
  destruct (N.eqb_spec n 0) as [|Hz]; [done|]. destruct (N.ltb_spec (u16_max + 1) n) as [|Hn]; [done|]. cbn [orb].
  case_bool_decide; [done|]. destruct base_dir_ok; cbn [negb]; [|done].
  destruct (cluster_peers bind_ip p2p_base_port (seqN 0 n)) as [peers|] eqn:Ep; [|done].
  destruct (init_validators _ _ _ _ _ _ _ _ _ _ _ _) as [[entries|e|] homes] eqn:Ev; [|done..].
  destruct state_write; [|done..]. intros [= <-]. cbv zeta.
  apply init_validators_Ok in Ev as [Hf _]; [|apply NoDup_seqN].
  split; [by constructor; [eapply cluster_infos_wf|..]|]. split; [by apply cluster_total|].
  eexists. split; [done|]. split.
  { simpl. clear -Hf. induction Hf as [|i e l es (fs & _ & p & r & _ & _ & E & _) _ IH]; csimpl; [done|]. by rewrite E, IH. }
  intros i Hi. destruct (Forall2_lookup_l _ _ _ (N.to_nat i) i Hf) as (entry & He & fs & Hfs & p2p & rpc & Hp & Hr & _ & Ep2 & Er & Hl).
  { unfold seqN. rewrite list_lookup_fmap, lookup_seq_lt by lia. simpl. f_equal. lia. }
  assert (∀ config, nm_mode (cfg_node config) = Validator → cfg_proxy_app config ≠ "" →
    identify config (mkPrivValidatorKey i (hexc_encode (public i)) (hexc_encode (private i)))
      (mkNodeKey (hexc_encode (public i)) (hexc_encode (private i))) (cluster_genesis public chain_id (seqN 0 n)) =
      Ok (private i, cluster_set public n, i)) as Hid.
  { intros config Hm Ha. apply identify_Ok. by eapply cluster_identity. }
  destruct (cluster_node_peers public private chain_id bind_ip p2p_base_port n pid K Hn peers i p2p rpc Hi Ep) as (m & known & Hm & Hs).
  exists (node_config_of bind_ip peers i p2p rpc), (mkPrivValidatorKey i (hexc_encode (public i)) (hexc_encode (private i))),
    (mkNodeKey (hexc_encode (public i)) (hexc_encode (private i))), m, known.
  assert (∀ base port, port_of base i = Some port → port = base + i ∧ port ≤ u16_max) as Hport.
  { intros base port. unfold port_of. rewrite N.mod_small by lia.
    destruct (N.leb_spec (base + i) u16_max); [|done]. intros [= <-]. done. }
  simpl. rewrite Hfs. split_and!; [exact Hl| | |exact Hm|exact Hs| |].
  - eapply (cluster_identify_of public private chain_id n i
      (override (Some "app") None None (node_config_of bind_ip peers i p2p rpc))); [by apply Hid|done].
  - intros app Happ. by apply Hid.
  - rewrite hexc_decode_encode. by apply (ck_peer _ _ _ _ _ K).
  - exists entry. apply Hport in Hp as [-> ?], Hr as [-> ?]. by rewrite Ep2, Er.
Qed.

(** ** The embedded node after a restart *)

(** The restored state of the embedded node knows no vote: a vote for another
    block that the full node refuses is given. *)
Lemma cluster_restore_forgets_votes `{Blake3} vid vs chain_id view h h' :
  h ≠ h' →
  let p := save_last_vote ∅ TVote view h in
  (check_and_record_vote (restore_state vid vs chain_id p) TVote view h').2 = false ∧
  (check_and_record_vote (cluster_restore_state vid vs chain_id p) TVote view h').2 = true.
Proof.
  intros Hne p. split; [|done]. unfold check_and_record_vote. rewrite restore_last_vote.
  unfold load_last_vote, p, save_last_vote. rewrite lookup_insert_eq. rewrite N.ltb_irrefl, N.eqb_refl.
  by apply bool_decide_eq_false_2.
Qed.

(** ** A concrete cluster *)

#[local] Existing Instance rpc_hex_crate.
#[local] Existing Instance sample_keys.

(** The keys of the three validators differ in the first byte. *)
Definition key_of (i : N) : bytes := (match i with 0 => x00 | 1 => x01 | _ => x02 end) :: zeros 31.

Definition empty_dir : ClusterDir := mkClusterDir None ∅.

Definition sample_init : res cluster_error unit * ClusterDir :=
  init_cluster key_of key_of true (λ _, true) (λ _ _, WriteDone) WriteDone "base" "chain" "127.0.0.1" 20000 21000 3 empty_dir.

Lemma sample_init_Ok : sample_init.1 = Ok ().
Proof. vm_compute. reflexivity. Qed.

Lemma sample_cluster_keys : cluster_keys key_of key_of "127.0.0.1" 3 key_of.
Proof.
  split; try done; try (intros; by eexists).
  intros i j Hi Hj. assert (i = 0 ∨ i = 1 ∨ i = 2) as [->|[->| ->]] by lia;
    assert (j = 0 ∨ j = 1 ∨ j = 2) as [->|[->| ->]] by lia; done.
Qed.

Lemma init_cluster_correct_witness :
  ∃ config key node_key,
    (cd_homes sample_init.2 !! 1) ≫= load_files = Some (config, key, node_key, cluster_genesis key_of "chain" (seqN 0 3)) ∧
    sync_peers config (cluster_genesis key_of "chain" (seqN 0 3)) = [(0, key_of 0); (2, key_of 2)].
Proof.
  destruct (init_cluster_correct key_of key_of true (λ _, true) (λ _ _, WriteDone) WriteDone "base" "chain" "127.0.0.1"
    20000 21000 3 key_of empty_dir sample_init.2) as (_ & _ & state & _ & _ & Hi).
  - exact sample_cluster_keys.
  - fold sample_init. rewrite <- sample_init_Ok. apply surjective_pairing.
  - destruct (Hi 1) as (config & key & node_key & m & known & Hl & _ & _ & _ & Hs & _); [reflexivity|].
    exists config, key, node_key. split; [exact Hl|exact Hs].
Defined.
