(* ===== verification/GoSdk.v ===== *)
(** * The Go SDK ([sdk/go])

    A Go application is driven over the same socket as a Rust one: the server
    reads frames, unmarshals requests, dispatches them to the application and
    writes the responses.  The generated marshalling code is a parameter that
    speaks the wire format of the Rust side. *)

From S2P Require Import Prelude Types ValidatorSet World Sync Abci AbciSamples AbciSafety Samples.

(** The generated code for the messages of [abci.proto], against [prost]:
    both implement the same wire format.  Marshalling may fail. *)
Class GoProto `{Prost} : Type := {
  go_unmarshal_request : bytes → option (option PbRequest);
  go_marshal_response : option PbResponse → option bytes;
  go_unmarshal_encoded : ∀ r, go_unmarshal_request (encode_request_to_vec r) = Some r;
  go_marshalled_decode : ∀ r bs, go_marshal_response r = Some bs → response_decode bs = Some r;
}.

(** ** The application interface ([abci.go]) *)

Record QueryResult : Type := mkQueryResult { gq_data : bytes; gq_proof : bytes; gq_height : N }.

(** [Application]: a pointer may be nil, an [error] is its text. *)
Class GoApplication (A : Type) : Type := {
  go_Info : A → option PbAppInfo * A;
  go_InitChain : A → bytes → (bytes * option string) * A;
  go_CreatePayload : A → PbBlockContext → bytes * A;
  go_ValidateBlock : A → option PbBlock → option PbBlockContext → bool * A;
  go_ValidateTx : A → bytes → option PbTxContext → (bool * N * N) * A;
  go_ExecuteBlock : A → list bytes → option PbBlockContext → (option PbEndBlockResponse * option string) * A;
  go_OnCommit : A → option PbBlock → option PbBlockContext → option string * A;
  go_OnEvidence : A → PbEquivocationProof → option string * A;
  go_OnOfflineValidators : A → list PbOfflineEvidence → option string * A;
  go_ExtendVote : A → option PbBlock → option PbBlockContext → (bytes * bool) * A;
  go_VerifyVoteExtension : A → bytes → bytes → N → bool * A;
  go_Query : A → string → bytes → (option QueryResult * option string) * A;
  go_ListSnapshots : A → list PbSnapshotInfo * A;
  go_LoadSnapshotChunk : A → N → N → bytes * A;
  go_OfferSnapshot : A → option PbSnapshotInfo → N * A;
  go_ApplySnapshotChunk : A → bytes → N → N * A;
  go_TracksAppHash : A → bool * A;
}.

Inductive BaseApplication : Type := Base.

Definition genesisHash : bytes := zeros 32.
Definition NewEndBlockResponse : PbEndBlockResponse := mkPbEndBlockResponse [] [] genesisHash.
Definition base_Info : PbAppInfo := mkPbAppInfo 0 genesisHash.

#[global] Instance base_application : GoApplication BaseApplication := {|
  go_Info a := (Some base_Info, a);
  go_InitChain a _ := ((genesisHash, None), a);
  go_CreatePayload a _ := ([], a);
  go_ValidateBlock a _ _ := (true, a);
  go_ValidateTx a _ _ := ((true, 0, 0), a);
  go_ExecuteBlock a _ _ := ((Some NewEndBlockResponse, None), a);
  go_OnCommit a _ _ := (None, a);
  go_OnEvidence a _ := (None, a);
  go_OnOfflineValidators a _ := (None, a);
  go_ExtendVote a _ _ := (([], false), a);
  go_VerifyVoteExtension a _ _ _ := (true, a);
  go_Query a _ _ := ((Some (mkQueryResult [] [] 0), None), a);
  go_ListSnapshots a := ([], a);
  go_LoadSnapshotChunk a _ _ := ([], a);
  go_OfferSnapshot a _ := (1, a);
  go_ApplySnapshotChunk a _ _ := (2, a);
  go_TracksAppHash a := (true, a);
|}.

(** ** The server ([server.go]) *)

Definition encodeAppError (err : option string) : string :=
  match err with
  | None => ""
  | Some message => if String.eqb message "" then "unspecified application error" else message
  end.

Section Server.
Context `{GoProto} {A : Type} `{!GoApplication A}.

Definition reply {X} (f : X → PbResponse) (r : X * A) : PbResponse * A := (f r.1, r.2).

(** The switch on the request; the lock is held throughout. *)
Definition go_dispatch_request (a : A) (req : PbRequest) : PbResponse * A :=
  match req with
  | PbReqInfo => reply (λ info, PbRespInfo (Some (default base_Info info))) (go_Info a)
  | PbReqInitChain app_state =>
      reply (λ '(app_hash, err),
        match err with
        | Some _ => PbRespInitChain [] (encodeAppError err)
        | None => PbRespInitChain app_hash ""
        end) (go_InitChain a app_state)
  | PbReqCreatePayload ctx => reply PbRespCreatePayload (go_CreatePayload a ctx)
  | PbReqValidateBlock block ctx => reply PbRespValidateBlock (go_ValidateBlock a block ctx)
  | PbReqValidateTx tx ctx =>
      reply (λ '(ok, priority, gas_wanted), PbRespValidateTx ok priority gas_wanted) (go_ValidateTx a tx ctx)
  | PbReqExecuteBlock txs ctx =>
      reply (λ '(result, err),
        match err with
        | Some _ => PbRespExecuteBlock None (encodeAppError err)
        | None => PbRespExecuteBlock result ""
        end) (go_ExecuteBlock a txs ctx)
  | PbReqOnCommit block ctx => reply (λ err, PbRespOnCommit (encodeAppError err)) (go_OnCommit a block ctx)
  | PbReqOnEvidence proof => reply (λ err, PbRespOnEvidence (encodeAppError err)) (go_OnEvidence a proof)
  | PbReqOnOfflineValidators offline =>
      reply (λ err, PbRespOnOfflineValidators (encodeAppError err)) (go_OnOfflineValidators a offline)
  | PbReqExtendVote block ctx =>
      reply (λ '(extension, ok), PbRespExtendVote extension ok) (go_ExtendVote a block ctx)
  | PbReqVerifyVoteExtension extension block_hash validator =>
      reply PbRespVerifyVoteExtension (go_VerifyVoteExtension a extension block_hash validator)
  | PbReqQuery path data =>
      reply (λ '(result, err),
        match err, result with
        | Some _, _ => PbRespQuery [] (encodeAppError err) [] 0
        | None, Some q => PbRespQuery (gq_data q) "" (gq_proof q) (gq_height q)
        | None, None => PbRespQuery [] "" [] 0
        end) (go_Query a path data)
  | PbReqListSnapshots => reply PbRespListSnapshots (go_ListSnapshots a)
  | PbReqLoadSnapshotChunk height chunk_index => reply PbRespLoadSnapshotChunk (go_LoadSnapshotChunk a height chunk_index)
  | PbReqOfferSnapshot snapshot => reply PbRespOfferSnapshot (go_OfferSnapshot a snapshot)
  | PbReqApplySnapshotChunk chunk chunk_index =>
      reply PbRespApplySnapshotChunk (go_ApplySnapshotChunk a chunk chunk_index)
  | PbReqTracksAppHash => reply PbRespTracksAppHash (go_TracksAppHash a)
  end.

(** A request without content gets an empty response. *)
Definition go_dispatch (a : A) (req : option PbRequest) : option PbResponse * A :=
  match req with
  | Some req => let '(resp, a) := go_dispatch_request a req in (Some resp, a)
  | None => (None, a)
  end.

(** *** Frames ([frame.go]) *)

Definition maxFrameSize : N := 64 * 1024 * 1024.

Definition WriteFrame (payload : bytes) : option bytes :=
  if maxFrameSize <? N.of_nat (length payload) then None
  else Some (u32_le (N.of_nat (length payload) mod (u32_max + 1)) ++ payload).

(** [io.ReadFull]: the first [n] bytes and the rest, when they are there. *)
Definition ReadFull (n : nat) (stream : bytes) : option (bytes * bytes) :=
  if (length stream <? n)%nat then None else Some (take n stream, drop n stream).

Definition ReadFrame (stream : bytes) : option (bytes * bytes) :=
  '(lenBuf, stream) ← ReadFull 4 stream;
  let len := le_u32 lenBuf in
  if maxFrameSize <? len then None
  else if N.of_nat (length stream) <? len then None
  else ReadFull (N.to_nat len) stream.

(** One turn of the loop of [handleConn]; [None] ends it. *)
Definition go_serve_frame (a : A) (frame : bytes) : option bytes * A :=
  match go_unmarshal_request frame with
  | None => (None, a)
  | Some req =>
      let '(resp, a) := go_dispatch a req in
      (respBytes ← go_marshal_response resp; WriteFrame respBytes, a)
  end.

(** [handleConn] on what the client sends; a turn consumes at least four bytes,
    so the length of the stream is fuel enough. *)
Fixpoint handleConn (fuel : nat) (a : A) (stream : bytes) : bytes * A :=
  match fuel with
  | O => ([], a)
  | S fuel =>
      match ReadFrame stream with
      | None => ([], a)
      | Some (frame, rest) =>
          match go_serve_frame a frame with
          | (None, a) => ([], a)
          | (Some out, a) => let '(outs, a) := handleConn fuel a rest in (out ++ outs, a)
          end
      end
  end.
End Server.

(** ** A Go application that mirrors a Rust one *)

Definition err_of {X} (r : app_result X) : option string := match r with inl _ => None | inr msg => Some msg end.

Section Mirror.
Context {A B : Type} `{!GoApplication A, !ApplicationHandler B} (R : A → B → Prop).

(** The results correspond and the states stay related. *)
Definition matches {X Y} (C : X → Y → Prop) (x : X * A) (y : Y * B) : Prop := C x.1 y.1 ∧ R x.2 y.2.

(** What each method of the interface promises. *)
Record mirrors : Prop := {
  mi_info a h : R a h → matches (λ x y, default base_Info x = app_info_to_proto y) (go_Info a) (h_info h);
  mi_init_chain a h s : R a h →
    matches (λ x y, x.2 = err_of y ∧ ∀ hash, y = inl hash → x.1 = hash) (go_InitChain a s) (h_init_chain h s);
  mi_create_payload a h ctx : R a h →
    matches eq (go_CreatePayload a (context_to_pb ctx)) (h_create_payload h ctx);
  mi_validate_block a h b ctx : R a h →
    matches eq (go_ValidateBlock a (Some (block_to_pb b)) (Some (context_to_pb ctx))) (h_validate_block h b ctx);
  mi_validate_tx a h tx ctx : R a h →
    matches eq (go_ValidateTx a tx (tx_context_to_pb <$> ctx)) (h_validate_tx h tx ctx);
  mi_execute_block a h txs ctx : R a h →
    matches (λ x y, x.2 = err_of y ∧ ∀ r, y = inl r → x.1 = Some (end_block_to_pb r))
      (go_ExecuteBlock a txs (Some (context_to_pb ctx))) (h_execute_block h txs ctx);
  mi_on_commit a h b ctx : R a h →
    matches (λ x y, x = err_of y) (go_OnCommit a (Some (block_to_pb b)) (Some (context_to_pb ctx))) (h_on_commit h b ctx);
  mi_on_evidence a h p : R a h → matches (λ x y, x = err_of y) (go_OnEvidence a (proof_to_pb p)) (h_on_evidence h p);
  mi_on_offline a h l : R a h →
    matches (λ x y, x = err_of y) (go_OnOfflineValidators a (offline_evidence_to_proto <$> l)) (h_on_offline_validators h l);
  mi_extend_vote a h b ctx : R a h →
    matches (λ x y, x = (default [] y, bool_decide (is_Some y)))
      (go_ExtendVote a (Some (block_to_pb b)) (Some (context_to_pb ctx))) (h_extend_vote h b ctx);
  mi_verify_extension a h e hash v : R a h →
    matches eq (go_VerifyVoteExtension a e hash v) (h_verify_vote_extension h e hash v);
  mi_query a h path data : R a h →
    matches (λ x y, x.2 = err_of y ∧
        ∀ q, y = inl q → default (mkQueryResult [] [] 0) x.1 = mkQueryResult (qr_data q) (default [] (qr_proof q)) (qr_height q))
      (go_Query a path data) (h_query h path data);
  mi_list_snapshots a h : R a h →
    matches (λ x y, x = snapshot_to_pb <$> y) (go_ListSnapshots a) (h_list_snapshots h);
  mi_load_chunk a h height i : R a h → matches eq (go_LoadSnapshotChunk a height i) (h_load_snapshot_chunk h height i);
  mi_offer_snapshot a h s : R a h →
    matches (λ x y, x = snapshot_offer_to_code y) (go_OfferSnapshot a (Some (snapshot_to_pb s))) (h_offer_snapshot h s);
  mi_apply_chunk a h c i : R a h →
    matches (λ x y, x = chunk_apply_to_code y) (go_ApplySnapshotChunk a c i) (h_apply_snapshot_chunk h c i);
  mi_tracks a h : R a h → matches eq (go_TracksAppHash a) (h_tracks_app_hash h);
}.

Lemma encodeAppError_of {X} (r : app_result X) : encodeAppError (err_of r) = encode_app_error r.
Proof. by destruct r. Qed.

Context (M : mirrors).

(** The two servers give the same response. *)
Lemma go_dispatch_mirrors a h req :
  R a h →
  (go_dispatch_request a (request_to_pb req)).1 = response_to_pb (dispatch h req).1 ∧
  R (go_dispatch_request a (request_to_pb req)).2 (dispatch h req).2.
Proof.
  intros HR. destruct req; cbn [request_to_pb go_dispatch_request dispatch]; unfold reply, answer; cbn [fst snd response_to_pb].
  - destruct (mi_info M a h HR) as [-> ?]. done.
  - destruct (mi_init_chain M a h app_state HR) as [[E1 E2] ?]. split; [|done].
    destruct (go_InitChain a app_state) as [[hash err] a'], (h_init_chain h app_state) as [[y|y] h']; simpl in *; subst err; [|done].
    by rewrite (E2 y).
  - destruct (mi_create_payload M a h ctx HR) as [-> ?]. done.
  - destruct (mi_validate_block M a h block ctx HR) as [-> ?]. done.
  - destruct (mi_validate_tx M a h tx ctx HR) as [-> ?]. split; [|done].
    by destruct (h_validate_tx h tx ctx) as [[[]] ?].
  - destruct (mi_execute_block M a h txs ctx HR) as [[E1 E2] ?]. split; [|done].
    destruct (go_ExecuteBlock _ _ _) as [[r err] a'], (h_execute_block h txs ctx) as [[y|y] h']; simpl in *; subst err; [|done].
    by rewrite (E2 y).
  - destruct (mi_on_commit M a h block ctx HR) as [-> ?]. by rewrite encodeAppError_of.
  - destruct (mi_on_evidence M a h proof HR) as [-> ?]. by rewrite encodeAppError_of.
  - destruct (mi_on_offline M a h offline HR) as [-> ?]. by rewrite encodeAppError_of.
  - destruct (mi_extend_vote M a h block ctx HR) as [-> ?]. done.
  - destruct (mi_verify_extension M a h extension block_hash validator HR) as [-> ?]. done.
  - destruct (mi_query M a h path data HR) as [[E1 E2] ?]. split; [|done].
    destruct (go_Query _ _ _) as [[r err] a'], (h_query h path data) as [[q|y] h']; simpl in *; subst err; [|by destruct r].
    specialize (E2 q eq_refl). destruct r as [r|]; simpl in E2; [by subst r|]. by injection E2 as <- <- <-.
  - destruct (mi_list_snapshots M a h HR) as [-> ?]. done.
  - destruct (mi_load_chunk M a h height chunk_index HR) as [-> ?]. done.
  - destruct (mi_offer_snapshot M a h snapshot HR) as [-> ?]. done.
  - destruct (mi_apply_chunk M a h chunk chunk_index HR) as [-> ?]. done.
  - destruct (mi_tracks M a h HR) as [-> ?]. done.
Qed.
End Mirror.

(** ** The stream *)

Lemma WriteFrame_write_frame p : WriteFrame p = write_frame p.
Proof. done. Qed.

Lemma ReadFrame_read_frame s : ReadFrame s = read_frame s.
Proof.
  unfold ReadFrame, read_frame, ReadFull. destruct (length s <? 4)%nat; [done|]. cbn [mbind option_bind].
  change maxFrameSize with MAX_FRAME_SIZE. destruct (MAX_FRAME_SIZE <? le_u32 (take 4 s)); [done|].
  destruct (N.ltb_spec (N.of_nat (length (drop 4 s))) (le_u32 (take 4 s))) as [Hl|Hl]; [done|].
  destruct (Nat.ltb_spec (length (drop 4 s)) (N.to_nat (le_u32 (take 4 s)))); [lia|done].
Qed.

Section Stream.
Context `{GoProto} {A B : Type} `{!GoApplication A, !ApplicationHandler B} (R : A → B → Prop) (M : mirrors R).

(** The requests as the client writes them. *)
Fixpoint request_stream (reqs : list Request) : option bytes :=
  match reqs with
  | [] => Some []
  | req :: reqs => frame ← write_frame (encode_request req); rest ← request_stream reqs; Some (frame ++ rest)
  end.

(** What the client reads back. *)
Fixpoint replies (fuel : nat) (stream : bytes) : list (res DecodeError Response) :=
  match fuel with
  | O => []
  | S fuel =>
      match read_frame stream with
      | None => []
      | Some (frame, rest) => decode_response frame :: replies fuel rest
      end
  end.

(** The responses of the Rust application, and its state at the end. *)
Fixpoint dispatch_all (h : B) (reqs : list Request) : list Response * B :=
  match reqs with
  | [] => ([], h)
  | req :: reqs =>
      let '(resp, h) := dispatch h req in
      let '(resps, h) := dispatch_all h reqs in (resp :: resps, h)
  end.

(** Both servers can send a response. *)
Definition fits (resp : Response) : Prop :=
  response_ok resp ∧ is_Some (write_frame (encode_response resp)) ∧
  is_Some (go_marshal_response (Some (response_to_pb resp)) ≫= write_frame).

Lemma go_serve_request a h req :
  R a h → request_ok req → fits (dispatch h req).1 →
  ∃ bs frame a', go_serve_frame a (encode_request req) = (Some frame, a') ∧ R a' (dispatch h req).2 ∧
    write_frame bs = Some frame ∧ decode_response bs = Ok (wire (dispatch h req).1).
Proof.
  intros HR Hok (Hresp & _ & [frame Hf]). unfold go_serve_frame, encode_request. rewrite go_unmarshal_encoded.
  cbn [go_dispatch]. destruct (go_dispatch_mirrors R M a h req HR) as [E1 E2].
  destruct (go_dispatch_request a (request_to_pb req)) as [resp a']. cbn [fst snd] in *. subst resp.
  destruct (go_marshal_response (Some (response_to_pb (dispatch h req).1))) as [bs|] eqn:Eb; [|done].
  exists bs, frame, a'. split; [simpl in *; by rewrite WriteFrame_write_frame, Hf|]. split; [done|]. split; [done|].
  rewrite <- (decode_encode_response _ Hresp). unfold decode_response, encode_response.
  by rewrite (go_marshalled_decode _ _ Eb), response_decode_encode.
Qed.

Lemma serve_request h req :
  request_ok req → fits (dispatch h req).1 →
  ∃ bs frame, serve_frame h (encode_request req) = (Some frame, (dispatch h req).2) ∧
    write_frame bs = Some frame ∧ decode_response bs = Ok (wire (dispatch h req).1).
Proof.
  intros Hok (Hresp & [frame Hf] & _). exists (encode_response (dispatch h req).1), frame.
  rewrite serve_frame_request, Hf by done. split_and!; [done|done|]. by apply decode_encode_response.
Qed.

Lemma write_frame_length bs frame : write_frame bs = Some frame → (4 ≤ length frame)%nat.
Proof. intros [_ ->]%write_frame_Some. rewrite length_app, length_u32_le. lia. Qed.

Lemma replies_cons n bs frame rest :
  write_frame bs = Some frame → replies (S n) (frame ++ rest) = decode_response bs :: replies n rest.
Proof. intros Hf. cbn [replies]. by rewrite (read_write_frame _ _ _ Hf). Qed.

Lemma handleConn_cons n a p frame rest out a' :
  write_frame p = Some frame → go_serve_frame a p = (Some out, a') →
  handleConn (S n) a (frame ++ rest) = (out ++ (handleConn n a' rest).1, (handleConn n a' rest).2).
Proof.
  intros Hf Hs. cbn [handleConn]. rewrite ReadFrame_read_frame, (read_write_frame _ _ _ Hf), Hs.
  by destruct (handleConn n a' rest).
Qed.

Lemma handle_connection_cons n (h : B) p frame rest out h' :
  write_frame p = Some frame → serve_frame h p = (Some out, h') →
  handle_connection (S n) h (frame ++ rest) = (out ++ (handle_connection n h' rest).1, (handle_connection n h' rest).2).
Proof.
  intros Hf Hs. cbn [handle_connection]. rewrite (read_write_frame _ _ _ Hf), Hs. by destruct (handle_connection n h' rest).
Qed.

Lemma dispatch_all_cons h req reqs :
  dispatch_all h (req :: reqs) =
    ((dispatch h req).1 :: (dispatch_all (dispatch h req).2 reqs).1, (dispatch_all (dispatch h req).2 reqs).2).
Proof. cbn [dispatch_all]. destruct (dispatch h req) as [r h1]. simpl. by destruct (dispatch_all h1 reqs). Qed.

(** C40: a Go server and a Rust server are interchangeable.  Let a Go application
    mirror a Rust one, method by method.  On any sequence of well-formed requests
    as the client frames them, whose responses both sides can send, the two
    servers send back bytes from which the client reads the same responses, one
    per request and each the Rust application's own, and the two applications
    are left in corresponding states. *)
Theorem go_server_equivalent reqs stream n a h :
  R a h → Forall request_ok reqs → request_stream reqs = Some stream → (length stream ≤ n)%nat →
  Forall fits (dispatch_all h reqs).1 →
  let go := handleConn n a stream in
  let rust := handle_connection n h stream in
  replies n go.1 = replies n rust.1 ∧
  replies n rust.1 = (λ resp, Ok (wire resp)) <$> (dispatch_all h reqs).1 ∧
  rust.2 = (dispatch_all h reqs).2 ∧ R go.2 rust.2.
Proof.
  cbv zeta. revert stream n a h.
  induction reqs as [|req reqs IH]; intros stream n a h HR Hok Hs Hn Hfit.
  { injection Hs as <-. by destruct n. }
  apply Forall_cons in Hok as [Hr Hok]. rewrite dispatch_all_cons in Hfit |- *. cbn [fst snd] in *.
  apply Forall_cons in Hfit as [Hf Hfit].
  cbn [request_stream] in Hs. apply bind_Some in Hs as (frame & Hw & Hs). apply bind_Some in Hs as (rest & Hrest & [= <-]).
  pose proof (write_frame_length _ _ Hw) as Hl. rewrite length_app in Hn. destruct n as [|n]; [lia|].
  destruct (go_serve_request a h req HR Hr Hf) as (bs1 & f1 & a1 & E1 & HR1 & W1 & D1).
  destruct (serve_request h req Hr Hf) as (bs2 & f2 & E2 & W2 & D2).
  rewrite (handleConn_cons _ _ _ _ _ _ _ Hw E1), (handle_connection_cons _ _ _ _ _ _ _ Hw E2). cbn [fst snd].
  rewrite (replies_cons _ _ _ _ W1), (replies_cons _ _ _ _ W2), D1, D2.
  destruct (IH rest n a1 (dispatch h req).2 HR1 Hok Hrest ltac:(lia) Hfit) as (I1 & I2 & I3 & I4).
  csimpl. by rewrite I1, I2.
Qed.
End Stream.

(** ** The defaults of both sides *)

(** [ApplicationHandler] with the defaults of the trait; [execute_block], which
    has none, returns the default response. *)
Inductive DefaultHandler : Type := Default.

#[global] Instance default_handler : ApplicationHandler DefaultHandler := {|
  h_info h := (mkAppInfo 0 GENESIS_HASH, h);
  h_init_chain h _ := (inl GENESIS_HASH, h);
  h_create_payload h _ := ([], h);
  h_validate_block h _ _ := (true, h);
  h_validate_tx h _ _ := ((true, 0, 0), h);
  h_execute_block h _ _ := (inl EndBlockResponse_default, h);
  h_on_commit h _ _ := (inl tt, h);
  h_on_evidence h _ := (inl tt, h);
  h_on_offline_validators h _ := (inl tt, h);
  h_extend_vote h _ _ := (None, h);
  h_verify_vote_extension h _ _ _ := (true, h);
  h_query h _ _ := (inl (mkQueryResponse [] None 0), h);
  h_list_snapshots h := ([], h);
  h_load_snapshot_chunk h _ _ := ([], h);
  h_offer_snapshot h _ := (OfferReject, h);
  h_apply_snapshot_chunk h _ _ := (ApplyAbort, h);
  h_tracks_app_hash h := (true, h);
|}.

(** [BaseApplication] mirrors the defaults of the trait. *)
Lemma base_mirrors : mirrors (λ (_ : BaseApplication) (_ : DefaultHandler), True).
Proof. split; intros; (split; [|exact I]); simpl; try done; split; try done; by intros ? [= <-]. Qed.

(** Generated code that uses the Rust encoding. *)
Lemma marshalled_decode r bs : Some (encode_response_to_vec r) = Some bs → response_decode bs = Some r.
Proof. intros E. assert (encode_response_to_vec r = bs) as <- by congruence. apply response_decode_encode. Qed.

#[local] Instance sample_go_proto : GoProto := {|
  go_unmarshal_request := request_decode;
  go_marshal_response r := Some (encode_response_to_vec r);
  go_unmarshal_encoded := request_decode_encode;
  go_marshalled_decode := marshalled_decode;
|}.

Definition sample_requests : list Request := [ReqTracksAppHash; ReqListSnapshots].
Definition sample_stream : bytes := default [] (request_stream sample_requests).

Lemma go_server_equivalent_witness :
  replies (length sample_stream) (handleConn (length sample_stream) Base sample_stream).1 =
    [Ok (AnsTracksAppHash true); Ok (AnsListSnapshots [])].
Proof.
  destruct (go_server_equivalent (λ (_ : BaseApplication) (_ : DefaultHandler), True) base_mirrors
    sample_requests sample_stream (length sample_stream) Base Default) as (E1 & E2 & _).
  - exact I.
  - repeat constructor.
  - vm_compute. reflexivity.
  - reflexivity.
  - repeat constructor; vm_compute; eauto.
  - rewrite E1, E2. reflexivity.
Defined.
