(* ===== verification/MessageGuard.v ===== *)
(** * What unverified messages can do

    The engine verifies a message before it handles it, except that a message
    of a past view is let through unverified and left to its handler to drop.
    Either way a message that does not verify changes nothing but the clock and
    the rate limiter. *)

From S2P Require Import Prelude Types ValidatorSet Encoding Aggregate VoteCollector State Liveness.
From S2P Require Import BlockStore EvidenceStore World Persist Pacemaker Commit ViewProtocol Engine.
From S2P Require Import Samples.

Section MessageGuard.
Context {St App Ev : Type} `{!BlockStore St, !Application App, !EvidenceStore Ev}.
Context {B3 : Blake3} {Vf : Verifier} {Sg : Signer}.
Context (iter : gmap vote_key (list Vote) → list (vote_key * list Vote)).
Context (hp has_wal : bool) (wal_intent_ok : nat → Height → bool).
Context (clock_ms instant_ms : nat → N) (anc_fuel fuel : nat).
Notation Eng := (Engine St App Ev).
Implicit Types e : Eng.
Notation handle_msg := (handle_message (St := St) (App := App) (Ev := Ev)
  iter hp has_wal wal_intent_ok clock_ms instant_ms anc_fuel fuel).
Notation dispatch_msg := (dispatch (St := St) (App := App) (Ev := Ev)
  iter hp has_wal wal_intent_ok clock_ms instant_ms anc_fuel fuel).

(** [e] with another clock reading and another state of the rate limiter. *)
Definition retimed e (ticks : nat) (limiter : gmap N (N * N)) : Eng :=
  en_set_msg_rate_limiter
    (en_set_w e (mkWorld (w_state (en_w e)) (w_store (en_w e)) (w_app (en_w e)) ticks
                   (w_trace (en_w e)))) limiter.

Lemma rate_limited_retimed sender e :
  ∃ ticks limiter b,
    rate_limited (St := St) (App := App) (Ev := Ev) instant_ms sender e =
    (retimed e ticks limiter, Ok b).
Proof.
  destruct e as [[s st a n tr] c p pc ss q pe ev lt rl prev].
  destruct sender as [vid|]; [|by eexists _, _, _].
  cbv [rate_limited mbind SM_bind now vp lift_w read_clock get_w en_w w_ticks en_msg_rate_limiter].
  cbn. destruct (default (instant_ms n, 0) (rl !! vid)) as [start count].
  destruct (1 <=? _); by eexists _, _, _.
Qed.

Lemma retimed_verify_body e ticks limiter msg :
  verify_message_body (retimed e ticks limiter) msg = verify_message_body e msg.
Proof. done. Qed.

Lemma retimed_state e ticks limiter : en_state (retimed e ticks limiter) = en_state e.
Proof. done. Qed.

(** A message that is let through unverified is of a past view and dropped. *)
Lemma stale_dropped e msg :
  verify_message e msg = true → verify_message_body e msg = false → dispatch_msg msg e = (e, Ok ()).
Proof.
  unfold verify_message. intros Hv Hb.
  destruct (msg_view msg) as [[v|]|] eqn:Hm; [|congruence|done].
  destruct (N.ltb_spec v (cs_current_view (en_state e))) as [Hlt|]; [|congruence].
  assert (∀ w, w = v → (w =? cs_current_view (en_state e)) = false) as Hne.
  { intros w ->. apply N.eqb_neq. lia. }
  destruct msg as [|vote|c|vote|target| |tc|]; simplify_eq/=; try done.
  - unfold handle_vote, mbind, SM_bind, e_state, gets. by rewrite Hne.
  - unfold handle_prepare, mbind, SM_bind, e_state, gets. by rewrite Hne.
  - unfold handle_vote2, mbind, SM_bind, e_state, gets. by rewrite Hne.
  - unfold handle_wish, mbind, SM_bind, get_w. by rewrite (proj2 (N.ltb_lt _ _)).
  - apply fmap_Some in Hm as (x&Hc&[= ->]). apply checked_add64_Some in Hc as [-> Hmax].
    unfold handle_timeout_cert, mbind, SM_bind, e_state, gets.
    rewrite wrapping_add64_small by done.
    destruct (N.leb_spec (cs_current_view (en_state e)) (tc_view tc + 1)); [lia|].
    destruct (N.ltb_spec (cs_current_view (en_state e)) (tc_view tc + 1)); [lia|]. done.
Qed.

(** C13: A message that fails verification, whether it is refused or let through
    unverified because its view is past, is dropped without an error: the
    state, the block store, the application, the collected votes and wishes,
    the evidence and everything sent, signed and persisted stay as they were,
    and only the clock reading and the rate limiter move. *)
Theorem unverified_message_has_no_effect e sender msg :
  verify_message_body e msg = false →
  ∃ ticks limiter, handle_msg sender msg e = (retimed e ticks limiter, Ok ()).
Proof.
  intros Hb. destruct (rate_limited_retimed sender e) as (ticks&limiter&b&Hr).
  exists ticks, limiter. unfold handle_message. unfold mbind, SM_bind at 1. rewrite Hr.
  destruct b; [done|]. unfold mbind, SM_bind, get_w.
  destruct (verify_message _ msg) eqn:Hv; [|done]. simpl. by apply stale_dropped.
Qed.
End MessageGuard.

(** ** Witness *)

#[local] Existing Instance sample_blake3.
#[local] Existing Instance sample_verifier.
#[local] Existing Instance sample_signer.

(** A vote of view 0 with an empty signature, let through in view 1. *)
Definition sample_forged : ConsensusMessage :=
  VoteMsg (mkVote 0 GENESIS_HASH 0 9 [] TVote None).

Lemma unverified_message_has_no_effect_witness :
  verify_message sample_e1 sample_forged = true ∧
  ∃ ticks limiter,
    handle_message map_to_list true false (λ _ _, true) sample_clock sample_clock 10 3
      (Some 9) sample_forged sample_e1 = (retimed sample_e1 ticks limiter, Ok ()).
Proof.
  split; [vm_compute; reflexivity|].
  apply (unverified_message_has_no_effect map_to_list true false (λ _ _, true) sample_clock
           sample_clock 10 3 sample_e1 (Some 9) sample_forged).
  vm_compute. reflexivity.
Defined.
