(* ===== verification/EngineSafety.v ===== *)
(** * Voting discipline of the engine

    Every handler of the engine keeps the relation of [VoteSafety] between the
    worlds before and after it, so it holds along every run: a node signs at
    most one block per view and vote type, makes the record durable before it
    signs, sends nothing but signed votes, and never moves its view, its lock
    or its committed height backwards. *)

From S2P Require Import Prelude Types ValidatorSet Encoding Aggregate VoteCollector State Liveness.
From S2P Require Import BlockStore EvidenceStore World Persist Pacemaker Commit ViewProtocol VoteSafety Engine.

Section EngineSafety.
Context {St App Ev : Type} `{!BlockStore St, !Application App, !EvidenceStore Ev}.
Context {B3 : Blake3} {Vf : Verifier} {Sg : Signer}.
Context (iter : gmap vote_key (list Vote) → list (vote_key * list Vote)).
Context (hp : bool) (p0 : PersistentConsensusState) (past : list Effect) (has_wal : bool) (wal_intent_ok : nat → Height → bool).
Context (clock_ms instant_ms : nat → N) (anc_fuel : nat).
Notation Eng := (Engine St App Ev).
Notation ME := (SM Eng engine_error).
Implicit Types e : Eng.
Notation safe := (safe hp p0 past).
Notation vote_inv := (vote_inv hp p0 past).

Definition esafe e e' : Prop := safe (en_w e) (en_w e').

#[local] Instance esafe_preorder : PreOrder esafe.
Proof. split; [intros e; by unfold esafe|intros a b c; unfold esafe; intros; by etrans]. Qed.

(** ** Lifting *)

Lemma keeps_lift_w {E A} (f : E → engine_error) (m : SM (World St App) E A) :
  keeps safe m → keeps esafe (lift_w (Ev := Ev) f m).
Proof.
  intros Hm e. specialize (Hm (en_w e)). unfold lift_w, esafe.
  by destruct (m (en_w e)) as [w [a|x|]].
Qed.

Lemma keeps_try_w {E A} (m : SM (World St App) E A) :
  keeps safe m → keeps esafe (try_w (Ev := Ev) m).
Proof.
  intros Hm e. specialize (Hm (en_w e)). unfold try_w, esafe.
  by destruct (m (en_w e)) as [w [a|x|]].
Qed.

Lemma keeps_vp {A} (m : SM (World St App) vp_error A) : keeps safe m → keeps esafe (vp (Ev := Ev) m).
Proof. apply keeps_lift_w. Qed.

Lemma keeps_e_emit x : quiet x → keeps esafe (e_emit (St := St) (App := App) (Ev := Ev) x).
Proof. intros Hx. by apply keeps_vp, keeps_emit. Qed.

Lemma keeps_e_mod_store f : keeps esafe (e_mod_store (App := App) (Ev := Ev) f).
Proof. apply keeps_vp, keeps_mod_store. Qed.

Lemma keeps_e_mod_state f :
  (∀ s, st_mono s (f s)) → (∀ s t, last_vote (f s) t = last_vote s t) →
  keeps esafe (e_mod_state (St := St) (App := App) (Ev := Ev) f).
Proof. intros. by apply keeps_vp, keeps_mod_state. Qed.

Lemma keeps_now : keeps esafe (now (St := St) (App := App) (Ev := Ev) instant_ms).
Proof. apply keeps_vp, keeps_read_clock. Qed.

(** A change of the engine's own fields leaves the world alone. *)
Lemma keeps_modify_w (f : Eng → Eng) : (∀ e, en_w (f e) = en_w e) → keeps esafe (modify f : ME unit).
Proof. intros Hf e. unfold esafe. simpl. by rewrite Hf. Qed.

Lemma keeps_e_add_vote vote : keeps esafe (e_add_vote (St := St) (App := App) (Ev := Ev) iter vote).
Proof.
  intros e. unfold e_add_vote, esafe. destruct (add_vote _ _ _ _ _) as [c [r|x|]]; done.
Qed.

Lemma keeps_e_add_wish t v q s : keeps esafe (e_add_wish (St := St) (App := App) (Ev := Ev) t v q s).
Proof. intros e. unfold e_add_wish, esafe. by destruct (add_wish _ _ _ _ _ _). Qed.

Lemma wp_lift_w {E A} (f : E → engine_error) (m : SM (World St App) E A) Q e :
  wp m (λ w r, Q (en_set_w e w) (match r with Ok a => Ok a | Err x => Err (f x) | Panic => Panic end))
    (en_w e) →
  wp (lift_w (Ev := Ev) f m) Q e.
Proof. unfold wp, lift_w. by destruct (m (en_w e)) as [w [a|x|]]. Qed.

Lemma wp_e_emit x Q e :
  Q (en_set_w e (w_emit (en_w e) x)) (Ok ()) → wp (e_emit (St := St) (App := App) (Ev := Ev) x) Q e.
Proof. done. Qed.

Lemma wp_keeps {A} (m : ME A) e0 e :
  esafe e0 e → keeps esafe m → wp m (λ e' _, esafe e0 e') e.
Proof. intros H Hm. unfold wp. etrans; [done|apply Hm]. Qed.

Lemma send_vote_keeps e to (m : Vote → ConsensusMessage) vote :
  vote_sent_by (ESendTo to (m vote)) = Some vote →
  sendable hp p0 (en_state e) (w_trace (en_w e)) vote →
  esafe e (en_set_w e (w_emit (en_w e) (ESendTo to (m vote)))).
Proof. intros Hm Hs. by eapply send_vote_safe. Qed.

Ltac ekeeps_step :=
  lazymatch goal with
  | |- ∀ _, _ => intros
  | |- keeps _ (mret _) => apply keeps_ret; apply _
  | |- keeps _ (gets _) => apply keeps_gets; apply _
  | |- keeps _ e_state => apply keeps_gets; apply _
  | |- keeps _ e_store => apply keeps_gets; apply _
  | |- keeps _ get_w => apply keeps_get_w; apply _
  | |- keeps _ (throw _) => apply keeps_throw; apply _
  | |- keeps _ panic => apply keeps_panic; apply _
  | |- keeps _ (lift_res _) => apply keeps_lift_res; apply _
  | |- keeps _ (now _) => apply keeps_now
  | |- keeps _ (e_mod_store _) => apply keeps_e_mod_store
  | |- keeps _ (e_emit _) => apply keeps_e_emit; repeat split
  | |- keeps _ (e_mod_state _) =>
      apply keeps_e_mod_state; [solve [st_mono_solve]|solve [by intros ? []]]
  | |- keeps _ (modify _) => apply keeps_modify_w; reflexivity
  | |- keeps _ (e_add_vote _ _) => apply keeps_e_add_vote
  | |- keeps _ (e_add_wish _ _ _ _) => apply keeps_e_add_wish
  | |- keeps _ (vp (call_app _)) => apply keeps_vp, keeps_call_app
  | |- keeps _ (vp (build_wish _ _ _ _ _)) => apply keeps_vp, build_wish_keeps
  | |- keeps _ (vp (on_votes_collected _)) => apply keeps_vp, on_votes_collected_keeps
  | |- keeps _ (try_w (try_commit _ _ _ _)) => apply keeps_try_w, try_commit_keeps
  | |- keeps _ (try_w (propose _ _ _ _)) => apply keeps_try_w, propose_keeps
  | |- keeps _ (try_w (on_proposal _ _ _ _)) => apply keeps_try_w, on_proposal_keeps
  | |- keeps _ (mbind _ _) => apply keeps_bind; [apply _|..]
  | |- keeps _ (when _ _) => apply keeps_when; [apply _|]
  | |- keeps _ (match ?x with _ => _ end) => destruct x
  end.
Ltac ekeeps := repeat ekeeps_step; try done.

(** ** Bookkeeping *)

Lemma persist_state_keeps : keeps esafe (persist_state (St := St) (App := App) (Ev := Ev) hp).
Proof.
  intros e. apply (wp_fst (λ e', esafe e e')). unfold persist_state.
  apply wp_bind, wp_gets, wp_bind, wp_get_w, wp_when; intros Hp; [|done].
  apply wp_bind. set (e1 := en_set_w e (w_emit (en_w e) (ESaveCurrentView (cs_current_view (en_state e))))).
  assert (esafe e e1) as H1 by (apply safe_emit; repeat split).
  change (wp (e_emit _) ?Q e) with (Q e1 (Ok (E := engine_error) ())). cbv beta iota.
  destruct (cs_locked_qc (en_state e)) as [q|] eqn:Hq; [|apply wp_keeps; [done|ekeeps]].
  apply wp_bind. set (e2 := en_set_w e1 (w_emit (en_w e1) (ESaveLockedQc q))).
  change (wp (e_emit _) ?Q e1) with (Q e2 (Ok (E := engine_error) ())). cbv beta iota.
  apply wp_keeps; [|ekeeps]. etrans; [done|]. split; simpl; [done|by eexists [_]|].
  by apply vote_inv_save_lock.
Qed.

Lemma persist_state_spec e :
  wp (persist_state (St := St) (App := App) (Ev := Ev) hp)
    (λ e' r, r = Ok () ∧ esafe e e' ∧ en_state e' = en_state e ∧
       (hp = true → ∀ v, lock_above (cs_locked_qc (en_state e)) v →
          lock_secured p0 (w_trace (en_w e')) v)) e.
Proof.
  eapply wp_mono; [apply (wp_and _ (λ e' _, esafe e e') (λ e' r, r = Ok () ∧
    en_state e' = en_state e ∧ (hp = true → ∀ v, lock_above (cs_locked_qc (en_state e)) v →
          lock_secured p0 (w_trace (en_w e')) v)))|].
  - apply wp_keeps; [done|apply persist_state_keeps].
  - unfold persist_state. apply wp_bind, wp_gets, wp_bind, wp_get_w, wp_when; intros Hp.
    2: { split_and!; [done..|]. intros Hp' v. congruence. }
    destruct (cs_locked_qc (en_state e)) as [q'|] eqn:Hl, (cs_highest_qc (en_state e)) as [hq|];
      repeat (first [apply wp_e_emit|wp_step]; cbv beta iota); (split_and!; [done..|]);
      intros _ v Hv; [| |done..];
      cbn [w_trace w_emit en_w en_set_w]; apply secured_flush; rewrite !saved_lock_same by done;
      unfold saved_lock; cbn [written]; by rewrite load_locked_qc_effect.
  - naive_solver.
Qed.

Lemma log_commit_intent_keeps h :
  keeps esafe (log_commit_intent (St := St) (App := App) (Ev := Ev) has_wal wal_intent_ok h).
Proof. unfold log_commit_intent. ekeeps. Qed.

Lemma finish_wal_intent_keeps h :
  keeps esafe (finish_wal_intent (St := St) (App := App) (Ev := Ev) has_wal h).
Proof. unfold finish_wal_intent. ekeeps. Qed.

Lemma finish_if_keeps b o : keeps esafe (finish_if (St := St) (App := App) (Ev := Ev) has_wal b o).
Proof. unfold finish_if. ekeeps. apply finish_wal_intent_keeps. Qed.

Lemma process_commit_result_keeps r :
  keeps esafe (process_commit_result (St := St) (App := App) (Ev := Ev) hp has_wal r).
Proof.
  unfold process_commit_result. ekeeps; [apply persist_state_keeps|apply finish_wal_intent_keeps].
Qed.

Lemma adopt_commit_epoch_keeps r :
  keeps esafe (adopt_commit_epoch (St := St) (App := App) (Ev := Ev) r).
Proof. unfold adopt_commit_epoch. ekeeps. Qed.

Lemma apply_commit_keeps dc :
  keeps esafe (apply_commit (St := St) (App := App) (Ev := Ev) hp has_wal wal_intent_ok dc).
Proof.
  unfold apply_commit. ekeeps; auto using log_commit_intent_keeps, adopt_commit_epoch_keeps,
    process_commit_result_keeps, finish_if_keeps.
Qed.

Lemma handle_equivocation_keeps r :
  keeps esafe (handle_equivocation (St := St) (App := App) (Ev := Ev) r).
Proof. unfold handle_equivocation. ekeeps. Qed.

(** ** The view-change recursion *)

Section Recursion.
Context (tp : ME unit) (Htp : keeps esafe tp).

Lemma switch_epoch_keeps v : keeps esafe (switch_epoch (St := St) (Ev := Ev) instant_ms v).
Proof. unfold switch_epoch. ekeeps. Qed.

Lemma advance_view_to_keeps v tr :
  tr ≠ TrGenesis → keeps esafe (advance_view_to hp instant_ms tp v tr).
Proof.
  intros Htr. unfold advance_view_to. ekeeps;
    auto using switch_epoch_keeps, persist_state_keeps.
  apply keeps_vp. intros w. by apply enter_view_safe.
Qed.

Lemma advance_view_keeps tr : tr ≠ TrGenesis → keeps esafe (advance_view hp instant_ms tp tr).
Proof. intros Htr. unfold advance_view. ekeeps; by apply advance_view_to_keeps. Qed.

Lemma on_double_cert_formed_keeps q x :
  keeps esafe (on_double_cert_formed hp has_wal wal_intent_ok instant_ms tp q x).
Proof.
  unfold on_double_cert_formed. ekeeps; [apply apply_commit_keeps|by apply advance_view_keeps].
Qed.

Lemma extend_vote_for_keeps b : keeps esafe (extend_vote_for (St := St) (App := App) (Ev := Ev) b).
Proof. unfold extend_vote_for. ekeeps. Qed.

(** Record, persist and sign a vote of this node: what the leader does for its
    own votes, up to the continuation [k]. *)
Lemma cast_vote_safe t h x e (k : Vote → ME unit) :
  (∀ vote e', esafe e e' → vote_is_signed (w_trace (en_w e')) vote →
     cs_current_view (en_state e') = cs_current_view (en_state e) →
     v_view vote = cs_current_view (en_state e) →
     wp (k vote) (λ e' _, esafe e e') e') →
  wp (ok ← vp (record_vote t h);
      if negb ok then mret ()
      else
        s ← e_state;
        vp (persist_vote hp t (cs_current_view s) h) ;;
        vote ← vp (make_vote t h x);
        k vote) (λ e' _, esafe e e') e.
Proof.
  intros Hk. apply wp_bind, wp_lift_w. eapply wp_mono; [apply record_vote_spec|]. cbv beta.
  intros w1 r (H1&_&_&ok&->&Hok). destruct ok; [|by apply wp_ret].
  destruct Hok as [_ Hs1]. cbn [negb]. apply wp_bind, wp_gets, wp_bind, wp_lift_w.
  assert (cs_current_view (w_state w1) = cs_current_view (w_state (en_w e))) as Hv1.
  { rewrite Hs1. by destruct t. }
  unfold en_state in *. cbn [en_w en_set_w] in *.
  eapply wp_mono; [apply (persist_vote_spec hp); rewrite Hs1, last_vote_set; by destruct t|].
  cbv beta. intros w2 r (->&H2&Hs2&_&Hd). apply wp_bind, wp_lift_w. cbn [en_w en_set_w] in *.
  eapply wp_mono; [apply (make_vote_spec hp)|].
  - rewrite Hs2, Hs1. by destruct t.
  - by rewrite Hs2.
  - cbv beta. intros w3 r (H3&Hs3&_&vote&->&Hsig&_&_&Hv&_). apply (Hk vote); try done.
    + unfold esafe. simpl. etrans; [done|]. by etrans.
    + simpl. by rewrite Hs3, Hs2.
    + by rewrite Hv, Hs2.
Qed.

Lemma e_add_vote_spec vote e :
  wp (e_add_vote (St := St) (App := App) (Ev := Ev) iter vote)
    (λ e' r, esafe e e' ∧ en_state e' = en_state e ∧
       ∀ result qc, r = Ok (inl result) → vr_qc result = Some qc → qc_view qc = v_view vote) e.
Proof.
  pose proof (keeps_e_add_vote vote e) as Hk. unfold wp, e_add_vote in *.
  destruct (add_vote _ _ _ _ _) as [c r] eqn:Ha. split_and!; [done|by destruct r|].
  destruct r as [r|x|]; try done. intros result qc [= <-] Hqc. revert Ha. unfold add_vote.
  repeat (case_match; try done); intros [= <- <-]; by simplify_eq/=.
Qed.

Lemma handle_equivocation_state r e :
  wp (handle_equivocation (St := St) (App := App) (Ev := Ev) r)
    (λ e' x, x = Ok () ∧ en_state e' = en_state e) e.
Proof. unfold handle_equivocation. by destruct (vr_equivocation r). Qed.

(** A vote is added and the certificate it completes, if any, is handed on. *)
Lemma add_vote_then_safe e0 e vote (k : QuorumCertificate → VoteResult → ME unit)
    (err : vc_error → ME unit) :
  esafe e0 e → (∀ x, keeps esafe (err x)) →
  (∀ qc result e', esafe e0 e' → cs_current_view (en_state e') = cs_current_view (en_state e) →
     qc_view qc = v_view vote → wp (k qc result) (λ e' _, esafe e0 e') e') →
  wp (r ← e_add_vote (St := St) (App := App) (Ev := Ev) iter vote;
      match r with
      | inl result =>
          handle_equivocation result ;;
          match vr_qc result with Some qc => k qc result | None => mret () end
      | inr x => err x
      end) (λ e' _, esafe e0 e') e.
Proof.
  intros H0 He Hk. apply wp_bind. eapply wp_mono; [apply e_add_vote_spec|]. cbv beta.
  intros e1 r (H1&Hs1&Hq). assert (esafe e0 e1) as H01 by by etrans.
  destruct r as [[result|x]|x|]; [|by apply wp_keeps|done..]. apply wp_bind.
  eapply wp_mono; [apply (wp_and _ (λ e' _, esafe e0 e')
    (λ e' x, x = Ok () ∧ en_state e' = en_state e1)); [|apply handle_equivocation_state]|].
  { apply wp_keeps; [done|apply handle_equivocation_keeps]. }
  cbv beta. intros e2 r (H2&->&Hs2). destruct (vr_qc result) as [qc|] eqn:E; [|done].
  apply Hk; [done|by rewrite Hs2, Hs1|by eapply Hq].
Qed.

Lemma on_votes_collected_view qc w :
  wp (on_votes_collected (St := St) (App := App) qc)
    (λ w' _, cs_current_view (w_state w') = cs_current_view (w_state w)) w.
Proof.
  unfold on_votes_collected. wp_steps. simpl. unfold update_highest_qc. by destruct (dominated _ _).
Qed.

Lemma extend_vote_for_state b e :
  wp (extend_vote_for (St := St) (App := App) (Ev := Ev) b)
    (λ e' _, en_state e' = en_state e) e.
Proof.
  unfold extend_vote_for. destruct b; [|done]. apply wp_bind, wp_gets, wp_lift_w.
  by apply wp_call_app.
Qed.

(** What follows the leader's second-phase vote. *)
Lemma after_vote2_safe e0 e qc vote :
  esafe e0 e → vote_is_signed (w_trace (en_w e)) vote → qc_view qc = v_view vote →
  wp (e_mod_state (λ s, update_locked_qc s qc) ;;
      persist_state hp ;;
      s ← e_state;
      next ← lift_res (next_leader (cs_validator_set s) (cs_current_view s));
      if next =? cs_validator_id s then
        r ← e_add_vote iter vote;
        match r with
        | inl result =>
            handle_equivocation result ;;
            match vr_qc result with
            | Some outer_qc =>
                on_double_cert_formed hp has_wal wal_intent_ok instant_ms tp outer_qc
                  (vr_extensions result)
            | None => mret ()
            end
        | inr _ => mret ()
        end
      else e_emit (ESendTo next (Vote2Msg vote)) : ME unit) (λ e' _, esafe e0 e') e.
Proof.
  intros H0 Hsig Hv. apply wp_bind. set (e1 := en_set_w e (w_set_state (en_w e)
    (update_locked_qc (en_state e) qc))).
  change (wp (e_mod_state _) ?Q e) with (Q e1 (Ok (E := engine_error) ())). cbv beta iota.
  assert (esafe e e1) as H1.
  { apply safe_set_state; [apply update_locked_qc_mono|apply update_locked_qc_last_vote]. }
  apply wp_bind. eapply wp_mono; [apply persist_state_spec|]. cbv beta.
  intros e2 r (->&H2&Hs2&Hd). assert (esafe e e2) as H02 by by etrans.
  assert (sendable hp p0 (en_state e2) (w_trace (en_w e2)) vote) as Hsend.
  { split.
    - destruct H02 as [_ [es ->] _]. by apply vote_is_signed_mono.
    - intros Hp _. assert (lock_above (cs_locked_qc (en_state e1)) (v_view vote)) as Hl.
      { rewrite <- Hv. apply (lock_above_mono (Some qc)); [apply update_locked_qc_rank|simpl; lia]. }
      split; [by rewrite Hs2|by apply Hd]. }
  assert (esafe e0 e2) as H02' by by etrans.
  apply wp_bind, wp_gets, wp_bind, wp_lift_res.
  destruct (next_leader _ _) as [next|x|]; [|done..]. destruct (next =? _).
  - apply wp_keeps; [done|]. ekeeps;
      [apply handle_equivocation_keeps|apply on_double_cert_formed_keeps].
  - apply wp_e_emit. etrans; [done|]. by apply (send_vote_keeps _ _ Vote2Msg).
Qed.

Lemma on_qc_formed_safe e0 e qc :
  esafe e0 e → qc_view qc = cs_current_view (en_state e) →
  wp (on_qc_formed iter hp has_wal wal_intent_ok instant_ms tp qc) (λ e' _, esafe e0 e') e.
Proof.
  intros H0 Hv. unfold on_qc_formed. apply wp_bind, wp_modify, wp_bind, wp_lift_w.
  eapply wp_mono; [apply (wp_and _ (λ w' _, safe (en_w e) w')
    (λ w' _, cs_current_view (w_state w') = cs_current_view (en_state e)))|].
  { apply on_votes_collected_keeps. }
  { apply on_votes_collected_view. }
  cbv beta. intros w1 r [H1 Hv1]. set (e1 := en_set_w _ w1). assert (esafe e e1) as He1 by done.
  assert (esafe e0 e1) as H01 by by etrans.
  destruct r as [[]|x|]; [|done..]. apply wp_bind, wp_gets, wp_bind.
  eapply wp_mono; [apply (wp_and _ (λ e' _, esafe e0 e') (λ e' _, en_state e' = en_state e1))|].
  { apply wp_keeps; [done|apply extend_vote_for_keeps]. }
  { apply extend_vote_for_state. }
  cbv beta. intros e2 r [H2 Hs2]. destruct r as [x|y|]; [|done..].
  assert (cs_current_view (en_state e2) = cs_current_view (en_state e)) as Hv2 by by rewrite Hs2.
  clearbody e1. eapply wp_mono; [apply cast_vote_safe|cbv beta; intros; by etrans].
  intros vote e3 H3 Hsig Hv3 Hvv. apply after_vote2_safe; [done..|]. by rewrite Hvv, Hv2.
Qed.

Lemma leader_self_vote_keeps h :
  keeps esafe (leader_self_vote iter hp has_wal wal_intent_ok instant_ms tp h).
Proof.
  intros e. apply (wp_fst (λ e', esafe e e')). unfold leader_self_vote. apply cast_vote_safe.
  intros vote e1 H1 Hsig Hv1 Hv.
  apply (add_vote_then_safe e e1 vote (λ qc _, on_qc_formed _ _ _ _ _ _ qc) (λ _, mret ()));
    [done|by ekeeps|].
  intros qc result e2 H2 Hv2 Hq. apply on_qc_formed_safe; [done|]. by rewrite Hq, Hv, Hv2, Hv1.
Qed.

Lemma try_propose_body_keeps :
  keeps esafe (try_propose_body iter hp has_wal wal_intent_ok clock_ms instant_ms anc_fuel tp).
Proof. unfold try_propose_body. ekeeps. apply leader_self_vote_keeps. Qed.
End Recursion.

Notation tp_ fuel := (try_propose iter hp has_wal wal_intent_ok clock_ms instant_ms anc_fuel fuel).

Lemma try_propose_keeps fuel : keeps esafe (tp_ fuel : ME unit).
Proof.
  induction fuel as [|fuel IH]; cbn [try_propose]; [apply keeps_throw; apply _|].
  by apply try_propose_body_keeps.
Qed.

(** ** Handlers *)

Section Handlers.
Context (fuel : nat).

Lemma accept_proposal_keeps b j dc :
  keeps esafe (accept_proposal (St := St) (App := App) (Ev := Ev)
                 hp has_wal wal_intent_ok clock_ms b j dc).
Proof.
  unfold accept_proposal. ekeeps; auto using log_commit_intent_keeps, adopt_commit_epoch_keeps,
    process_commit_result_keeps, finish_if_keeps.
Qed.

Lemma handle_propose_keeps b j dc l :
  keeps esafe (handle_propose (St := St) (App := App) (Ev := Ev)
                 iter hp has_wal wal_intent_ok clock_ms instant_ms anc_fuel fuel b j dc l).
Proof.
  unfold handle_propose. ekeeps; auto using apply_commit_keeps, accept_proposal_keeps.
  apply advance_view_to_keeps; [apply try_propose_keeps|done].
Qed.

Lemma handle_vote_keeps v :
  keeps esafe (handle_vote (St := St) (App := App) (Ev := Ev)
                 iter hp has_wal wal_intent_ok clock_ms instant_ms anc_fuel fuel v).
Proof.
  intros e. apply (wp_fst (λ e', esafe e e')). unfold handle_vote. apply wp_bind, wp_gets.
  destruct (N.eqb_spec (v_view v) (cs_current_view (en_state e))) as [Hv|];
    [|by apply wp_ret]. cbn [negb].
  do 3 (match goal with |- wp (if ?b then _ else _) _ _ => destruct b end; [by apply wp_ret|]).
  apply (add_vote_then_safe e e v (λ qc _, on_qc_formed _ _ _ _ _ _ qc)
           (λ x, throw (AddVoteFailed x))); [done|by ekeeps|].
  intros qc result e2 H2 Hv2 Hq.
  apply on_qc_formed_safe; [apply try_propose_keeps|done|]. by rewrite Hq, Hv.
Qed.

Lemma send_vote2_safe e0 e q x :
  esafe e0 e → qc_view q = cs_current_view (en_state e) →
  wp (vote2 ← vp (on_prepare hp q x);
      persist_state hp ;;
      match vote2 with
      | Some (next_leader_id, vote) => e_emit (ESendTo next_leader_id (Vote2Msg vote))
      | None => mret ()
      end : ME unit) (λ e' _, esafe e0 e') e.
Proof.
  intros H0 Hv. apply wp_bind, wp_lift_w.
  eapply wp_mono; [apply (on_prepare_safe hp)|]. cbv beta. intros w1 r [H1 Hsig].
  set (e1 := en_set_w e w1). assert (esafe e e1) as He1 by done.
  assert (esafe e0 e1) as H01 by by etrans.
  destruct r as [vote2|y|]; [|done..]. apply wp_bind.
  eapply wp_mono; [apply persist_state_spec|]. cbv beta. intros e2 r (->&H2&Hs2&Hd).
  assert (esafe e0 e2) as H02 by by etrans.
  destruct vote2 as [[next vote]|]; [|done]. destruct (Hsig next vote eq_refl) as (Hs&Hvv&Hl).
  apply wp_e_emit. etrans; [done|]. apply (send_vote_keeps _ _ Vote2Msg); [done|]. split.
  - destruct H2 as [_ [es ->] _]. by apply vote_is_signed_mono.
  - intros Hp _. assert (lock_above (cs_locked_qc (en_state e1)) (v_view vote)) as Hla.
    { rewrite Hvv. unfold en_state in Hv. rewrite <- Hv.
      apply (lock_above_mono (Some q)); [done|simpl; lia]. }
    split; [by rewrite Hs2|by apply Hd].
Qed.

Lemma handle_prepare_keeps q :
  keeps esafe (handle_prepare (St := St) (App := App) (Ev := Ev) hp q).
Proof.
  intros e. apply (wp_fst (λ e', esafe e e')). unfold handle_prepare. apply wp_bind, wp_gets.
  destruct (N.eqb_spec (qc_view q) (cs_current_view (en_state e))) as [Hv|];
    [|by apply wp_ret].
  apply wp_bind, wp_gets, wp_bind, wp_gets.
  match goal with |- wp (if ?b then _ else _) _ _ => destruct b end; [by apply wp_ret|]. apply wp_bind.
  eapply wp_mono; [apply (wp_and _ (λ e' _, esafe e e') (λ e' _, en_state e' = en_state e))|].
  { apply wp_keeps; [done|apply extend_vote_for_keeps]. }
  { apply extend_vote_for_state. }
  cbv beta. intros e1 r [H1 Hs1]. destruct r as [x|y|]; [|done..].
  apply send_vote2_safe; [done|]. by rewrite Hs1.
Qed.

Lemma handle_vote2_keeps v :
  keeps esafe (handle_vote2 (St := St) (App := App) (Ev := Ev)
                 iter hp has_wal wal_intent_ok clock_ms instant_ms anc_fuel fuel v).
Proof.
  unfold handle_vote2. ekeeps; [apply handle_equivocation_keeps|].
  apply on_double_cert_formed_keeps, try_propose_keeps.
Qed.

Lemma handle_wish_keeps t v q s :
  keeps esafe (handle_wish (St := St) (App := App) (Ev := Ev)
                 iter hp has_wal wal_intent_ok clock_ms instant_ms anc_fuel fuel t v q s).
Proof. unfold handle_wish. ekeeps; by apply advance_view_keeps; [apply try_propose_keeps|]. Qed.

Lemma handle_timeout_cert_keeps tc :
  keeps esafe (handle_timeout_cert (St := St) (App := App) (Ev := Ev)
                 iter hp has_wal wal_intent_ok clock_ms instant_ms anc_fuel fuel tc).
Proof.
  unfold handle_timeout_cert. ekeeps; [|by apply advance_view_keeps; [apply try_propose_keeps|]].
  intros e. unfold esafe. by destruct (should_relay_tc _ _).
Qed.

Lemma handle_status_keeps q v :
  keeps esafe (handle_status (St := St) (App := App) (Ev := Ev)
                 iter hp has_wal wal_intent_ok clock_ms instant_ms anc_fuel fuel q v).
Proof.
  unfold handle_status. ekeeps; [|apply try_propose_keeps].
  apply keeps_vp, keeps_update_highest.
Qed.

Lemma handle_evidence_keeps p : keeps esafe (handle_evidence (St := St) (App := App) (Ev := Ev) p).
Proof. unfold handle_evidence. ekeeps. Qed.

Lemma rate_limited_keeps s :
  keeps esafe (rate_limited (St := St) (App := App) (Ev := Ev) instant_ms s).
Proof. unfold rate_limited. ekeeps. Qed.

(** A wish is neither a signed nor a sent vote. *)
Lemma wp_build_wish c ep v id q (k : ConsensusMessage → ME unit) :
  (∀ target hq sig, keeps esafe (k (Wish target id hq sig))) →
  keeps esafe (wish ← vp (build_wish c ep v id q); k wish).
Proof.
  intros Hk e. apply (wp_fst (λ e', esafe e e')). apply wp_bind, wp_lift_w.
  pose proof (build_wish_keeps hp p0 past (St := St) (App := App) (E := vp_error) c ep v id q (en_w e)) as H.
  unfold build_wish in *. apply wp_bind, wp_lift_res.
  destruct (ViewNumber_next v) as [target|x|]; [|done..]. apply wp_keeps; [exact H|apply Hk].
Qed.

Lemma handle_timeout_keeps :
  keeps esafe (handle_timeout (St := St) (App := App) (Ev := Ev)
                 iter hp has_wal wal_intent_ok clock_ms instant_ms anc_fuel fuel).
Proof.
  unfold handle_timeout. apply keeps_bind; [apply _|by ekeeps|]. intros s.
  destruct (negb _); [by ekeeps|]. apply wp_build_wish. intros target hq sig. ekeeps.
  by apply advance_view_keeps; [apply try_propose_keeps|].
Qed.

Lemma handle_keeps i :
  keeps esafe (handle (St := St) (App := App) (Ev := Ev)
                 iter hp has_wal wal_intent_ok clock_ms instant_ms anc_fuel fuel i).
Proof.
  destruct i as [sender msg|]; simpl.
  - unfold handle_message. ekeeps; [apply rate_limited_keeps|].
    destruct msg; simpl; auto using handle_propose_keeps, handle_vote_keeps, handle_prepare_keeps,
      handle_vote2_keeps, handle_wish_keeps, handle_timeout_cert_keeps, handle_status_keeps,
      handle_evidence_keeps.
  - apply handle_timeout_keeps.
Qed.
End Handlers.

(** ** Runs *)

Notation step_ fuel := (step (St := St) (App := App) (Ev := Ev)
  iter hp has_wal wal_intent_ok clock_ms instant_ms anc_fuel fuel).

Lemma step_safe fuel e e' : step_ fuel e e' → esafe e e'.
Proof.
  intros Hs. destruct Hs as [i e e' H|i e e' x H _];
    pose proof (handle_keeps fuel i e) as Hk; by rewrite H in Hk.
Qed.

Lemma run_safe fuel e e' : rtc (step_ fuel) e e' → esafe e e'.
Proof. induction 1; [done|]. etrans; [by eapply step_safe|done]. Qed.

(** Start-up: entering the genesis view replaces the highest certificate but
    keeps everything else the relation is about. *)
Lemma genesis_inv fuel e :
  cs_current_view (en_state e) ≤ 1 →
  vote_inv (en_state e) (w_trace (en_w e)) →
  let e' := (enter_genesis_view (St := St) (App := App) (Ev := Ev)
               iter hp has_wal wal_intent_ok clock_ms instant_ms anc_fuel fuel e).1 in
  vote_inv (en_state e') (w_trace (en_w e')).
Proof.
  intros Hv Hi e'. set (e1 := en_set_w e (w_set_state (en_w e)
    (set_highest_qc (en_state e) (Some (mkQC GENESIS_HASH 0
       (agg_new (validator_count (cs_validator_set (en_state e))))
       (e_number (cs_current_epoch (en_state e)))))))).
  assert (vote_inv (en_state e1) (w_trace (en_w e1))) as Hi1.
  { eapply (vote_inv_state hp p0 past (en_state e)); [by intros []|done|exact Hi]. }
  assert (esafe e1 e') as Hs; [|by apply Hs].
  unfold e', enter_genesis_view. apply (wp_fst (λ e', esafe e1 e')).
  apply wp_bind. change (wp (e_mod_state _) ?Q e) with (Q e1 (Ok (E := engine_error) ())).
  cbv beta iota. apply wp_bind, wp_lift_w.
  eapply wp_mono; [apply (λ w, enter_view_safe_wp hp p0 past 1 TrGenesis w)|].
  { intros _. simpl. done. }
  cbv beta. intros w2 r H2. destruct r as [[]|x|]; [|done..].
  apply wp_keeps; [done|]. ekeeps. apply try_propose_keeps.
Qed.

Lemma run_start_inv fuel e :
  vote_inv (en_state e) (w_trace (en_w e)) →
  let e' := (run_start (St := St) (App := App) (Ev := Ev)
               iter hp has_wal wal_intent_ok clock_ms instant_ms anc_fuel fuel e).1 in
  vote_inv (en_state e') (w_trace (en_w e')).
Proof.
  intros Hi. unfold run_start. apply (wp_fst (λ e', vote_inv (en_state e') (w_trace (en_w e')))).
  apply wp_bind, wp_get_w.
  match goal with |- wp (if ?b then _ else _) _ _ => destruct b end; [done|].
  destruct (N.leb_spec (cs_current_view (en_state e)) 1); [by apply genesis_inv|].
  assert (keeps esafe (t ← now instant_ms;
    modify (λ e, en_set_pacemaker e (reset_timer t (en_pacemaker e))) : ME unit)) as Hk by ekeeps.
  by apply (Hk e).
Qed.
End EngineSafety.
