(* ===== verification/EngineVoting.v ===== *)
(** * The engine refines the voting rules

    One honest node's engine against the votes of the others: the votes in its
    collector, the certificates it forms or accepts and the wishes it gathers
    are backed by signed votes, so every handler keeps the invariant of
    [NodeSafety].  What the handlers assume of a message is that its blocks are
    known ones and that a signature of an honest node on a vote is one the node
    made. *)

From S2P Require Import Prelude Types ValidatorSet Encoding Aggregate VoteCollector State Liveness.
From S2P Require Import BlockStore EvidenceStore World Persist Pacemaker Commit ViewProtocol.
From S2P Require Import VoteSafety Voting NodeSafety Engine TimeoutCert EngineSafety.

Section EngineVoting.
Context {St App Ev : Type} `{!BlockStore St, !BlockStoreLaws St, !Application App, !FixedSet App}.
Context `{!EvidenceStore Ev}.
Context {B3 : Blake3} {Vf : Verifier} {Sg : Signer} {Se : Setting} {No : Node}.
Context (iter : gmap vote_key (list Vote) → list (vote_key * list Vote)).
Context (hp : bool) (has_wal : bool) (wal_intent_ok : nat → Height → bool).
Context (clock_ms instant_ms : nat → N) (anc_fuel : nat).
Notation Eng := (Engine St App Ev).
Notation ME := (SM Eng engine_error).
Implicit Types e : Eng.
#[local] Hint Resolve self_honest occurs_genesis vset_wf : core.

Notation etrace e := (w_trace (en_w e)).
Notation view_of e := (cs_current_view (w_state (en_w e))).

(** ** The invariant *)

Definition ballot_of (v : Vote) : ballot := (v_vote_type v, v_view v, v_block_hash v).

(** A vote that its validator cast, if it is honest. *)
Definition backed (tr : trace) (v : Vote) : Prop :=
  voted (all_votes tr) (v_validator v) (ballot_of v) = true.

Record engine_ok e : Prop := {
  eo_collector : vc_inv (λ _, vset) (en_vote_collector e);
  eo_votes : ∀ k votes v, vc_votes (en_vote_collector e) !! k = Some votes → v ∈ votes →
    backed (etrace e) v ∧ v_view v ≤ view_of e;
  eo_qc : ∀ q, en_current_view_qc e = Some q → good (etrace e) q;
  eo_wishes : ∀ t (l : list wish) x q, pm_wishes (en_pacemaker e) !! t = Some l → x ∈ l →
    x.1.2 = Some q → good (etrace e) q;
}.

Record einv e : Prop := {
  ei_world : winv (en_w e);
  ei_pending : en_pending_epoch e = None;
  ei_previous : en_previous_epoch e = None;
  ei_engine : proposals_known (etrace e) → engine_ok e;
}.

Record ekeeps e e' : Prop := {
  ek_trace : ∃ es, etrace e' = es ++ etrace e;
  ek_view : view_of e ≤ view_of e';
  ek_inv : einv e → einv e';
}.

#[local] Instance ekeeps_preorder : PreOrder ekeeps.
Proof.
  split.
  - intros e. split; [by exists []|done|done].
  - intros a b c [[es Ht] Hv Hi] [[es' Ht'] Hv' Hi']. split; [|lia|by auto].
    exists (es' ++ es). by rewrite Ht', Ht, app_assoc.
Qed.

(** [e'] differs from [e] in nothing that voting depends on. *)
Record equiet e e' : Prop := {
  eq_keeps : ekeeps e e';
  eq_core : core (w_state (en_w e')) = core (w_state (en_w e));
  eq_votes : en_vote_collector e' = en_vote_collector e;
}.

#[local] Instance equiet_preorder : PreOrder equiet.
Proof. split; [by intros e; split|]. intros a b c [] []. split; [by etrans|congruence..]. Qed.

Lemma equiet_view e e' : equiet e e' → view_of e' = view_of e.
Proof. intros [_ E _]. unfold core in E. by injection E. Qed.

(** ** Monotone facts *)

Lemma backed_mono es tr v : backed tr v → backed (es ++ tr) v.
Proof.
  unfold backed, voted. rewrite !orb_true_iff, !bool_decide_eq_true. intros [?|?]; [by left|right].
  by apply all_votes_grows.
Qed.

Lemma engine_ok_grow e w es :
  w_trace w = es ++ etrace e → view_of e ≤ cs_current_view (w_state w) →
  engine_ok e → engine_ok (en_set_w e w).
Proof.
  intros Et Hv []. split; simpl; rewrite ?Et.
  - done.
  - intros k votes v Hk Hin. destruct (eo_votes0 k votes v Hk Hin). split; [by apply backed_mono|lia].
  - intros q Hq. apply good_mono. auto.
  - intros t l x q Hl Hx Hq. apply good_mono. eauto.
Qed.

(** A step of the world is a step of the engine. *)
Lemma ekeeps_world e w : wkeeps (en_w e) w → ekeeps e (en_set_w e w).
Proof.
  intros [[es Et] Hv Hi]. split; [by exists es|done|]. intros [Hw Hp Hpr He]. split; try done.
  - by apply Hi.
  - intros Hk. eapply engine_ok_grow; [done..|]. apply He. simpl in Hk. rewrite Et in Hk.
    by eapply proposals_known_app.
Qed.

Lemma equiet_world e w : wquiet (en_w e) w → equiet e (en_set_w e w).
Proof. intros [Hk Hc]. split; [by apply ekeeps_world|done..]. Qed.

Definition known_fact e (P : trace → Prop) : Prop := known (en_w e) P.

Lemma known_ek e e' (P : trace → Prop) :
  (∀ es tr, P tr → P (es ++ tr)) → ekeeps e e' → known (en_w e) P → known (en_w e') P.
Proof.
  intros Hm [[es E] _ _] Hk Hp. rewrite E in *. apply Hm, Hk. by eapply proposals_known_app.
Qed.

Lemma good_ek e e' q : ekeeps e e' → known_good (en_w e) q → known_good (en_w e') q.
Proof. apply known_ek. intros. by apply good_mono. Qed.

Lemma cert_ek e e' t v h :
  ekeeps e e' → known (en_w e) (λ tr, cert (all_votes tr) t v h) →
  known (en_w e') (λ tr, cert (all_votes tr) t v h).
Proof. apply known_ek. intros es tr. apply cert_mono, all_votes_grows. Qed.

Lemma dc_final_ek e e' dc : ekeeps e e' → dc_final (en_w e) dc → dc_final (en_w e') dc.
Proof.
  apply known_ek. intros es tr [v Hc]. exists v. eapply cert_mono; [apply all_votes_grows|done].
Qed.

Lemma trigger_ek e e' t : ekeeps e e' → trigger_ok (en_w e) t → trigger_ok (en_w e') t.
Proof. intros Hk. destruct t; simpl; [by apply good_ek| |done]. intros H q Hq. eapply good_ek; eauto. Qed.

(** Own-field updates. *)
Lemma ekeeps_own e e' :
  en_w e' = en_w e → (en_pending_epoch e = None → en_pending_epoch e' = None) →
  en_previous_epoch e' = en_previous_epoch e →
  (proposals_known (etrace e) → einv e → engine_ok e → engine_ok e') → ekeeps e e'.
Proof.
  intros Ew Hp Hpr He. split.
  - exists []. by rewrite Ew.
  - by rewrite Ew.
  - intros Hi. pose proof Hi as []. split; rewrite ?Ew, ?Hpr; auto.
Qed.

(** Fields that the invariant does not mention. *)
Lemma equiet_same e e' :
  en_w e' = en_w e → en_pending_epoch e' = en_pending_epoch e →
  en_previous_epoch e' = en_previous_epoch e → en_vote_collector e' = en_vote_collector e →
  en_current_view_qc e' = en_current_view_qc e → pm_wishes (en_pacemaker e') = pm_wishes (en_pacemaker e) →
  equiet e e'.
Proof.
  intros Ew Ep Epr Ec Eq Epm. split; [|by rewrite Ew|done]. apply ekeeps_own; [done|by rewrite Ep|done|].
  intros _ _ []. split; rewrite ?Ew, ?Ec, ?Eq, ?Epm; done.
Qed.

(** ** Lifting *)

Lemma eq_lift_w {E A} (f : E → engine_error) (m : SM (World St App) E A) :
  keeps wquiet m → keeps equiet (lift_w (Ev := Ev) f m).
Proof.
  intros Hm e. specialize (Hm (en_w e)). unfold lift_w.
  destruct (m (en_w e)) as [w [a|x|]]; by apply equiet_world.
Qed.

Lemma eq_vp {A} (m : SM (World St App) vp_error A) : keeps wquiet m → keeps equiet (vp (Ev := Ev) m).
Proof. apply eq_lift_w. Qed.

Lemma eq_emit x : harmless x → keeps equiet (e_emit (St := St) (App := App) (Ev := Ev) x).
Proof. intros Hx. by apply eq_vp, wq_emit. Qed.

Lemma eq_mod_state f :
  (∀ s, core (f s) = core s) → keeps equiet (e_mod_state (St := St) (App := App) (Ev := Ev) f).
Proof. intros. by apply eq_vp, wq_mod_state. Qed.

Lemma eq_now : keeps equiet (now (St := St) (App := App) (Ev := Ev) instant_ms).
Proof. apply eq_vp, wq_read_clock. Qed.

Lemma eq_modify (f : Eng → Eng) : (∀ e, equiet e (f e)) → keeps equiet (modify f : ME unit).
Proof. intros Hf e. apply Hf. Qed.

Lemma eq_then {A} (m : ME A) e0 e :
  equiet e0 e → keeps equiet m → wp m (λ e' _, equiet e0 e') e.
Proof. intros H Hm. unfold wp. etrans; [done|apply Hm]. Qed.

Lemma ek_then {A} (m : ME A) e0 e :
  ekeeps e0 e → keeps equiet m → wp m (λ e' _, ekeeps e0 e') e.
Proof. intros H Hm. unfold wp. etrans; [done|apply Hm]. Qed.

Ltac eq_step :=
  lazymatch goal with
  | |- ∀ _, _ => intros
  | |- keeps _ (mret _) => apply keeps_ret; apply _
  | |- keeps _ (gets _) => apply keeps_gets; apply _
  | |- keeps _ e_state => apply keeps_gets; apply _
  | |- keeps _ e_store => apply keeps_gets; apply _
  | |- keeps _ get_w => apply keeps_get_w; apply _
  | |- keeps _ (throw _) => apply keeps_throw; apply _
  | |- keeps _ panic => apply keeps_panic; apply _
  | |- keeps _ (lift_res _) => apply keeps_lift_res; apply _
  | |- keeps _ (now _) => apply eq_now
  | |- keeps _ (e_emit _) => apply eq_emit; by split
  | |- keeps _ (e_mod_state _) => apply eq_mod_state; reflexivity
  | |- keeps _ (modify _) => apply eq_modify; intros; by apply equiet_same
  | |- keeps _ (vp (call_app _)) => apply eq_vp, wq_call_app
  | |- keeps _ (vp (build_wish _ _ _ _ _)) => apply eq_vp, build_wish_wq
  | |- keeps _ (mbind _ _) => apply keeps_bind; [apply _|..]
  | |- keeps _ (when _ _) => apply keeps_when; [apply _|]
  | |- keeps _ (match ?x with _ => _ end) => destruct x
  end.
Ltac eq_tac := repeat eq_step; try done.

(** ** Bookkeeping *)

Lemma persist_state_eq : keeps equiet (persist_state (St := St) (App := App) (Ev := Ev) hp).
Proof. unfold persist_state. eq_tac. Qed.

Lemma log_commit_intent_eq h :
  keeps equiet (log_commit_intent (St := St) (App := App) (Ev := Ev) has_wal wal_intent_ok h).
Proof. unfold log_commit_intent. eq_tac. Qed.

Lemma finish_wal_intent_eq h : keeps equiet (finish_wal_intent (St := St) (App := App) (Ev := Ev) has_wal h).
Proof. unfold finish_wal_intent. eq_tac. Qed.

Lemma finish_if_eq b o : keeps equiet (finish_if (St := St) (App := App) (Ev := Ev) has_wal b o).
Proof. unfold finish_if. eq_tac. apply finish_wal_intent_eq. Qed.

Lemma handle_equivocation_eq r : keeps equiet (handle_equivocation (St := St) (App := App) (Ev := Ev) r).
Proof. unfold handle_equivocation. eq_tac. Qed.

Lemma extend_vote_for_eq b : keeps equiet (extend_vote_for (St := St) (App := App) (Ev := Ev) b).
Proof. unfold extend_vote_for. eq_tac. Qed.

Lemma rate_limited_eq s : keeps equiet (rate_limited (St := St) (App := App) (Ev := Ev) instant_ms s).
Proof. unfold rate_limited. eq_tac. Qed.

(** ** Commit *)

Lemma record_committed_get r (st : St) h : get_block (record_committed r st) h = get_block st h.
Proof.
  unfold record_committed. apply (enumerate_foldl_ind (λ s, get_block s h = get_block st h)); [done|].
  intros i s b _ Hs. set (s1 := if bool_decide _ then _ else _).
  assert (get_block s1 h = get_block st h) as H1.
  { unfold s1. case_bool_decide; [by rewrite get_put_commit_qc|done]. }
  assert (get_block (index_txs b s1) h = get_block st h) as H2.
  { unfold index_txs. apply (enumerate_foldl_ind (λ s, get_block s h = get_block st h)); [done|].
    intros i' s' tx _ Hs'. by rewrite get_put_tx_index. }
  case_match; [by rewrite get_put_block_results|done].
Qed.

Lemma eq_mod_store (f : St → St) :
  (∀ st h, get_block (f st) h = get_block st h) →
  keeps equiet (e_mod_store (App := App) (Ev := Ev) f).
Proof.
  intros Hf. apply eq_vp. intros w. apply (store_wquiet w f). intros _ Hst h b.
  rewrite Hf. apply Hst.
Qed.

Lemma process_commit_result_eq r :
  keeps equiet (process_commit_result (St := St) (App := App) (Ev := Ev) hp has_wal r).
Proof.
  unfold process_commit_result.
  eq_tac; [apply eq_mod_store, record_committed_get|apply persist_state_eq|apply finish_wal_intent_eq].
Qed.

Lemma adopt_commit_epoch_eq r :
  no_epochs r → keeps equiet (adopt_commit_epoch (St := St) (App := App) (Ev := Ev) r).
Proof.
  intros [Hp Ha]. unfold adopt_commit_epoch. rewrite Ha, Hp. eq_tac.
  apply eq_modify. intros e. split; [|done..]. by apply ekeeps_own; [..|intros _ _ []].
Qed.

Lemma wp_try_w {E A} (m : SM (World St App) E A) Q e :
  wp m (λ w r, Q (en_set_w e w) (match r with Ok a => Ok (inl a) | Err x => Ok (inr x) | Panic => Panic end))
    (en_w e) →
  wp (try_w (Ev := Ev) m) Q e.
Proof. unfold wp, try_w. by destruct (m (en_w e)) as [w [a|x|]]. Qed.

Lemma apply_commit_ok dc e :
  einv e → dc_final (en_w e) dc →
  wp (apply_commit (St := St) (App := App) (Ev := Ev) hp has_wal wal_intent_ok dc)
    (λ e' _, equiet e e') e.
Proof.
  intros Hi Hd. unfold apply_commit. apply wp_bind, wp_gets, wp_bind.
  eapply wp_mono; [apply (eq_then _ e e); [done|]|].
  { destruct (b_height <$> _); [apply log_commit_intent_eq|eq_tac]. }
  cbv beta. intros e1 [[]|x|] H1; [|done..]. apply wp_bind, wp_get_w, wp_bind, wp_try_w.
  assert (einv e1) as Hi1 by by apply H1. rewrite (ei_pending _ Hi1).
  eapply wp_mono; [apply try_commit_ok; [apply Hi1|]|].
  { eapply dc_final_ek; [apply H1|done]. }
  cbv beta. intros w2 r (H2&_&Hc). set (e2 := en_set_w e1 w2).
  assert (equiet e e2) as H02 by (etrans; [exact H1|by apply equiet_world]).
  destruct r as [cr|x|]; [assert (no_epochs cr) by (by apply Hc)| |done]; (apply eq_then; [done|]);
    eq_tac; auto using adopt_commit_epoch_eq, process_commit_result_eq, finish_if_eq.
Qed.

(** ** Collecting votes *)

(** What [add_vote] does to the collector of a node in the fixed set. *)
Lemma add_vote_engine e vote c r :
  einv e → proposals_known (etrace e) →
  add_vote iter (en_vote_collector e) (cs_validator_set (en_state e)) vote
    (e_number (cs_current_epoch (en_state e))) = (c, r) →
  vc_inv (λ _, vset) c ∧
  (∀ k votes v, vc_votes c !! k = Some votes → v ∈ votes →
     v = vote ∨ ∃ votes', vc_votes (en_vote_collector e) !! k = Some votes' ∧ v ∈ votes') ∧
  (∀ res qc, r = Ok res → vr_qc res = Some qc →
     let votes := bucket (en_vote_collector e) (vote_key_of vote) ++ [vote] in
     quorum (λ id, bool_decide (id ∈ v_validator <$> votes))).
Proof.
  intros Hi Hk Ha. destruct (ei_world _ Hi Hk) as [[_ Hs _ _] _]. unfold en_state in Ha.
  rewrite (so_set _ _ Hs), (so_epoch _ _ Hs) in Ha. simpl in Ha.
  pose proof (eo_collector _ (ei_engine _ Hi Hk)) as Hc.
  pose proof (add_vote_spec iter (λ _, vset) (en_vote_collector e) vote 0 vset_wf Hc) as Hsp.
  cbv beta zeta in Hsp. rewrite Ha in Hsp. destruct Hsp as (Hc'&Hne&Hr). split; [done|].
  assert (∀ l, bucket c (vote_key_of vote) = l →
    (∀ v, v ∈ l → v = vote ∨ v ∈ bucket (en_vote_collector e) (vote_key_of vote)) →
    ∀ k votes v, vc_votes c !! k = Some votes → v ∈ votes →
     v = vote ∨ ∃ votes', vc_votes (en_vote_collector e) !! k = Some votes' ∧ v ∈ votes') as Hold.
  { intros l El Hl k votes v Ek Hv. destruct (decide (k = vote_key_of vote)) as [->|Hn].
    - unfold bucket in El. rewrite Ek in El. simpl in El. subst l. destruct (Hl v Hv) as [->|Hb]; [by left|].
      right. unfold bucket in Hb. destruct (vc_votes (en_vote_collector e) !! _) as [l|] eqn:E; [by eauto|].
      by apply not_elem_of_nil in Hb.
    - right. rewrite Hne in Ek by done. eauto. }
  destruct r as [res|[| |id|x]|]; try done.
  - destruct Hr as (_&_&[(_&Hb&Hq&_)|(_&Hb&agg&Hagg&Hq)]).
    + split; [apply (Hold _ Hb); auto|]. intros ? ? [= <-]. by rewrite Hq.
    + split; [apply (Hold _ Hb); intros v [?| ->%list_elem_of_singleton]%elem_of_app; auto|].
      intros ? qc [= <-] Eq. destruct (has_quorum vset agg) eqn:Eh; [|destruct Hq; congruence].
      rewrite (bucket_has_quorum vset _ _ vset_wf Hagg) in Eh. by apply N.leb_le in Eh.
  - destruct Hr as [_ ->]. split; [|done]. intros k votes v Ek Hv. right. eauto.
  - destruct Hr as (_&_&->). split; [|done]. intros k votes v Ek Hv. right. eauto.
  - destruct Hr as (_&_&Hb). split; [|done]. apply (Hold _ Hb). auto.
Qed.

(** The votes of the bucket it completes are for the same ballot. *)
Lemma bucket_cert e vote :
  einv e → proposals_known (etrace e) → backed (etrace e) vote →
  quorum (λ id, bool_decide (id ∈ v_validator <$>
            (bucket (en_vote_collector e) (vote_key_of vote) ++ [vote]))) →
  cert (all_votes (etrace e)) (v_vote_type vote) (v_view vote) (v_block_hash vote).
Proof.
  intros Hi Hk Hb. destruct (ei_engine _ Hi Hk) as [Hc Hv _ _]. apply quorum_mono.
  intros id Hid. bool_prop. apply list_elem_of_fmap in Hid as (v&->&[Hin| ->%list_elem_of_singleton]%elem_of_app);
    [|done].
  pose proof (bk_key _ _ _ (bucket_ok_default _ _ (vote_key_of vote) Hc) v Hin) as Hkey.
  unfold bucket in Hin. destruct (vc_votes _ !! _) as [l|] eqn:E; [|by apply not_elem_of_nil in Hin].
  destruct (Hv _ _ _ E Hin) as [Hba _]. unfold backed, ballot_of in Hba.
  unfold vote_key_of in Hkey. injection Hkey as _ <- <- <-. done.
Qed.

Lemma e_add_vote_ok vote e :
  einv e → known (en_w e) (λ tr, backed tr vote) → v_view vote ≤ view_of e →
  wp (e_add_vote (St := St) (App := App) (Ev := Ev) iter vote)
    (λ e' r, ekeeps e e' ∧ en_w e' = en_w e ∧ ∀ result qc, r = Ok (inl result) →
       vr_qc result = Some qc →
       qc_view qc = v_view vote ∧ qc_block_hash qc = v_block_hash vote ∧
       known (en_w e') (λ tr, cert (all_votes tr) (v_vote_type vote) (v_view vote) (v_block_hash vote))) e.
Proof.
  intros Hi Hb Hle. unfold wp, e_add_vote. destruct (add_vote _ _ _ _ _) as [c r] eqn:Ha.
  assert (ekeeps e (en_set_vote_collector e c)) as He.
  { apply ekeeps_own; try done. intros Hk _ Ho. destruct (add_vote_engine _ _ _ _ Hi Hk Ha) as (Hc&Hv&_).
    destruct Ho as [_ Hvo Hq Hw]. split; try done. simpl. intros k votes v Ek Hin.
    destruct (Hv k votes v Ek Hin) as [->|(votes'&Ek'&Hin')]; [split; [by apply Hb|done]|by eapply Hvo]. }
  assert (∀ res qc, r = Ok res → vr_qc res = Some qc →
    qc_view qc = v_view vote ∧ qc_block_hash qc = v_block_hash vote) as Hq.
  { intros res qc -> Hqc. revert Ha. unfold add_vote.
    repeat (case_match; try done); intros [= <- <-]; by simplify_eq/=. }
  destruct r as [res|x|]; (split; [done|]; split; [done|]); [|done..].
  intros result qc [= <-] Hqc. destruct (Hq res qc eq_refl Hqc) as [? ?]. split_and!; [done..|].
  intros Hk. apply (bucket_cert e); [done..|by apply Hb|].
  destruct (add_vote_engine _ _ _ _ Hi Hk Ha) as (_&_&Hqu). by eapply Hqu.
Qed.

(** No vote of the current view has been collected. *)
Definition fresh e : Prop :=
  ∀ k votes, vc_votes (en_vote_collector e) !! k = Some votes → votes ≠ [] → k.1.1.2 < view_of e.

(** The node's own vote alone makes no certificate. *)
Lemma e_add_vote_fresh vote e :
  einv e → known (en_w e) (λ _, fresh e ∧ v_validator vote = self) → v_view vote = view_of e →
  wp (e_add_vote (St := St) (App := App) (Ev := Ev) iter vote)
    (λ e' r, ∀ result, r = Ok (inl result) → known (en_w e) (λ _, vr_qc result = None)) e.
Proof.
  intros Hi Hfid Hv. unfold wp, e_add_vote. destruct (add_vote _ _ _ _ _) as [c r] eqn:Ha.
  destruct r as [res|x|]; try done. intros result [= <-] Hk. destruct (Hfid Hk) as [Hf Hid].
  destruct (vr_qc res) as [qc|] eqn:Eq; [exfalso|done].
  destruct (add_vote_engine _ _ _ _ Hi Hk Ha) as (_&_&Hq). specialize (Hq res qc eq_refl Eq).
  assert (bucket (en_vote_collector e) (vote_key_of vote) = []) as Eb.
  { unfold bucket. destruct (vc_votes _ !! _) as [l|] eqn:E; [|done]. simpl.
    destruct l as [|v l]; [done|]. specialize (Hf _ _ E ltac:(done)). simpl in Hf. lia. }
  cbv zeta in Hq. rewrite Eb in Hq. csimpl in Hq. unfold quorum in Hq. pose proof self_power as Hp.
  rewrite power_of_where in Hp by done.
  assert (power_where (λ id, bool_decide (id ∈ [v_validator vote])) (vs_validators vset) ≤
          power_where (λ x, x =? self) (vs_validators vset)); [|lia].
  apply power_where_mono. intros v _ Hin. bool_prop. apply list_elem_of_singleton in Hin.
  apply N.eqb_eq. congruence.
Qed.

(** ** The view-change recursion *)

(** What the recursion assumes of [try_propose]: it keeps the invariant, and
    stays in its view when no vote of that view has been collected. *)
Record proposer_ok (tp : ME unit) : Prop := {
  ts_ok : ∀ e, einv e → wp tp (λ e' _, ekeeps e e') e;
  ts_fresh : ∀ e, einv e → known (en_w e) (λ _, fresh e) →
    wp tp (λ e' _, known (en_w e') (λ _, view_of e' = view_of e)) e;
}.

Lemma enter_view_sets_view view trigger w :
  trigger_ok w trigger → cs_current_view (w_state w) < view →
  wp (enter_view (St := St) (App := App) view trigger)
    (λ w' _, cs_current_view (w_state w') = view) w.
Proof.
  intros Ht Hlt. unfold enter_view. wp_steps.
  rewrite (proj2 (N.leb_gt _ _) Hlt), andb_false_r. wp_steps.
  set (w2 := w_set_state _ _). assert (cs_current_view (w_state w2) = view) as H2 by done.
  assert (∀ w3 E A (m : SM (World St App) E A), cs_current_view (w_state w3) = view → keeps wquiet m →
    wp m (λ w' _, cs_current_view (w_state w') = view) w3) as Hq.
  { intros w3 E A m H3 Hm. unfold wp. destruct (Hm w3) as [_ Ec]. unfold core in Ec.
    injection Ec as _ _ _ _ -> _ _ _ _. done. }
  assert (∀ q, cs_current_view (update_highest_qc (w_state w2) q) = view) as Hu.
  { intros q. unfold update_highest_qc. by destruct (dominated _ _). }
  destruct trigger as [dc|tc|]; [| |done].
  - wp_steps. apply Hq; [apply Hu|]. apply settle_wq, send_status_wq.
  - apply wp_bind. destruct (tc_highest_qc tc); wp_steps;
      (apply Hq; [|apply settle_wq, send_status_wq]); [apply Hu|done].
Qed.

(** The votes and wishes of past views are dropped. *)
Definition forget_view (cur : ViewNumber) e : Eng :=
  let e := en_set_vote_collector e (vc_prune_before (vc_clear_view (en_vote_collector e) cur) cur) in
  let e := en_set_pacemaker e (pm_prune_before (pm_clear_view (en_pacemaker e) cur) cur) in
  en_set_current_view_qc (en_set_status_senders e ∅) None.

Lemma forget_view_keeps cur e : ekeeps e (forget_view cur e).
Proof.
  apply ekeeps_own; try done. intros _ _ [Hc Hv Hq Hw]. split; simpl.
  - unfold vc_prune_before, vc_clear_view. by do 2 apply (vc_inv_filter (λ _, vset)).
  - intros k votes v. rewrite !map_lookup_filter_Some. intros [[Hk _] _]. by eapply Hv.
  - done.
  - intros t l x q. rewrite map_lookup_filter_Some. intros [Hl _].
    apply lookup_delete_Some in Hl as [_ Hl]. by eapply Hw.
Qed.

Lemma forget_view_votes cur e k votes :
  vc_votes (en_vote_collector (forget_view cur e)) !! k = Some votes →
  vc_votes (en_vote_collector e) !! k = Some votes.
Proof. simpl. rewrite !map_lookup_filter_Some. by intros [[? _] _]. Qed.

(** Votes collected before a view was entered are not of that view. *)
Lemma entered_fresh e e' :
  einv e → proposals_known (etrace e') → ekeeps e e' →
  (∀ k votes, vc_votes (en_vote_collector e') !! k = Some votes →
     vc_votes (en_vote_collector e) !! k = Some votes) →
  view_of e < view_of e' → fresh e'.
Proof.
  intros Hi Hk [[es E] _ _] Hv Hlt k votes Ek Hne. rewrite E in Hk.
  apply proposals_known_app in Hk. destruct (ei_engine _ Hi Hk) as [Hc Hvo _ _].
  apply Hv in Ek. destruct votes as [|v votes]; [done|].
  destruct (Hvo _ _ v Ek) as [_ Hle]; [left|].
  pose proof (bk_key _ _ _ (Hc _ _ Ek) v ltac:(left)) as <-. simpl. lia.
Qed.

Section Recursion.
Context (tp : ME unit) (Htp : proposer_ok tp).

(** After entering a view: the timer, the persistence and the proposal. *)
Lemma settled_view_ok e (f : N → Eng → Eng) :
  einv e → (∀ t e, equiet e (f t e)) →
  wp (t ← now instant_ms; modify (f t) ;; persist_state hp ;;
      s ← e_state;
      when (cs_is_leader s && bool_decide (cs_step s = WaitingForStatus)) tp : ME unit)
    (λ e' _, ekeeps e e' ∧ (known (en_w e) (λ _, fresh e) → known (en_w e') (λ _, view_of e' = view_of e))) e.
Proof.
  intros Hi Hf. apply wp_bind.
  eapply wp_mono; [apply (eq_then _ e e); [done|apply eq_now]|]. cbv beta.
  intros e1 r H1. destruct r as [t|x|];
    [|(split; [apply H1|]; intros _ _; by apply equiet_view)..].
  apply wp_bind, wp_modify. assert (equiet e (f t e1)) as H2 by by etrans.
  apply wp_bind. eapply wp_mono; [apply (eq_then _ e (f t e1)); [done|apply persist_state_eq]|].
  cbv beta. intros e3 r H3. destruct r as [[]|x|];
    [|(split; [apply H3|]; intros _ _; by apply equiet_view)..].
  apply wp_bind, wp_gets, wp_when; intros _.
  2: { split; [apply H3|]. intros _ _. by apply equiet_view. }
  assert (einv e3) as Hi3 by by apply H3.
  pose proof (ts_ok _ Htp e3 Hi3) as Ho. unfold wp in Ho |- *.
  assert (ekeeps e (tp e3).1) as Hk by (etrans; [apply H3|exact Ho]). split; [exact Hk|].
  intros Hfr. assert (known (en_w e3) (λ _, fresh e3)) as Hf3.
  { intros Hp k votes. rewrite (eq_votes _ _ H3), (equiet_view _ _ H3). apply Hfr.
    destruct H3 as [[[es E] _ _] _ _]. rewrite E in Hp. by eapply proposals_known_app. }
  pose proof (ts_fresh _ Htp e3 Hi3 Hf3) as Hv. unfold wp in Hv. intros Hp.
  rewrite (Hv Hp). by apply equiet_view.
Qed.

Lemma advance_view_to_ok v tr e :
  einv e → trigger_ok (en_w e) tr →
  wp (advance_view_to hp instant_ms tp v tr)
    (λ e' r, ekeeps e e' ∧
       (r = Ok () → view_of e < v → known (en_w e') (λ _, view_of e' = v))) e.
Proof.
  intros Hi Ht. unfold advance_view_to. apply wp_bind, wp_gets.
  destruct (N.leb_spec v (cs_current_view (en_state e))) as [Hle|Hlt].
  { apply wp_ret. split; [done|]. unfold en_state in Hle. lia. }
  apply wp_bind, wp_get_w, wp_bind.
  match goal with |- wp (e_mod_state ?f) _ _ => set (g := f) end.
  pose proof (eq_mod_state g ltac:(done) e) as H1. unfold wp.
  change (e_mod_state g e) with (en_set_w e (w_set_state (en_w e) (g (en_state e))), Ok (E := engine_error) ()) in *.
  simpl fst in *. simpl snd. cbv iota. set (e1 := en_set_w e _) in *.
  apply wp_bind, wp_modify, wp_bind, wp_modify, wp_bind, wp_modify, wp_bind, wp_modify.
  set (e2 := en_set_current_view_qc _ None).
  assert (e2 = forget_view (cs_current_view (en_state e)) e1) as E2 by done. clearbody e2. subst e2.
  set (e2 := forget_view _ e1).
  assert (ekeeps e e2) as H2 by (etrans; [apply H1|apply forget_view_keeps]).
  assert (einv e2) as Hi2 by by apply H2. assert (view_of e2 = view_of e) as V2 by by apply (equiet_view _ _ H1).
  apply wp_bind. unfold switch_epoch. apply wp_bind, wp_get_w. rewrite (ei_pending _ Hi2). apply wp_ret.
  cbv beta iota. apply wp_bind, wp_lift_w.
  eapply wp_mono; [apply (wp_and _ (λ w' _, wkeeps (en_w e2) w')
    (λ w' _, cs_current_view (w_state w') = v))|].
  { apply enter_view_ok. by eapply trigger_ek. }
  { apply enter_view_sets_view; [by eapply trigger_ek|]. rewrite V2. exact Hlt. }
  cbv beta. intros w3 r [H3 V3]. set (e3 := en_set_w e2 w3).
  assert (ekeeps e2 e3) as H23 by by apply ekeeps_world. assert (ekeeps e e3) as H03 by by etrans.
  destruct r as [[]|x|]; [|done..].
  assert (einv e3) as Hi3 by by apply H03.
  eapply wp_mono; [apply (settled_view_ok e3 (λ t e, en_set_pacemaker e
    (match tr with TrDoubleCert _ => reset_on_progress t (en_pacemaker e)
                 | _ => reset_timer t (en_pacemaker e) end)) Hi3)|].
  { intros t e4. apply equiet_same; try done. by destruct tr. }
  cbv beta. intros e4 r [H4 V4]. split; [by etrans|]. intros _ _ Hp. rewrite V4; [done| |done].
  intros Hk. eapply (entered_fresh e e3); [done..| |unfold e3; simpl; rewrite V3; exact Hlt].
  intros k votes Ek. by apply forget_view_votes in Ek.
Qed.

Lemma advance_view_ok tr e :
  einv e → trigger_ok (en_w e) tr →
  wp (advance_view hp instant_ms tp tr) (λ e' _, ekeeps e e') e.
Proof.
  intros Hi Ht. unfold advance_view. apply wp_bind, wp_gets, wp_bind.
  assert (∀ v, wp (advance_view_to hp instant_ms tp v tr) (λ e' _, ekeeps e e') e) as Ha.
  { intros v. eapply wp_mono; [by apply advance_view_to_ok|]. by intros ? ? []. }
  destruct tr; simpl in Ht; try done; [|by apply wp_ret].
  apply wp_lift_res. by destruct (ViewNumber_next _); [apply Ha|..].
Qed.

(** ** Double certificates *)

Lemma find_inner_good e outer q :
  einv e → find_inner_qc (en_current_view_qc e) (en_state e) outer = Some q →
  known_good (en_w e) q ∧ qc_block_hash q = qc_block_hash outer.
Proof.
  intros Hi Hf. assert (∀ o q, matching_qc outer o = Some q → o = Some q ∧ qc_block_hash q = qc_block_hash outer) as Hm.
  { intros o q'. unfold matching_qc. destruct o; [|done]. case_bool_decide; [|done]. by intros [= <-]. }
  unfold find_inner_qc in Hf. unfold known_good, known.
  destruct (matching_qc outer (en_current_view_qc e)) eqn:E1.
  { injection Hf as <-. apply Hm in E1 as [E ?]. split; [|done]. intros Hk.
    by apply (eo_qc _ (ei_engine _ Hi Hk)). }
  destruct (matching_qc outer (cs_locked_qc _)) eqn:E2.
  { injection Hf as <-. apply Hm in E2 as [E ?]. split; [|done]. intros Hk.
    destruct (ei_world _ Hi Hk) as [[_ Hs _ _] _]. by apply (so_lock _ _ Hs). }
  apply Hm in Hf as [E ?]. split; [|done]. intros Hk. destruct (ei_world _ Hi Hk) as [[_ Hs _ _] _].
  destruct (so_highest _ _ Hs) as (q'&E'&?). unfold en_state in E. rewrite E in E'. by simplify_eq.
Qed.

Lemma on_double_cert_formed_ok outer x e :
  einv e → known (en_w e) (λ tr, cert (all_votes tr) TVote2 (qc_view outer) (qc_block_hash outer)) →
  wp (on_double_cert_formed hp has_wal wal_intent_ok instant_ms tp outer x) (λ e' _, ekeeps e e') e.
Proof.
  intros Hi Hc. unfold on_double_cert_formed. apply wp_bind, wp_get_w, wp_bind, wp_modify.
  set (e1 := en_set_current_view_qc e None).
  assert (ekeeps e e1) as H1 by (by apply ekeeps_own; [..|intros _ _ []]).
  destruct (find_inner_qc _ _ _) as [inner|] eqn:Ef; [|by apply wp_ret].
  apply find_inner_good in Ef as [Hg Eh]; [|done]. set (dc := mkDC inner outer x).
  assert (dc_final (en_w e) dc) as Hd.
  { intros Hk. exists (qc_view outer). simpl. rewrite Eh. by apply Hc. }
  apply wp_bind. eapply wp_mono; [apply apply_commit_ok; [by apply H1|by eapply dc_final_ek]|].
  cbv beta. intros e2 r H2. assert (ekeeps e e2) as H02 by (etrans; [exact H1|apply H2]).
  destruct r as [[]|y|]; [|done..]. apply wp_bind.
  eapply wp_mono; [apply (ek_then _ e e2 H02); by apply eq_mod_state|].
  cbv beta. intros e3 r H3. destruct r as [[]|y|]; [|done..].
  eapply wp_mono; [apply advance_view_ok; [by apply H3|]|cbv beta; intros; by etrans].
  simpl. by eapply good_ek.
Qed.

(** ** The leader's own votes *)

(** Recording and persisting a vote, up to its signature. *)
Lemma record_persist_ok ty h e (k : ME unit) (Q : Eng → res engine_error unit → Prop) :
  (∀ e', ekeeps e e' → view_of e' = view_of e → Q e' (Ok ())) →
  (∀ e', ekeeps e e' → en_vote_collector e' = en_vote_collector e →
     w_state (en_w e') = set_last_vote (w_state (en_w e)) ty (Some (view_of e, h)) →
     wp k Q e') →
  wp (ok ← vp (record_vote ty h);
      if negb ok then mret ()
      else s ← e_state; vp (persist_vote hp ty (cs_current_view s) h) ;; k) Q e.
Proof.
  intros Hq Hk. apply wp_bind, wp_lift_w. eapply wp_mono; [apply record_vote_ok|]. cbv beta.
  intros w1 r (H1&_&ok&->&Es). assert (ekeeps e (en_set_w e w1)) as He1 by by apply ekeeps_world.
  destruct ok; cbn [negb]; [|apply wp_ret, Hq; [done|by rewrite <- Es]].
  apply wp_bind, wp_gets, wp_bind, wp_lift_w. eapply wp_mono; [apply persist_vote_ok|]. cbv beta.
  intros w2 r (->&H2&Es2). apply Hk; [|done|].
  - etrans; [exact He1|]. by apply (ekeeps_world (en_set_w e w1)), H2.
  - simpl. by rewrite Es2.
Qed.

Lemma last_vote_view s ty x : cs_current_view (set_last_vote s ty x) = cs_current_view s.
Proof. by destruct ty. Qed.

Lemma last_vote_lock s ty x : cs_locked_qc (set_last_vote s ty x) = cs_locked_qc s.
Proof. by destruct ty. Qed.

Lemma last_vote_highest s ty x : cs_highest_qc (set_last_vote s ty x) = cs_highest_qc s.
Proof. by destruct ty. Qed.

(** A signed vote of this node is backed by its own signature. *)
Lemma own_vote_backed e c ep h ty x sg (w : World St App) :
  einv e →
  w_trace w = ESign (PVote c ep (view_of e) (cs_validator_id (en_state e)) h ty x) :: etrace e →
  known w (λ tr, backed tr (mkVote ep h (view_of e) (cs_validator_id (en_state e)) sg ty x)).
Proof.
  intros Hi E Hk. rewrite E in *. apply (proposals_known_app [_]) in Hk.
  destruct (ei_world _ Hi Hk) as [[_ Hs _ _] _]. unfold backed, voted, ballot_of. simpl.
  unfold en_state. rewrite (so_id _ _ Hs), self_honest. simpl. apply bool_decide_eq_true.
  rewrite all_votes_own. unfold votes_of. simpl. left.
Qed.

Lemma known_votable_ek e e' b :
  ekeeps e e' → view_of e' = view_of e →
  cs_locked_qc (w_state (en_w e')) = cs_locked_qc (w_state (en_w e)) →
  known_votable (en_w e) b → known_votable (en_w e') b.
Proof.
  intros [[es E] _ _] Evi El Hv Hp. rewrite E in Hp. apply proposals_known_app in Hp.
  destruct (Hv Hp) as [Eb (p&?&Hcp&Hl)]. split; [by rewrite Evi|]. exists p.
  split_and!; [done| |by rewrite El]. rewrite E. eapply certified_mono; [apply all_votes_grows|done].
Qed.

(** A vote is added and the certificate it completes, if any, is handed on. *)
Lemma add_vote_then_ok e vote (k : QuorumCertificate → VoteResult → ME unit)
    (err : vc_error → ME unit) (Q : Eng → res engine_error unit → Prop) :
  einv e → known (en_w e) (λ tr, backed tr vote) → v_view vote ≤ view_of e →
  (∀ e' r, ekeeps e e' → view_of e' = view_of e → Q e' r) →
  (∀ x e', ekeeps e e' → view_of e' = view_of e → wp (err x) Q e') →
  (∀ qc result e', ekeeps e e' → view_of e' = view_of e → qc_view qc = v_view vote →
     known (en_w e') (λ tr, cert (all_votes tr) (v_vote_type vote) (qc_view qc) (qc_block_hash qc)) →
     wp (k qc result) Q e') →
  wp (r ← e_add_vote (St := St) (App := App) (Ev := Ev) iter vote;
      match r with
      | inl result =>
          handle_equivocation result ;;
          match vr_qc result with Some qc => k qc result | None => mret () end
      | inr x => err x
      end) Q e.
Proof.
  intros Hi Hb Hv Hearly Herr Hk. apply wp_bind.
  eapply wp_mono; [by apply e_add_vote_ok|]. cbv beta. intros e1 r (H1&Ew&Hq).
  assert (view_of e1 = view_of e) as V1 by by rewrite Ew.
  destruct r as [[result|x]|x|]; [|by apply Herr|by apply Hearly..]. apply wp_bind.
  eapply wp_mono; [apply (eq_then _ e1 e1); [done|apply handle_equivocation_eq]|]. cbv beta.
  intros e2 r H2. assert (ekeeps e e2) as H02 by (etrans; [exact H1|apply H2]).
  assert (view_of e2 = view_of e) as V2 by (by rewrite (equiet_view _ _ H2)).
  destruct r as [[]|x|]; [|by apply Hearly..].
  destruct (vr_qc result) as [qc|] eqn:Eq; [|by apply Hearly].
  destruct (Hq result qc eq_refl Eq) as (Evi&Eh&Hc). apply Hk; [done..|].
  eapply cert_ek; [apply H2|]. by rewrite Evi, Eh.
Qed.

(** What follows the leader's second-phase vote. *)
Lemma after_vote2_ok e vote :
  einv e → known (en_w e) (λ tr, backed tr vote) → v_view vote ≤ view_of e → v_vote_type vote = TVote2 →
  wp (persist_state hp ;;
      s ← e_state;
      next ← lift_res (next_leader (cs_validator_set s) (cs_current_view s));
      if next =? cs_validator_id s then
        r ← e_add_vote iter vote;
        match r with
        | inl result =>
            handle_equivocation result ;;
            match vr_qc result with
            | Some outer_qc =>
                on_double_cert_formed hp has_wal wal_intent_ok instant_ms tp outer_qc
                  (vr_extensions result)
            | None => mret ()
            end
        | inr _ => mret ()
        end
      else e_emit (ESendTo next (Vote2Msg vote)) : ME unit) (λ e' _, ekeeps e e') e.
Proof.
  intros Hi Hb Hv Hty. apply wp_bind.
  eapply wp_mono; [apply (eq_then _ e e); [done|apply persist_state_eq]|]. cbv beta.
  intros e1 r H1. destruct r as [[]|x|]; [|apply H1..].
  apply wp_bind, wp_gets, wp_bind, wp_lift_res.
  destruct (next_leader _ _) as [next|x|]; [|apply H1..]. destruct (next =? _).
  2: { apply ek_then; [apply H1|]. by apply eq_emit. }
  apply (add_vote_then_ok e1 vote
    (λ qc result, on_double_cert_formed _ _ _ _ _ qc (vr_extensions result)) (λ _, mret ())).
  - by apply H1.
  - eapply known_ek; [|apply H1|done]. intros. by apply backed_mono.
  - by rewrite (equiet_view _ _ H1).
  - intros e2 _ H2 _. etrans; [apply H1|done].
  - intros _ e2 H2 _. apply wp_ret. etrans; [apply H1|done].
  - intros qc result e2 H2 _ _ Hc. rewrite Hty in Hc.
    eapply wp_mono; [apply on_double_cert_formed_ok; [by apply H2, H1|done]|].
    cbv beta. intros e3 _ H3. etrans; [apply H1|]. by etrans.
Qed.

(** Signing the second-phase vote and locking. *)
Lemma sign_lock_ok e q h c ep id x :
  einv e → known (en_w e) (λ tr, cert (all_votes tr) TVote (view_of e) h) →
  qc_block_hash q = h → qc_view q = view_of e → rank_le (Some q) (cs_highest_qc (en_state e)) →
  last_vote (en_state e) TVote2 = Some (view_of e, h) →
  let w1 := w_emit (en_w e) (ESign (PVote c ep (view_of e) id h TVote2 x)) in
  ekeeps e (en_set_w e (w_set_state w1 (update_locked_qc (w_state w1) q))).
Proof.
  intros Hi Hc Eh Evi Hr Hl w1. apply ekeeps_world. apply wkeeps_intro.
  - by exists [ESign (PVote c ep (view_of e) id h TVote2 x)].
  - simpl. by rewrite update_locked_qc_view.
  - intros Hk Ho Hlk. simpl in Hk. apply (proposals_known_app [_]) in Hk.
    destruct (sign_second (en_w e) h c ep id x Ho (Hc Hk) Hl) as [[Hre Hs Hst Hf] Hv]. fold w1 in Hre, Hs, Hst, Hf, Hv.
    split.
    + split; try done. apply state_ok_locked; [|done|done]. right. rewrite Eh, Evi.
      eapply (cert_mono (all_votes (etrace e))); [|by apply Hc].
      apply (all_votes_grows [ESign (PVote c ep (view_of e) id h TVote2 x)]).
    + intros v h'. simpl. intros [->|Hin]%Hv.
      * apply (lock_above_mono (Some q)); [apply (update_locked_qc_rank (en_state e) q)|]. simpl. lia.
      * eapply lock_above_mono; [exact (proj1 (update_locked_qc_rank (en_state e) q))|]. by eapply Hlk.
Qed.

Lemma on_qc_formed_ok qc e :
  einv e → known (en_w e) (λ tr, cert (all_votes tr) TVote (qc_view qc) (qc_block_hash qc)) →
  qc_view qc = view_of e →
  wp (on_qc_formed iter hp has_wal wal_intent_ok instant_ms tp qc) (λ e' _, ekeeps e e') e.
Proof.
  intros Hi Hc Evi. assert (known_good (en_w e) qc) as Hg by (intros Hk; right; by apply Hc).
  unfold on_qc_formed. apply wp_bind, wp_modify, wp_bind, wp_lift_w.
  set (e1 := en_set_current_view_qc e (Some qc)). assert (ekeeps e e1) as H1.
  { apply ekeeps_own; try done. intros Hk _ [Hco Hv _ Hw]. split; try done.
    intros q [= <-]. by apply Hg. }
  eapply wp_mono; [by apply (on_votes_collected_ok qc (en_w e1))|]. cbv beta.
  intros w2 r (->&H2&V2&Hr2). set (e2 := en_set_w e1 w2).
  assert (ekeeps e e2) as H02 by (etrans; [exact H1|by apply ekeeps_world]).
  apply wp_bind, wp_gets, wp_bind.
  eapply wp_mono; [apply (eq_then _ e2 e2); [done|apply extend_vote_for_eq]|]. cbv beta.
  intros e3 r H3. assert (ekeeps e e3) as H03 by (etrans; [exact H02|apply H3]).
  destruct r as [x|y|]; [|done..].
  assert (view_of e3 = view_of e ∧ rank_le (Some qc) (cs_highest_qc (en_state e3))) as [V3 Hr3].
  { rewrite (equiet_view _ _ H3). split; [exact V2|]. unfold en_state.
    pose proof (eq_core _ _ H3) as E. unfold core in E. injection E as _ _ _ _ _ _ _ -> _. exact Hr2. }
  assert (known (en_w e3) (λ tr, cert (all_votes tr) TVote (view_of e3) (qc_block_hash qc))) as Hc3.
  { rewrite V3, <- Evi. by eapply cert_ek. }
  apply (record_persist_ok TVote2 (qc_block_hash qc) e3); [intros e4 H4 _; by etrans|].
  intros e4 H4 _ Es4. unfold make_vote. apply wp_bind, wp_lift_w, wp_bind, wp_get_state, wp_bind.
  apply wp_sign_payload, wp_ret. cbv beta iota. apply wp_bind.
  assert (view_of e4 = view_of e3 ∧ cs_highest_qc (en_state e4) = cs_highest_qc (en_state e3)) as [V4 Hh4].
  { unfold en_state. by rewrite Es4. }
  match goal with |- context [mkVote ?ep ?h ?v ?id ?sg ?t ?x'] =>
    pose (vote := mkVote ep h v id sg t x'); change (mkVote ep h v id sg t x') with vote end.
  match goal with |- wp _ _ (en_set_w e4 ?w') => set (w5 := w') end.
  set (e6 := en_set_w e4 (w_set_state w5 (update_locked_qc (w_state w5) qc))).
  change (wp (e_mod_state _) ?Q (en_set_w e4 w5)) with (Q e6 (Ok (E := engine_error) ())). cbv beta iota.
  assert (einv e4) as Hi4 by by apply H4, H03.
  assert (ekeeps e4 e6) as H6.
  { apply sign_lock_ok; try done.
    - rewrite V4. by eapply cert_ek.
    - by rewrite V4, V3.
    - by rewrite Hh4.
    - unfold en_state. by rewrite Es4, last_vote_set, last_vote_view. }
  assert (ekeeps e e6) as H06 by (etrans; [exact H03|]; by etrans).
  eapply wp_mono; [apply (after_vote2_ok e6 vote); [by apply H06| | |done]|cbv beta; intros; by etrans].
  - by eapply (own_vote_backed e4).
  - simpl. by rewrite update_locked_qc_view.
Qed.

Lemma leader_self_vote_ok b e :
  einv e → known_votable (en_w e) b →
  wp (leader_self_vote iter hp has_wal wal_intent_ok instant_ms tp (b_hash b))
    (λ e' _, ekeeps e e' ∧
       (known (en_w e) (λ _, fresh e) → known (en_w e') (λ _, view_of e' = view_of e))) e.
Proof.
  intros Hi Hv. unfold leader_self_vote.
  apply (record_persist_ok TVote (b_hash b) e); [intros e1 H1 V1; split; [done|by intros _ _]|].
  intros e1 H1 Ec1 Es1. assert (einv e1) as Hi1 by by apply H1.
  assert (view_of e1 = view_of e) as V1 by by rewrite Es1.
  unfold make_vote. apply wp_bind, wp_lift_w, wp_bind, wp_get_state, wp_bind.
  apply wp_sign_payload, wp_ret. cbv beta iota.
  match goal with |- context [mkVote ?ep ?h ?v ?id ?sg ?t ?x'] =>
    pose (vote := mkVote ep h v id sg t x'); change (mkVote ep h v id sg t x') with vote end.
  match goal with |- wp _ _ (en_set_w e1 ?w') => set (w2 := w') end.
  assert (wkeeps (en_w e1) w2) as Hw2.
  { apply sign_first_wkeeps; [|by rewrite Es1, last_vote_set, last_vote_view].
    eapply known_votable_ek; [exact H1|done|by rewrite Es1|done]. }
  set (e2 := en_set_w e1 w2). assert (ekeeps e1 e2) as H12 by by apply ekeeps_world.
  assert (ekeeps e e2) as H2 by by etrans. assert (einv e2) as Hi2 by by apply H2.
  assert (known (en_w e2) (λ tr, backed tr vote)) as Hb by by eapply (own_vote_backed e1).
  apply wp_bind. eapply wp_mono; [apply (wp_and _ _ (λ e' r, known (en_w e) (λ _, fresh e) →
    ∀ result, r = Ok (inl result) → known (en_w e2) (λ _, vr_qc result = None))
    _ (e_add_vote_ok vote e2 Hi2 Hb ltac:(done)))|].
  { intros Hf. apply e_add_vote_fresh; [done| |done]. intros Hp. pose proof Hp as Hp'.
    destruct H2 as [[es E] _ _]. rewrite E in Hp. apply proposals_known_app in Hp. split.
    - intros k votes. change (en_vote_collector e2) with (en_vote_collector e1). rewrite Ec1.
      change (view_of e2) with (view_of e1). rewrite V1. by apply Hf.
    - destruct (ei_world _ Hi2 Hp') as [[_ Hs _ _] _]. apply (so_id _ _ Hs). }
  cbv beta. intros e3 r ((H3&Ew3&Hq)&Hn). assert (ekeeps e e3) as H03 by by etrans.
  assert (view_of e3 = view_of e) as V3 by by rewrite Ew3.
  destruct r as [[result|x]|x|]; [|(split; [done|by intros _ _])..]. apply wp_bind.
  eapply wp_mono; [apply (eq_then _ e3 e3); [done|apply handle_equivocation_eq]|]. cbv beta.
  intros e4 r H4. assert (ekeeps e e4) as H04 by (etrans; [exact H03|apply H4]).
  assert (view_of e4 = view_of e) as V4 by by rewrite (equiet_view _ _ H4).
  destruct r as [[]|x|]; [|(split; [done|by intros _ _])..].
  destruct (vr_qc result) as [qc|] eqn:Eq; [|by apply wp_ret; split; [|intros _ _]].
  destruct (Hq result qc eq_refl Eq) as (Evq&Ehq&Hc). rewrite <- Evq, <- Ehq in Hc.
  eapply wp_mono; [apply on_qc_formed_ok; [by apply H04| |]|].
  - eapply cert_ek; [apply H4|]. exact Hc.
  - rewrite Evq, V4. exact V1.
  - cbv beta. intros e5 _ H5. assert (ekeeps e e5) as H05 by by etrans. split; [done|].
    intros Hf Hp. assert (ekeeps e2 e5) as [[es E] _ _] by (etrans; [exact H3|]; etrans; [apply H4|done]).
    rewrite E in Hp. apply proposals_known_app in Hp. specialize (Hn Hf result eq_refl Hp). congruence.
Qed.

Lemma try_propose_body_ok :
  proposer_ok (try_propose_body iter hp has_wal wal_intent_ok clock_ms instant_ms anc_fuel tp).
Proof.
  assert (∀ e, einv e → wp (try_propose_body iter hp has_wal wal_intent_ok clock_ms instant_ms anc_fuel tp)
    (λ e' _, ekeeps e e' ∧
       (known (en_w e) (λ _, fresh e) → known (en_w e') (λ _, view_of e' = view_of e))) e) as Hb.
  { intros e Hi. unfold try_propose_body. apply wp_bind, wp_get_w, wp_bind, wp_try_w.
    eapply wp_mono; [apply propose_ok, Hi|]. cbv beta. intros w1 r [H1 Hv].
    set (e1 := en_set_w e w1). assert (equiet e e1) as He1 by by apply equiet_world.
    assert (view_of e1 = view_of e) as V1 by by apply equiet_view.
    destruct r as [b|x|].
    - eapply wp_mono; [apply (leader_self_vote_ok b e1); [by apply He1|by apply Hv]|].
      cbv beta. intros e2 _ [H2 V2]. split; [etrans; [apply He1|done]|]. intros Hf. rewrite <- V1.
      apply V2. intros Hp k votes. rewrite V1. apply Hf.
      destruct H1 as [[[es E] _ _] _]. simpl in Hp. rewrite E in Hp. by eapply proposals_known_app.
    - destruct x; (split; [apply He1|]); by intros _ _.
    - split; [apply He1|]. by intros _ _. }
  split; [intros e Hi|intros e Hi Hf]; (eapply wp_mono; [by apply Hb|]); cbv beta;
    intros e' r [? ?]; auto.
Qed.
End Recursion.

Notation tp_ fuel := (try_propose iter hp has_wal wal_intent_ok clock_ms instant_ms anc_fuel fuel).

Lemma try_propose_ok fuel : proposer_ok (tp_ fuel : ME unit).
Proof.
  induction fuel as [|fuel IH]; cbn [try_propose]; [|by apply try_propose_body_ok].
  split; [intros e Hi|intros e Hi _]; apply wp_throw; [reflexivity|by intros _].
Qed.

(** ** Messages *)

(** What the signatures of a message stand for. *)
Definition qc_claim (tr : trace) (q : QuorumCertificate) : Prop :=
  verify_vote_aggregate chain (mkVoteAggregateRef vset 0 (qc_view q) (qc_block_hash q) TVote
    (qc_aggregate_signature q) []) = true →
  cert (all_votes tr) TVote (qc_view q) (qc_block_hash q).

Definition dc_claim (tr : trace) (dc : DoubleCertificate) : Prop :=
  qc_claim tr (dc_inner_qc dc) ∧
  let outer := dc_outer_qc dc in
  ∀ exts, verify_vote_aggregate chain (mkVoteAggregateRef vset 0 (qc_view outer)
            (qc_block_hash outer) TVote2 (qc_aggregate_signature outer) exts) = true →
    cert (all_votes tr) TVote2 (qc_view outer) (qc_block_hash outer).

Definition vote_claim (tr : trace) (v : Vote) : Prop :=
  ∀ vi, get vset (v_validator v) = Some vi →
    verify (vi_public_key vi)
      (vote_signing_bytes chain (v_epoch v) (v_view v) (v_validator v) (v_block_hash v)
         (v_vote_type v) (v_extension v)) (v_signature v) = true →
    backed tr v.

(** A block whose hash field is right is a known one. *)
Definition hashed (b : Block) : Prop := b_hash b = compute_hash b → occurs b.

Definition claims (tr : trace) (msg : ConsensusMessage) : Prop :=
  match msg with
  | Propose block justify double_cert _ ancestor_blocks =>
      hashed block ∧ Forall hashed ancestor_blocks ∧ qc_claim tr justify ∧
      ∀ dc, double_cert = Some dc → dc_claim tr dc
  | VoteMsg v | Vote2Msg v => vote_claim tr v
  | Prepare q _ => qc_claim tr q
  | Wish _ _ highest_qc _ => ∀ q, highest_qc = Some q → qc_claim tr q
  | TimeoutCert tc => ∀ q, Some q ∈ tc_highest_qcs tc → qc_claim tr q
  | StatusCert locked_qc _ _ => ∀ q, locked_qc = Some q → qc_claim tr q
  | Evidence _ => True
  end.

Lemma qc_claim_mono es tr q : qc_claim tr q → qc_claim (es ++ tr) q.
Proof. intros H Hv. eapply cert_mono; [apply all_votes_grows|]. by apply H. Qed.

Lemma dc_claim_mono es tr dc : dc_claim tr dc → dc_claim (es ++ tr) dc.
Proof.
  intros [Hi Ho]. split; [by apply qc_claim_mono|]. intros outer exts Hv.
  eapply cert_mono; [apply all_votes_grows|]. by eapply Ho.
Qed.

Lemma claims_mono es tr msg : claims tr msg → claims (es ++ tr) msg.
Proof.
  assert (∀ v, vote_claim tr v → vote_claim (es ++ tr) v) as Hv.
  { intros v H vi Hg Hver. apply backed_mono. by eapply H. }
  destruct msg; simpl; auto using qc_claim_mono.
  intros (?&?&?&Hd). split_and!; [done..|by apply qc_claim_mono|]. intros dc E. apply dc_claim_mono. auto.
Qed.

Lemma verify_vote_qc_cert e q :
  einv e → qc_claim (etrace e) q → verify_vote_qc e q TVote = true →
  known (en_w e) (λ tr, cert (all_votes tr) TVote (qc_view q) (qc_block_hash q)).
Proof.
  intros Hi Hq Hv Hk. destruct (ei_world _ Hi Hk) as [[_ Hs _ _] _]. apply Hq.
  unfold verify_vote_qc, validator_set_for_epoch, en_state in Hv. rewrite (ei_previous _ Hi) in Hv.
  rewrite (so_epoch _ _ Hs), (so_set _ _ Hs), (so_chain _ _ Hs) in Hv. simpl in Hv.
  destruct (N.eqb_spec (qc_epoch q) 0) as [E|]; [|done]. by rewrite E in Hv.
Qed.

Lemma verify_justify_good e q :
  einv e → qc_claim (etrace e) q → verify_justify_qc e q = true → known_good (en_w e) q.
Proof.
  intros Hi Hq Hv Hk. unfold verify_justify_qc in Hv. destruct (is_genesis_qc q) eqn:Eg.
  - left. unfold is_genesis_qc in Eg. by bool_prop.
  - right. by apply (verify_vote_qc_cert e).
Qed.

Lemma validate_double_cert_final e dc :
  einv e → dc_claim (etrace e) dc → validate_double_cert e dc = true →
  dc_final (en_w e) dc ∧ known_good (en_w e) (dc_inner_qc dc).
Proof.
  intros Hi [Hin Hout] Hv.
  enough (proposals_known (etrace e) → good (etrace e) (dc_inner_qc dc) ∧
    ∃ v, cert (all_votes (etrace e)) TVote2 v (qc_block_hash (dc_inner_qc dc))) as H
    by (split; intros Hk; by apply H).
  intros Hk. destruct (ei_world _ Hi Hk) as [[_ Hs _ _] _].
  unfold validate_double_cert in Hv. case_bool_decide as Eh; simpl in Hv; [|done].
  destruct (negb (_ =? _)); [done|].
  destruct (N.eqb_spec (qc_epoch (dc_inner_qc dc)) (qc_epoch (dc_outer_qc dc))) as [Ee|]; simpl in Hv; [|done].
  unfold validator_set_for_epoch, en_state in Hv. rewrite (ei_previous _ Hi) in Hv.
  rewrite (so_epoch _ _ Hs), (so_set _ _ Hs), (so_chain _ _ Hs) in Hv. simpl in Hv.
  destruct (N.eqb_spec (qc_epoch (dc_inner_qc dc)) 0) as [E0|]; [|done].
  destruct (canonical_vote_extensions dc vset) as [x|]; [|done].
  destruct (verify_vote_aggregate _ _) eqn:V1 in Hv; simpl in Hv; [|done].
  destruct (verify_vote_aggregate _ _) eqn:V2 in Hv; simpl in Hv; [|done].
  rewrite E0 in *. split; [right; by apply Hin|]. rewrite Eh. exists (qc_view (dc_outer_qc dc)).
  apply (Hout x). by rewrite <- Ee in V2.
Qed.

(** ** Handlers *)

Section Handlers.
Context (fuel : nat).

Lemma store_justify_get j (st : St) h : get_block (store_justify j st) h = get_block st h.
Proof.
  unfold store_justify. destruct (0 <? _)%nat; [|done]. destruct (get_block st _) as [b|]; [|done].
  case_bool_decide; [apply get_put_commit_qc|done].
Qed.

Lemma store_ancestors_known lc anc (st : St) :
  Forall hashed anc → (∀ h x, get_block st h = Some x → occurs x ∧ b_hash x = h) →
  ∀ h x, get_block (store_ancestors lc anc st) h = Some x → occurs x ∧ b_hash x = h.
Proof.
  intros Ha. revert st. induction Ha as [|a anc Ha _ IH]; intros st Hst; [done|]. simpl. apply IH.
  destruct ((lc <? b_height a) && _); [|done]. case_bool_decide; [|done]. apply put_block_known; [by apply Ha|done].
Qed.

Lemma accept_proposal_ok b j dc e :
  einv e → hashed b → known (en_w e) (λ _, b_view b = view_of e) → known_good (en_w e) j →
  (∀ d, dc = Some d → dc_claim (etrace e) d) →
  wp (accept_proposal (St := St) (App := App) (Ev := Ev) hp has_wal wal_intent_ok clock_ms b j dc)
    (λ e' _, ekeeps e e') e.
Proof.
  intros Hi Hb Hvw Hg Hd. unfold accept_proposal. apply wp_bind, wp_get_w.
  destruct (match dc with Some dc => negb (validate_double_cert e dc) | None => false end) eqn:Hval;
    [by apply wp_ret|].
  assert (∀ d, dc = Some d → dc_final (en_w e) d) as Hdf.
  { intros d ->. apply negb_false_iff in Hval. by apply (validate_double_cert_final e); [|apply Hd|]. }
  apply wp_bind. eapply wp_mono; [apply (eq_then _ e e); [done|apply eq_mod_store, store_justify_get]|].
  cbv beta. intros e1 r H1. destruct r as [[]|x|]; [|apply H1..]. apply wp_bind, wp_gets.
  set (ih := dc ≫= _). clearbody ih. apply wp_bind.
  eapply wp_mono; [apply (eq_then _ e e1 H1); destruct ih; [apply log_commit_intent_eq|eq_tac]|].
  cbv beta. intros e2 r H2. destruct r as [[]|x|]; [|apply H2..]. apply wp_bind, wp_get_w, wp_bind, wp_try_w.
  assert (einv e2) as Hi2 by by apply H2.
  eapply wp_mono; [apply on_proposal_ok; simpl|].
  - apply Hi2.
  - done.
  - intros Hp. rewrite (equiet_view _ _ H2). apply Hvw. destruct H2 as [[[es E] _ _] _ _].
    rewrite E in Hp. by eapply proposals_known_app.
  - eapply good_ek; [apply H2|done].
  - intros d Ed. eapply dc_final_ek; [apply H2|auto].
  - apply (ei_pending _ Hi2).
  - cbv beta. intros w3 r [H3 Hres]. set (e3 := en_set_w e2 w3).
    assert (ekeeps e e3) as H03 by (etrans; [apply H2|by apply ekeeps_world]).
    destruct r as [res|x|]; [| |done]; (apply ek_then; [done|]).
    + destruct (Hres res eq_refl) as [Hpe Hcr]. rewrite Hpe.
      destruct (pr_commit_result res) as [cr|]; [specialize (Hcr cr eq_refl)|];
        eq_tac; auto using adopt_commit_epoch_eq, process_commit_result_eq, finish_if_eq.
    + eq_tac. apply finish_if_eq.
Qed.

Lemma handle_propose_ok b j dc sg anc e :
  einv e → claims (etrace e) (Propose b j dc sg anc) → known_good (en_w e) j →
  wp (handle_propose (St := St) (App := App) (Ev := Ev)
        iter hp has_wal wal_intent_ok clock_ms instant_ms anc_fuel fuel b j dc anc)
    (λ e' _, ekeeps e e') e.
Proof.
  intros Hi (Hb&Ha&_&Hd) Hg. unfold handle_propose. apply wp_bind, wp_gets, wp_bind.
  set (e1 := en_set_w e (w_set_store (en_w e)
    (store_ancestors (cs_last_committed_height (en_state e)) anc (w_store (en_w e))))).
  change (wp (e_mod_store _) ?Q e) with (Q e1 (Ok (E := engine_error) ())). cbv beta iota.
  assert (equiet e e1) as H1.
  { apply equiet_world. apply store_wquiet. intros _. by apply store_ancestors_known. }
  assert (einv e1) as Hi1 by by apply H1. assert (known_good (en_w e1) j) as Hg1 by (by eapply good_ek; [apply H1|]).
  destruct (N.ltb_spec (cs_current_view (en_state e)) (b_view b)) as [Hlt|Hge].
  - destruct dc as [dc|]; [|by apply wp_ret; apply H1]. specialize (Hd dc eq_refl).
    apply wp_bind, wp_get_w. destruct (validate_double_cert e1 dc) eqn:Hval; simpl; [|by apply wp_ret; apply H1].
    destruct (validate_double_cert_final e1 dc) as [Hdf Hgi]; [done..|].
    apply wp_bind. eapply wp_mono; [by apply apply_commit_ok|]. cbv beta. intros e2 r H2.
    assert (equiet e e2) as H02 by by etrans. destruct r as [[]|x|]; [|apply H02..]. apply wp_bind.
    eapply wp_mono; [apply (eq_then _ e1 e2 H2); by apply eq_mod_state|]. cbv beta.
    intros e3 r H13. assert (equiet e e3) as H3 by (etrans; [exact H1|exact H13]).
    destruct r as [[]|x|]; [|apply H3..]. assert (einv e3) as Hi3 by by apply H3.
    assert (view_of e3 = view_of e) as V3 by by apply equiet_view.
    apply wp_bind. eapply wp_mono; [apply (advance_view_to_ok _ (try_propose_ok fuel)); [done|]|].
    { simpl. eapply good_ek; [|exact Hgi]. apply H13. }
    cbv beta. intros e4 r [H4 V4]. assert (ekeeps e e4) as H04 by (etrans; [apply H3|done]).
    destruct r as [[]|x|]; [|done..]. rewrite V3 in V4. specialize (V4 eq_refl Hlt).
    eapply wp_mono; [apply accept_proposal_ok|cbv beta; intros; by etrans].
    + by apply H04.
    + done.
    + intros Hp. symmetry. by apply V4.
    + by eapply good_ek.
    + intros d [= <-]. destruct H04 as [[es ->] _ _]. by apply dc_claim_mono.
  - destruct (N.ltb_spec (b_view b) (cs_current_view (en_state e))).
    + unfold when. destruct (_ && _) eqn:Hh; [|by apply wp_ret; apply H1]. bool_prop.
      apply ek_then; [apply H1|]. apply eq_vp. intros w.
      apply (store_wquiet w (λ st, put_block st b)). intros _. apply put_block_known. by apply Hb.
    + eapply wp_mono; [apply accept_proposal_ok|].
      * done.
      * done.
      * intros _. rewrite (equiet_view _ _ H1). unfold en_state in *. lia.
      * done.
      * done.
      * cbv beta. intros e2 _ H2. etrans; [apply H1|done].
Qed.

(** A message of the current or a later view has been verified in full. *)
Lemma verify_message_current e msg v :
  verify_message e msg = true → msg_view msg = Some (Some v) → view_of e ≤ v →
  verify_message_body e msg = true.
Proof.
  unfold verify_message, en_state. intros Hv E Hle. rewrite E in Hv.
  by destruct (N.ltb_spec v (cs_current_view (w_state (en_w e)))); [lia|].
Qed.

Lemma verified_vote_backed e v :
  einv e → vote_claim (etrace e) v →
  match validator_set_for_epoch e (v_epoch v) with
  | None => false
  | Some vote_vs =>
      match get vote_vs (v_validator v) with
      | None => false
      | Some vi =>
          if bool_decide (v_vote_type v = TVote) && bool_decide (is_Some (v_extension v)) then false
          else verify (vi_public_key vi)
                 (vote_signing_bytes (cs_chain_id_hash (en_state e)) (v_epoch v) (v_view v)
                    (v_validator v) (v_block_hash v) (v_vote_type v) (v_extension v)) (v_signature v)
      end
  end = true →
  known (en_w e) (λ tr, backed tr v).
Proof.
  intros Hi Hc Hv Hk. destruct (ei_world _ Hi Hk) as [[_ Hs _ _] _].
  unfold validator_set_for_epoch, en_state in Hv. rewrite (ei_previous _ Hi) in Hv.
  rewrite (so_epoch _ _ Hs), (so_set _ _ Hs), (so_chain _ _ Hs) in Hv. simpl in Hv.
  destruct (v_epoch v =? 0); [|done]. destruct (get vset (v_validator v)) as [vi|] eqn:Hg; [|done].
  destruct (_ && _); [done|]. by eapply Hc.
Qed.

Lemma vote_backed e v (m : Vote → ConsensusMessage) :
  m = VoteMsg ∨ m = Vote2Msg → einv e → claims (etrace e) (m v) → verify_message e (m v) = true →
  v_view v = view_of e → known (en_w e) (λ tr, backed tr v).
Proof.
  intros Hm Hi Hc Hv Evi. apply verified_vote_backed; [done|by destruct Hm as [-> | ->]|].
  destruct Hm as [-> | ->]; apply (verify_message_current _ _ (v_view v)) in Hv; try done; by rewrite Evi.
Qed.

Lemma handle_vote_ok v e :
  einv e → claims (etrace e) (VoteMsg v) → verify_message e (VoteMsg v) = true →
  wp (handle_vote iter hp has_wal wal_intent_ok clock_ms instant_ms anc_fuel fuel v)
    (λ e' _, ekeeps e e') e.
Proof.
  intros Hi Hc Hv. unfold handle_vote. apply wp_bind, wp_gets. unfold en_state.
  destruct (N.eqb_spec (v_view v) (view_of e)) as [Evi|]; simpl; [|by apply wp_ret].
  assert (known (en_w e) (λ tr, backed tr v)) as Hb by (apply (vote_backed _ _ VoteMsg); auto).
  do 2 (destruct (negb _); [by apply wp_ret|]).
  case_bool_decide as Et; simpl; [|by apply wp_ret].
  apply add_vote_then_ok; [done|done|lia|done|by intros; apply wp_throw|].
  intros qc res e' Hk V Q Hq. rewrite Et in Hq. eapply wp_mono.
  - apply on_qc_formed_ok; [apply try_propose_ok|by apply Hk|done|]. by rewrite Q, V.
  - cbv beta. intros; by etrans.
Qed.

Lemma handle_vote2_ok v e :
  einv e → claims (etrace e) (Vote2Msg v) → verify_message e (Vote2Msg v) = true →
  wp (handle_vote2 iter hp has_wal wal_intent_ok clock_ms instant_ms anc_fuel fuel v)
    (λ e' _, ekeeps e e') e.
Proof.
  intros Hi Hc Hv. unfold handle_vote2. apply wp_bind, wp_gets. unfold en_state.
  destruct (N.eqb_spec (v_view v) (view_of e)) as [Evi|]; simpl; [|by apply wp_ret].
  assert (known (en_w e) (λ tr, backed tr v)) as Hb by (apply (vote_backed _ _ Vote2Msg); auto).
  destruct (negb _); [by apply wp_ret|]. case_bool_decide as Et; simpl; [|by apply wp_ret].
  apply wp_bind. eapply wp_mono; [apply (eq_then _ e e); [done|destruct (v_extension v); eq_tac]|].
  cbv beta. intros e1 r H1. destruct r as [[]|x|]; simpl; [|apply H1..].
  assert (ekeeps e e1) as K1 by apply H1. pose proof (equiet_view _ _ H1) as V1.
  apply add_vote_then_ok.
  - by apply K1.
  - eapply known_ek; [|exact K1|exact Hb]. intros. by apply backed_mono.
  - lia.
  - intros. by etrans.
  - intros. apply wp_throw. by etrans.
  - intros qc res e' Hk V Q Hq. rewrite Et in Hq. eapply wp_mono.
    + apply on_double_cert_formed_ok; [apply try_propose_ok| |done]. by apply Hk, K1.
    + cbv beta. intros e2 _ H2. by do 2 (etrans; [done|]).
Qed.

Lemma handle_prepare_ok q sg e :
  einv e → claims (etrace e) (Prepare q sg) → verify_message e (Prepare q sg) = true →
  wp (handle_prepare (St := St) (App := App) (Ev := Ev) hp q) (λ e' _, ekeeps e e') e.
Proof.
  intros Hi Hc Hv. unfold handle_prepare. apply wp_bind, wp_gets. unfold en_state.
  destruct (N.eqb_spec (qc_view q) (view_of e)) as [Evi|]; [|by apply wp_ret].
  assert (known (en_w e) (λ tr, cert (all_votes tr) TVote (qc_view q) (qc_block_hash q))) as Hq.
  { apply verify_vote_qc_cert; [done..|].
    apply (verify_message_current _ _ (qc_view q)) in Hv; [|done|by rewrite Evi]. simpl in Hv.
    destruct (leader_for_view _ _); [|done]. by destruct (negb _). }
  apply wp_bind, wp_gets, wp_bind, wp_gets. destruct (_ && _); [by apply wp_ret|].
  apply wp_bind. eapply wp_mono; [apply (eq_then _ e e); [done|apply extend_vote_for_eq]|].
  cbv beta. intros e1 r H1. destruct r as [x|x|]; [|apply H1..].
  assert (ekeeps e e1) as K1 by apply H1.
  apply wp_bind, wp_lift_w. eapply wp_mono; [apply on_prepare_ok|].
  - by apply K1.
  - by apply (cert_ek e).
  - by rewrite (equiet_view _ _ H1).
  - cbv beta. intros w2 r H2. set (e2 := en_set_w e1 w2).
    assert (ekeeps e e2) as K2 by (etrans; [exact K1|by apply ekeeps_world]).
    destruct r as [o|x2|]; [|done..]. apply ek_then; [done|]. eq_tac. apply persist_state_eq.
Qed.

Lemma fill_tc_from vs agg hqs (wishes : list wish) agg' hqs' q :
  fill_tc vs agg hqs wishes = (agg', hqs') → Some q ∈ hqs' →
  Some q ∈ hqs ∨ ∃ x, x ∈ wishes ∧ x.1.2 = Some q.
Proof.
  revert agg hqs. induction wishes as [|[[vid hqc] sig] wishes IH]; intros agg hqs Hf Hq; simpl in Hf.
  { simplify_eq. by left. }
  destruct (index_of vs vid) as [i|].
  - destruct (IH _ _ Hf Hq) as [Hin|(x&?&?)]; [|right; exists x; split; [by right|done]].
    apply list_elem_of_lookup in Hin as [k Hk]. apply list_lookup_insert_Some in Hk as [(_&->&_)|[_ Hk]].
    + right. exists (vid, Some q, sig). split; [left|done].
    + left. by eapply list_elem_of_lookup_2.
  - destruct (IH _ _ Hf Hq) as [?|(x&?&?)]; [by left|right; exists x; split; [by right|done]].
Qed.

Lemma tc_highest_elem tc q : tc_highest_qc tc = Some q →
  ∃ i, agg_signers (tc_aggregate_signature tc) !! i = Some true ∧ tc_highest_qcs tc !! i = Some (Some q).
Proof.
  unfold tc_highest_qc. intros E.
  pose proof (max_by_view_spec (signed_qcs (agg_signers (tc_aggregate_signature tc)) 0 (tc_highest_qcs tc))) as H.
  rewrite E in H. destruct H as [Hin _]. apply elem_of_signed_qcs in Hin as (i&?&?). by exists i.
Qed.

(** The certificates in a timeout certificate formed here come from checked
    wishes. *)
Lemma e_add_wish_ok target id hqc sig e :
  einv e → (∀ q, hqc = Some q → known_good (en_w e) q) →
  wp (e_add_wish (St := St) (App := App) (Ev := Ev) target id hqc sig)
    (λ e' r, ekeeps e e' ∧ ∀ tc, r = Ok (Some tc) → trigger_ok (en_w e') (TrTimeoutCert tc)) e.
Proof.
  intros Hi Hh. unfold e_add_wish, wp. set (old := default [] (pm_wishes (en_pacemaker e) !! target)).
  assert (proposals_known (etrace e) → ∀ l x q,
    l = old ∨ l = old ++ [(id, hqc, sig)] → x ∈ l → x.1.2 = Some q → good (etrace e) q) as Hw.
  { intros Hk l x q Hl Hx E. destruct (ei_engine _ Hi Hk) as [_ _ _ Hws].
    assert (x ∈ old → good (etrace e) q) as Hold.
    { intros Hin. unfold old in Hin. destruct (pm_wishes _ !! target) eqn:Et; [by eapply Hws|].
      by apply not_elem_of_nil in Hin. }
    destruct Hl as [->| ->]; [auto|]. apply elem_of_app in Hx as [?| ->%list_elem_of_singleton]; [auto|].
    by apply Hh. }
  assert (∀ l, l = old ∨ l = old ++ [(id, hqc, sig)] →
    ekeeps e (en_set_pacemaker e (set_wishes (en_pacemaker e) (<[target := l]> (pm_wishes (en_pacemaker e)))))) as Hset.
  { intros l Hl. apply ekeeps_own; try done. intros Hk _ [? ? ? Hws]. split; try done. simpl.
    intros t l' x q. rewrite lookup_insert_Some. intros [[<- <-]|[_ Hl']]; [by eapply Hw|by eapply Hws]. }
  unfold add_wish. fold old. case_bool_decide; simpl; [split; [auto|done]|].
  destruct (wish_power _ _ _) as [p|]; simpl; [|split; [auto|done]].
  destruct (_ <=? p); simpl; [|split; [auto|done]]. destruct (fill_tc _ _ _ _) as [agg hqs] eqn:Hf; simpl.
  split; [auto|]. intros tc [= <-] q Hq Hk. apply tc_highest_elem in Hq as (i&_&Hq). simpl in Hq.
  destruct (fill_tc_from _ _ _ _ _ _ q Hf) as [Hin|(x&Hx&Ex)]; [by eapply list_elem_of_lookup_2| |].
  - by apply elem_of_replicate_inv in Hin.
  - by eapply (Hw Hk (old ++ [(id, hqc, sig)])); [right|..].
Qed.

Lemma tc_then_ok e e0 tc :
  ekeeps e0 e → einv e → trigger_ok (en_w e) (TrTimeoutCert tc) →
  wp (e_emit (EBroadcast (TimeoutCert tc)) ;;
      advance_view (St := St) (App := App) (Ev := Ev) hp instant_ms
        (try_propose iter hp has_wal wal_intent_ok clock_ms instant_ms anc_fuel fuel) (TrTimeoutCert tc))
    (λ e' _, ekeeps e0 e') e.
Proof.
  intros H0 Hi Ht. apply wp_bind.
  eapply wp_mono; [apply (eq_then _ e e); [done|apply eq_emit; by split]|].
  cbv beta. intros e1 r H1. assert (ekeeps e0 e1) as K1 by (etrans; [exact H0|apply H1]).
  destruct r as [[]|x|]; [|done..]. eapply wp_mono; [apply advance_view_ok; [apply try_propose_ok|..]|].
  - by apply H1.
  - eapply trigger_ek; [apply H1|done].
  - cbv beta. intros; by etrans.
Qed.

Lemma handle_wish_ok target id hqc sg e :
  einv e → claims (etrace e) (Wish target id hqc sg) →
  wp (handle_wish iter hp has_wal wal_intent_ok clock_ms instant_ms anc_fuel fuel target id hqc sg)
    (λ e' _, ekeeps e e') e.
Proof.
  intros Hi Hc. unfold handle_wish. apply wp_bind, wp_get_w.
  do 2 (match goal with |- wp (if ?b then _ else _) _ _ => destruct b end; [by apply wp_ret|]).
  destruct (match hqc with Some qc => _ | None => false end) eqn:Hj; [by apply wp_ret|].
  assert (∀ q, hqc = Some q → known_good (en_w e) q) as Hg.
  { intros q ->. apply negb_false_iff in Hj. apply verify_justify_good; [done| |done]. by apply Hc. }
  apply wp_bind. eapply wp_mono; [by apply e_add_wish_ok|]. cbv beta. intros e1 r [K1 Ht].
  destruct r as [[tc|]|x|]; [|done..]. apply tc_then_ok; [done|by apply K1|by apply Ht].
Qed.

Lemma verify_tc_good e tc q :
  einv e → claims (etrace e) (TimeoutCert tc) → verify_message_body e (TimeoutCert tc) = true →
  tc_highest_qc tc = Some q → known_good (en_w e) q.
Proof.
  intros Hi Hc Hv Hq. apply tc_highest_elem in Hq as (i&Hs&Hq). intros Hk.
  destruct (ei_world _ Hi Hk) as [[_ Hst _ _] _]. simpl in Hv. rewrite (ei_previous _ Hi) in Hv.
  destruct (verify_tc _ _ _) eqn:Ht; [|done].
  apply verify_tc_iff in Ht; [|unfold en_state; rewrite (so_set _ _ Hst); done]. destruct Ht as [_ _ _ Hal Hw _].
  assert (i ∈ (agg_entries (tc_aggregate_signature tc)).*1) as Hin.
  { rewrite agg_entries_fst by done. by apply elem_of_positions_0. }
  apply list_elem_of_fmap in Hin as ([i' s]&->&Hin). destruct (Hw _ _ Hin) as (vi&_&Hj&_).
  simpl in Hq. rewrite Hq in Hj. eapply verify_justify_good; [done| |by apply Hj|done].
  apply Hc. by eapply list_elem_of_lookup_2.
Qed.

Lemma handle_timeout_cert_ok tc e :
  einv e → claims (etrace e) (TimeoutCert tc) → verify_message e (TimeoutCert tc) = true →
  wp (handle_timeout_cert iter hp has_wal wal_intent_ok clock_ms instant_ms anc_fuel fuel tc)
    (λ e' _, ekeeps e e') e.
Proof.
  intros Hi Hc Hv. unfold handle_timeout_cert. apply wp_bind, wp_gets. cbv zeta. apply wp_bind.
  set (e1 := (if cs_current_view (en_state e) <=? tc_view tc +w 1
    then en_set_pacemaker e (should_relay_tc (en_pacemaker e) tc).1 else e)).
  assert (equiet e e1) as H1.
  { unfold e1. destruct (_ <=? _); [|done]. apply equiet_same; try done. simpl.
    unfold should_relay_tc. by destruct (_ !! _). }
  match goal with |- wp ?m ?Q e => assert (∃ b, Q e1 (Ok b) → wp m Q e) as [b Hm] end.
  { unfold e1. destruct (_ <=? _); [|by eexists; intros H; exact H].
    unfold wp. destruct (should_relay_tc _ _) as [p b] eqn:E. by exists b. }
  apply Hm. clear Hm. cbv beta iota. apply wp_bind.
  eapply wp_mono; [apply (eq_then _ e e1 H1); eq_tac|]. cbv beta. intros e2 r H2.
  destruct r as [[]|x|]; [|apply H2..]. unfold when.
  destruct (N.ltb_spec (cs_current_view (en_state e)) (tc_view tc +w 1)) as [Hlt|]; [|by apply wp_ret; apply H2].
  eapply wp_mono; [apply advance_view_ok; [apply try_propose_ok|by apply H2|]|cbv beta; intros; etrans; [apply H2|done]].
  intros q Hq. eapply good_ek; [apply H2|]. eapply verify_tc_good; [done..| |done].
  unfold verify_message in Hv. simpl in Hv. destruct (checked_add64 (tc_view tc) 1) as [n|] eqn:En; [|done].
  simpl in Hv. apply checked_add64_Some in En as [-> Hb]. rewrite wrapping_add64_small in Hlt by lia.
  by destruct (N.ltb_spec (tc_view tc + 1) (cs_current_view (en_state e))); [unfold en_state in *; lia|].
Qed.

Lemma handle_status_ok lqc id sg e :
  einv e → claims (etrace e) (StatusCert lqc id sg) →
  wp (handle_status iter hp has_wal wal_intent_ok clock_ms instant_ms anc_fuel fuel lqc id)
    (λ e' _, ekeeps e e') e.
Proof.
  intros Hi Hc. unfold handle_status. apply wp_bind, wp_get_w. destruct (_ && _); [|by apply wp_ret].
  apply wp_bind.
  assert (wp (match lqc with
    | Some qc => when ((0 <? agg_count (qc_aggregate_signature qc))%nat && verify_vote_qc e qc TVote)
                   (e_mod_state (λ s, update_highest_qc s qc))
    | None => mret () end : ME unit) (λ e' _, ekeeps e e') e) as Hm.
  { destruct lqc as [q|]; [|by apply wp_ret]. unfold when.
    destruct (_ && verify_vote_qc e q TVote) eqn:Hq; [|by apply wp_ret]. bool_prop.
    apply (ekeeps_world e), update_highest_wkeeps. intros Hk. right.
    apply (verify_vote_qc_cert e); [done|by apply Hc|done..]. }
  eapply wp_mono; [exact Hm|]. cbv beta. intros e1 r K1. destruct r as [[]|x|]; [|done..].
  apply wp_bind, wp_modify. set (e2 := en_set_status_senders e1 _).
  assert (ekeeps e e2) as K2 by (etrans; [exact K1|by apply equiet_same]).
  apply wp_bind, wp_get_w. cbv zeta. unfold when. destruct (_ <=? _); [|by apply wp_ret].
  eapply wp_mono; [apply try_propose_ok; by apply K2|cbv beta; intros; by etrans].
Qed.

Lemma handle_evidence_eq p : keeps equiet (handle_evidence (St := St) (App := App) (Ev := Ev) p).
Proof. unfold handle_evidence. eq_tac. Qed.

Lemma handle_timeout_ok e :
  einv e →
  wp (handle_timeout iter hp has_wal wal_intent_ok clock_ms instant_ms anc_fuel fuel)
    (λ e' _, ekeeps e e') e.
Proof.
  intros Hi. unfold handle_timeout. apply wp_bind, wp_gets. destruct (negb _).
  { apply ek_then; [done|]. eq_tac. }
  assert (∀ q, cs_highest_qc (en_state e) = Some q → known_good (en_w e) q) as Hg.
  { intros q Eq Hk. destruct (ei_world _ Hi Hk) as [[_ Hs _ _] _].
    destruct (so_highest _ _ Hs) as (q'&Eq'&?). unfold en_state in Eq. congruence. }
  apply wp_bind. eapply (wp_mono _ (λ e' r, equiet e e' ∧ ∀ wish, r = Ok wish →
    ∃ target id sg, wish = Wish target id (cs_highest_qc (en_state e)) sg)).
  { apply wp_lift_w. unfold build_wish. wp_steps. destruct (ViewNumber_next _) as [target|x|]; wp_steps.
    - split; [apply equiet_world, emit_wquiet; by split|]. intros wish [= <-]. eauto.
    - split; [by destruct e|done].
    - split; [by destruct e|done]. }
  cbv beta. intros e1 r [H1 Hw]. assert (ekeeps e e1) as K1 by apply H1.
  destruct r as [wish|x|]; [|done..]. destruct (Hw wish eq_refl) as (target&id&sg&->).
  apply wp_bind. eapply wp_mono; [apply (eq_then _ e1 e1); [done|apply eq_emit; by split]|].
  cbv beta. intros e2 r H2. assert (ekeeps e e2) as K2 by (etrans; [exact K1|apply H2]).
  destruct r as [[]|x|]; [|done..]. apply wp_bind.
  eapply wp_mono; [apply e_add_wish_ok; [by apply K2|]|].
  { intros q Eq. eapply good_ek; [exact K2|auto]. }
  cbv beta. intros e3 r [H3 Ht]. assert (ekeeps e e3) as K3 by by etrans.
  destruct r as [[tc|]|x|]; [| |done..].
  - apply tc_then_ok; [done|by apply K3|by apply Ht].
  - apply ek_then; [done|]. eq_tac.
Qed.

Lemma dispatch_ok msg e :
  einv e → claims (etrace e) msg → verify_message e msg = true →
  wp (dispatch iter hp has_wal wal_intent_ok clock_ms instant_ms anc_fuel fuel msg)
    (λ e' _, ekeeps e e') e.
Proof.
  intros Hi Hc Hv. destruct msg; cbn [dispatch].
  - eapply handle_propose_ok; [done..|]. destruct Hc as (_&_&Hq&_).
    apply verify_justify_good; [done..|]. unfold verify_message in Hv. simpl in Hv.
    destruct (get _ _); [|done]. by destruct (negb _).
  - by apply handle_vote_ok.
  - by eapply handle_prepare_ok.
  - by apply handle_vote2_ok.
  - by apply handle_wish_ok.
  - by apply handle_timeout_cert_ok.
  - by eapply handle_status_ok.
  - apply ek_then; [done|apply handle_evidence_eq].
Qed.

(** Every turn of the event loop keeps the invariant. *)
Lemma handle_ok i e :
  einv e → (∀ sender msg, i = InMessage sender msg → claims (etrace e) msg) →
  wp (handle iter hp has_wal wal_intent_ok clock_ms instant_ms anc_fuel fuel i)
    (λ e' _, ekeeps e e') e.
Proof.
  intros Hi Hc. destruct i as [sender msg|]; cbn [handle]; [|by apply handle_timeout_ok].
  specialize (Hc _ _ eq_refl). unfold handle_message. apply wp_bind.
  eapply wp_mono; [apply (eq_then _ e e); [done|apply rate_limited_eq]|]. cbv beta.
  intros e1 r H1. assert (ekeeps e e1) as K1 by apply H1.
  destruct r as [[]|x|]; [by apply wp_ret| |done..]. apply wp_bind, wp_get_w.
  destruct (verify_message e1 msg) eqn:Hv; simpl; [|by apply wp_ret].
  eapply wp_mono; [apply dispatch_ok; [by apply K1| |done]|cbv beta; intros; by etrans].
  destruct K1 as [[es ->] _ _]. by apply claims_mono.
Qed.

(** ** Start-up *)

(** A new node with an empty chain. *)
Record new_node (chain_id : bytes) e : Prop := {
  nn_chain : chain = blake3 chain_id;
  nn_state : en_state e = with_chain_id self vset chain_id;
  nn_trace : etrace e = [];
  nn_store : ∀ h b, get_block (w_store (en_w e)) h = Some b → b = Block_genesis ∧ h = GENESIS_HASH;
  nn_engine : en_vote_collector e = vc_new ∧ en_current_view_qc e = None ∧
    pm_wishes (en_pacemaker e) = ∅ ∧ en_pending_epoch e = None ∧ en_previous_epoch e = None;
}.

(** What a stopped node leaves behind. *)
Definition safe_trace (tr : trace) : Prop :=
  proposals_known tr → reachable (all_votes tr) ∧ ∀ b, EAppCommit b ∈ tr → final tr b.

Lemma einv_safe e : einv e → safe_trace (etrace e).
Proof. intros Hi Hk. by destruct (ei_world _ Hi Hk) as [[]]. Qed.

Lemma run_start_ok chain_id e :
  new_node chain_id e → reachable (all_votes []) →
  wp (run_start iter hp has_wal wal_intent_ok clock_ms instant_ms anc_fuel fuel)
    (λ e' r, (r = Ok () → einv e') ∧ safe_trace (etrace e')) e.
Proof.
  intros [Ec Es Et Est (Ecol&Eqc&Epm&Epe&Epr)] Hr. unfold run_start. apply wp_bind, wp_get_w. cbv zeta.
  destruct (_ && (_ || _)).
  { apply wp_throw. split; [done|]. rewrite Et. intros _. split; [done|]. by intros b ?%not_elem_of_nil. }
  rewrite Es. cbn [cs_current_view with_chain_id]. change (0 <=? 1) with true. cbv iota.
  enough (wp (enter_genesis_view iter hp has_wal wal_intent_ok clock_ms instant_ms anc_fuel fuel)
    (λ e' _, einv e') e) as H.
  { eapply wp_mono; [exact H|]. cbv beta. intros e' r ?. split; [done|by apply einv_safe]. }
  unfold enter_genesis_view. apply wp_bind.
  set (e1 := en_set_w e (w_set_state (en_w e) (set_highest_qc (en_state e) (Some (mkQC GENESIS_HASH 0
    (agg_new (validator_count (cs_validator_set (en_state e)))) (e_number (cs_current_epoch (en_state e)))))))).
  change (wp (e_mod_state _) ?Q e) with (Q e1 (Ok (E := engine_error) ())). cbv beta iota.
  apply wp_bind, wp_lift_w.
  eapply (wp_mono _ (λ w' r, r = Ok () ∧ w_trace w' = [] ∧ w_store w' = w_store (en_w e) ∧
    core (w_state w') = core (set_current_view (w_state (en_w e1)) 1))).
  { unfold enter_view. wp_steps. simpl. unfold settle.
    destruct (is_leader _ _ _); wp_steps; simpl; by split_and!. }
  cbv beta. intros w2 r (->&Et2&Est2&Hco). set (e2 := en_set_w e1 w2).
  assert (einv e2) as Hi2.
  { split; try done; simpl; rewrite ?Et2.
    - intros _. split; [split|]; rewrite ?Et2, ?Est2.
      + done.
      + eapply core_state_ok; [exact Hco|]. simpl. rewrite Es. split; simpl; try done.
        * by intros t v h ?%not_elem_of_nil.
        * by intros [].
        * eexists. split; [done|]. by left.
      + intros h b Hb. destruct (Est h b Hb) as [-> ->]. by split.
      + by intros b ?%not_elem_of_nil.
      + by intros v h ?%not_elem_of_nil.
    - intros _. by split; simpl; rewrite ?Ecol, ?Eqc, ?Epm. }
  clearbody e2. apply wp_bind. eapply wp_mono; [apply (eq_then _ e2 e2); [done|apply eq_now]|]. cbv beta.
  intros e3 r H3. assert (ekeeps e2 e3) as K3 by apply H3. destruct r as [t|x|]; [|by apply K3..].
  apply wp_bind, wp_modify. set (e4 := en_set_pacemaker e3 _).
  assert (ekeeps e2 e4) as K4 by (etrans; [exact K3|by apply equiet_same]).
  apply wp_bind, wp_gets. unfold when. destruct (cs_is_leader _); [|by apply wp_ret; apply K4].
  apply wp_bind. eapply wp_mono; [apply (eq_then _ e4 e4); [done|by apply eq_mod_state]|]. cbv beta.
  intros e5 r H5. assert (ekeeps e2 e5) as K5 by (etrans; [exact K4|apply H5]).
  destruct r as [[]|x|]; [|by apply K5..].
  eapply wp_mono; [apply try_propose_ok; by apply K5|]. cbv beta. intros e6 _ K6. by apply K6, K5.
Qed.
End Handlers.
End EngineVoting.
