(* ===== verification/System.v ===== *)
(** * The whole system and agreement

    The engines of the honest validators, run side by side: each starts and
    then takes turns of its event loop on any input, in any order, with
    messages lost, repeated, delayed or made up by the faulty validators.  The
    one thing a message cannot contain is a signature that verifies under an
    honest validator's key on bytes which that validator never signed.  Two
    blocks that honest validators commit at one height are then the same block,
    unless two different blocks of the run share a hash. *)

From S2P Require Import Prelude Types ValidatorSet Encoding Aggregate VoteCollector State Liveness.
From S2P Require Import BlockStore EvidenceStore World Persist Pacemaker Commit ViewProtocol.
From S2P Require Import VoteSafety Voting NodeSafety Engine Samples TimeoutCert EngineVoting EngineSafety.

(** The validators, the faulty ones among them and the keys of the others. *)
Class Validators : Type := {
  the_set : ValidatorSet;
  faulty : ValidatorId → bool;
  the_chain_id : bytes;
  signer_of : ValidatorId → Signer;
  the_set_wf : vs_wf the_set;
  faulty_bounded : power_where faulty (vs_validators the_set) ≤ max_faulty_power the_set;
}.

Section System.
Context {St App Ev : Type} `{!BlockStore St, !BlockStoreLaws St, !Application App, !FixedSet App}.
Context `{!EvidenceStore Ev} {B3 : Blake3} {Vf : Verifier} {Va : Validators}.
Notation Eng := (Engine St App Ev).
Notation etrace e := (w_trace (en_w e)).

(** ** Configurations *)

Inductive status : Type := NotStarted | Running | Stopped.

Record node : Type := mkNode { nd_engine : Eng; nd_status : status }.

Record config : Type := mkConfig {
  c_nodes : gmap ValidatorId node;
  c_delivered : list Block;          (* the blocks of the messages delivered so far *)
}.

Definition trace_of (nd : node) : trace := etrace (nd_engine nd).

(** ** What can be delivered *)

Definition qc_sigs (q : QuorumCertificate) : list Signature :=
  agg_signatures (qc_aggregate_signature q).

Definition opt_sigs (o : option QuorumCertificate) : list Signature :=
  match o with Some q => qc_sigs q | None => [] end.

Definition dc_sigs (dc : DoubleCertificate) : list Signature :=
  qc_sigs (dc_inner_qc dc) ++ qc_sigs (dc_outer_qc dc).

(** The signatures and the blocks in a message. *)
Definition msg_sigs (msg : ConsensusMessage) : list Signature :=
  match msg with
  | Propose _ justify dc sg _ =>
      sg :: qc_sigs justify ++ match dc with Some dc => dc_sigs dc | None => [] end
  | VoteMsg v | Vote2Msg v => [v_signature v]
  | Prepare q sg => sg :: qc_sigs q
  | Wish _ _ hqc sg => sg :: opt_sigs hqc
  | TimeoutCert tc =>
      agg_signatures (tc_aggregate_signature tc) ++ mjoin (opt_sigs <$> tc_highest_qcs tc)
  | StatusCert lqc _ sg => sg :: opt_sigs lqc
  | Evidence p => [ep_signature_a p; ep_signature_b p]
  end.

Definition msg_blocks (msg : ConsensusMessage) : list Block :=
  match msg with Propose b _ _ _ anc => b :: anc | _ => [] end.

(** The fields have the widths of their types. *)
Definition vote_ok (v : Vote) : Prop := u64_ok (v_view v) ∧ hash_ok (v_block_hash v).

Definition msg_ok (msg : ConsensusMessage) : Prop :=
  match msg with
  | Propose _ justify dc _ _ =>
      qc_ok justify ∧ ∀ d, dc = Some d → qc_ok (dc_inner_qc d) ∧ qc_ok (dc_outer_qc d)
  | VoteMsg v | Vote2Msg v => vote_ok v
  | Prepare q _ => qc_ok q
  | Wish _ _ hqc _ => opt_qc_ok hqc
  | TimeoutCert tc => Forall opt_qc_ok (tc_highest_qcs tc)
  | StatusCert lqc _ _ => opt_qc_ok lqc
  | Evidence _ => True
  end.

(** Under an honest validator's key, [sg] verifies only bytes that it signed. *)
Definition unforged (c : config) (sg : Signature) : Prop :=
  ∀ j vi m, faulty j = false → get the_set j = Some vi → verify (vi_public_key vi) m sg = true →
    ∃ nd p, c_nodes c !! j = Some nd ∧ ESign p ∈ trace_of nd ∧ payload_bytes p = m.

Definition deliverable (c : config) (i : Input) : Prop :=
  match i with
  | InMessage _ msg => msg_ok msg ∧ Forall (unforged c) (msg_sigs msg)
  | InTimeout => True
  end.

Definition input_blocks (i : Input) : list Block :=
  match i with InMessage _ msg => msg_blocks msg | InTimeout => [] end.

(** ** Steps *)

(** A failed start or a panic ends the process; other errors are logged. *)
Definition after_start (r : res engine_error unit) : status :=
  match r with Ok _ => Running | _ => Stopped end.

Definition after_turn (r : res engine_error unit) : status :=
  match r with Panic => Stopped | _ => Running end.

Inductive sys_step (c : config) : config → Prop :=
| sys_start k e e' r iter hp has_wal wal_ok clock_ms instant_ms anc_fuel fuel :
    c_nodes c !! k = Some (mkNode e NotStarted) →
    run_start (Sg := signer_of k) iter hp has_wal wal_ok clock_ms instant_ms anc_fuel fuel e = (e', r) →
    r ≠ Err OutOfFuel →
    sys_step c (mkConfig (<[k := mkNode e' (after_start r)]> (c_nodes c)) (c_delivered c))
| sys_turn k i e e' r iter hp has_wal wal_ok clock_ms instant_ms anc_fuel fuel :
    c_nodes c !! k = Some (mkNode e Running) → deliverable c i →
    handle (Sg := signer_of k) iter hp has_wal wal_ok clock_ms instant_ms anc_fuel fuel i e = (e', r) →
    r ≠ Err OutOfFuel →
    sys_step c (mkConfig (<[k := mkNode e' (after_turn r)]> (c_nodes c))
                  (input_blocks i ++ c_delivered c)).

(** A new node of validator [k]: its state is fresh, its store holds at most the
    genesis block. *)
Definition initial_node (k : ValidatorId) (nd : node) : Prop :=
  nd_status nd = NotStarted ∧ faulty k = false ∧
  power_of the_set k < quorum_threshold the_set ∧
  ∃ t st app config ev,
    nd_engine nd = engine_new t (mkWorld (with_chain_id k the_set the_chain_id) st app 0 [])
                     config ev None None ∧
    ∀ h b, get_block st h = Some b → b = Block_genesis ∧ h = GENESIS_HASH.

Definition initial (c : config) : Prop :=
  c_delivered c = [] ∧ map_Forall initial_node (c_nodes c).

Definition sys_reachable (c : config) : Prop := ∃ c0, initial c0 ∧ rtc sys_step c0 c.

(** ** The blocks of a run *)

Definition proposed (x : Effect) : option Block :=
  match x with ESign (PProposal _ _ b _) => Some b | _ => None end.

(** The genesis block, and the delivered and proposed blocks with a right hash. *)
Definition blocks_of (c : config) : list Block :=
  Block_genesis :: filter (λ b, b_hash b = compute_hash b)
    (c_delivered c ++ mjoin ((λ kn, omap proposed (trace_of kn.2)) <$> map_to_list (c_nodes c))).

Definition hash_collision (c : config) : Prop :=
  ∃ x y, x ∈ blocks_of c ∧ y ∈ blocks_of c ∧ x ≠ y ∧ b_hash x = b_hash y.

(** The signed values have the widths of their types. *)
Definition typed (c : config) : Prop :=
  ∀ k nd p, c_nodes c !! k = Some nd → ESign p ∈ trace_of nd → payload_ok p.

Definition commits (c : config) (k : ValidatorId) (b : Block) : Prop :=
  ∃ nd, c_nodes c !! k = Some nd ∧ EAppCommit b ∈ trace_of nd.

Definition votes_map (c : config) : gmap ValidatorId (list ballot) :=
  (λ nd, votes_of (trace_of nd)) <$> c_nodes c.

(** ** Traces and blocks only grow *)

Record sys_grows (c c' : config) : Prop := {
  sg_delivered : ∀ b, b ∈ c_delivered c → b ∈ c_delivered c';
  sg_nodes : ∀ k nd, c_nodes c !! k = Some nd →
    ∃ nd' es, c_nodes c' !! k = Some nd' ∧ trace_of nd' = es ++ trace_of nd;
}.

#[local] Instance sys_grows_preorder : PreOrder sys_grows.
Proof.
  split.
  - intros c. split; [done|]. intros k nd E. by exists nd, [].
  - intros a b c [Hd Hn] [Hd' Hn']. split; [auto|]. intros k nd E.
    destruct (Hn k nd E) as (nd'&es&E'&Et). destruct (Hn' k nd' E') as (nd''&es'&E''&Et').
    exists nd'', (es' ++ es). split; [done|]. by rewrite Et', Et, app_assoc.
Qed.

(** A node that has not started has done nothing. *)
Definition idle (c : config) : Prop :=
  ∀ k nd, c_nodes c !! k = Some nd → nd_status nd = NotStarted → trace_of nd = [].

Lemma update_grows c k nd nd' es d :
  c_nodes c !! k = Some nd → trace_of nd' = es ++ trace_of nd → (∀ b, b ∈ c_delivered c → b ∈ d) →
  sys_grows c (mkConfig (<[k := nd']> (c_nodes c)) d).
Proof.
  intros E Et Hd. split; [done|]. intros j x Ej. simpl. destruct (decide (j = k)) as [->|].
  - rewrite E in Ej. injection Ej as <-. exists nd', es. by rewrite lookup_insert_eq.
  - exists x, []. by rewrite lookup_insert_ne.
Qed.

Lemma sys_step_grows c c' : idle c → sys_step c c' → sys_grows c c' ∧ idle c'.
Proof.
  assert (∀ k nd d, idle c → nd_status nd ≠ NotStarted → idle (mkConfig (<[k := nd]> (c_nodes c)) d)) as Hid.
  { intros k nd d Hi Hne j x. simpl. rewrite lookup_insert_Some. intros [[<- <-]|[_ E]]; [done|by apply Hi with j]. }
  intros Hi [k e e' r iter hp hw wo cl il af fu Ek Hrun _|k i e e' r iter hp hw wo cl il af fu Ek Hd Hrun _].
  - split; [|apply Hid; [done|by destruct r]]. eapply (update_grows _ _ _ _ (etrace e')); [exact Ek| |done].
    by rewrite (Hi _ _ Ek eq_refl), app_nil_r.
  - split; [|apply Hid; [done|by destruct r]].
    pose proof (handle_keeps (Sg := signer_of k) iter hp ∅ [] hw wo cl il af fu i e) as Hk.
    rewrite Hrun in Hk. destruct (sf_trace _ _ _ _ _ Hk) as [es Et].
    eapply (update_grows _ _ _ _ es); [exact Ek|exact Et|]. intros b Hb. apply elem_of_app. by right.
Qed.

Lemma typed_grows c c' : sys_grows c c' → typed c' → typed c.
Proof.
  intros [_ Hn] Ht k nd p E Hin. destruct (Hn k nd E) as (nd'&es&E'&Et).
  apply (Ht k nd' p E'). rewrite Et. apply elem_of_app. by right.
Qed.

Lemma elem_of_blocks c b :
  b ∈ blocks_of c ↔ b = Block_genesis ∨ b_hash b = compute_hash b ∧
    (b ∈ c_delivered c ∨ ∃ k nd x, c_nodes c !! k = Some nd ∧ x ∈ trace_of nd ∧ proposed x = Some b).
Proof.
  unfold blocks_of. rewrite elem_of_cons, list_elem_of_filter, elem_of_app, list_elem_of_join.
  split; (intros [?|[Hh H]]; [by left|right; split; [done|]]); (destruct H as [?|H]; [by left|right]).
  - destruct H as (l&Hb&Hl). apply list_elem_of_fmap in Hl as ([k nd]&->&Hin).
    apply elem_of_map_to_list in Hin. apply list_elem_of_omap in Hb as (x&?&?). by exists k, nd, x.
  - destruct H as (k&nd&x&E&Hx&Hp). exists (omap proposed (trace_of nd)).
    split; [apply list_elem_of_omap; by exists x|]. apply list_elem_of_fmap. exists (k, nd).
    split; [done|]. by apply elem_of_map_to_list.
Qed.

Lemma blocks_grow c c' b : sys_grows c c' → b ∈ blocks_of c → b ∈ blocks_of c'.
Proof.
  intros [Hd Hn]. rewrite !elem_of_blocks. intros [?|[Hh H]]; [by left|right; split; [done|]].
  destruct H as [?|(k&nd&x&E&Hx&Hp)]; [left; auto|right].
  destruct (Hn k nd E) as (nd'&es&E'&Et). exists k, nd', x. split_and!; [done| |done].
  rewrite Et. apply elem_of_app. by right.
Qed.

(** ** The invariant *)

Section Run.
Context (blocks : list Block) (blocks_inj : ∀ x y, x ∈ blocks → y ∈ blocks → b_hash x = b_hash y → x = y).
Context (blocks_genesis : Block_genesis ∈ blocks).

#[local] Instance run_setting : Setting := {|
  vset := the_set; byz := faulty; occurs b := b ∈ blocks;
  vset_wf := the_set_wf; byz_bounded := faulty_bounded;
  occurs_inj := blocks_inj; occurs_genesis := blocks_genesis;
|}.

Definition honest_node (k : ValidatorId) : Prop :=
  faulty k = false ∧ power_of the_set k < quorum_threshold the_set.

(** Validator [k] among the votes [σ]. *)
Definition node_of (k : ValidatorId) (σ : gmap ValidatorId (list ballot)) (Hk : honest_node k) : Node := {|
  self := k; chain := blake3 the_chain_id; others := σ;
  self_honest := proj1 Hk; self_power := proj2 Hk;
|}.

Lemma good_grows (No No' : Node) tr q :
  grows (all_votes (No := No) tr) (all_votes (No := No') tr) → good (No := No) tr q → good (No := No') tr q.
Proof. intros Hg [?|Hc]; [by left|right]. by eapply cert_mono. Qed.

Lemma final_grows (No No' : Node) tr b :
  grows (all_votes (No := No) tr) (all_votes (No := No') tr) → final (No := No) tr b → final (No := No') tr b.
Proof. intros Hg (v&cb&Hc&?). exists v, cb. split; [|done]. by eapply cert_mono. Qed.

Lemma backed_grows (No No' : Node) tr v :
  grows (all_votes (No := No) tr) (all_votes (No := No') tr) → backed (No := No) tr v → backed (No := No') tr v.
Proof.
  unfold backed, voted. rewrite !orb_true_iff, !bool_decide_eq_true. intros Hg [?|?]; [by left|right].
  by apply Hg.
Qed.

(** A node's invariant survives the votes of others. *)
Lemma einv_grows (No No' : Node) (e : Eng) :
  self (Node := No) = self (Node := No') → chain (Node := No) = chain (Node := No') →
  grows (all_votes (No := No) (etrace e)) (all_votes (No := No') (etrace e)) →
  reachable (all_votes (No := No') (etrace e)) →
  einv (No := No) e → einv (No := No') e.
Proof.
  intros Es Ec Hg Hr [Hw Hp Hpr He]. split; [|done..|].
  - intros Hk. destruct (Hw Hk) as [[_ [] Hst Hf] Hl]. split; [split|done]; [done| |done|].
    + split; try congruence; try done.
      * destruct so_highest as (q&?&?). exists q. split; [done|]. by apply (good_grows No).
      * intros q Hq. apply (good_grows No); [done|auto].
    + intros b Hb. apply (final_grows No); [done|auto].
  - intros Hk. destruct (He Hk) as [Hc Hv Hq Hws]. split.
    + done.
    + intros k votes v Hl Hin. destruct (Hv k votes v Hl Hin). split; [by apply (backed_grows No)|done].
    + intros q E. apply (good_grows No); [done|auto].
    + intros t l x q Hl Hx E. apply (good_grows No); [done|by eapply Hws].
Qed.

(** Node by node: a new one has not started, a running one is sound, a stopped
    one leaves committed blocks that are final. *)
Definition node_inv (σ : gmap ValidatorId (list ballot)) (k : ValidatorId) (nd : node) : Prop :=
  ∃ Hk : honest_node k,
    match nd_status nd with
    | NotStarted => new_node (No := node_of k σ Hk) the_chain_id (nd_engine nd)
    | Running => einv (No := node_of k σ Hk) (nd_engine nd)
    | Stopped => ∀ b, EAppCommit b ∈ trace_of nd → final (No := node_of k σ Hk) (trace_of nd) b
    end.

Record sys_inv (c : config) : Prop := {
  si_reachable : reachable (votes_map c);
  si_nodes : map_Forall (node_inv (votes_map c)) (c_nodes c);
}.

Lemma all_votes_map c k nd Hk :
  c_nodes c !! k = Some nd → all_votes (No := node_of k (votes_map c) Hk) (trace_of nd) = votes_map c.
Proof.
  intros E. unfold all_votes. simpl. apply insert_id. unfold votes_map. by rewrite lookup_fmap, E.
Qed.

Lemma votes_map_insert c k nd d :
  votes_map (mkConfig (<[k := nd]> (c_nodes c)) d) = <[k := votes_of (trace_of nd)]> (votes_map c).
Proof. unfold votes_map. simpl. by rewrite fmap_insert. Qed.

Lemma votes_map_grows c k nd nd' d es :
  c_nodes c !! k = Some nd → trace_of nd' = es ++ trace_of nd →
  grows (votes_map c) (votes_map (mkConfig (<[k := nd']> (c_nodes c)) d)).
Proof.
  intros E Et j x. rewrite votes_map_insert. unfold votes. destruct (decide (j = k)) as [->|].
  - rewrite lookup_insert_eq, Et, votes_of_app. unfold votes_map. rewrite lookup_fmap, E. simpl.
    rewrite elem_of_app. by right.
  - by rewrite lookup_insert_ne.
Qed.

(** One node's step, as far as the invariant is concerned. *)
Lemma sys_inv_update c k nd nd' d es :
  sys_inv c → c_nodes c !! k = Some nd → trace_of nd' = es ++ trace_of nd →
  let c' := mkConfig (<[k := nd']> (c_nodes c)) d in
  reachable (votes_map c') → node_inv (votes_map c') k nd' → sys_inv c'.
Proof.
  intros [Hr Hn] Ek Et c' Hr' Hn'. split; [done|]. intros j x. simpl.
  rewrite lookup_insert_Some. intros [[<- <-]|[Hne Ej]]; [done|].
  destruct (Hn j x Ej) as [Hj H]. exists Hj.
  assert (c_nodes c' !! j = Some x) as Ej' by (simpl; by rewrite lookup_insert_ne).
  assert (grows (votes_map c) (votes_map c')) as Hg by by eapply votes_map_grows.
  destruct (nd_status x).
  - destruct H. by split.
  - apply (einv_grows (node_of j (votes_map c) Hj)); [done..| | |done];
      change (etrace (nd_engine x)) with (trace_of x); by rewrite !all_votes_map.
  - intros b Hb. apply (final_grows (node_of j (votes_map c) Hj)); [|by apply H].
    by rewrite !all_votes_map.
Qed.

(** ** Messages carry what they claim *)

Lemma vote_bytes_ballot c e v id h t x p :
  hash_ok c → u64_ok v → hash_ok h → payload_ok p →
  payload_bytes p = vote_signing_bytes c e v id h t x → vote_signed_by (ESign p) = Some (t, v, h).
Proof.
  intros Hc Hv Hh Hp E. destruct p as [c' e' v' id' h' t' x'| | | |]; try discriminate E.
  destruct Hp as (Hc'&_&Hv'&_&Hh'&_). unfold payload_bytes, vote_signing_bytes in E.
  apply app_inv_head in E. apply app_inj_1 in E as [_ E]; [|by rewrite Hc'].
  apply app_inj_1 in E as [_ E]; [|by rewrite !length_u64_le].
  apply app_inj_1 in E as [Evi E]; [|by rewrite !length_u64_le].
  apply app_inj_1 in E as [_ E]; [|by rewrite !length_u64_le].
  apply app_inj_1 in E as [-> E]; [|by rewrite Hh'].
  apply u64_le_inj in Evi as ->; [|done..]. injection E as Et _. simpl. by destruct t, t'.
Qed.

Lemma unforged_voted c j vi e v id h t x s :
  typed c → unforged c s → get the_set j = Some vi →
  verify (vi_public_key vi) (vote_signing_bytes (blake3 the_chain_id) e v id h t x) s = true →
  u64_ok v → hash_ok h → voted (votes_map c) j (t, v, h) = true.
Proof.
  intros Ht Hu Hg Hv Hov Hoh. unfold voted. simpl. destruct (faulty j) eqn:Hf; [done|]. simpl.
  destruct (Hu j vi _ Hf Hg Hv) as (nd&p&En&Hin&E). apply bool_decide_eq_true.
  unfold votes, votes_map. rewrite lookup_fmap, En. simpl. apply elem_of_votes_of. exists (ESign p).
  split; [done|]. eapply vote_bytes_ballot; [apply blake3_length|done..|by eapply Ht|done].
Qed.

Lemma aggregate_cert c v h t agg exts :
  typed c → Forall (unforged c) (agg_signatures agg) → u64_ok v → hash_ok h →
  verify_vote_aggregate (blake3 the_chain_id) (mkVoteAggregateRef the_set 0 v h t agg exts) = true →
  cert (votes_map c) t v h.
Proof.
  intros Ht Hu Hov Hoh Hv. apply verify_vote_aggregate_iff in Hv as (_&_&Hal&He&Hq); [|apply the_set_wf].
  simpl in *. unfold cert, quorum. simpl. etrans; [exact Hq|]. apply power_where_mono.
  intros vi Hin Hs. unfold signed_by in Hs. destruct (index_of the_set (vi_id vi)) as [i|] eqn:Ei; [|done].
  bool_prop. destruct (signer_agg_entries agg i Hal Hs) as [s Hent].
  destruct (He i s Hent) as (vi'&Hi&Hver). simpl in Hi, Hver.
  apply (index_of_spec _ the_set_wf) in Ei as (v'&Hi'&Eid). rewrite Hi in Hi'. injection Hi' as <-.
  eapply (unforged_voted c _ vi'); [done| | |exact Hver|done..].
  - rewrite Forall_forall in Hu. apply Hu. unfold agg_entries in Hent. by eapply elem_of_zip_r.
  - apply get_spec; [apply the_set_wf|]. split; [by eapply list_elem_of_lookup_2|done].
Qed.

Lemma deliver_claims c k nd Hk sender msg :
  typed c → c_nodes c !! k = Some nd → deliverable c (InMessage sender msg) →
  Forall hashed (msg_blocks msg) → claims (No := node_of k (votes_map c) Hk) (trace_of nd) msg.
Proof.
  intros Ht Ek [Hok Hs] Hb.
  assert (∀ q, qc_ok q → Forall (unforged c) (qc_sigs q) →
    qc_claim (No := node_of k (votes_map c) Hk) (trace_of nd) q) as Hqc.
  { intros q [] Hq Hv. rewrite all_votes_map by done. by eapply aggregate_cert. }
  assert (∀ o, opt_qc_ok o → Forall (unforged c) (opt_sigs o) →
    ∀ q, o = Some q → qc_claim (No := node_of k (votes_map c) Hk) (trace_of nd) q) as Hoq.
  { intros o Ho Hs' q ->. by apply Hqc. }
  assert (∀ v, vote_ok v → unforged c (v_signature v) →
    vote_claim (No := node_of k (votes_map c) Hk) (trace_of nd) v) as Hvc.
  { intros v [] Hu vi Hg Hv. unfold backed. rewrite all_votes_map by done. by eapply unforged_voted. }
  destruct msg as [b j dc sg anc|v|q sg|v|tv id hqc sg|tc|lqc id sg|pf]; simpl in Hok, Hs, Hb |- *.
  - destruct Hok as [Hj Hd]. apply Forall_cons in Hb as [? ?], Hs as [_ Hs].
    apply Forall_app in Hs as [Hsj Hsd]. split_and!; [done|done|by apply Hqc|].
    intros d ->. destruct (Hd d eq_refl) as [Hin Hout]. apply Forall_app in Hsd as [Hsi Hso].
    split; [by apply Hqc|]. intros outer exts Hv. rewrite all_votes_map by done.
    destruct Hout. by eapply aggregate_cert.
  - rewrite Forall_singleton in Hs. by apply Hvc.
  - apply Forall_cons in Hs as [_ Hs]. by apply Hqc.
  - rewrite Forall_singleton in Hs. by apply Hvc.
  - apply Forall_cons in Hs as [_ Hs]. by apply Hoq.
  - apply Forall_app in Hs as [_ Hs]. intros q Hq. rewrite Forall_forall in Hok.
    apply (Hoq (Some q)); [by apply Hok| |done]. rewrite Forall_forall in Hs |- *. intros s Hin. apply Hs.
    apply list_elem_of_join. exists (opt_sigs (Some q)). split; [done|]. apply list_elem_of_fmap. eauto.
  - apply Forall_cons in Hs as [_ Hs]. by apply Hoq.
  - done.
Qed.

(** ** Every step keeps the invariant *)

Lemma sys_inv_initial c : initial c → sys_inv c.
Proof.
  intros [_ Hi]. split.
  - apply reachable_empty. intros j. unfold votes, votes_map. rewrite lookup_fmap.
    destruct (c_nodes c !! j) as [nd|] eqn:E; [|done]. simpl.
    destruct (Hi j nd E) as (_&_&_&t&st&app&cfg&ev&En&_). unfold trace_of. by rewrite En.
  - intros k nd E. destruct (Hi k nd E) as (Est&Hf&Hp&t&st&app&cfg&ev&En&Hst).
    exists (conj Hf Hp). rewrite Est, En. by split.
Qed.

(** The blocks that a running node proposed are among the run's. *)
Lemma proposals_in_run c k nd :
  c_nodes c !! k = Some nd → (∀ b, b ∈ blocks_of c → b ∈ blocks) → proposals_known (trace_of nd).
Proof.
  intros Ek Hsub ch e b q Hin Hh. apply Hsub, elem_of_blocks. right. split; [done|]. right.
  by exists k, nd, (ESign (PProposal ch e b q)).
Qed.

Lemma delivered_in_run c b :
  b ∈ c_delivered c → (∀ b, b ∈ blocks_of c → b ∈ blocks) → hashed b.
Proof. intros Hin Hsub Hh. apply Hsub, elem_of_blocks. right. auto. Qed.

(** What is left to show of a step of node [k] to engine [e']. *)
Lemma sys_inv_node c k nd e' st d es Hk :
  sys_inv c → c_nodes c !! k = Some nd → etrace e' = es ++ trace_of nd →
  let nd' := mkNode e' st in let c' := mkConfig (<[k := nd']> (c_nodes c)) d in
  let No := node_of k (votes_map c) Hk in
  (∀ b, b ∈ blocks_of c' → b ∈ blocks) → st ≠ NotStarted →
  (st = Running → einv (No := No) e') → safe_trace (No := No) (etrace e') → sys_inv c'.
Proof.
  intros Hi Ek Et nd' c' No Hsub Hst Hrun Hsafe.
  assert (c_nodes c' !! k = Some nd') as Ek' by (simpl; by rewrite lookup_insert_eq).
  destruct (Hsafe (proposals_in_run _ _ _ Ek' Hsub)) as [Hr Hf].
  assert (votes_map c' = all_votes (No := No) (etrace e')) as Eall by apply votes_map_insert.
  assert (all_votes (No := node_of k (votes_map c') Hk) (etrace e') = all_votes (No := No) (etrace e'))
    as Esame by (rewrite <- Eall; by apply (all_votes_map c' k nd')).
  apply (sys_inv_update c k nd nd' d es); [done..|fold c'; by rewrite Eall|fold c']. exists Hk. simpl. destruct st; [done| |].
  - apply (einv_grows No); [done..| | |by apply Hrun]; by rewrite Esame.
  - intros b Hb. change (trace_of nd') with (etrace e').
    apply (final_grows No); [by rewrite Esame|by apply Hf].
Qed.

Lemma sys_inv_step c c' :
  sys_inv c → typed c → (∀ b, b ∈ blocks_of c' → b ∈ blocks) → sys_step c c' → sys_inv c'.
Proof.
  intros Hi Ht Hsub Hs. pose proof (si_nodes _ Hi) as Hn.
  destruct Hs as [k e e' r iter hp hw wo cl il af fu Ek Hrun _|k i e e' r iter hp hw wo cl il af fu Ek Hd Hrun _];
    destruct (Hn _ _ Ek) as [Hk Hnd]; simpl in Hnd.
  - pose proof (run_start_ok (Sg := signer_of k) (No := node_of k (votes_map c) Hk)
      iter hp hw wo cl il af fu the_chain_id e Hnd) as Hw. unfold wp in Hw. rewrite Hrun in Hw.
    assert (trace_of (mkNode e NotStarted) = []) as Et by apply (nn_trace _ _ Hnd).
    pose proof (all_votes_map c k _ Hk Ek) as Eall. rewrite Et in Eall. rewrite Eall in Hw.
    destruct (Hw (si_reachable _ Hi)) as [Hrn Hsafe].
    eapply (sys_inv_node c k _ e' _ _ (etrace e') Hk); [done|exact Ek| |done| | |done].
    + by rewrite Et, app_nil_r.
    + by destruct r.
    + intros E. apply Hrn. by destruct r as [[]| |].
  - pose proof (handle_ok (Sg := signer_of k) (No := node_of k (votes_map c) Hk)
      iter hp hw wo cl il af fu i e Hnd) as Hw. unfold wp in Hw. rewrite Hrun in Hw.
    destruct Hw as [[es Et] _ Hkeep].
    { intros sender msg ->. apply (deliver_claims c k _ Hk sender msg Ht Ek Hd).
      apply Forall_forall. intros b Hb. eapply delivered_in_run; [|exact Hsub].
      simpl. apply elem_of_app. by left. }
    eapply (sys_inv_node c k _ e' _ _ es Hk); [done|exact Ek|done|done| | |by apply einv_safe, Hkeep].
    + by destruct r.
    + intros _. by apply Hkeep.
Qed.

Lemma sys_inv_run c c' :
  rtc sys_step c c' → idle c → sys_inv c → typed c' → (∀ b, b ∈ blocks_of c' → b ∈ blocks) →
  sys_grows c c' ∧ sys_inv c'.
Proof.
  assert (∀ c c', rtc sys_step c c' → idle c → sys_grows c c') as Hgrow.
  { induction 1 as [|x y z Hs _ IH]; intros Hi; [done|].
    destruct (sys_step_grows _ _ Hi Hs) as [Hg Hi']. etrans; [done|auto]. }
  induction 1 as [|x y z Hs Hr IH]; intros Hidle Hi Ht Hsub; [done|].
  destruct (sys_step_grows _ _ Hidle Hs) as [Hg Hidle']. pose proof (Hgrow _ _ Hr Hidle') as Hg'.
  destruct IH as [_ Hz]; [done| |done..|split; [by etrans|done]].
  eapply sys_inv_step; [done| | |done].
  - eapply typed_grows; [|done]. by etrans.
  - intros b Hb. apply Hsub. by eapply blocks_grow.
Qed.

Lemma commit_final c k b :
  sys_inv c → (∀ b, b ∈ blocks_of c → b ∈ blocks) → commits c k b →
  ∃ v cb, cert (votes_map c) TVote2 v (b_hash cb) ∧ occurs cb ∧ extends cb b.
Proof.
  intros Hi Hsub (nd&Ek&Hb). destruct (si_nodes _ Hi k nd Ek) as [Hk Hnd].
  assert (final (No := node_of k (votes_map c) Hk) (trace_of nd) b) as Hf.
  { destruct (nd_status nd).
    - unfold trace_of in Hb. rewrite (nn_trace _ _ Hnd) in Hb. by apply not_elem_of_nil in Hb.
    - apply (einv_safe _ Hnd); [|done]. by eapply proposals_in_run.
    - by apply Hnd. }
  destruct Hf as (v&cb&Hc&?). rewrite (all_votes_map c k nd) in Hc by done. eauto.
Qed.
End Run.

(** ** Properties *)

(** C1: agreement.  In every run of the system - honest nodes starting and
    taking turns in any order, with any messages the signature scheme allows
    from up to [max_faulty_power] of faulty voting power - two blocks that honest
    nodes commit at the same height are the same block, unless two different
    blocks of the run have the same hash.  The validator set is fixed (the
    application asks for no updates), no node restarts within the run, and no
    honest node has a quorum of the voting power by itself. *)
Theorem agreement c k b k' b' :
  sys_reachable c → typed c → commits c k b → commits c k' b' → b_height b = b_height b' →
  b = b' ∨ hash_collision c.
Proof.
  intros (c0&H0&Hrun) Ht Hb Hb' Eh.
  destruct (decide (Forall (λ x, Forall (λ y, b_hash x = b_hash y → x = y) (blocks_of c)) (blocks_of c)))
    as [Hinj|Hn].
  - left. assert (∀ x y, x ∈ blocks_of c → y ∈ blocks_of c → b_hash x = b_hash y → x = y) as Hinj'.
    { intros x y Hx Hy. rewrite Forall_forall in Hinj. specialize (Hinj x Hx).
      rewrite Forall_forall in Hinj. auto. }
    assert (Block_genesis ∈ blocks_of c) as Hg by left.
    destruct (sys_inv_run (blocks_of c) Hinj' Hg c0 c) as [_ Hi]; [done| |by apply sys_inv_initial|done..|].
    { intros j nd E _. destruct H0 as [_ Hi]. destruct (Hi j nd E) as (_&_&_&t&st&app&cfg&ev&En&_).
      unfold trace_of. by rewrite En. }
    destruct (commit_final _ Hinj' Hg c k b Hi) as (v&cb&Hc&Ho&He); [done..|].
    destruct (commit_final _ Hinj' Hg c k' b' Hi) as (v'&cb'&Hc'&Ho'&He'); [done..|].
    by eapply (double_certified_agree (Se := run_setting _ Hinj' Hg)); [apply Hi|exact Ho|exact Ho'|..].
  - right. apply not_Forall_Exists in Hn; [|apply _]. apply Exists_exists in Hn as (x&Hx&Hn).
    apply not_Forall_Exists in Hn; [|apply _]. apply Exists_exists in Hn as (y&Hy&Hn).
    exists x, y. split_and!; [done..| |].
    + intros ->. by apply Hn.
    + destruct (decide (b_hash x = b_hash y)); [done|]. by destruct Hn.
Qed.
End System.

(** *** A run

    Validators 3 and 7 are faulty; node 9 accepts the proposal of view 1, its
    prepare certificate, and the proposal of view 2 that carries the double
    certificate. *)

#[local] Existing Instance sample_blake3.
#[local] Existing Instance sample_verifier.

#[local] Instance noop_fixed : FixedSet NoopApplication.
Proof. intros a txs ctx resp a' E. simpl in E. by injection E as <-. Qed.

Definition sample_faulty (j : ValidatorId) : bool := bool_decide (j ∈ [3; 7]).

Definition sample_signer_of (j : ValidatorId) : Signer :=
  let pk := default [] (vi_public_key <$> get sample_set j) in
  {| sign := sample_sign pk; signer_public_key := pk; signer_validator_id := j |}.

#[local] Instance sample_validators : Validators.
Proof.
  refine {| the_set := sample_set; faulty := sample_faulty; the_chain_id := [];
            signer_of := sample_signer_of; the_set_wf := sample_set_wf |}.
  vm_compute. discriminate.
Defined.

Notation SampleConfig := (config (St := MemoryBlockStore) (App := NoopApplication) (Ev := MemoryEvidenceStore)).

Definition run_qc (t : VoteType) : QuorumCertificate :=
  let h := b_hash sample_proposal_block in
  mkQC h 1 (mkAgg [true; true; false; true]
    (sample_sig t 1 h None <$> filter (λ vi, vi_id vi ≠ 5) sample_infos)) 0.

Definition run_second_block : Block :=
  let b := mkBlock 2 (b_hash sample_proposal_block) 2 3 600 [] GENESIS_HASH [] GENESIS_HASH in
  set_hash b (compute_hash b).

Definition by_3 (p : SignedPayload) : Signature := sample_sign (x01 :: zeros 31) (payload_bytes p).

Definition run_inputs : list Input := InMessage (Some 3) <$> [
  sample_propose;
  Prepare (run_qc TVote) (by_3 (PPrepare (zeros 32) 0 (run_qc TVote)));
  Propose run_second_block (run_qc TVote) (Some (mkDC (run_qc TVote) (run_qc TVote2) []))
    (by_3 (PProposal (zeros 32) 0 run_second_block (run_qc TVote))) [] ].

Definition run_start9 := run_start (Sg := sample_signer_of 9) (St := MemoryBlockStore)
  (App := NoopApplication) (Ev := MemoryEvidenceStore) map_to_list true false (λ _ _, true) sample_clock sample_clock 10 3.
Definition run_handle9 := handle (Sg := sample_signer_of 9) (St := MemoryBlockStore)
  (App := NoopApplication) (Ev := MemoryEvidenceStore) map_to_list true false (λ _ _, true) sample_clock sample_clock 10 3.

Definition run_e0 : SampleEngine :=
  engine_new 0 (mkWorld (with_chain_id 9 sample_set []) mem_new Noop 0 []) None (Some me_new) None None.

Definition run_c0 : SampleConfig := mkConfig {[ 9 := mkNode run_e0 NotStarted ]} [].

(** Node 9 starts, or takes a turn. *)
Definition started (c : SampleConfig) : SampleConfig :=
  match c_nodes c !! 9 with
  | Some nd => let o := run_start9 (nd_engine nd) in
      mkConfig (<[9 := mkNode o.1 (after_start o.2)]> (c_nodes c)) (c_delivered c)
  | None => c
  end.

Definition turned (c : SampleConfig) (i : Input) : SampleConfig :=
  match c_nodes c !! 9 with
  | Some nd => let o := run_handle9 i (nd_engine nd) in
      mkConfig (<[9 := mkNode o.1 (after_turn o.2)]> (c_nodes c)) (input_blocks i ++ c_delivered c)
  | None => c
  end.

Definition run_c (n : nat) : SampleConfig := foldl turned (started run_c0) (take n run_inputs).

Definition run_trace : trace := default [] (trace_of <$> c_nodes (run_c 3) !! 9).
Definition run_payload (x : Effect) : option SignedPayload :=
  match x with ESign p => Some p | _ => None end.

Lemma run_typed : typed (run_c 3).
Proof.
  assert (∀ k nd, c_nodes (run_c 3) !! k = Some nd → k = 9) as Hk.
  { assert (dom (c_nodes (run_c 3)) = {[9]}) as Hd by (vm_compute; reflexivity).
    intros k nd E. apply elem_of_dom_2 in E. rewrite Hd in E. by apply elem_of_singleton in E. }
  assert (Forall payload_ok (omap run_payload run_trace)) as Hf.
  { remember (omap run_payload run_trace) as l eqn:El. vm_compute in El. subst l.
    repeat constructor; vm_compute; done. }
  intros k nd p E Hin. pose proof (Hk k nd E) as ->. rewrite Forall_forall in Hf. apply Hf.
  unfold run_trace. rewrite E. apply list_elem_of_omap. by exists (ESign p).
Qed.

(** A signature of the sample scheme names its key. *)
Lemma sample_unforged (c : SampleConfig) pk m :
  length pk = 32%nat →
  (∀ vi, vi ∈ sample_infos → vi_public_key vi = pk → sample_faulty (vi_id vi) = false →
     ∃ nd p, c_nodes c !! vi_id vi = Some nd ∧ ESign p ∈ trace_of nd ∧ payload_bytes p = m) →
  unforged c (sample_sign pk m).
Proof.
  intros Hl Hs j vi m' Hf Hg Hv. apply (get_spec sample_set sample_set_wf) in Hg as [Hin <-].
  simpl in Hv. apply bool_decide_eq_true in Hv. unfold sample_sign in Hv.
  assert (length (vi_public_key vi) = 32%nat) as Hl'.
  { assert (Forall (λ vi, length (vi_public_key vi) = 32%nat) sample_infos) as H by by repeat constructor.
    rewrite Forall_forall in H. by apply H. }
  apply app_inj_1 in Hv as [Ek <-]; [|by rewrite Hl, Hl']. by apply Hs.
Qed.

(** Signatures of the faulty validators. *)
Lemma faulty_unforged (c : SampleConfig) pk m :
  pk = x00 :: zeros 31 ∨ pk = x01 :: zeros 31 → unforged c (sample_sign pk m).
Proof.
  intros Hpk. apply sample_unforged; [by destruct Hpk as [-> | ->]|]. intros vi Hin E Hf. exfalso.
  unfold sample_infos in Hin.
  repeat (apply elem_of_cons in Hin as [->|Hin]; [by destruct Hpk as [-> | ->]|]).
  by apply not_elem_of_nil in Hin.
Qed.

(** A vote of node 9 that is in its trace. *)
Lemma own_unforged n t i :
  default [] (trace_of <$> c_nodes (run_c n) !! 9) !! i =
    Some (ESign (PVote (zeros 32) 0 1 9 (b_hash sample_proposal_block) t None)) →
  unforged (run_c n) (sample_sig t 1 (b_hash sample_proposal_block) None
    (mkValidatorInfo 9 (x00 :: x01 :: zeros 30) 4)).
Proof.
  intros Hi. apply sample_unforged; [done|]. intros vi Hin E _.
  assert (vi = mkValidatorInfo 9 (x00 :: x01 :: zeros 30) 4) as ->.
  { unfold sample_infos in Hin. repeat (apply elem_of_cons in Hin as [->|Hin]; [done|]).
    by apply not_elem_of_nil in Hin. }
  destruct (c_nodes (run_c n) !! 9) as [nd|] eqn:En; [|done].
  eexists nd, _. split_and!; [exact En|by eapply list_elem_of_lookup_2|done].
Qed.

Lemma run_qc_unforged n t i :
  default [] (trace_of <$> c_nodes (run_c n) !! 9) !! i =
    Some (ESign (PVote (zeros 32) 0 1 9 (b_hash sample_proposal_block) t None)) →
  Forall (unforged (run_c n)) (qc_sigs (run_qc t)).
Proof.
  intros Hi. change (qc_sigs (run_qc t)) with
    (sample_sig t 1 (b_hash sample_proposal_block) None <$> filter (λ vi, vi_id vi ≠ 5) sample_infos).
  repeat constructor.
  - apply faulty_unforged. by left.
  - apply faulty_unforged. by right.
  - by eapply own_unforged.
Qed.

Lemma run_qc_ok t : qc_ok (run_qc t).
Proof. destruct t; repeat constructor; vm_compute; done. Qed.

Lemma run_deliverable n i : run_inputs !! n = Some i → deliverable (run_c n) i.
Proof.
  pose proof run_qc_ok as Hq.
  destruct n as [|[|[|n]]]; intros E; [injection E as <-..|done].
  - split; [split; [|done]; repeat constructor; vm_compute; done|]. constructor; [|constructor].
    apply faulty_unforged. by right.
  - split; [apply Hq|]. constructor; [apply faulty_unforged; by right|].
    apply run_qc_unforged with 1%nat. vm_compute. reflexivity.
  - split; [split; [apply Hq|]; intros d [= <-]; split; apply Hq|]. constructor; [apply faulty_unforged; by right|].
    assert (Forall (unforged (run_c 2)) (qc_sigs (run_qc TVote))) as Hv.
    { apply run_qc_unforged with 14%nat. vm_compute. reflexivity. }
    apply Forall_app. split; [done|]. apply Forall_app. split; [done|].
    apply run_qc_unforged with 10%nat. vm_compute. reflexivity.
Qed.

Definition out_of_fuel (r : res engine_error unit) : bool :=
  match r with Err OutOfFuel => true | _ => false end.

Lemma run_turn n i :
  run_inputs !! n = Some i → (nd_status <$> c_nodes (run_c n) !! 9) = Some Running →
  (λ nd, out_of_fuel (run_handle9 i (nd_engine nd)).2) <$> c_nodes (run_c n) !! 9 = Some false →
  sys_step (run_c n) (run_c (S n)).
Proof.
  intros Ei Es Hf. unfold run_c at 2. erewrite take_S_r by exact Ei. rewrite foldl_app. simpl.
  fold (run_c n). unfold turned. destruct (c_nodes (run_c n) !! 9) as [[e st]|] eqn:En; [|done].
  simpl in Es. injection Es as ->.
  simpl in Hf. injection Hf as Hf.
  eapply sys_turn; [exact En|by apply run_deliverable|apply surjective_pairing|].
  intros E. simpl in E. by rewrite E in Hf.
Qed.

Lemma run_reachable : sys_reachable (run_c 3).
Proof.
  exists run_c0. split.
  - split; [done|]. intros k nd E. unfold run_c0 in E. simpl in E. apply lookup_singleton_Some in E as [<- <-].
    split_and!; [done|done|vm_compute; done|]. eexists _, _, _, _, _. split; [done|].
    intros h b E. unfold mem_new in E. change (get_block (put_block (mkMemoryBlockStore ∅ ∅ ∅) Block_genesis) h = Some b) in E.
    rewrite get_put_block in E. case_decide; [|done]. by injection E as <-.
  - apply rtc_l with (run_c 0).
    { eapply sys_start; [reflexivity|apply surjective_pairing|]. vm_compute. discriminate. }
    apply rtc_l with (run_c 1); [|apply rtc_l with (run_c 2); [|apply rtc_once]].
    all: eapply run_turn; [reflexivity|vm_compute; reflexivity..].
Qed.

Lemma run_commits : commits (run_c 3) 9 sample_proposal_block.
Proof.
  assert (run_trace !! 25%nat = Some (EAppCommit sample_proposal_block)) as Ht by (vm_compute; reflexivity).
  unfold run_trace in Ht. destruct (c_nodes (run_c 3) !! 9) as [nd|] eqn:En; [|done].
  exists nd. split; [done|]. by eapply list_elem_of_lookup_2.
Qed.

Lemma agreement_witness :
  sys_reachable (run_c 3) ∧ commits (run_c 3) 9 sample_proposal_block ∧
  (sample_proposal_block = sample_proposal_block ∨ hash_collision (run_c 3)).
Proof.
  split_and!; [exact run_reachable|exact run_commits|].
  exact (agreement (run_c 3) 9 sample_proposal_block 9 sample_proposal_block
           run_reachable run_typed run_commits run_commits eq_refl).
Defined.
