(* ===== verification/Restart.v ===== *)
(** * A node over crashes and restarts

    The life of one node with a persistence: each process restores the state
    from what the previous one left on disk ([hotmint/src/bin/node.rs]), starts
    the engine and handles messages and timeouts until it crashes, at any point
    of a handler.  What the node has signed and sent stays consistent over all
    of them. *)

From S2P Require Import Prelude Types ValidatorSet Encoding Aggregate VoteCollector State Liveness.
From S2P Require Import BlockStore EvidenceStore World Persist Pacemaker Commit ViewProtocol.
From S2P Require Import VoteSafety Engine Samples EngineSafety.

Section Restart.
Context {St App Ev : Type} `{!BlockStore St, !Application App, !EvidenceStore Ev}.
Context {B3 : Blake3} {Vf : Verifier} {Sg : Signer}.
Context (iter : gmap vote_key (list Vote) → list (vote_key * list Vote)).
Context (has_wal : bool) (wal_intent_ok : nat → Height → bool).
Context (clock_ms instant_ms : nat → N) (anc_fuel fuel : nat).
Context (vid : ValidatorId) (genesis_set : ValidatorSet) (chain_id : bytes).
Notation Eng := (Engine St App Ev).
Implicit Types e : Eng.
Notation start := (run_start (St := St) (App := App) (Ev := Ev)
  iter true has_wal wal_intent_ok clock_ms instant_ms anc_fuel fuel).
Notation handler := (handle (St := St) (App := App) (Ev := Ev)
  iter true has_wal wal_intent_ok clock_ms instant_ms anc_fuel fuel).
Notation steps := (step (St := St) (App := App) (Ev := Ev)
  iter true has_wal wal_intent_ok clock_ms instant_ms anc_fuel fuel).

(** A process on the records [p]: a fresh trace and the restored votes and lock.
    The block sync that [node.rs] runs before the engine may have moved the
    other fields on. *)
Record process (p : PersistentConsensusState) e : Prop := {
  pc_trace : w_trace (en_w e) = [];
  pc_votes : ∀ t, last_vote (en_state e) t = last_vote (restore_state vid genesis_set chain_id p) t;
  pc_lock : cs_locked_qc (en_state e) = cs_locked_qc (restore_state vid genesis_set chain_id p);
}.

(** [tr] is the trace of the process that started as [e] at some moment of its
    life: during the start-up or while a handler runs. *)
Definition moment e (tr : list Effect) : Prop :=
  ∃ later e1,
    w_trace (en_w e1) = later ++ tr ∧
    (e1 = (start e).1 ∨
     ∃ e0 e2 i, start e = (e0, Ok ()) ∧ rtc steps e0 e2 ∧ e1 = (handler i e2).1).

(** The node may start a process on the records [p], and [past] is the trace of
    its processes so far. *)
Inductive started : PersistentConsensusState → list Effect → Prop :=
| started_first : started ∅ []
| started_crash p past e tr p' :
    started p past → process p e → moment e tr → recovered p tr p' → started p' (tr ++ past).

(** ** The invariant over crashes *)

(** What the next process can rely on. *)
Record trace_inv (p : PersistentConsensusState) (past : list Effect) : Prop := {
  ti_unique : ∀ t v h h', signed past t v h → signed past t v h' → h = h';
  ti_sent : sent_signed past;
  ti_votes : ∀ t v h, signed past t v h → vote_le (Some (v, h)) (load_last_vote p t);
  ti_locks : ∀ v, sent2 past v → lock_above (load_locked_qc p) v;
}.

Lemma process_inv p past e :
  trace_inv p past → process p e →
  vote_inv true p past (en_state e) (w_trace (en_w e)).
Proof.
  intros [Hu _ Hv Hl] [Ht Hpv Hpl]. rewrite Ht. split; simpl.
  - intros t v h Hs. rewrite Hpv, restore_last_vote. by apply Hv.
  - done.
  - done.
  - intros _. split; simpl; [done| |].
    + split; [|done]. split.
      * intros t v h Hs [|x lost] tr' E _; [|done]. simpl in E. subst. by apply Hv.
      * intros v Hs [|x lost] tr' E _; [|done]. simpl in E. subst. by apply Hl.
    + intros v Hs. rewrite Hpl, restore_locked_qc. by apply Hl.
Qed.

Lemma moment_inv p past e tr :
  vote_inv true p past (en_state e) (w_trace (en_w e)) → moment e tr →
  ∃ later e1, w_trace (en_w e1) = later ++ tr ∧
    vote_inv true p past (en_state e1) (w_trace (en_w e1)).
Proof.
  intros Hi (later&e1&Htr&Hm). exists later, e1. split; [done|].
  pose proof (run_start_inv iter true p past has_wal wal_intent_ok clock_ms instant_ms anc_fuel
                fuel e Hi) as Hs.
  destruct Hm as [->|(e0&e2&i&He&Hr&->)]; [done|]. rewrite He in Hs. simpl in Hs.
  apply (run_safe iter true p past) in Hr.
  pose proof (handle_keeps iter true p past has_wal wal_intent_ok clock_ms instant_ms anc_fuel
                fuel i e2) as Hk.
  by apply Hk, Hr.
Qed.

Lemma sent_signed_app es tr : sent_signed (es ++ tr) → sent_signed tr.
Proof. induction es as [|x es IH]; [done|]. intros [H _]. auto. Qed.

Lemma sent_signed_join es tr : sent_signed es → sent_signed tr → sent_signed (es ++ tr).
Proof.
  induction es as [|x es IH]; [done|]. intros [Hs Hx] Ht. split; [auto|].
  destruct (vote_sent_by x); [|done]. destruct Hx as (c&Hin&E). exists c. split; [set_solver|done].
Qed.

Lemma guarded_app es tr : guarded (es ++ tr) → guarded tr.
Proof. induction es as [|x es IH]; [done|]. intros [H _]. auto. Qed.

Lemma signed_app_l es tr t v h : signed tr t v h → signed (es ++ tr) t v h.
Proof. intros (x&Hx&E). exists x. split; [set_solver|done]. Qed.

(** The moment's trace satisfies what the invariant says of its own suffix. *)
Lemma crash_inv p past e tr p' :
  trace_inv p past → process p e → moment e tr → recovered p tr p' →
  trace_inv p' (tr ++ past).
Proof.
  intros Hti Hp Hm Hr. destruct (moment_inv p past e tr) as (later&e1&Htr&Hi);
    [by apply process_inv|done|]. rewrite Htr in Hi. destruct Hi as [_ Hu Hs Hd].
  destruct (always_now _ _ (always_app _ _ _ (di_covered _ _ _ _ (Hd eq_refl)))) as [Hcv Hcl].
  split.
  - intros t v h h' Ha Hb. rewrite <- app_assoc in Hu. eapply Hu; by apply signed_app_l.
  - apply sent_signed_join; [by eapply sent_signed_app|apply Hti].
  - intros t v h Ha. destruct (recovered_last_vote _ _ _ t Hr) as (lost&tr'&E&Hl&->).
    by eapply (Hcv t v h Ha).
  - intros v Ha. destruct (recovered_locked_qc _ _ _ Hr) as (lost&tr'&E&Hl&->).
    by eapply (Hcl v Ha).
Qed.

Lemma started_inv p past : started p past → trace_inv p past.
Proof.
  induction 1 as [|p past e tr p' _ IH Hp Hm Hr]; [|by eapply crash_inv].
  split; try done.
  - intros t v h h' (x&Hx&_). by apply not_elem_of_nil in Hx.
  - intros t v h (x&Hx&_). by apply not_elem_of_nil in Hx.
  - intros v (x&vote&Hx&_). by apply not_elem_of_nil in Hx.
Qed.

(** ** Properties *)

(** C2: A node with a persistence never signs two different blocks with votes of
    the same type at the same view, over its whole life: whatever messages and
    timeouts it handles, and however often it crashes, at any point of any
    handler and losing any of the writes after the last flush, and restarts
    from what is left. *)
Theorem no_double_vote p past e tr t v h h' :
  started p past → process p e → moment e tr →
  signed (tr ++ past) t v h → signed (tr ++ past) t v h' → h = h'.
Proof.
  intros Hs Hp Hm. apply started_inv in Hs.
  destruct (moment_inv p past e tr) as (later&e1&Htr&[_ Hu _ _]); [by apply process_inv|done|].
  rewrite Htr, <- app_assoc in Hu. intros Ha Hb. eapply Hu; by apply signed_app_l.
Qed.

(** C5: Along every run of an engine, with or without a persistence, the current
    view, the rank of the lock, the rank of the highest certificate and the
    committed height never go back. *)
Theorem engine_run_monotone hp e e' :
  rtc (step (St := St) (App := App) (Ev := Ev)
         iter hp has_wal wal_intent_ok clock_ms instant_ms anc_fuel fuel) e e' →
  cs_current_view (en_state e) ≤ cs_current_view (en_state e') ∧
  rank_le (cs_locked_qc (en_state e)) (cs_locked_qc (en_state e')) ∧
  rank_le (cs_highest_qc (en_state e)) (cs_highest_qc (en_state e')) ∧
  cs_last_committed_height (en_state e) ≤ cs_last_committed_height (en_state e').
Proof. intros Hr. by destruct (run_safe iter hp ∅ [] _ _ _ _ _ _ _ _ Hr) as [[] _ _]. Qed.

(** C4: Every vote a node signs has been recorded and flushed to the persistence
    by the two calls right before the signature, and every vote it sends carries
    its own signature over exactly that vote. *)
Theorem votes_recorded_then_signed_then_sent p past e tr :
  started p past → process p e → moment e tr → guarded tr ∧ sent_signed tr.
Proof.
  intros Hs Hp Hm. apply started_inv in Hs.
  destruct (moment_inv p past e tr) as (later&e1&Htr&[_ _ Hse Hd]); [by apply process_inv|done|].
  rewrite Htr in *. split; [|by eapply sent_signed_app].
  eapply guarded_app. apply (Hd eq_refl).
Qed.

(** C3: After any crash, the state that the node restores holds a lock at least
    as high as every second-phase vote it has ever sent, and its double-sign
    guard refuses every block but the one already voted for at each view. *)
Theorem restored_state_remembers p past :
  started p past →
  let s := restore_state vid genesis_set chain_id p in
  (∀ v, sent2 past v → ∃ q, cs_locked_qc s = Some q ∧ v ≤ qc_view q) ∧
  (∀ t v h h', signed past t v h → h' ≠ h → check_and_record_vote s t v h' = (s, false)).
Proof.
  intros [_ _ Hv Hl]%started_inv s. split.
  - intros v Hs. apply Hl in Hs. unfold s. rewrite restore_locked_qc.
    destruct (load_locked_qc p) as [q|]; [by exists q|done].
  - intros t v h h' Hs Hne. apply Hv in Hs. rewrite <- (restore_last_vote vid genesis_set chain_id) in Hs.
    fold s in Hs. unfold check_and_record_vote.
    destruct (last_vote s t) as [[v' h'']|]; [|done]. simpl in Hs.
    destruct Hs as [Hlt|[-> ->]].
    + by destruct (N.ltb_spec v v'); [|lia].
    + rewrite N.ltb_irrefl, N.eqb_refl. by rewrite bool_decide_false by congruence.
Qed.
End Restart.

(** ** Witnesses *)

#[local] Existing Instance sample_blake3.
#[local] Existing Instance sample_verifier.
#[local] Existing Instance sample_signer.

Lemma sample_start_ok : sample_start sample_engine = (sample_e0, Ok ()).
Proof.
  assert ((sample_start sample_engine).2 = Ok ()) as E by (vm_compute; reflexivity).
  unfold sample_e0. by destruct (sample_start sample_engine); simpl in *; subst.
Qed.

Lemma sample_propose_ok :
  sample_handle (InMessage (Some 3) sample_propose) sample_e0 = (sample_e1, Ok ()).
Proof.
  assert ((sample_handle (InMessage (Some 3) sample_propose) sample_e0).2 = Ok ()) as E
    by (vm_compute; reflexivity).
  unfold sample_e1. by destruct (sample_handle _ sample_e0); simpl in *; subst.
Qed.

Lemma sample_run :
  rtc (step map_to_list true false (λ _ _, true) sample_clock sample_clock 10 3) sample_e0 sample_e1.
Proof. eapply rtc_once, step_ok, sample_propose_ok. Qed.

Lemma sample_process : process 5 sample_set [] ∅ sample_engine.
Proof. by split. Qed.

Lemma sample_moment :
  moment map_to_list false (λ _ _, true) sample_clock sample_clock 10 3 sample_engine sample_trace.
Proof.
  exists [], sample_e2. split; [done|]. right.
  exists sample_e0, sample_e1, (InMessage (Some 3) sample_prepare).
  split; [apply sample_start_ok|]. split; [apply sample_run|done].
Qed.

Notation sample_started := (started (St := MemoryBlockStore) (App := NoopApplication)
  (Ev := MemoryEvidenceStore) map_to_list false (λ _ _, true) sample_clock sample_clock 10 3
  5 sample_set []).

Lemma sample_restart : sample_started (written ∅ sample_trace) (sample_trace ++ []).
Proof.
  eapply started_crash; [apply started_first|apply sample_process|apply sample_moment|].
  intros k. exists [], sample_trace. split_and!; [done|apply not_elem_of_nil|done].
Qed.

Lemma signed_intro tr t v h :
  existsb (λ x, bool_decide (vote_signed_by x = Some (t, v, h))) tr = true → signed tr t v h.
Proof.
  intros (x&Hx&E)%existsb_exists. apply list_elem_of_In in Hx. bool_prop. by exists x.
Qed.

Lemma sent2_intro tr v :
  existsb (λ x, match vote_sent_by x with
                | Some vote => bool_decide (v_vote_type vote = TVote2) && (v_view vote =? v)
                | None => false
                end) tr = true → sent2 tr v.
Proof.
  intros (x&Hx&E)%existsb_exists. apply list_elem_of_In in Hx.
  destruct (vote_sent_by x) as [vote|] eqn:Ev; [|done]. bool_prop. exists x, vote. naive_solver.
Qed.

Lemma no_double_vote_witness :
  signed (sample_trace ++ []) TVote2 1 (b_hash sample_proposal_block) ∧
  b_hash sample_proposal_block = qc_block_hash sample_prepare_qc.
Proof.
  assert (signed (sample_trace ++ []) TVote2 1 (b_hash sample_proposal_block)) as Hs
    by (apply signed_intro; vm_compute; reflexivity).
  split; [exact Hs|].
  apply (no_double_vote map_to_list false (λ _ _, true) sample_clock sample_clock 10 3
    5 sample_set [] ∅ [] sample_engine sample_trace TVote2 1 (b_hash sample_proposal_block)
    (qc_block_hash sample_prepare_qc)).
  - apply started_first.
  - apply sample_process.
  - apply sample_moment.
  - exact Hs.
  - exact Hs.
Defined.

Lemma votes_recorded_then_signed_then_sent_witness :
  sent2 sample_trace 1 ∧ guarded sample_trace ∧ sent_signed sample_trace.
Proof.
  split; [apply sent2_intro; vm_compute; reflexivity|].
  apply (votes_recorded_then_signed_then_sent map_to_list false (λ _ _, true) sample_clock
    sample_clock 10 3 5 sample_set [] ∅ [] sample_engine sample_trace).
  - apply started_first.
  - apply sample_process.
  - apply sample_moment.
Defined.

Lemma restored_state_remembers_witness :
  let s := restore_state 5 sample_set [] (written ∅ sample_trace) in
  (∃ q, cs_locked_qc s = Some q ∧ 1 ≤ qc_view q) ∧
  check_and_record_vote s TVote 1 GENESIS_HASH = (s, false).
Proof.
  destruct (restored_state_remembers map_to_list false (λ _ _, true) sample_clock
    sample_clock 10 3 5 sample_set [] (written ∅ sample_trace) (sample_trace ++ []) sample_restart)
    as [Hl Hv].
  split.
  - apply Hl, sent2_intro. vm_compute. reflexivity.
  - apply (Hv TVote 1 (b_hash sample_proposal_block)); [apply signed_intro; vm_compute; reflexivity|].
    apply (bool_decide_unpack _). vm_compute. exact I.
Defined.

Lemma engine_run_monotone_witness :
  rank_le (cs_highest_qc (en_state sample_e0)) (cs_highest_qc (en_state sample_e1)).
Proof.
  destruct (engine_run_monotone map_to_list false (λ _ _, true) sample_clock sample_clock 10 3 true
    sample_e0 sample_e1 sample_run) as (_&_&H&_).
  exact H.
Defined.
