(* ===== verification/Boundaries.v ===== *)
(** * Where the code departs from its intent

    Concrete runs that show behaviour outside what the comments and the protocol
    description intend. *)

From S2P Require Import Prelude Types ValidatorSet Encoding Aggregate VoteCollector State Liveness.
From S2P Require Import BlockStore EvidenceStore World Persist Pacemaker Commit ViewProtocol.
From S2P Require Import VoteSafety Engine Samples EngineSafety Restart.

#[local] Existing Instance sample_blake3.
#[local] Existing Instance sample_verifier.

(** ** A restart in view 1 forgets the highest certificate

    Node 3 leads views 1 and 2.  It proposes, collects a quorum, locks and
    crashes in view 1. *)

#[local] Instance leader_signer : Signer :=
  {| sign := sample_sign (x01 :: zeros 31); signer_public_key := x01 :: zeros 31;
     signer_validator_id := 3 |}.

Notation leader_start clock := (run_start (St := MemoryBlockStore) (App := NoopApplication)
  (Ev := MemoryEvidenceStore) map_to_list true false (λ _ _, true) clock clock 10 3).
Notation leader_handle clock := (handle (St := MemoryBlockStore) (App := NoopApplication)
  (Ev := MemoryEvidenceStore) map_to_list true false (λ _ _, true) clock clock 10 3).

Definition leader_e0 : SampleEngine :=
  (leader_start (λ _, 1000)
     (engine_new 0 (mkWorld (restore_state 3 sample_set [] ∅) mem_new Noop 0 []) None
        (Some me_new) None None)).1.

(** The block it proposed. *)
Definition proposed_in (tr : list Effect) : option (Block * QuorumCertificate) :=
  head (omap (λ x, match x with
                   | EBroadcast (Propose b j _ _ _) => Some (b, j)
                   | _ => None
                   end) tr).

Definition leader_block1 : Block :=
  match proposed_in (w_trace (en_w leader_e0)) with Some (b, _) => b | None => Block_genesis end.

Definition vote_by (vi : ValidatorInfo) : Input :=
  let sig := sample_sig TVote 1 (b_hash leader_block1) None vi in
  InMessage (Some (vi_id vi))
    (VoteMsg (mkVote 0 (b_hash leader_block1) 1 (vi_id vi) sig TVote None)).

Definition leader_locked : SampleEngine :=
  (leader_handle (λ _, 1000) (vote_by (mkValidatorInfo 5 (x02 :: zeros 31) 3))
     (leader_handle (λ _, 1000) (vote_by (mkValidatorInfo 9 (x00 :: x01 :: zeros 30) 4)) leader_e0).1).1.

(** What it left on disk, and the process that starts on it, a second later,
    with the blocks that are in the store. *)
Definition leader_records : PersistentConsensusState := written ∅ (w_trace (en_w leader_locked)).

Definition leader_restored : SampleEngine :=
  engine_new 0 (mkWorld (restore_state 3 sample_set [] leader_records) (en_store leader_locked)
                  Noop 0 []) None (Some me_new) None None.

Definition wish_tc (vi : ValidatorInfo) : Input :=
  InMessage (Some (vi_id vi))
    (Wish 2 (vi_id vi) None
       (sample_sign (vi_public_key vi) (payload_bytes (PWish (zeros 32) 0 2 None)))).

Definition leader_view2 : SampleEngine :=
  (leader_handle (λ _, 2000) (wish_tc (mkValidatorInfo 5 (x02 :: zeros 31) 3))
     (leader_handle (λ _, 2000) (wish_tc (mkValidatorInfo 9 (x00 :: x01 :: zeros 30) 4))
        (leader_start (λ _, 2000) leader_restored).1).1).1.

(** The vote it signs in view 2 is for a block justified by the genesis
    certificate, below the lock it holds. *)
Definition votes_below_lock (e : SampleEngine) : bool :=
  match proposed_in (w_trace (en_w e)) with
  | Some (b, j) =>
      below_lock (cs_locked_qc (en_state e)) j &&
      existsb (λ x, bool_decide (vote_signed_by x = Some (TVote, b_view b, b_hash b)))
        (w_trace (en_w e))
  | None => false
  end.

(** A node that restarts in view 1 with a lock enters view 1 again with the
    genesis certificate as its highest one, and as the leader of view 2 signs a
    vote for a block its own lock forbids: [leader_self_vote] does not look at
    the lock and [enter_genesis_view] replaces the restored highest certificate. *)
Lemma restart_in_view_one_votes_below_lock :
  (qc_view <$> cs_highest_qc (w_state (en_w leader_restored)) = Some 1) ∧
  (qc_view <$> cs_highest_qc (en_state leader_view2) = Some 0) ∧
  cs_locked_qc (en_state leader_view2) = cs_locked_qc (en_state leader_locked) ∧
  votes_below_lock leader_view2 = true.
Proof. split_and!; vm_compute; reflexivity. Qed.

(** ** A proposal that carries its own double certificate

    With a log, node 5 executes the block without a commit intent: the engine
    looks the certified block up before [on_proposal] stores it. *)

#[local] Existing Instance sample_signer.

Notation walled App := (handle (St := MemoryBlockStore) (App := App)
  (Ev := MemoryEvidenceStore) map_to_list true true (λ _ _, true) sample_clock sample_clock 10 3).

Definition sample_self_dc : DoubleCertificate :=
  mkDC sample_prepare_qc
    (mkQC (b_hash sample_proposal_block) 1 (sample_agg TVote2 1 (b_hash sample_proposal_block)) 0) [].

Definition propose_with (dc : option DoubleCertificate) : Input :=
  InMessage (Some 3)
    (Propose sample_proposal_block sample_genesis_qc dc
       (sample_sign (x01 :: zeros 31)
          (payload_bytes (PProposal (zeros 32) 0 sample_proposal_block sample_genesis_qc))) []).

Definition self_certified : SampleEngine :=
  (walled NoopApplication (propose_with (Some sample_self_dc)) sample_e0).1.

Definition is_commit_effect (x : Effect) : bool :=
  match x with EAppExecute _ | EAppCommit _ | EWalIntent _ | EWalDone _ => true | _ => false end.

(** A proposal that carries a double certificate of its own block is executed
    and committed without a commit intent in the log, and the log then gets a
    done mark for it. *)
Lemma self_certified_proposal_commits_without_intent :
  List.filter is_commit_effect (w_trace (en_w self_certified)) =
    [EWalDone 1; EAppCommit sample_proposal_block; EAppExecute sample_proposal_block].
Proof. vm_compute. reflexivity. Qed.

(** ** Validator updates the set refuses

    An application that asks for a validator whose power overflows the total. *)

Inductive UpdatesApplication : Type := Updates.

#[local] Instance updates_application : Application UpdatesApplication := {|
  app_info _ := mkAppInfo 0 GENESIS_HASH;
  app_create_payload a _ := ([], a);
  app_validate_block a _ _ := (true, a);
  app_execute_block a _ _ :=
    (Some (mkEndBlockResponse [mkValidatorUpdate 11 (zeros 32) u64_max] [] GENESIS_HASH), a);
  app_on_commit a _ _ := (true, a);
  app_on_evidence a _ := (true, a);
  app_on_offline_validators a _ := (true, a);
  app_extend_vote a _ _ := (None, a);
  app_verify_vote_extension a _ _ _ := (true, a);
  app_tracks_app_hash _ := false;
  app_validate_tx a _ _ := (TxValidationResult_accept 0, a);
  app_query a _ _ := (Some (mkQueryResponse [] None 0), a);
|}.

(** Node 5 receives the first proposal, then the proposal of view 2 with the
    double certificate of the first block. *)
Definition sample_second_block : Block :=
  let b := mkBlock 2 (b_hash sample_proposal_block) 2 3 600 [] GENESIS_HASH [] GENESIS_HASH in
  set_hash b (compute_hash b).

Definition second_proposal : Input :=
  InMessage (Some 3)
    (Propose sample_second_block sample_prepare_qc (Some sample_self_dc)
       (sample_sign (x01 :: zeros 31)
          (payload_bytes (PProposal (zeros 32) 0 sample_second_block sample_prepare_qc))) []).

Definition updates_engine : Engine MemoryBlockStore UpdatesApplication MemoryEvidenceStore :=
  (walled UpdatesApplication second_proposal
     (walled UpdatesApplication (propose_with None)
        (run_start (Ev := MemoryEvidenceStore) map_to_list true true (λ _ _, true)
           sample_clock sample_clock 10 3
           (engine_new 0 (mkWorld (restore_state 5 sample_set [] ∅) mem_new Updates 0 []) None
              (Some me_new) None None)).1).1).1.

(** When the set refuses a block's validator updates, one message executes and commits the block twice, each time with its
    intent marked done, and the committed height stays at 0: [try_commit] fails
    after [on_commit], before it advances the height. *)
Lemma refused_updates_commit_twice :
  let b := sample_proposal_block in
  List.filter is_commit_effect (w_trace (en_w updates_engine)) =
    [EWalDone 1; EAppCommit b; EAppExecute b; EWalIntent 1;
     EWalDone 1; EAppCommit b; EAppExecute b; EWalIntent 1] ∧
  cs_last_committed_height (en_state updates_engine) = 0.
Proof. split; vm_compute; reflexivity. Qed.
